(* ===== verification/_CoqProject ===== *)
-Q . S2P
Prelude.v
VClock.v
Lamport.v
Matrix.v
Execution.v
Version.v
Events.v
HoldBack.v
Process.v
Delivery.v
EndToEnd.v
System.v
MatrixSystem.v
Conflict.v
Causality.v
Cuts.v
Transport.v
Snapshot.v
Simulation.v
Typing.v
Scenarios.v
GoStrings.v
Auth.v
RateLimit.v
Middleware.v
Hub.v
Server.v
Rest.v
Gateway.v
Endpoints.v
Startup.v
Tls.v
Certs.v
Telemetry.v
Main.v
Metrics.v
