(* ===== verification/Prelude.v ===== *)
(** * Vector Clock Lab: verification library

    A model in Rocq of the Go program under src/, a laboratory for logical time
    in distributed systems: logical clocks, processes that stamp and deliver
    messages, a simulated network, snapshots, a causal key-value store, and an
    HTTP server around a simulation of them.

    ** The parts of the program and the files that model them

    Clocks (src/internal/clock):
    - VClock.v: package vector.  A clock is a finite map to [N] kept below 2^64
      with the wrap-around of Go's uint64; [Tick], [Send], [Receive],
      [MergePassive], [Compare], [ConcurrentSet], [Diff], [Apply].
    - Lamport.v, Matrix.v: packages lamport and matrix.
    - Version.v: packages version and dvv.
    - Execution.v: no code; executions, happened-before, and the interface
      [ClockAlg] with its laws [LogicalClock] that the three clocks implement.

    Processes (src/internal/process, src/internal/events):
    - Events.v: the event bus (types.go, bus.go): publish queue, ring of the
      last 1000 events, subscriber channels.
    - HoldBack.v: the hold-back queue (holdback.go).
    - Process.v: the process (process.go), against an interface [Transport] for
      the network; its goroutine and the calls from outside as a step relation.
    - Delivery.v, EndToEnd.v: no code; what arrives without a gap is delivered,
      and what that means for a sender and a receiver together.
    - System.v: several processes and an arbitrary network, refining
      Execution.v.  MatrixSystem.v: the same processes with matrix clocks.

    Stores, causality, snapshots (src/internal/conflict, causality, snapshot):
    - Conflict.v: detector.go, resolver.go, antientropy.go, and process/kvstore.go.
    - Causality.v, Cuts.v: graph.go and cut.go.
    - Snapshot.v: chandy_lamport.go and verifier.go.

    The simulation (src/internal/simulation):
    - Transport.v: transport.go, constants.go; also the instance of the
      processes' network interface.
    - Simulation.v: simulation.go.  The state is the record [Simulation]: the
      processes, the processes no longer listed whose goroutines still run, and
      the [World] they share (bus, transport, coordinator, clock readings).
    - Typing.v: no code; which numbers each part of a simulation can hold.
    - Scenarios.v: scenarios.go and the runner in rest.go.

    The server (src/gateway, src/cmd/server, src/internal/telemetry):
    - GoStrings.v: the functions of Go's strings package that are used.
    - Auth.v: auth/auth.go.  RateLimit.v: ratelimit.go, in the binary64
      arithmetic of the standard library's SpecFloat.  Middleware.v: the other
      middleware of server.go and the origin check of websocket.go.
    - Hub.v: websocket.go, a client as the channel to its write pump plus what
      its goroutines have done.
    - Server.v: server.go, the record [Server] with all simulations there ever
      were (a stopped one is still referred to), and the goroutines it starts.
    - Rest.v: rest.go, one definition per handler with its checks in order,
      the table of routes, and [serve], the chain of middleware around them.
    - Gateway.v, Endpoints.v: no code; what the server promises.
    - Metrics.v: metrics.go.
    - Startup.v: the configuration and the first simulation of main.go.
      Tls.v: tlsconfig/tlsconfig.go.  Telemetry.v: telemetry.go.  Main.v: [main]
      itself, which puts these together, and the serving functions of server.go.
    - Certs.v: tlsconfig/gencert.go and src/scripts/gen-test-cert.

    This file holds what all share: uint64 arithmetic, Go maps, folds.

    ** How the code is rendered

    Stateful code is explicit state passing: a method becomes a function from
    the state to the new state and its results, errors are values of an option
    or a sum.  A method that holds a mutex for its whole body is one step.  The
    step relation of one process ([Process.pstep], used by System.v, Delivery.v
    and EndToEnd.v) cuts methods where the lock is released: Send into
    [Process.prepare] and the hand-over to the network, the handling of a
    message into check, delivery and reports, with any change of the world in
    between.  In a whole simulation ([sim_op]) the steps are coarser: a call from
    outside (Send, Broadcast, a spawn, a kill, the start of a snapshot), a
    message handled by a process, or a message taken from a channel and recorded
    is one step, with the coordinator's calls and callbacks it makes.  A request
    to the server is one step as well, but for what it starts: the rounds of the
    hub, of the clients, of the followers and of a running scenario are their own.

    Goroutines are step functions ([forward_step], [deliver_step],
    [process_step], [handleCausalGraphEvents], [run], [replay_step],
    [pump_step], [causal_step], [runner_step]); a run is a list of operations
    and rounds in any order, so theorems about all runs are about all schedules
    at that granularity.  A [select] with several ready cases takes the choice
    as an argument.  A goroutine of a killed process or a closed transport may
    make further rounds, more than the program can: theorems about all runs
    cover these too.  Time is an argument: [now n] is the n-th reading of the
    clock.

    A Go map is a [gmap]; the order in which a range loop visits it is not
    specified, so every loop goes through the class [MapRange] and theorems hold
    for every instance.  [canonical_range] is one, used to evaluate examples.

    Loops that are not structural run on fuel, and theorems state that the fuel
    given is enough: [TryDeliver_loop] gets one unit more than the queue is
    long, as every scan removes a message; [bfs] and [history_loop] get more
    than the number of edges, a node's successors being pushed when it is first
    visited only ([bfs] also gives up after 10000 nodes, as the code does);
    [kahn] gets more than the number of events, each queued once; [itoa_loop]
    gets the 20 digits of a uint64; trimming and the label reader get the length
    of the string, which every round shortens.

    ** What the theorems show

    - Clocks: [Compare] decides the pointwise order; the rules move clocks
      strictly forward except at the top of uint64, where a tick goes back;
      time stamps decide (vector) or respect (Lamport) happened-before, for
      executions and for the events real processes publish; for these processes
      the matrix clock's garbage-collection bound is safe and its own row is the
      vector clock the same run would have had; delta encoding round-trips.
    - Delivery: in causal mode messages are delivered in causal order and never
      twice; [TryDeliver] terminates with exactly what can be released; messages
      without a gap are all delivered, so senders with one destination reach it
      as over reliable ordered channels; and a gap in a sender's counters blocks
      what follows for ever, which Broadcast causes.
    - Bus: history is the last 1000 events in order, losses are counted.
    - Store: what a write keeps, the bounds of the store, what Sync and the
      resolvers keep.
    - Graph and cuts: the queries are exact, against inductive reachability.
    - Snapshots: termination, the exact cut and channel states, the verifier;
      and in Simulation.v that the simulation's wiring breaks consistency.
    - Simulation and scenarios: membership invariant; every number stays in its
      Go type; what each scenario does.
    - Server: tokens fail closed and round-trip; address isolation and exact
      bursts of the limiter; what a WebSocket client is sent; the wiring
      invariant across resets; a failed request changes nothing but for failed
      sends; nobody acts without a token; the outcomes of main from start-up to
      the end, with nothing left running; TLS is never lost; how panics are
      accounted; the metrics page can be read back.
    - Certificates: what the generators make parses to what was asked for, and
      the chain it forms.

    Properties come with a witness, a concrete run on which their hypotheses
    hold; an Example marks a behaviour that differs from what a comment or a
    name promises.

    ** What is an argument or an interface

    Code outside src/ : decoding of JSON bodies is the class [Rest.Bind] (it may
    fail after filling some fields, as gin's does); gin's routing gives the
    matched pattern and the parameters with the request; the WebSocket handshake
    is a flag of the request; reading and parsing certificates, YAML and token
    files, parsing of floats and durations, and formatting with %g are
    arguments; so are OpenTelemetry's exporters and providers, and whether
    net/http can listen and when it stops.  None of the theorems assumes anything
    about them, but for Certs.v: there PEM and PKCS#8 can be read back and a
    created certificate parses to its template, as their documentation says
    ([Certs.Toy] is an instance).

    ** Not modelled

    Logging, which has no effect on the state.  The recovery from panics in the
    goroutine of a process: nothing modelled panics there; the one nil
    dereference a handler could meet is [Rest.panicked], and the wiring
    invariant excludes it, while [Middleware.handled] says what becomes of any
    panic of a handler.  HTTP itself, its time-outs and its own shutdown, left to
    net/http; pings, deadlines and the ignored frames of WebSocket clients.  The
    registry of Prometheus: the counters are kept, gathering them is its own.
    The smoke test of telemetry (src/internal/telemetry/cmdtest), which calls
    Init and prints.  The race between a reset's reconnection of the hub and a
    WebSocket client connecting at that moment: reconnecting is one step.  An
    anonymous function at the end of rest.go that nothing calls.  The TypeScript
    front end and the tests. *)
From stdpp Require Import gmap strings list pretty fin_maps.

(** ** Machine integers

    Go's [uint64] is modelled by [N] with the wrap-around of every addition
    written out. *)
Definition two64 : N := 18446744073709551616.
Definition MaxUint64 : N := 18446744073709551615.
Definition u64_add (x y : N) : N := ((x + y) mod two64)%N.
Definition u64_succ (x : N) : N := u64_add x 1.

Create HintDb vclock.
Create Rewrite HintDb vclock_rw.

Lemma u64_add_small x y : (x + y <= MaxUint64)%N → u64_add x y = (x + y)%N.
Proof. intros H. apply N.mod_small. unfold two64, MaxUint64 in *. lia. Qed.

Lemma u64_succ_small x : (x < MaxUint64)%N → u64_succ x = (x + 1)%N.
Proof. intros H. apply u64_add_small. lia. Qed.

Lemma u64_succ_max : u64_succ MaxUint64 = 0%N.
Proof. reflexivity. Qed.

Lemma u64_add_bound x y : (u64_add x y < two64)%N.
Proof. apply N.mod_lt. discriminate. Qed.

(** A successor that is not zero did not wrap. *)
Lemma u64_succ_nonzero x :
  (x < two64)%N → u64_succ x ≠ 0%N → u64_succ x = (x + 1)%N ∧ (x < MaxUint64)%N.
Proof.
  intros Hx Hne. destruct (decide (x = MaxUint64)) as [->|Hd]; [done|].
  assert (x < MaxUint64)%N by (unfold two64, MaxUint64 in *; lia).
  split; [by apply u64_succ_small|done].
Qed.

(** ** Go maps

    A Go map is a [gmap]; reading an absent key gives the zero value.  The
    order in which [for k, v := range m] visits the entries is unspecified
    in Go, so it is an interface: an instance of [MapRange] is one choice of
    visiting order, and every theorem holds for every instance. *)
Definition mget {K} `{Countable K} (m : gmap K N) (k : K) : N := default 0%N (m !! k).

Declare Scope go_scope.
Delimit Scope go_scope with go.
Notation "m .[ k ]" := (mget m k) (at level 1, left associativity, format "m .[ k ]") : go_scope.
Open Scope go_scope.

Class MapRange := {
  range {K} `{Countable K} {V} : gmap K V → list (K * V);
  range_perm {K} `{Countable K} {V} (m : gmap K V) : range m ≡ₚ map_to_list m
}.

(** The visiting order of [map_to_list], used to run the model. *)
Definition canonical_range : MapRange :=
  {| range := λ K _ _ V m, map_to_list m; range_perm := λ K _ _ V m, reflexivity _ |}.

(** The reversed order, a second instance for the order-independence tests. *)
Program Definition reversed_range : MapRange :=
  {| range := λ K _ _ V m, reverse (map_to_list m) |}.
Next Obligation. intros. apply reverse_Permutation. Qed.

Section range.
Context `{MapRange} {K} `{Countable K}.

(** [for k, v := range m { body }] with the loop's variables in [acc]. *)
Definition for_range {V A} (m : gmap K V) (body : K → V → A → A) (acc : A) : A :=
  foldl (λ a kv, body kv.1 kv.2 a) acc (range m).

Lemma for_range_foldl {V A} (m : gmap K V) (body : K → V → A → A) (acc : A) :
  for_range m body acc = foldl (λ a kv, body kv.1 kv.2 a) acc (range m).
Proof. done. Qed.

Lemma elem_of_range {V} (m : gmap K V) k v : (k, v) ∈ range m ↔ m !! k = Some v.
Proof. rewrite range_perm. apply elem_of_map_to_list. Qed.

Lemma range_nodup {V} (m : gmap K V) : NoDup (range m).*1.
Proof. rewrite range_perm. apply NoDup_fst_map_to_list. Qed.

Lemma range_length {V} (m : gmap K V) : length (range m) = size m.
Proof. rewrite range_perm. apply length_map_to_list. Qed.

(** A loop whose body only updates the entry of the visited key computes,
    whatever the visiting order, the pointwise update. *)
Lemma foldl_partial_alter {V W} (body : K → V → gmap K W → gmap K W)
    (h : K → V → option W → option W) (es : list (K * V)) (acc : gmap K W) j :
  (∀ k v a, body k v a = partial_alter (h k v) k a) →
  NoDup es.*1 →
  foldl (λ a kv, body kv.1 kv.2 a) acc es !! j =
    match (list_to_map es : gmap K V) !! j with
    | Some v => h j v (acc !! j)
    | None => acc !! j
    end.
Proof.
  intros Hb. revert acc. induction es as [|[k v] es IH]; intros acc Hnd; [done|].
  cbn [foldl fst snd fmap list_fmap] in *. apply NoDup_cons in Hnd as [Hni Hnd].
  rewrite IH by done. rewrite Hb. cbn [list_to_map foldr].
  destruct (decide (k = j)) as [->|Hne].
  - rewrite not_elem_of_list_to_map_1 by done.
    cbn. rewrite lookup_insert_eq, lookup_partial_alter_eq. done.
  - cbn. rewrite lookup_insert_ne, lookup_partial_alter_ne by done. done.
Qed.

Lemma partial_alter_same {W} (m : gmap K W) k : partial_alter (λ o, o) k m = m.
Proof.
  apply map_eq. intros j. destruct (decide (j = k)) as [->|].
  - by rewrite lookup_partial_alter_eq.
  - by rewrite lookup_partial_alter_ne.
Qed.

Lemma range_to_map {V} (m : gmap K V) : list_to_map (range m) =@{gmap K V} m.
Proof.
  rewrite <- (list_to_map_to_list m) at 2. apply list_to_map_proper.
  - apply range_nodup.
  - apply range_perm.
Qed.

Lemma for_range_lookup {V W} (body : K → V → gmap K W → gmap K W)
    (h : K → V → option W → option W) (m : gmap K V) (acc : gmap K W) j :
  (∀ k v a, body k v a = partial_alter (h k v) k a) →
  for_range m body acc !! j =
    match m !! j with Some v => h j v (acc !! j) | None => acc !! j end.
Proof.
  intros Hb. unfold for_range. rewrite (foldl_partial_alter body h) by (done || apply range_nodup).
  by rewrite range_to_map.
Qed.
End range.

(** ** Loops over lists and worklists *)

(** [for _, x := range l { if p(x) { acc = append(acc, f(x)) } }] *)
Lemma foldl_collect {A B} (p : A → bool) (f : A → B) (l : list A) (acc : list B) :
  foldl (λ acc x, if p x then acc ++ [f x] else acc) acc l =
  acc ++ (f <$> filter (λ x, p x = true) l).
Proof.
  revert acc. induction l as [|x l IH]; intros acc; [by rewrite app_nil_r|].
  cbn [foldl]. rewrite IH, filter_cons. destruct (p x) eqn:E.
  - rewrite decide_True by done. by rewrite <- (assoc_L (++)).
  - by rewrite decide_False.
Qed.

(** An invariant of a loop over a list. *)
Lemma foldl_inv {A B} (I : A → Prop) (P : B → Prop) (f : A → B → A) (l : list B) (acc : A) :
  (∀ a b, P b → I a → I (f a b)) → Forall P l → I acc → I (foldl f acc l).
Proof.
  intros Hstep. revert acc. induction l as [|b l IH]; intros acc Hl Hacc; [done|].
  apply Forall_cons in Hl as [Hb Hl]. simpl. auto.
Qed.

(** A loop that only ever clears a flag. *)
Lemma foldl_andb {A B} (flag : A → bool) (ok : B → bool) (f : A → B → A) (l : list B) (acc : A) :
  (∀ a b, flag (f a b) = flag a && ok b) → flag (foldl f acc l) = flag acc && forallb ok l.
Proof.
  intros Hf. revert acc. induction l as [|b l IH]; intros acc; simpl; [by rewrite andb_true_r|].
  by rewrite IH, Hf, andb_assoc.
Qed.

Lemma list_filter_ext_in {A} (P Q : A → Prop) `{∀ x, Decision (P x)} `{∀ x, Decision (Q x)}
    (l : list A) :
  (∀ x, x ∈ l → P x ↔ Q x) → filter P l = filter Q l.
Proof.
  induction l as [|x l IH]; intros Hl; [done|]. rewrite !filter_cons, IH by (intros; apply Hl; by right).
  specialize (Hl x (list_elem_of_here _ _)). repeat case_decide; tauto.
Qed.

Lemma filter_fst_NoDup {A B} (P : A * B → Prop) `{∀ x, Decision (P x)} (l : list (A * B)) :
  NoDup l.*1 → NoDup (filter P l).*1.
Proof.
  induction l as [|x l IH]; [done|]. rewrite fmap_cons, NoDup_cons. intros [Hx Hnd].
  rewrite filter_cons. case_decide; [|by apply IH]. rewrite fmap_cons. constructor; [|by apply IH].
  intros (y & E & [_ Hy]%list_elem_of_filter)%list_elem_of_fmap. apply Hx, list_elem_of_fmap. eauto.
Qed.

(** The measure of a worklist loop that expands each key of [m] once: the
    sizes of the entries not visited yet. *)
Section weight.
Context {K} `{Countable K} {V : Type} (f : V → nat).

Definition weight (m : gmap K V) (visited : gset K) : nat :=
  sum_list_with (λ kv, if decide (kv.1 ∈ visited) then 0 else f kv.2) (map_to_list m).

Lemma weight_ext (l : list (K * V)) (visited visited' : gset K) :
  (∀ kv, kv ∈ l → kv.1 ∈ visited ↔ kv.1 ∈ visited') →
  sum_list_with (λ kv, if decide (kv.1 ∈ visited) then 0 else f kv.2) l =
  sum_list_with (λ kv, if decide (kv.1 ∈ visited') then 0 else f kv.2) l.
Proof.
  induction l as [|kv l IH]; intros Hl; [done|]. simpl.
  rewrite IH by (intros; apply Hl; by right).
  specialize (Hl kv (list_elem_of_here _ _)). repeat case_decide; tauto || lia.
Qed.

Lemma weight_visit (m : gmap K V) (visited : gset K) k :
  k ∉ visited →
  weight m ({[k]} ∪ visited) + match m !! k with Some v => f v | None => 0 end = weight m visited.
Proof.
  intros Hk. unfold weight. destruct (m !! k) as [v|] eqn:E.
  - rewrite <- (insert_delete_id m k v E).
    rewrite map_to_list_insert by apply lookup_delete_eq. simpl.
    rewrite decide_True by set_solver. rewrite decide_False by done.
    rewrite (weight_ext _ ({[k]} ∪ visited) visited); [lia|].
    intros [j w] Hj%elem_of_map_to_list. simpl.
    assert (j ≠ k) by (intros ->; by rewrite lookup_delete_eq in Hj). set_solver.
  - rewrite (weight_ext _ ({[k]} ∪ visited) visited); [lia|].
    intros [j w] Hj%elem_of_map_to_list. simpl. assert (j ≠ k) by congruence. set_solver.
Qed.
End weight.

(** ** Reading a map of counters *)
Section mget.
Context {K} `{Countable K}.
Implicit Types m : gmap K N.

Lemma mget_insert m k v j : (<[k := v]> m).[j] = if decide (j = k) then v else m.[j].
Proof.
  unfold mget. rewrite lookup_insert. repeat case_decide; subst; done.
Qed.

Lemma mget_insert_eq m k v : (<[k := v]> m).[k] = v.
Proof. rewrite mget_insert. by rewrite decide_True. Qed.

Lemma mget_insert_ne m k v j : j ≠ k → (<[k := v]> m).[j] = m.[j].
Proof. intros. rewrite mget_insert. by rewrite decide_False. Qed.

Lemma mget_empty k : (∅ : gmap K N).[k] = 0%N.
Proof. done. Qed.

Lemma mget_nonzero m k : m.[k] ≠ 0%N → ∃ v, m !! k = Some v ∧ m.[k] = v.
Proof. unfold mget. destruct (m !! k) eqn:E; [eauto|done]. Qed.

(** Every counter of the map is a [uint64]. *)
Definition wf64 m : Prop := ∀ k, (m.[k] < two64)%N.

Lemma wf64_insert m k v : wf64 m → (v < two64)%N → wf64 (<[k := v]> m).
Proof. intros Hm Hv j. rewrite mget_insert. case_decide; auto. Qed.

Lemma wf64_empty : wf64 ∅.
Proof. done. Qed.
End mget.

#[export] Hint Rewrite @mget_insert_eq @mget_empty : vclock_rw.
#[export] Hint Resolve wf64_empty wf64_insert u64_add_bound : vclock.

(** ** Strings

    Go compares strings bytewise; [String.ltb] is that order. *)
Lemma string_compare_trans s1 s2 s3 :
  String.compare s1 s2 = Lt → String.compare s2 s3 = Lt → String.compare s1 s3 = Lt.
Proof.
  revert s2 s3. induction s1 as [|c1 s1 IH]; intros [|c2 s2] [|c3 s3]; simpl; try done.
  unfold Ascii.compare.
  destruct (N.compare_spec (Ascii.N_of_ascii c1) (Ascii.N_of_ascii c2)) as [E12|H12|H12];
  destruct (N.compare_spec (Ascii.N_of_ascii c2) (Ascii.N_of_ascii c3)) as [E23|H23|H23];
  destruct (N.compare_spec (Ascii.N_of_ascii c1) (Ascii.N_of_ascii c3)) as [E13|H13|H13];
    try done; try lia; eauto.
Qed.

Lemma string_compare_refl s : String.compare s s = Eq.
Proof.
  induction s as [|c s IH]; simpl; [done|]. unfold Ascii.compare. by rewrite N.compare_refl.
Qed.

Lemma string_ltb_lt s t : String.ltb s t = true ↔ String.compare s t = Lt.
Proof. unfold String.ltb. destruct (String.compare s t); naive_solver. Qed.

Lemma string_ltb_total s t : s ≠ t → String.ltb s t = true ∨ String.ltb t s = true.
Proof.
  intros Hne. rewrite !string_ltb_lt. rewrite (String.compare_antisym t s).
  destruct (String.compare s t) eqn:E; auto. by apply String.compare_eq_iff in E.
Qed.

Lemma string_ltb_asym s t : String.ltb s t = true → String.ltb t s = false.
Proof.
  rewrite string_ltb_lt. unfold String.ltb. rewrite (String.compare_antisym t s).
  by intros ->.
Qed.

Lemma string_ltb_irrefl s : String.ltb s s = false.
Proof. unfold String.ltb. by rewrite string_compare_refl. Qed.

Lemma string_ltb_trans s t u :
  String.ltb s t = true → String.ltb t u = true → String.ltb s u = true.
Proof. rewrite !string_ltb_lt. apply string_compare_trans. Qed.
