(* ===== verification/VClock.v ===== *)
(** * Vector clocks (src/internal/clock/vector)

    The whole of package [vector]: [clock.go] (creation, VC1-VC3, merge),
    [compare.go] (the causal order and the grouping of concurrent events) and
    [diff.go] (delta encoding), each loop over a map parameterised by the
    visiting order. *)
From stdpp Require Import gmap strings list sorting.
From S2P Require Import Prelude.

(** [type VectorClock map[string]uint64] *)
Abbreviation VectorClock := (gmap string N).

(** [type ClockOrder int] with its four constants. *)
Inductive ClockOrder := HappenedBefore | HappenedAfter | Concurrent | Identical.

#[export] Instance ClockOrder_eq_dec : EqDecision ClockOrder.
Proof. solve_decision. Defined.

(** [type VCEvent struct] *)
Record VCEvent := { ev_ID : string; ev_Clock : VectorClock }.

(** [type DiffVC struct] *)
Record DiffVC := { Entries : VectorClock }.

(** ** Operations *)
Section operations.
Context `{MapRange}.

Definition New (pids : list string) : VectorClock :=
  foldl (λ vc p, <[p := 0%N]> vc) ∅ pids.

Definition Copy (vc : VectorClock) : VectorClock :=
  for_range vc (λ k v result, <[k := v]> result) ∅.

Definition Tick (vc : VectorClock) (pid : string) : VectorClock :=
  let result := Copy vc in
  <[pid := u64_succ result.[pid]]> result.

Definition Send (vc : VectorClock) (pid : string) : VectorClock * VectorClock :=
  let local := Tick vc pid in
  let msgStamp := Copy local in
  (local, msgStamp).

(** The loop body [if result[k] < v { result[k] = v }]. *)
Definition raise (k : string) (v : N) (result : VectorClock) : VectorClock :=
  if (result.[k] <? v)%N then <[k := v]> result else result.

Definition MergePassive (a b : VectorClock) : VectorClock :=
  let result := Copy a in
  for_range b raise result.

Definition Receive (local msgVC : VectorClock) (pid : string) : VectorClock :=
  let merged := MergePassive local msgVC in
  Tick merged pid.

(** The union of the keys of two clocks, as the [map[string]struct{}] the code
    collects it in. *)
Definition key_union (a b : VectorClock) : gmap string () :=
  let keys := for_range a (λ k _ keys, <[k := ()]> keys) ∅ in
  for_range b (λ k _ keys, <[k := ()]> keys) keys.

(** The [for k := range keys] loop of [Compare] with its early exit, then the
    final [switch]. *)
Fixpoint compare_loop (ks : list (string * ())) (a b : VectorClock)
    (aLessB bLessA : bool) : ClockOrder :=
  match ks with
  | (k, _) :: ks =>
      let av := a.[k] in
      let bv := b.[k] in
      let aLessB := if (av <? bv)%N then true else aLessB in
      let bLessA := if (bv <? av)%N then true else bLessA in
      if aLessB && bLessA then Concurrent else compare_loop ks a b aLessB bLessA
  | [] =>
      if negb aLessB && negb bLessA then Identical
      else if aLessB && negb bLessA then HappenedBefore
      else if bLessA && negb aLessB then HappenedAfter
      else Concurrent
  end.

Definition Compare (a b : VectorClock) : ClockOrder :=
  compare_loop (range (key_union a b)) a b false false.

Definition Equal (a b : VectorClock) : bool := bool_decide (Compare a b = Identical).
Definition LessThan (a b : VectorClock) : bool := bool_decide (Compare a b = HappenedBefore).

Definition Diff (prev current : VectorClock) : DiffVC :=
  {| Entries :=
       for_range (key_union prev current)
         (λ k _ entries,
            let cv := current.[k] in
            if (prev.[k] <? cv)%N then <[k := cv]> entries else entries) ∅ |}.

Definition Apply (base : VectorClock) (diff : DiffVC) : VectorClock :=
  let result := Copy base in
  for_range (Entries diff)
    (λ k v result, if (result.[k] <? v)%N then <[k := v]> result else result) result.

(** The sum the comparison function of [sortEvents] computes, in [uint64]. *)
Definition clock_sum (vc : VectorClock) : N :=
  for_range vc (λ _ v sum, u64_add sum v) 0%N.

(** [less(i, j)] of [sortEvents]: by sum, ties broken by event id. *)
Definition event_less (ei ej : VCEvent) : bool :=
  let sumI := clock_sum (ev_Clock ei) in
  let sumJ := clock_sum (ev_Clock ej) in
  if negb (sumI =? sumJ)%N then (sumI <? sumJ)%N
  else String.ltb (ev_ID ei) (ev_ID ej).

Definition event_le (ei ej : VCEvent) : Prop := event_less ej ei = false.

#[local] Instance event_le_dec : RelDecision event_le.
Proof. intros x y. unfold event_le. apply _. Defined.

(** [sort.Slice] with that comparison. *)
Definition sortEvents (events : list VCEvent) : list VCEvent := merge_sort event_le events.

(** The inner loop over one group: every member is concurrent with [ev]. *)
Fixpoint concurrentWithAll (ev : VCEvent) (group : list VCEvent) : bool :=
  match group with
  | [] => true
  | gev :: group =>
      match Compare (ev_Clock ev) (ev_Clock gev) with
      | HappenedBefore | HappenedAfter | Identical => false
      | Concurrent => concurrentWithAll ev group
      end
  end.

(** The loop over the groups: append to the first group that accepts [ev],
    else open a new group at the end. *)
Fixpoint place (ev : VCEvent) (groups : list (list VCEvent)) : list (list VCEvent) :=
  match groups with
  | [] => [[ev]]
  | group :: rest =>
      if concurrentWithAll ev group then (group ++ [ev]) :: rest
      else group :: place ev rest
  end.

Definition ConcurrentSet (events : list VCEvent) : list (list VCEvent) :=
  match events with
  | [] => []
  | _ => foldl (λ groups ev, place ev groups) [] (sortEvents events)
  end.
End operations.

(** ** The pointwise order

    Missing keys read as 0, so clocks are compared through their readings;
    [vc_eq] is coarser than equality of maps (an explicit zero entry is the
    same as an absent one). *)
Definition vc_le (a b : VectorClock) : Prop := ∀ k, (a.[k] <= b.[k])%N.
Definition vc_lt (a b : VectorClock) : Prop := vc_le a b ∧ ∃ k, (a.[k] < b.[k])%N.
Definition vc_eq (a b : VectorClock) : Prop := ∀ k, a.[k] = b.[k].
Definition vc_concurrent (a b : VectorClock) : Prop :=
  (∃ k, (a.[k] < b.[k])%N) ∧ (∃ k, (b.[k] < a.[k])%N).

#[export] Instance vc_eq_equivalence : Equivalence vc_eq.
Proof.
  split.
  - intros a k. done.
  - intros a b E k. by rewrite E.
  - intros a b c E1 E2 k. by rewrite E1.
Qed.

#[export] Instance vc_le_preorder : PreOrder vc_le.
Proof.
  split.
  - intros a k. lia.
  - intros a b c E1 E2 k. specialize (E1 k). specialize (E2 k). lia.
Qed.

#[export] Instance vc_le_proper : Proper (vc_eq ==> vc_eq ==> iff) vc_le.
Proof.
  intros a a' Ha b b' Hb. unfold vc_le.
  split; intros E k; specialize (E k); rewrite ?Ha, ?Hb in *; rewrite <- ?Ha, <- ?Hb in *; done.
Qed.

Lemma vc_le_antisym a b : vc_le a b → vc_le b a → vc_eq a b.
Proof. intros E1 E2 k. specialize (E1 k). specialize (E2 k). lia. Qed.

Lemma vc_lt_le a b : vc_lt a b → vc_le a b.
Proof. by intros [? _]. Qed.

Lemma vc_lt_le_trans a b c : vc_lt a b → vc_le b c → vc_lt a c.
Proof.
  intros [Hab [k Hk]] Hbc. split; [by trans b|]. exists k. specialize (Hbc k). lia.
Qed.

Lemma vc_le_lt_trans a b c : vc_le a b → vc_lt b c → vc_lt a c.
Proof.
  intros Hab [Hbc [k Hk]]. split; [by trans b|]. exists k. specialize (Hab k). lia.
Qed.

#[export] Instance vc_lt_strict : StrictOrder vc_lt.
Proof.
  split.
  - intros a [_ [k Hk]]. lia.
  - intros a b c Hab Hbc. eapply vc_lt_le_trans; [done|by apply vc_lt_le].
Qed.

#[export] Hint Resolve vc_lt_le : vclock.

(** ** What the operations compute *)
Section facts.
Context `{MapRange}.

Lemma Copy_id (vc : VectorClock) : Copy vc = vc.
Proof.
  apply map_eq. intros k. unfold Copy.
  rewrite (for_range_lookup _ (λ _ v _, Some v)).
  - rewrite lookup_empty. by destruct (vc !! k).
  - done.
Qed.

Lemma Tick_get vc p k :
  (Tick vc p).[k] = if decide (k = p) then u64_succ vc.[p] else vc.[k].
Proof. unfold Tick. by rewrite Copy_id, mget_insert. Qed.

Lemma raise_alter k v m :
  raise k v m = partial_alter (λ o, if (default 0 o <? v)%N then Some v else o) k m.
Proof.
  unfold raise, mget. apply map_eq. intros j. destruct (decide (j = k)) as [->|].
  - rewrite lookup_partial_alter_eq. destruct (_ <? _)%N; [|done]. by rewrite lookup_insert_eq.
  - rewrite lookup_partial_alter_ne by done. destruct (_ <? _)%N; [|done]. by rewrite lookup_insert_ne.
Qed.

(** The entry of a merge, key by key (not only its reading). *)
Lemma MergePassive_lookup a b k :
  MergePassive a b !! k =
    match b !! k with
    | Some v => if (a.[k] <? v)%N then Some v else a !! k
    | None => a !! k
    end.
Proof.
  unfold MergePassive. rewrite Copy_id.
  by rewrite (for_range_lookup raise
    (λ _ v o, if (default 0 o <? v)%N then Some v else o)) by (intros; apply raise_alter).
Qed.

Lemma MergePassive_get a b k : (MergePassive a b).[k] = N.max a.[k] b.[k].
Proof.
  unfold mget at 1. rewrite MergePassive_lookup. unfold mget.
  destruct (b !! k) as [v|]; simpl; [|lia].
  destruct (N.ltb_spec (default 0 (a !! k)) v)%N; simpl; lia.
Qed.

Lemma Receive_get l m p k :
  (Receive l m p).[k] =
    if decide (k = p) then u64_succ (N.max l.[p] m.[p]) else N.max l.[k] m.[k].
Proof. unfold Receive. rewrite Tick_get. by rewrite !MergePassive_get. Qed.

Lemma key_union_spec a b k :
  is_Some (key_union a b !! k) ↔ is_Some (a !! k) ∨ is_Some (b !! k).
Proof.
  assert (∀ (m : VectorClock) (acc : gmap string ()),
    is_Some (for_range m (λ k _ keys, <[k := ()]> keys) acc !! k) ↔
      is_Some (m !! k) ∨ is_Some (acc !! k)) as E.
  { intros m acc. rewrite (for_range_lookup _ (λ _ _ _, Some ())).
    - destruct (m !! k); naive_solver.
    - done. }
  unfold key_union. rewrite !E, lookup_empty. split; [|tauto].
  intros [?|[?|[? ?]]]; auto; done.
Qed.

(** A key outside the union reads 0 in both clocks. *)
Lemma key_union_get a b k v w :
  a.[k] = v → b.[k] = w → (v ≠ 0 ∨ w ≠ 0)%N → (k, ()) ∈ range (key_union a b).
Proof.
  intros <- <- Hne. apply elem_of_range.
  assert (is_Some (key_union a b !! k)) as [[] ?]; [|done].
  apply key_union_spec. unfold mget in Hne.
  destruct (a !! k), (b !! k); simpl in *; eauto. lia.
Qed.

(** The outcome of the final [switch] from the two flags. *)
Definition classify (aLessB bLessA : bool) : ClockOrder :=
  match aLessB, bLessA with
  | false, false => Identical
  | true, false => HappenedBefore
  | false, true => HappenedAfter
  | true, true => Concurrent
  end.

Lemma compare_loop_classify ks a b x y :
  x && y = false →
  compare_loop ks a b x y =
    classify (x || existsb (λ k, (a.[k.1] <? b.[k.1])%N) ks)
             (y || existsb (λ k, (b.[k.1] <? a.[k.1])%N) ks).
Proof.
  revert x y. induction ks as [|[k []] ks IH]; intros x y Hxy; simpl.
  - destruct x, y; done.
  - destruct (a.[k] <? b.[k])%N eqn:E1, (b.[k] <? a.[k])%N eqn:E2;
      destruct x, y; simpl in *; try done; rewrite ?IH by done; simpl; try done;
      apply N.ltb_lt in E1; apply N.ltb_lt in E2; lia.
Qed.

Lemma existsb_key_union (a b : VectorClock) (f : string → bool) :
  (∀ k, f k = true → (a.[k] ≠ 0 ∨ b.[k] ≠ 0)%N) →
  existsb (λ k, f k.1) (range (key_union a b)) = true ↔ ∃ k, f k = true.
Proof.
  intros Hf. rewrite existsb_exists. split.
  - intros [[k u] [_ Hk]]. eauto.
  - intros [k Hk]. exists (k, ()). split; [|done].
    apply list_elem_of_In. eapply key_union_get; eauto.
Qed.

Lemma Compare_classify a b :
  ∃ x y, Compare a b = classify x y ∧
    (x = true ↔ ∃ k, (a.[k] < b.[k])%N) ∧ (y = true ↔ ∃ k, (b.[k] < a.[k])%N).
Proof.
  unfold Compare. rewrite compare_loop_classify by done. do 2 eexists. split; [done|].
  simpl. split.
  - rewrite (existsb_key_union a b (λ k, (a.[k] <? b.[k])%N)).
    + by setoid_rewrite N.ltb_lt.
    + intros k Hk%N.ltb_lt. lia.
  - rewrite (existsb_key_union a b (λ k, (b.[k] <? a.[k])%N)).
    + by setoid_rewrite N.ltb_lt.
    + intros k Hk%N.ltb_lt. lia.
Qed.

Lemma no_smaller a b : ¬ (∃ k, (a.[k] < b.[k])%N) → vc_le b a.
Proof. intros Hn k. destruct (N.le_gt_cases b.[k] a.[k]); [done|]. naive_solver. Qed.

(** [Compare] decides the pointwise order, each of its four answers exactly. *)
Lemma Compare_correct a b :
  match Compare a b with
  | HappenedBefore => vc_lt a b
  | HappenedAfter => vc_lt b a
  | Concurrent => vc_concurrent a b
  | Identical => vc_eq a b
  end.
Proof.
  destruct (Compare_classify a b) as (x & y & -> & Hx & Hy).
  destruct x, y; simpl.
  - split; [by apply Hx|by apply Hy].
  - split; [|by apply Hx]. apply no_smaller. intros E%Hy. done.
  - split; [|by apply Hy]. apply no_smaller. intros E%Hx. done.
  - apply vc_le_antisym; apply no_smaller; [intros E%Hy|intros E%Hx]; done.
Qed.

Lemma vc_orders_exclusive a b :
  (vc_lt a b → vc_lt b a → False) ∧ (vc_lt a b → vc_concurrent a b → False) ∧
  (vc_lt a b → vc_eq a b → False) ∧ (vc_concurrent a b → vc_eq a b → False).
Proof.
  unfold vc_lt, vc_le, vc_concurrent, vc_eq. repeat split.
  - intros [H1 [k Hk]] [H2 _]. specialize (H2 k). lia.
  - intros [H1 _] [_ [k Hk]]. specialize (H1 k). lia.
  - intros [_ [k Hk]] E. rewrite E in Hk. lia.
  - intros [[k Hk] _] E. rewrite E in Hk. lia.
Qed.

Lemma vc_concurrent_sym a b : vc_concurrent a b → vc_concurrent b a.
Proof. by intros []. Qed.

Lemma vc_eq_sym' a b : vc_eq a b → vc_eq b a.
Proof. intros E k. by rewrite E. Qed.

Lemma Compare_iff a b :
  (Compare a b = HappenedBefore ↔ vc_lt a b) ∧
  (Compare a b = HappenedAfter ↔ vc_lt b a) ∧
  (Compare a b = Concurrent ↔ vc_concurrent a b) ∧
  (Compare a b = Identical ↔ vc_eq a b).
Proof.
  pose proof (Compare_correct a b) as C.
  destruct (vc_orders_exclusive a b) as (X1 & X2 & X3 & X4).
  destruct (vc_orders_exclusive b a) as (Y1 & Y2 & Y3 & _).
  pose proof (vc_concurrent_sym a b). pose proof (vc_eq_sym' a b).
  destruct (Compare a b); naive_solver.
Qed.

Lemma Compare_HB a b : Compare a b = HappenedBefore ↔ vc_lt a b.
Proof. apply Compare_iff. Qed.
Lemma Compare_HA a b : Compare a b = HappenedAfter ↔ vc_lt b a.
Proof. apply Compare_iff. Qed.
Lemma Compare_CC a b : Compare a b = Concurrent ↔ vc_concurrent a b.
Proof. apply Compare_iff. Qed.
Lemma Compare_ID a b : Compare a b = Identical ↔ vc_eq a b.
Proof. apply Compare_iff. Qed.
End facts.

(** ** Operations respect the reading of the clocks *)
#[export] Instance Compare_proper `{MapRange} : Proper (vc_eq ==> vc_eq ==> eq) Compare.
Proof.
  intros a a' Ha b b' Hb. pose proof (Compare_correct a b) as C. symmetry.
  destruct (Compare a b); apply Compare_iff;
    unfold vc_lt, vc_le, vc_concurrent, vc_eq in *;
    repeat setoid_rewrite <- Ha; repeat setoid_rewrite <- Hb; done.
Qed.

#[export] Instance MergePassive_proper `{MapRange} :
  Proper (vc_eq ==> vc_eq ==> vc_eq) MergePassive.
Proof. intros a a' Ha b b' Hb k. by rewrite !MergePassive_get, Ha, Hb. Qed.

#[export] Instance Tick_proper `{MapRange} : Proper (vc_eq ==> eq ==> vc_eq) Tick.
Proof. intros a a' Ha p _ <- k. by rewrite !Tick_get, !Ha. Qed.

#[export] Instance Receive_proper `{MapRange} :
  Proper (vc_eq ==> vc_eq ==> eq ==> vc_eq) Receive.
Proof. intros a a' Ha b b' Hb p _ <-. unfold Receive. by rewrite Ha, Hb. Qed.

Section order.
Context `{MapRange}.

Lemma vc_le_merge_l a b : vc_le a (MergePassive a b).
Proof. intros k. rewrite MergePassive_get. lia. Qed.

Lemma vc_le_merge_r a b : vc_le b (MergePassive a b).
Proof. intros k. rewrite MergePassive_get. lia. Qed.

Lemma vc_merge_least a b c : vc_le a c → vc_le b c → vc_le (MergePassive a b) c.
Proof. intros Ha Hb k. rewrite MergePassive_get. specialize (Ha k). specialize (Hb k). lia. Qed.

Lemma Tick_lt vc p : (vc.[p] < MaxUint64)%N → vc_lt vc (Tick vc p).
Proof.
  intros Hb. split.
  - intros k. rewrite Tick_get. case_decide; subst; rewrite ?u64_succ_small; lia.
  - exists p. rewrite Tick_get, decide_True, u64_succ_small by done. lia.
Qed.

Lemma Receive_lt l m p :
  (l.[p] < MaxUint64)%N → (m.[p] < MaxUint64)%N →
  vc_lt l (Receive l m p) ∧ vc_lt m (Receive l m p).
Proof.
  intros Hl Hm. assert (vc_lt (MergePassive l m) (Receive l m p)) as Hlt.
  { apply Tick_lt. rewrite MergePassive_get. lia. }
  split; apply vc_le_lt_trans with (MergePassive l m); auto using vc_le_merge_l, vc_le_merge_r.
Qed.

Lemma Tick_wf vc p : wf64 vc → wf64 (Tick vc p).
Proof. intros Hv. unfold Tick. rewrite Copy_id. apply wf64_insert; [done|apply u64_add_bound]. Qed.

Lemma Merge_wf a b : wf64 a → wf64 b → wf64 (MergePassive a b).
Proof. intros Ha Hb k. rewrite MergePassive_get. specialize (Ha k). specialize (Hb k). lia. Qed.

Lemma Receive_wf l m p : wf64 l → wf64 m → wf64 (Receive l m p).
Proof. intros. by apply Tick_wf, Merge_wf. Qed.

Lemma New_get pids k : (New pids).[k] = 0%N.
Proof.
  unfold New. assert (∀ vc : VectorClock, vc.[k] = 0%N →
    (foldl (λ vc p, <[p := 0%N]> vc) vc pids).[k] = 0%N) as E; [|by apply E].
  induction pids as [|p pids IH]; intros vc Hvc; [done|]. simpl. apply IH.
  rewrite mget_insert. by case_decide.
Qed.

Lemma Diff_lookup prev cur k :
  Entries (Diff prev cur) !! k =
    if (prev.[k] <? cur.[k])%N then Some cur.[k] else None.
Proof.
  unfold Diff. simpl.
  rewrite (for_range_lookup _ (λ k _ o, if (prev.[k] <? cur.[k])%N then Some cur.[k] else o)).
  - rewrite lookup_empty. destruct (N.ltb_spec prev.[k] cur.[k])%N as [Hlt|]; [|by case_match].
    assert ((k, ()) ∈ range (key_union prev cur)) as Hk%elem_of_range
      by (eapply key_union_get; eauto; lia).
    by rewrite Hk.
  - intros j _ m. destruct (_ <? _)%N; [done|]. apply map_eq. intros i.
    destruct (decide (i = j)) as [->|].
    + by rewrite lookup_partial_alter_eq.
    + by rewrite lookup_partial_alter_ne.
Qed.

Lemma Apply_merge base d : Apply base d = MergePassive base (Entries d).
Proof. reflexivity. Qed.

Lemma concurrentWithAll_true ev g :
  concurrentWithAll ev g = true ↔
    Forall (λ e, Compare (ev_Clock ev) (ev_Clock e) = Concurrent) g.
Proof.
  induction g as [|e g IH]; simpl; [by split; intros; [constructor|]|].
  rewrite Forall_cons. destruct (Compare _ _); naive_solver.
Qed.

(** All members of a group are concurrent with one another. *)
Definition pairwise_concurrent (g : list VCEvent) : Prop :=
  ∀ i j e f, g !! i = Some e → g !! j = Some f → i ≠ j →
    vc_concurrent (ev_Clock e) (ev_Clock f).

Lemma pairwise_concurrent_snoc g ev :
  pairwise_concurrent g → concurrentWithAll ev g = true → pairwise_concurrent (g ++ [ev]).
Proof.
  intros Hg Hev%concurrentWithAll_true i j e f Hi Hj Hij.
  rewrite Forall_forall in Hev.
  apply lookup_app_Some in Hi as [Hi|[Hi1 [Hi2 ->]%list_lookup_singleton_Some]];
  apply lookup_app_Some in Hj as [Hj|[Hj1 [Hj2 ->]%list_lookup_singleton_Some]].
  - by eapply Hg.
  - apply vc_concurrent_sym, Compare_CC, Hev. by eapply list_elem_of_lookup_2.
  - apply Compare_CC, Hev. by eapply list_elem_of_lookup_2.
  - lia.
Qed.

Lemma place_concurrent ev gs :
  Forall pairwise_concurrent gs → Forall pairwise_concurrent (place ev gs).
Proof.
  induction 1 as [|g gs Hg Hgs IH]; simpl.
  - constructor; [|constructor]. intros i j e f Hi Hj Hij.
    apply list_lookup_singleton_Some in Hi as [-> _], Hj as [-> _]. done.
  - destruct (concurrentWithAll ev g) eqn:E; constructor; auto using pairwise_concurrent_snoc.
Qed.

Lemma place_perm ev gs : concat (place ev gs) ≡ₚ ev :: concat gs.
Proof.
  induction gs as [|g gs IH]; simpl; [done|]. destruct (concurrentWithAll ev g); simpl.
  - rewrite <- (assoc_L (++)). simpl. symmetry. apply Permutation_middle.
  - rewrite IH. symmetry. apply Permutation_middle.
Qed.

Lemma place_all evs gs :
  Forall pairwise_concurrent gs →
  Forall pairwise_concurrent (foldl (λ groups ev, place ev groups) gs evs) ∧
  concat (foldl (λ groups ev, place ev groups) gs evs) ≡ₚ evs ++ concat gs.
Proof.
  revert gs. induction evs as [|e evs IH]; intros gs Hgs; simpl; [done|].
  destruct (IH (place e gs)) as [H1 H2]; [by apply place_concurrent|].
  split; [done|]. rewrite H2, place_perm. symmetry. apply Permutation_middle.
Qed.
End order.

#[export] Hint Resolve vc_le_merge_l vc_le_merge_r Tick_wf Merge_wf Receive_wf : vclock.

(** ** Properties of the package *)

(** C5: [Compare] decides the pointwise order of the two clocks with missing
    keys read as 0 -- each of its four answers holds exactly when the clocks
    are so related (so [LessThan] and [Equal] decide strict order and
    equality), and the answer does not depend on the order in which Go visits
    the keys. *)
Theorem Compare_decides_causal_order (r : MapRange) (a b : VectorClock) :
  (Compare a b = HappenedBefore ↔ (∀ k, (a.[k] <= b.[k])%N) ∧ ∃ k, (a.[k] < b.[k])%N) ∧
  (Compare a b = HappenedAfter ↔ (∀ k, (b.[k] <= a.[k])%N) ∧ ∃ k, (b.[k] < a.[k])%N) ∧
  (Compare a b = Concurrent ↔ (∃ k, (a.[k] < b.[k])%N) ∧ ∃ k, (b.[k] < a.[k])%N) ∧
  (Compare a b = Identical ↔ ∀ k, a.[k] = b.[k]) ∧
  (LessThan a b = true ↔ Compare a b = HappenedBefore) ∧
  (Equal a b = true ↔ Compare a b = Identical) ∧
  (∀ r' : MapRange, @Compare r a b = @Compare r' a b).
Proof.
  pose proof (@Compare_iff r a b) as C. unfold vc_lt, vc_le, vc_concurrent, vc_eq in C.
  destruct C as (C1 & C2 & C3 & C4). do 4 (split; [done|]).
  unfold LessThan, Equal. rewrite !bool_decide_eq_true. do 2 (split; [done|]).
  intros r'. pose proof (@Compare_correct r a b) as C. symmetry.
  destruct (@Compare r a b); by apply (@Compare_iff r' a b).
Qed.

(** the VC1-VC3 rules move a clock strictly forward while its own counter
    is below the top of [uint64]: a tick is after the clock ticked, the stamp
    of a send is the new local clock, and the clock after a receive is after
    both the local clock and the message's stamp and counts exactly one new
    event on top of their pointwise maximum. *)
Theorem clock_rules_advance `{MapRange} (local msg : VectorClock) (pid : string) :
  (local.[pid] < MaxUint64)%N → (msg.[pid] < MaxUint64)%N →
  Compare local (Tick local pid) = HappenedBefore ∧
  Send local pid = (Tick local pid, Tick local pid) ∧
  Compare local (Receive local msg pid) = HappenedBefore ∧
  Compare msg (Receive local msg pid) = HappenedBefore ∧
  (∀ k, (Receive local msg pid).[k] =
     if decide (k = pid) then (N.max local.[k] msg.[k] + 1)%N else N.max local.[k] msg.[k]).
Proof.
  intros Hl Hm. rewrite !Compare_HB. split; [by apply Tick_lt|].
  split; [unfold Send; by rewrite Copy_id|].
  destruct (Receive_lt local msg pid Hl Hm) as [? ?]. split_and!; [done..|].
  intros k. rewrite Receive_get. case_decide; [subst|done].
  apply u64_succ_small. lia.
Qed.

Lemma clock_rules_advance_witness :
  let r := canonical_range in
  let l : VectorClock := {["P1" := 3%N; "P2" := 1%N]} in
  let m : VectorClock := {["P2" := 4%N]} in
  Compare l (Receive l m "P1") = HappenedBefore ∧ (Receive l m "P1").["P1"] = 4%N.
Proof.
  intros r l m.
  destruct (clock_rules_advance l m "P1" ltac:(vm_compute; reflexivity)
              ltac:(vm_compute; reflexivity)) as (_ & _ & H1 & _ & H2).
  split; [exact H1|]. rewrite H2. vm_compute. reflexivity.
Defined.

(** C6: at the top of [uint64] the rules stop being clocks: ticking a counter
    that is [MaxUint64] wraps it to 0 and the "next" clock is strictly before
    the one it came from. *)
Theorem Tick_overflow_goes_back `{MapRange} (vc : VectorClock) (pid : string) :
  vc.[pid] = MaxUint64 →
  (Tick vc pid).[pid] = 0%N ∧ Compare (Tick vc pid) vc = HappenedBefore.
Proof.
  intros Hm. assert ((Tick vc pid).[pid] = 0%N) as E.
  { by rewrite Tick_get, decide_True, Hm, u64_succ_max. }
  split; [done|]. apply Compare_HB. split.
  - intros k. rewrite Tick_get. case_decide; subst; [rewrite Hm, u64_succ_max|]; lia.
  - exists pid. rewrite E, Hm. reflexivity.
Qed.

Lemma Tick_overflow_goes_back_witness :
  let r := canonical_range in
  let vc : VectorClock := {["P1" := MaxUint64; "P2" := 7%N]} in
  Compare (Tick vc "P1") vc = HappenedBefore.
Proof. intros r vc. apply (Tick_overflow_goes_back vc "P1"). vm_compute. reflexivity. Defined.

(** [MergePassive] is the least upper bound of two clocks in the pointwise
    order, commutative, associative and idempotent up to readings, whatever
    the visiting order. *)
Theorem MergePassive_is_join (r : MapRange) (a b c : VectorClock) :
  vc_le a (MergePassive a b) ∧ vc_le b (MergePassive a b) ∧
  (vc_le a c → vc_le b c → vc_le (MergePassive a b) c) ∧
  vc_eq (MergePassive a b) (MergePassive b a) ∧
  vc_eq (MergePassive a (MergePassive b c)) (MergePassive (MergePassive a b) c) ∧
  MergePassive a a = a ∧
  (∀ r' : MapRange, @MergePassive r a b = @MergePassive r' a b).
Proof.
  split_and!; eauto using vc_le_merge_l, vc_le_merge_r, vc_merge_least.
  - intros k. rewrite !MergePassive_get. lia.
  - intros k. rewrite !MergePassive_get. lia.
  - apply map_eq. intros k. rewrite MergePassive_lookup. unfold mget.
    destruct (a !! k); simpl; [|done]. by rewrite N.ltb_irrefl.
  - intros r'. apply map_eq. intros k. by rewrite !MergePassive_lookup.
Qed.

(** C7: delta encoding round trip: applying [Diff prev current] to [prev]
    gives the merge of the two clocks, hence reads as [current] whenever
    [prev] is not ahead; and the delta holds exactly the counters that
    moved. *)
Theorem Diff_Apply_roundtrip `{MapRange} (prev current : VectorClock) :
  vc_eq (Apply prev (Diff prev current)) (MergePassive prev current) ∧
  (vc_le prev current → vc_eq (Apply prev (Diff prev current)) current) ∧
  (∀ k v, Entries (Diff prev current) !! k = Some v ↔
     (prev.[k] < current.[k])%N ∧ v = current.[k]).
Proof.
  assert (∀ k, (Apply prev (Diff prev current)).[k] = N.max prev.[k] current.[k]) as E.
  { intros k. rewrite Apply_merge, MergePassive_get. unfold mget at 2. rewrite Diff_lookup.
    destruct (N.ltb_spec prev.[k] current.[k])%N; simpl; lia. }
  split_and!.
  - intros k. by rewrite E, MergePassive_get.
  - intros Hle k. rewrite E. specialize (Hle k). lia.
  - intros k v. rewrite Diff_lookup.
    destruct (N.ltb_spec prev.[k] current.[k])%N; [|split; [done|lia]]. naive_solver.
Qed.

(** [ConcurrentSet] partitions its events: the groups together hold every
    event exactly as often as the input does, and any two members of one
    group are concurrent. *)
Theorem ConcurrentSet_partitions `{MapRange} (events : list VCEvent) :
  concat (ConcurrentSet events) ≡ₚ events ∧
  (∀ g i j e f, g ∈ ConcurrentSet events → g !! i = Some e → g !! j = Some f → i ≠ j →
     Compare (ev_Clock e) (ev_Clock f) = Concurrent).
Proof.
  destruct (place_all (sortEvents events) []) as [Hc Hp]; [constructor|].
  rewrite app_nil_r in Hp. unfold sortEvents in Hp at 2. rewrite merge_sort_Permutation in Hp.
  assert (ConcurrentSet events = foldl (λ groups ev, place ev groups) [] (sortEvents events)) as ->.
  { by destruct events. }
  split; [done|]. intros g i j e f Hg Hi Hj Hij. apply Compare_CC.
  rewrite Forall_forall in Hc. by eapply (Hc g Hg i j).
Qed.
