(* ===== verification/Lamport.v ===== *)
(** * Lamport clocks (src/internal/clock/lamport/clock.go)

    The scalar clock as a record passed through its methods (each method
    holds the clock's mutex for its whole body, so it is one atomic step), and
    the total order of (timestamp, pid) pairs. *)
From stdpp Require Import strings list.
From S2P Require Import Prelude.

(** [type LamportClock struct], without its mutex. *)
Record LamportClock := { value : N; pid : string }.

Definition New (pid : string) : LamportClock := {| value := 0; pid := pid |}.

Definition Tick (c : LamportClock) : LamportClock * N :=
  let c := {| value := u64_succ (value c); pid := pid c |} in
  (c, value c).

Definition Send (c : LamportClock) : LamportClock * N := Tick c.

Definition Receive (c : LamportClock) (msgTimestamp : N) : LamportClock * N :=
  let c := if (value c <? msgTimestamp)%N
           then {| value := msgTimestamp; pid := pid c |} else c in
  let c := {| value := u64_succ (value c); pid := pid c |} in
  (c, value c).

Definition Value (c : LamportClock) : N := value c.

Definition PID (c : LamportClock) : string := pid c.

(** [TotalOrder]: -1, 0 or 1. *)
Definition TotalOrder (ts1 : N) (pid1 : string) (ts2 : N) (pid2 : string) : Z :=
  if negb (ts1 =? ts2)%N then
    if (ts1 <? ts2)%N then -1 else 1
  else if String.ltb pid1 pid2 then -1
  else if String.ltb pid2 pid1 then 1
  else 0.

(** ** Facts *)
Lemma lamport_receive_value c ts :
  value (Receive c ts).1 = u64_succ (N.max (value c) ts).
Proof. unfold Receive. simpl. f_equal. destruct (N.ltb_spec (value c) ts); simpl; lia. Qed.

Lemma lamport_methods_return c ts :
  (Tick c).2 = value (Tick c).1 ∧ (Send c).2 = value (Send c).1 ∧
  (Receive c ts).2 = value (Receive c ts).1.
Proof. done. Qed.

Lemma TotalOrder_neg_iff ts1 p1 ts2 p2 :
  TotalOrder ts1 p1 ts2 p2 = (-1)%Z ↔
    (ts1 < ts2)%N ∨ ts1 = ts2 ∧ String.ltb p1 p2 = true.
Proof.
  unfold TotalOrder. destruct (N.eqb_spec ts1 ts2) as [->|Hne]; simpl.
  - destruct (String.ltb p1 p2); [naive_solver|]. destruct (String.ltb p2 p1); split; try done; naive_solver lia.
  - destruct (N.ltb_spec ts1 ts2); split; try done; naive_solver lia.
Qed.

Lemma TotalOrder_swap ts1 p1 ts2 p2 :
  TotalOrder ts2 p2 ts1 p1 = (- TotalOrder ts1 p1 ts2 p2)%Z.
Proof.
  unfold TotalOrder. rewrite (N.eqb_sym ts2 ts1).
  destruct (N.eqb_spec ts1 ts2) as [->|Hne]; simpl.
  - destruct (String.ltb p1 p2) eqn:E; [by rewrite (string_ltb_asym _ _ E)|].
    by destruct (String.ltb p2 p1).
  - destruct (N.ltb_spec ts1 ts2), (N.ltb_spec ts2 ts1); lia.
Qed.

Lemma TotalOrder_zero ts1 p1 ts2 p2 :
  TotalOrder ts1 p1 ts2 p2 = 0%Z ↔ ts1 = ts2 ∧ p1 = p2.
Proof.
  unfold TotalOrder. destruct (N.eqb_spec ts1 ts2) as [->|Hne]; simpl.
  - destruct (decide (p1 = p2)) as [->|Hp]; [by rewrite string_ltb_irrefl|].
    destruct (string_ltb_total _ _ Hp) as [E|E]; rewrite E; [naive_solver|].
    rewrite (string_ltb_asym _ _ E). naive_solver.
  - destruct (ts1 <? ts2)%N; naive_solver.
Qed.

(** ** Properties *)

(** Rules LC1-LC3: below the top of [uint64] a tick or send increments the
    clock, a receive sets it to one more than the larger of the clock and the
    message's timestamp (so it exceeds both), each method returns the new
    value, and none changes the owner. *)
Theorem lamport_rules (c : LamportClock) (ts : N) :
  (value c < MaxUint64)%N → (ts < MaxUint64)%N →
  Tick c = ({| value := value c + 1; pid := pid c |}, (value c + 1)%N) ∧
  Send c = Tick c ∧
  Receive c ts =
    ({| value := N.max (value c) ts + 1; pid := pid c |}, (N.max (value c) ts + 1)%N).
Proof.
  intros Hc Ht. unfold Send, Tick. rewrite u64_succ_small by done. split_and!; [done..|].
  unfold Receive. destruct (N.ltb_spec (value c) ts); simpl; rewrite u64_succ_small by lia;
    repeat f_equal; lia.
Qed.

Lemma lamport_rules_witness :
  Receive {| value := 3; pid := "P1" |} 9 = ({| value := 10; pid := "P1" |}, 10%N).
Proof.
  destruct (lamport_rules {| value := 3; pid := "P1" |} 9 ltac:(vm_compute; reflexivity)
    ltac:(vm_compute; reflexivity)) as (_ & _ & E). exact E.
Defined.

(** [TotalOrder] is a strict total order on (timestamp, pid) pairs: it is
    antisymmetric, answers 0 only on equal pairs, orders by timestamp first,
    and is transitive. *)
Theorem TotalOrder_total (t1 t2 t3 : N) (p1 p2 p3 : string) :
  TotalOrder t2 p2 t1 p1 = (- TotalOrder t1 p1 t2 p2)%Z ∧
  (TotalOrder t1 p1 t2 p2 = 0%Z ↔ t1 = t2 ∧ p1 = p2) ∧
  ((t1 < t2)%N → TotalOrder t1 p1 t2 p2 = (-1)%Z) ∧
  (TotalOrder t1 p1 t2 p2 = (-1)%Z → TotalOrder t2 p2 t3 p3 = (-1)%Z →
     TotalOrder t1 p1 t3 p3 = (-1)%Z) ∧
  (let o := TotalOrder t1 p1 t2 p2 in o = -1 ∨ o = 0 ∨ o = 1)%Z.
Proof.
  split_and!; [apply TotalOrder_swap|apply TotalOrder_zero| | |].
  - intros. rewrite TotalOrder_neg_iff. by left.
  - rewrite !TotalOrder_neg_iff. intros [?|[-> ?]] [?|[-> ?]]; eauto using string_ltb_trans.
    left. lia.
  - unfold TotalOrder. repeat case_match; auto.
Qed.
