(* ===== verification/Matrix.v ===== *)
(** * Matrix clocks (src/internal/clock/matrix/clock.go)

    Package [matrix]: the N x N clock of Kshemkalyani and Singhal with its
    tick, send and receive rules, and the garbage-collection bound
    [MinKnowledge] / [CanGC]. *)
From stdpp Require Import gmap strings list.
From S2P Require Import Prelude VClock.

(** [type MatrixClock map[string]map[string]uint64]; a row that is missing
    (or nil) reads as empty. *)
Abbreviation MatrixClock := (gmap string (gmap string N)).

Definition row (mc : MatrixClock) (p : string) : gmap string N := default ∅ (mc !! p).

(** [mc[p][q]] *)
Definition cell (mc : MatrixClock) (p q : string) : N := (row mc p).[q].

Section operations.
Context `{MapRange}.

Definition New (pids : list string) : MatrixClock :=
  foldl (λ mc p,
    foldl (λ mc q, <[p := <[q := 0%N]> (row mc p)]> mc) (<[p := ∅]> mc) pids) ∅ pids.

Definition DeepCopy (mc : MatrixClock) : MatrixClock :=
  for_range mc (λ p row result,
    let r := for_range row (λ q v r, <[q := v]> r) ∅ in
    <[p := r]> result) ∅.

(** [if result[p] == nil { result[p] = make(...) }] *)
Definition ensure_row (p : string) (result : MatrixClock) : MatrixClock :=
  match result !! p with None => <[p := ∅]> result | Some _ => result end.

(** [result[self][self]++] *)
Definition bump (self : string) (result : MatrixClock) : MatrixClock :=
  <[self := <[self := u64_succ (cell result self self)]> (row result self)]> result.

Definition Tick (mc : MatrixClock) (self : string) : MatrixClock :=
  let result := DeepCopy mc in
  let result := ensure_row self result in
  bump self result.

Definition Send (mc : MatrixClock) (self : string) : MatrixClock * MatrixClock :=
  let local := Tick mc self in
  let msgStamp := DeepCopy local in
  (local, msgStamp).

(** [if result[p][pid] < val { result[p][pid] = val }] *)
Definition raise_cell (p pid : string) (val : N) (result : MatrixClock) : MatrixClock :=
  if (cell result p pid <? val)%N
  then <[p := <[pid := val]> (row result p)]> result else result.

Definition Receive (local incoming : MatrixClock) (self sender : string) : MatrixClock :=
  let result := DeepCopy local in
  let result := ensure_row self result in
  let result := bump self result in
  (* step 2: merge the sender's row into self's row *)
  let result := for_range (row incoming sender) (λ pid val result, raise_cell self pid val result) result in
  (* step 3: propagate the sender's knowledge of all other processes *)
  for_range incoming (λ k incomingRow result,
    if bool_decide (k = self) then result
    else
      let result := ensure_row k result in
      for_range incomingRow (λ pid val result, raise_cell k pid val result) result) result.

Definition MinKnowledge (mc : MatrixClock) (pid : string) : N :=
  if (size mc =? 0)%nat then 0%N
  else
    let min := for_range mc (λ _ row min,
      let v := row.[pid] in
      if (v <? min)%N then v else min) MaxUint64 in
    if (min =? MaxUint64)%N then 0%N else min.

Definition CanGC (mc : MatrixClock) (pid : string) (upTo : N) : bool :=
  (upTo <=? MinKnowledge mc pid)%N.
End operations.

(** ** What the operations compute *)
Section facts.
Context `{MapRange}.

Lemma DeepCopy_id (mc : MatrixClock) : DeepCopy mc = mc.
Proof.
  apply map_eq. intros p. unfold DeepCopy.
  rewrite (for_range_lookup _
    (λ _ (row : gmap string N) _, Some (for_range row (λ q v r, <[q := v]> r) ∅))) by done.
  rewrite lookup_empty. destruct (mc !! p) as [r|]; [|done]. f_equal. apply Copy_id.
Qed.

Lemma row_insert mc p r q : row (<[p := r]> mc) q = if decide (q = p) then r else row mc q.
Proof. unfold row. rewrite lookup_insert. repeat case_decide; subst; done. Qed.

Lemma row_ensure p mc q : row (ensure_row p mc) q = row mc q.
Proof.
  unfold ensure_row. destruct (mc !! p) eqn:E; [done|]. rewrite row_insert.
  case_decide; [subst|done]. unfold row. by rewrite E.
Qed.

Lemma cell_insert mc p r k q :
  cell (<[p := r]> mc) k q = if decide (k = p) then r.[q] else cell mc k q.
Proof. unfold cell. rewrite row_insert. by case_decide. Qed.

Lemma cell_ensure p mc k q : cell (ensure_row p mc) k q = cell mc k q.
Proof. unfold cell. by rewrite row_ensure. Qed.

Lemma cell_bump s mc p q :
  cell (bump s mc) p q =
    if decide (p = s ∧ q = s) then u64_succ (cell mc s s) else cell mc p q.
Proof.
  unfold bump. rewrite cell_insert. case_decide as Hp; [subst|].
  - rewrite mget_insert. repeat case_decide; naive_solver.
  - rewrite decide_False; [done|]. naive_solver.
Qed.

Lemma Tick_cell mc s p q :
  cell (Tick mc s) p q = if decide (p = s ∧ q = s) then u64_succ (cell mc s s) else cell mc p q.
Proof. unfold Tick. by rewrite cell_bump, !cell_ensure, DeepCopy_id. Qed.

(** The inner loop over one row is a merge of that row. *)
Lemma raise_row_loop p (r : gmap string N) mc :
  is_Some (mc !! p) →
  for_range r (λ pid val result, raise_cell p pid val result) mc =
    <[p := MergePassive (row mc p) r]> mc.
Proof.
  intros [r0 Hr0]. unfold MergePassive. rewrite Copy_id. unfold for_range.
  assert (∀ es mc, is_Some (mc !! p) →
    foldl (λ a kv, raise_cell p kv.1 kv.2 a) mc es =
      <[p := foldl (λ a kv, raise kv.1 kv.2 a) (row mc p) es]> mc) as E; [|by apply E; eauto].
  clear. induction es as [|[k v] es IH]; intros mc [r0 Hr0]; simpl.
  - symmetry. apply insert_id. unfold row. by rewrite Hr0.
  - rewrite IH.
    + unfold raise_cell, cell, raise. destruct (_ <? _)%N eqn:E.
      * rewrite row_insert, decide_True by done. by rewrite insert_insert_eq.
      * done.
    + unfold raise_cell. destruct (_ <? _)%N; [|by eauto]. rewrite lookup_insert_eq. eauto.
Qed.

Lemma ensure_is_Some p mc : is_Some (ensure_row p mc !! p).
Proof. unfold ensure_row. destruct (mc !! p) eqn:E; [by eauto|]. rewrite lookup_insert_eq. eauto. Qed.

Lemma ensure_row_alter p mc : ensure_row p mc = partial_alter (λ o, Some (default ∅ o)) p mc.
Proof.
  unfold ensure_row. apply map_eq. intros q. destruct (decide (q = p)) as [->|].
  - rewrite lookup_partial_alter_eq. destruct (mc !! p) eqn:E; [by rewrite E|].
    by rewrite lookup_insert_eq.
  - rewrite lookup_partial_alter_ne by done. destruct (mc !! p); [done|].
    by rewrite lookup_insert_ne.
Qed.

(** One round of step 3 touches one row only. *)
Lemma propagate_alter self k (r : gmap string N) mc :
  (if bool_decide (k = self) then mc
   else for_range r (λ pid val result, raise_cell k pid val result) (ensure_row k mc)) =
  partial_alter (λ o, if bool_decide (k = self) then o
                      else Some (MergePassive (default ∅ o) r)) k mc.
Proof.
  apply map_eq. intros q. case_bool_decide.
  - destruct (decide (q = k)) as [->|]; [by rewrite lookup_partial_alter_eq|].
    by rewrite lookup_partial_alter_ne.
  - rewrite raise_row_loop by apply ensure_is_Some. rewrite row_ensure.
    destruct (decide (q = k)) as [->|].
    + by rewrite lookup_insert_eq, lookup_partial_alter_eq.
    + rewrite lookup_insert_ne, lookup_partial_alter_ne by done.
      rewrite ensure_row_alter. by rewrite lookup_partial_alter_ne.
Qed.

(** The row [p] after a receive, as a map (so also which rows exist). *)
Lemma Receive_lookup local incoming self sender p :
  Receive local incoming self sender !! p =
    if bool_decide (p = self)
    then Some (MergePassive (<[self := u64_succ (cell local self self)]> (row local self))
                            (row incoming sender))
    else match incoming !! p with
         | Some r => Some (MergePassive (row local p) r)
         | None => local !! p
         end.
Proof.
  unfold Receive. rewrite DeepCopy_id.
  rewrite raise_row_loop by (unfold bump; rewrite lookup_insert_eq; eauto).
  rewrite (for_range_lookup _ (λ k r o, if bool_decide (k = self) then o
    else Some (MergePassive (default ∅ o) r))) by (intros; apply propagate_alter).
  unfold bump. case_bool_decide as Hp; [subst p|].
  - rewrite lookup_insert_eq, row_insert, decide_True, cell_ensure, row_ensure by done.
    by destruct (incoming !! self).
  - rewrite !lookup_insert_ne by done. rewrite ensure_row_alter, lookup_partial_alter_ne by done.
    done.
Qed.

Lemma Receive_cell local incoming self sender p q :
  cell (Receive local incoming self sender) p q =
    if decide (p = self)
    then N.max (if decide (q = self) then u64_succ (cell local self self) else cell local self q)
               (cell incoming sender q)
    else N.max (cell local p q) (cell incoming p q).
Proof.
  unfold cell at 1, row at 1. rewrite Receive_lookup. case_bool_decide; case_decide; try done.
  - simpl. rewrite MergePassive_get, mget_insert. done.
  - unfold cell, row. destruct (incoming !! p); simpl.
    + by rewrite MergePassive_get.
    + rewrite mget_empty. lia.
Qed.

(** [MinKnowledge] loop: a lower bound of all rows that one row attains. *)
Lemma min_loop_spec (pid : string) (es : list (string * gmap string N)) m0 :
  let m := foldl (λ min (kv : string * gmap string N),
     if (kv.2.[pid] <? min)%N then kv.2.[pid] else min) m0 es in
  (m <= m0)%N ∧ (∀ kv, kv ∈ es → (m <= kv.2.[pid])%N) ∧
  (m = m0 ∨ ∃ kv, kv ∈ es ∧ m = kv.2.[pid]).
Proof.
  revert m0. induction es as [|kv es IH]; intros m0; simpl.
  { split_and!; [lia|by intros ? ?%elem_of_nil|by left]. }
  destruct (IH (if (kv.2.[pid] <? m0)%N then kv.2.[pid] else m0)) as (H1 & H2 & H3).
  destruct (N.ltb_spec (kv.2.[pid]) m0); split_and!; try lia;
    try (intros kv' [->|Hin]%elem_of_cons; [lia|by apply H2]);
    destruct H3 as [H3|(kv' & ? & ?)]; eauto using elem_of_cons;
    right; eexists; (split; [|done]); set_solver.
Qed.

(** [MinKnowledge] is the minimum of the column over the rows present, except
    that a column of [MaxUint64] everywhere reads 0. *)
Lemma MinKnowledge_le mc pid p :
  is_Some (mc !! p) → (MinKnowledge mc pid <= cell mc p pid)%N.
Proof.
  intros [r Hr]. unfold MinKnowledge. destruct (size mc =? 0)%nat; [lia|].
  destruct (min_loop_spec pid (range mc) MaxUint64) as (_ & Hle & _).
  specialize (Hle (p, r)). unfold for_range. unfold cell, row. rewrite Hr. simpl in *.
  rewrite <- elem_of_range in Hr. specialize (Hle Hr).
  destruct (_ =? _)%N; [lia|done].
Qed.

Lemma MinKnowledge_attained mc pid n :
  mc ≠ ∅ → (∀ p, is_Some (mc !! p) → (n <= cell mc p pid)%N) → (n < MaxUint64)%N →
  (∃ p, is_Some (mc !! p) ∧ (cell mc p pid < MaxUint64)%N) → (n <= MinKnowledge mc pid)%N.
Proof.
  intros Hne Hall Hn (p0 & [r0 Hr0] & Hp0). unfold MinKnowledge.
  destruct (Nat.eqb_spec (size mc) 0) as [E%map_size_empty_inv|_]; [done|].
  destruct (min_loop_spec pid (range mc) MaxUint64) as (_ & Hle & Hat).
  unfold for_range. destruct (N.eqb_spec (foldl
    (λ min (kv : string * gmap string N), if (kv.2.[pid] <? min)%N then kv.2.[pid] else min)
    MaxUint64 (range mc)) MaxUint64) as [E|E].
  - specialize (Hle (p0, r0)). rewrite elem_of_range, E in Hle. specialize (Hle Hr0).
    unfold cell, row in Hp0. rewrite Hr0 in Hp0. simpl in *. lia.
  - destruct Hat as [Hat|([p r] & Hin & Hat)]; [done|]. rewrite Hat.
    apply elem_of_range in Hin. specialize (Hall p ltac:(eauto)).
    unfold cell, row in Hall. by rewrite Hin in Hall.
Qed.

Lemma New_cell pids p q : cell (New pids) p q = 0%N.
Proof.
  unfold New. assert (∀ l mc, (∀ k, cell mc k q = 0%N) → ∀ k, cell (foldl (λ mc p,
    foldl (λ mc q, <[p := <[q := 0%N]> (row mc p)]> mc) (<[p := ∅]> mc) pids) mc l) k q = 0%N) as E.
  { induction l as [|p0 l IH]; intros mc Hmc; [done|]. simpl. apply IH.
    assert (∀ l mc, (∀ k, cell mc k q = 0%N) → ∀ k, cell (foldl (λ mc q,
      <[p0 := <[q := 0%N]> (row mc p0)]> mc) mc l) k q = 0%N) as E.
    { clear. induction l as [|q0 l IH]; intros mc Hmc; [done|]. simpl. apply IH.
      intros k. rewrite cell_insert. case_decide; [|done]. rewrite mget_insert.
      case_decide; [done|]. apply Hmc. }
    apply E. intros k. rewrite cell_insert. by case_decide. }
  by apply E.
Qed.

Lemma New_rows pids k : k ∈ pids → is_Some (New pids !! k).
Proof.
  unfold New. intros Hk.
  assert (∀ p l (mc : MatrixClock), is_Some (mc !! k) →
    is_Some (foldl (λ mc q, <[p := <[q := 0%N]> (row mc p)]> mc) mc l !! k)) as E1.
  { clear. intros p l. induction l as [|q0 l IH]; intros mc Hmc; [done|]. simpl. apply IH.
    rewrite lookup_insert. case_decide; eauto. }
  assert (∀ l (mc : MatrixClock), k ∈ l ∨ is_Some (mc !! k) → is_Some (foldl (λ mc p,
    foldl (λ mc q, <[p := <[q := 0%N]> (row mc p)]> mc) (<[p := ∅]> mc) pids) mc l !! k)) as E2.
  { induction l as [|p0 l IH]; intros mc Hmc; simpl.
    - destruct Hmc as [?%elem_of_nil|?]; done.
    - apply IH. rewrite elem_of_cons in Hmc. destruct (decide (k ∈ l)); [by left|right].
      apply E1. rewrite lookup_insert. case_decide; [eauto|]. naive_solver. }
  apply E2. by left.
Qed.

Lemma Tick_rows mc s k : is_Some (mc !! k) → is_Some (Tick mc s !! k).
Proof.
  intros Hk. unfold Tick, bump. rewrite DeepCopy_id, lookup_insert. case_decide; [eauto|].
  by rewrite ensure_row_alter, lookup_partial_alter_ne.
Qed.

Lemma Receive_rows local incoming s q k :
  is_Some (local !! k) → is_Some (Receive local incoming s q !! k).
Proof. intros Hk. rewrite Receive_lookup. case_bool_decide; [eauto|]. case_match; eauto. Qed.
End facts.
