(* ===== verification/Execution.v ===== *)
(** * Executions and happened-before

    The distributed computation the clocks time-stamp.  An execution is a
    sequence of internal, send and receive events of processes; the clock
    algorithm is an interface ([ClockAlg], with the laws [LogicalClock]) that
    the Lamport, vector and matrix clocks of the code implement, so that what
    a client may conclude from time stamps is proved once against the laws.
    Happened-before is Lamport's relation on the events of the sequence,
    defined without clocks. *)
From stdpp Require Import gmap strings list relations.
From S2P Require Import Prelude VClock Lamport Matrix.

(** ** The clock interface *)

(** The calls a process makes: initial clock, tick on an internal event, tick
    and stamp on a send, update on a receive (arguments: own pid, sender). *)
Class ClockAlg (C S : Type) := {
  ca_init : string → C;
  ca_tick : string → C → C;
  ca_send : string → C → C * S;
  ca_recv : string → string → C → S → C
}.

(** What a logical clock promises: an order [ca_lt] in which every rule moves
    forward as long as the counters are below [MaxUint64]; [ca_below n] bounds
    the counters, and each rule raises the bound by at most one. *)
Class LogicalClock (C S : Type) `{!ClockAlg C S} := {
  ca_lt : relation C;
  ca_lt_trans : Transitive ca_lt;
  ca_below : N → C → Prop;
  ca_below_mono n m c : (n <= m)%N → ca_below n c → ca_below m c;
  ca_init_below p : ca_below 0 (ca_init p);
  ca_tick_law p c n : (n < MaxUint64)%N → ca_below n c →
    ca_lt c (ca_tick p c) ∧ ca_below (n + 1) (ca_tick p c);
  ca_send_law p c n : (n < MaxUint64)%N → ca_below n c →
    ca_lt c (ca_send p c).1 ∧ ca_below (n + 1) (ca_send p c).1;
  ca_recv_law p q c d n : (n < MaxUint64)%N → ca_below n c → ca_below n (ca_send q d).1 →
    ca_lt c (ca_recv p q c (ca_send q d).2) ∧
    ca_lt (ca_send q d).1 (ca_recv p q c (ca_send q d).2) ∧
    ca_below (n + 1) (ca_recv p q c (ca_send q d).2)
}.
#[export] Existing Instance ca_lt_trans.

(** ** Events and executions *)

(** [ARecv p i]: process [p] receives the message sent by event number [i]. *)
Inductive act := AInternal (p : string) | ASend (p : string) | ARecv (p : string) (i : nat).

Definition act_pid (a : act) : string :=
  match a with AInternal p | ASend p | ARecv p _ => p end.

(** Direct causality between event numbers: program order and messages. *)
Definition edge (tr : list act) (i j : nat) : Prop :=
  i < j ∧ ∃ a b, tr !! i = Some a ∧ tr !! j = Some b ∧
    (act_pid a = act_pid b ∨ b = ARecv (act_pid b) i).

(** Lamport's happened-before. *)
Definition hb (tr : list act) : relation nat := tc (edge tr).

(** An event that took place: what it was, the clock after it, and the stamp
    and sender's clock of the message if it was a send. *)
Record event (C S : Type) := Event { e_act : act; e_clk : C; e_stamp : option S }.
Arguments Event {C S}. Arguments e_act {C S}. Arguments e_clk {C S}. Arguments e_stamp {C S}.

Record exec (C S : Type) := Exec { ex_local : gmap string C; ex_evs : list (event C S) }.
Arguments Exec {C S}. Arguments ex_local {C S}. Arguments ex_evs {C S}.

Section execution.
Context {C S : Type} `{!ClockAlg C S}.

Definition local (x : exec C S) (p : string) : C := default (ca_init p) (ex_local x !! p).

Definition record_event (x : exec C S) (a : act) (c : C) (s : option S) : exec C S :=
  {| ex_local := <[act_pid a := c]> (ex_local x);
     ex_evs := ex_evs x ++ [Event a c s] |}.

(** One event; a receive needs an earlier send with that number. *)
Definition step_act (x : exec C S) (a : act) : option (exec C S) :=
  match a with
  | AInternal p => Some (record_event x a (ca_tick p (local x p)) None)
  | ASend p =>
      let '(c, s) := ca_send p (local x p) in
      Some (record_event x a c (Some s))
  | ARecv p i =>
      match ex_evs x !! i with
      | Some (Event (ASend q) _ (Some s)) =>
          Some (record_event x a (ca_recv p q (local x p) s) None)
      | _ => None
      end
  end.

Definition exec_init : exec C S := {| ex_local := ∅; ex_evs := [] |}.

Definition exec_run (tr : list act) : option (exec C S) :=
  foldl (λ ox a, ox ≫= λ x, step_act x a) (Some exec_init) tr.

Lemma exec_run_snoc tr a : exec_run (tr ++ [a]) = exec_run tr ≫= λ x, step_act x a.
Proof. unfold exec_run. by rewrite foldl_app. Qed.

(** Reading an execution step: the new clock and what it was made from. *)
Lemma step_act_inv x a x' :
  step_act x a = Some x' →
  ∃ c s, x' = record_event x a c s ∧
    match a with
    | AInternal p => c = ca_tick p (local x p) ∧ s = None
    | ASend p => (c, s) = ((ca_send p (local x p)).1, Some (ca_send p (local x p)).2)
    | ARecv p i => s = None ∧ ∃ q d st, ex_evs x !! i = Some (Event (ASend q) d (Some st)) ∧
        c = ca_recv p q (local x p) st
    end.
Proof.
  destruct a as [p|p|p i]; simpl.
  - intros [= <-]. eauto.
  - destruct (ca_send p (local x p)) as [c s]. intros [= <-]. eauto.
  - destruct (ex_evs x !! i) as [[[]? []]|] eqn:E; try done. intros [= <-].
    do 2 eexists. split; [done|]. split; [done|]. eauto.
Qed.

Lemma local_record x a c s p :
  local (record_event x a c s) p = if decide (p = act_pid a) then c else local x p.
Proof.
  unfold local. simpl. rewrite lookup_insert. repeat case_decide; subst; done.
Qed.

Lemma exec_run_acts tr x : exec_run tr = Some x → e_act <$> ex_evs x = tr.
Proof.
  revert x. induction tr as [|a tr IH] using rev_ind; intros x.
  - intros [= <-]. done.
  - rewrite exec_run_snoc. intros (x0 & E0 & (c & s & -> & _)%step_act_inv)%bind_Some.
    simpl. rewrite fmap_app. simpl. by rewrite (IH _ E0).
Qed.

Lemma exec_run_lookup tr x i a :
  exec_run tr = Some x → tr !! i = Some a ↔ ∃ e, ex_evs x !! i = Some e ∧ e_act e = a.
Proof.
  intros E%exec_run_acts. rewrite <- E, list_lookup_fmap, fmap_Some. naive_solver.
Qed.

Lemma exec_run_length tr x : exec_run tr = Some x → length (ex_evs x) = length tr.
Proof. intros E%exec_run_acts. by rewrite <- E, length_fmap. Qed.

Lemma exec_stamps tr x i e :
  exec_run tr = Some x → ex_evs x !! i = Some e →
  match e_act e with ASend _ => is_Some (e_stamp e) | _ => e_stamp e = None end.
Proof.
  revert x. induction tr as [|a tr IH] using rev_ind; intros x.
  - intros [= <-]. done.
  - rewrite exec_run_snoc. intros (x0 & E0 & (c & s & -> & Ha)%step_act_inv)%bind_Some.
    simpl. rewrite lookup_app_Some, list_lookup_singleton_Some.
    intros [Hi|(_ & _ & <-)]; [by eapply IH|]. simpl. destruct a; naive_solver.
Qed.

(** Which sequences run does not depend on the clock algorithm: every receive
    names an earlier send. *)
Definition valid_trace (tr : list act) : Prop :=
  ∀ j p i, tr !! j = Some (ARecv p i) → i < j ∧ ∃ q, tr !! i = Some (ASend q).

Lemma valid_trace_snoc tr a :
  valid_trace (tr ++ [a]) ↔
    valid_trace tr ∧ ∀ p i, a = ARecv p i → ∃ q, tr !! i = Some (ASend q).
Proof.
  unfold valid_trace. split.
  - intros Hv. split.
    + intros j p i Hj. destruct (Hv j p i) as (Hij & q & Hq); [by apply lookup_app_l_Some|].
      split; [done|]. exists q. rewrite lookup_app_l in Hq; [done|].
      apply lookup_lt_Some in Hj. lia.
    + intros p i ->. destruct (Hv (length tr) p i) as (Hij & q & Hq).
      { by apply list_lookup_middle. }
      exists q. by rewrite lookup_app_l in Hq.
  - intros [Hv Ha] j p i. rewrite lookup_app_Some, list_lookup_singleton_Some.
    intros [Hj|(Hj & E & ->)].
    + destruct (Hv j p i Hj) as (? & q & ?). split; [done|]. exists q. by apply lookup_app_l_Some.
    + destruct (Ha p i eq_refl) as (q & Hq). apply lookup_lt_Some in Hq as Hlt.
      split; [lia|]. exists q. by apply lookup_app_l_Some.
Qed.

Lemma exec_run_valid tr : is_Some (exec_run tr) ↔ valid_trace tr.
Proof.
  induction tr as [|a tr IH] using rev_ind.
  - split; [by intros _ j p i Hj|]. intros _. by eexists.
  - rewrite valid_trace_snoc, <- IH, exec_run_snoc. split.
    + intros (x' & (x & Ex & (c & s & -> & Ha)%step_act_inv)%bind_Some). split; [by eexists|].
      intros p i ->. destruct Ha as (_ & q & d & st & Hi & _). exists q.
      apply (exec_run_lookup _ _ _ _ Ex). eauto.
    + intros [[x Ex] Ha]. rewrite Ex. simpl. destruct a as [p|p|p i]; simpl.
      * eauto.
      * destruct (ca_send p (local x p)). eauto.
      * destruct (Ha p i eq_refl) as (q & ([b c st] & Hi & Hb)%(exec_run_lookup _ _ _ _ Ex)).
        simpl in Hb. subst b. pose proof (exec_stamps _ _ _ _ Ex Hi) as [s Hs]. simpl in Hs.
        subst st. rewrite Hi. eauto.
Qed.
End execution.
Arguments exec_run C S {_} tr.
Arguments local {C S _} x p.

(** ** Happened-before follows the sequence *)
Lemma edge_lt tr i j : edge tr i j → i < j.
Proof. by intros [? _]. Qed.

Lemma hb_lt tr i j : hb tr i j → i < j.
Proof. induction 1 as [i j E%edge_lt|i j k E%edge_lt _ IH]; lia. Qed.

Lemma edge_bound tr i j : edge tr i j → j < length tr.
Proof. intros (_ & a & b & _ & E & _). by eapply lookup_lt_Some. Qed.

Lemma edge_snoc tr a i j : j < length tr → edge (tr ++ [a]) i j ↔ edge tr i j.
Proof.
  intros Hj. unfold edge. split; intros (Hij & b & c & Hb & Hc & Hor).
  - rewrite lookup_app_l in Hb by lia. rewrite lookup_app_l in Hc by lia. eauto 8.
  - split; [done|]. exists b, c. rewrite !lookup_app_l by lia. eauto.
Qed.

(** The last step of a causal chain. *)
Lemma hb_last tr i j : hb tr i j ↔ ∃ k, edge tr k j ∧ (i = k ∨ hb tr i k).
Proof.
  split.
  - induction 1 as [i j E|i k j E _ (m & Hm & Hkm)].
    + eauto.
    + exists m. split; [done|]. right. destruct Hkm as [->|Hkm].
      * by apply tc_once.
      * by eapply tc_l.
  - intros (k & Hk & [->|Hik]); [by apply tc_once|by eapply tc_r].
Qed.

Lemma hb_snoc tr a i j : j < length tr → hb (tr ++ [a]) i j ↔ hb tr i j.
Proof.
  revert i. induction j as [j IH] using lt_wf_ind. intros i Hj.
  rewrite !hb_last. apply exist_proper. intros k. rewrite edge_snoc by done.
  split; intros (Hk & Hor); (split; [done|]);
    pose proof (edge_lt _ _ _ Hk); rewrite IH in * by lia; done.
Qed.

(** The events directly before a new last event [a]. *)
Lemma edge_new tr a k :
  edge (tr ++ [a]) k (length tr) ↔
    k < length tr ∧ ((∃ b, tr !! k = Some b ∧ act_pid b = act_pid a) ∨ a = ARecv (act_pid a) k).
Proof.
  unfold edge. split.
  - intros (Hk & b & c & Hb & Hc & Hor). split; [done|].
    rewrite lookup_app_l in Hb by done.
    rewrite list_lookup_middle in Hc by done. simplify_eq. naive_solver.
  - intros (Hk & Hor). split; [done|].
    destruct (lookup_lt_is_Some_2 tr k Hk) as [b0 Hb0].
    exists b0, a. rewrite lookup_app_l, list_lookup_middle by done.
    split_and!; [done..|]. destruct Hor as [(b & Hb & E)|E]; [|by right].
    left. by simplify_eq.
Qed.

(** What an event of the same process knew, its process's next event knows. *)
Lemma hb_new_po tr a b i j :
  tr !! j = Some b → act_pid b = act_pid a → i = j ∨ hb (tr ++ [a]) i j →
  hb (tr ++ [a]) i (length tr).
Proof.
  intros Hj Hp Hor. apply hb_last. exists j. split; [|done]. apply edge_new.
  split; [by eapply lookup_lt_Some|]. eauto.
Qed.

(** ** The clock condition

    Against the laws alone: an event that happened before another has the
    smaller clock, in every execution of fewer than 2^64 events. *)
Section clock_condition.
Context {C S : Type} `{LogicalClock C S}.

(** What holds of the state after a prefix: clocks are bounded by the number
    of events, a process's clock is not behind any of its events, and stamps
    are what [ca_send] produced. *)
Record exec_inv (tr : list act) (x : exec C S) : Prop := {
  inv_local_below p : ca_below (N.of_nat (length tr)) (local x p);
  inv_evs_below i e : ex_evs x !! i = Some e → ca_below (N.of_nat (length tr)) (e_clk e);
  inv_evs_local i e : ex_evs x !! i = Some e →
    e_clk e = local x (act_pid (e_act e)) ∨ ca_lt (e_clk e) (local x (act_pid (e_act e)));
  inv_stamp i q c st : ex_evs x !! i = Some (Event (ASend q) c (Some st)) →
    ∃ d, c = (ca_send q d).1 ∧ st = (ca_send q d).2;
  inv_edge i j e f : edge tr i j → ex_evs x !! i = Some e → ex_evs x !! j = Some f →
    ca_lt (e_clk e) (e_clk f)
}.

(** The new clock of a step is after the process's previous clock, and after
    the sender's clock when it is a receive. *)
Lemma step_forward tr x a x' c s :
  exec_inv tr x → (N.of_nat (length tr) < MaxUint64)%N →
  step_act x a = Some x' → x' = record_event x a c s →
  ca_lt (local x (act_pid a)) c ∧ ca_below (N.of_nat (length tr) + 1) c ∧
  (∀ k e, a = ARecv (act_pid a) k → ex_evs x !! k = Some e → ca_lt (e_clk e) c) ∧
  (∀ q st, a = ASend q → s = Some st → ∃ d, c = (ca_send q d).1 ∧ st = (ca_send q d).2).
Proof.
  intros [Hl He _ Hst _] Hn (c' & s' & -> & Hc)%step_act_inv E.
  assert (c' = c ∧ s' = s) as [-> ->].
  { unfold record_event in E. injection E as E1 E2.
    apply app_inj_tail in E2 as [_ E2]. by simplify_eq. }
  destruct a as [p|p|p i]; simpl in *.
  - destruct Hc as [-> ->]. destruct (ca_tick_law p (local x p) _ Hn (Hl p)). naive_solver.
  - simplify_eq. destruct (ca_send_law p (local x p) _ Hn (Hl p)). split_and!; try done.
    intros q st [= <-] [= <-]. eauto.
  - destruct Hc as (-> & q & d & st & Hi & ->). destruct (Hst _ _ _ _ Hi) as (d' & -> & ->).
    specialize (He _ _ Hi) as Hb. simpl in Hb.
    destruct (ca_recv_law p q (local x p) d' _ Hn (Hl p) Hb) as (? & ? & ?).
    split_and!; try done. intros k e [= <-] Hk. by simplify_eq.
Qed.

Lemma exec_inv_step tr x a x' :
  exec_run C S tr = Some x → exec_inv tr x → (N.of_nat (length tr) < MaxUint64)%N →
  step_act x a = Some x' → exec_inv (tr ++ [a]) x'.
Proof.
  intros Hrun Hinv Hn Hstep. destruct (step_act_inv _ _ _ Hstep) as (c & s & -> & _).
  destruct (step_forward _ _ _ _ _ _ Hinv Hn Hstep eq_refl) as (Hlc & Hcb & Hrecv & Hsend).
  destruct Hinv as [Hl He Hel Hst Hed].
  pose proof (exec_run_length _ _ Hrun) as Hlen.
  assert (N.of_nat (length (tr ++ [a])) = N.of_nat (length tr) + 1)%N as EN.
  { rewrite length_app. simpl. lia. }
  split; rewrite ?EN.
  - intros p. rewrite local_record. case_decide; [done|]. eapply ca_below_mono, Hl. lia.
  - intros i e. simpl. rewrite lookup_app_Some. intros [Hi|[Hi [_ <-]%list_lookup_singleton_Some]].
    + eapply ca_below_mono, He; [lia|done].
    + done.
  - intros i e. simpl. rewrite lookup_app_Some, local_record.
    intros [Hi|[Hi [_ <-]%list_lookup_singleton_Some]]; simpl.
    + case_decide as Hp; [|by eapply Hel]. right. rewrite <- Hp in Hlc.
      destruct (Hel _ _ Hi) as [->|?]; [done|by etrans].
    + rewrite decide_True by done. by left.
  - intros i q d st. simpl. rewrite lookup_app_Some.
    intros [Hi|[Hi [_ E]%list_lookup_singleton_Some]]; [by eapply Hst|].
    simplify_eq. by eapply Hsend.
  - intros i j e f Hij Hi Hj. pose proof (edge_lt _ _ _ Hij) as Hlt.
    pose proof (edge_bound _ _ _ Hij) as Hb. rewrite length_app in Hb. simpl in *.
    rewrite lookup_app_l in Hi by lia.
    destruct (decide (j < length tr)) as [Hj'|Hj'].
    + rewrite edge_snoc in Hij by done. rewrite lookup_app_l in Hj by lia. by eapply Hed.
    + assert (j = length tr) as -> by lia. rewrite <- Hlen, list_lookup_middle in Hj by done.
      simplify_eq. simpl. apply edge_new in Hij as (_ & [(b & Hb' & Hp)|E]).
      * assert (e_act e = b) as <-.
        { apply (exec_run_lookup _ _ _ _ Hrun) in Hb' as (e' & ? & ?). by simplify_eq. }
        rewrite <- Hp in Hlc. destruct (Hel _ _ Hi) as [->|?]; [done|by etrans].
      * by eapply Hrecv.
Qed.

Lemma exec_run_inv tr x :
  exec_run C S tr = Some x → (N.of_nat (length tr) <= MaxUint64)%N → exec_inv tr x.
Proof.
  revert x. induction tr as [|a tr IH] using rev_ind; intros x.
  - intros [= <-] _. split; simpl; try done. intros p. apply ca_init_below.
  - rewrite exec_run_snoc, length_app. simpl. intros (x0 & E0 & Hs)%bind_Some Hn.
    eapply exec_inv_step; eauto; try lia. apply IH; [done|lia].
Qed.

Lemma clock_condition tr x i j e f :
  exec_run C S tr = Some x → (N.of_nat (length tr) <= MaxUint64)%N →
  ex_evs x !! i = Some e → ex_evs x !! j = Some f → hb tr i j → ca_lt (e_clk e) (e_clk f).
Proof.
  intros Hrun Hn. destruct (exec_run_inv _ _ Hrun Hn) as [_ _ _ _ Hed].
  intros Hi Hj Hij. revert e Hi. induction Hij as [i j E|i k j E Hkj IH]; intros e Hi.
  - by eapply Hed.
  - destruct (lookup_lt_is_Some_2 (ex_evs x) k) as [g Hg].
    { rewrite (exec_run_length _ _ Hrun). by eapply edge_bound. }
    etrans; [by eapply Hed|by apply IH].
Qed.
End clock_condition.

(** ** The code's clocks are logical clocks *)

#[export] Instance lamport_alg : ClockAlg LamportClock N := {|
  ca_init := λ p, Lamport.New p;
  ca_tick := λ _ c, (Lamport.Tick c).1;
  ca_send := λ _ c, Lamport.Send c;
  ca_recv := λ _ _ c ts, (Lamport.Receive c ts).1
|}.

#[export] Program Instance lamport_clock : LogicalClock LamportClock N := {|
  ca_lt := λ c d, (value c < value d)%N;
  ca_below := λ n c, (value c <= n)%N
|}.
Next Obligation. intros a b c ??. lia. Qed.
Next Obligation. intros. simpl in *. lia. Qed.
Next Obligation. intros. simpl. lia. Qed.
Next Obligation. intros. simpl in *. rewrite u64_succ_small by lia. lia. Qed.
Next Obligation. intros. simpl in *. rewrite u64_succ_small by lia. lia. Qed.
Next Obligation.
  intros p q c d n Hn Hc Hd. pose proof (lamport_receive_value c (Lamport.Send d).2) as E.
  simpl in *. rewrite E, u64_succ_small by lia. lia.
Qed.

Section vector_instance.
Context `{MapRange} (allPIDs : string → list string).

(** [allPIDs p] is the [AllPIDs] process [p] was created with. *)
#[local] Instance vector_alg : ClockAlg VectorClock VectorClock := {|
  ca_init := λ p, VClock.New (allPIDs p);
  ca_tick := λ p c, VClock.Tick c p;
  ca_send := λ p c, VClock.Send c p;
  ca_recv := λ p _ c m, VClock.Receive c m p
|}.

#[local] Program Instance vector_clock : LogicalClock VectorClock VectorClock := {|
  ca_lt := vc_lt;
  ca_below := λ n c, ∀ k, (c.[k] <= n)%N
|}.
Next Obligation. intros n m c Hle Hc k. specialize (Hc k). simpl in *. lia. Qed.
Next Obligation. intros p k. simpl. rewrite New_get. lia. Qed.
Next Obligation.
  intros p c n Hn Hc. simpl. split; [apply Tick_lt; specialize (Hc p); lia|].
  intros k. rewrite Tick_get. specialize (Hc k). case_decide; subst; rewrite ?u64_succ_small; lia.
Qed.
Next Obligation.
  intros p c n Hn Hc. simpl. split; [apply Tick_lt; specialize (Hc p); lia|].
  intros k. rewrite Tick_get. specialize (Hc k). case_decide; subst; rewrite ?u64_succ_small; lia.
Qed.
Next Obligation.
  intros p q c d n Hn Hc Hd. simpl in *. rewrite Copy_id.
  pose proof (Hc p). pose proof (Hd p).
  destruct (Receive_lt c (VClock.Tick d q) p) as [? ?]; [lia|lia|].
  split_and!; [done..|]. intros k. rewrite Receive_get. specialize (Hc k). specialize (Hd k).
  case_decide; subst; rewrite ?u64_succ_small; lia.
Qed.

(** Number of events of [q] in a sequence. *)
Definition count (q : string) (tr : list act) : N :=
  N.of_nat (length (filter (λ a, act_pid a = q) tr)).

Lemma count_snoc q tr a :
  count q (tr ++ [a]) = if decide (act_pid a = q) then (count q tr + 1)%N else count q tr.
Proof.
  unfold count. rewrite filter_app, length_app. simpl.
  rewrite filter_cons, filter_nil. case_decide; simpl; lia.
Qed.

Lemma count_length q tr : (count q tr <= N.of_nat (length tr))%N.
Proof.
  unfold count. pose proof (length_filter (λ a, act_pid a = q) tr). lia.
Qed.

(** Every counter of a clock is the number of events of that process in its
    causal past: [knows] says which events a clock counts. *)
Record vec_inv (tr : list act) (x : exec VectorClock VectorClock) : Prop := {
  vi_own p : (local x p).[p] = count p tr;
  vi_local_le p q : ((local x p).[q] <= count q tr)%N;
  vi_evs_le i e q : ex_evs x !! i = Some e → ((e_clk e).[q] <= count q tr)%N;
  vi_local i e p : ex_evs x !! i = Some e →
    ((e_clk e).[act_pid (e_act e)] <= (local x p).[act_pid (e_act e)])%N ↔
    ∃ j f, ex_evs x !! j = Some f ∧ act_pid (e_act f) = p ∧ (i = j ∨ hb tr i j);
  vi_evs i j e f : ex_evs x !! i = Some e → ex_evs x !! j = Some f →
    ((e_clk e).[act_pid (e_act e)] <= (e_clk f).[act_pid (e_act e)])%N ↔ i = j ∨ hb tr i j
}.

(** A vector stamp is the sender's clock. *)
Lemma vec_stamp tr x i q d st :
  exec_run VectorClock VectorClock tr = Some x → (N.of_nat (length tr) <= MaxUint64)%N →
  ex_evs x !! i = Some (Event (ASend q) d (Some st)) → st = d.
Proof.
  intros Hrun Hn Hi.
  destruct (inv_stamp _ _ (exec_run_inv _ _ Hrun Hn) _ _ _ _ Hi) as (d' & -> & ->).
  simpl. by rewrite Copy_id.
Qed.

(** The counters of the clock of a new event. *)
Lemma vec_step_clock tr x a x' c s :
  vec_inv tr x → exec_run VectorClock VectorClock tr = Some x → (N.of_nat (length tr) < MaxUint64)%N →
  step_act x a = Some x' → x' = record_event x a c s →
  c.[act_pid a] = (count (act_pid a) tr + 1)%N ∧
  ∀ q, q ≠ act_pid a →
    (c.[q] = (local x (act_pid a)).[q] ∧ (∀ k, a ≠ ARecv (act_pid a) k)) ∨
    (∃ k f, a = ARecv (act_pid a) k ∧ ex_evs x !! k = Some f ∧
       c.[q] = N.max (local x (act_pid a)).[q] (e_clk f).[q]).
Proof.
  intros Hv Hrun Hn (c' & s' & -> & Hc)%step_act_inv E.
  assert (c' = c) as ->.
  { unfold record_event in E. injection E as _ E2.
    apply app_inj_tail in E2 as [_ E2]. by simplify_eq. }
  pose proof (count_length (act_pid a) tr) as Hcl. pose proof (vi_own _ _ Hv (act_pid a)) as Ho.
  destruct a as [p|p|p i]; simpl in *.
  - destruct Hc as [-> _]. rewrite Tick_get, decide_True, u64_succ_small by (done || lia).
    split; [lia|]. intros q Hq. left. rewrite Tick_get, decide_False by done. done.
  - simplify_eq. rewrite Tick_get, decide_True, u64_succ_small by (done || lia).
    split; [lia|]. intros q Hq. left. rewrite Tick_get, decide_False by done. done.
  - destruct Hc as (_ & q0 & d & st & Hi & ->).
    assert (st = d) as -> by (eapply vec_stamp; eauto; lia).
    pose proof (vi_evs_le _ _ Hv _ _ p Hi) as Hle. simpl in Hle.
    split.
    + rewrite Receive_get, decide_True, u64_succ_small by (done || lia). lia.
    + intros q Hq. right. exists i, (Event (ASend q0) d (Some d)).
      rewrite Receive_get, decide_False by done. done.
Qed.

(** Which earlier events the clock of a new event counts. *)
Lemma vec_new_knows tr x a x' c s i e :
  vec_inv tr x → exec_run VectorClock VectorClock tr = Some x → (N.of_nat (length tr) < MaxUint64)%N →
  step_act x a = Some x' → x' = record_event x a c s →
  ex_evs x !! i = Some e →
  ((e_clk e).[act_pid (e_act e)] <= c.[act_pid (e_act e)])%N ↔ hb (tr ++ [a]) i (length tr).
Proof.
  intros Hv Hrun Hn Hs Hx Hi.
  destruct (vec_step_clock _ _ _ _ _ _ Hv Hrun Hn Hs Hx) as [Hown Hoth].
  assert (∀ k b, tr !! k = Some b ↔ ∃ f, ex_evs x !! k = Some f ∧ e_act f = b) as Hlk
    by (intros; by apply exec_run_lookup).
  assert (∀ k f, ex_evs x !! k = Some f → k < length tr) as Hlt.
  { intros k f Hk. rewrite <- (exec_run_length _ _ Hrun). by eapply lookup_lt_Some. }
  rewrite hb_last. setoid_rewrite edge_new.
  destruct (decide (act_pid (e_act e) = act_pid a)) as [E|E].
  { pose proof (vi_evs_le _ _ Hv _ _ (act_pid a) Hi). rewrite E, Hown.
    split; [|lia]. intros _. exists i. split; [|by left]. split; [by eapply Hlt|].
    left. exists (e_act e). rewrite Hlk. eauto. }
  destruct (Hoth _ E) as [[-> Hnr]|(k0 & f0 & -> & Hk0 & ->)].
  - rewrite (vi_local _ _ Hv i e) by done. split.
    + intros (j & f & Hj & Hp & Hor). exists j. rewrite hb_snoc by eauto.
      split; [|done]. split; [eauto|]. left. setoid_rewrite Hlk. eauto.
    + intros (k & (Hk & [(b & Hb & Hp)|Hr]) & Hor); [|by destruct (Hnr k)].
      rewrite hb_snoc in Hor by done. apply Hlk in Hb as (f & Hf & <-). eauto 6.
  - rewrite N.max_le_iff, (vi_local _ _ Hv i e), (vi_evs _ _ Hv i k0 e f0) by done. simpl. split.
    + intros [(j & f & Hj & Hp & Hor)|Hor].
      * exists j. rewrite hb_snoc by eauto. split; [|done]. split; [eauto|].
        left. setoid_rewrite Hlk. eauto.
      * exists k0. rewrite hb_snoc by eauto. split; [|done]. eauto.
    + intros (k & (Hk & [(b & Hb & Hp)|Hr]) & Hor); rewrite hb_snoc in Hor by done.
      * left. apply Hlk in Hb as (f & Hf & <-). eauto 6.
      * right. by simplify_eq.
Qed.

Lemma vec_inv_step tr x a x' :
  vec_inv tr x → exec_run VectorClock VectorClock tr = Some x → (N.of_nat (length tr) < MaxUint64)%N →
  step_act x a = Some x' → vec_inv (tr ++ [a]) x'.
Proof.
  intros Hv Hrun Hn Hstep. destruct (step_act_inv _ _ _ Hstep) as (c & s & E & _).
  destruct (vec_step_clock _ _ _ _ _ _ Hv Hrun Hn Hstep E) as [Hown Hoth].
  pose proof (λ i e, vec_new_knows _ _ _ _ _ _ i e Hv Hrun Hn Hstep E) as Hnew.
  pose proof (exec_run_length _ _ Hrun) as Hlen. subst x'.
  assert (∀ k f, ex_evs x !! k = Some f → k < length tr) as Hlt.
  { intros k f Hk. rewrite <- Hlen. by eapply lookup_lt_Some. }
  assert (∀ q, (c.[q] <= count q (tr ++ [a]))%N) as Hcle.
  { intros q. rewrite count_snoc. case_decide as Hq; [subst; lia|].
    pose proof (vi_local_le _ _ Hv (act_pid a) q).
    destruct (Hoth q) as [[-> _]|(k & f & _ & Hk & ->)]; [done..|].
    pose proof (vi_evs_le _ _ Hv _ _ q Hk). lia. }
  assert (∀ i e', ex_evs (record_event x a c s) !! i = Some e' ↔
    ex_evs x !! i = Some e' ∨ i = length tr ∧ e' = Event a c s) as Hevs.
  { intros i e'. simpl. rewrite lookup_app_Some. split.
    - intros [?|[? [? ?]%list_lookup_singleton_Some]]; [by left|right]. split; [lia|done].
    - intros [?|[-> ->]]; [by left|right]. split; [lia|]. by rewrite Hlen, Nat.sub_diag. }
  split.
  - intros p. rewrite local_record, count_snoc. destruct (decide (p = act_pid a)) as [->|Hp].
    + rewrite decide_True by done. lia.
    + rewrite decide_False by done. apply Hv.
  - intros p q. rewrite local_record. case_decide; [apply Hcle|].
    pose proof (vi_local_le _ _ Hv p q). rewrite count_snoc. case_decide; lia.
  - intros i e q [Hi|[-> ->]]%Hevs; [|apply Hcle].
    pose proof (vi_evs_le _ _ Hv _ _ q Hi). rewrite count_snoc. case_decide; lia.
  - intros i e p Hi. rewrite local_record. setoid_rewrite Hevs.
    apply Hevs in Hi as [Hi|[-> ->]].
    + case_decide as Hp.
      * rewrite (Hnew i e Hi). split.
        -- intros Hhb. exists (length tr), (Event a c s). simpl. eauto 6.
        -- intros (j & f & [Hj|[-> ->]] & Hpf & Hor).
           ++ apply (hb_new_po _ _ (e_act f) _ j); [|congruence|done].
              apply (exec_run_lookup _ _ _ _ Hrun). eauto.
           ++ apply Hlt in Hi. destruct Hor as [->|?]; [lia|done].
      * rewrite (vi_local _ _ Hv i e p Hi). split.
        -- intros (j & f & Hj & Hpf & Hor). exists j, f. rewrite hb_snoc by eauto. eauto.
        -- intros (j & f & [Hj|[-> ->]] & Hpf & Hor); [|by simpl in Hpf].
           rewrite hb_snoc in Hor by eauto. eauto 6.
    + simpl. case_decide as Hp.
      * split; [|lia]. intros _. exists (length tr), (Event a c s). simpl. eauto 6.
      * pose proof (vi_local_le _ _ Hv p (act_pid a)). rewrite Hown. split; [lia|].
        intros (j & f & [Hj|[-> ->]] & Hpf & Hor); [|by simpl in Hpf].
        apply Hlt in Hj. destruct Hor as [?|?%hb_lt]; lia.
  - intros i j e f Hi Hj.
    apply Hevs in Hi as [Hi|[-> ->]], Hj as [Hj|[-> ->]].
    + rewrite hb_snoc by eauto. by apply Hv.
    + simpl. rewrite (Hnew i e Hi). apply Hlt in Hi. split; [by right|]. intros [->|?]; [lia|done].
    + simpl. rewrite Hown. pose proof (vi_evs_le _ _ Hv _ _ (act_pid a) Hj). split; [lia|].
      apply Hlt in Hj. intros [?|?%hb_lt]; lia.
    + split; [by left|]. intros _. lia.
Qed.

Lemma vec_run_inv tr x :
  exec_run VectorClock VectorClock tr = Some x → (N.of_nat (length tr) <= MaxUint64)%N → vec_inv tr x.
Proof.
  revert x. induction tr as [|a tr IH] using rev_ind; intros x.
  - intros [= <-] _. split; simpl; try done.
    + intros p. apply (New_get (allPIDs p)).
    + intros p q. pose proof (New_get (allPIDs p) q) as E. change (local exec_init p) with (VClock.New (allPIDs p)).
      rewrite E. lia.
  - rewrite exec_run_snoc, length_app. simpl. intros (x0 & E0 & Hs)%bind_Some Hn.
    eapply vec_inv_step; eauto; try lia. apply IH; [done|lia].
Qed.

(** The clock after an event counts the event itself: its own entry is the
    event's number among those of its process. *)
Lemma vec_evs_own tr x i e :
  exec_run VectorClock VectorClock tr = Some x → (N.of_nat (length tr) <= MaxUint64)%N →
  ex_evs x !! i = Some e →
  (e_clk e).[act_pid (e_act e)] = count (act_pid (e_act e)) (take (S i) tr).
Proof.
  revert x i e. induction tr as [|a tr IH] using rev_ind; intros x i e.
  - by intros [= <-].
  - rewrite exec_run_snoc, length_app. simpl. intros (x0 & E0 & Hs)%bind_Some Hn.
    pose proof (exec_run_length _ _ E0) as Hlen.
    destruct (step_act_inv _ _ _ Hs) as (c & s & -> & _).
    simpl. rewrite lookup_app_Some. intros [Hi|[Hi [Hz <-]%list_lookup_singleton_Some]].
    + rewrite take_app_le; [by apply (IH x0); [done|lia|]|].
      apply lookup_lt_Some in Hi. lia.
    + assert (i = length tr) as -> by lia. simpl.
      rewrite take_ge, count_snoc, decide_True by (done || (rewrite length_app; simpl; lia)).
      eapply vec_step_clock; eauto; [apply vec_run_inv|]; done || lia.
Qed.

(** The Charron-Bost isomorphism for the code's rules. In every execution
    of at most 2^64-1 events whose clocks are made by [Tick], [Send] and
    [Receive], [Compare] of the clocks of two events answers exactly how the
    events are related by happened-before. *)
Lemma vector_compare_hb tr x i j e f :
  exec_run VectorClock VectorClock tr = Some x → (N.of_nat (length tr) <= MaxUint64)%N →
  ex_evs x !! i = Some e → ex_evs x !! j = Some f →
  (Compare (e_clk e) (e_clk f) = HappenedBefore ↔ hb tr i j) ∧
  (Compare (e_clk e) (e_clk f) = HappenedAfter ↔ hb tr j i) ∧
  (Compare (e_clk e) (e_clk f) = Concurrent ↔ i ≠ j ∧ ¬ hb tr i j ∧ ¬ hb tr j i) ∧
  (Compare (e_clk e) (e_clk f) = Identical ↔ i = j).
Proof.
  intros Hrun Hn Hi Hj. pose proof (vec_run_inv _ _ Hrun Hn) as Hv.
  pose proof (vi_evs _ _ Hv _ _ _ _ Hi Hj) as Hij.
  pose proof (vi_evs _ _ Hv _ _ _ _ Hj Hi) as Hji.
  pose proof (clock_condition _ _ _ _ _ _ Hrun Hn Hi Hj) as Cij.
  pose proof (clock_condition _ _ _ _ _ _ Hrun Hn Hj Hi) as Cji. simpl in Cij, Cji.
  pose proof (hb_lt tr i j) as Lij. pose proof (hb_lt tr j i) as Lji.
  assert (i = j → vc_eq (e_clk e) (e_clk f)) as Heq by (intros ->; by simplify_eq).
  destruct (vc_orders_exclusive (e_clk e) (e_clk f)) as (X1 & X2 & X3 & X4).
  destruct (vc_orders_exclusive (e_clk f) (e_clk e)) as (_ & Y2 & Y3 & _).
  pose proof (vc_concurrent_sym (e_clk e) (e_clk f)). pose proof (vc_eq_sym' (e_clk e) (e_clk f)).
  assert (vc_le (e_clk e) (e_clk f) → i = j ∨ hb tr i j) as Kij by (intros Hle; apply Hij, Hle).
  assert (vc_le (e_clk f) (e_clk e) → j = i ∨ hb tr j i) as Kji by (intros Hle; apply Hji, Hle).
  pose proof (Compare_correct (e_clk e) (e_clk f)) as C.
  assert (∀ k, ¬ hb tr k k) as Irr by (intros k ?%hb_lt; lia).
  destruct (Compare (e_clk e) (e_clk f)).
  - pose proof (Kij (vc_lt_le _ _ C)) as K. naive_solver.
  - pose proof (Kji (vc_lt_le _ _ C)) as K. naive_solver.
  - naive_solver.
  - assert (vc_le (e_clk e) (e_clk f)) as E1 by (intros k; rewrite C; lia).
    assert (vc_le (e_clk f) (e_clk e)) as E2 by (intros k; rewrite C; lia).
    destruct (Kij E1) as [->|?]; [naive_solver|]. destruct (Kji E2) as [->|?]; naive_solver lia.
Qed.
End vector_instance.

(** ** Lamport clocks *)

(** The clock condition for Lamport clocks: in every execution of at most
    2^64-1 events, an event that happened before another has the smaller time
    stamp and comes first in [TotalOrder]; and [TotalOrder] never ties two
    different events. *)
Lemma lamport_order_hb tr x i j (e f : event LamportClock N) :
  exec_run LamportClock N tr = Some x → (N.of_nat (length tr) <= MaxUint64)%N →
  ex_evs x !! i = Some e → ex_evs x !! j = Some f →
  let order := TotalOrder (Value (e_clk e)) (act_pid (e_act e))
                          (Value (e_clk f)) (act_pid (e_act f)) in
  (hb tr i j → (Value (e_clk e) < Value (e_clk f))%N ∧ order = (-1)%Z) ∧
  (i ≠ j → order ≠ 0%Z).
Proof.
  intros Hrun Hn Hi Hj order.
  pose proof (clock_condition _ _ _ _ _ _ Hrun Hn Hi Hj) as Cij.
  pose proof (clock_condition _ _ _ _ _ _ Hrun Hn Hj Hi) as Cji. simpl in Cij, Cji.
  split.
  - intros Hhb. split; [by apply Cij|]. apply TotalOrder_neg_iff. left. by apply Cij.
  - intros Hne [Hv Hp]%TotalOrder_zero. unfold Value in Hv.
    assert (tr !! i = Some (e_act e) ∧ tr !! j = Some (e_act f)) as [Ti Tj].
    { split; apply (exec_run_lookup _ _ _ _ Hrun); eauto. }
    destruct (decide (i < j)).
    + assert (hb tr i j) as E%Cij; [|lia]. apply tc_once. split; [done|]. eauto 8.
    + assert (hb tr j i) as E%Cji; [|lia]. apply tc_once. split; [lia|]. eauto 8.
Qed.

(** ** Matrix clocks *)
Section matrix_instance.
Context `{MapRange} (allPIDs : string → list string).

#[local] Instance matrix_alg : ClockAlg MatrixClock MatrixClock := {|
  ca_init := λ p, Matrix.New (allPIDs p);
  ca_tick := λ p c, Matrix.Tick c p;
  ca_send := λ p c, Matrix.Send c p;
  ca_recv := λ p q c m, Matrix.Receive c m p q
|}.
#[local] Hint Extern 0 (ClockAlg VectorClock VectorClock) => exact (vector_alg allPIDs) : typeclass_instances.

(** The matrix execution [xm] of a sequence against its vector execution
    [xv]: a process's own row is its vector clock, and no view of a row is
    ahead of the process that owns the row. *)
Record mat_inv (xm : exec MatrixClock MatrixClock) (xv : exec VectorClock VectorClock) : Prop := {
  mi_own p q : cell (local xm p) p q = (local xv p).[q];
  mi_evs i em ev : ex_evs xm !! i = Some em → ex_evs xv !! i = Some ev →
    ∀ q, cell (e_clk em) (act_pid (e_act em)) q = (e_clk ev).[q];
  mi_view p k q : (cell (local xm p) k q <= cell (local xm k) k q)%N;
  mi_evs_view i e k q : ex_evs xm !! i = Some e →
    (cell (e_clk e) k q <= cell (local xm k) k q)%N;
  mi_stamp i q c st : ex_evs xm !! i = Some (Event (ASend q) c (Some st)) → st = c;
  mi_rows p k : k ∈ allPIDs p → is_Some (local xm p !! k)
}.

(** Recording one more event: it is enough that the new matrix has the new
    vector clock as its own row, does not go back, and views no other row
    ahead of its owner. *)
Lemma mat_inv_record xm xv a cm cv sm sv :
  mat_inv xm xv → length (ex_evs xm) = length (ex_evs xv) →
  (∀ q, cell cm (act_pid a) q = cv.[q]) →
  (∀ q, (cell (local xm (act_pid a)) (act_pid a) q <= cell cm (act_pid a) q)%N) →
  (∀ k q, k ≠ act_pid a → (cell cm k q <= cell (local xm k) k q)%N) →
  (∀ k, is_Some (local xm (act_pid a) !! k) → is_Some (cm !! k)) →
  (∀ st, sm = Some st → st = cm) →
  mat_inv (record_event xm a cm sm) (record_event xv a cv sv).
Proof.
  intros [Hown Hevs Hview Heview Hst Hrows] Hlen Hcown Hgrow Hcview Hcrows Hcst.
  assert (∀ k q, (cell (local xm k) k q <= cell (local (record_event xm a cm sm) k) k q)%N) as Hmono.
  { intros k q. rewrite local_record. case_decide; [subst; apply Hgrow|lia]. }
  split.
  - intros p q. rewrite !local_record. case_decide; [subst; apply Hcown|apply Hown].
  - intros i em ev. simpl. rewrite !lookup_app_Some, !list_lookup_singleton_Some.
    intros [Hi|(Hi & Hi' & <-)] [Hj|(Hj & Hj' & <-)]; try (by eapply Hevs); try done.
    + apply lookup_lt_Some in Hi. lia.
    + apply lookup_lt_Some in Hj. lia.
  - intros p k q. rewrite (local_record xm a cm sm p). case_decide as Hp; [subst p|].
    + destruct (decide (k = act_pid a)) as [->|Hk].
      * by rewrite local_record, decide_True.
      * etrans; [by apply Hcview|apply Hmono].
    + etrans; [apply Hview|apply Hmono].
  - intros i e k q. simpl. rewrite lookup_app_Some, list_lookup_singleton_Some.
    intros [Hi|(_ & _ & <-)]; simpl.
    + etrans; [by eapply Heview|apply Hmono].
    + destruct (decide (k = act_pid a)) as [->|Hk].
      * by rewrite local_record, decide_True.
      * etrans; [by apply Hcview|apply Hmono].
  - intros i q c st. simpl. rewrite lookup_app_Some, list_lookup_singleton_Some.
    intros [Hi|(_ & _ & E)]; [by eapply Hst|]. simplify_eq. by apply Hcst.
  - intros p k Hk. rewrite local_record. case_decide; [subst|]; auto.
Qed.

Lemma mat_tick_record xm xv a sm sv :
  mat_inv xm xv → length (ex_evs xm) = length (ex_evs xv) →
  (cell (local xm (act_pid a)) (act_pid a) (act_pid a) < MaxUint64)%N →
  (∀ st, sm = Some st → st = Matrix.Tick (local xm (act_pid a)) (act_pid a)) →
  mat_inv (record_event xm a (Matrix.Tick (local xm (act_pid a)) (act_pid a)) sm)
          (record_event xv a (VClock.Tick (local xv (act_pid a)) (act_pid a)) sv).
Proof.
  intros Hinv Hlen Hb Hsm. apply mat_inv_record; auto.
  - intros q. rewrite Tick_cell, VClock.Tick_get, <- !(mi_own _ _ Hinv).
    repeat case_decide; naive_solver.
  - intros q. rewrite Tick_cell. case_decide as E; [|lia]. destruct E as [_ ->].
    rewrite u64_succ_small by done. lia.
  - intros k q Hk. rewrite Tick_cell, decide_False by naive_solver. apply Hinv.
  - intros k Hk. by apply Tick_rows.
Qed.

Lemma mat_inv_step tr a xm xv xm' xv' :
  mat_inv xm xv → exec_run MatrixClock MatrixClock tr = Some xm →
  exec_run VectorClock VectorClock tr = Some xv → (N.of_nat (length tr) < MaxUint64)%N →
  step_act xm a = Some xm' → step_act xv a = Some xv' → mat_inv xm' xv'.
Proof.
  intros Hinv Hrm Hrv Hn (cm & sm & -> & Hm)%step_act_inv (cv & sv & -> & Hv)%step_act_inv.
  pose proof (vec_run_inv allPIDs _ _ Hrv ltac:(lia)) as Hvi.
  assert (length (ex_evs xm) = length (ex_evs xv)) as Hlen
    by by rewrite (exec_run_length _ _ Hrm), (exec_run_length _ _ Hrv).
  assert (∀ p, (cell (local xm p) p p < MaxUint64)%N) as Hb.
  { intros p. rewrite (mi_own _ _ Hinv), (vi_own _ _ _ Hvi). pose proof (count_length p tr). lia. }
  destruct a as [p|p|p i]; simpl in *.
  - destruct Hm as [-> ->], Hv as [-> ->]. by apply (mat_tick_record _ _ (AInternal p)).
  - simplify_eq. apply (mat_tick_record _ _ (ASend p)); [done..|].
    intros st [= <-]. by rewrite DeepCopy_id.
  - destruct Hm as (-> & q0 & d & st & Hi & ->), Hv as (-> & q0' & d' & st' & Hi' & ->).
    apply (mi_stamp _ _ Hinv) in Hi as Est. subst st.
    assert (q0' = q0) as ->.
    { assert (tr !! i = Some (ASend q0) ∧ tr !! i = Some (ASend q0')) as [? ?]; [|by simplify_eq].
      split; [apply (exec_run_lookup _ _ _ _ Hrm)|apply (exec_run_lookup _ _ _ _ Hrv)]; eauto. }
    assert (st' = d') as -> by (eapply vec_stamp; eauto; lia).
    pose proof (mi_evs _ _ Hinv _ _ _ Hi Hi') as Hrow. simpl in Hrow.
    assert (d'.[p] <= cell (local xm p) p p)%N as Hle.
    { rewrite (mi_own _ _ Hinv), (vi_own _ _ _ Hvi). apply (vi_evs_le _ _ _ Hvi _ _ p Hi'). }
    apply (mat_inv_record _ _ (ARecv p i)); auto; simpl.
    + intros q. rewrite Receive_cell, decide_True, VClock.Receive_get, Hrow by done.
      rewrite <- !(mi_own _ _ Hinv). case_decide; [subst|done].
      rewrite !u64_succ_small by (specialize (Hb p); lia). lia.
    + intros q. rewrite Receive_cell, decide_True by done.
      case_decide; [subst; rewrite u64_succ_small by done|]; lia.
    + intros k q Hk. rewrite Receive_cell, decide_False by done.
      pose proof (mi_view _ _ Hinv p k q). pose proof (mi_evs_view _ _ Hinv _ _ k q Hi). simpl in *. lia.
    + intros k Hk. by apply Receive_rows.
    + done.
Qed.

Lemma mat_run_inv tr xm xv :
  exec_run MatrixClock MatrixClock tr = Some xm → exec_run VectorClock VectorClock tr = Some xv →
  (N.of_nat (length tr) <= MaxUint64)%N → mat_inv xm xv.
Proof.
  revert xm xv. induction tr as [|a tr IH] using rev_ind; intros xm xv.
  - intros [= <-] [= <-] _.
    assert (∀ p k q, cell (local exec_init p) k q = 0%N) as E by (intros p k q; apply (New_cell (allPIDs p))).
    split; simpl; try done; intros; rewrite ?E.
    + symmetry. apply (New_get (allPIDs p)).
    + lia.
    + by apply (New_rows (allPIDs p)).
  - rewrite !exec_run_snoc, length_app. simpl.
    intros (xm0 & Em & Hm)%bind_Some (xv0 & Ev & Hv)%bind_Some Hn.
    eapply (mat_inv_step tr a xm0 xv0); eauto; try lia. apply IH; auto. lia.
Qed.

(** The row a process keeps for itself in its matrix clock is its vector
    clock: on every sequence of at most 2^64-1 events the two algorithms
    agree, process by process and event by event. *)
Lemma matrix_row_refines_vector_clock tr xm :
  exec_run MatrixClock MatrixClock tr = Some xm → (N.of_nat (length tr) <= MaxUint64)%N →
  ∃ xv, exec_run VectorClock VectorClock tr = Some xv ∧
    (∀ p, vc_eq (row (local xm p) p) (local xv p)) ∧
    (∀ i em ev, ex_evs xm !! i = Some em → ex_evs xv !! i = Some ev →
       vc_eq (row (e_clk em) (act_pid (e_act em))) (e_clk ev)).
Proof.
  intros Hrm Hn. assert (is_Some (exec_run VectorClock VectorClock tr)) as [xv Hrv].
  { apply exec_run_valid, (exec_run_valid (C := MatrixClock) (S := MatrixClock)). eauto. }
  destruct (mat_run_inv _ _ _ Hrm Hrv Hn) as [Hown Hevs _ _ _ _]. eauto.
Qed.

(** What [CanGC] promises, in terms of causality: the first [upTo] events of
    [q] are in the causal past of an event of every process [k]. *)
Lemma CanGC_past tr x p q upTo k i a :
  exec_run MatrixClock MatrixClock tr = Some x → (N.of_nat (length tr) <= MaxUint64)%N →
  CanGC (local x p) q upTo = true → k ∈ allPIDs p →
  tr !! i = Some a → act_pid a = q → (count q (take (S i) tr) <= upTo)%N →
  ∃ j b, tr !! j = Some b ∧ act_pid b = k ∧ (i = j ∨ hb tr i j).
Proof.
  intros Hrm Hn Hgc%N.leb_le Hk Hi Hq Hc.
  assert (is_Some (exec_run VectorClock VectorClock tr)) as [xv Hrv].
  { apply exec_run_valid, (exec_run_valid (C := MatrixClock) (S := MatrixClock)). eauto. }
  pose proof (mat_run_inv _ _ _ Hrm Hrv Hn) as Hinv.
  pose proof (MinKnowledge_le (local x p) q k (mi_rows _ _ Hinv p k Hk)).
  pose proof (mi_view _ _ Hinv p k q). rewrite (mi_own _ _ Hinv) in *.
  apply (exec_run_lookup _ _ _ _ Hrv) in Hi as (e & He & <-).
  pose proof (vec_evs_own allPIDs _ _ _ _ Hrv Hn He) as Eown. rewrite Hq in Eown.
  destruct (proj1 (vi_local _ _ _ (vec_run_inv allPIDs _ _ Hrv Hn) i e k He)) as (j & f & Hj & Hp & Hor).
  - rewrite Hq. lia.
  - exists j, (e_act f). split; [|done]. apply (exec_run_lookup _ _ _ _ Hrv). eauto.
Qed.

(** Garbage collection is safe. If process [p]'s matrix says events of
    [q] up to [upTo] can be collected, then every process [k] that [p] was
    created with has at least [upTo] events of [q] in its own causal past
    (its own row counts them), and [q] has performed that many events. *)
Lemma CanGC_safe tr x p q upTo k :
  exec_run MatrixClock MatrixClock tr = Some x → (N.of_nat (length tr) <= MaxUint64)%N →
  CanGC (local x p) q upTo = true → k ∈ allPIDs p →
  (upTo <= cell (local x k) k q)%N ∧ (upTo <= count q tr)%N.
Proof.
  intros Hrm Hn Hgc%N.leb_le Hk.
  assert (is_Some (exec_run VectorClock VectorClock tr)) as [xv Hrv].
  { apply exec_run_valid, (exec_run_valid (C := MatrixClock) (S := MatrixClock)). eauto. }
  pose proof (mat_run_inv _ _ _ Hrm Hrv Hn) as Hinv.
  pose proof (MinKnowledge_le (local x p) q k (mi_rows _ _ Hinv p k Hk)).
  pose proof (mi_view _ _ Hinv p k q). split; [lia|].
  pose proof (vi_local_le _ _ _ (vec_run_inv _ _ _ Hrv Hn) k q).
  rewrite <- (mi_own _ _ Hinv) in *. lia.
Qed.
End matrix_instance.

(** Two processes exchange a message and a reply; the first then knows both
    know its first event. *)
Definition gc_trace : list act := [ASend "P1"; ARecv "P2" 0; ASend "P2"; ARecv "P1" 2].

Lemma matrix_row_refines_vector_clock_witness :
  let r := canonical_range in
  let pids := λ _ : string, ["P1"; "P2"] in
  ∃ xm xv, @exec_run _ _ (matrix_alg pids) gc_trace = Some xm ∧
    @exec_run _ _ (vector_alg pids) gc_trace = Some xv ∧
    vc_eq (row (@local _ _ (matrix_alg pids) xm "P1") "P1") (@local _ _ (vector_alg pids) xv "P1").
Proof.
  intros r pids.
  destruct (matrix_row_refines_vector_clock pids gc_trace _ eq_refl ltac:(by vm_compute))
    as (xv & E & Hl & _).
  do 2 eexists. split; [reflexivity|]. split; [exact E|]. apply Hl.
Defined.

Lemma CanGC_safe_witness :
  let r := canonical_range in
  let pids := λ _ : string, ["P1"; "P2"] in
  ∃ x, @exec_run _ _ (matrix_alg pids) gc_trace = Some x ∧
    CanGC (@local _ _ (matrix_alg pids) x "P1") "P1" 1 = true ∧
    (1 <= cell (@local _ _ (matrix_alg pids) x "P2") "P2" "P1")%N.
Proof.
  intros r pids. eexists. split; [reflexivity|]. split; [vm_compute; reflexivity|].
  eapply (CanGC_safe pids gc_trace _ "P1" "P1" 1 "P2");
    [reflexivity|by vm_compute|vm_compute; reflexivity|].
  apply list_elem_of_In. simpl. auto.
Defined.
