(* ===== verification/Version.v ===== *)
(** * Version vectors and dotted version vectors
    (src/internal/clock/version/vector.go, src/internal/clock/dvv/dvv.go)

    Package [version] tags data items with per-replica write counters;
    package [dvv] separates the identity of a write (its dot) from the history
    it saw. *)
From stdpp Require Import gmap strings list.
From S2P Require Import Prelude VClock.

(** ** Package version *)

(** [type SyncResult int] *)
Inductive SyncResult := Dominated | VDominates | Conflict | VEqual.

(** [type VersionVector map[string]uint64] *)
Abbreviation VersionVector := (gmap string N).

Section version.
Context `{MapRange}.

Definition VNew (replicaIDs : list string) : VersionVector :=
  foldl (λ vv r, <[r := 0%N]> vv) ∅ replicaIDs.

Definition VCopy (vv : VersionVector) : VersionVector :=
  for_range vv (λ k v result, <[k := v]> result) ∅.

Definition Update (vv : VersionVector) (replicaID : string) : VersionVector :=
  let result := VCopy vv in
  <[replicaID := u64_succ result.[replicaID]]> result.

Fixpoint sync_loop (ks : list (string * ())) (vv other : VersionVector)
    (selfGreater otherGreater : bool) : SyncResult :=
  match ks with
  | (k, _) :: ks =>
      let sv := vv.[k] in
      let ov := other.[k] in
      let selfGreater := if (ov <? sv)%N then true else selfGreater in
      let otherGreater := if (sv <? ov)%N then true else otherGreater in
      if selfGreater && otherGreater then Conflict
      else sync_loop ks vv other selfGreater otherGreater
  | [] =>
      if negb selfGreater && negb otherGreater then VEqual
      else if selfGreater then VDominates
      else Dominated
  end.

(** [vv.Sync(other)]; the union of the keys is collected as in
    [vector.Compare]. *)
Definition VSync (vv other : VersionVector) : SyncResult :=
  sync_loop (range (key_union vv other)) vv other false false.
End version.

(** ** Package dvv *)

(** [type Dot struct], [type DVV struct] (a nil dot is [None]),
    [type DVVEntry struct], [type DVVSet struct]. *)
Record Dot := { Replica : string; Counter : N }.
Record DVV := { Vector : gmap string N; DotOf : option Dot }.
Record DVVEntry := { EntryDVV : DVV; EntryValue : list Byte.byte }.
Record DVVSet := { Siblings : list DVVEntry }.

Section dvv.
Context `{MapRange}.

Definition NewDVV (serverID : string) (serverClock : N) : DVV :=
  {| Vector := ∅; DotOf := Some {| Replica := serverID; Counter := serverClock |} |}.

Definition ToVV (d : DVV) : gmap string N :=
  let vv := for_range (Vector d) (λ k v vv, <[k := v]> vv) ∅ in
  match DotOf d with
  | Some dot => if (vv.[Replica dot] <? Counter dot)%N
                then <[Replica dot := Counter dot]> vv else vv
  | None => vv
  end.

Definition UpdateDVV (old : DVV) (serverID : string) (serverClock : N) : DVV :=
  {| Vector := ToVV old; DotOf := Some {| Replica := serverID; Counter := serverClock |} |}.

(** The loop of [Dominates] with its early return. *)
Fixpoint dominates_loop (bs : list (string * N)) (aVV : gmap string N) : bool :=
  match bs with
  | [] => true
  | (k, bv) :: bs => if (aVV.[k] <? bv)%N then false else dominates_loop bs aVV
  end.

Definition Dominates (a b : DVV) : bool :=
  let bVV := ToVV b in
  let aVV := ToVV a in
  dominates_loop (range bVV) aVV.

Definition Sync (set : DVVSet) (incoming : DVVEntry) : DVVSet :=
  let survivors := foldl (λ survivors existing,
    if negb (Dominates (EntryDVV incoming) (EntryDVV existing))
    then survivors ++ [existing] else survivors) [] (Siblings set) in
  let dominated := existsb (λ s, Dominates (EntryDVV s) (EntryDVV incoming)) survivors in
  {| Siblings := if negb dominated then survivors ++ [incoming] else survivors |}.
End dvv.

(** ** Facts *)
Section facts.
Context `{MapRange}.

Lemma Update_tick vv r : Update vv r = Tick vv r.
Proof. reflexivity. Qed.

(** The verdict on version vectors from the order of the same maps read as
    vector clocks. *)
Definition of_order (o : ClockOrder) : SyncResult :=
  match o with
  | HappenedBefore => Dominated
  | HappenedAfter => VDominates
  | Concurrent => Conflict
  | Identical => VEqual
  end.

Lemma sync_loop_compare ks vv other x y :
  x && y = false →
  sync_loop ks vv other y x = of_order (compare_loop ks vv other x y).
Proof.
  revert x y. induction ks as [|[k []] ks IH]; intros x y Hxy; simpl.
  - destruct x, y; done.
  - destruct (vv.[k] <? other.[k])%N, (other.[k] <? vv.[k])%N, x, y; simpl in *;
      try done; by apply IH.
Qed.

Lemma VSync_compare vv other : VSync vv other = of_order (Compare vv other).
Proof. by apply sync_loop_compare. Qed.

Lemma ToVV_get d k :
  (ToVV d).[k] = match DotOf d with
                 | Some dot => if decide (k = Replica dot)
                               then N.max (Vector d).[k] (Counter dot) else (Vector d).[k]
                 | None => (Vector d).[k]
                 end.
Proof.
  unfold ToVV. change (for_range (Vector d) _ ∅) with (Copy (Vector d)). rewrite Copy_id.
  destruct (DotOf d) as [[r c]|]; [|done]. simpl.
  destruct (N.ltb_spec (Vector d).[r] c); rewrite ?mget_insert; case_decide; subst; lia.
Qed.

Lemma dominates_loop_spec bs aVV :
  dominates_loop bs aVV = true ↔ ∀ k v, (k, v) ∈ bs → (v <= aVV.[k])%N.
Proof.
  induction bs as [|[k v] bs IH]; simpl.
  - split; [by intros _ k v ?%elem_of_nil|done].
  - destruct (N.ltb_spec aVV.[k] v).
    + split; [done|]. intros Hall. specialize (Hall k v (list_elem_of_here _ _)). lia.
    + rewrite IH. setoid_rewrite elem_of_cons. naive_solver.
Qed.

Lemma Dominates_le a b : Dominates a b = true ↔ vc_le (ToVV b) (ToVV a).
Proof.
  unfold Dominates. rewrite dominates_loop_spec. setoid_rewrite elem_of_range. split.
  - intros Hall k. unfold mget at 1. destruct (ToVV b !! k) eqn:E; simpl; [by apply Hall|lia].
  - intros Hle k v E. specialize (Hle k). unfold mget at 1 in Hle. by rewrite E in Hle.
Qed.

Lemma Dominates_refl a : Dominates a a = true.
Proof. apply Dominates_le. reflexivity. Qed.

Lemma Dominates_trans a b c : Dominates a b = true → Dominates b c = true → Dominates a c = true.
Proof. rewrite !Dominates_le. intros ? ?. by etrans. Qed.

(** [Sync] as a filter followed by an optional append. *)
Definition survivors (set : DVVSet) (incoming : DVVEntry) : list DVVEntry :=
  filter (λ e, Dominates (EntryDVV incoming) (EntryDVV e) = false) (Siblings set).

Lemma Sync_filter set incoming :
  Siblings (Sync set incoming) =
    survivors set incoming ++
    (if existsb (λ s, Dominates (EntryDVV s) (EntryDVV incoming)) (survivors set incoming)
     then [] else [incoming]).
Proof.
  unfold Sync, survivors. simpl.
  assert (∀ l acc, foldl (λ survivors existing,
    if negb (Dominates (EntryDVV incoming) (EntryDVV existing))
    then survivors ++ [existing] else survivors) acc l =
    acc ++ filter (λ e, Dominates (EntryDVV incoming) (EntryDVV e) = false) l) as E.
  { induction l as [|e l IH]; intros acc; simpl; [by rewrite app_nil_r|].
    rewrite IH, filter_cons. case_decide as E; destruct (Dominates _ _); simpl; try done.
    by rewrite <- (assoc_L (++)). }
  rewrite E. simpl. destruct (existsb _ _); simpl; [by rewrite app_nil_r|done].
Qed.

(** Two entries neither of which has seen the other, and sets of siblings all
    of whose pairs are such. *)
Definition incomparable (e f : DVVEntry) : Prop :=
  Dominates (EntryDVV e) (EntryDVV f) = false ∧ Dominates (EntryDVV f) (EntryDVV e) = false.

Definition antichain (set : DVVSet) : Prop := ForallOrdPairs incomparable (Siblings set).

Lemma antichain_filter (P : DVVEntry → Prop) `{∀ e, Decision (P e)} l :
  ForallOrdPairs incomparable l → ForallOrdPairs incomparable (filter P l).
Proof.
  induction 1 as [|e l He _ IH]; [constructor|]. rewrite filter_cons. case_decide; [|done].
  constructor; [|done]. apply Forall_forall. intros f [_ Hf]%list_elem_of_filter.
  by eapply (proj1 (Forall_forall _ _)) in He.
Qed.

Lemma antichain_snoc l e :
  ForallOrdPairs incomparable l → Forall (λ f, incomparable f e) l →
  ForallOrdPairs incomparable (l ++ [e]).
Proof.
  induction 1 as [|f l Hf _ IH]; intros Hall; simpl; [repeat constructor|].
  apply Forall_cons in Hall as [? ?]. constructor; [|by apply IH].
  apply Forall_app. split; [done|]. by apply Forall_singleton.
Qed.

Lemma existsb_dominates l inc :
  existsb (λ s, Dominates (EntryDVV s) (EntryDVV inc)) l = true ↔
    ∃ s, s ∈ l ∧ Dominates (EntryDVV s) (EntryDVV inc) = true.
Proof. rewrite existsb_exists. by setoid_rewrite list_elem_of_In. Qed.
End facts.

(** ** Properties *)

(** [VersionVector.Sync] classifies two version vectors by the pointwise
    order of their counters, for every visiting order, and a write
    ([Update]) dominates the vector it updated while its counter is below
    the top of [uint64]. *)
Theorem VSync_classifies (r : MapRange) (vv other : VersionVector) (rep : string) :
  (VSync vv other = Dominated ↔ vc_lt vv other) ∧
  (VSync vv other = VDominates ↔ vc_lt other vv) ∧
  (VSync vv other = Conflict ↔ vc_concurrent vv other) ∧
  (VSync vv other = VEqual ↔ vc_eq vv other) ∧
  ((vv.[rep] < MaxUint64)%N → VSync (Update vv rep) vv = VDominates).
Proof.
  pose proof (Compare_iff vv other) as (C1 & C2 & C3 & C4). rewrite !VSync_compare.
  rewrite <- C1, <- C2, <- C3, <- C4.
  split_and!; try (by destruct (Compare vv other)).
  intros Hb. rewrite Update_tick, (proj2 (Compare_HA _ _) (Tick_lt _ _ Hb)). done.
Qed.

Lemma VSync_classifies_witness :
  let r := canonical_range in
  VSync (Update {["A" := 1%N]} "A") {["A" := 1%N]} = VDominates.
Proof. intros r. apply (VSync_classifies r {["A" := 1%N]} ∅ "A"). vm_compute. reflexivity. Defined.

(** C13: [dvv.Sync] keeps the siblings an antichain and loses nothing that is
    not superseded: if no sibling had seen another, that still holds, and
    every old sibling and the incoming entry are either kept or dominated by
    an entry that is kept. *)
Theorem dvv_Sync_antichain `{MapRange} (set : DVVSet) (incoming : DVVEntry) :
  antichain set →
  antichain (Sync set incoming) ∧
  ∀ e, e ∈ incoming :: Siblings set →
    ∃ f, f ∈ Siblings (Sync set incoming) ∧ Dominates (EntryDVV f) (EntryDVV e) = true.
Proof.
  intros Hac. unfold antichain. rewrite Sync_filter.
  destruct (existsb _ (survivors set incoming)) eqn:Hd.
  - rewrite app_nil_r. split; [by apply antichain_filter|].
    apply existsb_dominates in Hd as (s & Hs & Hsi).
    intros e [->|He]%elem_of_cons; [by eauto|].
    destruct (Dominates (EntryDVV incoming) (EntryDVV e)) eqn:De.
    + exists s. eauto using Dominates_trans.
    + exists e. split; [by apply list_elem_of_filter|apply Dominates_refl].
  - split.
    + apply antichain_snoc; [by apply antichain_filter|]. apply Forall_forall.
      intros f Hf. split; [|by apply list_elem_of_filter in Hf as [? _]].
      apply not_true_iff_false. intros Df. apply not_true_iff_false in Hd. apply Hd.
      apply existsb_dominates. eauto.
    + intros e [->|He]%elem_of_cons.
      * exists incoming. split; [set_solver|apply Dominates_refl].
      * destruct (Dominates (EntryDVV incoming) (EntryDVV e)) eqn:De.
        -- exists incoming. split; [set_solver|done].
        -- exists e. split; [|apply Dominates_refl]. apply elem_of_app. left.
           by apply list_elem_of_filter.
Qed.

Lemma dvv_Sync_antichain_witness :
  let r := canonical_range in
  let a := {| EntryDVV := NewDVV "A" 1; EntryValue := [] |} in
  let b := {| EntryDVV := NewDVV "B" 1; EntryValue := [] |} in
  length (Siblings (Sync {| Siblings := [a] |} b)) = 2 ∧ antichain (Sync {| Siblings := [a] |} b).
Proof.
  intros r a b. split; [vm_compute; reflexivity|].
  apply (dvv_Sync_antichain {| Siblings := [a] |} b). repeat constructor.
Defined.

(** folding the dot into the vector forgets what a dotted version vector
    is for: of two writes made from one context through one replica, neither
    of which has seen the other, the one with the larger counter dominates,
    and [Sync] silently drops the other instead of keeping it as a sibling. *)
Theorem dvv_drops_concurrent_write `{MapRange} (ctx : DVV) (rep : string) (c1 c2 : N)
    (v1 v2 : list Byte.byte) :
  ((ToVV ctx).[rep] < c1)%N → (c1 < c2)%N →
  let w1 := {| EntryDVV := UpdateDVV ctx rep c1; EntryValue := v1 |} in
  let w2 := {| EntryDVV := UpdateDVV ctx rep c2; EntryValue := v2 |} in
  ((Vector (EntryDVV w2)).[rep] < c1)%N ∧
  Dominates (EntryDVV w2) (EntryDVV w1) = true ∧
  Siblings (Sync {| Siblings := [w1] |} w2) = [w2].
Proof.
  intros Hc1 Hc w1 w2. assert (Dominates (EntryDVV w2) (EntryDVV w1) = true) as D.
  { apply Dominates_le. intros k. rewrite !ToVV_get. simpl. case_decide; lia. }
  split_and!; [done..|]. rewrite Sync_filter. unfold survivors. cbn [Siblings].
  rewrite filter_cons, filter_nil, decide_False by (by rewrite D). done.
Qed.

Lemma dvv_drops_concurrent_write_witness :
  let r := canonical_range in
  let ctx := NewDVV "A" 1 in
  let w n := {| EntryDVV := UpdateDVV ctx "A" n; EntryValue := [] |} in
  Siblings (Sync {| Siblings := [w 2%N] |} (w 3%N)) = [w 3%N].
Proof.
  intros r ctx w.
  apply (dvv_drops_concurrent_write ctx "A" 2 3 [] []); vm_compute; reflexivity.
Defined.
