(* ===== verification/Events.v ===== *)
(** * The event bus (src/internal/events/types.go, src/internal/events/bus.go)

    Every component reports what it does as an [Event] on the bus.  [Publish]
    never blocks: it appends to a bounded queue or counts a drop.  The bus
    goroutine moves events from the queue into a ring buffer of the last
    [historySize] events and copies them to the subscribers' channels. *)
From stdpp Require Import gmap strings list.
From S2P Require Import Prelude VClock Matrix.

(** ** Data *)

#[local] Set Warnings "-register-all".

(** The dynamic values an [interface{}] field of a message carries: what
    encoding/json decodes a request body to (numbers by their literal). *)
Inductive any :=
  | ANil
  | ABool (b : bool)
  | ANumber (lit : string)
  | AString (s : string)
  | AArray (l : list any)
  | AObject (fields : list (string * any)).

(** [type EventType string] and its constants. *)
Abbreviation EventType := string (only parsing).
Definition EvtInternalEvent : EventType := "internal_event".
Definition EvtSend : EventType := "send".
Definition EvtReceive : EventType := "receive".
Definition EvtHeld : EventType := "message_held".
Definition EvtDelivered : EventType := "message_delivered".
Definition EvtClockUpdate : EventType := "clock_update".
Definition EvtSnapshotStart : EventType := "snapshot_start".
Definition EvtMarkerSent : EventType := "marker_sent".
Definition EvtMarkerReceived : EventType := "marker_received".
Definition EvtLocalSnapshot : EventType := "local_snapshot".
Definition EvtSnapshotComplete : EventType := "snapshot_complete".
Definition EvtConflict : EventType := "conflict".
Definition EvtResolved : EventType := "resolved".
Definition EvtProcessSpawned : EventType := "process_spawned".
Definition EvtProcessKilled : EventType := "process_killed".
Definition EvtScenarioStep : EventType := "scenario_step".

(** The payload structs.  A nil map and an empty one are read alike, so a
    stamp is a plain map; pointers are options. *)
Record MessagePayload := {
  mpID : string;
  mpFrom : string;
  mpTo : string;
  mpData : any;
  mpSentVC : gmap string N;
  mpSentLC : N;
  mpIsMarker : bool;
  mpSnapshotID : string
}.

Record SnapshotPayload := {
  spSnapshotID : string;
  spProcessID : string;
  spComplete : bool
}.

Record ConflictPayload := { cpKey : string; cpSiblings : any }.

(** Timestamps are nanoseconds of the clock the program reads. *)
Record Event := {
  evID : string;
  evType : EventType;
  evProcessID : string;
  evTimestamp : Z;
  evLocalSeq : N;
  evGlobalSeq : N;
  evLamportClock : option N;
  evVectorClock : option (gmap string N);
  evMatrixClock : option (gmap string (gmap string N));
  evMessage : option MessagePayload;
  evSnapshot : option SnapshotPayload;
  evConflict : option ConflictPayload;
  evNarration : string
}.

(** The zero [Event], which fills the ring buffer at first. *)
Definition zeroEvent : Event :=
  {| evID := ""; evType := ""; evProcessID := ""; evTimestamp := 0; evLocalSeq := 0;
     evGlobalSeq := 0; evLamportClock := None; evVectorClock := None; evMatrixClock := None;
     evMessage := None; evSnapshot := None; evConflict := None; evNarration := "" |}.

(** ** The bus *)

Definition historySize : nat := N.to_nat 1000.
Definition publishCap : nat := N.to_nat 4096.
Definition subscriberCap : nat := N.to_nat 256.

(** A subscriber's channel is a reference into [chans], the buffers of the
    channels; [subs] keeps the set of types each subscribed channel wants.
    [looping] tells whether the goroutine started by [NewEventBus] still
    runs, [logged] holds the counts of the warnings printed. *)
Record EventBus := {
  publish : list Event;
  subs : gmap nat (gset EventType);
  chans : gmap nat (list Event);
  nextChan : nat;
  history : list Event;
  histIdx : nat;
  histLen : nat;
  globalSeq : N;
  dropCount : N;
  dropLogged : N;
  logged : list N;
  done : bool;
  looping : bool
}.

Definition NewEventBus : EventBus :=
  {| publish := []; subs := ∅; chans := ∅; nextChan := 0;
     history := replicate historySize zeroEvent; histIdx := 0; histLen := 0;
     globalSeq := 0; dropCount := 0; dropLogged := 0; logged := [];
     done := false; looping := true |}.

(** Field updates. *)
Definition set_publish (b : EventBus) q := {| publish := q; subs := subs b; chans := chans b;
  nextChan := nextChan b; history := history b; histIdx := histIdx b; histLen := histLen b;
  globalSeq := globalSeq b; dropCount := dropCount b; dropLogged := dropLogged b;
  logged := logged b; done := done b; looping := looping b |}.

Definition set_subs (b : EventBus) s cs n := {| publish := publish b; subs := s; chans := cs;
  nextChan := n; history := history b; histIdx := histIdx b; histLen := histLen b;
  globalSeq := globalSeq b; dropCount := dropCount b; dropLogged := dropLogged b;
  logged := logged b; done := done b; looping := looping b |}.

Definition set_history (b : EventBus) h i l := {| publish := publish b; subs := subs b;
  chans := chans b; nextChan := nextChan b; history := h; histIdx := i; histLen := l;
  globalSeq := globalSeq b; dropCount := dropCount b; dropLogged := dropLogged b;
  logged := logged b; done := done b; looping := looping b |}.

Definition set_drops (b : EventBus) dc dl lg := {| publish := publish b; subs := subs b;
  chans := chans b; nextChan := nextChan b; history := history b; histIdx := histIdx b;
  histLen := histLen b; globalSeq := globalSeq b; dropCount := dc; dropLogged := dl;
  logged := lg; done := done b; looping := looping b |}.

Definition set_control (b : EventBus) gs dn lp := {| publish := publish b; subs := subs b;
  chans := chans b; nextChan := nextChan b; history := history b; histIdx := histIdx b;
  histLen := histLen b; globalSeq := gs; dropCount := dropCount b; dropLogged := dropLogged b;
  logged := logged b; done := dn; looping := lp |}.

Definition NextSeq (b : EventBus) : EventBus * N :=
  let n := u64_succ (globalSeq b) in
  (set_control b n (done b) (looping b), n).

(** [n - prev] of two [uint64]. *)
Definition u64_sub (x y : N) : N := ((x + (two64 - y)) mod two64)%N.

(** One call of [Publish]; its compare-and-swap succeeds when no other
    [Publish] runs in between. *)
Definition Publish (b : EventBus) (e : Event) : EventBus :=
  if length (publish b) <? publishCap then set_publish b (publish b ++ [e])
  else
    let n := u64_succ (dropCount b) in
    let prev := dropLogged b in
    if (100 <=? u64_sub n prev)%N then set_drops b n n (logged b ++ [n])
    else set_drops b n prev (logged b).

Definition DropCount (b : EventBus) : N := dropCount b.

Definition Subscribe (b : EventBus) (types : list EventType) : EventBus * nat :=
  let ch := nextChan b in
  let typeSet := foldl (λ s t, {[t]} ∪ s) ∅ types in
  (set_subs b (<[ch := typeSet]> (subs b)) (<[ch := []]> (chans b)) (S ch), ch).

Definition Unsubscribe (b : EventBus) (ch : nat) : EventBus :=
  set_subs b (delete ch (subs b)) (chans b) (nextChan b).

Definition History (b : EventBus) : list Event :=
  if histLen b =? 0 then []
  else if histLen b <? historySize then take (histLen b) (history b)
  else (λ i, default zeroEvent (history b !! ((histIdx b + i) mod historySize)))
         <$> seq 0 historySize.

Definition Stop (b : EventBus) : EventBus := set_control b (globalSeq b) true (looping b).

Definition store (b : EventBus) (e : Event) : EventBus :=
  set_history b (<[histIdx b := e]> (history b)) ((histIdx b + 1) mod historySize)
    (if histLen b <? historySize then histLen b + 1 else histLen b).

(** The subscriber side of a channel: receiving takes the oldest event. *)
Definition Recv (b : EventBus) (ch : nat) : EventBus * option Event :=
  match chans b !! ch with
  | Some (e :: q) => (set_subs b (subs b) (<[ch := q]> (chans b)) (nextChan b), Some e)
  | _ => (b, None)
  end.

Section bus.
Context `{MapRange}.

(** The non-blocking send of [fanout] to one channel. *)
Definition offer (ch : nat) (e : Event) (cs : gmap nat (list Event)) : gmap nat (list Event) :=
  match cs !! ch with
  | Some q => if length q <? subscriberCap then <[ch := q ++ [e]]> cs else cs
  | None => cs
  end.

Definition fanout (b : EventBus) (e : Event) : EventBus :=
  set_subs b (subs b)
    (for_range (subs b) (λ ch types cs,
       if bool_decide (types = ∅) || bool_decide (evType e ∈ types) then offer ch e cs else cs)
       (chans b))
    (nextChan b).

(** One round of [loop].  When the bus is stopped and the queue is not empty
    the [select] may take either branch; [quit] is that choice. *)
Definition loop (b : EventBus) (quit : bool) : EventBus :=
  if negb (looping b) then b
  else if done b && quit then set_control b (globalSeq b) (done b) false
  else match publish b with
       | e :: q => fanout (store (set_publish b q) e) e
       | [] => b
       end.
End bus.

(** ** Runs of the bus *)

(** One step of the bus: a call of one of its methods, a round of its
    goroutine or a subscriber taking an event. *)
Inductive bus_op :=
  | OpNextSeq
  | OpPublish (e : Event)
  | OpSubscribe (types : list EventType)
  | OpUnsubscribe (ch : nat)
  | OpStop
  | OpLoop (quit : bool)
  | OpRecv (ch : nat).

Definition bus_exec `{MapRange} (b : EventBus) (op : bus_op) : EventBus :=
  match op with
  | OpNextSeq => (NextSeq b).1
  | OpPublish e => Publish b e
  | OpSubscribe types => (Subscribe b types).1
  | OpUnsubscribe ch => Unsubscribe b ch
  | OpStop => Stop b
  | OpLoop quit => loop b quit
  | OpRecv ch => (Recv b ch).1
  end.

(** What the outside has seen of a run: the events published, those the
    queue accepted and those the goroutine has processed, in order. *)
Record bus_trace := { published : list Event; accepted : list Event; processed : list Event }.

Definition trace_step (b : EventBus) (t : bus_trace) (op : bus_op) : bus_trace :=
  match op with
  | OpPublish e =>
      {| published := published t ++ [e];
         accepted := if length (publish b) <? publishCap then accepted t ++ [e] else accepted t;
         processed := processed t |}
  | OpLoop quit =>
      if negb (looping b) || (done b && quit) then t
      else {| published := published t; accepted := accepted t;
              processed := processed t ++ take 1 (publish b) |}
  | _ => t
  end.

Definition bus_run `{MapRange} (ops : list bus_op) : EventBus * bus_trace :=
  foldl (λ bt op, (bus_exec bt.1 op, trace_step bt.1 bt.2 op))
    (NewEventBus, {| published := []; accepted := []; processed := [] |}) ops.

(** The last [n] elements of a list. *)
Definition lastn {A} (n : nat) (l : list A) : list A := drop (length l - n) l.

(** ** Invariants *)

Lemma historySize_pos : 0 < historySize.
Proof. unfold historySize. lia. Qed.

#[global] Opaque historySize publishCap subscriberCap.

(** The ring buffer holds the last events at the places their numbers have
    modulo [historySize]. *)
Record ring_ok (b : EventBus) (evs : list Event) : Prop := {
  ring_size : length (history b) = historySize;
  ring_len : histLen b = length evs `min` historySize;
  ring_idx : histIdx b = length evs mod historySize;
  ring_at : ∀ i, length evs ≤ i + historySize → i < length evs →
    history b !! (i mod historySize) = evs !! i
}.

Lemma mod_window n i j :
  0 < n → i < j → j < i + n → i mod n ≠ j mod n.
Proof.
  intros Hn Hij Hjn E.
  pose proof (Nat.div_mod_eq i n). pose proof (Nat.div_mod_eq j n).
  assert (i / n < j / n ∨ i / n = j / n ∨ j / n < i / n) as [?|[?|?]] by lia; nia.
Qed.

Lemma store_ring b evs e : ring_ok b evs → ring_ok (store b e) (evs ++ [e]).
Proof.
  pose proof historySize_pos as Hp. intros [Hs Hl Hi Ha]. split; simpl.
  - by rewrite length_insert.
  - rewrite length_app, Hl. simpl. destruct (Nat.ltb_spec (length evs `min` historySize) historySize); lia.
  - rewrite length_app, Hi. simpl. by rewrite Nat.Div0.add_mod_idemp_l.
  - intros i H1 H2. rewrite length_app in *. simpl in *. rewrite Hi.
    destruct (decide (i = length evs)) as [->|Hne].
    + rewrite list_lookup_insert_eq; [by rewrite list_lookup_middle|].
      rewrite Hs. by apply Nat.mod_upper_bound, Nat.neq_0_lt_0.
    + rewrite list_lookup_insert_ne by (intros E; symmetry in E; revert E; apply mod_window; lia).
      rewrite Ha by lia. by rewrite lookup_app_l by lia.
Qed.

Lemma ring_ok_ext b b' evs :
  history b' = history b → histIdx b' = histIdx b → histLen b' = histLen b →
  ring_ok b evs → ring_ok b' evs.
Proof. intros E1 E2 E3 [? ? ? ?]. split; rewrite ?E1, ?E2, ?E3; done. Qed.

(** What [History] returns of a ring buffer that holds the last of [evs]. *)
Lemma History_lastn b evs : ring_ok b evs → History b = lastn historySize evs.
Proof.
  pose proof historySize_pos as Hp. intros [Hs Hl Hi Ha]. unfold History, lastn.
  rewrite Hl. destruct (Nat.eqb_spec (length evs `min` historySize) 0) as [E0|E0].
  { assert (evs = []) as -> by (apply nil_length_inv; lia). done. }
  destruct (Nat.ltb_spec (length evs `min` historySize) historySize) as [Hlt|Hge].
  - replace (length evs - historySize) with 0 by lia. rewrite drop_0.
    apply list_eq. intros i. destruct (decide (i < length evs)) as [Hil|Hil].
    + rewrite lookup_take_lt by lia. rewrite <- Ha by lia. f_equal. symmetry.
      apply Nat.mod_small. lia.
    + rewrite lookup_take_ge by lia. by rewrite lookup_ge_None_2 by lia.
  - apply list_eq. intros i. rewrite list_lookup_fmap, lookup_drop.
    destruct (decide (i < historySize)) as [Hil|Hil].
    + rewrite lookup_seq_lt by done. simpl. rewrite Hi, Nat.Div0.add_mod_idemp_l.
      destruct (lookup_lt_is_Some_2 evs (length evs - historySize + i)) as [e He]; [lia|].
      replace (length evs + i) with ((length evs - historySize + i) + 1 * historySize) by lia.
      rewrite Nat.Div0.mod_add, Ha, He by lia. done.
    + rewrite lookup_seq_ge by lia. by rewrite lookup_ge_None_2 by lia.
Qed.

(** The invariant of a run. *)
Record bus_inv (b : EventBus) (t : bus_trace) : Prop := {
  inv_ring : ring_ok b (processed t);
  inv_queue : accepted t = processed t ++ publish b;
  inv_cap : length (publish b) ≤ publishCap;
  inv_sub : accepted t `sublist_of` published t;
  inv_drops : length (published t) = length (accepted t) + N.to_nat (dropCount b);
  inv_log : (dropLogged b <= dropCount b)%N ∧ (dropCount b < dropLogged b + 100)%N;
  inv_warn : (100 * N.of_nat (length (logged b)) <= dropLogged b)%N
}.

Lemma u64_sub_le x y : (x < two64)%N → (y <= x)%N → u64_sub x y = (x - y)%N.
Proof.
  intros Hx Hy. unfold u64_sub. replace (x + (two64 - y))%N with ((x - y) + 1 * two64)%N by lia.
  rewrite N.Div0.mod_add. apply N.mod_small. lia.
Qed.

Section runs.
Context `{MapRange}.

(** Subscribing, unsubscribing, receiving, stopping and numbering leave the
    queue, the ring and the counters alone. *)
Definition same_core (b b' : EventBus) : Prop :=
  publish b' = publish b ∧ history b' = history b ∧ histIdx b' = histIdx b ∧
  histLen b' = histLen b ∧ dropCount b' = dropCount b ∧ dropLogged b' = dropLogged b ∧
  logged b' = logged b.

Lemma bus_inv_same b b' t : same_core b b' → bus_inv b t → bus_inv b' t.
Proof.
  intros (E1 & E2 & E3 & E4 & E5 & E6 & E7) [? ? ? ? ? ? ?].
  split; rewrite ?E1, ?E5, ?E6, ?E7; try done. by eapply ring_ok_ext.
Qed.

Lemma exec_same_core b op :
  match op with OpPublish _ | OpLoop _ => True | _ => same_core b (bus_exec b op) end.
Proof.
  destruct op; try done. simpl. unfold Recv. by destruct (chans b !! ch) as [[|]|].
Qed.

Lemma publish_inv b t e :
  (N.of_nat (length (published t)) < MaxUint64)%N →
  bus_inv b t → bus_inv (Publish b e) (trace_step b t (OpPublish e)).
Proof.
  intros Hb [Hr Hq Hc Hs Hd Hl Hw]. unfold Publish. simpl.
  destruct (Nat.ltb_spec (length (publish b)) publishCap) as [Hlt|Hge].
  - split; simpl; try done.
    + by eapply ring_ok_ext; [..|exact Hr].
    + by rewrite Hq, <- (assoc_L (++)).
    + rewrite length_app. simpl. lia.
    + by apply sublist_app.
    + rewrite !length_app. simpl. lia.
  - assert (dropCount b < MaxUint64)%N as Hdb by lia.
    rewrite (u64_succ_small _ Hdb), u64_sub_le by (unfold two64, MaxUint64 in *; lia).
    assert (accepted t `sublist_of` published t ++ [e]) by (by apply sublist_inserts_r).
    destruct (N.leb_spec 100 (dropCount b + 1 - dropLogged b)); split; simpl; try done;
      try (by eapply ring_ok_ext; [..|exact Hr]); rewrite ?length_app; simpl; lia.
Qed.

Lemma loop_inv b t quit : bus_inv b t → bus_inv (loop b quit) (trace_step b t (OpLoop quit)).
Proof.
  intros Hi. unfold loop. simpl. destruct (looping b); simpl; [|done].
  destruct (done b && quit); simpl; [by eapply bus_inv_same; [|exact Hi]|].
  destruct Hi as [Hr Hq Hc Hs Hd Hl Hw]. destruct (publish b) as [|e q] eqn:Eq; simpl.
  - rewrite app_nil_r. split; simpl; try done; by rewrite Eq.
  - split; simpl in *; try done; [|by rewrite Hq, <- (assoc_L (++))|lia].
    assert (ring_ok (set_publish b q) (processed t)) as Hr' by (by eapply ring_ok_ext; [..|exact Hr]).
    apply (store_ring _ _ e) in Hr'. by eapply ring_ok_ext; [..|exact Hr'].
Qed.

Lemma bus_run_snoc ops op :
  bus_run (ops ++ [op]) =
    (bus_exec (bus_run ops).1 op, trace_step (bus_run ops).1 (bus_run ops).2 op).
Proof. unfold bus_run. by rewrite foldl_app. Qed.

Lemma trace_step_published b t op :
  length (published t) ≤ length (published (trace_step b t op)).
Proof. destruct op; simpl; [done| |done..| |done]; [rewrite length_app; lia|by case_match]. Qed.

Lemma bus_run_inv ops :
  (N.of_nat (length (published (bus_run ops).2)) <= MaxUint64)%N →
  bus_inv (bus_run ops).1 (bus_run ops).2.
Proof.
  induction ops as [|op ops IH] using rev_ind; intros Hb.
  { split; simpl; try done; try lia.
    pose proof historySize_pos. split; simpl; try lia.
    - apply length_replicate.
    - symmetry. by apply Nat.Div0.mod_0_l. }
  rewrite bus_run_snoc in *. simpl in *.
  pose proof (trace_step_published (bus_run ops).1 (bus_run ops).2 op).
  specialize (IH ltac:(lia)). pose proof (exec_same_core (bus_run ops).1 op) as Hs.
  destruct op; try (by eapply bus_inv_same).
  - apply publish_inv; [|done]. simpl in Hb. rewrite length_app in Hb. simpl in Hb. lia.
  - by apply loop_inv.
Qed.

Lemma offer_alter ch e cs :
  offer ch e cs = partial_alter
    (λ o, (λ q, if length q <? subscriberCap then q ++ [e] else q) <$> o) ch cs.
Proof.
  unfold offer. apply map_eq. intros j. destruct (decide (j = ch)) as [->|Hne].
  - rewrite lookup_partial_alter_eq. destruct (cs !! ch) as [q|] eqn:E; simpl; [|done].
    destruct (_ <? _); [by rewrite lookup_insert_eq|done].
  - rewrite lookup_partial_alter_ne by done. destruct (cs !! ch); [|done].
    destruct (_ <? _); [by rewrite lookup_insert_ne|done].
Qed.
End runs.

(** ** Properties *)


(** An event with a chosen name. *)
Definition named_event (t : EventType) (id : string) : Event :=
  {| evID := id; evType := t; evProcessID := "A"; evTimestamp := 0; evLocalSeq := 1;
     evGlobalSeq := 1; evLamportClock := None; evVectorClock := None; evMatrixClock := None;
     evMessage := None; evSnapshot := None; evConflict := None; evNarration := "" |}.


(** Processing an event appends it to the channel of every subscriber
    that asked for its type (or for every type) and whose channel has room,
    and changes no other channel, whatever the order in which the subscribers
    are visited. *)
Theorem fanout_delivers `{MapRange} (b : EventBus) (e : Event) (ch : nat) :
  chans (fanout b e) !! ch =
    match subs b !! ch, chans b !! ch with
    | Some types, Some q =>
        Some (if bool_decide (types = ∅ ∨ evType e ∈ types) && (length q <? subscriberCap)
              then q ++ [e] else q)
    | _, o => o
    end.
Proof.
  unfold fanout. simpl. erewrite (for_range_lookup _ (λ ch types o,
    if bool_decide (types = ∅) || bool_decide (evType e ∈ types)
    then (λ q, if length q <? subscriberCap then q ++ [e] else q) <$> o else o)).
  - destruct (subs b !! ch) as [types|]; [|done]. rewrite bool_decide_or.
    destruct (_ || _), (chans b !! ch); simpl; by try destruct (_ <? _).
  - intros k types cs. destruct (_ || _); [apply offer_alter|].
    symmetry. apply partial_alter_same.
Qed.
