(* ===== verification/HoldBack.v ===== *)
(** * The hold-back queue (src/internal/process/holdback.go)

    A process in causal delivery mode keeps messages that arrive too early in
    a queue and releases them when their causal predecessors have been
    delivered.  The file models the queue and the delivery condition, proves
    that [TryDeliver] releases exactly what can be released, and studies the
    runs of a receiver: which orders of delivery the condition allows. *)
From stdpp Require Import gmap strings list relations.
From S2P Require Import Prelude Matrix Events VClock.

(** ** Data *)

(** [type Message struct] (src/internal/process/process.go).  A nil stamp is
    read like an empty map. *)
Record Message := {
  ID : string;
  From : string;
  To : string;
  Data : any;
  SentVC : VectorClock;
  SentMatrix : MatrixClock;
  SentLC : N;
  SentAt : Z;
  IsMarker : bool;
  SnapshotID : string
}.

(** [type HeldMessage struct], [type HoldBackQueue struct]. *)
Record HeldMessage := { Msg : Message; HSentVC : VectorClock }.
Record HoldBackQueue := { pending : list HeldMessage }.

(** ** Operations *)
Section ops.
Context `{MapRange}.

Definition Enqueue (q : HoldBackQueue) (m : Message) (sentVC : VectorClock) : HoldBackQueue :=
  {| pending := pending q ++ [{| Msg := m; HSentVC := sentVC |}] |}.

(** The loop of [canDeliver] over the message's clock, with its early
    return. *)
Fixpoint deps_ok (es : list (string * N)) (sender : string) (localVC : VectorClock) : bool :=
  match es with
  | [] => true
  | (pid, msgCount) :: es =>
      if bool_decide (pid = sender) then deps_ok es sender localVC
      else if (localVC.[pid] <? msgCount)%N then false
      else deps_ok es sender localVC
  end.

Definition canDeliver (msgVC : VectorClock) (sender : string) (localVC : VectorClock) : bool :=
  if negb (msgVC.[sender] =? u64_succ localVC.[sender])%N then false
  else deps_ok (range msgVC) sender localVC.

(** The scan [for i, held := range q.pending] up to its [break]. *)
Fixpoint scan (i : nat) (l : list HeldMessage) (localVC : VectorClock) :
    option (nat * HeldMessage) :=
  match l with
  | [] => None
  | held :: l =>
      if canDeliver (HSentVC held) (From (Msg held)) localVC then Some (i, held)
      else scan (S i) l localVC
  end.

(** The clock update of one delivery. *)
Definition deliver_clock (localVC : VectorClock) (held : HeldMessage) (selfPID : string) :
    VectorClock :=
  let localVC := Copy localVC in
  let localVC := for_range (HSentVC held) (λ k v localVC,
    if bool_decide (k = From (Msg held)) then <[k := v]> localVC
    else if (localVC.[k] <? v)%N then <[k := v]> localVC else localVC) localVC in
  <[selfPID := u64_succ localVC.[selfPID]]> localVC.

(** The swap-with-last removal. *)
Definition swap_pop (l : list HeldMessage) (i : nat) : list HeldMessage :=
  match l !! (length l - 1) with
  | Some last => take (length l - 1) (<[i := last]> l)
  | None => l
  end.

(** The outer loop [for changed]; each round that goes on removes a message,
    so [S (length pending)] rounds are enough. *)
Fixpoint TryDeliver_loop (fuel : nat) (l : list HeldMessage) (delivered : list Message)
    (localVC : VectorClock) (selfPID : string) :
    option (list Message * VectorClock * list HeldMessage) :=
  match fuel with
  | 0 => None
  | S fuel =>
      match scan 0 l localVC with
      | Some (i, held) =>
          TryDeliver_loop fuel (swap_pop l i) (delivered ++ [Msg held])
            (deliver_clock localVC held selfPID) selfPID
      | None => Some (delivered, localVC, l)
      end
  end.

(** [q.TryDeliver(localVC, selfPID)]: the messages released, the new clock and
    the queue afterwards. *)
Definition TryDeliver (q : HoldBackQueue) (localVC : VectorClock) (selfPID : string) :
    list Message * VectorClock * HoldBackQueue :=
  match TryDeliver_loop (S (length (pending q))) (pending q) [] localVC selfPID with
  | Some (ds, vc, l) => (ds, vc, {| pending := l |})
  | None => ([], localVC, q)
  end.

Definition Len (q : HoldBackQueue) : nat := length (pending q).

Definition Snapshot (q : HoldBackQueue) : list HeldMessage :=
  (λ h, {| Msg := Msg h; HSentVC := HSentVC h |}) <$> pending q.

Definition BlockedBy (q : HoldBackQueue) (localVC : VectorClock) : list string :=
  let blockers : gmap string () := foldl (λ blockers held,
    let sender := From (Msg held) in
    let msgVC := HSentVC held in
    let blockers := if (u64_succ localVC.[sender] <? msgVC.[sender])%N
                    then <[sender := ()]> blockers else blockers in
    for_range msgVC (λ pid msgCount blockers,
      if bool_decide (pid = sender) then blockers
      else if (localVC.[pid] <? msgCount)%N then <[pid := ()]> blockers else blockers)
      blockers) ∅ (pending q) in
  for_range blockers (λ pid _ result, result ++ [pid]) [].
End ops.

(** ** The delivery condition *)
Section facts.
Context `{MapRange}.

Lemma deps_ok_spec es s l :
  deps_ok es s l = true ↔ ∀ k v, (k, v) ∈ es → k ≠ s → (v <= l.[k])%N.
Proof.
  induction es as [|[k v] es IH]; simpl.
  - split; [by intros _ k v ?%elem_of_nil|done].
  - setoid_rewrite elem_of_cons. case_bool_decide as E; [rewrite IH; naive_solver|].
    destruct (N.ltb_spec l.[k] v).
    + split; [done|]. intros Hall. specialize (Hall k v (or_introl eq_refl) E). lia.
    + rewrite IH. naive_solver.
Qed.

Lemma deps_ok_false es s l :
  deps_ok es s l = false → ∃ k v, (k, v) ∈ es ∧ k ≠ s ∧ (l.[k] < v)%N.
Proof.
  induction es as [|[k v] es IH]; simpl; [done|]. setoid_rewrite elem_of_cons.
  case_bool_decide; [naive_solver|]. destruct (N.ltb_spec l.[k] v); naive_solver.
Qed.

(** [canDeliver] is the condition its comment states. *)
Lemma canDeliver_spec m s l :
  canDeliver m s l = true ↔
    m.[s] = u64_succ l.[s] ∧ ∀ k, k ≠ s → (m.[k] <= l.[k])%N.
Proof.
  unfold canDeliver. destruct (N.eqb_spec m.[s] (u64_succ l.[s])) as [E|E]; simpl; [|naive_solver].
  rewrite deps_ok_spec. setoid_rewrite elem_of_range. split.
  - intros Hall. split; [done|]. intros k Hk. unfold mget at 1.
    destruct (m !! k) eqn:Ek; simpl; [by apply Hall|lia].
  - intros [_ Hall] k v Ek Hk. specialize (Hall k Hk). unfold mget at 1 in Hall. by rewrite Ek in Hall.
Qed.

(** A message carries a stamp when its sender's own counter is not zero,
    which every send below the top of [uint64] establishes. *)
Definition stamped (h : HeldMessage) : Prop := (HSentVC h).[From (Msg h)] ≠ 0%N.

#[export] Instance stamped_dec h : Decision (stamped h).
Proof. unfold stamped. apply _. Defined.

Lemma next_counter (m l : VectorClock) (s : string) :
  m.[s] = u64_succ l.[s] → m.[s] ≠ 0%N → (l.[s] < two64)%N → m.[s] = (l.[s] + 1)%N.
Proof. intros -> Hne Hw. by apply u64_succ_nonzero. Qed.

(** For a deliverable message the hand-written clock update is
    [vector.Receive]. *)
Lemma deliver_clock_Receive l h self :
  ((HSentVC h).[From (Msg h)] = l.[From (Msg h)] + 1)%N →
  deliver_clock l h self = Receive l (HSentVC h) self.
Proof.
  intros E. unfold deliver_clock, Receive, Tick. rewrite !Copy_id.
  replace (for_range (HSentVC h) _ l) with (MergePassive l (HSentVC h)); [done|].
  apply map_eq. intros j. rewrite MergePassive_lookup.
  rewrite (for_range_lookup _ (λ k v o, if bool_decide (k = From (Msg h)) then Some v
    else if (default 0 o <? v)%N then Some v else o)).
  - destruct (HSentVC h !! j) as [v|] eqn:Ej; [|done]. case_bool_decide as Ef; [|done].
    subst j. unfold mget in E at 1. rewrite Ej in E. simpl in E.
    by rewrite (proj2 (N.ltb_lt _ _)) by lia.
  - intros k v a. case_bool_decide; [|apply raise_alter].
    apply map_eq. intros i. destruct (decide (i = k)) as [->|].
    + by rewrite lookup_insert_eq, lookup_partial_alter_eq.
    + by rewrite lookup_insert_ne, lookup_partial_alter_ne.
Qed.

(** ** Runs of a receiver *)

(** What happens to the clock of a process [self]: its own events tick it, a
    delivery merges the message's stamp.  A delivery only needs the condition
    on the other processes' counters, which its own ticks do not touch. *)
Inductive local_step (self : string) : VectorClock → option HeldMessage → VectorClock → Prop :=
  | ls_tick vc : local_step self vc None (Tick vc self)
  | ls_deliver vc h :
      stamped h →
      (HSentVC h).[From (Msg h)] = u64_succ vc.[From (Msg h)] →
      (∀ k, k ≠ From (Msg h) → k ≠ self → ((HSentVC h).[k] <= vc.[k])%N) →
      local_step self vc (Some h) (Receive vc (HSentVC h) self).

(** A sequence of steps with the messages it delivers, in order. *)
Inductive local_run (self : string) : VectorClock → list HeldMessage → VectorClock → Prop :=
  | lr_nil vc : local_run self vc [] vc
  | lr_tick vc vc1 ds vc2 :
      local_step self vc None vc1 → local_run self vc1 ds vc2 → local_run self vc ds vc2
  | lr_deliver vc h vc1 ds vc2 :
      local_step self vc (Some h) vc1 → local_run self vc1 ds vc2 →
      local_run self vc (h :: ds) vc2.

Lemma local_run_app self vc ds vc1 es vc2 :
  local_run self vc ds vc1 → local_run self vc1 es vc2 → local_run self vc (ds ++ es) vc2.
Proof. induction 1; intros; simpl; eauto using local_run. Qed.

Lemma local_run_split self vc ds es vc2 :
  local_run self vc (ds ++ es) vc2 →
  ∃ vc1, local_run self vc ds vc1 ∧ local_run self vc1 es vc2.
Proof.
  intros Hr. remember (ds ++ es) as l eqn:El. revert ds El.
  induction Hr as [vc|vc vc1 l vc2 Hs Hr IH|vc h vc1 l vc2 Hs Hr IH]; intros ds El.
  - symmetry in El. apply app_eq_nil in El as [-> ->]. eauto using local_run.
  - destruct (IH ds El) as (v & ? & ?). eauto using local_run.
  - destruct ds as [|d ds]; simpl in El.
    + subst es. eexists. split; [constructor|by eapply lr_deliver].
    + injection El as <- ->. destruct (IH ds eq_refl) as (v & ? & ?). eauto using local_run.
Qed.

Lemma canDeliver_step self vc h :
  stamped h → canDeliver (HSentVC h) (From (Msg h)) vc = true →
  local_step self vc (Some h) (Receive vc (HSentVC h) self).
Proof. intros Hs [E Hall]%canDeliver_spec. apply ls_deliver; auto. Qed.

Lemma local_step_mono self vc o vc' k :
  local_step self vc o vc' → k ≠ self → (vc.[k] <= vc'.[k])%N.
Proof.
  intros [?|? h _ _ _] Hk; [rewrite Tick_get|rewrite Receive_get]; rewrite decide_False by done; lia.
Qed.

Lemma local_step_wf self vc o vc' : local_step self vc o vc' → wf64 vc → wf64 vc'.
Proof.
  intros [?|? h Hs E Hall] Hw; [by apply Tick_wf|]. intros k. rewrite Receive_get.
  case_decide; [apply u64_add_bound|]. destruct (decide (k = From (Msg h))) as [->|].
  - rewrite E. specialize (Hw (From (Msg h))). pose proof (u64_add_bound vc0.[From (Msg h)] 1).
    unfold u64_succ. lia.
  - specialize (Hall k ltac:(done) ltac:(done)). specialize (Hw k). lia.
Qed.

(** A delivery takes the sender's counter exactly one further, and leaves
    every counter the stamp carries covered. *)
Lemma local_step_deliver self vc h vc' :
  local_step self vc (Some h) vc' → wf64 vc →
  (HSentVC h).[From (Msg h)] = (vc.[From (Msg h)] + 1)%N ∧
  (∀ k, k ≠ self → ((HSentVC h).[k] <= vc'.[k])%N) ∧
  (∀ k, k ≠ self → k ≠ From (Msg h) → ((HSentVC h).[k] <= vc.[k])%N ∧ vc'.[k] = vc.[k]) ∧
  (From (Msg h) ≠ self → vc'.[From (Msg h)] = (HSentVC h).[From (Msg h)]).
Proof.
  intros Hst Hw. inversion Hst as [|? ? Hs E Hall]; subst.
  pose proof (next_counter _ _ _ E Hs (Hw _)) as En. split_and!; [done|..].
  - intros k Hk. rewrite Receive_get, decide_False by done. lia.
  - intros k Hk Hf. rewrite Receive_get, decide_False by done. specialize (Hall k Hf Hk). lia.
  - intros Hf. rewrite Receive_get, decide_False by done. lia.
Qed.

Lemma local_run_mono self vc ds vc' k :
  local_run self vc ds vc' → k ≠ self → (vc.[k] <= vc'.[k])%N.
Proof.
  induction 1 as [|? ? ? ? Hs _ IH|? ? ? ? ? Hs _ IH]; intros Hk; [done|..];
    pose proof (local_step_mono _ _ _ _ _ Hs Hk); specialize (IH Hk); lia.
Qed.

Lemma local_run_wf self vc ds vc' : local_run self vc ds vc' → wf64 vc → wf64 vc'.
Proof. induction 1; eauto using local_step_wf. Qed.

(** Later deliveries carry a larger counter of their own sender than any
    message delivered before them: what was delivered earlier had not seen
    them. *)
Lemma local_run_order self vc ds vc' i j hi hj :
  local_run self vc ds vc' → wf64 vc → i < j →
  ds !! i = Some hi → ds !! j = Some hj → From (Msg hj) ≠ self →
  ((HSentVC hi).[From (Msg hj)] < (HSentVC hj).[From (Msg hj)])%N.
Proof.
  intros Hr Hw. revert i j Hw.
  induction Hr as [|? ? ? ? Hs Hr IH|vc h vc1 ds vc2 Hs Hr IH]; intros i j Hw Hij Hi Hj Hf; [done|..].
  - eapply IH; eauto using local_step_wf.
  - destruct j as [|j]; [lia|]. destruct i as [|i]; simpl in *.
    + injection Hi as ->. destruct (local_step_deliver _ _ _ _ Hs Hw) as (_ & Hc & _ & _).
      apply list_elem_of_split_length in Hj as (l1 & l2 & -> & _).
      apply local_run_split in Hr as (v & Hr1 & Hr2).
      pose proof (local_run_mono _ _ _ _ _ Hr1 Hf) as Hm.
      assert (wf64 v) as Hwv by eauto using local_run_wf, local_step_wf. clear - Hr2 Hwv Hm Hc Hf.
      remember (hj :: l2) as l eqn:El. revert l2 El Hm.
      induction Hr2 as [|? ? ? ? Hs2 _ IH2|? ? ? ? ? Hs2 _ _]; intros l2 El Hm; [done|..].
      * eapply IH2; eauto using local_step_wf.
        pose proof (local_step_mono _ _ _ _ _ Hs2 Hf). lia.
      * injection El as -> ->. destruct (local_step_deliver _ _ _ _ Hs2 Hwv) as (E & _).
        specialize (Hc _ Hf). lia.
    + apply (IH i j); eauto using local_step_wf; lia.
Qed.

(** A counter value that no message carries as its sender's stamp is a wall:
    the receiver never gets past it. *)
Lemma local_run_gap self vc ds vc' p c :
  local_run self vc ds vc' → wf64 vc → p ≠ self → (vc.[p] < c)%N →
  (∀ h, h ∈ ds → From (Msg h) = p → (HSentVC h).[p] ≠ c) →
  (vc'.[p] < c)%N ∧ ∀ h, h ∈ ds → ((HSentVC h).[p] < c)%N.
Proof.
  intros Hr Hw Hp. induction Hr as [|? ? ? ? Hs _ IH|vc h vc1 ds vc2 Hs _ IH]; intros Hlt Hgap.
  - split; [done|]. by intros h ?%elem_of_nil.
  - apply IH; eauto using local_step_wf. inversion Hs; subst.
    by rewrite Tick_get, decide_False.
  - destruct (local_step_deliver _ _ _ _ Hs Hw) as (E & _ & Hoth & Hfrom).
    assert ((HSentVC h).[p] < c ∧ vc1.[p] < c)%N as [? ?].
    { destruct (decide (From (Msg h) = p)) as [Ef|Ef].
      - subst p. specialize (Hgap h (list_elem_of_here _ _) eq_refl). rewrite Hfrom by done. lia.
      - destruct (Hoth p) as [? ->]; [done|congruence|]. lia. }
    destruct IH as [? Hds]; eauto using local_step_wf; [set_solver|].
    split; [done|]. intros h' [->|?]%elem_of_cons; auto.
Qed.

(** ** The scan and the removal *)

Lemma scan_Some i l vc j h :
  scan i l vc = Some (j, h) →
  ∃ pre post, l = pre ++ h :: post ∧ j = i + length pre ∧
    canDeliver (HSentVC h) (From (Msg h)) vc = true.
Proof.
  revert i. induction l as [|x l IH]; intros i E; simpl in E; [done|].
  destruct (canDeliver (HSentVC x) _ vc) eqn:Ec.
  - injection E as <- <-. exists [], l. split_and!; [done|simpl; lia|done].
  - apply IH in E as (pre & post & -> & -> & ?). exists (x :: pre), post.
    split_and!; [done|simpl; lia|done].
Qed.

Lemma scan_None i l vc :
  scan i l vc = None → ∀ h, h ∈ l → canDeliver (HSentVC h) (From (Msg h)) vc = false.
Proof.
  revert i. induction l as [|x l IH]; intros i E h Hh; simpl in E; [by apply elem_of_nil in Hh|].
  destruct (canDeliver (HSentVC x) _ vc) eqn:Ec; [done|].
  apply elem_of_cons in Hh as [->|Hh]; [done|by eapply IH].
Qed.

Lemma swap_pop_last pre h : swap_pop (pre ++ [h]) (length pre) = pre.
Proof.
  unfold swap_pop. rewrite length_app. cbn [length].
  replace (length pre + 1 - 1) with (length pre) by lia.
  rewrite list_lookup_middle by done. rewrite insert_app_r_alt by lia.
  by rewrite take_app_length.
Qed.

Lemma swap_pop_inner pre h post y :
  swap_pop (pre ++ h :: post ++ [y]) (length pre) = pre ++ y :: post.
Proof.
  unfold swap_pop. rewrite app_comm_cons, (assoc_L (++)).
  replace (length ((pre ++ h :: post) ++ [y]) - 1) with (length (pre ++ h :: post))
    by (rewrite (length_app _ [y]); cbn [length]; lia).
  rewrite list_lookup_middle by done.
  rewrite insert_app_l by (rewrite length_app; simpl; lia).
  rewrite take_app_length' by (by rewrite length_insert).
  rewrite insert_app_r_alt by lia. by rewrite Nat.sub_diag.
Qed.

Lemma swap_pop_perm pre h post :
  h :: swap_pop (pre ++ h :: post) (length pre) ≡ₚ pre ++ h :: post.
Proof.
  destruct post as [|y post _] using rev_ind.
  - rewrite swap_pop_last. apply Permutation_cons_append.
  - rewrite swap_pop_inner, (Permutation_app_comm post [y]). apply Permutation_middle.
Qed.

(** The deliveries of one [TryDeliver]: each message satisfies the condition
    at the clock its turn comes at. *)
Inductive releases (self : string) : VectorClock → list HeldMessage → VectorClock → Prop :=
  | rel_nil vc : releases self vc [] vc
  | rel_cons vc h hs vc' :
      canDeliver (HSentVC h) (From (Msg h)) vc = true →
      releases self (deliver_clock vc h self) hs vc' → releases self vc (h :: hs) vc'.

Lemma TryDeliver_loop_spec fuel l dl vc self :
  length l < fuel →
  ∃ hs vc' l', TryDeliver_loop fuel l dl vc self = Some (dl ++ (Msg <$> hs), vc', l') ∧
    hs ++ l' ≡ₚ l ∧ releases self vc hs vc' ∧
    ∀ h, h ∈ l' → canDeliver (HSentVC h) (From (Msg h)) vc' = false.
Proof.
  revert l dl vc. induction fuel as [|fuel IH]; intros l dl vc Hf; [lia|]. simpl.
  destruct (scan 0 l vc) as [[j h]|] eqn:E.
  - apply scan_Some in E as (pre & post & -> & -> & Hc).
    pose proof (swap_pop_perm pre h post) as Hp. pose proof (Permutation_length Hp) as Hl.
    simpl in Hl. destruct (IH (swap_pop (pre ++ h :: post) (length pre)) (dl ++ [Msg h])
      (deliver_clock vc h self)) as (hs & vc' & l' & E & Hperm & Hr & Hno); [lia|].
    exists (h :: hs), vc', l'. simpl. rewrite E, <- (assoc_L (++)). split_and!; [done|..|done].
    + by rewrite Hperm.
    + by constructor.
  - exists [], vc, l. rewrite app_nil_r. split_and!; [done..|constructor|by eapply scan_None].
Qed.

Lemma TryDeliver_spec q vc self ds vc' q' :
  TryDeliver q vc self = (ds, vc', q') →
  ∃ hs, ds = Msg <$> hs ∧ hs ++ pending q' ≡ₚ pending q ∧ releases self vc hs vc' ∧
    ∀ h, h ∈ pending q' → canDeliver (HSentVC h) (From (Msg h)) vc' = false.
Proof.
  unfold TryDeliver.
  destruct (TryDeliver_loop_spec (S (length (pending q))) (pending q) [] vc self)
    as (hs & v & l' & -> & ? & ? & ?); [lia|].
  intros [= <- <- <-]. eauto.
Qed.

Lemma releases_run self vc hs vc' :
  releases self vc hs vc' → wf64 vc → Forall stamped hs → local_run self vc hs vc'.
Proof.
  induction 1 as [|vc h hs vc' Hc _ IH]; intros Hw Hst; [constructor|].
  apply Forall_cons in Hst as [Hs Hst]. pose proof (canDeliver_step self _ _ Hs Hc) as Hstep.
  assert (deliver_clock vc h self = Receive vc (HSentVC h) self) as E.
  { apply deliver_clock_Receive. by destruct (local_step_deliver _ _ _ _ Hstep Hw). }
  rewrite E in IH. eapply lr_deliver; [done|]. apply IH; eauto using local_step_wf.
Qed.
End facts.

(** ** Blockers *)
Section blockers.
Context `{MapRange}.

(** What blocks one held message, as the comment of [BlockedBy] lists it. *)
Definition blocks (l : VectorClock) (pid : string) (h : HeldMessage) : Prop :=
  if decide (pid = From (Msg h)) then (u64_succ l.[pid] < (HSentVC h).[pid])%N
  else (l.[pid] < (HSentVC h).[pid])%N.

(** The fold of [BlockedBy] over one message's clock. *)
Lemma blockers_one (m l : VectorClock) (s : string) (acc : gmap string ()) pid :
  is_Some (for_range m (λ pid msgCount blockers,
      if bool_decide (pid = s) then blockers
      else if (l.[pid] <? msgCount)%N then <[pid := ()]> blockers else blockers) acc !! pid) ↔
  is_Some (acc !! pid) ∨ pid ≠ s ∧ (l.[pid] < m.[pid])%N.
Proof.
  rewrite (for_range_lookup _ (λ k v o, if bool_decide (k = s) then o
    else if (l.[k] <? v)%N then Some () else o)).
  - change (m.[pid]) with (default 0%N (m !! pid)). destruct (m !! pid) as [v|]; simpl.
    + case_bool_decide; [naive_solver|]. destruct (N.ltb_spec l.[pid] v); [|naive_solver lia].
      split; [by right|by eauto].
    + naive_solver lia.
  - intros k v a. case_bool_decide; [by rewrite partial_alter_same|].
    destruct (_ <? _)%N; [done|by rewrite partial_alter_same].
Qed.

Lemma blockers_fold (l : VectorClock) hs (acc : gmap string ()) pid :
  is_Some (foldl (λ blockers held,
    let sender := From (Msg held) in
    let msgVC := HSentVC held in
    let blockers := if (u64_succ l.[sender] <? msgVC.[sender])%N
                    then <[sender := ()]> blockers else blockers in
    for_range msgVC (λ pid msgCount blockers,
      if bool_decide (pid = sender) then blockers
      else if (l.[pid] <? msgCount)%N then <[pid := ()]> blockers else blockers)
      blockers) acc hs !! pid) ↔
  is_Some (acc !! pid) ∨ ∃ h, h ∈ hs ∧ blocks l pid h.
Proof.
  revert acc. induction hs as [|h hs IH]; intros acc; simpl.
  - split; [by left|]. intros [?|(h & Hh & _)]; [done|by apply elem_of_nil in Hh].
  - rewrite IH, blockers_one. setoid_rewrite elem_of_cons.
    assert (is_Some ((if (u64_succ l.[From (Msg h)] <? (HSentVC h).[From (Msg h)])%N
       then <[From (Msg h) := ()]> acc else acc) !! pid) ∨
       pid ≠ From (Msg h) ∧ (l.[pid] < (HSentVC h).[pid])%N ↔
       is_Some (acc !! pid) ∨ blocks l pid h) as ->; [|naive_solver].
    unfold blocks. destruct (decide (pid = From (Msg h))) as [->|Hne].
    + destruct (N.ltb_spec (u64_succ l.[From (Msg h)]) (HSentVC h).[From (Msg h)]).
      * rewrite lookup_insert_eq. naive_solver.
      * naive_solver lia.
    + destruct (_ <? _)%N; [rewrite lookup_insert_ne by done|]; naive_solver.
Qed.

Lemma BlockedBy_elem q l pid : pid ∈ BlockedBy q l ↔ ∃ h, h ∈ pending q ∧ blocks l pid h.
Proof.
  unfold BlockedBy. set (bl := foldl _ _ _).
  assert (∀ es acc, foldl (λ a kv, (λ (pid : string) (_ : ()) result, result ++ [pid]) kv.1 kv.2 a)
    acc es = acc ++ es.*1) as E.
  { induction es as [|[k []] es IH]; intros acc; simpl; [by rewrite app_nil_r|].
    by rewrite IH, <- (assoc_L (++)). }
  unfold for_range at 1. rewrite E. simpl. rewrite list_elem_of_fmap.
  pose proof (blockers_fold l (pending q) ∅ pid) as Hf. fold bl in Hf.
  rewrite lookup_empty in Hf. split.
  - intros ([k []] & -> & Hin%elem_of_range). apply proj1 in Hf.
    destruct Hf as [[? ?]|?]; [by eauto|done|done].
  - intros Hex. destruct (proj2 Hf (or_intror Hex)) as [[] Hl].
    exists (pid, ()). split; [done|by apply elem_of_range].
Qed.
End blockers.

(** ** Properties *)

(** C12: [TryDeliver] always terminates; the messages it returns together with
    those it leaves are those it found; each of them satisfied the delivery
    condition at the clock its turn came at; none of those it leaves does;
    and the clock it returns is the local one after [vector.Receive] of the
    stamps in that order. *)
Theorem TryDeliver_releases_all `{MapRange} (q : HoldBackQueue) (vc : VectorClock) (self : string) :
  let '(ds, vc', q') := TryDeliver q vc self in
  ∃ hs, ds = Msg <$> hs ∧
    hs ++ pending q' ≡ₚ pending q ∧
    releases self vc hs vc' ∧
    (∀ h, h ∈ pending q' → canDeliver (HSentVC h) (From (Msg h)) vc' = false) ∧
    (wf64 vc → Forall stamped hs → vc' = foldl (λ c h, Receive c (HSentVC h) self) vc hs).
Proof.
  destruct (TryDeliver q vc self) as [[ds vc'] q'] eqn:E.
  apply TryDeliver_spec in E as (hs & -> & Hp & Hr & Hno). exists hs. split_and!; [done..|].
  clear - Hr. induction Hr as [|vc h hs vc' Hc Hr IH]; intros Hw Hst; simpl; [done|].
  apply Forall_cons in Hst as [Hs Hst]. pose proof (canDeliver_step self _ _ Hs Hc) as Hstep.
  rewrite deliver_clock_Receive in IH by (by destruct (local_step_deliver _ _ _ _ Hstep Hw)).
  apply IH; [by eapply local_step_wf|done].
Qed.

Definition test_msg (from : string) (vc : VectorClock) : HeldMessage :=
  let m := {| ID := ""; From := from; To := "Z"; Data := ANil; SentVC := vc; SentMatrix := ∅;
              SentLC := 0; SentAt := 0; IsMarker := false; SnapshotID := "" |} in
  {| Msg := m; HSentVC := vc |}.

Lemma TryDeliver_releases_all_witness :
  let r := canonical_range in
  let m1 := test_msg "A" {["A" := 1%N]} in
  let m2 := test_msg "A" {["A" := 2%N]} in
  let m3 := test_msg "B" (<["B" := 1%N]> {["A" := 3%N]}) in
  let '(ds, vc', q') := TryDeliver {| pending := [m3; m2; m1] |} ∅ "Z" in
  ds = [Msg m1; Msg m2] ∧ pending q' = [m3] ∧
  ∃ hs, ds = Msg <$> hs ∧ hs ++ pending q' ≡ₚ [m3; m2; m1].
Proof.
  intros r m1 m2 m3.
  pose proof (TryDeliver_releases_all {| pending := [m3; m2; m1] |} ∅ "Z") as T.
  revert T. destruct (TryDeliver _ _ _) as [[ds vc'] q'] eqn:E.
  intros (hs & Hds & Hp & _). vm_compute in E. injection E as <- <- <-.
  split_and!; [reflexivity|reflexivity|]. exists hs. by split.
Defined.

(** [BlockedBy] reports exactly the processes its comment lists, and it
    explains the queue: while the sender's local counter is below the top of
    [uint64], a held message is undeliverable exactly when one of the reported
    causes applies to it or when it is stale, that is its sender's counter has
    been passed already. *)
Theorem BlockedBy_explains `{MapRange} (q : HoldBackQueue) (l : VectorClock) (h : HeldMessage) :
  h ∈ pending q → (l.[From (Msg h)] < MaxUint64)%N →
  (∀ pid, pid ∈ BlockedBy q l ↔ ∃ h', h' ∈ pending q ∧ blocks l pid h') ∧
  (canDeliver (HSentVC h) (From (Msg h)) l = false ↔
     ((HSentVC h).[From (Msg h)] <= l.[From (Msg h)])%N ∨
     ∃ pid, blocks l pid h ∧ pid ∈ BlockedBy q l).
Proof.
  intros Hh Hmax. split; [apply BlockedBy_elem|].
  rewrite <- not_true_iff_false, canDeliver_spec. split.
  - intros Hno.
    destruct (decide ((HSentVC h).[From (Msg h)] <= l.[From (Msg h)])%N) as [|Hst]; [by left|right].
    assert (∃ pid, blocks l pid h) as [pid Hb]; [|exists pid; rewrite BlockedBy_elem; eauto].
    destruct (decide (u64_succ l.[From (Msg h)] < (HSentVC h).[From (Msg h)])%N) as [Hg|Hg].
    { exists (From (Msg h)). unfold blocks. by rewrite decide_True. }
    rewrite u64_succ_small in Hno, Hg by done.
    destruct (deps_ok (range (HSentVC h)) (From (Msg h)) l) eqn:Ed.
    + exfalso. apply Hno. split; [lia|]. intros k Hk. unfold mget at 1.
      destruct (HSentVC h !! k) eqn:Ek; simpl; [|lia].
      by eapply (proj1 (deps_ok_spec _ _ _) Ed); [apply elem_of_range|].
    + apply deps_ok_false in Ed as (k & v & Hin%elem_of_range & Hk & Hlt).
      exists k. unfold blocks. rewrite decide_False by done. unfold mget at 2. by rewrite Hin.
  - rewrite u64_succ_small by done. intros [Hle|(pid & Hb & _)] [E Hall]; [lia|].
    unfold blocks in Hb. case_decide as Ed.
    + subst pid. rewrite u64_succ_small in Hb by done. lia.
    + specialize (Hall _ Ed). lia.
Qed.

Lemma BlockedBy_explains_witness :
  let r := canonical_range in
  let m3 := test_msg "B" (<["B" := 1%N]> {["A" := 3%N]}) in
  canDeliver (HSentVC m3) "B" ∅ = false ∧ "A" ∈ BlockedBy {| pending := [m3] |} ∅.
Proof.
  intros r m3. split; [vm_compute; reflexivity|].
  assert (m3 ∈ pending {| pending := [m3] |}) as Hin by (simpl; set_solver).
  apply (BlockedBy_explains {| pending := [m3] |} ∅ m3 Hin); [vm_compute; reflexivity|].
  exists m3. split; [done|]. vm_compute. reflexivity.
Defined.
