(* ===== verification/Process.v ===== *)
(** * Processes (src/internal/process/process.go)

    A process keeps a clock of one of three kinds, stamps what it sends,
    updates its clock on what it receives and reports each event on the bus.
    In causal delivery mode arriving messages go through the hold-back queue.
    The file models every method as a function on the process and on the
    [World] it shares with the others, and the interleavings of the process's
    goroutine with calls from outside as a step relation. *)
From stdpp Require Import gmap strings list pretty relations.
From S2P Require Import Prelude Lamport Matrix Events VClock HoldBack.

(** ** Data *)

(** [type ClockType string], [type DeliveryMode string],
    [type ProcessStatus string] and their constants. *)
Definition ClockLamport : string := "lamport".
Definition ClockVector : string := "vector".
Definition ClockMatrix : string := "matrix".

Definition ImmediateDelivery : string := "immediate".
Definition CausalDelivery : string := "causal".
Definition TotalOrderDelivery : string := "total_order".

Definition StatusRunning : string := "running".
Definition StatusSnapshotting : string := "snapshotting".
Definition StatusDead : string := "dead".

(** [type ProcessConfig struct], [type ProcessState struct],
    [type Process struct].  A nil clock is [None]; [inbound] is the buffer of
    the channel of that name, [cancelled] tells whether [ctx] is done. *)
Record ProcessConfig := {
  cfgID : string;
  cfgClockType : string;
  cfgDeliveryMode : string;
  cfgPeers : list string;
  cfgAllPIDs : list string
}.

Record ProcessState := {
  psID : string;
  psClockType : string;
  psDelivery : string;
  psLamportClock : N;
  psVectorClock : option VectorClock;
  psMatrixClock : option MatrixClock;
  psPeers : list string;
  psEventCount : N;
  psHeldMessages : nat;
  psStatus : string
}.

Definition GetVectorClock (ps : ProcessState) : option VectorClock := psVectorClock ps.

Record Process := {
  cfg : ProcessConfig;
  lamportClock : option LamportClock;
  vectorClock : option VectorClock;
  matrixClock : option MatrixClock;
  status : string;
  msgSeq : N;
  localSeq : N;
  inbound : list Message;
  hbq : HoldBackQueue;
  cancelled : bool
}.

Definition inboundCap : nat := N.to_nat 256.
Lemma inboundCap_pos : 0 < inboundCap.
Proof. unfold inboundCap. lia. Qed.
#[global] Opaque inboundCap.

(** The network as a process sees it: the [Transport] interface over a state
    [X], whose [Send] may fail with a message. *)
Class Transport (X : Type) :=
  xport_Send : X → string → string → Message → X * option string.

(** What the processes share: the bus, the network, and how often the wall
    clock has been read.  [trail] is a ghost: every event handed to
    [Publish], in order. *)
Record World (X : Type) := { bus : EventBus; net : X; reads : nat; trail : list Event }.
Arguments bus {X}. Arguments net {X}. Arguments reads {X}. Arguments trail {X}.

Definition publish_event {X} (w : World X) (b : EventBus) (e : Event) : World X :=
  {| bus := Publish b e; net := net w; reads := reads w; trail := trail w ++ [e] |}.
Definition set_net {X} (w : World X) (n : X) : World X :=
  {| bus := bus w; net := n; reads := reads w; trail := trail w |}.

(** Field updates. *)
Definition set_clocks (p : Process) l v m := {| cfg := cfg p; lamportClock := l; vectorClock := v;
  matrixClock := m; status := status p; msgSeq := msgSeq p; localSeq := localSeq p;
  inbound := inbound p; hbq := hbq p; cancelled := cancelled p |}.

Definition set_seqs (p : Process) ms ls := {| cfg := cfg p; lamportClock := lamportClock p;
  vectorClock := vectorClock p; matrixClock := matrixClock p; status := status p; msgSeq := ms;
  localSeq := ls; inbound := inbound p; hbq := hbq p; cancelled := cancelled p |}.

Definition set_queues (p : Process) i q := {| cfg := cfg p; lamportClock := lamportClock p;
  vectorClock := vectorClock p; matrixClock := matrixClock p; status := status p;
  msgSeq := msgSeq p; localSeq := localSeq p; inbound := i; hbq := q; cancelled := cancelled p |}.

Definition set_status (p : Process) c st cn := {| cfg := c; lamportClock := lamportClock p;
  vectorClock := vectorClock p; matrixClock := matrixClock p; status := st; msgSeq := msgSeq p;
  localSeq := localSeq p; inbound := inbound p; hbq := hbq p; cancelled := cn |}.

Definition set_vector (p : Process) v := set_clocks p (lamportClock p) v (matrixClock p).

Definition set_peers (c : ProcessConfig) peers := {| cfgID := cfgID c;
  cfgClockType := cfgClockType c; cfgDeliveryMode := cfgDeliveryMode c; cfgPeers := peers;
  cfgAllPIDs := cfgAllPIDs c |}.

Definition set_mode (c : ProcessConfig) mode := {| cfgID := cfgID c;
  cfgClockType := cfgClockType c; cfgDeliveryMode := mode; cfgPeers := cfgPeers c;
  cfgAllPIDs := cfgAllPIDs c |}.

(** [const maxInt = int(^uint(0) >> 1)], on a 64-bit machine. *)
Definition maxInt : N := 9223372036854775807.

Definition clampUint64ToInt (v : N) : N := if (maxInt <? v)%N then maxInt else v.

(** [fmt.Sprintf("%s-e%d", id, seq)] and [fmt.Sprintf("%s-m%d", id, seq)]. *)
Definition event_id (id : string) (seq : N) : string := id +:+ "-e" +:+ pretty seq.
Definition message_id (id : string) (seq : N) : string := id +:+ "-m" +:+ pretty seq.

(** ** Operations *)
Section ops.
Context `{MapRange} (now : nat → Z) {X : Type} `{Transport X}.

(** [time.Now()]: the [n]-th reading of the wall clock is [now n]. *)
Definition time_Now (w : World X) : World X * Z :=
  ({| bus := bus w; net := net w; reads := S (reads w); trail := trail w |}, now (reads w)).

Definition New (c : ProcessConfig) : Process :=
  {| cfg := c;
     lamportClock := if bool_decide (cfgClockType c = ClockLamport)
                     then Some (Lamport.New (cfgID c)) else None;
     vectorClock := if bool_decide (cfgClockType c = ClockVector)
                    then Some (VClock.New (cfgAllPIDs c)) else None;
     matrixClock := if bool_decide (cfgClockType c = ClockMatrix)
                    then Some (Matrix.New (cfgAllPIDs c)) else None;
     status := StatusRunning; msgSeq := 0; localSeq := 0; inbound := [];
     hbq := {| pending := [] |}; cancelled := false |}.

(** [emitEventLocked]; the copies [Copy] and [DeepCopy] make are values. *)
Definition emitEventLocked (pw : Process * World X) (t : EventType) (msg : option MessagePayload) :
    Process * World X :=
  let '(p, w) := pw in
  let seq := u64_succ (localSeq p) in
  let p := set_seqs p (msgSeq p) seq in
  let '(w, ts) := time_Now w in
  let '(b, gseq) := NextSeq (bus w) in
  let e := {| evID := event_id (cfgID (cfg p)) seq; evType := t; evProcessID := cfgID (cfg p);
              evTimestamp := ts; evLocalSeq := seq; evGlobalSeq := gseq;
              evLamportClock := Lamport.Value <$> lamportClock p;
              evVectorClock := VClock.Copy <$> vectorClock p;
              evMatrixClock := Matrix.DeepCopy <$> matrixClock p;
              evMessage := msg; evSnapshot := None; evConflict := None; evNarration := "" |} in
  (p, publish_event w b e).

Definition emitEvent (pw : Process * World X) (t : EventType) (msg : option MessagePayload) :
    Process * World X := emitEventLocked pw t msg.

Definition Start (p : Process) (w : World X) : Process * World X :=
  emitEvent (p, w) EvtProcessSpawned None.

Definition Stop (p : Process) (w : World X) : Process * World X :=
  let p := set_status p (cfg p) StatusDead true in
  emitEvent (p, w) EvtProcessKilled None.

(** The blocking send of [Deliver]: [None] while it blocks.  When the context
    is done the [select] may drop the message. *)
Definition Deliver (p : Process) (m : Message) (drop : bool) : option Process :=
  if cancelled p && drop then Some p
  else if length (inbound p) <? inboundCap then Some (set_queues p (inbound p ++ [m]) (hbq p))
  else if cancelled p then Some p
  else None.

(** [tickClock], [sendClock] and [receiveClock] by the clock type.  The clock
    of the configured type is never nil: [New] creates it. *)
Definition tickClock (p : Process) : Process :=
  let self := cfgID (cfg p) in
  if bool_decide (cfgClockType (cfg p) = ClockLamport) then
    set_clocks p ((λ c, (Lamport.Tick c).1) <$> lamportClock p) (vectorClock p) (matrixClock p)
  else if bool_decide (cfgClockType (cfg p) = ClockVector) then
    set_vector p (Some (VClock.Tick (default ∅ (vectorClock p)) self))
  else if bool_decide (cfgClockType (cfg p) = ClockMatrix) then
    set_clocks p (lamportClock p) (vectorClock p)
      (Some (Matrix.Tick (default ∅ (matrixClock p)) self))
  else p.

Definition sendClock (p : Process) : Process * (N * VectorClock * MatrixClock) :=
  let self := cfgID (cfg p) in
  if bool_decide (cfgClockType (cfg p) = ClockLamport) then
    match lamportClock p with
    | Some c =>
        let '(c, lc) := Lamport.Send c in
        (set_clocks p (Some c) (vectorClock p) (matrixClock p), (lc, ∅, ∅))
    | None => (p, (0%N, ∅, ∅))
    end
  else if bool_decide (cfgClockType (cfg p) = ClockVector) then
    let '(vc, stamp) := VClock.Send (default ∅ (vectorClock p)) self in
    (set_vector p (Some vc), (0%N, stamp, ∅))
  else if bool_decide (cfgClockType (cfg p) = ClockMatrix) then
    let '(mc, stamp) := Matrix.Send (default ∅ (matrixClock p)) self in
    (set_clocks p (lamportClock p) (vectorClock p) (Some mc), (0%N, ∅, stamp))
  else (p, (0%N, ∅, ∅)).

Definition receiveClock (p : Process) (msg : Message) : Process :=
  let self := cfgID (cfg p) in
  if bool_decide (cfgClockType (cfg p) = ClockLamport) then
    set_clocks p ((λ c, (Lamport.Receive c (SentLC msg)).1) <$> lamportClock p)
      (vectorClock p) (matrixClock p)
  else if bool_decide (cfgClockType (cfg p) = ClockVector) then
    set_vector p (Some (VClock.Receive (default ∅ (vectorClock p)) (SentVC msg) self))
  else if bool_decide (cfgClockType (cfg p) = ClockMatrix) then
    set_clocks p (lamportClock p) (vectorClock p)
      (Some (Matrix.Receive (default ∅ (matrixClock p)) (SentMatrix msg) self (From msg)))
  else p.

Definition InternalEvent (p : Process) (w : World X) : Process * World X :=
  emitEventLocked (tickClock p, w) EvtInternalEvent None.

(** The payload of an event about a message. *)
Definition payload (m : Message) (data : any) (vc : VectorClock) (lc : N) : MessagePayload :=
  {| mpID := ID m; mpFrom := From m; mpTo := To m; mpData := data; mpSentVC := vc; mpSentLC := lc;
     mpIsMarker := false; mpSnapshotID := "" |}.

(** The part of [Send] under the process's lock: it makes the message. *)
Definition prepare (p : Process) (w : World X) (to : string) (data : any) :
    Process * World X * Message :=
  let seq := u64_succ (msgSeq p) in
  let p := set_seqs p seq (localSeq p) in
  let msgID := message_id (cfgID (cfg p)) seq in
  let '(p, (lc, vc, mc)) := sendClock p in
  let '(w, ts) := time_Now w in
  let msg := {| ID := msgID; From := cfgID (cfg p); To := to; Data := data; SentVC := vc;
                SentMatrix := mc; SentLC := lc; SentAt := ts; IsMarker := false;
                SnapshotID := "" |} in
  (emitEventLocked (p, w) EvtSend (Some (payload msg data vc lc)), msg).

(** The rest of [Send]: handing the message to the transport. *)
Definition transmit (w : World X) (m : Message) : World X * option string :=
  let '(n, err) := xport_Send (net w) (From m) (To m) m in
  (set_net w n, err).

Definition Send (p : Process) (w : World X) (to : string) (data : any) :
    Process * World X * option string :=
  let '(p, w, msg) := prepare p w to data in
  let '(w, err) := transmit w msg in
  (p, w, err).

Fixpoint broadcast_loop (peers : list string) (p : Process) (w : World X) (data : any) :
    Process * World X * option string :=
  match peers with
  | [] => (p, w, None)
  | peer :: peers =>
      match Send p w peer data with
      | (p, w, Some err) => (p, w, Some ("broadcast to " +:+ peer +:+ ": " +:+ err))
      | (p, w, None) => broadcast_loop peers p w data
      end
  end.

Definition Broadcast (p : Process) (w : World X) (data : any) : Process * World X * option string :=
  broadcast_loop (cfgPeers (cfg p)) p w data.

Definition snapshotLocked (p : Process) : ProcessState :=
  {| psID := cfgID (cfg p); psClockType := cfgClockType (cfg p);
     psDelivery := cfgDeliveryMode (cfg p);
     psLamportClock := match lamportClock p with Some c => Lamport.Value c | None => 0 end;
     psVectorClock := VClock.Copy <$> vectorClock p;
     psMatrixClock := Matrix.DeepCopy <$> matrixClock p;
     psPeers := cfgPeers (cfg p); psEventCount := clampUint64ToInt (localSeq p);
     psHeldMessages := Len (hbq p); psStatus := status p |}.

Definition Snapshot (p : Process) : ProcessState := snapshotLocked p.

Definition AddPeer (p : Process) (pid : string) : Process :=
  if existsb (String.eqb pid) (cfgPeers (cfg p)) then p
  else set_status p (set_peers (cfg p) (cfgPeers (cfg p) ++ [pid])) (status p) (cancelled p).

Definition SetDeliveryMode (p : Process) (mode : string) : Process :=
  set_status p (set_mode (cfg p) mode) (status p) (cancelled p).

Definition deliverImmediate (p : Process) (w : World X) (msg : Message) : Process * World X :=
  let p := receiveClock p msg in
  emitEventLocked (p, w) EvtReceive (Some (payload msg (Data msg) (SentVC msg) (SentLC msg))).

(** The second critical section of [deliverCausal]: the message is delivered
    and the queue scanned.  It returns the messages released. *)
Definition causal_deliver (p : Process) (w : World X) (msg : Message) :
    Process * World X * list Message :=
  let self := cfgID (cfg p) in
  let p := set_vector p (Some (VClock.Receive (default ∅ (vectorClock p)) (SentVC msg) self)) in
  let '(p, w) := emitEventLocked (p, w) EvtReceive
                   (Some (payload msg (Data msg) (SentVC msg) 0)) in
  let '(delivered, newVC, q) :=
    TryDeliver (hbq p) (VClock.Copy (default ∅ (vectorClock p))) self in
  let p := set_queues (set_vector p (Some newVC)) (inbound p) q in
  (p, w, delivered).

(** The loop that reports the released messages. *)
Definition emit_delivered (pw : Process * World X) (dm : Message) : Process * World X :=
  emitEvent pw EvtDelivered (Some (payload dm (Data dm) ∅ 0)).

(** The branch of [deliverCausal] that holds the message. *)
Definition causal_hold (p : Process) (w : World X) (msg : Message) : Process * World X :=
  let p := set_queues p (inbound p) (Enqueue (hbq p) msg (SentVC msg)) in
  emitEvent (p, w) EvtHeld (Some (payload msg ANil (SentVC msg) 0)).

Definition deliverCausal (p : Process) (w : World X) (msg : Message) : Process * World X :=
  let localVC := VClock.Copy (default ∅ (vectorClock p)) in
  if canDeliver (SentVC msg) (From msg) localVC then
    let '(p, w, delivered) := causal_deliver p w msg in
    foldl emit_delivered (p, w) delivered
  else causal_hold p w msg.

(** [handleMessage]; [OnMarker], when set, acts on the network's side. *)
Definition handleMessage (OnMarker : option (string → string → ProcessState → World X → World X))
    (p : Process) (w : World X) (msg : Message) : Process * World X :=
  if IsMarker msg then
    let w := match OnMarker with
             | Some f => f (From msg) (SnapshotID msg) (snapshotLocked p) w
             | None => w
             end in
    emitEvent (p, w) EvtMarkerReceived
      (Some {| mpID := ID msg; mpFrom := From msg; mpTo := To msg; mpData := ANil; mpSentVC := ∅;
               mpSentLC := 0; mpIsMarker := true; mpSnapshotID := SnapshotID msg |})
  else
    let mode := cfgDeliveryMode (cfg p) in
    if bool_decide (mode = ImmediateDelivery) then deliverImmediate p w msg
    else if bool_decide (mode = CausalDelivery) then deliverCausal p w msg
    else if bool_decide (mode = TotalOrderDelivery) then deliverCausal p w msg
    else deliverImmediate p w msg.
End ops.

(** The clocks do not touch the configuration. *)
Lemma tickClock_cfg `{MapRange} p : cfg (tickClock p) = cfg p.
Proof. unfold tickClock. by repeat case_bool_decide. Qed.

Lemma receiveClock_cfg `{MapRange} p m : cfg (receiveClock p m) = cfg p.
Proof. unfold receiveClock. by repeat case_bool_decide. Qed.

Lemma sendClock_cfg `{MapRange} p : cfg (sendClock p).1 = cfg p.
Proof. unfold sendClock. repeat case_bool_decide; [by destruct (lamportClock p)|done..]. Qed.

(** ** Interleavings

    The process's goroutine takes messages from [inbound] one at a time;
    between its critical sections other goroutines may call the methods of the
    process, and other processes may act on the shared world.  [arrival] says
    which messages the transport may bring. *)
Inductive pc :=
  | Idle
  | Checking (m : Message) (localVC : VectorClock)
  | Reporting (ds : list Message).

Definition held (m : Message) : HeldMessage := {| Msg := m; HSentVC := SentVC m |}.

Section steps.
Context `{MapRange} (now : nat → Z) {X : Type} `{Transport X}.
Context (arrival : Message → Prop)
  (OnMarker : option (string → string → ProcessState → World X → World X)).

Definition causal_mode (p : Process) : Prop :=
  cfgDeliveryMode (cfg p) = CausalDelivery ∨ cfgDeliveryMode (cfg p) = TotalOrderDelivery.

Definition tau : Type := Process * World X * pc.

(** A step and the messages it delivers. *)
Inductive pstep : tau → list Message → tau → Prop :=
  | st_internal p w c p' w' :
      InternalEvent now p w = (p', w') → pstep (p, w, c) [] (p', w', c)
  | st_prepare p w c to data p' w' m :
      prepare now p w to data = (p', w', m) → pstep (p, w, c) [] (p', w', c)
  | st_world p w c w' : pstep (p, w, c) [] (p, w', c)
  | st_arrive p w c m drop p' :
      arrival m → Deliver p m drop = Some p' → pstep (p, w, c) [] (p', w, c)
  | st_add_peer p w c pid : pstep (p, w, c) [] (AddPeer p pid, w, c)
  | st_stop p w c p' w' : Stop now p w = (p', w') → pstep (p, w, c) [] (p', w', c)
  | st_marker p w m q p' w' :
      inbound p = m :: q → IsMarker m = true →
      handleMessage now OnMarker (set_queues p q (hbq p)) w m = (p', w') →
      pstep (p, w, Idle) [] (p', w', Idle)
  | st_take p w m q :
      inbound p = m :: q → IsMarker m = false → causal_mode p →
      pstep (p, w, Idle) [] (set_queues p q (hbq p), w,
        Checking m (VClock.Copy (default ∅ (vectorClock p))))
  | st_deliver p w m localVC p' w' ds :
      canDeliver (SentVC m) (From m) localVC = true →
      causal_deliver now p w m = (p', w', ds) →
      pstep (p, w, Checking m localVC) (m :: ds) (p', w', Reporting ds)
  | st_hold p w m localVC p' w' :
      canDeliver (SentVC m) (From m) localVC = false →
      causal_hold now p w m = (p', w') → pstep (p, w, Checking m localVC) [] (p', w', Idle)
  | st_report p w d ds p' w' :
      emit_delivered now (p, w) d = (p', w') →
      pstep (p, w, Reporting (d :: ds)) [] (p', w', Reporting ds)
  | st_reported p w : pstep (p, w, Reporting []) [] (p, w, Idle).

(** Runs, with everything they deliver in order. *)
Inductive psteps : tau → list Message → tau → Prop :=
  | ps_refl s : psteps s [] s
  | ps_step s1 ds s2 es s3 : psteps s1 ds s2 → pstep s2 es s3 → psteps s1 (ds ++ es) s3.

Lemma psteps_trans s1 ds s2 es s3 :
  psteps s1 ds s2 → psteps s2 es s3 → psteps s1 (ds ++ es) s3.
Proof.
  intros H1 H2. induction H2 as [s|s2 es s3 fs s4 _ IH Hs]; [by rewrite app_nil_r|].
  rewrite (assoc_L (++)). eapply ps_step; eauto.
Qed.

Lemma psteps_one s ds s' : pstep s ds s' → psteps s ds s'.
Proof. intros. change ds with ([] ++ ds). eapply ps_step; [constructor|done]. Qed.

Lemma ps_cons s1 ds s2 es s3 :
  pstep s1 ds s2 → psteps s2 es s3 → psteps s1 (ds ++ es) s3.
Proof. intros. eapply psteps_trans; [by apply psteps_one|done]. Qed.

(** Run without interference, the steps are [handleMessage]. *)
Lemma report_all p w ds :
  psteps (p, w, Reporting ds) []
    ((foldl (emit_delivered now) (p, w) ds).1, (foldl (emit_delivered now) (p, w) ds).2, Idle).
Proof.
  revert p w. induction ds as [|d ds IH]; intros p w; simpl; [apply psteps_one, st_reported|].
  destruct (emit_delivered now (p, w) d) as [p' w'] eqn:E.
  change (@nil Message) with (@nil Message ++ []). eapply psteps_trans; [|apply IH].
  by apply psteps_one, st_report.
Qed.

(** What [handleMessage] delivers. *)
Definition handled_log (p : Process) (w : World X) (m : Message) : list Message :=
  if IsMarker m then []
  else if canDeliver (SentVC m) (From m) (VClock.Copy (default ∅ (vectorClock p)))
  then m :: (causal_deliver now p w m).2 else [].

Lemma handleMessage_steps p w m q p' w' :
  inbound p = m :: q → causal_mode p →
  handleMessage now OnMarker (set_queues p q (hbq p)) w m = (p', w') →
  psteps (p, w, Idle) (handled_log (set_queues p q (hbq p)) w m) (p', w', Idle).
Proof.
  intros Hin Hmode E. unfold handled_log. destruct (IsMarker m) eqn:Em.
  { by eapply psteps_one, st_marker. }
  assert (deliverCausal now (set_queues p q (hbq p)) w m = (p', w')) as Ed.
  { revert E. unfold handleMessage. rewrite Em. simpl. by destruct Hmode as [-> | ->]. }
  clear E. unfold deliverCausal in Ed.
  pose proof (psteps_one _ _ _ (st_take p w m q Hin Em Hmode)) as Ht.
  simpl in Ed |- *. destruct (canDeliver _ _ _) eqn:Ec.
  - destruct (causal_deliver _ _ _ _) as [[p1 w1] ds] eqn:E1. simpl.
    rewrite <- (app_nil_r (m :: ds)). change (m :: ds) with ([] ++ m :: ds).
    rewrite <- (assoc_L (++)). eapply psteps_trans; [exact Ht|].
    eapply psteps_trans; [by eapply psteps_one, st_deliver|].
    pose proof (report_all p1 w1 ds) as Hr. by rewrite Ed in Hr.
  - rewrite <- (app_nil_r []). eapply psteps_trans; [exact Ht|]. by eapply psteps_one, st_hold.
Qed.

(** Messages that arrive and are handled one after the other. *)
Definition arrive_all (ms : list Message) (pwl : Process * World X * list Message) :
    Process * World X * list Message :=
  foldl (λ pwl m, let '(p, w, log) := pwl in
    let '(p', w') := handleMessage now OnMarker p w m in
    (p', w', log ++ handled_log p w m)) pwl ms.

(** A process with an empty queue that can run on. *)
Definition ready (p : Process) : Prop := causal_mode p ∧ inbound p = [].

Lemma emit_all_ready (pw : Process * World X) ds : ready pw.1 → ready (foldl (emit_delivered now) pw ds).1.
Proof.
  revert pw. induction ds as [|d ds IH]; intros [p w] Hr; [done|]. apply IH. exact Hr.
Qed.

Lemma handleMessage_ready p w m : ready p → ready (handleMessage now OnMarker p w m).1.
Proof.
  intros Hr. unfold handleMessage. destruct (IsMarker m); [exact Hr|].
  assert (ready (deliverCausal now p w m).1) as Hc.
  { unfold deliverCausal. destruct (canDeliver _ _ _); [|exact Hr].
    unfold causal_deliver. simpl. destruct (TryDeliver _ _ _) as [[ds v] q].
    apply emit_all_ready. exact Hr. }
  destruct Hr as [[E|E] _]; by rewrite E.
Qed.

Lemma arrive_all_steps ms p w log p0 w0 :
  (∀ m, m ∈ ms → arrival m) → ready p →
  psteps (p0, w0, Idle) log (p, w, Idle) →
  let '(p', w', log') := arrive_all ms (p, w, log) in
  psteps (p0, w0, Idle) log' (p', w', Idle).
Proof.
  revert p w log. induction ms as [|m ms IH]; intros p w log Hms Hr Hs; [done|]. simpl.
  pose proof (handleMessage_ready p w m Hr) as Hr'.
  destruct (handleMessage now OnMarker p w m) as [p' w'] eqn:E.
  apply IH; [set_solver|done|]. destruct Hr as [Hm Hin].
  eapply psteps_trans; [done|]. change (handled_log p w m) with ([] ++ handled_log p w m).
  set (p1 := set_queues p [m] (hbq p)). assert (p = set_queues p1 [] (hbq p1)) as Ep 
    by (destruct p; simpl in *; by subst).
  eapply ps_cons.
  - apply (st_arrive p w Idle m false p1); [set_solver|].
    unfold Deliver. rewrite Hin, andb_false_r. simpl.
    rewrite (proj2 (Nat.ltb_lt 0 inboundCap)) by apply inboundCap_pos. done.
  - pose proof (handleMessage_steps p1 w m [] p' w' eq_refl Hm) as Hh.
    rewrite <- Ep in Hh. by apply Hh.
Qed.
End steps.

(** ** What the operations leave alone *)
Section frame.
Context `{MapRange} (now : nat → Z) {X : Type} `{Transport X}.

(** The parts of a process that matter to causal delivery. *)
Definition same_causal (p p' : Process) : Prop :=
  cfgID (cfg p') = cfgID (cfg p) ∧ vectorClock p' = vectorClock p ∧
  inbound p' = inbound p ∧ hbq p' = hbq p.

Lemma emit_same pw t msg p' w' :
  emitEventLocked (X:=X) now pw t msg = (p', w') → same_causal pw.1 p'.
Proof. destruct pw. intros [= <- _]. done. Qed.

(** [tickClock] and [sendClock] either tick the vector clock or leave it. *)
Definition ticked (p p' : Process) : Prop :=
  cfgID (cfg p') = cfgID (cfg p) ∧ inbound p' = inbound p ∧ hbq p' = hbq p ∧
  (vectorClock p' = vectorClock p ∨
   vectorClock p' = Some (VClock.Tick (default ∅ (vectorClock p)) (cfgID (cfg p)))).

Lemma tickClock_ticked p : ticked p (tickClock p).
Proof. unfold tickClock. repeat case_bool_decide; split_and!; simpl; auto. Qed.

Lemma sendClock_ticked p : ticked p (sendClock p).1.
Proof.
  unfold sendClock. repeat case_bool_decide; simpl; [destruct (lamportClock p)|..];
    split_and!; simpl; auto.
Qed.

Lemma InternalEvent_ticked p w p' w' :
  InternalEvent (X:=X) now p w = (p', w') → ticked p p'.
Proof.
  unfold InternalEvent. intros E. apply emit_same in E as (E1 & E2 & E3 & E4). unfold ticked.
  simpl in *. rewrite E1, E2, E3, E4. apply tickClock_ticked.
Qed.

Lemma prepare_ticked p w to data p' w' m :
  prepare (X:=X) now p w to data = (p', w', m) → ticked p p'.
Proof.
  unfold prepare. pose proof (sendClock_ticked (set_seqs p (u64_succ (msgSeq p)) (localSeq p))) as Ht.
  destruct (sendClock _) as [p1 [[lc vc] mc]]. simpl in Ht. intros [= <- _ _].
  exact Ht.
Qed.
Lemma same_ticked p p' : same_causal p p' → ticked p p'.
Proof. intros (? & ? & ? & ?). split_and!; auto. Qed.

Lemma AddPeer_ticked p pid : ticked p (AddPeer p pid).
Proof. unfold AddPeer. case_match; split_and!; auto. Qed.

Lemma Stop_ticked p w p' w' : Stop (X:=X) now p w = (p', w') → ticked p p'.
Proof. unfold Stop, emitEvent. intros E%emit_same. by apply same_ticked. Qed.

Lemma marker_ticked OnMarker p w m p' w' :
  IsMarker m = true → handleMessage (X:=X) now OnMarker p w m = (p', w') → ticked p p'.
Proof. unfold handleMessage. intros ->. intros E%emit_same. by apply same_ticked. Qed.

Lemma causal_hold_ticked p w m p' w' :
  causal_hold (X:=X) now p w m = (p', w') →
  ticked (set_queues p (inbound p) (Enqueue (hbq p) m (SentVC m))) p'.
Proof. unfold causal_hold, emitEvent. intros E%emit_same. by apply same_ticked. Qed.

Lemma emit_delivered_ticked p w d p' w' :
  emit_delivered (X:=X) now (p, w) d = (p', w') → ticked p p'.
Proof. unfold emit_delivered, emitEvent. intros E%emit_same. by apply same_ticked. Qed.

(** [Deliver] appends to the queue at most. *)
Lemma Deliver_inbound p m drop p' :
  Deliver p m drop = Some p' →
  ∃ i, p' = set_queues p i (hbq p) ∧ ∀ x, x ∈ i → x ∈ inbound p ∨ x = m.
Proof.
  unfold Deliver. repeat case_match; intros [= <-];
    first [by exists (inbound p); destruct p; auto | exists (inbound p ++ [m]); set_solver].
Qed.
End frame.

(** ** Causal delivery *)
Section causal.
Context `{MapRange} (now : nat → Z) {X : Type} `{Transport X}.
Context (arrival : Message → Prop)
  (OnMarker : option (string → string → ProcessState → World X → World X)).
Context (self : string).

(** Messages come from other processes and carry their sender's counter. *)
Hypothesis arrival_ok : ∀ m, arrival m → IsMarker m = false →
  From m ≠ self ∧ (SentVC m).[From m] ≠ 0%N.

Definition vc_of (p : Process) : VectorClock := default ∅ (vectorClock p).

Definition waiting (s : tau (X:=X)) : list Message :=
  match s.2 with Checking m _ => [m] | _ => [] end.

(** The invariant of the runs of a process: its vector clock is the result of
    a run of deliveries and ticks, everything inside it has arrived, and the
    clock a message is being checked against differs at most at [self]. *)
Record causal_inv (s0 : tau (X:=X)) (ds : list Message) (s : tau (X:=X)) : Prop := {
  ci_id : cfgID (cfg s.1.1) = self;
  ci_run : local_run self (vc_of s0.1.1) (held <$> ds) (vc_of s.1.1);
  ci_inbound : ∀ m, m ∈ inbound s.1.1 → arrival m;
  ci_waiting : ∀ m, m ∈ waiting s → arrival m ∧ IsMarker m = false;
  ci_pending : ∀ h, h ∈ pending (hbq s.1.1) → h = held (Msg h) ∧ arrival (Msg h) ∧
    IsMarker (Msg h) = false;
  ci_log : ∀ m, m ∈ ds → arrival m ∧ IsMarker m = false;
  ci_local : ∀ m l k, s.2 = Checking m l → k ≠ self → l.[k] = (vc_of s.1.1).[k]
}.

Lemma local_run_snoc_tick vc ds vc' :
  local_run self vc ds vc' → local_run self vc ds (VClock.Tick vc' self).
Proof.
  intros Hr. rewrite <- (app_nil_r ds). eapply local_run_app; [done|].
  eapply lr_tick; [constructor|constructor].
Qed.

Lemma causal_inv_ticked s0 ds p w c p' w' :
  ticked p p' → causal_inv s0 ds (p, w, c) → causal_inv s0 ds (p', w', c).
Proof.
  intros (E1 & E2 & E3 & Ev) [Hid Hr Hin Hw Hp Hl Hc]. simpl in *.
  split; simpl; rewrite ?E1, ?E2, ?E3; try done; unfold vc_of in *.
  - destruct Ev as [-> | ->]; [done|]. simpl. rewrite Hid. by apply local_run_snoc_tick.
  - intros m l k Ec Hk. rewrite (Hc m l k Ec Hk).
    destruct Ev as [-> | ->]; [done|]. simpl. rewrite Tick_get, decide_False; [done|congruence].
Qed.

Lemma held_arrival m : arrival m → IsMarker m = false → stamped (held m) ∧ From m ≠ self.
Proof. intros Ha Hm. by destruct (arrival_ok m Ha Hm). Qed.

Lemma causal_inv_deliver s0 ds p w m l p' w' ms :
  wf64 (vc_of s0.1.1) →
  canDeliver (SentVC m) (From m) l = true →
  causal_deliver now p w m = (p', w', ms) →
  causal_inv s0 ds (p, w, Checking m l) →
  causal_inv s0 (ds ++ m :: ms) (p', w', Reporting ms).
Proof.
  intros Hw0 [Hc1 Hc2]%canDeliver_spec E [Hid Hr Hin Hw Hp Hl Hc]. simpl in *.
  destruct (Hw m (list_elem_of_here _ _)) as [Ha Hm].
  destruct (held_arrival m Ha Hm) as [Hst Hne].
  set (vc1 := VClock.Receive (vc_of p) (SentVC m) self).
  assert (local_step self (vc_of p) (Some (held m)) vc1) as Hstep.
  { apply (ls_deliver self (vc_of p) (held m)); [done|simpl|simpl].
    - by rewrite <- (Hc m l).
    - intros k Hk Hks. rewrite <- (Hc m l) by done. by apply Hc2. }
  unfold causal_deliver in E. simpl in E. fold (vc_of p) in E. rewrite Hid in E.
  fold vc1 in E. rewrite Copy_id in E.
  destruct (TryDeliver (hbq p) vc1 self) as [[ms' vc2] q2] eqn:Et.
  apply TryDeliver_spec in Et as (hs & Hms & Hperm & Hrel & _).
  injection E as <- _ <-. subst ms'.
  assert (∀ h, h ∈ hs ++ pending q2 → h ∈ pending (hbq p)) as Hsub.
  { intros h Hh. by rewrite <- Hperm. }
  assert (Forall stamped hs) as Hsts.
  { apply Forall_forall. intros h Hh. destruct (Hp h) as (-> & ? & ?); [apply Hsub; set_solver|].
    by apply held_arrival. }
  assert (held <$> (Msg <$> hs) = hs) as Eh.
  { clear - Hp Hsub. induction hs as [|h hs IH]; [done|]. simpl. f_equal.
    - symmetry. apply Hp, Hsub. set_solver.
    - apply IH. intros h' Hh'. apply Hsub. set_solver. }
  split; simpl; try done.
  - rewrite fmap_app, fmap_cons, Eh. eapply local_run_app; [done|].
    eapply lr_deliver; [done|]. apply releases_run; [done| |done].
    eapply local_step_wf; [done|]. by eapply local_run_wf.
  - intros m' Hm'. by apply elem_of_nil in Hm'.
  - intros h Hh. apply Hp, Hsub. set_solver.
  - intros m'. rewrite elem_of_app, elem_of_cons, list_elem_of_fmap.
    intros [?|[->|(h & -> & Hh)]]; [by apply Hl|done|]. apply (Hp h), Hsub. set_solver.
Qed.

Lemma causal_inv_step s0 ds s es s' :
  wf64 (vc_of s0.1.1) →
  causal_inv s0 ds s → pstep now arrival OnMarker s es s' → causal_inv s0 (ds ++ es) s'.
Proof.
  intros Hw0 Hi Hs. destruct Hs; rewrite ?app_nil_r.
  - eauto using causal_inv_ticked, InternalEvent_ticked.
  - eauto using causal_inv_ticked, prepare_ticked.
  - by destruct Hi.
  - rename select (Deliver _ _ _ = _) into Hd. apply Deliver_inbound in Hd as (i & -> & Hi').
    destruct Hi as [Hid Hr Hin Hw Hp Hl Hc]. split; simpl in *; try done.
    intros x [?| ->]%Hi'; auto.
  - eapply (causal_inv_ticked _ _ _ w); [apply AddPeer_ticked|done].
  - eapply (causal_inv_ticked _ _ _ w); [by eapply Stop_ticked|done].
  - eapply (causal_inv_ticked _ _ _ w); [by eapply marker_ticked|].
    rename select (inbound _ = _) into Hq.
    destruct Hi as [Hid Hr Hin Hw Hp Hl Hc]. split; simpl in *; try done.
    intros x Hx. apply Hin. rewrite Hq. set_solver.
  - rename select (inbound _ = _) into Hq.
    destruct Hi as [Hid Hr Hin Hw Hp Hl Hc]. split; simpl in *; try done.
    + intros x Hx. apply Hin. rewrite Hq. set_solver.
    + intros x ->%list_elem_of_singleton. split; [apply Hin; rewrite Hq; set_solver|done].
    + intros m' l k [= <- <-] _. by rewrite Copy_id.
  - by eapply causal_inv_deliver.
  - eapply (causal_inv_ticked _ _ _ w); [by eapply causal_hold_ticked|].
    destruct Hi as [Hid Hr Hin Hw Hp Hl Hc]. split; simpl in *; try done.
    + intros x Hx. by apply elem_of_nil in Hx.
    + intros h [?| ->%list_elem_of_singleton]%elem_of_app; [by apply Hp|]. simpl.
      split; [done|]. apply Hw. set_solver.
  - eapply (causal_inv_ticked _ _ _ w); [by eapply emit_delivered_ticked|].
    destruct Hi as [Hid Hr Hin Hw Hp Hl Hc]. by split.
  - destruct Hi as [Hid Hr Hin Hw Hp Hl Hc]. by split.
Qed.

(** A process as [New] makes it. *)
Definition fresh (s : tau (X:=X)) : Prop := ∃ c w, s = (New c, w, Idle) ∧ cfgID c = self.

Lemma fresh_clock (s : tau (X:=X)) k : fresh s → (vc_of s.1.1).[k] = 0%N.
Proof.
  intros (c & w & -> & _). unfold vc_of. simpl. case_bool_decide; [|done]. apply New_get.
Qed.

Lemma causal_inv_run s0 ds s :
  fresh s0 → psteps now arrival OnMarker s0 ds s → causal_inv s0 ds s.
Proof.
  intros Hf Hr. assert (wf64 (vc_of s0.1.1)) as Hw.
  { intros k. rewrite fresh_clock by done. by vm_compute. }
  induction Hr as [s|s0 ds s1 es s2 _ IH Hs]; [|eauto using causal_inv_step].
  destruct Hf as (c & w & -> & Hid). split; simpl; try done.
  - constructor.
  - intros ? []%elem_of_nil.
  - intros ? []%elem_of_nil.
  - intros ? []%elem_of_nil.
  - intros ? []%elem_of_nil.
Qed.
End causal.

(** ** Messages without a stamp *)
Section unstamped.
Context `{MapRange} (now : nat → Z) {X : Type} `{Transport X}.
Context (arrival : Message → Prop)
  (OnMarker : option (string → string → ProcessState → World X → World X)).
Context (self : string).
Hypothesis arrival_plain : ∀ m, arrival m → IsMarker m = false → From m ≠ self ∧ SentVC m = ∅.

(** Nothing but the process's own counter has ever moved. *)
Definition only_own (vc : VectorClock) : Prop := ∀ k, k ≠ self → vc.[k] = 0%N.

Record plain_inv (s : tau (X:=X)) : Prop := {
  pl_id : cfgID (cfg s.1.1) = self;
  pl_clock : only_own (vc_of s.1.1);
  pl_inbound : ∀ m, m ∈ inbound s.1.1 → arrival m;
  pl_checking : ∀ m l, s.2 = Checking m l → arrival m ∧ IsMarker m = false ∧ only_own l
}.

Lemma plain_inv_ticked p w c p' w' :
  ticked p p' → plain_inv (p, w, c) → plain_inv (p', w', c).
Proof.
  intros (E1 & E2 & _ & Ev) [Hid Hc Hin Hch]. simpl in *.
  split; simpl; rewrite ?E1, ?E2; try done. unfold vc_of in *.
  destruct Ev as [-> | ->]; [done|]. simpl. rewrite Hid. intros k Hk.
  rewrite Tick_get, decide_False by done. by apply Hc.
Qed.

Lemma plain_not_deliverable m l :
  arrival m → IsMarker m = false → only_own l → canDeliver (SentVC m) (From m) l = false.
Proof.
  intros Ha Hm Hl. destruct (arrival_plain m Ha Hm) as [Hne He].
  apply not_true_iff_false. intros [E _]%canDeliver_spec. by rewrite He, Hl in E.
Qed.

Lemma plain_inv_step s es s' :
  plain_inv s → pstep now arrival OnMarker s es s' → es = [] ∧ plain_inv s'.
Proof.
  intros Hi Hs. destruct Hs; (split; [try done|]).
  - eauto using plain_inv_ticked, InternalEvent_ticked.
  - eauto using plain_inv_ticked, prepare_ticked.
  - by destruct Hi.
  - rename select (Deliver _ _ _ = _) into Hd.
    apply Deliver_inbound in Hd as (i & -> & Hi'). destruct Hi. split; simpl in *; try done.
    intros x [?| ->]%Hi'; auto.
  - eapply (plain_inv_ticked _ w); [apply AddPeer_ticked|done].
  - eapply (plain_inv_ticked _ w); [by eapply Stop_ticked|done].
  - eapply (plain_inv_ticked _ w); [by eapply marker_ticked|].
    rename select (inbound _ = _) into Hq. destruct Hi as [? ? Hin ?]. split; simpl in *; try done.
    intros x Hx. apply Hin. rewrite Hq. set_solver.
  - rename select (inbound _ = _) into Hq. destruct Hi as [? ? Hin ?]. split; simpl in *; try done.
    + intros x Hx. apply Hin. rewrite Hq. set_solver.
    + intros m' l [= <- <-]. rewrite Copy_id. split_and!; [|done..].
      apply Hin. rewrite Hq. set_solver.
  - destruct Hi as [? ? ? Hch]. destruct (Hch _ _ eq_refl) as (? & ? & ?).
    by rewrite plain_not_deliverable in *.
  - destruct Hi as [? ? ? Hch]. destruct (Hch _ _ eq_refl) as (? & ? & ?).
    by rewrite plain_not_deliverable in *.
  - eapply (plain_inv_ticked _ w); [by eapply causal_hold_ticked|].
    destruct Hi. by split.
  - eapply (plain_inv_ticked _ w); [by eapply emit_delivered_ticked|]. destruct Hi. by split.
  - destruct Hi. by split.
Qed.
End unstamped.

(** ** A concrete process, to run the model *)

(** A network that records what is sent, and a bus with no history. *)
#[local] Instance recording_net : Transport (list Message) := λ n _ _ m, (n ++ [m], None).

Definition test_bus : EventBus :=
  {| publish := []; subs := ∅; chans := ∅; nextChan := 0; history := []; histIdx := 0;
     histLen := 0; globalSeq := 0; dropCount := 0; dropLogged := 0; logged := []; done := false;
     looping := true |}.

Definition test_world : World (list Message) := 
  {| bus := test_bus; net := []; reads := 0; trail := [] |}.

Definition test_now : nat → Z := Z.of_nat.

Definition test_cfg (id clock mode : string) : ProcessConfig :=
  {| cfgID := id; cfgClockType := clock; cfgDeliveryMode := mode; cfgPeers := [];
     cfgAllPIDs := [id] |}.

Definition vc_msg (from : string) (vc : VectorClock) : Message := Msg (test_msg from vc).

Lemma triple_eta {A B C} (x : A * B * C) : x = (x.1.1, x.1.2, x.2).
Proof. by destruct x as [[] ?]. Qed.

(** The run of a new process at which some messages arrive one by one. *)
Definition test_run `{MapRange} (id : string) (ms : list Message) :
    Process * World (list Message) * list Message :=
  arrive_all test_now None ms (New (test_cfg id ClockVector CausalDelivery), test_world, []).

Definition test_start `{MapRange} (id : string) : tau (X:=list Message) :=
  (New (test_cfg id ClockVector CausalDelivery), test_world, Idle).

Lemma test_start_fresh `{MapRange} id : fresh id (test_start id).
Proof. by eexists _, _. Qed.

Lemma test_run_steps `{MapRange} id ms :
  psteps test_now (λ m, m ∈ ms) None (test_start id) (test_run id ms).2
    ((test_run id ms).1.1, (test_run id ms).1.2, Idle).
Proof.
  pose proof (arrive_all_steps test_now (λ m, m ∈ ms) None ms
    (New (test_cfg id ClockVector CausalDelivery)) test_world []
    (New (test_cfg id ClockVector CausalDelivery)) test_world) as Hs.
  fold (test_run id ms) in Hs. destruct (test_run id ms) as [[p' w'] log]. apply Hs; [done| |constructor].
  split; [by left|done].
Qed.

(** ** Properties *)

(** C8: in causal delivery mode a process delivers in causal order, whatever
    other goroutines do in between: if [m2] is delivered after [m1], then
    [m1]'s stamp had not seen [m2]'s sending, so [m2] neither happened before
    [m1] nor is it [m1] again.  The messages must come from other processes
    and carry their sender's counter. *)
Theorem causal_delivery_order `{MapRange} (now : nat → Z) {X : Type} `{Transport X}
    (arrival : Message → Prop) OnMarker (self : string) (s0 s : tau (X:=X)) (ds : list Message) :
  (∀ m, arrival m → IsMarker m = false → From m ≠ self ∧ (SentVC m).[From m] ≠ 0%N) →
  fresh self s0 → psteps now arrival OnMarker s0 ds s →
  ∀ i j m1 m2, i < j → ds !! i = Some m1 → ds !! j = Some m2 →
    ((SentVC m1).[From m2] < (SentVC m2).[From m2])%N ∧
    Compare (SentVC m2) (SentVC m1) ≠ HappenedBefore ∧
    Compare (SentVC m2) (SentVC m1) ≠ Identical.
Proof.
  intros Ha Hf Hr i j m1 m2 Hij H1 H2.
  pose proof (causal_inv_run now arrival OnMarker self Ha s0 ds s Hf Hr) as Hi.
  assert ((SentVC m1).[From m2] < (SentVC m2).[From m2])%N as Hlt.
  { apply (local_run_order self _ _ _ i j (held m1) (held m2) (ci_run _ _ _ _ _ Hi)).
    - intros k. rewrite (fresh_clock self) by done. by vm_compute.
    - done.
    - by rewrite list_lookup_fmap, H1.
    - by rewrite list_lookup_fmap, H2.
    - simpl. apply Ha; eapply (ci_log _ _ _ _ _ Hi); by eapply list_elem_of_lookup_2. }
  split_and!; [done| |]; intros Hc.
  - apply Compare_HB in Hc as [Hle _]. specialize (Hle (From m2)). lia.
  - apply Compare_ID in Hc. specialize (Hc (From m2)). lia.
Qed.

(** C9: a counter value of [p] that no message brings to a process in causal
    delivery mode is a wall: no message that has seen it, from [p] or from
    anybody else, is ever delivered there. *)
Theorem causal_gap_blocks `{MapRange} (now : nat → Z) {X : Type} `{Transport X}
    (arrival : Message → Prop) OnMarker (self : string) (s0 s : tau (X:=X)) (ds : list Message)
    (p : string) (c : N) :
  (∀ m, arrival m → IsMarker m = false → From m ≠ self ∧ (SentVC m).[From m] ≠ 0%N) →
  fresh self s0 → psteps now arrival OnMarker s0 ds s →
  p ≠ self → (0 < c)%N →
  (∀ m, arrival m → From m = p → (SentVC m).[p] ≠ c) →
  ∀ m, m ∈ ds → ((SentVC m).[p] < c)%N.
Proof.
  intros Ha Hf Hr Hp Hc Hgap m Hm.
  pose proof (causal_inv_run now arrival OnMarker self Ha s0 ds s Hf Hr) as Hi.
  destruct (local_run_gap self _ _ _ p c (ci_run _ _ _ _ _ Hi)) as [_ Hall]; try done.
  - intros k. rewrite (fresh_clock self) by done. by vm_compute.
  - by rewrite (fresh_clock self).
  - intros h (m' & -> & Hm')%list_elem_of_fmap. apply Hgap. by apply (ci_log _ _ _ _ _ Hi).
  - apply (Hall (held m)). by apply list_elem_of_fmap_2.
Qed.

(** a process with a vector clock that sends to [to1] and then to [to2],
    as [Broadcast] does with two peers, makes its second message undeliverable
    at [to2] in causal delivery mode for ever: the counter value between the
    two went to [to1] only. *)
Theorem second_destination_blocked `{MapRange} (now now' : nat → Z) {X : Type} `{Transport X}
    (p p1 p2 : Process) (w w1 w2 : World X) (to1 to2 : string) (d1 d2 : any) (m1 m2 : Message)
    (arrival : Message → Prop) OnMarker (s0 s : tau (X:=X)) (ds : list Message) :
  cfgClockType (cfg p) = ClockVector →
  ((vc_of p).[cfgID (cfg p)] + 1 < MaxUint64)%N →
  prepare now p w to1 d1 = (p1, w1, m1) → prepare now p1 w1 to2 d2 = (p2, w2, m2) →
  to1 ≠ to2 → cfgID (cfg p) ≠ to2 →
  (∀ m, arrival m → IsMarker m = false → From m ≠ to2 ∧ (SentVC m).[From m] ≠ 0%N) →
  (∀ m, arrival m → To m = to2) →
  (∀ m, arrival m → From m = cfgID (cfg p) →
     (SentVC m).[From m] = (SentVC m1).[From m] → m = m1) →
  fresh to2 s0 → psteps now' arrival OnMarker s0 ds s →
  m2 ∉ ds.
Proof.
  intros Hct Hmax E1 E2 Hto Hne Ha Hdest Huniq Hf Hr Hm.
  revert E1 E2. unfold prepare, sendClock. simpl. rewrite Hct. simpl.
  intros [= <- <- <-]. simpl. rewrite Hct. simpl. intros [= <- <- <-].
  set (me := cfgID (cfg p)) in *. fold (vc_of p) in *.
  rewrite !Copy_id in *.
  pose proof (causal_inv_run now' arrival OnMarker to2 Ha s0 ds s Hf Hr) as Hi.
  destruct (local_run_gap to2 _ _ _ me ((vc_of p).[me] + 1)%N (ci_run _ _ _ _ _ Hi)) as [_ Hall].
  - intros k. rewrite (fresh_clock to2) by done. by vm_compute.
  - done.
  - rewrite (fresh_clock to2) by done. lia.
  - intros h (m' & -> & Hm')%list_elem_of_fmap. simpl. intros Hfrom Hcount.
    destruct (ci_log _ _ _ _ _ Hi m' Hm') as [Harr Hmk].
    pose proof (Huniq m' Harr Hfrom) as Hu. simpl in Hu. rewrite Hfrom, Tick_get in Hu.
    rewrite decide_True in Hu by done. rewrite u64_succ_small in Hu by lia.
    specialize (Hu Hcount). apply Hto. specialize (Hdest m' Harr). by rewrite Hu in Hdest.
  - specialize (Hall _ (list_elem_of_fmap_2 held _ _ Hm)). simpl in Hall.
    rewrite !Tick_get, !decide_True in Hall by done.
    rewrite u64_succ_small, u64_succ_small in Hall; [lia|..]; rewrite ?u64_succ_small; lia.
Qed.

(** a process in causal delivery mode whose peers do not stamp messages
    with vector clocks, as with Lamport or matrix clocks, never delivers
    anything: it holds every message for ever. *)
Theorem unstamped_never_delivered `{MapRange} (now : nat → Z) {X : Type} `{Transport X}
    (arrival : Message → Prop) OnMarker (self : string) (s0 s : tau (X:=X)) (ds : list Message) :
  (∀ m, arrival m → IsMarker m = false → From m ≠ self ∧ SentVC m = ∅) →
  fresh self s0 → psteps now arrival OnMarker s0 ds s →
  ds = [].
Proof.
  intros Ha Hf Hr.
  assert (ds = [] ∧ plain_inv arrival self s) as [? _]; [|done].
  induction Hr as [s|s0 ds s1 es s2 _ IH Hs].
  - split; [done|]. pose proof (fresh_clock self s) as Hz. destruct Hf as (c & w & -> & Hid).
    split; simpl; [done| | |done].
    + intros k _. apply Hz. by eexists _, _.
    + by intros m ?%elem_of_nil.
  - destruct (IH Hf) as [-> Hi].
    by eapply (plain_inv_step now arrival OnMarker self Ha) in Hs as [-> ?].
Qed.

Definition two_messages : list Message :=
  [vc_msg "A" {["A" := 2%N]}; vc_msg "A" {["A" := 1%N]}].

Lemma causal_delivery_order_witness :
  let r := canonical_range in
  let log := (test_run "Z" two_messages).2 in
  log = reverse two_messages ∧
  ∀ m1 m2, log !! 0 = Some m1 → log !! 1 = Some m2 →
    Compare (SentVC m2) (SentVC m1) ≠ HappenedBefore.
Proof.
  intros r log. split; [vm_compute; reflexivity|]. intros m1 m2 H1 H2.
  apply (causal_delivery_order test_now (λ m, m ∈ two_messages) None "Z" (test_start "Z")
    ((test_run "Z" two_messages).1.1, (test_run "Z" two_messages).1.2, Idle) log) with (i := 0) (j := 1);
    [|by apply test_start_fresh|by apply test_run_steps|lia|done|done].
  intros m Hm _. unfold two_messages in Hm.
  apply elem_of_cons in Hm as [->|Hm]; [split; by vm_compute|].
  apply list_elem_of_singleton in Hm as ->. split; by vm_compute.
Defined.

(** A process that receives a message and then answers: its own receipt ticks
    its clock, so its first message carries counter 2 and no message carries
    counter 1. *)
Definition answer : Message := vc_msg "B" (<["B" := 2%N]> {["A" := 1%N]}).

Lemma causal_gap_blocks_witness :
  let r := canonical_range in
  (test_run "A" [answer]).2 = [] ∧ answer ∉ (test_run "A" [answer]).2.
Proof.
  intros r. split; [vm_compute; reflexivity|]. intros Hin.
  cut (2 < 1)%N; [done|]. change 2%N with ((SentVC answer).["B"]).
  apply (causal_gap_blocks test_now (λ m, m ∈ [answer]) None "A" (test_start "A")
    ((test_run "A" [answer]).1.1, (test_run "A" [answer]).1.2, Idle)
    (test_run "A" [answer]).2 "B" 1); [|by apply test_start_fresh|apply test_run_steps|done|done| |done].
  - intros m ->%list_elem_of_singleton _. split; by vm_compute.
  - intros m ->%list_elem_of_singleton _. by vm_compute.
Defined.

Lemma second_destination_blocked_witness :
  let r := canonical_range in
  let first := prepare test_now (New (test_cfg "A" ClockVector CausalDelivery)) test_world "B" ANil in
  let second := prepare test_now first.1.1 first.1.2 "C" ANil in
  (test_run "C" [second.2]).2 = [] ∧ second.2 ∉ (test_run "C" [second.2]).2.
Proof.
  intros r first second. split; [vm_compute; reflexivity|].
  apply (second_destination_blocked test_now test_now
    (New (test_cfg "A" ClockVector CausalDelivery)) first.1.1 second.1.1 test_world first.1.2 second.1.2
    "B" "C" ANil ANil first.2 second.2
    (λ m, m ∈ [second.2]) None (test_start "C")
    ((test_run "C" [second.2]).1.1, (test_run "C" [second.2]).1.2, Idle)).
  - reflexivity.
  - vm_compute. reflexivity.
  - apply triple_eta.
  - apply triple_eta.
  - discriminate.
  - vm_compute. discriminate.
  - intros m ->%list_elem_of_singleton _. split; vm_compute; discriminate.
  - intros m ->%list_elem_of_singleton. vm_compute. reflexivity.
  - intros m ->%list_elem_of_singleton _. intros E. vm_compute in E. discriminate.
  - apply test_start_fresh.
  - apply test_run_steps.
Defined.

Lemma unstamped_never_delivered_witness :
  let r := canonical_range in
  (test_run "Z" [vc_msg "A" ∅]).2 = [].
Proof.
  intros r.
  apply (unstamped_never_delivered test_now (λ m, m ∈ [vc_msg "A" ∅]) None "Z" (test_start "Z")
    ((test_run "Z" [vc_msg "A" ∅]).1.1, (test_run "Z" [vc_msg "A" ∅]).1.2, Idle));
    [|apply test_start_fresh|apply test_run_steps].
  by intros m ->%list_elem_of_singleton _.
Defined.
