(* ===== verification/Delivery.v ===== *)
(** * Nothing is held without a reason

    The other half of causal delivery (src/internal/process/process.go,
    holdback.go): [causal_delivery_order] in Process.v says that messages are
    delivered in the right order, this file that they are delivered.  As long
    as the messages that have arrived leave no gap in any sender's counters,
    the hold-back queue of an idle process is empty. *)
From stdpp Require Import gmap strings list.
From S2P Require Import Prelude VClock Events HoldBack Process.

(** ** Least elements of a list *)
Lemma least_exists {A} (R : A → A → Prop) `{!Transitive R, !RelDecision R} (l : list A) :
  l ≠ [] → ∃ x, x ∈ l ∧ ∀ y, y ∈ l → R y x → R x y.
Proof.
  induction l as [|a l IH]; intros Hne; [done|]. destruct (decide (l = [])) as [->|Hl].
  { exists a. split; [by left|]. by intros y ->%list_elem_of_singleton. }
  destruct (IH Hl) as (x & Hx & Hmin). destruct (decide (R a x ∧ ¬ R x a)) as [[Hax Hxa]|Hno].
  - exists a. split; [by left|]. intros y [->|Hy]%elem_of_cons Hya; [done|].
    etrans; [exact Hax|]. apply Hmin; [done|]. by etrans.
  - exists x. split; [by right|]. intros y [->|Hy]%elem_of_cons Hyx; [|by apply Hmin].
    destruct (decide (R x a)); tauto.
Qed.

#[local] Instance vc_le_dec : RelDecision vc_le.
Proof.
  intros a b. refine (cast_if (decide (map_Forall (λ k (v : N), v <= b.[k])%N a))).
  - intros k. unfold mget at 1. destruct (a !! k) as [v|] eqn:E; simpl; [by eapply m|lia].
  - intros Hle. apply n. intros k v E. specialize (Hle k). unfold mget at 1 in Hle. by rewrite E in Hle.
Defined.

(** ** Runs through states of a kind *)
Section runs.
Context `{MapRange} (now : nat → Z) {X : Type} `{Transport X}.
Context (arrival : Message → Prop)
  (OnMarker : option (string → string → ProcessState → World X → World X)).

(** [psteps] with every state on the way, the ends included, satisfying [Q]. *)
Inductive psteps_in (Q : tau (X:=X) → Prop) : tau → list Message → tau → Prop :=
  | pi_refl s : Q s → psteps_in Q s [] s
  | pi_step s1 ds s2 es s3 :
      psteps_in Q s1 ds s2 → pstep now arrival OnMarker s2 es s3 → Q s3 → psteps_in Q s1 (ds ++ es) s3.

Lemma psteps_in_psteps Q s ds s' : psteps_in Q s ds s' → psteps now arrival OnMarker s ds s' ∧ Q s'.
Proof. induction 1 as [s Hq|s1 ds s2 es s3 _ [IH _] Hs Hq]; split; eauto using psteps. Qed.

Lemma psteps_in_all (Q : tau (X:=X) → Prop) s ds s' :
  (∀ es s1, psteps now arrival OnMarker s es s1 → Q s1) →
  psteps now arrival OnMarker s ds s' → psteps_in Q s ds s'.
Proof.
  intros Hq Hr. induction Hr as [s|s ds s2 es s3 Hr IH Hs]; [apply pi_refl, (Hq []), ps_refl|].
  eapply pi_step; [by apply IH|done|]. eapply Hq. by eapply ps_step.
Qed.
End runs.

Section complete.
Context `{MapRange} (now : nat → Z) {X : Type} `{Transport X}.
Context (arrival : Message → Prop)
  (OnMarker : option (string → string → ProcessState → World X → World X)).
Context (self : string).
Hypothesis arrival_ok : ∀ m, arrival m → IsMarker m = false →
  From m ≠ self ∧ (SentVC m).[From m] ≠ 0%N.

(** No message inside the process knows of more of the process's own events
    than there have been. *)
Definition honest (s : tau (X:=X)) : Prop :=
  ∀ m, m ∈ inbound s.1.1 ++ waiting s ++ (Msg <$> pending (hbq s.1.1)) →
    ((SentVC m).[self] <= (vc_of s.1.1).[self])%N.

(** Why a message cannot be delivered, its own-event part apart. *)
Definition blocked (m : Message) (vc : VectorClock) : Prop :=
  (SentVC m).[From m] ≠ u64_succ vc.[From m] ∨
  ∃ k, k ≠ From m ∧ k ≠ self ∧ (vc.[k] < (SentVC m).[k])%N.

Lemma undeliverable_blocked m vc :
  canDeliver (SentVC m) (From m) vc = false → ((SentVC m).[self] <= vc.[self])%N → blocked m vc.
Proof.
  unfold canDeliver. intros E Hs. destruct (N.eqb_spec (SentVC m).[From m] (u64_succ vc.[From m])) as [E'|];
    [|by left]. right. simpl in E. apply deps_ok_false in E as (k & v & Hkv & Hk & Hlt).
  apply elem_of_range in Hkv. exists k. assert ((SentVC m).[k] = v) as Ev by (unfold mget; by rewrite Hkv).
  split; [done|]. split; [|by rewrite Ev]. intros ->. lia.
Qed.

Lemma blocked_ext m vc vc' :
  From m ≠ self → (∀ k, k ≠ self → vc'.[k] = vc.[k]) → blocked m vc → blocked m vc'.
Proof.
  intros Hm Hvc [Hne|(k & Hk & Hs & Hlt)]; [left; by rewrite Hvc|].
  right. exists k. by rewrite Hvc.
Qed.

(** The held messages are blocked, and the one being checked is checked
    against a clock that covers its knowledge of [self]. *)
Record quiet_inv (s : tau (X:=X)) : Prop := {
  qi_held h : h ∈ pending (hbq s.1.1) → blocked (Msg h) (vc_of s.1.1);
  qi_check m l : s.2 = Checking m l → ((SentVC m).[self] <= l.[self])%N
}.

Lemma quiet_ticked s0 ds p w c p' w' :
  ticked p p' → causal_inv arrival self s0 ds (p, w, c) → quiet_inv (p, w, c) → quiet_inv (p', w', c).
Proof.
  intros (_ & _ & E3 & Ev) Hi [Hh Hc]. split; simpl in *; [|done]. rewrite E3. intros h Hh'.
  destruct (ci_pending _ _ _ _ _ Hi h Hh') as (_ & Ha & Hm).
  apply (blocked_ext _ (vc_of p)); [by apply arrival_ok| |by apply Hh].
  intros k Hk. unfold vc_of. destruct Ev as [-> | ->]; [done|]. simpl.
  pose proof (ci_id _ _ _ _ _ Hi) as Hid. simpl in Hid.
  rewrite Tick_get, decide_False; [done|congruence].
Qed.
Lemma quiet_deliver s0 ds p w m l p' w' ms :
  causal_deliver now p w m = (p', w', ms) → causal_inv arrival self s0 ds (p, w, Checking m l) →
  honest (p', w', Reporting ms) → quiet_inv (p', w', Reporting ms).
Proof.
  unfold causal_deliver. simpl. intros E Hi Hh.
  destruct (TryDeliver _ _ _) as [[ms' vc2] q2] eqn:Et.
  apply TryDeliver_spec in Et as (hs & _ & Hperm & _ & Hno). injection E as <- _ <-.
  split; [|done]. simpl in *. intros h Hin.
  assert (h ∈ pending (hbq p)) as Hp by (rewrite <- Hperm; apply elem_of_app; by right).
  destruct (ci_pending _ _ _ _ _ Hi h Hp) as (Eh & _ & _). apply undeliverable_blocked.
  - specialize (Hno h Hin). by rewrite Eh in Hno.
  - apply (Hh (Msg h)). simpl. apply elem_of_app. right. by apply list_elem_of_fmap_2.
Qed.

Lemma quiet_inv_step s0 ds s es s' :
  causal_inv arrival self s0 ds s → honest s → honest s' →
  pstep now arrival OnMarker s es s' → quiet_inv s → quiet_inv s'.
Proof.
  intros Hi Hh Hh' Hs Hq. destruct Hs.
  - eapply quiet_ticked; eauto using InternalEvent_ticked.
  - eapply quiet_ticked; eauto using prepare_ticked.
  - by destruct Hq.
  - rename select (Deliver _ _ _ = _) into Hd. apply Deliver_inbound in Hd as (i & -> & _). by destruct Hq.
  - eapply (quiet_ticked _ _ _ w); [apply AddPeer_ticked|done|done].
  - eapply quiet_ticked; eauto using Stop_ticked.
  - rename select (handleMessage _ _ _ _ _ = _) into Em. apply marker_ticked in Em; [|done].
    eapply (quiet_ticked s0 ds _ w); [exact Em| |by destruct Hq].
    destruct Hi as [Hid Hr Hin Hw Hp Hl Hc]. split; simpl in *; try done.
    intros x Hx. apply Hin. rename select (inbound _ = _) into Eq. rewrite Eq. by right.
  - split; [apply Hq|]. simpl. intros m' l [= <- <-]. rewrite Copy_id. apply (Hh m). simpl.
    rename select (inbound _ = _) into Eq. rewrite Eq. by left.
  - by eapply quiet_deliver.
  - rename select (causal_hold _ _ _ _ = _) into Eh. apply causal_hold_ticked in Eh.
    destruct (ci_waiting _ _ _ _ _ Hi m (list_elem_of_here _ _)) as [Ha Hm].
    eapply (quiet_ticked s0 ds _ w); [exact Eh| |].
    + destruct Hi as [Hid Hr Hin Hw Hp Hl Hc]. split; simpl in *; try done.
      * intros x Hx. by apply elem_of_nil in Hx.
      * intros h [?| ->%list_elem_of_singleton]%elem_of_app; [by apply Hp|]. by simpl.
    + split; [|done]. simpl. intros h [Hin| ->%list_elem_of_singleton]%elem_of_app; [by apply Hq|].
      apply (blocked_ext _ localVC); [by apply arrival_ok| |].
      * intros k Hk. symmetry. by apply (ci_local _ _ _ _ _ Hi m).
      * apply undeliverable_blocked; [done|]. by apply (qi_check _ Hq).
  - eapply quiet_ticked; [by eapply emit_delivered_ticked| |].
    + destruct Hi as [Hid Hr Hin Hw Hp Hl Hc]. by split.
    + by destruct Hq.
  - by destruct Hq.
Qed.

Lemma delivery_quiet s0 ds s :
  fresh self s0 → psteps_in now arrival OnMarker honest s0 ds s →
  causal_inv arrival self s0 ds s ∧ quiet_inv s.
Proof.
  intros Hf Hr. split.
  { apply (causal_inv_run now arrival OnMarker self arrival_ok); [done|].
    exact (proj1 (psteps_in_psteps _ _ _ _ _ _ _ Hr)). }
  induction Hr as [s Hq|s0 ds s1 es s2 Hr IH Hs Hq].
  - destruct Hf as (c & w & -> & _). split; [|done]. simpl. intros h []%elem_of_nil.
  - destruct (psteps_in_psteps _ _ _ _ _ _ _ Hr) as [Hr' Hq1].
    eapply quiet_inv_step; [|done..|by apply IH].
    by apply (causal_inv_run now arrival OnMarker self arrival_ok).
Qed.
End complete.

(** ** Complete arrivals *)

(** A message's number among its sender's. *)
Definition counter (m : Message) : N := (SentVC m).[From m].

(** Messages as senders without a gap make them: every event a stamp counts,
    [self]'s own apart, is the sending of one of them; a stamp counts a message
    only if it includes its stamp, and never the other way round as well. *)
Record complete (self : string) (arrived : list Message) : Prop := {
  co_wf m : m ∈ arrived → wf64 (SentVC m);
  co_once : NoDup ((λ m, (From m, counter m)) <$> arrived);
  co_causal m m' :
    m ∈ arrived → m' ∈ arrived → (From m', counter m') ≠ (From m, counter m) →
    (counter m' <= (SentVC m).[From m'])%N →
    vc_le (SentVC m') (SentVC m) ∧ ((SentVC m').[From m] < counter m)%N;
  co_gapless m k c :
    m ∈ arrived → k ≠ self → (0 < c)%N → (c <= (SentVC m).[k])%N →
    ∃ m', m' ∈ arrived ∧ From m' = k ∧ counter m' = c
}.

(** A run covers the stamps it has delivered. *)
Lemma local_run_covers `{MapRange} self vc ds vc' h k :
  local_run self vc ds vc' → wf64 vc → h ∈ ds → k ≠ self → ((HSentVC h).[k] <= vc'.[k])%N.
Proof.
  intros Hr Hw Hin Hk. induction Hr as [|? ? ? ? Hs _ IH|vc h' vc1 ds vc2 Hs Hr IH].
  - by apply elem_of_nil in Hin.
  - eauto using local_step_wf.
  - apply elem_of_cons in Hin as [->|Hin]; [|eauto using local_step_wf].
    destruct (local_step_deliver _ _ _ _ Hs Hw) as (_ & Hc & _).
    etrans; [by apply Hc|by eapply local_run_mono].
Qed.

(** Every counter value below the receiver's is that of a delivered message. *)
Lemma local_run_counts `{MapRange} self vc ds vc' p c :
  local_run self vc ds vc' → wf64 vc → p ≠ self → (vc.[p] < c)%N → (c <= vc'.[p])%N →
  ∃ h, h ∈ ds ∧ From (Msg h) = p ∧ (HSentVC h).[p] = c.
Proof.
  intros Hr Hw Hp Hlt Hle.
  destruct (decide (Exists (λ h, From (Msg h) = p ∧ (HSentVC h).[p] = c) ds)) as [Hex|Hno].
  - by apply Exists_exists in Hex.
  - destruct (local_run_gap self vc ds vc' p c Hr Hw Hp Hlt) as [? _]; [|lia].
    intros h Hin Hf Hc. apply Hno, Exists_exists. eauto.
Qed.

Section theorem.
Context `{MapRange} (now : nat → Z) {X : Type} `{Transport X}.
Context (arrival : Message → Prop)
  (OnMarker : option (string → string → ProcessState → World X → World X)).
Context (self : string).
Hypothesis arrival_ok : ∀ m, arrival m → IsMarker m = false →
  From m ≠ self ∧ (SentVC m).[From m] ≠ 0%N.
Context (s0 s : tau (X:=X)) (ds : list Message).
Hypothesis start : fresh self s0.
Hypothesis inv : causal_inv arrival self s0 ds s.
Let arrived := ds ++ (Msg <$> pending (hbq s.1.1)).
Hypothesis Hcomplete : complete self arrived.

Lemma start_zero k : (vc_of s0.1.1).[k] = 0%N.
Proof. by apply (fresh_clock self). Qed.

Lemma start_wf : wf64 (vc_of s0.1.1).
Proof. intros k. rewrite start_zero. by vm_compute. Qed.

(** What a least held message has seen has been delivered. *)
Lemma least_covered h k c :
  h ∈ pending (hbq s.1.1) →
  (∀ g, g ∈ pending (hbq s.1.1) → vc_le (SentVC (Msg g)) (SentVC (Msg h)) →
     vc_le (SentVC (Msg h)) (SentVC (Msg g))) →
  k ≠ self → (c <= (SentVC (Msg h)).[k])%N → (k = From (Msg h) → c < counter (Msg h))%N →
  (c <= (vc_of s.1.1).[k])%N.
Proof.
  intros Hh Hmin Hk Hc Hown. destruct (decide (c = 0%N)) as [->|Hpos]; [lia|].
  assert (Msg h ∈ arrived) as Hah by (apply elem_of_app; right; by apply list_elem_of_fmap_2).
  destruct (co_gapless _ _ Hcomplete (Msg h) k c) as (m & Hm & Hf & Hcm); [done|done|lia|done|].
  pose proof Hm as [Hd|Hp]%elem_of_app.
  - rewrite <- Hcm. unfold counter. rewrite Hf.
    apply (local_run_covers self (vc_of s0.1.1) (held <$> ds) _ (held m) k (ci_run _ _ _ _ _ inv));
      [apply start_wf|by apply list_elem_of_fmap_2|done].
  - apply list_elem_of_fmap in Hp as (g & -> & Hg).
    destruct (co_causal _ _ Hcomplete (Msg h) (Msg g) Hah Hm) as [Hle Hlt].
    + intros [= E1 E2]. specialize (Hown ltac:(congruence)). lia.
    + by rewrite Hf, Hcm.
    + specialize (Hmin g Hg Hle (From (Msg h))). unfold counter in Hlt. lia.
Qed.

(** Nobody has got past a held message. *)
Lemma held_not_passed h :
  h ∈ pending (hbq s.1.1) → ((vc_of s.1.1).[From (Msg h)] < counter (Msg h))%N.
Proof.
  intros Hh. destruct (ci_pending _ _ _ _ _ inv h Hh) as (_ & Ha & Hm).
  destruct (arrival_ok _ Ha Hm) as [Hne Hst]. apply N.nle_gt. intros Hle.
  destruct (local_run_counts self (vc_of s0.1.1) (held <$> ds) (vc_of s.1.1) (From (Msg h)) (counter (Msg h))
    (ci_run _ _ _ _ _ inv) start_wf Hne) as (d & (m & -> & Hd)%list_elem_of_fmap & Hf & Hc);
    [rewrite start_zero; unfold counter; lia|done|]. simpl in *.
  pose proof (co_once _ _ Hcomplete) as Hnd. unfold arrived in Hnd. rewrite fmap_app in Hnd.
  apply NoDup_app in Hnd as (_ & Hdis & _). apply (Hdis (From m, counter m)).
  - by apply (list_elem_of_fmap_2 (λ m, (From m, counter m))).
  - apply list_elem_of_fmap. exists (Msg h). split; [|by apply list_elem_of_fmap_2].
    unfold counter in *. by rewrite Hf, Hc.
Qed.

Lemma complete_nothing_blocked :
  (∀ h, h ∈ pending (hbq s.1.1) → blocked self (Msg h) (vc_of s.1.1)) → pending (hbq s.1.1) = [].
Proof.
  intros Hb. destruct (decide (pending (hbq s.1.1) = [])) as [|Hne]; [done|exfalso].
  set (R := λ g h, vc_le (SentVC (Msg g)) (SentVC (Msg h))).
  assert (Transitive R) by (intros x y z; apply (transitivity (R:=vc_le))).
  assert (RelDecision R) by (intros g h; apply vc_le_dec).
  destruct (least_exists R (pending (hbq s.1.1)) Hne) as (h & Hh & Hmin).
  destruct (ci_pending _ _ _ _ _ inv h Hh) as (_ & Ha & Hm).
  destruct (arrival_ok _ Ha Hm) as [Hself Hst].
  pose proof (least_covered h) as Hcov. specialize (Hcov) with (1 := Hh) (2 := Hmin).
  destruct (Hb h Hh) as [Hno|(k & Hk & Hks & Hlt)].
  - apply Hno. pose proof (held_not_passed h Hh) as Hpass. unfold counter in *.
    assert (wf64 (SentVC (Msg h))) as Hw.
    { apply (co_wf _ _ Hcomplete), elem_of_app. right. by apply list_elem_of_fmap_2. }
    specialize (Hw (From (Msg h))). specialize (Hcov (From (Msg h)) ((SentVC (Msg h)).[From (Msg h)] - 1)%N Hself).
    rewrite u64_succ_small; unfold two64, MaxUint64 in *; lia.
  - specialize (Hcov k (SentVC (Msg h)).[k] Hks ltac:(lia) ltac:(by intros ->)). lia.
Qed.
End theorem.

(** A process nobody has heard of is only sent honest stamps. *)
Lemma honest_unheard `{MapRange} (now : nat → Z) {X : Type} `{Transport X} arrival OnMarker self
    (s0 : tau (X:=X)) ds s :
  (∀ m, arrival m → IsMarker m = false → From m ≠ self ∧ (SentVC m).[From m] ≠ 0%N) →
  (∀ m, arrival m → (SentVC m).[self] = 0%N) →
  fresh self s0 → psteps now arrival OnMarker s0 ds s → psteps_in now arrival OnMarker (honest self) s0 ds s.
Proof.
  intros Ha Hz Hf. apply psteps_in_all. intros es s1 Hr m Hm.
  pose proof (causal_inv_run now arrival OnMarker self Ha s0 es s1 Hf Hr) as Hi.
  assert (arrival m) as Hma; [|rewrite Hz by done; lia].
  apply elem_of_app in Hm as [Hm|[Hm|(h & -> & Hh)%list_elem_of_fmap]%elem_of_app].
  - by apply (ci_inbound _ _ _ _ _ Hi).
  - by apply (ci_waiting _ _ _ _ _ Hi).
  - by apply (ci_pending _ _ _ _ _ Hi).
Qed.

(** ** The theorem *)

(** C10: Nothing is held without a reason.  Whatever calls interrupt the process
    and in whatever order its messages arrive: when the messages it has taken
    so far leave no gap, none of them is in the hold-back queue, so all have
    been delivered.  Together with [causal_gap_blocks] a gap in a sender's
    counters is the only thing that keeps a message back. *)
Theorem no_gap_no_hold `{MapRange} (now : nat → Z) {X : Type} `{Transport X} (arrival : Message → Prop)
    OnMarker (self : string) (s0 s : tau (X:=X)) (ds : list Message) :
  (∀ m, arrival m → IsMarker m = false → From m ≠ self ∧ (SentVC m).[From m] ≠ 0%N) →
  fresh self s0 → psteps_in now arrival OnMarker (honest self) s0 ds s →
  complete self (ds ++ (Msg <$> pending (hbq s.1.1))) →
  pending (hbq s.1.1) = [] ∧ complete self ds.
Proof.
  intros Ha Hf Hr Hc. destruct (delivery_quiet now arrival OnMarker self Ha s0 ds s Hf Hr) as [Hi Hq].
  assert (pending (hbq s.1.1) = []) as E.
  { by apply (complete_nothing_blocked arrival self Ha s0 s ds Hf Hi Hc), (qi_held _ _ Hq). }
  split; [done|]. by rewrite E, app_nil_r in Hc.
Qed.

(** Two messages of "A" and one of "B" that has seen the first; they arrive at
    "Z" in the opposite order. *)
Definition three_messages : list Message :=
  [vc_msg "B" (<["B" := 1%N]> {["A" := 1%N]}); vc_msg "A" {["A" := 2%N]}; vc_msg "A" {["A" := 1%N]}].

Definition three_delivered : list Message :=
  [vc_msg "A" {["A" := 1%N]}; vc_msg "B" (<["B" := 1%N]> {["A" := 1%N]}); vc_msg "A" {["A" := 2%N]}].

Lemma three_delivered_elem m : m ∈ three_messages → m ∈ three_delivered.
Proof. unfold three_messages, three_delivered. set_solver. Qed.

Lemma three_cases m :
  m ∈ three_delivered →
  (∃ c, (c = 1 ∨ c = 2)%N ∧ From m = "A" ∧ ∀ k, (SentVC m).[k] = if decide (k = "A") then c else 0%N) ∨
  From m = "B" ∧ ∀ k, (SentVC m).[k] = if decide (k = "A") then 1%N else if decide (k = "B") then 1%N else 0%N.
Proof.
  intros Hm. assert (m = vc_msg "A" {["A" := 1%N]} ∨ m = vc_msg "A" {["A" := 2%N]} ∨
    m = vc_msg "B" (<["B" := 1%N]> {["A" := 1%N]})) as [->|[->| ->]] by set_solver.
  - left. exists 1%N. split; [auto|]. split; [done|]. intros k. unfold mget. simpl.
    case_decide as E; [by subst|by rewrite lookup_singleton_ne].
  - left. exists 2%N. split; [auto|]. split; [done|]. intros k. unfold mget. simpl.
    case_decide as E; [by subst|by rewrite lookup_singleton_ne].
  - right. split; [done|]. intros k. unfold mget. simpl. case_decide as E; [by subst|].
    case_decide as E'; [by subst|by rewrite lookup_insert_ne, lookup_singleton_ne].
Qed.

Lemma three_complete : complete "Z" (three_delivered).
Proof.
  split.
  - intros m [(c & Hc & _ & Hk)|[_ Hk]]%three_cases k; rewrite Hk; repeat case_decide; unfold two64; lia.
  - apply (bool_decide_unpack _). by vm_compute.
  - unfold counter. intros m m' [(c & Hc & Hf & Hk)|[Hf Hk]]%three_cases
      [(c' & Hc' & Hf' & Hk')|[Hf' Hk']]%three_cases; rewrite Hf, Hf', !Hk, !Hk'; simpl; intros Hne Hle;
      (split; [intros k; rewrite Hk, Hk'; repeat case_decide; lia|]);
      try lia; [assert (c' ≠ c) by congruence; lia|by destruct Hne].
  - unfold counter. intros m k c Hm Hz Hpos Hle.
    assert ((k = "A" ∧ (c = 1 ∨ c = 2)%N) ∨ (k = "B" ∧ c = 1%N)) as [[-> [-> | ->]]|[-> ->]].
    { destruct (three_cases m Hm) as [(c' & Hc' & _ & Hk)|[_ Hk]]; rewrite Hk in Hle;
        repeat case_decide; try lia; [left|left|right]; split; auto; lia. }
    + exists (vc_msg "A" {["A" := 1%N]}). split; [by left|done].
    + exists (vc_msg "A" {["A" := 2%N]}). split; [by right; right; left|done].
    + exists (vc_msg "B" (<["B" := 1%N]> {["A" := 1%N]})). split; [by right; left|done].
Qed.

Lemma three_sound m : m ∈ three_messages → IsMarker m = false → From m ≠ "Z" ∧ (SentVC m).[From m] ≠ 0%N.
Proof.
  intros Hm%three_delivered_elem _.
  destruct (three_cases m Hm) as [(c & Hc & Hf & Hk)|[Hf Hk]]; rewrite Hf, Hk; [|done].
  split; [done|]. simpl. lia.
Qed.

Lemma three_unheard m : m ∈ three_messages → (SentVC m).["Z"] = 0%N.
Proof.
  intros Hm%three_delivered_elem. destruct (three_cases m Hm) as [(c & _ & _ & Hk)|[_ Hk]]; by rewrite Hk.
Qed.

#[local] Existing Instance recording_net.

Lemma three_run :
  let r := canonical_range in
  (test_run "Z" three_messages).2 = three_delivered ∧
  pending (hbq (test_run "Z" three_messages).1.1) = [].
Proof. by vm_compute. Qed.

Lemma no_gap_no_hold_witness :
  let r := canonical_range in
  let '(p, _, log) := test_run "Z" three_messages in pending (hbq p) = [] ∧ complete "Z" log.
Proof.
  intros r. destruct three_run as [Hlog Hpend]. fold r in Hlog, Hpend.
  pose proof (test_run_steps "Z" three_messages) as Hsteps.
  destruct (test_run "Z" three_messages) as [[p w] log]. cbn [fst snd] in *.
  apply (no_gap_no_hold test_now (λ m, m ∈ three_messages) None "Z" (test_start "Z") (p, w, Idle) log
    three_sound (test_start_fresh "Z")).
  - exact (honest_unheard test_now _ None "Z" (test_start "Z") log (p, w, Idle) three_sound three_unheard
      (test_start_fresh "Z") Hsteps).
  - cbn [fst snd]. rewrite Hpend, Hlog. apply three_complete.
Defined.
