(* ===== verification/EndToEnd.v ===== *)
(** * From sender to receiver

    The sending half and the receiving half of src/internal/process/process.go
    together.  Processes that only send, and only to one destination, reach it
    over any network and through any interference as over reliable channels
    that keep the order: what the receiver has delivered from each of them is
    always the beginning of what it sent, and all of it once every message has
    been taken. *)
From stdpp Require Import gmap strings list.
From S2P Require Import Prelude VClock Events HoldBack Process Delivery.

(** ** Counters of the deliveries *)
Section counters.
Context `{MapRange}.

Definition from (p : string) (hs : list HeldMessage) : list HeldMessage :=
  filter (λ h, From (Msg h) = p) hs.

(** The deliveries of one sender carry consecutive counters, which the
    receiver's clock counts. *)
Lemma local_run_consecutive self vc hs vc' p :
  local_run self vc hs vc' → wf64 vc → p ≠ self →
  vc'.[p] = (vc.[p] + N.of_nat (length (from p hs)))%N ∧
  ∀ i h, from p hs !! i = Some h → (HSentVC h).[p] = (vc.[p] + 1 + N.of_nat i)%N.
Proof.
  intros Hr Hw Hp. induction Hr as [vc|vc vc1 hs vc2 Hs _ IH|vc h vc1 hs vc2 Hs _ IH].
  - simpl. split; [lia|done].
  - destruct IH as [E Hc]; [by eapply local_step_wf|].
    assert (vc1.[p] = vc.[p]) as E1 by (inversion Hs; subst; by rewrite Tick_get, decide_False).
    by rewrite E1 in *.
  - destruct (local_step_deliver _ _ _ _ Hs Hw) as (En & _ & Hoth & Hf).
    destruct IH as [E Hc]; [by eapply local_step_wf|]. unfold from. rewrite filter_cons.
    case_decide as Hd.
    + subst p. rewrite Hf in * by done. fold (from (From (Msg h)) hs). simpl. split; [lia|].
      intros [|i] h'; simpl; [intros [= <-]; lia|]. intros Hi. rewrite (Hc i h' Hi). lia.
    + destruct (Hoth p) as [_ E1]; [done..|]. rewrite E1 in *. by split.
Qed.
End counters.

(** ** Senders *)
Section sender.
Context `{MapRange} (now : nat → Z) {X : Type} (to : string).

(** A process that sends [ms] to [to], one after the other, whatever happens to
    the world in between; calls that are not events do not matter. *)
Inductive sends : Process → list Message → Process → Prop :=
  | snd_nil p : sends p [] p
  | snd_send p ms p1 (w : World X) data p2 w' m :
      sends p ms p1 → prepare now p1 w to data = (p2, w', m) → sends p (ms ++ [m]) p2
  | snd_other p ms p1 p2 :
      sends p ms p1 → cfgID (cfg p2) = cfgID (cfg p1) → cfgClockType (cfg p2) = cfgClockType (cfg p1) →
      vectorClock p2 = vectorClock p1 → sends p ms p2.

(** The [i]-th message carries the number [i + 1] of its sender and nothing
    else. *)
Lemma sends_stamps p ms p' :
  sends p ms p' → cfgClockType (cfg p) = ClockVector → (∀ k, (vc_of p).[k] = 0%N) →
  (N.of_nat (length ms) <= MaxUint64)%N →
  let id := cfgID (cfg p) in
  cfgID (cfg p') = id ∧ cfgClockType (cfg p') = ClockVector ∧
  (∀ k, (vc_of p').[k] = if decide (k = id) then N.of_nat (length ms) else 0%N) ∧
  ∀ i m, ms !! i = Some m → From m = id ∧ To m = to ∧ IsMarker m = false ∧
    ∀ k, (SentVC m).[k] = if decide (k = id) then N.of_nat (S i) else 0%N.
Proof.
  intros Hs Hk Hz. induction Hs as [p|p ms p1 w data p2 w' m Hs IH E|p ms p1 p2 Hs IH Ei Et Ev]; intros Hn id.
  - split_and!; try done. intros k. rewrite Hz. by case_decide.
  - rewrite length_app in Hn. simpl in Hn.
    destruct IH as (Eid & Ek & Ev & Hms); [done..|lia|]. fold id in Eid, Ev, Hms.
    revert E. unfold prepare, sendClock. simpl. rewrite Ek, bool_decide_false, bool_decide_true by done.
    simpl. intros [= <- <- <-]. simpl. rewrite Eid.
    assert (∀ k, (VClock.Tick (default ∅ (vectorClock p1)) id).[k] =
      if decide (k = id) then N.of_nat (S (length ms)) else 0%N) as Ht.
    { intros k. rewrite Tick_get. unfold vc_of in Ev. rewrite !Ev. repeat case_decide; try done.
      rewrite u64_succ_small; lia. }
    split; [done|]. split; [done|]. split.
    + intros k. unfold vc_of. simpl. rewrite Ht, length_app. simpl. by rewrite Nat.add_1_r.
    + intros i m. rewrite lookup_app_Some, list_lookup_singleton_Some.
      intros [Hi|(Hge & Hi & <-)]; [by apply Hms|]. simpl. split_and!; [done..|].
      intros k. rewrite Copy_id, Ht. by replace i with (length ms) by lia.
  - destruct IH as (Eid & Ek & Ev' & Hms); [done..|]. unfold vc_of in *. rewrite Ev.
    split; [by rewrite Ei|]. split; [by rewrite Et|]. by split.
Qed.
End sender.

(** ** Both halves *)
Section both.
Context `{MapRange} (now : nat → Z) {X Y : Type} `{Transport X}.
Context (OnMarker : option (string → string → ProcessState → World X → World X)).
Context (self : string) (outs : gmap string (list Message)).

(** [outs] is what some processes with fresh vector clocks have sent, each of
    them to [self] only; the network brings such messages and markers. *)
Definition dedicated : Prop :=
  ∀ id ms, outs !! id = Some ms →
    id ≠ self ∧ (N.of_nat (length ms) < MaxUint64)%N ∧
    ∃ now' c p', cfgID c = id ∧ cfgClockType c = ClockVector ∧ sends (X:=Y) now' self (New c) ms p'.

Definition sent (m : Message) : Prop := ∃ id ms, outs !! id = Some ms ∧ m ∈ ms.

Definition arrival (m : Message) : Prop := IsMarker m = true ∧ SentVC m = ∅ ∨ sent m.

Hypothesis Hded : dedicated.

Lemma new_zero c k : (vc_of (New c)).[k] = 0%N.
Proof. apply (fresh_clock (X:=unit) (cfgID c) (New c, Build_World _ test_bus () 0 [], Idle) k). by eexists _, _. Qed.

Lemma sent_stamp id ms i m :
  outs !! id = Some ms → ms !! i = Some m →
  From m = id ∧ IsMarker m = false ∧ ∀ k, (SentVC m).[k] = if decide (k = id) then N.of_nat (S i) else 0%N.
Proof.
  intros Ho Hi. destruct (Hded id ms Ho) as (_ & Hn & now' & c & p' & <- & Hk & Hs).
  destruct (sends_stamps now' self _ _ _ Hs Hk) as (_ & _ & _ & Hms); [apply new_zero|lia|].
  by destruct (Hms i m Hi) as (? & _ & ? & ?).
Qed.

Lemma sent_inv m :
  sent m → ∃ ms i, outs !! From m = Some ms ∧ ms !! i = Some m ∧ From m ≠ self ∧
    ∀ k, (SentVC m).[k] = if decide (k = From m) then N.of_nat (S i) else 0%N.
Proof.
  intros (id & ms & Ho & [i Hi]%list_elem_of_lookup). destruct (sent_stamp _ _ _ _ Ho Hi) as (-> & _ & Hk).
  exists ms, i. split_and!; try done. by destruct (Hded id ms Ho).
Qed.

Lemma arrival_sound m : arrival m → IsMarker m = false → From m ≠ self ∧ (SentVC m).[From m] ≠ 0%N.
Proof.
  intros [[Hm _]|(ms & i & _ & _ & Hf & Hk)%sent_inv] Hn; [congruence|]. split; [done|].
  rewrite Hk, decide_True by done. lia.
Qed.

Lemma arrival_unheard m : arrival m → (SentVC m).[self] = 0%N.
Proof.
  intros [[_ ->]|(ms & i & _ & _ & Hf & Hk)%sent_inv]; [done|]. by rewrite Hk, decide_False.
Qed.

(** A message's number among its sender's says which one it is. *)
Lemma sent_number m id ms n :
  sent m → outs !! id = Some ms → From m = id → (SentVC m).[id] = N.of_nat (S n) → ms !! n = Some m.
Proof.
  intros (ms' & i & Ho & Hi & _ & Hk)%sent_inv Ho' <- Hc. rewrite Hk, decide_True in Hc by done.
  assert (i = n) as -> by lia. congruence.
Qed.

(** What has been delivered of the messages of [id]. *)
Definition received (id : string) (ds : list Message) : list Message := filter (λ m, From m = id) ds.

Lemma received_from id ds : from id (held <$> ds) = held <$> received id ds.
Proof.
  unfold from, received. induction ds as [|m ds IH]; [done|]. rewrite fmap_cons, !filter_cons.
  simpl. case_decide; [|done]. by rewrite fmap_cons, IH.
Qed.

Context (s0 s : tau (X:=X)) (ds : list Message).
Hypothesis Hfresh : fresh self s0.
Hypothesis Hrun : psteps now arrival OnMarker s0 ds s.

Lemma received_numbers id :
  id ≠ self →
  (vc_of s.1.1).[id] = N.of_nat (length (received id ds)) ∧
  ∀ i m, received id ds !! i = Some m → (SentVC m).[id] = N.of_nat (S i).
Proof.
  intros Hid. pose proof (causal_inv_run now arrival OnMarker self arrival_sound s0 ds s Hfresh Hrun) as Hi.
  assert (wf64 (vc_of s0.1.1)) as Hw by (intros k; by rewrite (fresh_clock self)).
  destruct (local_run_consecutive _ _ _ _ id (ci_run _ _ _ _ _ Hi) Hw Hid) as [E Hc].
  pose proof (fresh_clock self s0 id Hfresh) as Ez. rewrite received_from, length_fmap, Ez in E.
  rewrite received_from, Ez in Hc. split; [done|].
  intros i m Him. specialize (Hc i (held m)). rewrite list_lookup_fmap, Him in Hc.
  specialize (Hc eq_refl). simpl in Hc. lia.
Qed.

(** What has been delivered is the beginning of what was sent. *)
Lemma received_prefix id ms : outs !! id = Some ms → received id ds = take (length (received id ds)) ms.
Proof.
  intros Ho. destruct (Hded id ms Ho) as [Hid _]. destruct (received_numbers id Hid) as [_ Hc].
  pose proof (causal_inv_run now arrival OnMarker self arrival_sound s0 ds s Hfresh Hrun) as Hi.
  assert (∀ i m, received id ds !! i = Some m → ms !! i = Some m) as Hms.
  { intros i m Him. pose proof (Hc i m Him) as Hn.
    apply list_elem_of_lookup_2, list_elem_of_filter in Him as [Hf Hin].
    destruct (ci_log _ _ _ _ _ Hi m Hin) as [[[Hmk _]|Hs] Hnm]; [congruence|].
    by eapply sent_number. }
  apply list_eq. intros i. destruct (decide (i < length (received id ds))) as [Hlt|Hge].
  - rewrite lookup_take_lt by done. destruct (lookup_lt_is_Some_2 _ _ Hlt) as [m Hm].
    rewrite Hm. symmetry. by apply Hms.
  - rewrite lookup_take_ge by lia. apply lookup_ge_None_2. lia.
Qed.

(** A message taken and not delivered waits for an earlier one. *)
Lemma received_all id ms :
  outs !! id = Some ms →
  (∀ m, m ∈ ms → m ∈ ds ∨ m ∈ Msg <$> pending (hbq s.1.1)) →
  received id ds = ms.
Proof.
  intros Ho Hall. destruct (Hded id ms Ho) as (Hid & Hlen & _).
  destruct (received_numbers id Hid) as [Evc Hc]. set (n := length (received id ds)) in *.
  destruct (decide (n < length ms)) as [Hlt|Hge].
  2: { rewrite (received_prefix id ms Ho). apply take_ge. fold n. lia. }
  destruct (lookup_lt_is_Some_2 _ _ Hlt) as [m Hm].
  destruct (sent_stamp id ms n m Ho Hm) as (Hf & Hmk & Hk).
  destruct (Hall m) as [Hin|(h & -> & Hh)%list_elem_of_fmap]; [by eapply list_elem_of_lookup_2| |].
  - assert (m ∈ received id ds) as [i Hi]%list_elem_of_lookup by (by apply list_elem_of_filter).
    pose proof (Hc i m Hi) as E. rewrite Hk, decide_True in E by done.
    apply lookup_lt_Some in Hi. fold n in Hi. lia.
  - pose proof (honest_unheard now arrival OnMarker self s0 ds s arrival_sound arrival_unheard Hfresh Hrun) as Hin.
    destruct (delivery_quiet now arrival OnMarker self arrival_sound s0 ds s Hfresh Hin) as [_ Hq].
    destruct (qi_held _ _ Hq h Hh) as [Hb|(k & Hk1 & Hk2 & Hb)].
    + rewrite Hf, Evc, Hk, decide_True in Hb by done. fold n in Hb. rewrite u64_succ_small in Hb; lia.
    + rewrite Hk, decide_False in Hb by congruence. lia.
Qed.
End both.

(** ** Properties *)

(** C11: dedicated senders have reliable channels that keep the order.  Let some
    vector-clock processes send to one causal-mode process only, and nothing
    else; whatever the network does to the messages (delays, duplicates,
    losses, any order) and whatever calls interrupt the receiver: what it has
    delivered from each sender is at every moment the beginning of what that
    sender sent, in order, without repetition; and once each of the sender's
    messages has been taken from the network, all of it. *)
Theorem dedicated_senders_delivered `{MapRange} (now : nat → Z) {X Y : Type} `{Transport X}
    OnMarker (self : string) (outs : gmap string (list Message)) (s0 s : tau (X:=X))
    (ds : list Message) (id : string) (ms : list Message) :
  dedicated (Y:=Y) self outs → fresh self s0 →
  psteps now (arrival outs) OnMarker s0 ds s → outs !! id = Some ms →
  received id ds `prefix_of` ms ∧
  ((∀ m, m ∈ ms → m ∈ ds ∨ m ∈ Msg <$> pending (hbq s.1.1)) → received id ds = ms).
Proof.
  intros Hded Hf Hr Ho. split; [|by apply (received_all now OnMarker self outs Hded s0)].
  rewrite (received_prefix now OnMarker self outs Hded s0 s ds Hf Hr id ms Ho).
  eexists. symmetry. apply take_drop.
Qed.

(** "A" and "B" send two messages each; the network reverses and repeats. *)
Definition two_from `{MapRange} (id : string) : list Message :=
  let '(p1, w1, m1) := prepare test_now (New (test_cfg id ClockVector CausalDelivery)) test_world "Z" ANil in
  let '(_, _, m2) := prepare test_now p1 w1 "Z" ANil in [m1; m2].

Lemma two_from_sends `{MapRange} id :
  ∃ p, sends (X:=list Message) test_now "Z" (New (test_cfg id ClockVector CausalDelivery)) (two_from id) p.
Proof.
  unfold two_from.
  destruct (prepare test_now (New (test_cfg id ClockVector CausalDelivery)) test_world "Z" ANil)
    as [[p1 w1] m1] eqn:E1.
  destruct (prepare test_now p1 w1 "Z" ANil) as [[p2 w2] m2] eqn:E2.
  exists p2. change [m1; m2] with ([m1] ++ [m2]). eapply snd_send; [|exact E2].
  change [m1] with ([] ++ [m1]). eapply snd_send; [constructor|exact E1].
Qed.

Definition two_outs `{MapRange} : gmap string (list Message) :=
  <["A" := two_from "A"]> (<["B" := two_from "B"]> ∅).

Lemma two_dedicated `{MapRange} : dedicated (Y:=list Message) "Z" two_outs.
Proof.
  assert (∀ id, id ≠ "Z" → id ≠ "Z" ∧ (N.of_nat (length (two_from id)) < MaxUint64)%N ∧
    ∃ now' c p', cfgID c = id ∧ cfgClockType c = ClockVector ∧
      sends (X:=list Message) now' "Z" (New c) (two_from id) p') as Hid.
  { intros id Hne. split; [done|]. split; [by vm_compute|]. destruct (two_from_sends id) as [p Hp].
    by exists test_now, (test_cfg id ClockVector CausalDelivery), p. }
  intros id ms. unfold two_outs. rewrite !lookup_insert_Some, lookup_empty.
  intros [[<- <-]|[_ [[<- <-]|[_ [=]]]]]; by apply Hid.
Qed.

Definition shuffled `{MapRange} : list Message :=
  reverse (two_from "A") ++ reverse (two_from "B") ++ two_from "A".

(** A network that may bring more. *)
Lemma psteps_mono `{MapRange} now {X : Type} `{Transport X} (arr arr' : Message → Prop) OnMarker
    (s : tau (X:=X)) ds s' :
  (∀ m, arr m → arr' m) → psteps now arr OnMarker s ds s' → psteps now arr' OnMarker s ds s'.
Proof.
  intros Hm Hr. induction Hr as [|s1 ds s2 es s3 _ IH Hs]; [constructor|].
  eapply ps_step; [exact IH|]. destruct Hs; eauto using pstep.
Qed.

#[local] Existing Instance recording_net.

Lemma dedicated_senders_delivered_witness :
  let r := canonical_range in
  received "A" (test_run "Z" shuffled).2 = two_from "A".
Proof.
  intros r. pose proof (test_run_steps "Z" shuffled) as Hsteps.
  assert (∀ m, m ∈ two_from "A" → m ∈ (test_run "Z" shuffled).2 ∨
    m ∈ Msg <$> pending (hbq (test_run "Z" shuffled).1.1)) as Hall.
  { assert ((test_run "Z" shuffled).2 = two_from "A" ++ two_from "B") as -> by (vm_compute; reflexivity).
    intros m Hm. left. apply elem_of_app. by left. }
  destruct (test_run "Z" shuffled) as [[p w] log]. cbn [fst snd] in *.
  apply (dedicated_senders_delivered (Y:=list Message) test_now None "Z" two_outs (test_start "Z")
    (p, w, Idle) log "A" (two_from "A") two_dedicated (test_start_fresh "Z")); [|by simpl_map|done].
  refine (psteps_mono test_now _ _ None _ _ _ _ Hsteps). intros m Hm. right. unfold shuffled in Hm. rewrite !elem_of_app, !elem_of_reverse in Hm.
  destruct Hm as [Hm|[Hm|Hm]].
  - exists "A", (two_from "A"). by simpl_map.
  - exists "B", (two_from "B"). by simpl_map.
  - exists "A", (two_from "A"). by simpl_map.
Defined.
