(* ===== verification/System.v ===== *)
(** * Systems of processes implement the clock algorithms

    Several processes of src/internal/process/process.go in immediate delivery
    mode, connected by a network that may deliver any message that was sent,
    in any order and any number of times.  Whatever they do, the clocks of the
    events they publish are those of the abstract executions of Execution.v,
    so the theorems about time stamps there hold of the bus events. *)
From stdpp Require Import gmap strings list.
From S2P Require Import Prelude Lamport Matrix Execution Events VClock HoldBack Process.

(** ** A process tracks a clock algorithm

    What a process of one clock type promises to the system: its clock is the
    algorithm's clock, its messages carry the algorithm's stamps and its
    events the clock after them. *)
Class Tracks `{MapRange} (C S : Type) `{!ClockAlg C S} := {
  tr_kind : string;
  tr_cfg : ProcessConfig → Prop;
  tr_clock : Process → option C;
  tr_stamp : Message → S;
  tr_reads : Event → C → Prop;
  tr_new c : cfgClockType c = tr_kind → tr_cfg c →
    tr_clock (New c) = Some (ca_init (cfgID c));
  tr_frame p p' : lamportClock p' = lamportClock p → vectorClock p' = vectorClock p →
    matrixClock p' = matrixClock p → tr_clock p' = tr_clock p;
  tr_tick p c : cfgClockType (cfg p) = tr_kind → tr_clock p = Some c →
    tr_clock (tickClock p) = Some (ca_tick (cfgID (cfg p)) c);
  tr_send p c p' lc vc mc m : cfgClockType (cfg p) = tr_kind → tr_clock p = Some c →
    sendClock p = (p', (lc, vc, mc)) → SentLC m = lc → SentVC m = vc → SentMatrix m = mc →
    tr_clock p' = Some (ca_send (cfgID (cfg p)) c).1 ∧
    tr_stamp m = (ca_send (cfgID (cfg p)) c).2;
  tr_recv p c m : cfgClockType (cfg p) = tr_kind → tr_clock p = Some c →
    tr_clock (receiveClock p m) = Some (ca_recv (cfgID (cfg p)) (From m) c (tr_stamp m));
  tr_publish p e c : tr_clock p = Some c → evLamportClock e = Lamport.Value <$> lamportClock p →
    evVectorClock e = vectorClock p → evMatrixClock e = matrixClock p →
    tr_reads e c
}.

(** ** The system *)
Section system.
Context `{MapRange} (now : nat → Z) {X : Type}.

(** The processes, what they share, and the message each event sent. *)
Record sys := {
  procs : gmap string Process;
  world : World X;
  msgs : list (option Message)
}.

(** One event.  [args] chooses the destination and data of each send; a
    receive takes the message sent by event number [i]. *)
Definition sys_step (args : nat → string * any) (s : sys) (a : act) : option sys :=
  p ← procs s !! act_pid a;
  match a with
  | AInternal _ =>
      let '(p, w) := InternalEvent now p (world s) in
      Some {| procs := <[act_pid a := p]> (procs s); world := w; msgs := msgs s ++ [None] |}
  | ASend _ =>
      let '(to, data) := args (length (msgs s)) in
      let '(p, w, m) := prepare now p (world s) to data in
      Some {| procs := <[act_pid a := p]> (procs s); world := w; msgs := msgs s ++ [Some m] |}
  | ARecv _ i =>
      m ← mjoin (msgs s !! i);
      let '(p, w) := handleMessage now None p (world s) m in
      Some {| procs := <[act_pid a := p]> (procs s); world := w; msgs := msgs s ++ [None] |}
  end.

Definition sys_run (args : nat → string * any) (s : sys) (tr : list act) : option sys :=
  foldl (λ os a, os ≫= λ s, sys_step args s a) (Some s) tr.

Lemma sys_run_snoc args s tr a :
  sys_run args s (tr ++ [a]) = sys_run args s tr ≫= λ s, sys_step args s a.
Proof. unfold sys_run. by rewrite foldl_app. Qed.

(** ** Refinement *)
Context {C S : Type} `{!ClockAlg C S} `{!Tracks C S}.

Definition proc_ok (id : string) (p : Process) : Prop :=
  cfgID (cfg p) = id ∧ cfgClockType (cfg p) = tr_kind ∧
  cfgDeliveryMode (cfg p) = ImmediateDelivery.

(** A system before its first event: new processes, nothing published. *)
Definition initial (s : sys) : Prop :=
  msgs s = [] ∧ trail (world s) = [] ∧
  ∀ id p, procs s !! id = Some p → ∃ c, p = New c ∧ cfgID c = id ∧
    cfgClockType c = tr_kind ∧ cfgDeliveryMode c = ImmediateDelivery ∧
    tr_cfg c.

(** The system state against the abstract execution. *)
Record refines (s : sys) (x : exec C S) : Prop := {
  rf_proc id p : procs s !! id = Some p → proc_ok id p ∧ tr_clock p = Some (local x id);
  rf_events : length (trail (world s)) = length (ex_evs x);
  rf_event i e v : trail (world s) !! i = Some e → ex_evs x !! i = Some v →
    evProcessID e = act_pid (e_act v) ∧ tr_reads e (e_clk v);
  rf_msgs : length (msgs s) = length (ex_evs x);
  rf_msg i m : msgs s !! i = Some (Some m) → IsMarker m = false ∧
    ∃ c, ex_evs x !! i = Some (Execution.Event (ASend (From m)) c (Some (tr_stamp m)))
}.

(** An operation that publishes exactly one event, with the clock after it. *)
Definition publishes (p : Process) (w w' : World X) : Prop :=
  ∃ e, trail w' = trail w ++ [e] ∧ evProcessID e = cfgID (cfg p) ∧
    ∀ c, tr_clock p = Some c → tr_reads e c.

Lemma emit_publishes p w t msg p' w' :
  emitEventLocked now (p, w) t msg = (p', w') →
  cfg p' = cfg p ∧ tr_clock p' = tr_clock p ∧ publishes p' w w'.
Proof.
  intros [= <- <-]. split; [done|]. split; [by apply tr_frame|].
  eexists. split; [done|]. split; [done|].
  intros c Hc. apply (tr_publish _ _ c Hc); simpl; [done| |].
  - destruct (vectorClock p); simpl; [by rewrite Copy_id|done].
  - destruct (matrixClock p); simpl; [by rewrite DeepCopy_id|done].
Qed.

Lemma handle_immediate OnMarker p (w : World X) m :
  IsMarker m = false → cfgDeliveryMode (cfg p) = ImmediateDelivery →
  handleMessage now OnMarker p w m = deliverImmediate now p w m.
Proof. intros Hm Hd. unfold handleMessage. by rewrite Hm, Hd. Qed.

(** One event on both sides. *)
Lemma refines_record s x a p c st w' om :
  refines s x → proc_ok (act_pid a) p → tr_clock p = Some c → publishes p (world s) w' →
  (∀ m, om = Some m → IsMarker m = false ∧ a = ASend (From m) ∧ st = Some (tr_stamp m)) →
  refines {| procs := <[act_pid a := p]> (procs s); world := w'; msgs := msgs s ++ [om] |}
    (record_event x a c st).
Proof.
  intros [Hp He Hev Hm Hms] Hok Hc (e & Etr & Epid & Eev) Hom. split; simpl.
  - intros id q. rewrite local_record, lookup_insert_Some.
    intros [[<- <-]|[Hne Hq]]; [by rewrite decide_True|].
    rewrite decide_False by done. by apply Hp.
  - rewrite Etr, !length_app. simpl. lia.
  - intros i e' v. rewrite Etr, !lookup_app_Some, !list_lookup_singleton_Some.
    intros [Hi|(Hge & Hi0 & <-)] [Hj|(Hge' & Hj0 & <-)].
    + by eapply Hev.
    + apply lookup_lt_Some in Hi. lia.
    + apply lookup_lt_Some in Hj. lia.
    + simpl. split; [by rewrite Epid; apply Hok|by apply Eev].
  - rewrite !length_app. simpl. lia.
  - intros i m. rewrite lookup_app_Some, list_lookup_singleton_Some.
    intros [Hi|(Hge & Hi0 & Eom)].
    + destruct (Hms i m Hi) as (? & d & Ei). split; [done|]. exists d. by apply lookup_app_l_Some.
    + destruct (Hom m Eom) as (? & -> & ->). split; [done|]. exists c.
      rewrite lookup_app_r by lia. by replace (i - length (ex_evs x)) with 0 by lia.
Qed.

Lemma refines_step args s x a s' :
  refines s x → sys_step args s a = Some s' → ∃ x', step_act x a = Some x' ∧ refines s' x'.
Proof.
  intros Hr. unfold sys_step. intros (p & Ep & Hs)%bind_Some.
  destruct (rf_proc _ _ Hr _ _ Ep) as [(Hid & Hk & Hm) Hc].
  destruct a as [q|q|q i]; cbn [act_pid step_act] in *.
  - destruct (InternalEvent now p (world s)) as [p' w'] eqn:E. injection Hs as <-.
    eexists. split; [done|]. apply emit_publishes in E as (Ecfg & Ecl & Hpub).
    rewrite tickClock_cfg in Ecfg.
    apply (refines_record s x (AInternal q)); [done| | |exact Hpub|by intros ? [=]].
    + unfold proc_ok. by rewrite Ecfg.
    + by rewrite Ecl, (tr_tick p _ Hk Hc), Hid.
  - destruct (args _) as [to data]. destruct (prepare now p (world s) to data) as [[p' w'] m] eqn:E.
    injection Hs as <-. revert E. unfold prepare.
    set (p0 := set_seqs p (u64_succ (msgSeq p)) (localSeq p)).
    assert (tr_clock p0 = Some (local x q)) as Hc0 by (rewrite <- Hc; by apply tr_frame).
    pose proof (sendClock_cfg p0) as Hcfg.
    destruct (sendClock p0) as [p1 [[lc vc] mc]] eqn:Es. cbn [time_Now].
    destruct (emitEventLocked (X:=X) now _ EvtSend _) as [p2 w2] eqn:E. intros [= <- <- <-].
    apply emit_publishes in E as (Ecfg & Ecl & Hpub). simpl in Hcfg.
    match goal with |- context [msgs s ++ [Some ?msg]] => set (m := msg) end.
    destruct (tr_send p0 _ p1 lc vc mc m Hk Hc0 Es eq_refl eq_refl eq_refl) as [Hc1 Hst].
    simpl in Hc1, Hst. rewrite Hid in Hc1, Hst. destruct (ca_send q (local x q)) as [c st].
    eexists. split; [done|]. simpl in Hc1, Hst.
    apply (refines_record s x (ASend q)); [done| | | |].
    + unfold proc_ok. by rewrite Ecfg, Hcfg.
    + by rewrite Ecl.
    + destruct Hpub as (e & ? & ? & ?). by exists e.
    + intros m' [= <-]. simpl. rewrite Hcfg, Hst. simpl. by rewrite Hid.
  - destruct (msgs s !! i) as [[m|]|] eqn:Hm'; [|done..].
    destruct (rf_msg _ _ Hr _ _ Hm') as (Hmk & c & ->).
    change ((let '(p1, w1) := handleMessage now None p (world s) m in
      Some {| procs := <[q := p1]> (procs s); world := w1; msgs := msgs s ++ [None] |}) = Some s') in Hs.
    rewrite handle_immediate in Hs by done.
    destruct (deliverImmediate now p (world s) m) as [p' w'] eqn:E. injection Hs as <-.
    eexists. split; [done|]. unfold deliverImmediate in E.
    apply emit_publishes in E as (Ecfg & Ecl & Hpub). rewrite receiveClock_cfg in Ecfg.
    apply (refines_record s x (ARecv q i)); [done| | |exact Hpub|by intros ? [=]].
    + unfold proc_ok. by rewrite Ecfg.
    + by rewrite Ecl, (tr_recv p _ m Hk Hc), Hid.
Qed.

Lemma refines_run args s0 tr s :
  initial s0 → sys_run args s0 tr = Some s → ∃ x, exec_run C S tr = Some x ∧ refines s x.
Proof.
  intros (Hm & Ht & Hp). revert s. induction tr as [|a tr IH] using rev_ind; intros s.
  - intros [= <-]. exists (exec_init). split; [done|]. split; simpl.
    + intros id p Eid. destruct (Hp id p Eid) as (c & -> & Hid & Hk & Hd & Ha).
      split; [done|]. rewrite tr_new by done. by rewrite Hid.
    + by rewrite Ht.
    + by intros i e v ? ?.
    + by rewrite Hm.
    + intros i m. by rewrite Hm.
  - rewrite sys_run_snoc, exec_run_snoc. intros (s1 & E1 & E2)%bind_Some.
    destruct (IH s1 E1) as (x1 & -> & Hr). by apply (refines_step args s1 x1).
Qed.
End system.

(** ** The three clocks *)
Section instances.
Context `{MapRange} (allPIDs : string → list string).

#[export] Program Instance lamport_tracks : Tracks LamportClock N := {|
  tr_kind := ClockLamport;
  tr_cfg := λ _, True;
  tr_clock := lamportClock;
  tr_stamp := SentLC;
  tr_reads := λ e c, evLamportClock e = Some (value c)
|}.
Next Obligation. intros c E _. unfold New. simpl. by rewrite E. Qed.
Next Obligation. done. Qed.
Next Obligation. intros p c E Hc. unfold tickClock. rewrite E. simpl. by rewrite Hc. Qed.
Next Obligation.
  intros p c p' lc vc mc m E Hc. unfold sendClock. rewrite E. simpl. rewrite Hc.
  by intros [= <- <- <- <-] ->.
Qed.
Next Obligation. intros p c m E Hc. unfold receiveClock. rewrite E. simpl. by rewrite Hc. Qed.
Next Obligation. intros p e c Hc E _ _. simpl. by rewrite E, Hc. Qed.

#[local] Existing Instance vector_alg.

(** [allPIDs p] is the [AllPIDs] process [p] was created with. *)
Program Definition vector_tracks :
    @Tracks _ VectorClock VectorClock (vector_alg allPIDs) := {|
  tr_kind := ClockVector;
  tr_cfg := λ c, cfgAllPIDs c = allPIDs (cfgID c);
  tr_clock := vectorClock;
  tr_stamp := SentVC;
  tr_reads := λ e c, evVectorClock e = Some c
|}.
Next Obligation. intros c E Ha. unfold New. simpl. by rewrite E, Ha. Qed.
Next Obligation. done. Qed.
Next Obligation. intros p c E Hc. unfold tickClock. rewrite E. simpl. by rewrite Hc. Qed.
Next Obligation.
  intros p c p' lc vc mc m E Hc. unfold sendClock. rewrite E. simpl. rewrite Hc.
  by intros [= <- <- <- <-] _ ->.
Qed.
Next Obligation. intros p c m E Hc. unfold receiveClock. rewrite E. simpl. by rewrite Hc. Qed.
Next Obligation. intros p e c Hc _ E _. simpl. by rewrite E, Hc. Qed.

Program Definition matrix_tracks :
    @Tracks _ MatrixClock MatrixClock (matrix_alg allPIDs) := {|
  tr_kind := ClockMatrix;
  tr_cfg := λ c, cfgAllPIDs c = allPIDs (cfgID c);
  tr_clock := matrixClock;
  tr_stamp := SentMatrix;
  tr_reads := λ e c, evMatrixClock e = Some c
|}.
Next Obligation. intros c E Ha. unfold New. simpl. by rewrite E, Ha. Qed.
Next Obligation. done. Qed.
Next Obligation. intros p c E Hc. unfold tickClock. rewrite E. simpl. by rewrite Hc. Qed.
Next Obligation.
  intros p c p' lc vc mc m E Hc. unfold sendClock. rewrite E. simpl. rewrite Hc.
  by intros [= <- <- <- <-] _ _ ->.
Qed.
Next Obligation. intros p c m E Hc. unfold receiveClock. rewrite E. simpl. by rewrite Hc. Qed.
Next Obligation. intros p e c Hc _ _ E. simpl. by rewrite E, Hc. Qed.
End instances.

(** ** Properties *)

(** A system of new processes of one clock type, in immediate delivery mode,
    that has published nothing. *)
Definition starts `{MapRange} {X : Type} (kind : string) (s : sys (X:=X)) : Prop :=
  msgs s = [] ∧ trail (world s) = [] ∧
  ∀ id p, procs s !! id = Some p → ∃ c, p = New c ∧ cfgID c = id ∧
    cfgClockType c = kind ∧ cfgDeliveryMode c = ImmediateDelivery.

Definition pids_of {X : Type} (s : sys (X:=X)) (id : string) : list string :=
  match procs s !! id with Some p => cfgAllPIDs (cfg p) | None => [] end.

Lemma starts_pids `{MapRange} {X : Type} (s : sys (X:=X)) id p c :
  procs s !! id = Some p → p = New c → pids_of s id = cfgAllPIDs c.
Proof. intros E ->. unfold pids_of. by rewrite E. Qed.



(** The three processes of the witnesses: they start with the clock type
    [kind]; [P1] sends to [P2] after an event of [P3]. *)
Definition test_procs `{MapRange} (kind : string) : sys (X:=list Message) :=
  let mk id := New {| cfgID := id; cfgClockType := kind; cfgDeliveryMode := ImmediateDelivery;
                      cfgPeers := []; cfgAllPIDs := ["P1"; "P2"; "P3"] |} in
  {| procs := <["P1" := mk "P1"]> (<["P2" := mk "P2"]> (<["P3" := mk "P3"]> ∅));
     world := test_world; msgs := [] |}.

Lemma test_procs_starts `{MapRange} kind : starts kind (test_procs kind).
Proof.
  split_and!; [done..|]. intros id p. simpl. rewrite !lookup_insert_Some, lookup_empty.
  intros [[<- <-]|[_ [[<- <-]|[_ [[<- <-]|[_ ?]]]]]]; [by eexists..|done].
Qed.

Definition test_trace : list act := [AInternal "P3"; ASend "P1"; ARecv "P2" 1].

Lemma test_trace_hb : hb test_trace 1 2.
Proof. apply tc_once. split; [lia|]. do 2 eexists. split_and!; [reflexivity..|]. by right. Qed.

(** The run of the witnesses and its last two events. *)
Definition test_args (_ : nat) : string * any := ("P2", ANil).

Lemma test_run_events kind :
  kind = ClockVector ∨ kind = ClockLamport →
  let r := canonical_range in
  ∃ s e f, sys_run test_now test_args (test_procs kind) test_trace = Some s ∧
    trail (world s) !! 1 = Some e ∧ trail (world s) !! 2 = Some f.
Proof.
  intros Hk r.
  assert ((s ← sys_run test_now test_args (test_procs kind) test_trace;
    _ ← trail (world s) !! 1; _ ← trail (world s) !! 2; Some ()) = Some ()) as Hv.
  { destruct Hk as [-> | ->]; vm_compute; reflexivity. }
  apply bind_Some in Hv as (s & E & Hv). apply bind_Some in Hv as (e & Ee & Hv).
  apply bind_Some in Hv as (f & Ef & _). exists s, e, f. split_and!; assumption.
Qed.


