(* ===== verification/MatrixSystem.v ===== *)
(** * Systems of matrix-clock processes

    Which sequences of events a system of processes can perform, and the
    local sequence numbers of what it publishes, whatever its clock type.
    With System.v and Execution.v this gives the theorems about matrix clocks
    for the processes of src/internal/process/process.go: the bound [CanGC]
    computes is safe, and the system behaves as the same system with vector
    clocks does. *)
From stdpp Require Import gmap strings list.
From S2P Require Import Prelude Lamport Matrix Execution Events VClock HoldBack Process System.

(** ** The effect of one event *)
Section effect.
Context `{MapRange} (now : nat → Z) {X : Type}.
Implicit Types (s : sys (X:=X)) (p : Process) (w : World X).

Lemma tickClock_seq p : localSeq (tickClock p) = localSeq p.
Proof. unfold tickClock. by repeat case_bool_decide. Qed.

Lemma receiveClock_seq p m : localSeq (receiveClock p m) = localSeq p.
Proof. unfold receiveClock. by repeat case_bool_decide. Qed.

Lemma sendClock_seq p : localSeq (sendClock p).1 = localSeq p.
Proof. unfold sendClock. repeat case_bool_decide; [by destruct (lamportClock p)|done..]. Qed.

(** [p'] and [w'] are [p] and [w] after publishing one event. *)
Definition emitted p w p' w' : Prop :=
  cfg p' = cfg p ∧ localSeq p' = u64_succ (localSeq p) ∧
  ∃ e, trail w' = trail w ++ [e] ∧ evProcessID e = cfgID (cfg p) ∧
    evLocalSeq e = u64_succ (localSeq p).

Lemma emit_emitted p w t msg p' w' :
  emitEventLocked now (p, w) t msg = (p', w') → emitted p w p' w'.
Proof. intros [= <- <-]. split_and!; [done..|]. by eexists. Qed.

(** An event of process [p] of the system, which may put a message [om] on
    the network. *)
Definition performed s s' (a : act) (om : option Message) : Prop :=
  ∃ p p', procs s !! act_pid a = Some p ∧ emitted p (world s) p' (world s') ∧
    procs s' = <[act_pid a := p']> (procs s) ∧ msgs s' = msgs s ++ [om].

(** What a step needs to happen, and what it does. *)
Definition enabled s (a : act) : Prop :=
  is_Some (procs s !! act_pid a) ∧
  ∀ q i, a = ARecv q i → ∃ m, msgs s !! i = Some (Some m).

Definition immediate s : Prop :=
  (∀ id p, procs s !! id = Some p → cfgDeliveryMode (cfg p) = ImmediateDelivery) ∧
  (∀ i m, msgs s !! i = Some (Some m) → IsMarker m = false).

Lemma sys_step_performed args s a s' :
  immediate s → sys_step now args s a = Some s' →
  ∃ om, performed s s' a om ∧ (is_Some om ↔ a = ASend (act_pid a)) ∧
    (∀ m, om = Some m → IsMarker m = false).
Proof.
  intros [Hmode Hmk]. unfold sys_step, performed. intros (p & Ep & Hs)%bind_Some.
  destruct a as [q|q|q i]; cbn [act_pid] in *.
  - destruct (InternalEvent now p (world s)) as [p' w'] eqn:E. injection Hs as <-.
    apply emit_emitted in E as (Ec & El & e & Et & Ee & Es).
    rewrite ?tickClock_cfg, ?tickClock_seq in *.
    exists None. split; [|split; [split; [by intros [? [=]]|done]|by intros ? [=]]].
    exists p, p'. split_and!; try done. repeat split; [done..|by exists e].
  - destruct (args _) as [to data]. destruct (prepare now p (world s) to data) as [[p' w'] m] eqn:E.
    injection Hs as <-. revert E. unfold prepare.
    set (p0 := set_seqs p (u64_succ (msgSeq p)) (localSeq p)).
    pose proof (sendClock_cfg p0) as Hcfg. pose proof (sendClock_seq p0) as Hseq.
    destruct (sendClock p0) as [p1 [[lc vc] mc]]. simpl in Hcfg, Hseq. cbn [time_Now].
    destruct (emitEventLocked (X:=X) now _ EvtSend _) as [p2 w2] eqn:E. intros [= <- <- <-].
    apply emit_emitted in E as (Ec & El & e & Et & Ee & Es). rewrite ?Hcfg, ?Hseq in *.
    eexists (Some _). split; [exists p, p2; split_and!; try done|split; [split; [done|by eexists]|]].
    + repeat split; [done..|by exists e].
    + by intros ? [= <-].
  - destruct (msgs s !! i) as [[m|]|] eqn:Hi; [|done..]. simpl in Hs.
    rewrite handle_immediate in Hs by eauto.
    destruct (deliverImmediate now p (world s) m) as [p' w'] eqn:E. injection Hs as <-.
    unfold deliverImmediate in E. apply emit_emitted in E as (Ec & El & e & Et & Ee & Es).
    rewrite ?receiveClock_cfg, ?receiveClock_seq in *.
    exists None. split; [|split; [split; [by intros [? [=]]|done]|by intros ? [=]]].
    exists p, p'. split_and!; try done. repeat split; [done..|by exists e].
Qed.

Lemma sys_step_enabled args s a : is_Some (sys_step now args s a) ↔ enabled s a.
Proof.
  unfold enabled, sys_step. destruct (procs s !! act_pid a) as [p|]; simpl.
  2: { split; [by intros [? [=]]|]. by intros [[? [=]] _]. }
  destruct a as [q|q|q i]; cbn [act_pid].
  - destruct (InternalEvent now p (world s)). split; [|eauto]. intros _. split; [eauto|by intros].
  - destruct (args _). destruct (prepare now p (world s) _ _) as [[] ?].
    split; [|eauto]. intros _. split; [eauto|by intros].
  - destruct (msgs s !! i) as [[m|]|] eqn:Hi; simpl.
    + destruct (handleMessage now None p (world s) m). split; [|eauto].
      intros _. split; [eauto|]. intros ?? [= <- <-]. eauto.
    + split; [by intros [? [=]]|]. intros [_ Hm]. destruct (Hm q i eq_refl) as (? & ?). congruence.
    + split; [by intros [? [=]]|]. intros [_ Hm]. destruct (Hm q i eq_refl) as (? & ?). congruence.
Qed.
End effect.

(** ** Runs *)
Section runs.
Context `{MapRange} (now : nat → Z) {X : Type}.
Implicit Types (s : sys (X:=X)) (tr : list act).

(** A counter that has been incremented [n] times from zero. *)
Definition wrapped (n : N) : N := (n mod two64)%N.

Lemma wrapped_succ n : u64_succ (wrapped n) = wrapped (n + 1).
Proof. unfold u64_succ, u64_add, wrapped. by rewrite N.Div0.add_mod_idemp_l. Qed.

Lemma wrapped_small n : (n <= MaxUint64)%N → wrapped n = n.
Proof. intros Hn. apply N.mod_small. unfold MaxUint64, two64 in *. lia. Qed.

(** The state after the sequence [tr], from [s0]: the same processes, each
    with its events counted, an event and perhaps a message for each action. *)
Record shape (s0 : sys (X:=X)) (tr : list act) (s : sys (X:=X)) : Prop := {
  sh_imm : immediate s;
  sh_dom id : is_Some (procs s !! id) ↔ is_Some (procs s0 !! id);
  sh_proc id p : procs s !! id = Some p → cfgID (cfg p) = id ∧ localSeq p = wrapped (count id tr);
  sh_len : length (trail (world s)) = length tr;
  sh_event i e a : trail (world s) !! i = Some e → tr !! i = Some a →
    evProcessID e = act_pid a ∧ evLocalSeq e = wrapped (count (act_pid a) (take (S i) tr));
  sh_mlen : length (msgs s) = length tr;
  sh_msg i : (∃ m, msgs s !! i = Some (Some m)) ↔ ∃ q, tr !! i = Some (ASend q)
}.

Lemma shape_init kind s0 : starts kind s0 → shape s0 [] s0.
Proof.
  intros (Hm & Ht & Hp). split.
  - split; [|by rewrite Hm]. intros id p (c & -> & _ & _ & Hd)%Hp. done.
  - done.
  - intros id p (c & -> & Hid & _)%Hp. done.
  - by rewrite Ht.
  - by intros ????.
  - by rewrite Hm.
  - intros i. rewrite Hm. split; intros [? [=]].
Qed.

Lemma lookup_snoc_Some {A} (l : list A) x i y :
  (l ++ [x]) !! i = Some y ↔ l !! i = Some y ∨ i = length l ∧ x = y.
Proof.
  rewrite lookup_app_Some, list_lookup_singleton_Some. split.
  - intros [?|(? & ? & ?)]; [by left|right]. split; [lia|done].
  - intros [?|[-> ?]]; [by left|right]. split_and!; [lia|lia|done].
Qed.

Lemma shape_snoc args s0 tr s a s' :
  shape s0 tr s → sys_step now args s a = Some s' → shape s0 (tr ++ [a]) s'.
Proof.
  intros [Himm Hdom Hproc Hlen Hev Hml Hmsg] Hs.
  destruct (sys_step_performed now args s a s' Himm Hs)
    as (om & (p & p' & Ep & (Ec & El & e & Et & Ee & Es) & Hp & Hm) & Hsend & Hmk).
  destruct (Hproc _ _ Ep) as [Hid Hseq]. rewrite Hid, Hseq, wrapped_succ in *.
  assert (wrapped (count (act_pid a) tr + 1) = wrapped (count (act_pid a) (tr ++ [a]))) as Ecount
    by by rewrite count_snoc, decide_True.
  split.
  - split.
    + intros id q. rewrite Hp, lookup_insert_Some. intros [[<- <-]|[_ Hq]].
      * rewrite Ec. by eapply Himm.
      * by eapply Himm.
    + intros i m. rewrite Hm, lookup_snoc_Some. intros [Hi|[_ Ei]]; [by eapply Himm|by apply Hmk].
  - intros id. rewrite <- Hdom, Hp, lookup_insert_is_Some. split; [|destruct (decide (act_pid a = id)); auto].
    intros [<-|[_ ?]]; [by rewrite Ep|done].
  - intros id q. rewrite Hp, lookup_insert_Some, count_snoc. intros [[<- <-]|[Hne Hq]].
    + rewrite decide_True by done. by rewrite Ec, El.
    + rewrite decide_False by done. by apply Hproc.
  - rewrite Et, !length_app. simpl. lia.
  - intros i f b. rewrite Et, !lookup_snoc_Some. intros [Hi|[-> <-]] [Hj|[Hj <-]].
    + rewrite take_app_le by (apply lookup_lt_Some in Hj; lia). by apply Hev.
    + apply lookup_lt_Some in Hi. lia.
    + apply lookup_lt_Some in Hj. lia.
    + rewrite take_ge by (rewrite length_app; simpl; lia). by rewrite Es, Ecount.
  - rewrite Hm, !length_app. simpl. lia.
  - intros i. rewrite Hm. setoid_rewrite lookup_snoc_Some. split.
    + intros (m & [Hi|[-> ->]]).
      * destruct (proj1 (Hmsg i) ltac:(eauto)) as (q & Hq). eauto.
      * exists (act_pid a). right. rewrite Hml. split; [done|]. by apply Hsend.
    + intros (q & [Hi|[-> ->]]).
      * destruct (proj2 (Hmsg i) ltac:(eauto)) as (m & ?). eauto.
      * destruct (proj2 Hsend eq_refl) as [m ->]. eauto.
Qed.

Lemma shape_run kind args s0 tr s :
  starts kind s0 → sys_run now args s0 tr = Some s → shape s0 tr s.
Proof.
  intros Hst. revert s. induction tr as [|a tr IH] using rev_ind; intros s.
  - intros [= <-]. by eapply shape_init.
  - rewrite sys_run_snoc. intros (s1 & E1 & E2)%bind_Some. eapply shape_snoc; eauto.
Qed.

(** A system performs exactly the sequences in which every event is one of its
    processes' and every message received was sent before. *)
Lemma sys_run_total kind args s0 tr :
  starts kind s0 →
  is_Some (sys_run now args s0 tr) ↔
    valid_trace tr ∧ ∀ a, a ∈ tr → is_Some (procs s0 !! act_pid a).
Proof.
  intros Hst. induction tr as [|a tr IH] using rev_ind.
  - split; [|by eexists]. intros _. split; [by intros ???|by intros ? ?%elem_of_nil].
  - rewrite sys_run_snoc, valid_trace_snoc. split.
    + intros (s' & (s & Es & Hs)%bind_Some). destruct (proj1 IH ltac:(eauto)) as [Hv Ha].
      pose proof (shape_run _ _ _ _ _ Hst Es) as Hsh.
      destruct (proj1 (sys_step_enabled now args s a) ltac:(eauto)) as [Hp Hr].
      split; [split; [done|]|].
      * intros q i ->. by apply (sh_msg _ _ _ Hsh), (Hr q i).
      * intros b [Hb| ->%list_elem_of_singleton]%elem_of_app; [by apply Ha|by apply (sh_dom _ _ _ Hsh)].
    + intros [[Hv Hr] Ha]. destruct (proj2 IH) as [s Es].
      { split; [done|]. intros b Hb. apply Ha, elem_of_app. by left. }
      pose proof (shape_run _ _ _ _ _ Hst Es) as Hsh. rewrite Es. simpl.
      apply sys_step_enabled. split.
      * apply (sh_dom _ _ _ Hsh), Ha, elem_of_app. right. by apply list_elem_of_singleton.
      * intros q i ->. by apply (sh_msg _ _ _ Hsh), (Hr q i).
Qed.
End runs.

(** ** Matrix-clock systems *)
Section matrix.
Context `{MapRange} (now : nat → Z) {X : Type}.
Implicit Types (s : sys (X:=X)) (tr : list act).

Lemma matrix_refines_run args s0 tr s :
  starts ClockMatrix s0 → sys_run now args s0 tr = Some s →
  ∃ x, @exec_run _ _ (matrix_alg (pids_of s0)) tr = Some x ∧
    @refines _ X _ _ (matrix_alg (pids_of s0)) (matrix_tracks (pids_of s0)) s x.
Proof.
  intros (Hm & Ht & Hp) Hrun.
  eapply (@refines_run _ now X _ _ (matrix_alg (pids_of s0)) (matrix_tracks (pids_of s0))); [|done].
  split_and!; [done..|]. intros id p Ep. destruct (Hp id p Ep) as (c & E & Hid & Hk & Hd).
  exists c. split_and!; [done..|]. simpl. rewrite Hid. symmetry. by eapply starts_pids.
Qed.

Lemma vector_refines_run args s0 tr s pids :
  starts ClockVector s0 → (∀ id, pids id = pids_of s0 id) → sys_run now args s0 tr = Some s →
  ∃ x, @exec_run _ _ (vector_alg pids) tr = Some x ∧
    @refines _ X _ _ (vector_alg pids) (vector_tracks pids) s x.
Proof.
  intros (Hm & Ht & Hp) Hpids Hrun.
  eapply (@refines_run _ now X _ _ (vector_alg pids) (vector_tracks pids)); [|done].
  split_and!; [done..|]. intros id p Ep. destruct (Hp id p Ep) as (c & E & Hid & Hk & Hd).
  exists c. split_and!; [done..|]. simpl. rewrite Hid, Hpids. symmetry. by eapply starts_pids.
Qed.

(** The processes of the events, in order. *)
Lemma shape_pids s0 tr s : shape s0 tr s → evProcessID <$> trail (world s) = act_pid <$> tr.
Proof.
  intros Hsh. pose proof (sh_len _ _ _ Hsh) as Hl. apply list_eq_same_length with (length tr).
  - by rewrite length_fmap.
  - by rewrite length_fmap.
  - intros i u v _ (e & -> & He)%list_lookup_fmap_Some (a & -> & Ha)%list_lookup_fmap_Some.
    by eapply Hsh.
Qed.

Lemma filter_fmap_length {A} (f : A → string) q (l : list A) :
  length (filter (λ a, f a = q) l) = length (filter (λ r, r = q) (f <$> l)).
Proof.
  induction l as [|a l IH]; [done|]. rewrite fmap_cons, !filter_cons.
  by case_decide; simpl; rewrite IH.
Qed.

(** The number of events of process [q] in a trail. *)
Definition events_of (q : string) (es : list Event) : list Event :=
  filter (λ e, evProcessID e = q) es.

Lemma shape_count s0 tr s q :
  shape s0 tr s → N.of_nat (length (events_of q (trail (world s)))) = count q tr.
Proof.
  intros Hsh. unfold events_of, count. f_equal.
  by rewrite (filter_fmap_length evProcessID), (filter_fmap_length act_pid), (shape_pids _ _ _ Hsh).
Qed.
End matrix.

(** ** Properties *)

(** C2: garbage collection guided by a matrix clock is safe.  If the matrix of
    process [p] of a running system says that events of [q] up to [upTo] can
    be collected, then [q] has published that many, and each of them happened
    before, or is, an event of every process [k] that [p] was created with:
    nobody can still be unaware of it. *)
Theorem published_matrix_gc_safe `{MapRange} (now : nat → Z) {X : Type}
    (args : nat → string * any) (s0 s : sys (X:=X)) (tr : list act)
    (p q k : string) (P : Process) (mc : MatrixClock) (upTo : N) :
  starts ClockMatrix s0 → sys_run now args s0 tr = Some s →
  (N.of_nat (length tr) <= MaxUint64)%N →
  procs s !! p = Some P → matrixClock P = Some mc →
  CanGC mc q upTo = true → k ∈ pids_of s0 p →
  (upTo <= N.of_nat (length (events_of q (trail (world s)))))%N ∧
  ∀ i e, trail (world s) !! i = Some e → evProcessID e = q → (evLocalSeq e <= upTo)%N →
    ∃ j f, trail (world s) !! j = Some f ∧ evProcessID f = k ∧ (i = j ∨ hb tr i j).
Proof.
  intros Hst Hrun Hn HP Hmc Hgc Hk.
  destruct (matrix_refines_run _ _ _ _ _ Hst Hrun) as (x & Hx & Hr).
  pose proof (shape_run _ _ _ _ _ _ Hst Hrun) as Hsh.
  destruct (rf_proc _ _ Hr _ _ HP) as [_ Hcl]. simpl in Hcl. rewrite Hmc in Hcl.
  injection Hcl as ->. split.
  - rewrite (shape_count _ _ _ _ Hsh). by eapply (CanGC_safe _ _ _ _ _ _ _ Hx Hn Hgc Hk).
  - intros i e Hi Hq Hle.
    destruct (lookup_lt_is_Some_2 tr i) as [a Ha].
    { rewrite <- (sh_len _ _ _ Hsh). by eapply lookup_lt_Some. }
    destruct (sh_event _ _ _ Hsh _ _ _ Hi Ha) as [Ep Es].
    assert (act_pid a = q) as Eq by congruence. rewrite Eq, wrapped_small in Es.
    2: { pose proof (count_length q (take (S i) tr)) as Hc. rewrite length_take in Hc. lia. }
    rewrite Es in Hle.
    destruct (CanGC_past _ _ _ _ _ _ _ _ _ Hx Hn Hgc Hk Ha Eq Hle) as (j & b & Hj & Hb & Hor).
    destruct (lookup_lt_is_Some_2 (trail (world s)) j) as [f Hf].
    { rewrite (sh_len _ _ _ Hsh). by eapply lookup_lt_Some. }
    exists j, f. split; [done|]. split; [|done].
    destruct (sh_event _ _ _ Hsh _ _ _ Hf Hj) as [-> _]. done.
Qed.


(** Two processes that exchange a message and a reply. *)
Definition gc_procs `{MapRange} (kind : string) : sys (X:=list Message) :=
  let mk id := New {| cfgID := id; cfgClockType := kind; cfgDeliveryMode := ImmediateDelivery;
                      cfgPeers := []; cfgAllPIDs := ["P1"; "P2"] |} in
  {| procs := <["P1" := mk "P1"]> (<["P2" := mk "P2"]> ∅); world := test_world; msgs := [] |}.

Lemma gc_procs_starts `{MapRange} kind : starts kind (gc_procs kind).
Proof.
  split_and!; [done..|]. intros id p. simpl. rewrite !lookup_insert_Some, lookup_empty.
  intros [[<- <-]|[_ [[<- <-]|[_ ?]]]]; [by eexists..|done].
Qed.

Lemma gc_procs_pids `{MapRange} kind id :
  pids_of (gc_procs kind) id = if decide (id = "P1" ∨ id = "P2") then ["P1"; "P2"] else [].
Proof.
  unfold pids_of, gc_procs. simpl. rewrite !lookup_insert, lookup_empty.
  repeat case_decide; subst; naive_solver.
Qed.

Lemma gc_procs_dom `{MapRange} kind id :
  is_Some (procs (gc_procs kind) !! id) ↔ id = "P1" ∨ id = "P2".
Proof.
  unfold gc_procs. simpl. rewrite !lookup_insert_is_Some, lookup_empty, is_Some_alt.
  destruct (decide (id = "P1")), (decide (id = "P2")); naive_solver.
Qed.

(** Both runs of the witnesses succeed; after the reply, [P1] may collect its
    first event. *)
Lemma gc_matrix_run :
  let r := canonical_range in
  ∃ s P mc e, sys_run test_now test_args (gc_procs ClockMatrix) gc_trace = Some s ∧
    procs s !! "P1" = Some P ∧ matrixClock P = Some mc ∧ trail (world s) !! 0 = Some e ∧
    CanGC mc "P1" 1 = true ∧ evProcessID e = "P1" ∧ evLocalSeq e = 1%N ∧ length (trail (world s)) = 4.
Proof.
  intros r.
  assert ((s ← sys_run test_now test_args (gc_procs ClockMatrix) gc_trace;
    P ← procs s !! "P1"; mc ← matrixClock P; e ← trail (world s) !! 0;
    Some (CanGC mc "P1" 1, evProcessID e, evLocalSeq e, length (trail (world s)))) =
    Some (true, "P1", 1%N, 4)) as Hv by (vm_compute; reflexivity).
  apply bind_Some in Hv as (s & E & Hv). apply bind_Some in Hv as (P & EP & Hv).
  apply bind_Some in Hv as (mc & Emc & Hv). apply bind_Some in Hv as (e & Ee & [= Hgc Hp Hl Hn]).
  exists s, P, mc, e. split_and!; assumption.
Qed.

Lemma published_matrix_gc_safe_witness :
  let r := canonical_range in
  ∃ s P mc e, sys_run test_now test_args (gc_procs ClockMatrix) gc_trace = Some s ∧
    procs s !! "P1" = Some P ∧ matrixClock P = Some mc ∧ CanGC mc "P1" 1 = true ∧
    trail (world s) !! 0 = Some e ∧ evProcessID e = "P1" ∧ evLocalSeq e = 1%N ∧
    ∃ j f, trail (world s) !! j = Some f ∧ evProcessID f = "P2" ∧ (0 = j ∨ hb gc_trace 0 j).
Proof.
  intros r. destruct gc_matrix_run as (s & P & mc & e & E & EP & Emc & Ee & Hgc & Hp & Hl & _).
  exists s, P, mc, e. split_and!; [assumption..|].
  eapply (published_matrix_gc_safe test_now test_args (gc_procs ClockMatrix) s gc_trace "P1" "P1" "P2"
    P mc 1 (gc_procs_starts _) E); [by vm_compute|assumption..| |exact Ee|exact Hp|by rewrite Hl].
  rewrite gc_procs_pids, decide_True by (by left). apply list_elem_of_In. simpl. auto.
Defined.

