(* ===== verification/Conflict.v ===== *)
(** * The multi-version store (src/internal/conflict/detector.go,
    src/internal/conflict/resolver.go, src/internal/conflict/antientropy.go,
    src/internal/process/kvstore.go)

    A key keeps a list of versions with vector clocks.  A write compares the
    context its author had read with every stored version; [Sync] absorbs the
    versions of another replica; [Resolve] picks one version. *)
From stdpp Require Import gmap strings list.
From S2P Require Import Prelude Events VClock.

(** ** Data *)

Definition MaxKeys : nat := N.to_nat 10000.
Definition MaxSiblingsPerKey : nat := 64.

Record ValueVersion := {
  Value : list Byte.byte;
  Clock : VectorClock;
  Author : string;
  Written : Z
}.

Record MVCCEntry := { Key : string; Versions : list ValueVersion }.

(** [type ConflictDetector struct]; the bus is optional. *)
Record ConflictDetector := { store : gmap string MVCCEntry; cdbus : option EventBus }.

Definition New (bus : option EventBus) : ConflictDetector := {| store := ∅; cdbus := bus |}.

Definition set_store (d : ConflictDetector) s : ConflictDetector := {| store := s; cdbus := cdbus d |}.

(** [type ConflictResolution int] and its constants; any other number takes
    the [default] branch like [ManualResolution]. *)
Inductive ConflictResolution :=
  LastWriterWins | FirstWriterWins | KeepAll | ManualResolution | MergeFunc.

#[export] Instance ConflictResolution_eq_dec : EqDecision ConflictResolution.
Proof. solve_decision. Defined.

(** [type SyncResultItem struct]. *)
Record SyncResultItem := { siKey : string; siMerged : bool; siConflict : bool }.

(** The result of a call that may panic. *)
Inductive go_result (A : Type) := Returns (a : A) | Panics.
Arguments Returns {A}. Arguments Panics {A}.

(** ** Resolver *)

(** The winner's loop of [Resolve]: [better v winner] replaces it. *)
Definition pick (better : ValueVersion → ValueVersion → bool) (first : ValueVersion)
    (rest : list ValueVersion) : ValueVersion :=
  foldl (λ winner v, if better v winner then v else winner) first rest.

Definition Resolve (versions : list ValueVersion) (strategy : ConflictResolution) :
    option ValueVersion :=
  match versions with
  | [] => None
  | [v] => Some v
  | first :: rest =>
      match strategy with
      | LastWriterWins => Some (pick (λ v w, Z.ltb (Written w) (Written v)) first rest)
      | FirstWriterWins => Some (pick (λ v w, Z.ltb (Written v) (Written w)) first rest)
      | KeepAll => Some first
      | _ => versions !! (length versions - 1)
      end
  end.

Definition resolver : Type := list ValueVersion → go_result (option ValueVersion).

Definition ResolveWithFunc (versions : list ValueVersion) (fn : resolver) :
    go_result (option ValueVersion) :=
  match versions with
  | [] => Returns None
  | _ => fn versions
  end.

Definition RegisterResolver (rs : gmap string resolver) (name : string) (fn : resolver) :
    gmap string resolver := <[name := fn]> rs.

Definition GetResolver (rs : gmap string resolver) (name : string) : option resolver := rs !! name.

(** The registry after [init]; ["keep_all"] indexes without a check. *)
Definition customResolvers : gmap string resolver :=
  let rs := RegisterResolver ∅ "lww" (λ vs, Returns (Resolve vs LastWriterWins)) in
  let rs := RegisterResolver rs "fww" (λ vs, Returns (Resolve vs FirstWriterWins)) in
  RegisterResolver rs "keep_all" (λ vs,
    match vs with v :: _ => Returns (Some v) | [] => Panics end).

(** ** Detector *)
Section detector.
Context `{MapRange}.

(** The body of the loop of [Write] over the existing versions. *)
Definition write_scan (ctxVC : VectorClock) (acc : list ValueVersion * VectorClock * bool)
    (existing : ValueVersion) : list ValueVersion * VectorClock * bool :=
  let '(survivors, mergeClock, hasConflict) := acc in
  match Compare ctxVC (Clock existing) with
  | HappenedBefore => (survivors ++ [existing], mergeClock, true)
  | HappenedAfter | Identical => (survivors, mergeClock, hasConflict)
  | Concurrent => (survivors ++ [existing], MergePassive mergeClock (Clock existing), true)
  end.

Definition trimOldest (versions : list ValueVersion) (n : nat) : list ValueVersion :=
  if (n =? 0) || (length versions <=? n) then versions else drop n versions.

(** The event [Write] publishes about a conflict. *)
Definition conflict_event (key : string) (now : Z) : Event :=
  {| evID := ""; evType := EvtConflict; evProcessID := ""; evTimestamp := now; evLocalSeq := 0;
     evGlobalSeq := 0; evLamportClock := None; evVectorClock := None; evMatrixClock := None;
     evMessage := None; evSnapshot := None;
     evConflict := Some {| cpKey := key; cpSiblings := ANil |}; evNarration := "" |}.

(** [Write] at time [now1], with its event at [now2]: the new version and
    whether there was a conflict, or an error. *)
Definition Write (d : ConflictDetector) (key : string) (value : list Byte.byte)
    (ctxVC : VectorClock) (authorID : string) (now1 now2 : Z) :
    ConflictDetector * (ValueVersion * bool + string) :=
  if bool_decide (key = "") then (d, inr "key required")
  else if bool_decide (authorID = "") then (d, inr "authorID required")
  else match store d !! key with
  | None =>
      if MaxKeys <=? size (store d) then (d, inr "conflict store full (max 10000 keys)")
      else
        let newVersion := {| Value := value; Clock := Tick ctxVC authorID; Author := authorID;
                             Written := now1 |} in
        (set_store d (<[key := {| Key := key; Versions := [newVersion] |}]> (store d)),
         inl (newVersion, false))
  | Some current =>
      let '(survivors, mergeClock, hasConflict) :=
        foldl (write_scan ctxVC) ([], Copy ctxVC, false) (Versions current) in
      let newVersion := {| Value := value; Clock := Tick mergeClock authorID; Author := authorID;
                           Written := now1 |} in
      let survivors := survivors ++ [newVersion] in
      let survivors := if MaxSiblingsPerKey <? length survivors
                       then trimOldest survivors (length survivors - MaxSiblingsPerKey)
                       else survivors in
      let d := set_store d (<[key := {| Key := Key current; Versions := survivors |}]> (store d)) in
      let d := if hasConflict
               then {| store := store d;
                       cdbus := (λ b, Publish b (conflict_event key now2)) <$> cdbus d |}
               else d in
      (d, inl (newVersion, hasConflict))
  end.

Definition Read (d : ConflictDetector) (key : string) : list ValueVersion :=
  match store d !! key with Some entry => Versions entry | None => [] end.

(** The [Resolve] method of [ConflictDetector]. *)
Definition ResolveKey (d : ConflictDetector) (key : string) (strategy : ConflictResolution) :
    ConflictDetector * option ValueVersion :=
  match store d !! key with
  | None => (d, None)
  | Some entry =>
      match Versions entry with
      | [] => (d, None)
      | _ =>
          match Resolve (Versions entry) strategy with
          | Some winner =>
              if bool_decide (strategy ≠ KeepAll)
              then (set_store d (<[key := {| Key := Key entry; Versions := [winner] |}]> (store d)),
                    Some winner)
              else (d, Some winner)
          | None => (d, None)
          end
      end
  end.

(** ** Anti-entropy *)

(** The first inner loop of [Sync]: is the remote version covered? *)
Fixpoint absorbed (rv : ValueVersion) (lvs : list ValueVersion) : bool :=
  match lvs with
  | [] => false
  | lv :: lvs =>
      match Compare (Clock rv) (Clock lv) with
      | HappenedBefore | Identical => true
      | HappenedAfter | Concurrent => absorbed rv lvs
      end
  end.

(** The second inner loop: [dominatesAll] and [allConcurrent]. *)
Fixpoint dominates_all (rv : ValueVersion) (lvs : list ValueVersion)
    (dominatesAll allConcurrent : bool) : bool * bool :=
  match lvs with
  | [] => (dominatesAll, allConcurrent)
  | lv :: lvs =>
      match Compare (Clock rv) (Clock lv) with
      | HappenedBefore | Identical => (false, false)
      | HappenedAfter => dominates_all rv lvs dominatesAll false
      | Concurrent => dominates_all rv lvs dominatesAll allConcurrent
      end
  end.

(** One remote version against the local versions. *)
Definition sync_version (acc : list ValueVersion * bool * bool) (rv : ValueVersion) :
    list ValueVersion * bool * bool :=
  let '(versions, changed, hasConflict) := acc in
  if absorbed rv versions then acc
  else
    let '(dominatesAll, allConcurrent) := dominates_all rv versions true true in
    if dominatesAll then ([rv], true, hasConflict)
    else (versions ++ [rv], true, if negb allConcurrent then true else hasConflict).

Definition copyVersions (src : list ValueVersion) : list ValueVersion := src.

(** One key of the remote map; a nil entry is [None]. *)
Definition sync_key (key : string) (remoteEntry : option MVCCEntry)
    (acc : gmap string MVCCEntry * list SyncResultItem) : gmap string MVCCEntry * list SyncResultItem :=
  let '(st, result) := acc in
  match remoteEntry with
  | None => acc
  | Some remoteEntry =>
      if length (Versions remoteEntry) =? 0 then acc
      else match st !! key with
      | None =>
          (<[key := {| Key := key; Versions := copyVersions (Versions remoteEntry) |}]> st,
           result ++ [{| siKey := key; siMerged := true; siConflict := false |}])
      | Some localEntry =>
          let '(versions, changed, hasConflict) :=
            foldl sync_version (Versions localEntry, false, false) (Versions remoteEntry) in
          let st := <[key := {| Key := Key localEntry; Versions := versions |}]> st in
          if changed
          then (st, result ++ [{| siKey := key; siMerged := true; siConflict := hasConflict |}])
          else (st, result)
      end
  end.

Definition Sync (d : ConflictDetector) (remote : gmap string (option MVCCEntry)) :
    ConflictDetector * list SyncResultItem :=
  let '(st, result) := for_range remote sync_key (store d, []) in
  (set_store d st, result).

(** ** The causal key-value store: [CausalKV] *)
Definition CausalKV : Type := ConflictDetector.
Definition NewCausalKV (bus : option EventBus) : CausalKV := New bus.
Definition KVGet (kv : CausalKV) (key : string) : list ValueVersion := Read kv key.
Definition KVPut (kv : CausalKV) (key : string) (value : list Byte.byte) (ctxVC : VectorClock)
    (author : string) (now1 now2 : Z) : CausalKV * (ValueVersion * bool + string) :=
  Write kv key value ctxVC author now1 now2.
Definition KVResolve (kv : CausalKV) (key : string) (strategy : ConflictResolution) :
    CausalKV * option ValueVersion := ResolveKey kv key strategy.
Definition KVMerge (kv : CausalKV) (remote : gmap string (option MVCCEntry)) :
    CausalKV * list string :=
  let '(kv, items) := Sync kv remote in
  (kv, foldl (λ keys item, if siMerged item then keys ++ [siKey item] else keys) [] items).
End detector.

(** ** Facts *)
Section facts.
Context `{MapRange}.

(** Whether a write with context [ctx] keeps a version, and whether the
    version's clock goes into the new one's. *)
Definition keeps (ctx : VectorClock) (v : ValueVersion) : bool :=
  match Compare ctx (Clock v) with HappenedBefore | Concurrent => true | _ => false end.

(** A version is kept exactly when the context does not cover it. *)
Lemma keeps_spec ctx v : keeps ctx v = false ↔ vc_le (Clock v) ctx.
Proof.
  unfold keeps. pose proof (Compare_correct ctx (Clock v)) as C. destruct (Compare ctx (Clock v)).
  - split; [done|]. intros Hle. destruct C as [_ [k Hk]]. specialize (Hle k). lia.
  - split; [|done]. intros _. by apply vc_lt_le.
  - split; [done|]. intros Hle. destruct C as [[k Hk] _]. specialize (Hle k). lia.
  - split; [|done]. intros _ k. rewrite C. lia.
Qed.

Lemma write_scan_spec ctx vs s m h :
  ∃ mc, foldl (write_scan ctx) (s, m, h) vs =
      (s ++ filter (λ v, keeps ctx v = true) vs, mc, h || existsb (keeps ctx) vs) ∧
    vc_le m mc ∧
    (∀ v, v ∈ vs → Compare ctx (Clock v) = Concurrent → vc_le (Clock v) mc) ∧
    (∀ u, vc_le m u → (∀ v, v ∈ vs → Compare ctx (Clock v) = Concurrent → vc_le (Clock v) u) →
       vc_le mc u).
Proof.
  revert s m h. induction vs as [|v vs IH]; intros s m h.
  { exists m. simpl. rewrite app_nil_r, orb_false_r. split_and!; [done|done| |by auto].
    intros v []%elem_of_nil. }
  cbn [foldl write_scan existsb]. rewrite filter_cons.
  destruct (Compare ctx (Clock v)) eqn:E.
  - assert (keeps ctx v = true) as K by (unfold keeps; by rewrite E).
    destruct (IH (s ++ [v]) m true) as (mc & -> & Hm & Hc & Hu). exists mc.
    rewrite decide_True, K, <- (assoc_L (++)) by done. rewrite orb_true_r.
    split_and!; [done|done| |].
    + intros v' [->|?]%elem_of_cons Hcc; [congruence|by apply Hc].
    + intros u Hmu Hall. apply Hu; [done|]. intros; apply Hall; [by right|done].
  - assert (keeps ctx v = false) as K by (unfold keeps; by rewrite E).
    destruct (IH s m h) as (mc & -> & Hm & Hc & Hu). exists mc.
    rewrite decide_False, K by (by rewrite K).
    split_and!; [done|done| |].
    + intros v' [->|?]%elem_of_cons Hcc; [congruence|by apply Hc].
    + intros u Hmu Hall. apply Hu; [done|]. intros; apply Hall; [by right|done].
  - assert (keeps ctx v = true) as K by (unfold keeps; by rewrite E).
    destruct (IH (s ++ [v]) (MergePassive m (Clock v)) true) as (mc & -> & Hm & Hc & Hu). exists mc.
    rewrite decide_True, K, <- (assoc_L (++)) by done. rewrite orb_true_r. split_and!; [done|..].
    + etrans; [apply vc_le_merge_l|done].
    + intros v' [->|Hv]%elem_of_cons Hcc; [|by apply Hc]. etrans; [apply vc_le_merge_r|done].
    + intros u Hmu Hall. apply Hu; [|intros; apply Hall; [by right|done]].
      apply vc_merge_least; [done|]. apply Hall; [by left|done].
  - assert (keeps ctx v = false) as K by (unfold keeps; by rewrite E).
    destruct (IH s m h) as (mc & -> & Hm & Hc & Hu). exists mc.
    rewrite decide_False, K by (by rewrite K).
    split_and!; [done|done| |].
    + intros v' [->|?]%elem_of_cons Hcc; [congruence|by apply Hc].
    + intros u Hmu Hall. apply Hu; [done|]. intros; apply Hall; [by right|done].
Qed.

(** The trimmed list is the last [MaxSiblingsPerKey] versions. *)
Lemma trim_lastn vs :
  (if MaxSiblingsPerKey <? length vs then trimOldest vs (length vs - MaxSiblingsPerKey) else vs) =
  lastn MaxSiblingsPerKey vs.
Proof.
  unfold lastn, trimOldest. destruct (Nat.ltb_spec MaxSiblingsPerKey (length vs)) as [Hlt|Hge].
  - rewrite (proj2 (Nat.eqb_neq _ 0)) by lia.
    rewrite (proj2 (Nat.leb_gt _ _)); [done|]. unfold MaxSiblingsPerKey in *. lia.
  - by replace (length vs - MaxSiblingsPerKey) with 0 by lia.
Qed.

(** A write next to a single version that it keeps. *)
Lemma kept_one ctx v nv :
  keeps ctx v = true →
  lastn MaxSiblingsPerKey (filter (λ v, keeps ctx v = true) [v] ++ [nv]) = [v; nv].
Proof. intros K. by rewrite filter_cons, filter_nil, decide_True. Qed.

Lemma lastn_length {A} n (l : list A) : length (lastn n l) = length l `min` n.
Proof. unfold lastn. rewrite length_drop. lia. Qed.

(** What [Write] does to a key that exists. *)
Lemma Write_existing d key value ctx author t1 t2 cur :
  key ≠ "" → author ≠ "" → store d !! key = Some cur →
  ∃ mc, let nv := {| Value := value; Clock := Tick mc author; Author := author; Written := t1 |} in
    let conflict := existsb (keeps ctx) (Versions cur) in
    store (Write d key value ctx author t1 t2).1 =
      <[key := {| Key := Key cur; Versions :=
        lastn MaxSiblingsPerKey (filter (λ v, keeps ctx v = true) (Versions cur) ++ [nv]) |}]> (store d) ∧
    cdbus (Write d key value ctx author t1 t2).1 =
      (if conflict then (λ b, Publish b (conflict_event key t2)) <$> cdbus d else cdbus d) ∧
    (Write d key value ctx author t1 t2).2 = inl (nv, conflict) ∧
    vc_le ctx mc ∧
    (∀ v, v ∈ Versions cur → Compare ctx (Clock v) = Concurrent → vc_le (Clock v) mc) ∧
    (∀ u, vc_le ctx u →
       (∀ v, v ∈ Versions cur → Compare ctx (Clock v) = Concurrent → vc_le (Clock v) u) → vc_le mc u).
Proof.
  intros Hk Ha Hcur. unfold Write. rewrite !bool_decide_false by done. rewrite Hcur.
  destruct (write_scan_spec ctx (Versions cur) [] (Copy ctx) false) as (mc & -> & Hm & Hc & Hu).
  rewrite Copy_id in *. exists mc. rewrite trim_lastn. simpl.
  destruct (existsb _ _); split_and!; done.
Qed.

(** ** Anti-entropy facts *)
Lemma absorbed_spec rv lvs :
  absorbed rv lvs = true ↔ ∃ lv, lv ∈ lvs ∧ vc_le (Clock rv) (Clock lv).
Proof.
  induction lvs as [|lv lvs IH]; simpl.
  - split; [done|]. by intros (? & []%elem_of_nil & _).
  - setoid_rewrite elem_of_cons. pose proof (Compare_correct (Clock rv) (Clock lv)) as C.
    assert (¬ vc_le (Clock rv) (Clock lv) →
      (∃ x, x ∈ lvs ∧ vc_le (Clock rv) (Clock x)) ↔
      (∃ x, (x = lv ∨ x ∈ lvs) ∧ vc_le (Clock rv) (Clock x))) as Hskip by naive_solver.
    destruct (Compare (Clock rv) (Clock lv)).
    + split; [|done]. intros _. exists lv. split; [by left|by apply vc_lt_le].
    + rewrite IH. apply Hskip. intros Hle. destruct C as [_ [k Hk]]. specialize (Hle k). lia.
    + rewrite IH. apply Hskip. intros Hle. destruct C as [_ [k Hk]]. specialize (Hle k). lia.
    + split; [|done]. intros _. exists lv. split; [by left|]. intros k. rewrite C. lia.
Qed.

(** A version that no local one covers passes the second loop as if it
    dominated them all. *)
Lemma dominates_all_unabsorbed rv lvs c :
  absorbed rv lvs = false → (dominates_all rv lvs true c).1 = true.
Proof.
  revert c. induction lvs as [|lv lvs IH]; intros c; simpl; [done|].
  destruct (Compare (Clock rv) (Clock lv)); try done; apply IH.
Qed.

Lemma sync_version_spec vs ch hc rv :
  sync_version (vs, ch, hc) rv = if absorbed rv vs then (vs, ch, hc) else ([rv], true, hc).
Proof.
  unfold sync_version. destruct (absorbed rv vs) eqn:E; [done|].
  pose proof (dominates_all_unabsorbed rv vs true E) as Ed.
  destruct (dominates_all rv vs true true) as [dm ac]. simpl in Ed. by rewrite Ed.
Qed.

(** Folding remote versions over local ones leaves the local ones or a single
    remote one, and never reports a conflict. *)
Lemma sync_versions_spec rvs vs ch :
  ∃ vs' ch', foldl sync_version (vs, ch, false) rvs = (vs', ch', false) ∧
    (vs' = vs ∧ ch' = ch ∨ ∃ rv, rv ∈ rvs ∧ vs' = [rv] ∧ ch' = true).
Proof.
  revert vs ch. induction rvs as [|rv rvs IH]; intros vs ch.
  { exists vs, ch. split; [done|by left]. }
  cbn [foldl]. rewrite sync_version_spec. destruct (absorbed rv vs).
  - destruct (IH vs ch) as (vs' & ch' & E & Hor). exists vs', ch'. split; [done|].
    destruct Hor as [?|(x & ? & ? & ?)]; [by left|right]. exists x. set_solver.
  - destruct (IH [rv] true) as (vs' & ch' & E & Hor). exists vs', ch'. split; [done|]. right.
    destruct Hor as [[-> ->]|(x & ? & ? & ?)]; [exists rv|exists x]; set_solver.
Qed.

(** The store part of [sync_key] is an update of the visited key alone. *)
Definition sync_entry (key : string) (re : option MVCCEntry) (o : option MVCCEntry) :
    option MVCCEntry :=
  match re with
  | None => o
  | Some re =>
      if length (Versions re) =? 0 then o
      else match o with
      | None => Some {| Key := key; Versions := Versions re |}
      | Some le =>
          Some {| Key := Key le;
                  Versions := (foldl sync_version (Versions le, false, false) (Versions re)).1.1 |}
      end
  end.

Lemma sync_key_store key re acc :
  (sync_key key re acc).1 = partial_alter (sync_entry key re) key acc.1.
Proof.
  destruct acc as [st res]. destruct re as [re|]; simpl.
  2: { symmetry. apply (partial_alter_same st key). }
  unfold sync_entry. destruct (length (Versions re) =? 0) eqn:E0; simpl.
  { symmetry. apply (partial_alter_same st key). }
  apply map_eq. intros j. destruct (st !! key) as [le|] eqn:E; simpl.
  - destruct (foldl sync_version _ _) as [[vs ch] hc] eqn:Ef. destruct ch; simpl;
      (destruct (decide (j = key)) as [->|];
       [by rewrite lookup_insert_eq, lookup_partial_alter_eq, E, Ef
       |by rewrite lookup_insert_ne, lookup_partial_alter_ne]).
  - destruct (decide (j = key)) as [->|];
      [by rewrite lookup_insert_eq, lookup_partial_alter_eq, E
      |by rewrite lookup_insert_ne, lookup_partial_alter_ne].
Qed.

Lemma foldl_fst {A B C} (f : A → C → A) (g : A * B → C → A * B) (l : list C) (acc : A * B) :
  (∀ acc c, (g acc c).1 = f acc.1 c) → (foldl g acc l).1 = foldl f acc.1 l.
Proof.
  intros Hg. revert acc. induction l as [|c l IH]; intros acc; simpl; [done|].
  by rewrite IH, Hg.
Qed.

Lemma Sync_lookup d remote key :
  store (Sync d remote).1 !! key =
    match remote !! key with
    | Some re => sync_entry key re (store d !! key)
    | None => store d !! key
    end.
Proof.
  unfold Sync. destruct (for_range remote sync_key (store d, [])) as [st res] eqn:E. simpl.
  change st with (st, res).1. rewrite <- E. unfold for_range.
  rewrite (foldl_fst (λ m kv, partial_alter (sync_entry kv.1 kv.2) kv.1 m))
    by (intros [] []; apply sync_key_store).
  change (foldl _ _ (range remote)) with
    (for_range remote (λ k re m, partial_alter (sync_entry k re) k m) (store d)).
  rewrite (for_range_lookup _ sync_entry) by done. by destruct (remote !! key).
Qed.

Lemma Sync_no_conflict d remote it : it ∈ (Sync d remote).2 → siConflict it = false ∧ siMerged it = true.
Proof.
  unfold Sync, for_range. generalize (range remote). intros es.
  assert (∀ acc, (∀ x, x ∈ acc.2 → siConflict x = false ∧ siMerged x = true) →
    ∀ x, x ∈ (foldl (λ a kv, sync_key kv.1 kv.2 a) acc es).2 → siConflict x = false ∧ siMerged x = true)
    as Hall.
  { induction es as [|[k re] es IH]; intros acc Hacc; [done|]. apply IH. destruct acc as [st res].
    simpl in *. destruct re as [re|]; [|done]. destruct (length (Versions re) =? 0); [done|].
    destruct (st !! k) as [le|]; simpl.
    - destruct (sync_versions_spec (Versions re) (Versions le) false) as (vs' & ch' & -> & _).
      destruct ch'; simpl; [|done]. intros x [?| ->%list_elem_of_singleton]%elem_of_app; [by apply Hacc|done].
    - intros x [?| ->%list_elem_of_singleton]%elem_of_app; [by apply Hacc|done]. }
  specialize (Hall (store d, [])). destruct (foldl _ _ _) as [st res]. simpl in *.
  intros Hin. apply Hall; [|done]. intros x []%elem_of_nil.
Qed.
End facts.

(** ** Properties *)

(** Every entry is filed under its own key and has between one version and
    [MaxSiblingsPerKey] of them, and there are at most [MaxKeys] keys. *)
Definition wf_store (st : gmap string MVCCEntry) : Prop :=
  size st ≤ MaxKeys ∧
  ∀ k e, st !! k = Some e → k ≠ "" ∧ Key e = k ∧ 0 < length (Versions e) ≤ MaxSiblingsPerKey.

Lemma wf_store_update st k e :
  wf_store st → (is_Some (st !! k) ∨ size st < MaxKeys) → k ≠ "" → Key e = k →
  0 < length (Versions e) ≤ MaxSiblingsPerKey → wf_store (<[k := e]> st).
Proof.
  intros [Hs He] Hor Hk Hkey Hl. split.
  - destruct (st !! k) as [x|] eqn:E.
    + by rewrite map_size_insert_Some.
    + rewrite map_size_insert_None by done. destruct Hor as [[? ?]|?]; [done|lia].
  - intros k' e' [[<- <-]|[_ ?]]%lookup_insert_Some; [done|by apply He].
Qed.

(** C15: a write to an existing key keeps exactly the versions its context does
    not cover, appends the new one and retains the newest
    [MaxSiblingsPerKey]; it reports a conflict exactly when it kept one; and
    while the counters are below the top of [uint64] the new clock is strictly
    above the context, above every version the write replaced and above every
    version concurrent with the context.  Other keys are untouched. *)
Theorem Write_supersedes `{MapRange} (d : ConflictDetector) (key : string) value ctx author t1 t2 cur :
  key ≠ "" → author ≠ "" → store d !! key = Some cur →
  let d' := (Write d key value ctx author t1 t2).1 in
  ∃ nv conflict, (Write d key value ctx author t1 t2).2 = inl (nv, conflict) ∧
    Value nv = value ∧ Author nv = author ∧ Written nv = t1 ∧
    Read d' key = lastn MaxSiblingsPerKey (filter (λ v, keeps ctx v = true) (Versions cur) ++ [nv]) ∧
    (conflict = true ↔ ∃ v, v ∈ Versions cur ∧ ¬ vc_le (Clock v) ctx) ∧
    ((ctx.[author] < MaxUint64)%N → (∀ v, v ∈ Versions cur → ((Clock v).[author] < MaxUint64)%N) →
       vc_lt ctx (Clock nv) ∧
       ∀ v, v ∈ Versions cur → vc_le (Clock v) ctx ∨ vc_concurrent ctx (Clock v) →
         vc_lt (Clock v) (Clock nv)) ∧
    ∀ k, k ≠ key → store d' !! k = store d !! k.
Proof.
  intros Hk Ha Hcur d'. subst d'.
  destruct (Write_existing d key value ctx author t1 t2 cur Hk Ha Hcur)
    as (mc & Hst & _ & Hres & Hm & Hc & Hu).
  do 2 eexists. split; [exact Hres|]. do 3 (split; [done|]). unfold Read. rewrite Hst.
  rewrite lookup_insert_eq. split; [done|]. split; [|split].
  - rewrite existsb_exists. setoid_rewrite <- keeps_spec. setoid_rewrite not_false_iff_true.
    by setoid_rewrite list_elem_of_In.
  - intros Hb Hbv. simpl. assert (vc_lt mc (Tick mc author)) as Hlt.
    { apply Tick_lt. specialize (Hu (<[author := (MaxUint64 - 1)%N]> mc)).
      assert (∀ w, vc_le w mc → (w.[author] < MaxUint64)%N →
        vc_le w (<[author := (MaxUint64 - 1)%N]> mc)) as Hins.
      { intros w Hw Hwa k. rewrite mget_insert. case_decide; [subst; lia|apply Hw]. }
      specialize (Hu (Hins _ Hm Hb) (λ v Hv Hcc, Hins _ (Hc v Hv Hcc) (Hbv v Hv)) author).
      rewrite mget_insert_eq in Hu. unfold MaxUint64 in *. lia. }
    split; [by eapply vc_le_lt_trans|].
    intros v Hv [Hle|Hcc]; (apply (vc_le_lt_trans _ mc); [|done]); [by etrans|].
    apply Hc; [done|by apply Compare_CC].
  - intros k Hne. by rewrite lookup_insert_ne.
Qed.

Definition test_version (author : string) (clock : VectorClock) (t : Z) : ValueVersion :=
  {| Value := []; Clock := clock; Author := author; Written := t |}.

Definition test_store (vs : list ValueVersion) : ConflictDetector :=
  {| store := {["k" := {| Key := "k"; Versions := vs |}]}; cdbus := None |}.

Lemma Write_supersedes_witness :
  let r := canonical_range in
  let v := test_version "A" {["A" := 1%N]} 0 in
  ∃ nv conflict,
    (Write (test_store [v]) "k" [] {["A" := 1%N]} "B" 1 2).2 = inl (nv, conflict) ∧
    Read (Write (test_store [v]) "k" [] {["A" := 1%N]} "B" 1 2).1 "k" = [nv].
Proof.
  intros r v.
  destruct (Write_supersedes (test_store [v]) "k" [] {["A" := 1%N]} "B" 1 2
    {| Key := "k"; Versions := [v] |}) as (nv & c & Hr & _ & _ & _ & Hread & _);
    [done|done|by vm_compute|].
  exists nv, c. split; [exact Hr|]. rewrite Hread. reflexivity.
Defined.

(** C16: the store stays well formed: writing and resolving keep every key's
    versions between one and [MaxSiblingsPerKey] and the number of keys at
    most [MaxKeys].  A write fails exactly on an empty key, an empty author or
    a new key when the store is full, and then changes nothing. *)
Theorem store_stays_well_formed `{MapRange} (d : ConflictDetector) (key : string) value ctx author t1 t2
    strategy :
  wf_store (store d) →
  wf_store (store (Write d key value ctx author t1 t2).1) ∧
  wf_store (store (ResolveKey d key strategy).1) ∧
  ((∃ err, (Write d key value ctx author t1 t2).2 = inr err) ↔
     key = "" ∨ author = "" ∨ store d !! key = None ∧ size (store d) = MaxKeys) ∧
  ((∃ err, (Write d key value ctx author t1 t2).2 = inr err) →
     (Write d key value ctx author t1 t2).1 = d).
Proof.
  intros Hwf. pose proof Hwf as [Hsz Hent].
  assert (wf_store (store (ResolveKey d key strategy).1)) as Hres.
  { unfold ResolveKey. destruct (store d !! key) as [e|] eqn:E; [|done].
    destruct (Hent _ _ E) as (Hk & Hkey & Hl). destruct (Versions e) as [|v vs]; [done|].
    destruct (Resolve _ _); [|done]. case_bool_decide; [|done]. simpl.
    apply wf_store_update; simpl; eauto. unfold MaxSiblingsPerKey. lia. }
  destruct (decide (key = "")) as [->|Hk].
  { unfold Write. rewrite bool_decide_true by done. simpl. naive_solver. }
  destruct (decide (author = "")) as [->|Ha].
  { unfold Write. rewrite bool_decide_false, bool_decide_true by done. simpl. naive_solver. }
  destruct (store d !! key) as [cur|] eqn:E.
  - destruct (Write_existing d key value ctx author t1 t2 cur Hk Ha E) as (mc & Hst & _ & Hr & _).
    rewrite Hst, Hr. destruct (Hent _ _ E) as (_ & Hkey & Hl). split_and!; [|done|naive_solver..].
    apply wf_store_update; simpl; [done|eauto|done|done|].
    rewrite lastn_length, length_app. simpl. unfold MaxSiblingsPerKey in *. lia.
  - unfold Write. rewrite !bool_decide_false, E by done.
    destruct (Nat.leb_spec MaxKeys (size (store d))); simpl.
    + split_and!; [done..| |done]. split; [|by eauto]. intros _. right. right. split; [done|lia].
    + split_and!; [|done| |naive_solver].
      * apply wf_store_update; simpl; [done|by right|done|done|]. unfold MaxSiblingsPerKey. lia.
      * split; [naive_solver|]. intros [?|[?|[_ ?]]]; [done|done|lia].
Qed.

Lemma store_stays_well_formed_witness :
  let r := canonical_range in
  wf_store (store (Write (New None) "k" [] ∅ "A" 0 0).1).
Proof.
  intros r. apply (store_stays_well_formed (New None) "k" [] ∅ "A" 0 0 KeepAll).
  split; [vm_compute; lia|]. intros k e. simpl. by rewrite lookup_empty.
Defined.

(** a write that conflicts with a concurrent version puts the new version
    causally after the sibling it keeps, since the new clock merges it: the
    two siblings are not concurrent any more, and syncing them to the replica
    that holds only the old one drops the old value there. *)
Theorem conflicting_write_hides_sibling `{MapRange} (d : ConflictDetector) (key : string) value ctx author
    t1 t2 v :
  key ≠ "" → author ≠ "" → store d !! key = Some {| Key := key; Versions := [v] |} →
  vc_concurrent ctx (Clock v) →
  (ctx.[author] < MaxUint64)%N → ((Clock v).[author] < MaxUint64)%N →
  let d' := (Write d key value ctx author t1 t2).1 in
  ∃ nv, (Write d key value ctx author t1 t2).2 = inl (nv, true) ∧
    Read d' key = [v; nv] ∧
    Compare (Clock v) (Clock nv) = HappenedBefore ∧
    Read (Sync d {[key := store d' !! key]}).1 key = [nv].
Proof.
  intros Hk Ha Hcur Hcc Hb Hbv d'. subst d'.
  destruct (Write_existing d key value ctx author t1 t2 _ Hk Ha Hcur)
    as (mc & Hst & _ & Hres & Hm & Hc & Hu).
  assert (keeps ctx v = true) as K.
  { unfold keeps. by rewrite (proj2 (Compare_CC ctx (Clock v)) Hcc). }
  simpl in Hres. rewrite K in Hres. eexists. split; [exact Hres|].
  unfold Read at 1. cbn [Versions Key] in Hst. rewrite kept_one in Hst by done.
  rewrite Hst, lookup_insert_eq.
  set (nv := {| Value := value; Clock := Tick mc author; Author := author; Written := t1 |}).
  split; [done|].
  assert (vc_lt (Clock v) (Clock nv)) as Hlt.
  { apply (vc_le_lt_trans _ mc).
    - apply (Hc v); [by left|by apply Compare_CC].
    - apply Tick_lt. specialize (Hu (MergePassive ctx (Clock v))). simpl in Hu.
      assert (vc_le mc (MergePassive ctx (Clock v))) as Hle.
      { apply Hu; [apply vc_le_merge_l|]. intros w ->%list_elem_of_singleton _. apply vc_le_merge_r. }
      specialize (Hle author). rewrite MergePassive_get in Hle. lia. }
  split; [by apply Compare_HB|].
  unfold Read. rewrite Sync_lookup, lookup_singleton_eq, Hcur.
  cbn [sync_entry Versions length Nat.eqb foldl]. rewrite sync_version_spec.
  assert (absorbed v [v] = true) as ->.
  { apply absorbed_spec. exists v. split; [by left|reflexivity]. }
  rewrite sync_version_spec.
  assert (absorbed nv [v] = false) as ->; [|done].
  apply not_true_iff_false. rewrite absorbed_spec. intros (w & ->%list_elem_of_singleton & Hle).
  destruct Hlt as [_ [k Hkk]]. specialize (Hle k). lia.
Qed.

Lemma conflicting_write_hides_sibling_witness :
  let r := canonical_range in
  let v := test_version "A" {["A" := 2%N]} 0 in
  let d' := (Write (test_store [v]) "k" [] {["B" := 1%N]} "B" 1 2).1 in
  length (Read d' "k") = 2 ∧
  length (Read (Sync (test_store [v]) {["k" := store d' !! "k"]}).1 "k") = 1.
Proof.
  intros r v d'.
  destruct (conflicting_write_hides_sibling (test_store [v]) "k" [] {["B" := 1%N]} "B" 1 2 v)
    as (nv & _ & Hr & _ & Hs); [done|done|by vm_compute| |by vm_compute|by vm_compute|].
  { split; [exists "A"|exists "B"]; by vm_compute. }
  split; [exact (f_equal length Hr)|exact (f_equal length Hs)].
Defined.

(** [Sync] does not keep concurrent versions as siblings.  For a key both
    replicas have, the local versions either stay as they are or are replaced
    by one single remote version; a remote version concurrent with every local
    one replaces them all; and no item of the result ever reports a
    conflict.  Keys only the other replica has are copied, keys only this one
    has are kept. *)
Theorem Sync_replaces_concurrent `{MapRange} (d : ConflictDetector)
    (remote : gmap string (option MVCCEntry)) (key : string) (le : MVCCEntry) :
  store d !! key = Some le →
  let d' := (Sync d remote).1 in
  (Read d' key = Versions le ∨
   ∃ re rv, remote !! key = Some (Some re) ∧ rv ∈ Versions re ∧ Read d' key = [rv]) ∧
  (∀ re rv, remote !! key = Some (Some re) → Versions re = [rv] →
     (∀ lv, lv ∈ Versions le → vc_concurrent (Clock rv) (Clock lv)) → Read d' key = [rv]) ∧
  (∀ it, it ∈ (Sync d remote).2 → siConflict it = false) ∧
  (∀ k re, store d !! k = None → remote !! k = Some (Some re) → Versions re ≠ [] →
     Read d' k = Versions re) ∧
  (∀ k, remote !! k = None → store d' !! k = store d !! k).
Proof.
  intros Hl d'. subst d'. unfold Read. rewrite Sync_lookup, Hl. split_and!.
  - destruct (remote !! key) as [[re|]|] eqn:Er; simpl; [|by left..].
    destruct (length (Versions re) =? 0); [by left|].
    destruct (sync_versions_spec (Versions re) (Versions le) false) as (vs' & ch' & -> & Hor). simpl.
    destruct Hor as [[-> _]|(rv & Hrv & -> & _)]; [by left|right; eauto].
  - intros re rv Er Hvs Hcc. rewrite Er. cbn [sync_entry]. rewrite Hvs.
    cbn [length Nat.eqb foldl]. rewrite sync_version_spec.
    assert (absorbed rv (Versions le) = false) as ->; [|done].
    apply not_true_iff_false. rewrite absorbed_spec. intros (lv & Hlv & Hle).
    destruct (Hcc lv Hlv) as [_ [k Hk]]. specialize (Hle k). lia.
  - intros it Hit. by apply Sync_no_conflict in Hit as [? _].
  - intros k re Hk Er Hne. rewrite Sync_lookup, Hk, Er. simpl.
    by destruct (Versions re).
  - intros k Er. by rewrite Sync_lookup, Er.
Qed.

Lemma Sync_replaces_concurrent_witness :
  let r := canonical_range in
  let a := test_version "A" {["A" := 1%N]} 0 in
  let b := test_version "B" {["B" := 1%N]} 0 in
  Read (Sync (test_store [a]) {["k" := Some {| Key := "k"; Versions := [b] |}]}).1 "k" = [b].
Proof.
  intros r a b.
  destruct (Sync_replaces_concurrent (test_store [a])
    {["k" := Some {| Key := "k"; Versions := [b] |}]} "k" {| Key := "k"; Versions := [a] |})
    as (_ & Hone & _); [by vm_compute|].
  apply (Hone {| Key := "k"; Versions := [b] |} b); [by vm_compute|done|].
  intros lv ->%list_elem_of_singleton. split; [exists "A"|exists "B"]; by vm_compute.
Defined.

(** two writes to a new key by one author from the same context are both
    kept, as siblings whose clocks are identical: the clocks cannot tell the
    two values apart. *)
Theorem repeated_write_duplicates_clock `{MapRange} (d : ConflictDetector) (key : string) value value'
    ctx author t1 t2 t3 t4 :
  key ≠ "" → author ≠ "" → store d !! key = None → size (store d) < MaxKeys →
  (ctx.[author] < MaxUint64)%N →
  let d1 := (Write d key value ctx author t1 t2).1 in
  let d2 := (Write d1 key value' ctx author t3 t4).1 in
  ∃ v1 v2, Read d2 key = [v1; v2] ∧ Value v1 = value ∧ Value v2 = value' ∧
    vc_eq (Clock v1) (Clock v2).
Proof.
  intros Hk Ha Hnone Hsz Hb d1 d2.
  set (v1 := {| Value := value; Clock := Tick ctx author; Author := author; Written := t1 |}).
  assert (store d1 !! key = Some {| Key := key; Versions := [v1] |}) as H1.
  { subst d1. unfold Write. rewrite !bool_decide_false, Hnone by done.
    rewrite (proj2 (Nat.leb_gt _ _)) by done. simpl. by rewrite lookup_insert_eq. }
  destruct (Write_existing d1 key value' ctx author t3 t4 _ Hk Ha H1)
    as (mc & Hst & _ & _ & Hm & _ & Hu).
  pose proof (Tick_lt ctx author Hb) as Hlt.
  assert (Compare ctx (Clock v1) = HappenedBefore) as Ec by (by apply Compare_HB).
  assert (keeps ctx v1 = true) as K by (unfold keeps; by rewrite Ec).
  cbn [Versions Key] in Hst. rewrite kept_one in Hst by done.
  exists v1. eexists. unfold Read. subst d2. rewrite Hst, lookup_insert_eq. cbn [Versions].
  split; [reflexivity|]. split; [done|]. split; [done|]. cbn [Clock v1].
  assert (vc_eq mc ctx) as ->; [|done].
  apply vc_le_antisym; [|done]. apply Hu; [done|].
  intros w ->%list_elem_of_singleton Hc. congruence.
Qed.

Lemma repeated_write_duplicates_clock_witness :
  let r := canonical_range in
  let d1 := (Write (New None) "k" [Byte.x00] ∅ "A" 0 0).1 in
  let d2 := (Write d1 "k" [Byte.x01] ∅ "A" 0 0).1 in
  length (Read d2 "k") = 2.
Proof.
  intros r d1 d2.
  destruct (repeated_write_duplicates_clock (New None) "k" [Byte.x00] [Byte.x01] ∅ "A" 0 0 0 0)
    as (v1 & v2 & E & _); [done|done|done|vm_compute; lia|by vm_compute|].
  exact (f_equal length E).
Defined.

(** [pick] finds the first version that no other one is better than, for a
    comparison of times. *)
Lemma pick_spec better (f : ValueVersion → Z) (first : ValueVersion) (rest : list ValueVersion) :
  (∀ v w, better v w = Z.ltb (f w) (f v)) →
  let w := pick better first rest in
  w ∈ first :: rest ∧ ∀ v, v ∈ first :: rest → (f v <= f w)%Z.
Proof.
  intros Hb. unfold pick. revert first. induction rest as [|x rest IH]; intros first; simpl.
  { split; [by left|]. intros v ->%list_elem_of_singleton. lia. }
  rewrite Hb. destruct (Z.ltb_spec (f first) (f x)).
  - destruct (IH x) as [Hin Hmax]. split; [set_solver|].
    intros v [->|Hv]%elem_of_cons; [|by apply Hmax]. specialize (Hmax x ltac:(by left)). lia.
  - destruct (IH first) as [Hin Hmax]. split; [set_solver|].
    intros v [->|[->|Hv]%elem_of_cons]%elem_of_cons; [apply Hmax; by left| |apply Hmax; by right].
    specialize (Hmax first ltac:(by left)). lia.
Qed.

(** resolving a key by time picks one of its versions with the latest
    ([LastWriterWins]) or earliest ([FirstWriterWins]) time, and the store
    then holds that version alone; [KeepAll] returns the first version and
    changes nothing; other keys are never touched. *)
Theorem ResolveKey_winner `{MapRange} (d : ConflictDetector) (key : string) (strategy : ConflictResolution)
    (e : MVCCEntry) :
  store d !! key = Some e → Versions e ≠ [] →
  let d' := (ResolveKey d key strategy).1 in
  ∃ w, (ResolveKey d key strategy).2 = Some w ∧ w ∈ Versions e ∧
    (strategy = LastWriterWins → ∀ v, v ∈ Versions e → (Written v <= Written w)%Z) ∧
    (strategy = FirstWriterWins → ∀ v, v ∈ Versions e → (Written w <= Written v)%Z) ∧
    Read d' key = (if bool_decide (strategy = KeepAll) then Versions e else [w]) ∧
    ∀ k, k ≠ key → store d' !! k = store d !! k.
Proof.
  intros Hd Hne d'. subst d'. unfold ResolveKey, Read. rewrite Hd.
  assert (∃ w, Resolve (Versions e) strategy = Some w ∧ w ∈ Versions e ∧
    (strategy = LastWriterWins → ∀ v, v ∈ Versions e → (Written v <= Written w)%Z) ∧
    (strategy = FirstWriterWins → ∀ v, v ∈ Versions e → (Written w <= Written v)%Z))
    as (w & Hw & Hin & Hl & Hf).
  { destruct (Versions e) as [|v [|x vs]]; [done|..].
    - exists v. simpl. split_and!; [done|by left|..]; intros _ y ->%list_elem_of_singleton; lia.
    - destruct strategy; unfold Resolve.
      + destruct (pick_spec (λ v w, Z.ltb (Written w) (Written v)) Written v (x :: vs)) as [? ?];
          [done|]. by eexists.
      + destruct (pick_spec (λ v w, Z.ltb (Written v) (Written w)) (λ v, - Written v)%Z v (x :: vs))
          as [Hi Hm].
        { intros a b. destruct (Z.ltb_spec (- Written b) (- Written a)), (Z.ltb_spec (Written a) (Written b));
            lia || done. }
        eexists. split_and!; [done|exact Hi|done|]. intros _ y Hy. specialize (Hm y Hy). cbv beta zeta in Hm. lia.
      + exists v. split_and!; [done|by left|done..].
      + destruct (lookup_lt_is_Some_2 (v :: x :: vs) (length (v :: x :: vs) - 1)) as [w Hw]; [simpl; lia|].
        exists w. split_and!; [done|by eapply list_elem_of_lookup_2|done..].
      + destruct (lookup_lt_is_Some_2 (v :: x :: vs) (length (v :: x :: vs) - 1)) as [w Hw]; [simpl; lia|].
        exists w. split_and!; [done|by eapply list_elem_of_lookup_2|done..]. }
  exists w. destruct (Versions e) as [|v vs] eqn:Ev; [done|]. rewrite Hw.
  case_bool_decide as Hs; simpl.
  - rewrite bool_decide_false by done. rewrite lookup_insert_eq. split_and!; [done..|].
    intros k Hk. by rewrite lookup_insert_ne.
  - destruct (decide (strategy = KeepAll)) as [HK|]; [|done]. rewrite bool_decide_true by done. rewrite Hd, Ev. by split_and!.
Qed.

Lemma ResolveKey_winner_witness :
  let r := canonical_range in
  let a := test_version "A" {["A" := 1%N]} 5 in
  let b := test_version "B" {["B" := 1%N]} 7 in
  ∃ w, (ResolveKey (test_store [a; b]) "k" LastWriterWins).2 = Some w ∧
    Read (ResolveKey (test_store [a; b]) "k" LastWriterWins).1 "k" = [w] ∧ (7 <= Written w)%Z.
Proof.
  intros r a b.
  destruct (ResolveKey_winner (test_store [a; b]) "k" LastWriterWins {| Key := "k"; Versions := [a; b] |})
    as (w & Hw & _ & Hmax & _ & Hr & _); [by vm_compute|done|].
  exists w. split; [exact Hw|]. split; [exact Hr|].
  apply (Hmax eq_refl b). right. by left.
Defined.
