(* ===== verification/Causality.v ===== *)
(** * The causal graph (src/internal/causality/graph.go)

    Events as nodes, happened-before edges, and the three queries: bounded
    breadth-first search from an event, all ancestors of an event, and Kahn's
    topological sort.  Each loop is a worklist with fuel; the fuel used is
    proved to be enough. *)
From stdpp Require Import gmap strings list relations numbers list_numbers.
From S2P Require Import Prelude.

(** ** Data *)

Definition maxBFSDepth : nat := N.to_nat 10000.
#[global] Opaque maxBFSDepth.

(** [type EventType string] and its constants. *)
Definition EventInternal : string := "internal".
Definition EventSend : string := "send".
Definition EventReceive : string := "receive".

Record Event := {
  ID : string;
  ProcessID : string;
  Type_ : string;
  LocalSeq : N;
  MessageID : string
}.

(** [type CausalGraph struct]; the sets of targets are maps to [true]. *)
Record CausalGraph := {
  events : gmap string Event;
  edges : gmap string (gmap string bool)
}.

Definition NewCausalGraph : CausalGraph := {| events := ∅; edges := ∅ |}.

(** ** Operations *)

(** [if g.edges[id] == nil { g.edges[id] = make(...) }] *)
Definition ensure_node (id : string) (es : gmap string (gmap string bool)) :
    gmap string (gmap string bool) :=
  match es !! id with None => <[id := ∅]> es | Some _ => es end.

Definition AddEvent (g : CausalGraph) (e : Event) : CausalGraph :=
  {| events := <[ID e := e]> (events g); edges := ensure_node (ID e) (edges g) |}.

(** [g.edges[cur]], nil when absent. *)
Definition out (g : CausalGraph) (cur : string) : gmap string bool := default ∅ (edges g !! cur).

Definition AddEdge (g : CausalGraph) (from to : string) : CausalGraph :=
  let es := ensure_node from (edges g) in
  {| events := events g; edges := <[from := <[to := true]> (default ∅ (es !! from))]> es |}.

Section queries.
Context `{MapRange}.

(** The loop of [HappenedBefore]. *)
Fixpoint bfs (fuel : nat) (g : CausalGraph) (bID : string) (visited : gset string)
    (queue : list string) : option bool :=
  match fuel with
  | 0 => None
  | S fuel =>
      match queue with
      | [] => Some false
      | cur :: queue =>
          if bool_decide (cur = bID) then Some true
          else if bool_decide (cur ∈ visited) then bfs fuel g bID visited queue
          else
            let visited := {[cur]} ∪ visited in
            if maxBFSDepth <=? size visited then Some false
            else
              let queue := for_range (out g cur) (λ next _ queue,
                if bool_decide (next ∉ visited) then queue ++ [next] else queue) queue in
              bfs fuel g bID visited queue
      end
  end.

(** Every round takes a node off the queue, and each node's edges are pushed
    once. *)
Definition bfs_fuel (g : CausalGraph) : nat := 2 + weight size (edges g) ∅.

Definition HappenedBefore (g : CausalGraph) (aID bID : string) : bool :=
  if bool_decide (aID = bID) then false
  else default false (bfs (bfs_fuel g) g bID ∅ [aID]).

Definition Concurrent (g : CausalGraph) (aID bID : string) : bool :=
  negb (HappenedBefore g aID bID) && negb (HappenedBefore g bID aID).

(** [reverse[to] = append(reverse[to], from)] over all edges. *)
Definition reverse_map (g : CausalGraph) : gmap string (list string) :=
  for_range (edges g) (λ from tos rev,
    for_range tos (λ to _ rev, <[to := default [] (rev !! to) ++ [from]]> rev) rev) ∅.

Fixpoint history_loop (fuel : nat) (g : CausalGraph) (rev : gmap string (list string))
    (visited : gset string) (queue : list string) (result : list Event) : option (list Event) :=
  match fuel with
  | 0 => None
  | S fuel =>
      match queue with
      | [] => Some result
      | cur :: queue =>
          if bool_decide (cur ∈ visited) then history_loop fuel g rev visited queue result
          else
            let visited := {[cur]} ∪ visited in
            let result := match events g !! cur with Some e => result ++ [e] | None => result end in
            history_loop fuel g rev visited (queue ++ default [] (rev !! cur)) result
      end
  end.

Definition history_fuel (rev : gmap string (list string)) (queue : list string) : nat :=
  1 + length queue + weight length rev ∅.

Definition CausalHistory (g : CausalGraph) (id : string) : list Event :=
  let rev := reverse_map g in
  let queue := default [] (rev !! id) in
  default [] (history_loop (history_fuel rev queue) g rev ∅ queue []).

(** ** Kahn's algorithm *)

Definition is_event (g : CausalGraph) (id : string) : bool := bool_decide (is_Some (events g !! id)).

(** The two loops that compute [inDegree]. *)
Definition in_degrees (g : CausalGraph) : gmap string Z :=
  let inDegree := for_range (events g) (λ id _ d, <[id := 0%Z]> d) ∅ in
  for_range (edges g) (λ from tos d,
    if is_event g from
    then for_range tos (λ to _ d,
           if is_event g to then <[to := (default 0 (d !! to) + 1)%Z]> d else d) d
    else d) inDegree.

(** The inner loop: the edges of the node taken off the queue. *)
Definition relax (g : CausalGraph) (next : string) (dq : gmap string Z * list string) :
    gmap string Z * list string :=
  let '(inDegree, queue) := dq in
  if is_event g next then
    let deg := (default 0 (inDegree !! next) - 1)%Z in
    (<[next := deg]> inDegree, if bool_decide (deg = 0%Z) then queue ++ [next] else queue)
  else dq.

Fixpoint kahn (fuel : nat) (g : CausalGraph) (inDegree : gmap string Z) (queue : list string)
    (sorted : list Event) : option (list Event) :=
  match fuel with
  | 0 => None
  | S fuel =>
      match queue with
      | [] => Some sorted
      | cur :: queue =>
          let sorted := match events g !! cur with Some e => sorted ++ [e] | None => sorted end in
          let '(inDegree, queue) :=
            for_range (out g cur) (λ next _ dq, relax g next dq) (inDegree, queue) in
          kahn fuel g inDegree queue sorted
      end
  end.

Definition TopologicalSort (g : CausalGraph) : list Event :=
  let inDegree := in_degrees g in
  let queue := for_range inDegree (λ id deg queue,
    if bool_decide (deg = 0%Z) then queue ++ [id] else queue) [] in
  default [] (kahn (S (size (events g))) g inDegree queue []).

Definition Events (g : CausalGraph) : gmap string Event :=
  for_range (events g) (λ k v result, <[k := v]> result) ∅.
End queries.

(** ** Reachability *)

(** The edges of the graph as a relation. *)
Definition edge (g : CausalGraph) (x y : string) : Prop := is_Some (out g x !! y).

#[export] Instance edge_dec g x y : Decision (edge g x y).
Proof. unfold edge. apply _. Defined.

(** A graph whose events are filed under their own ids. *)
Definition wf_graph (g : CausalGraph) : Prop := ∀ id e, events g !! id = Some e → ID e = id.

Lemma AddEvent_wf g e : wf_graph g → wf_graph (AddEvent g e).
Proof. intros Hw id e'. simpl. intros [[<- <-]|[_ ?]]%lookup_insert_Some; auto. Qed.

Lemma AddEdge_wf g from to : wf_graph g → wf_graph (AddEdge g from to).
Proof. done. Qed.

Lemma AddEdge_edge g from to x y :
  edge (AddEdge g from to) x y ↔ edge g x y ∨ x = from ∧ y = to.
Proof.
  unfold edge, out, AddEdge, ensure_node. simpl.
  destruct (edges g !! from) as [m|] eqn:E.
  - rewrite E. simpl. destruct (decide (x = from)) as [->|Hx].
    + rewrite lookup_insert_eq, E. simpl. destruct (decide (y = to)) as [->|Hy].
      * rewrite lookup_insert_eq. naive_solver.
      * rewrite lookup_insert_ne by done. naive_solver.
    + rewrite lookup_insert_ne by done. naive_solver.
  - rewrite lookup_insert_eq. simpl. destruct (decide (x = from)) as [->|Hx].
    + rewrite lookup_insert_eq, E. simpl. destruct (decide (y = to)) as [->|Hy].
      * rewrite lookup_insert_eq. naive_solver.
      * rewrite lookup_insert_ne by done. rewrite lookup_empty. naive_solver.
    + rewrite !lookup_insert_ne by done. naive_solver.
Qed.

Lemma AddEvent_edge g e x y : edge (AddEvent g e) x y ↔ edge g x y.
Proof.
  unfold edge, out, AddEvent, ensure_node. simpl. destruct (edges g !! ID e) eqn:E; [done|].
  destruct (decide (x = ID e)) as [->|Hx]; [by rewrite lookup_insert_eq, E|by rewrite lookup_insert_ne].
Qed.

(** ** Breadth-first search *)
Section bfs_facts.
Context `{MapRange} (g : CausalGraph).

Lemma push_spec cur (visited : gset string) (queue : list string) :
  for_range (out g cur) (λ next _ queue,
    if bool_decide (next ∉ visited) then queue ++ [next] else queue) queue =
  queue ++ filter (λ next, next ∉ visited) (range (out g cur)).*1.
Proof.
  unfold for_range. generalize (range (out g cur)). intros es. revert queue.
  induction es as [|[k v] es IH]; intros queue; simpl; [by rewrite app_nil_r|].
  rewrite IH, filter_cons. destruct (decide (k ∉ visited)) as [Hk|Hk].
  - rewrite bool_decide_true by done. by rewrite <- (assoc_L (++)).
  - by rewrite bool_decide_false.
Qed.

Lemma elem_of_out cur y : y ∈ (range (out g cur)).*1 ↔ edge g cur y.
Proof.
  unfold edge. rewrite list_elem_of_fmap. split.
  - intros ([k v] & -> & Hin%elem_of_range). by eauto.
  - intros [v Hv]. exists (y, v). split; [done|by apply elem_of_range].
Qed.

(** The fuel suffices: the queue plus the edges of unvisited nodes shrinks in
    every round. *)
Lemma bfs_terminates fuel b visited queue :
  length queue + weight size (edges g) visited < fuel → is_Some (bfs fuel g b visited queue).
Proof.
  revert visited queue. induction fuel as [|fuel IH]; intros visited queue Hf; [lia|].
  destruct queue as [|cur queue]; simpl in *; [by eauto|].
  case_bool_decide; [by eauto|]. case_bool_decide as Hv; [apply IH; lia|].
  destruct (maxBFSDepth <=? _); [by eauto|]. apply IH. rewrite push_spec, length_app.
  pose proof (weight_visit size (edges g) visited cur Hv) as Hw.
  pose proof (length_filter (λ next, next ∉ {[cur]} ∪ visited) (range (out g cur)).*1) as Hl.
  rewrite length_fmap, range_length in Hl.
  assert (size (out g cur) = match edges g !! cur with Some v => size v | None => 0 end) as Eo.
  { unfold out. by destruct (edges g !! cur). }
  lia.
Qed.

(** A positive answer comes with a path. *)
Lemma bfs_sound fuel a b visited queue :
  (∀ x, x ∈ queue → rtc (edge g) a x) →
  bfs fuel g b visited queue = Some true → rtc (edge g) a b.
Proof.
  revert visited queue. induction fuel as [|fuel IH]; intros visited queue Hq; [done|].
  destruct queue as [|cur queue]; simpl; [done|].
  case_bool_decide as Hb; [subst; intros _; apply Hq; by left|].
  case_bool_decide; [apply IH; intros; apply Hq; by right|].
  destruct (maxBFSDepth <=? _); [done|]. rewrite push_spec. apply IH.
  intros x [Hx|[_ Hx]%list_elem_of_filter]%elem_of_app; [apply Hq; by right|].
  apply rtc_r with cur; [apply Hq; by left|]. by apply elem_of_out.
Qed.

(** A negative answer within the bound means there is no path: [R] is any set
    closed under edges with fewer than [maxBFSDepth] nodes. *)
Lemma bfs_complete fuel a b visited queue (R : gset string) :
  size R < maxBFSDepth → (∀ x y, x ∈ R → edge g x y → y ∈ R) →
  (∀ x, x ∈ queue → x ∈ R) → visited ⊆ R → b ∉ visited →
  (∀ x y, x ∈ visited → edge g x y → y ∈ visited ∨ y ∈ queue) →
  (a ∈ visited ∨ a ∈ queue) →
  bfs fuel g b visited queue = Some false → ¬ rtc (edge g) a b.
Proof.
  intros HR Hcl. revert visited queue.
  induction fuel as [|fuel IH]; intros visited queue Hq Hv Hb Hex Ha; [done|].
  destruct queue as [|cur queue]; simpl.
  - intros _ Hr. assert (a ∈ visited) as Hav by (destruct Ha as [?|[]%elem_of_nil]; done).
    apply Hb. clear Ha Hb Hq IH. induction Hr as [|x y z Hxy _ IHr]; [done|]. apply IHr.
    by destruct (Hex x y Hav Hxy) as [?|[]%elem_of_nil].
  - case_bool_decide as Hcb; [done|]. case_bool_decide as Hcv.
    + apply IH; [|done|done| |].
      * intros x Hx. apply Hq. by right.
      * intros x y Hx Hxy. destruct (Hex x y Hx Hxy) as [?|[->|?]%elem_of_cons]; auto.
      * destruct Ha as [?|[->|?]%elem_of_cons]; auto.
    + assert (cur ∈ R) as HcR by (apply Hq; by left).
      destruct (Nat.leb_spec maxBFSDepth (size ({[cur]} ∪ visited))) as [Hbig|_].
      { assert (size ({[cur]} ∪ visited) ≤ size R) by (apply subseteq_size; set_solver). lia. }
      rewrite push_spec. apply IH.
      * intros x [Hx|[_ Hx]%list_elem_of_filter]%elem_of_app; [apply Hq; by right|].
        apply (Hcl cur); [done|]. by apply elem_of_out.
      * set_solver.
      * set_solver.
      * intros x y Hx Hxy. destruct (decide (y ∈ {[cur]} ∪ visited)) as [|Hy]; [by left|right].
        apply elem_of_app. apply elem_of_union in Hx as [->%elem_of_singleton|Hx].
        -- right. apply list_elem_of_filter. split; [done|by apply elem_of_out].
        -- left. destruct (Hex x y Hx Hxy) as [?|[->|?]%elem_of_cons]; set_solver.
      * rewrite elem_of_app. destruct Ha as [?|[->|?]%elem_of_cons]; set_solver.
Qed.

Lemma path_tc a b : a ≠ b → rtc (edge g) a b ↔ tc (edge g) a b.
Proof. rewrite rtc_tc. naive_solver. Qed.

Lemma HappenedBefore_sound x y : HappenedBefore g x y = true → x ≠ y ∧ tc (edge g) x y.
Proof.
  unfold HappenedBefore. case_bool_decide as Hne; [done|]. intros E. split; [done|].
  apply path_tc; [done|]. destruct (bfs _ _ _ _ _) as [[]|] eqn:Eb; try done.
  eapply (bfs_sound _ x); [|exact Eb]. by intros z ->%list_elem_of_singleton.
Qed.
End bfs_facts.

(** ** Ancestors *)
Section history_facts.
Context `{MapRange} (g : CausalGraph).

Lemma reverse_map_spec x y : x ∈ default [] (reverse_map g !! y) ↔ edge g x y.
Proof.
  unfold reverse_map.
  assert (∀ es (rev : gmap string (list string)),
    default [] (foldl (λ rev kv, for_range kv.2 (λ to _ rev,
      <[to := default [] (rev !! to) ++ [kv.1]]> rev) rev) rev es !! y) =
    default [] (rev !! y) ++ (filter (λ kv : string * gmap string bool, is_Some (kv.2 !! y)) es).*1) as E.
  { induction es as [|[from tos] es IH]; intros rev; simpl; [by rewrite app_nil_r|].
    rewrite IH.
    rewrite (for_range_lookup _ (λ to _ o, Some (default [] o ++ [from]))).
    2: { intros k v a. apply map_eq. intros j. destruct (decide (j = k)) as [->|];
      [by rewrite lookup_insert_eq, lookup_partial_alter_eq
      |by rewrite lookup_insert_ne, lookup_partial_alter_ne]. }
    destruct (tos !! y) eqn:Ey; simpl.
    - rewrite filter_cons_True by (by eexists). simpl. by rewrite <- (assoc_L (++)).
    - rewrite filter_cons_False; [done|]. simpl. rewrite Ey. by intros [? ?]. }
  unfold for_range at 1. rewrite E, lookup_empty. simpl. rewrite list_elem_of_fmap. unfold edge, out. split.
  - intros ([from tos] & -> & [Hy Hin%elem_of_range]%list_elem_of_filter). simpl in *. by rewrite Hin.
  - intros Hy. destruct (edges g !! x) as [tos|] eqn:Ex; simpl in *.
    + exists (x, tos). split; [done|]. apply list_elem_of_filter. split; [done|by apply elem_of_range].
    + rewrite lookup_empty in Hy. by destruct Hy.
Qed.

Lemma history_terminates fuel rev visited queue result :
  length queue + weight length rev visited < fuel →
  is_Some (history_loop fuel g rev visited queue result).
Proof.
  revert visited queue result. induction fuel as [|fuel IH]; intros visited queue result Hf; [lia|].
  destruct queue as [|cur queue]; simpl in *; [by eauto|].
  case_bool_decide as Hv; [apply IH; lia|]. apply IH. rewrite length_app.
  pose proof (weight_visit length rev visited cur Hv) as Hw. destruct (rev !! cur); simpl in *; lia.
Qed.

(** The invariant of the loop from the ancestors of [id]. *)
Record history_inv (id : string) (visited : gset string) (queue : list string)
    (result : list Event) : Prop := {
  hi_reach x : x ∈ visited ∨ x ∈ queue → tc (edge g) x id;
  hi_closed x y : x ∈ visited → edge g y x → y ∈ visited ∨ y ∈ queue;
  hi_start y : edge g y id → y ∈ visited ∨ y ∈ queue;
  hi_nodup : NoDup (ID <$> result);
  hi_result e : e ∈ result ↔ events g !! ID e = Some e ∧ ID e ∈ visited
}.

Lemma history_correct fuel id visited queue result res :
  wf_graph g →
  history_inv id visited queue result →
  history_loop fuel g (reverse_map g) visited queue result = Some res →
  NoDup (ID <$> res) ∧ ∀ e, e ∈ res ↔ events g !! ID e = Some e ∧ tc (edge g) (ID e) id.
Proof.
  intros Hwf. revert visited queue result.
  induction fuel as [|fuel IH]; intros visited queue result [Hr Hc Hs Hn He]; [done|].
  destruct queue as [|cur queue]; simpl.
  - intros [= <-]. split; [done|]. intros e. rewrite He.
    assert (∀ x, x ∈ visited ↔ tc (edge g) x id) as Hv; [|by rewrite Hv].
    intros x. split; [intros; apply Hr; by left|].
    clear IH Hr Hn He. induction 1 as [x y Hxy|x y z Hxy _ IHt].
    + by destruct (Hs x Hxy) as [?|[]%elem_of_nil].
    + by destruct (Hc y x (IHt Hs) Hxy) as [?|[]%elem_of_nil].
  - case_bool_decide as Hv.
    + apply IH. split; [..|done|done].
      * intros x Hx. apply Hr. destruct Hx; [by left|right; by right].
      * intros x y Hx Hxy. destruct (Hc x y Hx Hxy) as [?|[->|?]%elem_of_cons]; auto.
      * intros y Hy. destruct (Hs y Hy) as [?|[->|?]%elem_of_cons]; auto.
    + apply IH.
      assert (tc (edge g) cur id) as Hcur by (apply Hr; right; by left).
      split.
      * intros x. rewrite elem_of_union, elem_of_singleton, elem_of_app, reverse_map_spec.
        intros [[->|?]|[?|?]]; [done|apply Hr; by left|apply Hr; right; by right|].
        by eapply tc_l.
      * intros x y. rewrite !elem_of_union, !elem_of_singleton, elem_of_app, reverse_map_spec.
        intros [->|Hx] Hxy; [auto|].
        destruct (Hc x y Hx Hxy) as [?|[->|?]%elem_of_cons]; auto.
      * intros y Hy. rewrite elem_of_union, elem_of_singleton, elem_of_app.
        destruct (Hs y Hy) as [?|[->|?]%elem_of_cons]; auto.
      * destruct (events g !! cur) as [e|] eqn:Ee; [|done].
        rewrite fmap_app. simpl. apply NoDup_app. split_and!; [done| |apply NoDup_singleton].
        intros x (e' & -> & He')%list_elem_of_fmap. rewrite list_elem_of_singleton.
        apply He in He' as [_ Hvis]. rewrite (Hwf cur e Ee). intros Heq. by rewrite Heq in Hvis.
      * intros e. rewrite elem_of_union, elem_of_singleton.
        destruct (events g !! cur) as [e'|] eqn:Ee.
        -- rewrite elem_of_app, list_elem_of_singleton, He. pose proof (Hwf cur e' Ee) as Hid.
           split; [intros [[? ?]|E]|intros [He1 [Hi|Hi]]].
           ++ auto.
           ++ subst e. split; [congruence|by left].
           ++ right. congruence.
           ++ by left.
        -- rewrite He. naive_solver congruence.
Qed.
End history_facts.

(** ** Kahn's algorithm *)
Section kahn_facts.
Context `{MapRange} (g : CausalGraph).

Definition node (x : string) : Prop := is_Some (events g !! x).

#[local] Instance node_dec x : Decision (node x).
Proof. unfold node. apply _. Defined.

(** The predecessors of [y] not yet processed. *)
Definition preds (S : list string) (y : string) : gset string :=
  filter (λ x, (x ∉ S) ∧ edge g x y) (dom (events g)).

Definition degree (S : list string) (y : string) : Z := Z.of_nat (size (preds S y)).

Lemma elem_of_preds S x y : x ∈ preds S y ↔ node x ∧ (x ∉ S) ∧ edge g x y.
Proof. unfold preds, node. rewrite elem_of_filter, elem_of_dom. tauto. Qed.

Lemma degree_zero S y : degree S y = 0%Z ↔ (∀ x, node x → edge g x y → x ∈ S).
Proof.
  unfold degree. assert (Z.of_nat (size (preds S y)) = 0%Z ↔ (size (preds S y) = 0)) as -> by lia.
  rewrite size_empty_iff. split.
  - intros He x Hx Hxy. destruct (decide (x ∈ S)) as [|Hn]; [done|exfalso].
    assert (x ∈ preds S y) as Hp by (by apply elem_of_preds). rewrite He in Hp. set_solver.
  - intros Hall x. rewrite elem_of_preds. set_solver.
Qed.

Lemma degree_step S cur y :
  node cur → cur ∉ S →
  degree (S ++ [cur]) y = (degree S y - if decide (edge g cur y) then 1 else 0)%Z.
Proof.
  intros Hn Hc. unfold degree. case_decide as He.
  - assert (preds S y = {[cur]} ∪ preds (S ++ [cur]) y) as ->.
    { apply set_eq. intros x. rewrite elem_of_union, elem_of_singleton, !elem_of_preds, elem_of_app,
        list_elem_of_singleton. destruct (decide (x = cur)); naive_solver. }
    rewrite size_union, size_singleton; [lia|].
    intros x ->%elem_of_singleton. rewrite elem_of_preds, elem_of_app. set_solver.
  - assert (preds (S ++ [cur]) y = preds S y) as ->; [|lia].
    apply set_eq. intros x. rewrite !elem_of_preds, elem_of_app, list_elem_of_singleton. naive_solver.
Qed.

(** ** The initial degrees *)

Lemma count_inner (tos : gmap string bool) (d : gmap string Z) y :
  for_range tos (λ to _ d, if is_event g to then <[to := (default 0 (d !! to) + 1)%Z]> d else d) d !! y =
  if decide (is_Some (tos !! y) ∧ node y) then Some (default 0 (d !! y) + 1)%Z else d !! y.
Proof.
  rewrite (for_range_lookup _ (λ to _ o, if is_event g to then Some (default 0 o + 1)%Z else o)).
  - unfold is_event, node. destruct (tos !! y) eqn:E.
    + case_bool_decide; [rewrite decide_True by eauto|rewrite decide_False by naive_solver]; done.
    + rewrite decide_False; [done|]. by intros [[? ?] _].
  - intros k v a. destruct (is_event g k); [|symmetry; apply partial_alter_same].
    apply map_eq. intros j. destruct (decide (j = k)) as [->|];
      [by rewrite lookup_insert_eq, lookup_partial_alter_eq
      |by rewrite lookup_insert_ne, lookup_partial_alter_ne].
Qed.

Definition counted (y : string) (kv : string * gmap string bool) : Prop :=
  node kv.1 ∧ is_Some (kv.2 !! y).

#[local] Instance counted_dec y kv : Decision (counted y kv).
Proof. unfold counted. apply _. Defined.

Lemma count_outer es (d : gmap string Z) y c :
  node y → d !! y = Some c →
  foldl (λ d kv, if is_event g kv.1
    then for_range kv.2 (λ to _ d,
           if is_event g to then <[to := (default 0 (d !! to) + 1)%Z]> d else d) d
    else d) d es !! y = Some (c + Z.of_nat (length (filter (counted y) es)))%Z.
Proof.
  intros Hy. revert d c. induction es as [|[from tos] es IH]; intros d c Hd; simpl.
  { rewrite Hd. f_equal. lia. }
  destruct (is_event g from) eqn:Hf; [apply bool_decide_eq_true in Hf|apply bool_decide_eq_false in Hf].
  - destruct (decide (is_Some (tos !! y))) as [Ht|Ht].
    + rewrite (IH _ (c + 1)%Z).
      * rewrite filter_cons_True by done. simpl. f_equal. lia.
      * rewrite count_inner, decide_True by done. by rewrite Hd.
    + rewrite (IH _ c).
      * by rewrite filter_cons_False by (intros [_ Hx]; exact (Ht Hx)).
      * rewrite count_inner, decide_False by (intros [Hx _]; exact (Ht Hx)). done.
  - rewrite (IH _ c) by done. by rewrite filter_cons_False by (intros [Hx _]; exact (Hf Hx)).
Qed.

Lemma in_degrees_node y : node y → in_degrees g !! y = Some (degree [] y).
Proof.
  intros Hy. unfold in_degrees. unfold for_range at 1.
  rewrite (count_outer _ _ y 0%Z Hy).
  - f_equal. unfold degree. rewrite Z.add_0_l. f_equal.
    assert (preds [] y = list_to_set (filter (counted y) (range (edges g))).*1) as ->.
    { apply set_eq. intros x. rewrite elem_of_preds, elem_of_list_to_set, list_elem_of_fmap. unfold edge, out.
      split.
      - intros (Hx & _ & He). destruct (edges g !! x) as [tos|] eqn:Ex; simpl in He.
        + exists (x, tos). split; [done|]. apply list_elem_of_filter. split; [done|by apply elem_of_range].
        + rewrite lookup_empty in He. by destruct He.
      - intros ([x' tos] & -> & [[Hx He] Hin%elem_of_range]%list_elem_of_filter). simpl in *.
        split; [done|]. split; [by intros ?%elem_of_nil|]. by rewrite Hin. }
    rewrite size_list_to_set; [by rewrite length_fmap|].
    apply filter_fst_NoDup, range_nodup.
  - rewrite (for_range_lookup _ (λ _ _ _, Some 0%Z)) by done. by destruct Hy as [e ->].
Qed.

Lemma in_degrees_dom y : is_Some (in_degrees g !! y) → node y.
Proof.
  intros Hs. destruct (decide (node y)) as [|Hn]; [done|exfalso]. revert Hs. unfold in_degrees.
  rewrite (for_range_foldl (edges g)).
  assert (∀ (es : list (string * gmap string bool)) (d : gmap string Z), d !! y = None → foldl (λ d kv, if is_event g kv.1
    then for_range kv.2 (λ to _ d,
           if is_event g to then <[to := (default 0 (d !! to) + 1)%Z]> d else d) d
    else d) d es !! y = None) as Hnone.
  { induction es as [|[from tos] es IH]; intros d Hd; [done|]. cbn [foldl fst snd]. apply IH.
    destruct (is_event g from); [|done]. rewrite count_inner, decide_False; [done|]. by intros [_ ?]. }
  rewrite Hnone; [by intros [? ?]|].
  rewrite (for_range_lookup _ (λ _ _ _, Some 0%Z)) by done.
  destruct (events g !! y) eqn:E; [|done]. destruct Hn. by eexists.
Qed.

(** ** One node's edges *)

(** What the inner loop does to the degrees and the queue: each edge target
    is visited once. *)
Lemma relax_all (es : list string) (d : gmap string Z) (q : list string) :
  NoDup es →
  let '(d', q') := foldl (λ dq next, relax g next dq) (d, q) es in
  (∀ y, d' !! y = if decide (y ∈ es ∧ node y) then Some (default 0 (d !! y) - 1)%Z else d !! y) ∧
  q' = q ++ filter (λ y, node y ∧ default 0%Z (d !! y) = 1%Z) es.
Proof.
  revert d q. induction es as [|x es IH]; intros d q Hnd.
  { split; [|by rewrite app_nil_r]. intros y. rewrite decide_False; [done|]. by intros [[]%elem_of_nil _]. }
  apply NoDup_cons in Hnd as [Hx Hnd]. cbn [foldl]. unfold relax at 2, is_event.
  destruct (decide (node x)) as [Hn|Hn].
  - rewrite bool_decide_true by done.
    set (deg := (default 0 (d !! x) - 1)%Z).
    set (q1 := if bool_decide (deg = 0%Z) then q ++ [x] else q).
    specialize (IH (<[x := deg]> d) q1 Hnd). destruct (foldl _ _ es) as [d' q'].
    destruct IH as [Hd ->]. split.
    + intros y. rewrite Hd. destruct (decide (y = x)) as [->|Hyx].
      * rewrite decide_False by (by intros [? _]). rewrite lookup_insert_eq.
        rewrite decide_True; [done|]. split; [by left|done].
      * rewrite lookup_insert_ne by done. destruct (decide (y ∈ es ∧ node y)) as [Hy|Hy].
        -- rewrite decide_True; [done|]. destruct Hy. split; [by right|done].
        -- rewrite decide_False; [done|]. intros [[->|?]%elem_of_cons ?]; [done|]. by apply Hy.
    + assert (filter (λ y, node y ∧ default 0%Z (<[x := deg]> d !! y) = 1%Z) es =
              filter (λ y, node y ∧ default 0%Z (d !! y) = 1%Z) es) as ->.
      { apply list_filter_ext_in. intros y Hy. rewrite lookup_insert_ne; [done|]. by intros ->. }
      rewrite filter_cons. unfold q1, deg. case_bool_decide as Hz.
      * rewrite decide_True by (split; [done|lia]). by rewrite <- (assoc_L (++)).
      * rewrite decide_False; [done|]. intros [_ ?]. lia.
  - rewrite bool_decide_false by done. specialize (IH d q Hnd).
    destruct (foldl _ _ es) as [d' q']. destruct IH as [Hd ->]. split.
    + intros y. rewrite Hd. destruct (decide (y ∈ es ∧ node y)) as [Hy|Hy].
      * rewrite decide_True; [done|]. destruct Hy. split; [by right|done].
      * rewrite decide_False; [done|]. intros [[->|?]%elem_of_cons ?]; [done|]. by apply Hy.
    + by rewrite filter_cons_False by (by intros [? _]).
Qed.

(** ** The invariant *)
Record kahn_inv (S Q : list string) (d : gmap string Z) : Prop := {
  ki_nodup : NoDup (S ++ Q);
  ki_node x : x ∈ S ++ Q → node x;
  ki_deg y : node y → d !! y = Some (degree S y);
  ki_zero y : node y → y ∈ S ++ Q ↔ degree S y = 0%Z;
  ki_order l1 y l2 : S = l1 ++ y :: l2 → ∀ x, node x → edge g x y → x ∈ l1
}.

Lemma kahn_step S cur Q d :
  kahn_inv S (cur :: Q) d →
  let '(d', Q') := for_range (out g cur) (λ next _ dq, relax g next dq) (d, Q) in
  kahn_inv (S ++ [cur]) Q' d'.
Proof.
  intros [Hnd Hnode Hdeg Hzero Hord].
  assert (foldl (λ dq kv, relax g kv.1 dq) (d, Q) (range (out g cur)) =
          foldl (λ dq next, relax g next dq) (d, Q) (range (out g cur)).*1) as Ef.
  { generalize (d, Q). induction (range (out g cur)) as [|kv es IH]; intros dq; [done|]. apply IH. }
  unfold for_range. rewrite Ef. pose proof (relax_all (range (out g cur)).*1 d Q (range_nodup _)) as Hrel.
  clear Ef. destruct (foldl _ _ _) as [d' Q']. destruct Hrel as [Hd' ->].
  assert (node cur) as Hn by (apply Hnode; set_solver).
  assert (cur ∉ S) as Hcs.
  { intros Hin. apply NoDup_app in Hnd as (_ & Hdis & _). apply (Hdis cur Hin). by left. }
  assert (∀ y, y ∈ filter (λ y, node y ∧ default 0%Z (d !! y) = 1%Z) (range (out g cur)).*1 ↔
    node y ∧ edge g cur y ∧ degree S y = 1%Z) as Hnew.
  { intros y. rewrite list_elem_of_filter, elem_of_out. split.
    - intros [[Hy He] ?]. rewrite Hdeg in He by done. done.
    - intros (Hy & ? & ?). rewrite Hdeg by done. done. }
  assert (∀ l, (S ++ [cur]) ++ Q ++ l = (S ++ cur :: Q) ++ l) as Eapp.
  { intros l. by rewrite <- !(assoc_L (++)). }
  split; rewrite ?Eapp.
  - apply NoDup_app. split_and!; [done| |apply NoDup_filter, range_nodup].
    intros y Hy (Hyn & _ & H1)%Hnew. apply Hzero in Hy; [lia|done].
  - intros x. rewrite elem_of_app. intros [?|(? & _)%Hnew]; [by apply Hnode|done].
  - intros y Hy. rewrite Hd', degree_step by done.
    rewrite Hdeg by done. simpl. destruct (decide (edge g cur y)) as [He|He].
    + rewrite decide_True; [done|]. by rewrite elem_of_out.
    + rewrite decide_False by (intros [?%elem_of_out _]; done). f_equal. lia.
  - intros y Hy. rewrite degree_step by done.
    rewrite elem_of_app, Hnew, Hzero by done.
    assert (0 ≤ degree S y)%Z by (unfold degree; lia).
    assert (edge g cur y → degree S y ≠ 0%Z) as Hpos.
    { intros He Hz. apply Hcs. by apply (proj1 (degree_zero S y) Hz). }
    case_decide; split; naive_solver lia.
  - intros l1 y l2 El x Hx Hxy. destruct l2 as [|z l2 _] using rev_ind.
    + apply app_inj_tail in El as [<- <-]. apply (proj1 (degree_zero S cur)); [|done|done].
      apply Hzero; [done|]. set_solver.
    + rewrite app_comm_cons, (assoc_L (++)) in El. apply app_inj_tail in El as [El _].
      by eapply Hord.
Qed.

Lemma kahn_runs fuel S Q d sorted :
  kahn_inv S Q d → sorted = omap (λ x, events g !! x) S → size (events g) < fuel + length S →
  ∃ S' d', kahn fuel g d Q sorted = Some (omap (λ x, events g !! x) S') ∧ kahn_inv S' [] d'.
Proof.
  revert S Q d sorted. induction fuel as [|fuel IH]; intros S Q d sorted Hi Hs Hf.
  - exfalso. destruct Hi as [Hnd Hnode _ _ _]. apply NoDup_app in Hnd as (HS & _ & _).
    assert (size (list_to_set S : gset string) ≤ size (dom (events g))) as Hle.
    { apply subseteq_size. intros x Hx%elem_of_list_to_set. apply elem_of_dom, Hnode. set_solver. }
    rewrite size_list_to_set, size_dom in Hle by done. lia.
  - destruct Q as [|cur Q]; cbn [kahn]; [exists S, d; by subst|].
    pose proof (kahn_step _ _ _ _ Hi) as Hst.
    destruct (for_range _ _ _) as [d' Q']. apply (IH (S ++ [cur])); [done| |].
    + rewrite omap_app. simpl. subst sorted. destruct (events g !! cur); [done|by rewrite app_nil_r].
    + rewrite length_app. simpl. lia.
Qed.

Lemma kahn_init :
  kahn_inv [] (for_range (in_degrees g) (λ id deg queue,
    if bool_decide (deg = 0%Z) then queue ++ [id] else queue) []) (in_degrees g).
Proof.
  unfold for_range.
  rewrite (foldl_collect (λ kv : string * Z, bool_decide (kv.2 = 0%Z)) fst). simpl.
  set (q := fst <$> _).
  assert (∀ y, y ∈ q ↔ in_degrees g !! y = Some 0%Z) as Hq.
  { intros y. unfold q. rewrite list_elem_of_fmap. split.
    - intros ([k v] & -> & [Hv Hin%elem_of_range]%list_elem_of_filter).
      apply bool_decide_eq_true in Hv. simpl in *. by subst.
    - intros Hy. exists (y, 0%Z). split; [done|]. apply list_elem_of_filter.
      split; [done|by apply elem_of_range]. }
  assert (∀ y, is_Some (in_degrees g !! y) → node y) as Hdom by apply in_degrees_dom.
  split; simpl.
  - apply filter_fst_NoDup, range_nodup.
  - intros x Hx%Hq. apply Hdom. eauto.
  - apply in_degrees_node.
  - intros y Hy. rewrite Hq, in_degrees_node by done. split; [by intros [= ->]|by intros ->].
  - by intros [] y l2.
Qed.
End kahn_facts.

(** ** Properties *)

(** C17: [HappenedBefore] answers with the transitive closure of the edges: a
    positive answer always comes with a path between two different nodes, on
    cyclic graphs too, and as long as fewer than [maxBFSDepth] nodes can be
    reached from the first event every path is found, so that [Concurrent]
    then means exactly that there is no path either way.  The search always
    ends. *)
Theorem HappenedBefore_decides `{MapRange} (g : CausalGraph) (a b : string) (Ra Rb : gset string) :
  a ∈ Ra → (∀ x y, x ∈ Ra → edge g x y → y ∈ Ra) → size Ra < maxBFSDepth →
  b ∈ Rb → (∀ x y, x ∈ Rb → edge g x y → y ∈ Rb) → size Rb < maxBFSDepth →
  (∀ x y, HappenedBefore g x y = true → x ≠ y ∧ tc (edge g) x y) ∧
  (HappenedBefore g a b = true ↔ a ≠ b ∧ tc (edge g) a b) ∧
  (a ≠ b → Concurrent g a b = true ↔ ¬ tc (edge g) a b ∧ ¬ tc (edge g) b a).
Proof.
  intros Ha Hca Hsa Hb Hcb Hsb.
  pose proof (HappenedBefore_sound g) as Hsound.
  assert (∀ x y (R : gset string), x ∈ R → (∀ u v, u ∈ R → edge g u v → v ∈ R) →
    size R < maxBFSDepth → x ≠ y → tc (edge g) x y → HappenedBefore g x y = true) as Hcompl.
  { intros x y R Hx Hcl Hs Hne Ht. unfold HappenedBefore. rewrite bool_decide_false by done.
    destruct (bfs_terminates g (bfs_fuel g) y ∅ [x]) as [[] Eb].
    { unfold bfs_fuel. simpl. lia. }
    { by rewrite Eb. }
    exfalso. eapply (bfs_complete g _ x y ∅ [x] R Hs Hcl); [..|exact Eb|by apply path_tc].
    - by intros z ->%list_elem_of_singleton.
    - set_solver.
    - set_solver.
    - set_solver.
    - right. by left. }
  assert (∀ x y (R : gset string), x ∈ R → (∀ u v, u ∈ R → edge g u v → v ∈ R) →
    size R < maxBFSDepth → HappenedBefore g x y = true ↔ x ≠ y ∧ tc (edge g) x y) as Hiff.
  { intros x y R Hx Hcl Hs. split; [apply Hsound|]. intros [? ?]. by eapply Hcompl. }
  split; [done|]. split; [by apply Hiff with Ra|]. intros Hne. unfold Concurrent.
  rewrite andb_true_iff, !negb_true_iff, <- !not_true_iff_false.
  rewrite (Hiff a b Ra), (Hiff b a Rb) by done. naive_solver.
Qed.

(** C18: [CausalHistory] returns exactly the events with a path to [id], each
    once, on every graph and with no bound; its loop always ends. *)
Theorem CausalHistory_exact `{MapRange} (g : CausalGraph) (id : string) :
  wf_graph g →
  NoDup (ID <$> CausalHistory g id) ∧
  ∀ e, e ∈ CausalHistory g id ↔ events g !! ID e = Some e ∧ tc (edge g) (ID e) id.
Proof.
  intros Hwf. unfold CausalHistory.
  set (rev := reverse_map g). set (q := default [] (rev !! id)).
  destruct (history_terminates g (history_fuel rev q) rev ∅ q []) as [res E].
  { unfold history_fuel. lia. }
  rewrite E. simpl. eapply (history_correct g); [done| |exact E].
  assert (∀ x, x ∈ q ↔ edge g x id) as Hq by (intros x; apply reverse_map_spec).
  split.
  - intros x [?|Hx%Hq]; [set_solver|by apply tc_once].
  - set_solver.
  - intros y Hy. right. by apply Hq.
  - constructor.
  - intros e. split; [by intros ?%elem_of_nil|]. set_solver.
Qed.

(** C19: [TopologicalSort] returns events of the graph, each at most once, and
    lists an event only after all its predecessors; on an acyclic graph it
    lists every event.  Its loop ends within one round per event. *)
Theorem TopologicalSort_correct `{MapRange} (g : CausalGraph) :
  wf_graph g →
  let ids := ID <$> TopologicalSort g in
  NoDup ids ∧
  (∀ e, e ∈ TopologicalSort g → events g !! ID e = Some e) ∧
  (∀ l1 y l2, ids = l1 ++ y :: l2 → ∀ x, is_Some (events g !! x) → edge g x y → x ∈ l1) ∧
  (∀ rank : string → nat,
     (∀ x y, is_Some (events g !! x) → is_Some (events g !! y) → edge g x y → rank x < rank y) →
     ∀ id e, events g !! id = Some e → e ∈ TopologicalSort g).
Proof.
  intros Hwf. unfold TopologicalSort.
  destruct (kahn_runs g (S (size (events g))) [] _ (in_degrees g) [] (kahn_init g)) as (S' & d' & -> & Hi);
    [done|simpl; lia|]. simpl.
  destruct Hi as [Hnd Hnode Hdeg Hzero Hord]. rewrite app_nil_r in *.
  assert (ID <$> omap (λ x, events g !! x) S' = S') as Hids.
  { clear Hnd Hdeg Hzero Hord. induction S' as [|x S' IH]; [done|]. simpl.
    destruct (Hnode x (list_elem_of_here _ _)) as [e He]. rewrite He. simpl.
    f_equal; [exact (Hwf x e He)|]. apply IH. intros y Hy. apply Hnode. by right. }
  rewrite Hids. split; [done|]. split; [|split; [exact Hord|]].
  - intros e (x & _ & He)%list_elem_of_omap. by rewrite (Hwf x e He).
  - intros rank Hrank id e He. apply list_elem_of_omap. exists id. split; [|done].
    remember (rank id) as n eqn:En. revert id e He En.
    induction (lt_wf n) as [n _ IH]. intros id e He ->.
    apply Hzero; [by eexists|]. apply degree_zero. intros x [ex Hex] Hxy.
    eapply (IH (rank x)); [|exact Hex|done]. apply Hrank; [by eexists..|done].
Qed.

(** A small graph: [a] before [b] and [c], [d] on its own. *)
Definition test_event (id : string) : Event :=
  {| ID := id; ProcessID := "P"; Type_ := EventInternal; LocalSeq := 1; MessageID := "" |}.

Definition test_graph : CausalGraph :=
  AddEdge (AddEdge (foldl AddEvent NewCausalGraph (test_event <$> ["a"; "b"; "c"; "d"]))
    "a" "b") "b" "c".

Lemma test_graph_wf : wf_graph test_graph.
Proof.
  unfold test_graph. cbn [foldl fmap list_fmap].
  repeat first [apply AddEdge_wf|apply AddEvent_wf].
  intros id e E. simpl in E. by rewrite lookup_empty in E.
Qed.

Lemma test_graph_edge x y : edge test_graph x y ↔ x = "a" ∧ y = "b" ∨ x = "b" ∧ y = "c".
Proof.
  unfold test_graph. rewrite !AddEdge_edge. cbn [foldl fmap list_fmap]. rewrite !AddEvent_edge.
  assert (¬ edge NewCausalGraph x y) as Hno by (by intros [v Hv]).
  split; [intros [[?|?]|?]; auto; done|]. intros [?|?]; auto.
Qed.

Lemma HappenedBefore_decides_witness :
  let r := canonical_range in
  HappenedBefore test_graph "a" "c" = true ∧ tc (edge test_graph) "a" "c".
Proof.
  intros r. split; [vm_compute; reflexivity|].
  destruct (HappenedBefore_decides test_graph "a" "c" {["a"; "b"; "c"]} {["c"]}) as (_ & [Hd _] & _).
  - set_solver.
  - intros x y Hx [[-> ->]|[-> ->]]%test_graph_edge; set_solver.
  - vm_compute. lia.
  - set_solver.
  - intros x y ->%elem_of_singleton [[? ->]|[? ->]]%test_graph_edge; done.
  - vm_compute. lia.
  - apply Hd. vm_compute. reflexivity.
Defined.

Lemma CausalHistory_exact_witness :
  let r := canonical_range in
  length (CausalHistory test_graph "c") = 2 ∧ NoDup (ID <$> CausalHistory test_graph "c").
Proof.
  intros r. split; [vm_compute; reflexivity|]. apply (CausalHistory_exact test_graph "c" test_graph_wf).
Defined.

Lemma TopologicalSort_correct_witness :
  let r := canonical_range in
  length (TopologicalSort test_graph) = 4 ∧ NoDup (ID <$> TopologicalSort test_graph).
Proof.
  intros r. split; [vm_compute; reflexivity|]. apply (TopologicalSort_correct test_graph test_graph_wf).
Defined.
