(* ===== verification/Cuts.v ===== *)
(** * Consistent cuts (src/internal/causality/cut.go)

    A cut gives each process a frontier, the last local sequence number it
    includes.  The file models the consistency check, the enumeration of all
    consistent cuts, the cut below a vector clock and the pairing of send and
    receive events. *)
From stdpp Require Import gmap strings list.
From S2P Require Import Prelude VClock Causality.

(** ** Data *)

(** Go's [int], on a 64-bit machine. *)
Definition maxInt : Z := 9223372036854775807.

Record Cut := { Frontier : gmap string Z }.

Record Message := { MID : string; SendEventID : string; RecvEventID : string }.

(** [uint64ToIntBounded(v)], and the conversion [int(v)], which reinterprets
    the bits. *)
Definition uint64ToIntBounded (v : N) : Z := if Z.ltb maxInt (Z.of_N v) then maxInt else Z.of_N v.
Definition to_int (v : N) : Z :=
  if Z.ltb maxInt (Z.of_N v) then (Z.of_N v - Z.of_N two64)%Z else Z.of_N v.

(** ** Helpers *)

Fixpoint findEvent (events : list Event) (id : string) : option Event :=
  match events with
  | [] => None
  | e :: events => if bool_decide (ID e = id) then Some e else findEvent events id
  end.

Definition groupByProcess (events : list Event) : gmap string (list Event) :=
  foldl (λ result e, <[ProcessID e := default [] (result !! ProcessID e) ++ [e]]> result) ∅ events.

Section cuts.
Context `{MapRange}.

Definition keys (m : gmap string (list Event)) : list string :=
  for_range m (λ k _ result, result ++ [k]) [].

Definition copyFrontier (f : gmap string Z) : gmap string Z :=
  for_range f (λ k v result, <[k := v]> result) ∅.

(** ** The consistency check *)

(** One round of the loop of [IsConsistent]: the message violates the cut. *)
Definition violates (cut : Cut) (events : list Event) (msg : Message) : bool :=
  match findEvent events (SendEventID msg), findEvent events (RecvEventID msg) with
  | Some sendEvent, Some recvEvent =>
      match Frontier cut !! ProcessID recvEvent with
      | None => false
      | Some recvCutline =>
          let recvInCut := Z.leb (uint64ToIntBounded (LocalSeq recvEvent)) recvCutline in
          let sendInCut :=
            match Frontier cut !! ProcessID sendEvent with
            | Some sendCutline => Z.leb (uint64ToIntBounded (LocalSeq sendEvent)) sendCutline
            | None => false
            end in
          recvInCut && negb sendInCut
      end
  | _, _ => false
  end.

Fixpoint IsConsistent (cut : Cut) (events : list Event) (messages : list Message) : bool :=
  match messages with
  | [] => true
  | msg :: messages => if violates cut events msg then false else IsConsistent cut events messages
  end.

(** ** Enumeration *)

(** The frontier values the loop of [enumerateCuts] tries for one process. *)
Definition frontiers (es : list Event) : list Z :=
  (-1)%Z :: ((λ e, uint64ToIntBounded (LocalSeq e)) <$> es).

(** [enumerateCuts]; the frontier map is shared and mutated, so it is passed
    along with the result. *)
Fixpoint enumerateCuts (pids : list string) (frontier : gmap string Z)
    (byProcess : gmap string (list Event)) (allEvents : list Event) (messages : list Message)
    (result : list Cut) : gmap string Z * list Cut :=
  match pids with
  | [] =>
      let cut := {| Frontier := copyFrontier frontier |} in
      (frontier, if IsConsistent cut allEvents messages then result ++ [cut] else result)
  | pid :: pids =>
      foldl (λ fr v, let '(frontier, result) := fr in
        enumerateCuts pids (<[pid := v]> frontier) byProcess allEvents messages result)
        (frontier, result) (frontiers (default [] (byProcess !! pid)))
  end.

Definition FindConsistentCuts (events : list Event) (messages : list Message) : list Cut :=
  let byProcess := groupByProcess events in
  let pids := keys byProcess in
  (enumerateCuts pids ∅ byProcess events messages []).2.

(** ** The cut below a clock *)

Definition cut_before_step (vc : VectorClock) (frontier : gmap string Z) (e : Event) : gmap string Z :=
  let seq := to_int (LocalSeq e) in
  let limit := to_int vc.[ProcessID e] in
  if Z.leb seq limit
  then if Z.ltb (default 0%Z (frontier !! ProcessID e)) seq
       then <[ProcessID e := seq]> frontier else frontier
  else frontier.

Definition CutBefore (vc : VectorClock) (events : list Event) : Cut :=
  let frontier := foldl (cut_before_step vc) ∅ events in
  let byProcess := groupByProcess events in
  let frontier := for_range byProcess (λ pid _ frontier,
    match frontier !! pid with Some _ => frontier | None => <[pid := (-1)%Z]> frontier end) frontier in
  {| Frontier := frontier |}.
End cuts.

(** [FindMessages] pairs every send event with every receive event of the same
    message. *)
Definition FindMessages (events : list Event) : list Message :=
  foldl (λ messages e,
    if bool_decide (Type_ e = EventSend) && bool_decide (MessageID e ≠ "") then
      foldl (λ messages recv,
        if bool_decide (Type_ recv = EventReceive) && bool_decide (MessageID recv = MessageID e)
        then messages ++ [{| MID := MessageID e; SendEventID := ID e; RecvEventID := ID recv |}]
        else messages) messages events
    else messages) [] events.

(** ** Facts *)

(** An event is inside a cut. *)
Definition in_cut (cut : Cut) (e : Event) : Prop :=
  ∃ f, Frontier cut !! ProcessID e = Some f ∧ (uint64ToIntBounded (LocalSeq e) <= f)%Z.

Section facts.
Context `{MapRange}.

Lemma violates_spec cut events msg :
  violates cut events msg = true ↔
    ∃ s r, findEvent events (SendEventID msg) = Some s ∧ findEvent events (RecvEventID msg) = Some r ∧
      in_cut cut r ∧ ¬ in_cut cut s.
Proof.
  unfold violates, in_cut. split.
  - destruct (findEvent events (SendEventID msg)) as [s|]; [|done].
    destruct (findEvent events (RecvEventID msg)) as [r|]; [|done].
    destruct (Frontier cut !! ProcessID r) as [fr|] eqn:Er; [|done].
    rewrite andb_true_iff, Z.leb_le, negb_true_iff. intros [Hr Hs]. exists s, r.
    split_and!; [done..|by eauto|]. intros (fs & Es & Hle). rewrite Es in Hs.
    apply Z.leb_gt in Hs. lia.
  - intros (s & r & -> & -> & (fr & -> & Hr) & Hs). rewrite andb_true_iff, Z.leb_le, negb_true_iff.
    split; [done|]. destruct (Frontier cut !! ProcessID s) as [fs|]; [|done].
    apply Z.leb_gt. destruct (Z_lt_le_dec fs (uint64ToIntBounded (LocalSeq s))); [done|].
    destruct Hs. eauto.
Qed.

Lemma IsConsistent_spec cut events messages :
  IsConsistent cut events messages = true ↔
    ∀ msg s r, msg ∈ messages → findEvent events (SendEventID msg) = Some s →
      findEvent events (RecvEventID msg) = Some r → in_cut cut r → in_cut cut s.
Proof.
  induction messages as [|msg messages IH]; simpl.
  - split; [by intros _ msg s r ?%elem_of_nil|done].
  - destruct (violates cut events msg) eqn:E.
    + split; [done|]. intros Hall. apply violates_spec in E as (s & r & Hs & Hr & Hin & Hout).
      destruct Hout. by apply (Hall msg s r); [left|..].
    + rewrite IH. setoid_rewrite elem_of_cons. split; [|naive_solver].
      intros Hall m s r [->|Hm]; [|by apply Hall]. intros Hs Hr Hin.
      destruct (decide (violates cut events msg = true)) as [|Hv]; [congruence|].
      rewrite violates_spec in Hv. destruct (Frontier cut !! ProcessID s) as [fs|] eqn:Es.
      * destruct (Z_lt_le_dec fs (uint64ToIntBounded (LocalSeq s))) as [Hlt|Hle]; [|by exists fs].
        destruct Hv. exists s, r. split_and!; [done..|]. intros (f & Ef & Hle). rewrite Es in Ef.
        injection Ef as <-. lia.
      * destruct Hv. exists s, r. split_and!; [done..|]. intros (f & Ef & _). congruence.
Qed.

Lemma group_lookup events pid :
  groupByProcess events !! pid =
    match filter (λ e, ProcessID e = pid) events with [] => None | es => Some es end.
Proof.
  unfold groupByProcess.
  assert (∀ acc : gmap string (list Event),
    foldl (λ result e, <[ProcessID e := default [] (result !! ProcessID e) ++ [e]]> result) acc events !! pid =
    match filter (λ e, ProcessID e = pid) events with
    | [] => acc !! pid | es => Some (default [] (acc !! pid) ++ es) end) as E; [|by rewrite E; case_match].
  induction events as [|e events IH]; intros acc; [done|]. cbn [foldl]. rewrite IH, filter_cons.
  destruct (decide (ProcessID e = pid)) as [He|He].
  - rewrite He, lookup_insert_eq. simpl. destruct (filter _ events); [done|].
    by rewrite <- (assoc_L (++)).
  - rewrite lookup_insert_ne by done. done.
Qed.

Lemma keys_spec m : keys m = (range m).*1.
Proof.
  unfold keys, for_range. assert (∀ es (acc : list string),
    foldl (λ a (kv : string * list Event), a ++ [kv.1]) acc es = acc ++ es.*1) as E; [|by rewrite E].
  induction es as [|kv es IH]; intros acc; simpl; [by rewrite app_nil_r|].
  by rewrite IH, <- (assoc_L (++)).
Qed.

Lemma copyFrontier_id f : copyFrontier f = f.
Proof.
  apply map_eq. intros k. unfold copyFrontier. rewrite (for_range_lookup _ (λ _ v _, Some v)) by done.
  by destruct (f !! k).
Qed.

Lemma findEvent_elem events id e : findEvent events id = Some e → e ∈ events ∧ ID e = id.
Proof.
  induction events as [|x events IH]; simpl; [done|]. case_bool_decide as E.
  - intros [= <-]. split; [by left|done].
  - intros [? ?]%IH. split; [by right|done].
Qed.

(** The frontiers a call of [enumerateCuts] explores: a value of its own for
    every process still to be placed, the given one elsewhere. *)
Definition extends (pids : list string) (frontier : gmap string Z)
    (bp : gmap string (list Event)) (f : gmap string Z) : Prop :=
  (∀ pid, pid ∈ pids → ∃ v, f !! pid = Some v ∧ v ∈ frontiers (default [] (bp !! pid))) ∧
  ∀ k, k ∉ pids → f !! k = frontier !! k.

Lemma enumerateCuts_spec pids frontier bp evs msgs res :
  NoDup pids →
  let '(fr', res') := enumerateCuts pids frontier bp evs msgs res in
  (∀ k, k ∉ pids → fr' !! k = frontier !! k) ∧
  ∀ c, c ∈ res' ↔ c ∈ res ∨
    extends pids frontier bp (Frontier c) ∧ IsConsistent c evs msgs = true.
Proof.
  revert frontier res. induction pids as [|pid pids IH]; intros frontier res Hnd.
  - simpl. split; [done|]. intros c. rewrite copyFrontier_id.
    assert (extends [] frontier bp (Frontier c) ↔ c = {| Frontier := frontier |}) as ->.
    { unfold extends. split.
      - intros [_ He]. destruct c as [f]. simpl in *. f_equal. apply map_eq. intros k. apply He.
        by intros ?%elem_of_nil.
      - intros ->. split; [by intros ? ?%elem_of_nil|done]. }
    destruct (IsConsistent _ evs msgs) eqn:E; [rewrite elem_of_app, list_elem_of_singleton|];
      naive_solver congruence.
  - apply NoDup_cons in Hnd as [Hp Hnd]. simpl.
    assert (∀ vs frontier res,
      let '(fr', res') := foldl (λ fr v, let '(frontier, result) := fr in
        enumerateCuts pids (<[pid := v]> frontier) bp evs msgs result) (frontier, res) vs in
      (∀ k, k ∉ pid :: pids → fr' !! k = frontier !! k) ∧
      ∀ c, c ∈ res' ↔ c ∈ res ∨
        (∃ v, v ∈ vs ∧ Frontier c !! pid = Some v) ∧
        (∀ q, q ∈ pids → ∃ v, Frontier c !! q = Some v ∧ v ∈ frontiers (default [] (bp !! q))) ∧
        (∀ k, k ∉ pid :: pids → Frontier c !! k = frontier !! k) ∧ IsConsistent c evs msgs = true) as Hfold.
    { clear frontier res. induction vs as [|v vs IHv]; intros frontier res; simpl.
      - split; [done|]. intros c. split; [by left|]. intros [?|((v & []%elem_of_nil & _) & _)]. done.
      - specialize (IH (<[pid := v]> frontier) res Hnd).
        destruct (enumerateCuts pids _ bp evs msgs res) as [fr1 res1]. destruct IH as [Hk1 Hc1].
        specialize (IHv fr1 res1). destruct (foldl _ _ vs) as [fr2 res2]. destruct IHv as [Hk2 Hc2].
        assert (∀ k, k ∉ pid :: pids → fr1 !! k = frontier !! k) as Hk.
        { intros k Hk. rewrite Hk1 by set_solver. apply lookup_insert_ne. set_solver. }
        split; [intros k Hk'; by rewrite Hk2, Hk|]. intros c. rewrite Hc2, Hc1. unfold extends. split.
        + intros [[?|[[Hq He] Hcons]]|((w & Hw & Hfw) & Hq & He & Hcons)]; [by left|right|right].
          * split_and!; [|done| |done].
            -- exists v. split; [by left|]. rewrite (He pid Hp). by rewrite lookup_insert_eq.
            -- intros k Hkk. rewrite He by set_solver. apply lookup_insert_ne. set_solver.
          * split_and!; [|done| |done]; [exists w; split; [by right|done]|].
            intros k Hkk. by rewrite He, Hk.
        + intros [?|((w & [->|Hw]%elem_of_cons & Hfw) & Hq & He & Hcons)]; [by left; left|left; right|right].
          * split; [|done]. split; [done|]. intros k Hkk. destruct (decide (k = pid)) as [->|Hne].
            -- by rewrite lookup_insert_eq.
            -- rewrite lookup_insert_ne by done. apply He. set_solver.
          * split_and!; [by exists w|done| |done]. intros k Hkk. by rewrite He, Hk. }
    specialize (Hfold (frontiers (default [] (bp !! pid))) frontier res).
    destruct (foldl _ _ _) as [fr' res']. destruct Hfold as [Hk Hc]. split; [done|].
    intros c. rewrite Hc. unfold extends. split.
    + intros [?|((v & Hv & Hf) & Hq & He & Hcons)]; [by left|right]. split; [|done]. split; [|done].
      intros q [->|Hin]%elem_of_cons; [by exists v|by apply Hq].
    + intros [?|[[Hq He] Hcons]]; [by left|right]. split_and!; [|intros q Hin; apply Hq; by right|done|done].
      destruct (Hq pid ltac:(by left)) as (v & ? & ?). by exists v.
Qed.

Lemma cut_before_fold vc es (fr : gmap string Z) :
  (∀ k f, fr !! k = Some f → (f <= to_int vc.[k])%Z) →
  let fr' := foldl (cut_before_step vc) fr es in
  (∀ k f, fr' !! k = Some f → (f <= to_int vc.[k])%Z) ∧
  (∀ k f, fr !! k = Some f → ∃ f', fr' !! k = Some f' ∧ (f <= f')%Z) ∧
  (∀ e, e ∈ es → (0 < to_int (LocalSeq e) <= to_int vc.[ProcessID e])%Z →
     ∃ f, fr' !! ProcessID e = Some f ∧ (to_int (LocalSeq e) <= f)%Z).
Proof.
  revert fr. induction es as [|e es IH]; intros fr Hfr; simpl.
  { split_and!; [done|intros k f ?; exists f; split; [done|lia]|by intros ? ?%elem_of_nil]. }
  assert ((∀ k f, cut_before_step vc fr e !! k = Some f → (f <= to_int vc.[k])%Z) ∧
    (∀ k f, fr !! k = Some f → ∃ f', cut_before_step vc fr e !! k = Some f' ∧ (f <= f')%Z) ∧
    ((0 < to_int (LocalSeq e) <= to_int vc.[ProcessID e])%Z →
       ∃ f, cut_before_step vc fr e !! ProcessID e = Some f ∧ (to_int (LocalSeq e) <= f)%Z))
    as (H1 & H2 & H3).
  { unfold cut_before_step. destruct (Z.leb_spec (to_int (LocalSeq e)) (to_int vc.[ProcessID e])).
    2: { split_and!; [done|intros k f ?; exists f; split; [done|lia]|lia]. }
    destruct (Z.ltb_spec (default 0%Z (fr !! ProcessID e)) (to_int (LocalSeq e))) as [Hlt|Hge].
    - split_and!.
      + intros k f [[<- <-]|[_ ?]]%lookup_insert_Some; [done|by apply Hfr].
      + intros k f Hk. destruct (decide (k = ProcessID e)) as [->|Hne].
        * rewrite lookup_insert_eq. rewrite Hk in Hlt. simpl in Hlt. eexists. split; [done|lia].
        * rewrite lookup_insert_ne by done. exists f. split; [done|lia].
      + intros _. rewrite lookup_insert_eq. eexists. split; [done|lia].
    - split_and!; [done|intros k f ?; exists f; split; [done|lia]|].
      intros [Hpos _]. destruct (fr !! ProcessID e) as [f|]; simpl in Hge; [by exists f|lia]. }
  destruct (IH _ H1) as (I1 & I2 & I3). split_and!; [done|..].
  - intros k f Hk. destruct (H2 k f Hk) as (f1 & Hf1 & ?). destruct (I2 k f1 Hf1) as (f2 & ? & ?).
    exists f2. split; [done|lia].
  - intros e' [->|He']%elem_of_cons Hb; [|by apply I3].
    destruct (H3 Hb) as (f1 & Hf1 & ?). destruct (I2 _ f1 Hf1) as (f2 & ? & ?). exists f2. split; [done|lia].
Qed.

Lemma CutBefore_lookup vc events k :
  Frontier (CutBefore vc events) !! k =
    match foldl (cut_before_step vc) ∅ events !! k with
    | Some f => Some f
    | None => match groupByProcess events !! k with Some _ => Some (-1)%Z | None => None end
    end.
Proof.
  unfold CutBefore. simpl.
  rewrite (for_range_lookup _ (λ _ _ o, match o with Some f => Some f | None => Some (-1)%Z end)).
  - destruct (groupByProcess events !! k), (foldl _ _ _ !! k); done.
  - intros k' v a. apply map_eq. intros j. destruct (decide (j = k')) as [->|Hne].
    + rewrite lookup_partial_alter_eq. destruct (a !! k') eqn:E; [done|by rewrite lookup_insert_eq].
    + rewrite lookup_partial_alter_ne by done. destruct (a !! k') eqn:E; [done|by rewrite lookup_insert_ne].
Qed.
End facts.

(** ** Properties *)

(** C20: [FindConsistentCuts] enumerates exactly the consistent cuts: a cut is
    in the result when it has a frontier for just the processes that have
    events, each frontier is before the first event or at an event of that
    process, and the sending of every message whose receipt is inside the cut
    is inside it too. *)
Theorem FindConsistentCuts_exact `{MapRange} (events : list Event) (messages : list Message) (c : Cut) :
  c ∈ FindConsistentCuts events messages ↔
    (∀ pid, match Frontier c !! pid with
            | Some f => (∃ e, e ∈ events ∧ ProcessID e = pid) ∧
                (f = (-1)%Z ∨
                 ∃ e, e ∈ events ∧ ProcessID e = pid ∧ f = uint64ToIntBounded (LocalSeq e))
            | None => ∀ e, e ∈ events → ProcessID e ≠ pid
            end) ∧
    (∀ msg s r, msg ∈ messages → findEvent events (SendEventID msg) = Some s →
       findEvent events (RecvEventID msg) = Some r → in_cut c r → in_cut c s).
Proof.
  unfold FindConsistentCuts. set (bp := groupByProcess events).
  assert (NoDup (keys bp)) as Hnd by (rewrite keys_spec; apply range_nodup).
  pose proof (enumerateCuts_spec (keys bp) ∅ bp events messages [] Hnd) as Hs.
  destruct (enumerateCuts _ _ _ _ _ _) as [fr' res']. destruct Hs as [_ ->]. simpl.
  rewrite <- IsConsistent_spec, elem_of_nil.
  assert (∀ pid, pid ∈ keys bp ↔ ∃ e, e ∈ events ∧ ProcessID e = pid) as Hkeys.
  { intros pid. rewrite keys_spec, list_elem_of_fmap. split.
    - intros ([k es] & -> & Hin%elem_of_range). unfold bp in Hin. rewrite group_lookup in Hin.
      destruct (filter _ events) as [|e es'] eqn:Ef; [done|]. exists e.
      assert (e ∈ filter (λ e, ProcessID e = k) events) as [? ?]%list_elem_of_filter
        by (rewrite Ef; by left). done.
    - intros (e & He & Hp). assert (e ∈ filter (λ e, ProcessID e = pid) events) as Hf
        by (by apply list_elem_of_filter).
      exists (pid, filter (λ e, ProcessID e = pid) events). split; [done|]. apply elem_of_range.
      unfold bp. rewrite group_lookup. destruct (filter _ events); [by apply elem_of_nil in Hf|done]. }
  assert (∀ pid v, pid ∈ keys bp → v ∈ frontiers (default [] (bp !! pid)) ↔
    v = (-1)%Z ∨ ∃ e, e ∈ events ∧ ProcessID e = pid ∧ v = uint64ToIntBounded (LocalSeq e)) as Hvals.
  { intros pid v (e0 & He0 & Hp0)%Hkeys. unfold frontiers. rewrite elem_of_cons, list_elem_of_fmap.
    assert (default [] (bp !! pid) = filter (λ e, ProcessID e = pid) events) as ->.
    { unfold bp. rewrite group_lookup. by destruct (filter _ events). }
    setoid_rewrite list_elem_of_filter. naive_solver. }
  unfold extends. split.
  - intros [[]|[[Hin Hout] Hcons]]. split; [|done]. intros pid.
    destruct (decide (pid ∈ keys bp)) as [Hp|Hp].
    + destruct (Hin pid Hp) as (v & -> & Hv). split; [by apply Hkeys|by apply (Hvals pid)].
    + rewrite Hout, lookup_empty by done. intros e He Hpe. apply Hp, Hkeys. eauto.
  - intros [Hall Hcons]. right. split; [|done]. split.
    + intros pid Hp. specialize (Hall pid). destruct (Frontier c !! pid) as [f|].
      * exists f. split; [done|]. apply (Hvals pid); [done|]. by apply Hall.
      * apply Hkeys in Hp as (e & He & Hpe). by destruct (Hall e He).
    + intros k Hk. rewrite lookup_empty. specialize (Hall k). destruct (Frontier c !! k) as [f|]; [|done].
      destruct Hk. apply Hkeys. by apply Hall.
Qed.

(** the cut below a vector clock contains exactly the events whose
    sequence number the clock's component covers, when sequence numbers start
    at 1 and fit an [int]; it is consistent whenever the clock is closed under
    the messages, as the clock of an event is. *)
Theorem CutBefore_exact `{MapRange} (vc : VectorClock) (events : list Event) (messages : list Message) :
  (∀ e, e ∈ events → (0 < Z.of_N (LocalSeq e) <= maxInt)%Z) →
  (∀ k, (Z.of_N vc.[k] <= maxInt)%Z) →
  (∀ e, e ∈ events → in_cut (CutBefore vc events) e ↔ (LocalSeq e <= vc.[ProcessID e])%N) ∧
  ((∀ msg s r, msg ∈ messages → findEvent events (SendEventID msg) = Some s →
      findEvent events (RecvEventID msg) = Some r →
      (LocalSeq r <= vc.[ProcessID r])%N → (LocalSeq s <= vc.[ProcessID s])%N) →
   IsConsistent (CutBefore vc events) events messages = true).
Proof.
  intros Hseq Hvc.
  assert (∀ v, (Z.of_N v <= maxInt)%Z → to_int v = Z.of_N v ∧ uint64ToIntBounded v = Z.of_N v) as Hconv.
  { intros v Hv. unfold to_int, uint64ToIntBounded. by rewrite (proj2 (Z.ltb_ge _ _) Hv). }
  assert (∀ e, e ∈ events → in_cut (CutBefore vc events) e ↔ (LocalSeq e <= vc.[ProcessID e])%N) as Hin.
  { intros e He. destruct (Hconv (LocalSeq e)) as [Ei Eb]; [by apply Hseq|].
    destruct (Hconv vc.[ProcessID e]) as [Ev _]; [done|].
    destruct (cut_before_fold vc events ∅) as (H1 & _ & H3); [by intros k f ?|].
    unfold in_cut. rewrite CutBefore_lookup, Eb. specialize (Hseq e He). split.
    - destruct (foldl _ ∅ events !! ProcessID e) as [f|] eqn:Ef.
      + intros (f' & [= <-] & Hle). specialize (H1 _ _ Ef). lia.
      + destruct (groupByProcess events !! _); intros (f' & [= <-] & Hle). lia.
    - intros Hle. destruct (H3 e He) as (f & -> & Hf); [lia|]. exists f. split; [done|lia]. }
  split; [done|]. intros Hcl. apply IsConsistent_spec. intros msg s r Hm Hs Hr.
  rewrite !Hin by (by eapply findEvent_elem). by apply (Hcl msg).
Qed.

(** A message from [P] to [Q] after an event of [P]. *)
Definition cut_events : list Event :=
  [{| ID := "P-e1"; ProcessID := "P"; Type_ := EventInternal; LocalSeq := 1; MessageID := "" |};
   {| ID := "P-e2"; ProcessID := "P"; Type_ := EventSend; LocalSeq := 2; MessageID := "m" |};
   {| ID := "Q-e1"; ProcessID := "Q"; Type_ := EventReceive; LocalSeq := 1; MessageID := "m" |}].

Lemma CutBefore_exact_witness :
  let r := canonical_range in
  let vc := <["P" := 2%N]> {["Q" := 1%N]} in
  FindMessages cut_events = [{| MID := "m"; SendEventID := "P-e2"; RecvEventID := "Q-e1" |}] ∧
  IsConsistent (CutBefore vc cut_events) cut_events (FindMessages cut_events) = true.
Proof.
  intros r vc. split; [vm_compute; reflexivity|].
  apply (CutBefore_exact vc cut_events (FindMessages cut_events)).
  - intros e He. unfold cut_events in He.
    repeat (apply elem_of_cons in He as [->|He]; [vm_compute; by split|]). by apply elem_of_nil in He.
  - intros k. unfold vc. rewrite !mget_insert.
    repeat case_decide; [vm_compute; done|].
    unfold mget. destruct ({["Q" := 1%N]} !! k) eqn:E; [|vm_compute; done].
    apply lookup_singleton_Some in E as [_ <-]. vm_compute. done.
  - intros msg s t Hm Hs Hr _. vm_compute in Hm.
    apply list_elem_of_singleton in Hm as ->. vm_compute in Hs. injection Hs as <-. by vm_compute.
Defined.
