(* ===== verification/Transport.v ===== *)
(** * The simulated transport (src/internal/simulation/transport.go,
    src/internal/simulation/constants.go)

    One bounded FIFO channel per ordered pair of processes, with fault
    injection: delay, drop of the next message, reordering of the next two,
    and partitions.  [Send] is modelled as one step, in the order of its
    checks; [forward] hands the oldest message of a channel to the
    destination. *)
From stdpp Require Import gmap strings list pretty.
From S2P Require Import Prelude Events HoldBack Process.

(** ** Data *)

Definition ChannelBufferSize : nat := N.to_nat 1024.
Definition DefaultInitialProcesses : nat := 3.
Definition MaxSimulationProcesses : nat := 100.
#[global] Opaque ChannelBufferSize.

(** [type ChannelKey struct]. *)
Abbreviation ChannelKey := (string * string)%type.

(** [type SimTransport struct].  [channels] holds the buffers;
    [reorderBuf]'s value [None] is the nil the code stores as a marker;
    [delayed] holds the messages of the goroutines started by [sendDelayed],
    which send to their channel when their timer fires; [deliver] is the set
    of registered processes. *)
Record SimTransport := {
  channels : gmap ChannelKey (list Message);
  delays : gmap ChannelKey Z;
  dropNext : gmap ChannelKey bool;
  reorderBuf : gmap ChannelKey (option Message);
  partitionGroups : list (list string);
  deliver : gset string;
  delayed : list (ChannelKey * Message);
  closed : bool
}.

Definition NewSimTransport : SimTransport :=
  {| channels := ∅; delays := ∅; dropNext := ∅; reorderBuf := ∅; partitionGroups := [];
     deliver := ∅; delayed := []; closed := false |}.

(** Field updates. *)
Definition set_channels (t : SimTransport) cs ds := {| channels := cs; delays := delays t;
  dropNext := dropNext t; reorderBuf := reorderBuf t; partitionGroups := partitionGroups t;
  deliver := deliver t; delayed := ds; closed := closed t |}.

Definition set_faults (t : SimTransport) dl dr rb pg := {| channels := channels t; delays := dl;
  dropNext := dr; reorderBuf := rb; partitionGroups := pg; deliver := deliver t;
  delayed := delayed t; closed := closed t |}.

Definition set_registry (t : SimTransport) dv cl := {| channels := channels t; delays := delays t;
  dropNext := dropNext t; reorderBuf := reorderBuf t; partitionGroups := partitionGroups t;
  deliver := dv; delayed := delayed t; closed := cl |}.

(** ** Operations *)

Definition RegisterProcess (t : SimTransport) (pid : string) : SimTransport :=
  set_registry t ({[pid]} ∪ deliver t) (closed t).

Definition RegisterChannel (t : SimTransport) (from to : string) : SimTransport :=
  match channels t !! (from, to) with
  | None => set_channels t (<[(from, to) := []]> (channels t)) (delayed t)
  | Some _ => t
  end.

(** [inSameGroup]: some group contains both. *)
Fixpoint inSameGroup (groups : list (list string)) (from to : string) : bool :=
  match groups with
  | [] => false
  | g :: groups =>
      let hasFrom := existsb (λ p, bool_decide (p = from)) g in
      let hasTo := existsb (λ p, bool_decide (p = to)) g in
      if hasFrom && hasTo then true else inSameGroup groups from to
  end.

(** The non-blocking send to a channel that exists. *)
Definition sendToChannel (t : SimTransport) (key : ChannelKey) (m : Message) :
    SimTransport * option string :=
  if closed t then (t, Some "transport closed")
  else
    let q := default [] (channels t !! key) in
    if length q <? ChannelBufferSize
    then (set_channels t (<[key := q ++ [m]]> (channels t)) (delayed t), None)
    else (t, Some "channel full").

Definition Send (t : SimTransport) (from to : string) (m : Message) : SimTransport * option string :=
  let key := (from, to) in
  let drop := default false (dropNext t !! key) in
  let delay := default 0%Z (delays t !! key) in
  let groups := partitionGroups t in
  let reorderMsg := mjoin (reorderBuf t !! key) in
  if closed t then (t, Some "transport closed")
  else match channels t !! key with
  | None => (t, Some ("no channel " +:+ from +:+ "→" +:+ to))
  | Some _ =>
      if negb (length groups =? 0) && negb (inSameGroup groups from to) then (t, None)
      else if drop then
        (set_faults t (delays t) (<[key := false]> (dropNext t)) (reorderBuf t) groups, None)
      else match reorderMsg with
      | Some buffered =>
          let t := set_faults t (delays t) (dropNext t) (<[key := None]> (reorderBuf t)) groups in
          match sendToChannel t key m with
          | (t, Some err) => (t, Some err)
          | (t, None) => sendToChannel t key buffered
          end
      | None =>
          match reorderBuf t !! key with
          | Some _ =>
              (set_faults t (delays t) (dropNext t) (<[key := Some m]> (reorderBuf t)) groups, None)
          | None =>
              if (0 <? delay)%Z then
                (set_channels t (channels t) (delayed t ++ [(key, m)]), None)
              else sendToChannel t key m
          end
      end
  end.

(** The timer of the [i]-th delayed message fires: its goroutine sends it when
    the channel has room ([None] while it blocks), or gives up when the
    transport is closed. *)
Definition fire_delayed (t : SimTransport) (i : nat) : option SimTransport :=
  match delayed t !! i with
  | None => None
  | Some (key, m) =>
      let rest := delete i (delayed t) in
      if closed t then Some (set_channels t (channels t) rest)
      else
        let q := default [] (channels t !! key) in
        if length q <? ChannelBufferSize
        then Some (set_channels t (<[key := q ++ [m]]> (channels t)) rest)
        else None
  end.

(** One round of [forward] on a channel: the oldest message leaves it and is
    handed to the destination when that is registered.  Once the transport is
    closed the [select] may still take a message; [quit] is the choice. *)
Definition forward (t : SimTransport) (key : ChannelKey) (quit : bool) : SimTransport * option Message :=
  if closed t && quit then (t, None)
  else match channels t !! key with
  | Some (m :: q) =>
      (set_channels t (<[key := q]> (channels t)) (delayed t),
       if bool_decide (key.2 ∈ deliver t) then Some m else None)
  | _ => (t, None)
  end.

Definition InjectDelay (t : SimTransport) (from to : string) (d : Z) : SimTransport :=
  set_faults t (<[(from, to) := d]> (delays t)) (dropNext t) (reorderBuf t) (partitionGroups t).

Definition InjectDrop (t : SimTransport) (from to : string) : SimTransport :=
  set_faults t (delays t) (<[(from, to) := true]> (dropNext t)) (reorderBuf t) (partitionGroups t).

Definition InjectReorder (t : SimTransport) (from to : string) : SimTransport :=
  set_faults t (delays t) (dropNext t) (<[(from, to) := None]> (reorderBuf t)) (partitionGroups t).

Definition SetPartition (t : SimTransport) (groups : list (list string)) : SimTransport :=
  set_faults t (delays t) (dropNext t) (reorderBuf t) groups.

Definition ClearFaults (t : SimTransport) : SimTransport := set_faults t ∅ ∅ ∅ [].

Definition Close (t : SimTransport) : SimTransport := set_registry t (deliver t) true.

Definition ChannelCount (t : SimTransport) : nat := size (channels t).

(** [type FaultState struct] and [GetFaults]; the channel names are written
    with an arrow. *)
Record FaultState := {
  fsDelays : gmap string Z;
  fsDrops : list string;
  fsPartition : list (list string)
}.

Definition arrow (key : ChannelKey) : string := key.1 +:+ "→" +:+ key.2.

Definition GetFaults `{MapRange} (t : SimTransport) : FaultState :=
  {| fsDelays := for_range (delays t) (λ k d ds,
       if (0 <? d)%Z then <[arrow k := (d / 1000000)%Z]> ds else ds) ∅;
     fsDrops := for_range (dropNext t) (λ k (v : bool) drops,
       if v then drops ++ [arrow k] else drops) [];
     fsPartition := partitionGroups t |}.

(** The transport is the network of the processes. *)
#[export] Instance sim_transport : Process.Transport SimTransport := Send.

(** ** Runs of the transport *)

Inductive t_op :=
  | TSend (from to : string) (m : Message)
  | TForward (key : ChannelKey) (quit : bool)
  | TFire (i : nat)
  | TRegister (pid : string)
  | TChannel (from to : string)
  | TDelay (from to : string) (d : Z)
  | TDrop (from to : string)
  | TReorder (from to : string)
  | TPartition (groups : list (list string))
  | TClear
  | TClose.

Definition t_exec (t : SimTransport) (op : t_op) : SimTransport :=
  match op with
  | TSend from to m => (Send t from to m).1
  | TForward key quit => (forward t key quit).1
  | TFire i => default t (fire_delayed t i)
  | TRegister pid => RegisterProcess t pid
  | TChannel from to => RegisterChannel t from to
  | TDelay from to d => InjectDelay t from to d
  | TDrop from to => InjectDrop t from to
  | TReorder from to => InjectReorder t from to
  | TPartition groups => SetPartition t groups
  | TClear => ClearFaults t
  | TClose => Close t
  end.

(** What a run did with one channel: the messages it was asked to send, those
    it took without an error, and those that left it at the other end. *)
Record chan_trace := { ct_sent : list Message; ct_accepted : list Message; ct_got : list Message }.

Definition buffer (t : SimTransport) (key : ChannelKey) : list Message :=
  default [] (channels t !! key).

Definition c_step (key : ChannelKey) (t : SimTransport) (c : chan_trace) (op : t_op) : chan_trace :=
  match op with
  | TSend from to m =>
      if bool_decide ((from, to) = key) then
        {| ct_sent := ct_sent c ++ [m];
           ct_accepted := match (Send t from to m).2 with
                          | None => ct_accepted c ++ [m] | Some _ => ct_accepted c end;
           ct_got := ct_got c |}
      else c
  | TForward key' quit =>
      if bool_decide (key' = key) && negb (closed t && quit) then
        {| ct_sent := ct_sent c; ct_accepted := ct_accepted c;
           ct_got := ct_got c ++ take 1 (buffer t key) |}
      else c
  | _ => c
  end.

Definition t_run (key : ChannelKey) (t : SimTransport) (ops : list t_op) : SimTransport * chan_trace :=
  foldl (λ tc op, (t_exec tc.1 op, c_step key tc.1 tc.2 op))
    (t, {| ct_sent := []; ct_accepted := []; ct_got := [] |}) ops.

(** The messages inside the transport on their way through one channel. *)
Definition inflight (t : SimTransport) (key : ChannelKey) : list Message :=
  buffer t key ++ (filter (λ km : ChannelKey * Message, km.1 = key) (delayed t)).*2 ++
  option_list (mjoin (reorderBuf t !! key)).

(** ** Conservation *)

Lemma Permutation_app_swap_app {A} (l1 l2 l3 : list A) : l1 ++ l2 ++ l3 ≡ₚ l2 ++ l1 ++ l3.
Proof. by rewrite !(assoc_L (++)), (Permutation_app_comm l1 l2). Qed.

Lemma buffer_insert t key key' q ds :
  buffer (set_channels t (<[key' := q]> (channels t)) ds) key =
  if decide (key = key') then q else buffer t key.
Proof.
  unfold buffer. simpl. case_decide as E; [subst; by rewrite lookup_insert_eq|by rewrite lookup_insert_ne].
Qed.

(** [sendToChannel] appends the message, or fails and changes nothing. *)
Lemma sendToChannel_spec t key m :
  (sendToChannel t key m).2 = None ∧
    (sendToChannel t key m).1 = set_channels t (<[key := buffer t key ++ [m]]> (channels t)) (delayed t) ∨
  is_Some (sendToChannel t key m).2 ∧ (sendToChannel t key m).1 = t.
Proof.
  unfold sendToChannel. destruct (closed t); [right; by eauto|].
  fold (buffer t key). destruct (_ <? _); [by left|right; by eauto].
Qed.

Lemma sendToChannel_room t key m :
  closed t = false → length (buffer t key) < ChannelBufferSize →
  sendToChannel t key m =
    (set_channels t (<[key := buffer t key ++ [m]]> (channels t)) (delayed t), None).
Proof.
  intros Hc Hl. unfold sendToChannel. rewrite Hc. fold (buffer t key).
  by rewrite (proj2 (Nat.ltb_lt _ _) Hl).
Qed.

Lemma inflight_append t key key' m :
  inflight (set_channels t (<[key' := buffer t key' ++ [m]]> (channels t)) (delayed t)) key ≡ₚ
  (if decide (key = key') then [m] else []) ++ inflight t key.
Proof.
  unfold inflight. rewrite buffer_insert. cbn [delayed reorderBuf set_channels].
  case_decide as E; [subst|done]. rewrite <- !(assoc_L (++)). simpl.
  by rewrite <- Permutation_middle.
Qed.

(** A send puts the message into the channel's traffic or loses messages of
    this channel; other channels are untouched. *)
Lemma Send_conserves t from to m key :
  ∃ lost, (if decide (key = (from, to)) then [m] else []) ++ inflight t key ≡ₚ
          inflight (Send t from to m).1 key ++ lost.
Proof.
  set (new := if decide (key = (from, to)) then [m] else []).
  assert (∃ lost, new ++ inflight t key ≡ₚ inflight t key ++ lost) as Hsame.
  { exists new. apply Permutation_app_comm. }
  assert (∀ k x t0 ms, inflight t0 key ≡ₚ ms →
    ∃ lost, (if decide (key = k) then [x] else []) ++ ms ≡ₚ
      inflight (sendToChannel t0 k x).1 key ++ lost) as Hsend.
  { intros k x t0 ms Hms. destruct (sendToChannel_spec t0 k x) as [[_ ->]|[_ ->]].
    - exists []. by rewrite inflight_append, app_nil_r, Hms.
    - eexists. rewrite Hms. apply Permutation_app_comm. }
  unfold Send. destruct (closed t) eqn:Ecl; [done|].
  destruct (channels t !! (from, to)); [|done].
  destruct (negb _ && negb _); [done|]. destruct (default false _); [done|].
  destruct (mjoin (reorderBuf t !! (from, to))) as [bm|] eqn:Ebuf.
  - set (t1 := set_faults t _ _ _ _).
    assert ((if decide (key = (from, to)) then [bm] else []) ++ inflight t1 key ≡ₚ inflight t key) as Ht1.
    { unfold inflight, t1. cbn [reorderBuf set_faults channels delayed].
      change (buffer (set_faults t _ _ _ _) key) with (buffer t key).
      case_decide as E; [subst key|rewrite lookup_insert_ne by congruence; done].
      rewrite lookup_insert_eq. rewrite Ebuf. simpl.
      rewrite app_nil_r, (assoc_L (++) _ _ [bm]). apply (Permutation_app_comm [bm]). }
    destruct (Hsend (from, to) m t1 (inflight t1 key) (reflexivity _)) as [lost Hl].
    fold new in Hl. destruct (sendToChannel t1 (from, to) m) as [t2 [err|]]; simpl in Hl.
    + eexists. rewrite <- Ht1, Permutation_app_swap_app, Hl, Permutation_app_comm, <- (assoc_L (++)).
      reflexivity.
    + destruct (Hsend (from, to) bm t2 (inflight t2 key) (reflexivity _)) as [lost' Hl'].
      eexists. rewrite <- Ht1, Permutation_app_swap_app, Hl, (assoc_L (++)), Hl', <- (assoc_L (++)).
      reflexivity.
  - destruct (reorderBuf t !! (from, to)) as [o|] eqn:Er.
    + assert (o = None) as -> by (by destruct o). exists []. rewrite app_nil_r. unfold new, inflight.
      cbn [reorderBuf set_faults delayed fst]. change (buffer (set_faults t _ _ _ _) key) with (buffer t key).
      case_decide as E; [subst key|rewrite lookup_insert_ne by congruence; done].
      rewrite lookup_insert_eq, Er. simpl. rewrite app_nil_r, (assoc_L (++)).
      by rewrite <- Permutation_cons_append.
    + destruct (0 <? _)%Z.
      * exists []. rewrite app_nil_r. unfold new, inflight. cbn [reorderBuf set_channels delayed fst].
        change (buffer (set_channels t (channels t) _) key) with (buffer t key).
        rewrite filter_app, fmap_app. case_decide as E; [subst key|].
        -- rewrite filter_cons_True by done. simpl. rewrite <- !(assoc_L (++)). simpl.
           by rewrite <- !Permutation_middle.
        -- rewrite filter_cons_False by (simpl; congruence). simpl. by rewrite app_nil_r.
      * apply Hsend. done.
Qed.

(** Every other operation keeps, delivers or loses what is on its way. *)
Lemma exec_conserves t op key :
  let got := match op with
             | TForward key' quit =>
                 if bool_decide (key' = key) && negb (closed t && quit) then take 1 (buffer t key) else []
             | _ => [] end in
  let sent := match op with
              | TSend from to m => if bool_decide ((from, to) = key) then [m] else []
              | _ => [] end in
  ∃ lost, sent ++ inflight t key ≡ₚ got ++ inflight (t_exec t op) key ++ lost.
Proof.
  destruct op as [from to m|key' quit|i|pid|from to|from to d|from to|from to|groups| |]; cbn zeta;
    try (by exists []; rewrite app_nil_r).
  - destruct (Send_conserves t from to m key) as [lost Hl]. exists lost. rewrite <- Hl.
    case_decide; [rewrite bool_decide_true by done|rewrite bool_decide_false by done]; done.
  - simpl. exists []. rewrite app_nil_r. unfold forward. destruct (closed t && quit); [by rewrite andb_false_r|].
    rewrite andb_true_r. destruct (channels t !! key') as [[|m q]|] eqn:E.
    + case_bool_decide; [subst|done]. unfold buffer at 1. by rewrite E.
    + simpl. unfold inflight. rewrite buffer_insert. case_bool_decide as Hk; [subst|].
      * rewrite decide_True by done. unfold buffer. by rewrite E.
      * by rewrite decide_False by congruence.
    + case_bool_decide; [subst|done]. unfold buffer at 1. by rewrite E.
  - simpl. unfold fire_delayed. destruct (delayed t !! i) as [[key' m]|] eqn:E; [|by exists []; rewrite app_nil_r].
    assert ((filter (λ km : ChannelKey * Message, km.1 = key) (delayed t)).*2 ≡ₚ
      (if decide (key = key') then [m] else []) ++
      (filter (λ km : ChannelKey * Message, km.1 = key) (delete i (delayed t))).*2) as Hd.
    { rewrite (delete_Permutation (delayed t) i (key', m) E) at 1. rewrite filter_cons. simpl.
      destruct (decide (key = key')) as [->|Hne]; [by rewrite decide_True|by rewrite decide_False by congruence]. }
    destruct (closed t); [|destruct (_ <? _); [|by exists []; rewrite app_nil_r]]; simpl.
    + exists (if decide (key = key') then [m] else []). unfold inflight. cbn [delayed set_channels reorderBuf].
      change (buffer (set_channels t (channels t) _) key) with (buffer t key).
      rewrite Hd. rewrite (Permutation_app_comm _ (if decide _ then _ else _)), <- !(assoc_L (++)).
      by rewrite Permutation_app_swap_app.
    + exists []. rewrite app_nil_r. unfold inflight. rewrite buffer_insert. cbn [delayed set_channels reorderBuf].
      rewrite Hd. case_decide; [subst key|done]. fold (buffer t key'). by rewrite <- !(assoc_L (++)).
  - simpl. exists []. rewrite app_nil_r. unfold RegisterChannel, inflight.
    destruct (channels t !! (from, to)) eqn:E; [done|]. rewrite buffer_insert. cbn [delayed set_channels reorderBuf].
    case_decide; [subst; unfold buffer; by rewrite E|done].
  - simpl. unfold InjectReorder, inflight. cbn [delayed set_faults reorderBuf].
    change (buffer (set_faults t _ _ _ _) key) with (buffer t key).
    destruct (decide (key = (from, to))) as [->|Hne].
    + exists (option_list (mjoin (reorderBuf t !! (from, to)))). rewrite lookup_insert_eq. simpl.
      by rewrite app_nil_r, <- !(assoc_L (++)).
    + exists []. rewrite lookup_insert_ne by done. by rewrite app_nil_r.
  - simpl. unfold ClearFaults, inflight. cbn [delayed set_faults reorderBuf].
    change (buffer (set_faults t _ _ _ _) key) with (buffer t key).
    exists (option_list (mjoin (reorderBuf t !! key))). rewrite lookup_empty. simpl.
    by rewrite app_nil_r, <- !(assoc_L (++)).
Qed.

Lemma t_run_snoc key t ops op :
  t_run key t (ops ++ [op]) =
    (t_exec (t_run key t ops).1 op, c_step key (t_run key t ops).1 (t_run key t ops).2 op).
Proof. unfold t_run. by rewrite foldl_app. Qed.

Lemma run_conserves key t0 ops :
  inflight t0 key = [] →
  ∃ lost, ct_sent (t_run key t0 ops).2 ≡ₚ
    ct_got (t_run key t0 ops).2 ++ inflight (t_run key t0 ops).1 key ++ lost.
Proof.
  intros H0. induction ops as [|op ops [lost IH]] using rev_ind.
  { exists []. simpl. by rewrite H0. }
  rewrite t_run_snoc. cbn [fst snd]. destruct (exec_conserves (t_run key t0 ops).1 op key) as [lost' Hl].
  cbn zeta in Hl. set (t := (t_run key t0 ops).1) in *. set (c := (t_run key t0 ops).2) in *.
  exists (lost' ++ lost).
  assert (∀ sent got, ct_sent (c_step key t c op) = ct_sent c ++ sent →
    ct_got (c_step key t c op) = ct_got c ++ got →
    sent ++ inflight t key ≡ₚ got ++ inflight (t_exec t op) key ++ lost' →
    ct_sent (c_step key t c op) ≡ₚ
      ct_got (c_step key t c op) ++ inflight (t_exec t op) key ++ lost' ++ lost) as Hfin.
  { intros sent got -> -> Hp. rewrite IH, (Permutation_app_comm _ sent), Permutation_app_swap_app.
    rewrite (assoc_L (++) sent), Hp. by rewrite <- !(assoc_L (++)). }
  destruct op; try (apply (Hfin [] []); [by rewrite app_nil_r..|exact Hl]); simpl in *.
  - case_bool_decide; [by apply (Hfin [m] []); rewrite ?app_nil_r|].
    by apply (Hfin [] []); rewrite ?app_nil_r.
  - destruct (bool_decide (key0 = key) && negb (closed t && quit)).
    + by apply (Hfin [] (take 1 (buffer t key))); rewrite ?app_nil_r.
    + by apply (Hfin [] []); rewrite ?app_nil_r.
Qed.

(** ** FIFO order without faults *)

(** No fault is active on the channel. *)
Definition healthy (key : ChannelKey) (t : SimTransport) : Prop :=
  default false (dropNext t !! key) = false ∧ (default 0 (delays t !! key) <= 0)%Z ∧
  reorderBuf t !! key = None ∧ partitionGroups t = [] ∧
  (filter (λ km : ChannelKey * Message, km.1 = key) (delayed t)) = [].

(** An operation that injects no fault on the channel. *)
Definition quiet (key : ChannelKey) (op : t_op) : Prop :=
  match op with
  | TDelay from to d => (from, to) ≠ key
  | TDrop from to | TReorder from to => (from, to) ≠ key
  | TPartition groups => groups = []
  | _ => True
  end.

Lemma Send_healthy t from to m :
  healthy (from, to) t →
  Send t from to m =
    if closed t then (t, Some "transport closed")
    else match channels t !! (from, to) with
         | None => (t, Some ("no channel " +:+ from +:+ "→" +:+ to))
         | Some _ => sendToChannel t (from, to) m
         end.
Proof.
  intros (Hd & Hl & Hr & Hg & _). unfold Send. rewrite Hd, Hr, Hg. simpl.
  by rewrite (proj2 (Z.ltb_ge _ _) Hl).
Qed.

(** A send on one channel does not touch the state of another. *)
Lemma Send_other t from to m key :
  key ≠ (from, to) →
  let t' := (Send t from to m).1 in
  channels t' !! key = channels t !! key ∧ dropNext t' !! key = dropNext t !! key ∧
  delays t' = delays t ∧ reorderBuf t' !! key = reorderBuf t !! key ∧
  partitionGroups t' = partitionGroups t ∧
  filter (λ km : ChannelKey * Message, km.1 = key) (delayed t') =
    filter (λ km : ChannelKey * Message, km.1 = key) (delayed t).
Proof.
  intros Hne. assert (∀ t0 x, let t' := (sendToChannel t0 (from, to) x).1 in
    channels t' !! key = channels t0 !! key ∧ dropNext t' = dropNext t0 ∧ delays t' = delays t0 ∧
    reorderBuf t' = reorderBuf t0 ∧ partitionGroups t' = partitionGroups t0 ∧ delayed t' = delayed t0) as Hsend.
  { intros t0 x. destruct (sendToChannel_spec t0 (from, to) x) as [[_ ->]|[_ ->]]; [|done].
    split_and!; [|done..]. simpl. by rewrite lookup_insert_ne by congruence. }
  unfold Send. destruct (closed t); [done|]. destruct (channels t !! (from, to)); [|done].
  destruct (negb _ && negb _); [done|]. destruct (default false _).
  { cbn. split_and!; try done. by rewrite lookup_insert_ne by congruence. }
  destruct (mjoin (reorderBuf t !! (from, to))) as [bm|].
  - set (t1 := set_faults t _ _ _ _). pose proof (Hsend t1 m) as H1.
    destruct (sendToChannel t1 (from, to) m) as [t2 [err|]]; cbn [fst] in *.
    + destruct H1 as (E1 & E2 & E3 & E4 & E5 & E6). rewrite E1, E2, E3, E4, E5, E6. split_and!; try done.
      simpl. by rewrite lookup_insert_ne by congruence.
    + destruct H1 as (E1 & E2 & E3 & E4 & E5 & E6).
      destruct (Hsend t2 bm) as (F1 & F2 & F3 & F4 & F5 & F6).
      rewrite F1, F2, F3, F4, F5, F6, E1, E2, E3, E4, E5, E6. split_and!; try done.
      simpl. by rewrite lookup_insert_ne by congruence.
  - destruct (reorderBuf t !! (from, to)).
    + cbn. split_and!; try done. by rewrite lookup_insert_ne by congruence.
    + destruct (0 <? _)%Z.
      * cbn. split_and!; try done. rewrite filter_app, filter_cons_False by (simpl; congruence).
        by rewrite app_nil_r.
      * destruct (Hsend t m) as (F1 & F2 & F3 & F4 & F5 & F6). by rewrite F1, F2, F3, F4, F5, F6.
Qed.

Lemma fifo_step key t c op base :
  healthy key t → quiet key op → ct_got c ++ buffer t key = base ++ ct_accepted c →
  healthy key (t_exec t op) ∧
  ct_got (c_step key t c op) ++ buffer (t_exec t op) key = base ++ ct_accepted (c_step key t c op).
Proof.
  intros Hh Hq He. pose proof Hh as (Hd & Hl & Hr & Hg & Hf).
  destruct op as [from to m|key' quit|i|pid|from to|from to d|from to|from to|groups| |]; simpl in *; try done.
  - case_bool_decide as Hk.
    + subst key. rewrite Send_healthy by done. destruct (closed t); [done|].
      destruct (channels t !! (from, to)); [|done].
      destruct (sendToChannel_spec t (from, to) m) as [[E1 E2]|[[err E1] E2]];
        rewrite E1, E2; [|done]. simpl. split; [done|].
      rewrite buffer_insert, decide_True by done. by rewrite !(assoc_L (++)), He.
    + destruct (Send_other t from to m key) as (E1 & E2 & E3 & E4 & E5 & E6); [congruence|].
      split; [unfold healthy; by rewrite E2, E3, E4, E5, E6|]. unfold buffer. by rewrite E1.
  - unfold forward. destruct (closed t && quit); [by rewrite andb_false_r|]. rewrite andb_true_r.
    destruct (channels t !! key') as [[|m q]|] eqn:E; simpl.
    + split; [done|]. case_bool_decide as Hk; [subst|done]. unfold buffer in *. rewrite E in *. simpl in *.
      by rewrite app_nil_r.
    + split; [done|]. case_bool_decide as Hk; rewrite buffer_insert.
      * subst. rewrite decide_True by done. unfold buffer in *. rewrite E in *. simpl in *.
        by rewrite <- (assoc_L (++)).
      * by rewrite decide_False by congruence.
    + split; [done|]. case_bool_decide as Hk; [subst|done]. unfold buffer in *. rewrite E in *. simpl in *.
      by rewrite app_nil_r.
  - unfold fire_delayed. destruct (delayed t !! i) as [[key' m]|] eqn:E; [|done].
    assert (key' ≠ key) as Hk.
    { intros ->. assert ((key, m) ∈ filter (λ km : ChannelKey * Message, km.1 = key) (delayed t)) as Hin.
      { apply list_elem_of_filter. split; [done|by eapply list_elem_of_lookup_2]. }
      rewrite Hf in Hin. by apply elem_of_nil in Hin. }
    assert (filter (λ km : ChannelKey * Message, km.1 = key) (delete i (delayed t)) = []) as Hf'.
    { pose proof (delete_Permutation (delayed t) i _ E) as Hp.
      apply Permutation_nil. rewrite <- Hf, Hp at 1. by rewrite filter_cons_False. }
    destruct (closed t); simpl; [by split|]. destruct (_ <? _); simpl; [|done].
    split; [by split_and!|]. by rewrite buffer_insert, decide_False by done.
  - unfold RegisterChannel. destruct (channels t !! (from, to)) eqn:E; [done|]. split; [done|].
    rewrite buffer_insert. case_decide; [subst|done]. unfold buffer in He. by rewrite E in He.
  - split; [|done]. split_and!; try done. simpl. by rewrite lookup_insert_ne.
  - split; [|done]. split_and!; try done. simpl. by rewrite lookup_insert_ne.
  - split; [|done]. split_and!; try done. simpl. by rewrite lookup_insert_ne.
Qed.

Lemma fifo_run key t0 ops :
  healthy key t0 → Forall (quiet key) ops →
  healthy key (t_run key t0 ops).1 ∧
  ct_got (t_run key t0 ops).2 ++ buffer (t_run key t0 ops).1 key =
    buffer t0 key ++ ct_accepted (t_run key t0 ops).2.
Proof.
  intros Hh. induction ops as [|op ops IH] using rev_ind; intros Hq.
  { simpl. by rewrite app_nil_r. }
  apply Forall_app in Hq as [Hq Hop]. rewrite Forall_singleton in Hop.
  destruct (IH Hq) as [IHh IHe].
  rewrite t_run_snoc. cbn [fst snd]. apply fifo_step; [exact IHh|exact Hop|exact IHe].
Qed.

(** ** Reordering *)

(** The state of a channel with an active reorder marker and nothing kept
    back. *)
Definition armed (key : ChannelKey) (t : SimTransport) : Prop :=
  closed t = false ∧ is_Some (channels t !! key) ∧ partitionGroups t = [] ∧
  default false (dropNext t !! key) = false ∧ reorderBuf t !! key = Some None.

(** The next message is kept back. *)
Lemma armed_first from to t x :
  armed (from, to) t →
  Send t from to x =
    (set_faults t (delays t) (dropNext t) (<[(from, to) := Some x]> (reorderBuf t)) [], None).
Proof. intros (H1 & [q H2] & H3 & H4 & H5). unfold Send. cbv zeta.
  rewrite H1, H2, H3, H4, H5. done. Qed.

(** The one after it overtakes it, and the marker is active again. *)
Lemma armed_pair from to t x y :
  armed (from, to) t → length (buffer t (from, to)) + 2 ≤ ChannelBufferSize →
  let t' := (Send (Send t from to x).1 from to y).1 in
  armed (from, to) t' ∧ buffer t' (from, to) = buffer t (from, to) ++ [y; x].
Proof.
  intros Ha Hcap t'. subst t'. rewrite (armed_first from to t x Ha). cbn [fst].
  destruct Ha as (H1 & [q H2] & H3 & H4 & H5).
  assert (buffer t (from, to) = q) as Hb by (unfold buffer; by rewrite H2). rewrite Hb in *.
  unfold Send. cbv zeta. cbn [closed channels partitionGroups dropNext reorderBuf set_faults delays].
  rewrite H1, H2, H4, lookup_insert_eq. cbn [length Nat.eqb negb andb mjoin option_join].
  rewrite sendToChannel_room; [|done|unfold buffer; cbn; rewrite H2; simpl; lia].
  rewrite sendToChannel_room; [|done|].
  2: { rewrite buffer_insert, decide_True by done. unfold buffer. cbn. rewrite H2, length_app. simpl. lia. }
  cbn [fst]. rewrite !buffer_insert, !decide_True by done. split.
  - split_and!; cbn; [done|by rewrite lookup_insert_eq|done|done|by rewrite lookup_insert_eq].
  - unfold buffer. cbn. by rewrite H2, <- (assoc_L (++)).
Qed.

Lemma armed_pairs from to pairs t :
  armed (from, to) t → length (buffer t (from, to)) + 2 * length pairs ≤ ChannelBufferSize →
  let t' := foldl (λ t ab, (Send (Send t from to ab.1).1 from to ab.2).1) t pairs in
  armed (from, to) t' ∧
  buffer t' (from, to) = buffer t (from, to) ++ concat ((λ ab, [ab.2; ab.1]) <$> pairs).
Proof.
  revert t. induction pairs as [|[x y] pairs IH]; intros t Ha Hcap; cbn zeta.
  { simpl. by rewrite app_nil_r. }
  cbn [length] in Hcap. cbn [foldl fst snd fmap list_fmap concat].
  destruct (armed_pair from to t x y Ha) as [Ha' Hb]; [lia|].
  destruct (IH _ Ha') as [Ha'' Hb'].
  { rewrite Hb, length_app. simpl. lia. }
  split; [done|]. by rewrite Hb', Hb, <- (assoc_L (++)).
Qed.

(** ** Properties *)


Definition test_message (id : string) : Message :=
  {| HoldBack.ID := id; From := "A"; To := "B"; Data := ANil; SentVC := ∅; SentMatrix := ∅;
     SentLC := 0; SentAt := 0; IsMarker := false; SnapshotID := "" |}.


(** reordering does not stop after the next two messages: once injected on
    an open channel, it swaps every further pair of messages until it is
    cleared, and after an odd number of sends the last message is kept back,
    outside the channel, with no error. *)
Theorem InjectReorder_never_ends (t : SimTransport) (from to : string)
    (pairs : list (Message * Message)) (m : Message) :
  closed t = false → is_Some (channels t !! (from, to)) → healthy (from, to) t →
  length (buffer t (from, to)) + 2 * length pairs <= ChannelBufferSize →
  let send t m := (Send t from to m).1 in
  let t' := foldl (λ t ab, send (send t ab.1) ab.2) (InjectReorder t from to) pairs in
  buffer t' (from, to) = buffer t (from, to) ++ concat ((λ ab, [ab.2; ab.1]) <$> pairs) ∧
  (Send t' from to m).2 = None ∧
  buffer (send t' m) (from, to) = buffer t' (from, to) ∧
  reorderBuf (send t' m) !! (from, to) = Some (Some m).
Proof.
  intros Hcl Hch (Hd & _ & _ & Hg & _) Hcap send t'.
  set (key := (from, to)) in *. pose proof Hch as [q0 Hq0].
  assert (armed key (InjectReorder t from to)) as Harm.
  { split_and!; [done|by eexists|done|done|]. simpl. by rewrite lookup_insert_eq. }
  destruct (armed_pairs from to pairs (InjectReorder t from to) Harm) as [Harm' Hbuf]; [done|].
  fold key in Harm', Hbuf. change (foldl _ _ pairs) with t' in Harm', Hbuf.
  split; [done|]. unfold send. rewrite (armed_first from to t' m Harm'). simpl.
  split; [done|]. split; [done|]. by rewrite lookup_insert_eq.
Qed.

Lemma InjectReorder_never_ends_witness :
  let t := RegisterChannel NewSimTransport "A" "B" in
  let msg := test_message in
  let t' := foldl (λ t ab, (Send (Send t "A" "B" ab.1).1 "A" "B" ab.2).1) (InjectReorder t "A" "B")
              [(msg "1", msg "2"); (msg "3", msg "4")] in
  buffer t' ("A", "B") = [msg "2"; msg "1"; msg "4"; msg "3"] ∧
  reorderBuf (Send t' "A" "B" (msg "5")).1 !! ("A", "B") = Some (Some (msg "5")).
Proof.
  intros t msg t'. split; [vm_compute; reflexivity|].
  apply (InjectReorder_never_ends t "A" "B" [(msg "1", msg "2"); (msg "3", msg "4")] (msg "5"));
    [reflexivity|by eexists|by split_and!|].
  apply Nat.leb_le. vm_compute. reflexivity.
Defined.
