(* ===== verification/Snapshot.v ===== *)
(** * Chandy-Lamport snapshots (src/internal/snapshot/chandy_lamport.go,
    src/internal/snapshot/verifier.go)

    The coordinator keeps, for every process and every snapshot, the captured
    local state and the messages recorded on each incoming channel, and
    assembles a global snapshot when every process has received a marker on
    every channel.  Calls out of the coordinator (markers, completion) are
    collected as outputs. *)
From stdpp Require Import gmap strings list pretty.
From S2P Require Import Prelude Matrix Events VClock HoldBack Process.

(** ** Data *)

(** [type SnapshotRole int]. *)
Inductive SnapshotRole := NotParticipating | Initiator | Participant | Done.

#[export] Instance SnapshotRole_eq_dec : EqDecision SnapshotRole.
Proof. solve_decision. Defined.

(** A captured state is an [interface{}]: nil, a process state, a generic map
    with the clock under ["vectorClock"] (if that is one), or anything else. *)
Inductive local_state :=
  | LNil
  | LProcess (ps : ProcessState)
  | LMap (vectorClock : option (gmap string N))
  | LOther.

Record SMessage := {
  sID : string;
  sFrom : string;
  sTo : string;
  sData : any;
  sIsMarker : bool;
  sSnapshotID : string;
  sSenderVC : option (gmap string N)
}.

Record ChannelState := { csFrom : string; csMessages : list SMessage; csFinalized : bool }.

Record LocalSnapshot := {
  lsProcessID : string;
  lsLocalState : local_state;
  lsRecordedChans : gmap string ChannelState;
  lsFinalized : bool;
  lsSnapshotID : string;
  lsSnapshotTime : Z
}.

Record GlobalSnapshot := {
  gsSnapshotID : string;
  gsInitiatorID : string;
  gsStartTime : Z;
  gsLocalStates : gmap string LocalSnapshot;
  gsComplete : bool
}.

Record procSnapState := {
  role : SnapshotRole;
  localState : local_state;
  recordedChans : gmap string ChannelState
}.

Record processSnapshot := { peers : list string; perSnap : gmap string procSnapState }.

(** The calls the coordinator makes. *)
Inductive output :=
  | SendMarker (from to snapshotID : string)
  | Complete (snapshotID : string).

#[export] Instance output_eq_dec : EqDecision output.
Proof. solve_decision. Defined.

Record SnapshotCoordinator := {
  snapshots : gmap string GlobalSnapshot;
  procStates : gmap string processSnapshot;
  outputs : list output
}.

Definition NewCoordinator : SnapshotCoordinator :=
  {| snapshots := ∅; procStates := ∅; outputs := [] |}.

Definition set_snapshots (c : SnapshotCoordinator) s := {| snapshots := s;
  procStates := procStates c; outputs := outputs c |}.
Definition set_procs (c : SnapshotCoordinator) p := {| snapshots := snapshots c;
  procStates := p; outputs := outputs c |}.
Definition emit (c : SnapshotCoordinator) (os : list output) := {| snapshots := snapshots c;
  procStates := procStates c; outputs := outputs c ++ os |}.

(** ** Global snapshots *)

Definition IsDone (gs : GlobalSnapshot) : bool := gsComplete gs.

Fixpoint IsComplete (gs : GlobalSnapshot) (expectedProcesses : list string) : bool :=
  match expectedProcesses with
  | [] => true
  | pid :: expected =>
      match gsLocalStates gs !! pid with
      | Some ls => if lsFinalized ls then IsComplete gs expected else false
      | None => false
      end
  end.

Definition set_local_states (gs : GlobalSnapshot) ls := {| gsSnapshotID := gsSnapshotID gs;
  gsInitiatorID := gsInitiatorID gs; gsStartTime := gsStartTime gs; gsLocalStates := ls;
  gsComplete := gsComplete gs |}.
Definition set_complete (gs : GlobalSnapshot) := {| gsSnapshotID := gsSnapshotID gs;
  gsInitiatorID := gsInitiatorID gs; gsStartTime := gsStartTime gs;
  gsLocalStates := gsLocalStates gs; gsComplete := true |}.

(** ** Membership *)

Definition add_peer (pid : string) (ps : processSnapshot) : processSnapshot :=
  if existsb (String.eqb pid) (peers ps) then ps
  else {| peers := peers ps ++ [pid]; perSnap := perSnap ps |}.

(** The other processes are updated one by one; each only changes itself. *)
Definition RegisterProcess (c : SnapshotCoordinator) (pid : string) (ps : list string) :
    SnapshotCoordinator :=
  let procs := <[pid := {| peers := ps; perSnap := ∅ |}]> (procStates c) in
  set_procs c (map_imap (λ q st, Some (if bool_decide (q = pid) then st else add_peer pid st)) procs).

Definition DeregisterProcess (c : SnapshotCoordinator) (pid : string) : SnapshotCoordinator :=
  set_procs c ((λ ps, {| peers := filter (λ p, p ≠ pid) (peers ps); perSnap := perSnap ps |}) <$>
    delete pid (procStates c)).

(** ** The algorithm *)

Definition open_channel (from : string) : ChannelState :=
  {| csFrom := from; csMessages := []; csFinalized := false |}.
Definition empty_channel (from : string) : ChannelState :=
  {| csFrom := from; csMessages := []; csFinalized := true |}.

(** [cs.Finalized = true], or a new finalized channel. *)
Definition finalize (from : string) (chans : gmap string ChannelState) : gmap string ChannelState :=
  match chans !! from with
  | Some cs => <[from := {| csFrom := csFrom cs; csMessages := csMessages cs; csFinalized := true |}]> chans
  | None => <[from := empty_channel from]> chans
  end.

(** [allDone]: every peer's channel is finalized. *)
Definition all_done (ps : list string) (chans : gmap string ChannelState) : bool :=
  forallb (λ peer, match chans !! peer with Some cs => csFinalized cs | None => false end) ps.

(** [fmt.Sprintf("snap-%d", nanos)]. *)
Definition snapshot_id (nanos : Z) : string := "snap-" +:+ pretty nanos.

(** Writing the state of a process for a snapshot. *)
Definition set_state (c : SnapshotCoordinator) (pid snapID : string) (ps : processSnapshot)
    (st : procSnapState) : SnapshotCoordinator :=
  set_procs c (<[pid := {| peers := peers ps; perSnap := <[snapID := st]> (perSnap ps) |}]>
    (procStates c)).

Section ops.
Context `{MapRange}.

Definition copyChannelStates (m : gmap string ChannelState) : gmap string ChannelState :=
  for_range m (λ k v result,
    <[k := {| csFrom := csFrom v; csMessages := csMessages v; csFinalized := csFinalized v |}]> result) ∅.

(** [checkFinalized]. *)
Definition checkFinalized (c : SnapshotCoordinator) (snapID pid : string) (now : Z) :
    SnapshotCoordinator :=
  match procStates c !! pid with
  | None => c
  | Some ps =>
      match perSnap ps !! snapID with
      | None => c
      | Some st =>
          if bool_decide (role st ≠ Done) && negb (all_done (peers ps) (recordedChans st)) then c
          else
            let st := {| role := Done; localState := localState st;
                         recordedChans := recordedChans st |} in
            let c := set_state c pid snapID ps st in
            let ls := {| lsProcessID := pid; lsLocalState := localState st;
                         lsRecordedChans := copyChannelStates (recordedChans st);
                         lsFinalized := true; lsSnapshotID := snapID; lsSnapshotTime := now |} in
            match snapshots c !! snapID with
            | None => c
            | Some gs =>
                let gs := set_local_states gs (<[pid := ls]> (gsLocalStates gs)) in
                let allPIDs := for_range (procStates c) (λ p _ acc, acc ++ [p]) [] in
                if IsComplete gs allPIDs
                then emit (set_snapshots c (<[snapID := set_complete gs]> (snapshots c))) [Complete snapID]
                else set_snapshots c (<[snapID := gs]> (snapshots c))
            end
      end
  end.

(** [InitiateSnapshot] at time [now]: the snapshot id, or [None] for the
    error; [capture] is the callback that reads a process's state. *)
Definition InitiateSnapshot (c : SnapshotCoordinator) (initiatorID : string) (now : Z)
    (capture : string → local_state) : SnapshotCoordinator * option string :=
  let snapID := snapshot_id now in
  let gs := {| gsSnapshotID := snapID; gsInitiatorID := initiatorID; gsStartTime := now;
               gsLocalStates := ∅; gsComplete := false |} in
  let c := set_snapshots c (<[snapID := gs]> (snapshots c)) in
  match procStates c !! initiatorID with
  | None => (c, None)
  | Some ps =>
      let st := {| role := Initiator; localState := capture initiatorID;
                   recordedChans := foldl (λ chans peer, <[peer := open_channel peer]> chans) ∅ (peers ps) |} in
      let c := set_state c initiatorID snapID ps st in
      (emit c ((λ peer, SendMarker initiatorID peer snapID) <$> peers ps), Some snapID)
  end.

(** [OnMarkerReceived]. *)
Definition OnMarkerReceived (c : SnapshotCoordinator) (pid from snapID : string)
    (capturedState : local_state) (now : Z) : SnapshotCoordinator :=
  match procStates c !! pid with
  | None => c
  | Some ps =>
      let st := default {| role := NotParticipating; localState := LNil; recordedChans := ∅ |}
                        (perSnap ps !! snapID) in
      match role st with
      | NotParticipating =>
          let chans := <[from := empty_channel from]> (recordedChans st) in
          let chans := foldl (λ chans peer,
            if bool_decide (peer ≠ from) then
              match chans !! peer with
              | None => <[peer := open_channel peer]> chans | Some _ => chans end
            else chans) chans (peers ps) in
          let st := {| role := Participant; localState := capturedState; recordedChans := chans |} in
          let c := set_state c pid snapID ps st in
          let c := emit c ((λ peer, SendMarker pid peer snapID) <$> peers ps) in
          checkFinalized c snapID pid now
      | Participant | Initiator =>
          let chans := finalize from (recordedChans st) in
          let st := {| role := if all_done (peers ps) chans then Done else role st;
                       localState := localState st; recordedChans := chans |} in
          checkFinalized (set_state c pid snapID ps st) snapID pid now
      | Done => set_state c pid snapID ps st
      end
  end.

(** [RecordMessage]. *)
Definition RecordMessage (c : SnapshotCoordinator) (snapID pid from : string) (m : SMessage) :
    SnapshotCoordinator :=
  match procStates c !! pid with
  | None => c
  | Some ps =>
      match perSnap ps !! snapID with
      | None => c
      | Some st =>
          match recordedChans st !! from with
          | None => c
          | Some cs =>
              if csFinalized cs then c
              else
                let cs := {| csFrom := csFrom cs; csMessages := csMessages cs ++ [m];
                             csFinalized := csFinalized cs |} in
                set_state c pid snapID ps {| role := role st; localState := localState st;
                  recordedChans := <[from := cs]> (recordedChans st) |}
          end
      end
  end.

Definition GetSnapshot (c : SnapshotCoordinator) (snapID : string) : option GlobalSnapshot :=
  snapshots c !! snapID.

Definition GetActiveSnapshotIDs (c : SnapshotCoordinator) (pid : string) : list string :=
  match procStates c !! pid with
  | None => []
  | Some ps => for_range (perSnap ps) (λ sid st ids,
      if bool_decide (role st ≠ NotParticipating) && bool_decide (role st ≠ Done)
      then ids ++ [sid] else ids) []
  end.

(** ** The views for serialization *)

Record ChannelDTO := { cdFrom : string; cdMessages : list SMessage; cdFinalized : bool }.

Record LocalSnapshotDTO := {
  ldProcessID : string;
  ldLocalState : local_state;
  ldRecordedChans : gmap string ChannelDTO;
  ldFinalized : bool;
  ldSnapshotID : string;
  ldSnapshotTime : Z
}.

Record SnapshotDTO := {
  sdSnapshotID : string;
  sdInitiatorID : string;
  sdStartTime : Z;
  sdComplete : bool;
  sdLocalStates : gmap string LocalSnapshotDTO
}.

Definition local_toDTO (ls : LocalSnapshot) : LocalSnapshotDTO :=
  {| ldProcessID := lsProcessID ls; ldLocalState := lsLocalState ls;
     ldRecordedChans := for_range (lsRecordedChans ls) (λ k v chans,
       <[k := {| cdFrom := csFrom v; cdMessages := csMessages v; cdFinalized := csFinalized v |}]> chans) ∅;
     ldFinalized := lsFinalized ls; ldSnapshotID := lsSnapshotID ls;
     ldSnapshotTime := lsSnapshotTime ls |}.

Definition ToDTO (gs : GlobalSnapshot) : SnapshotDTO :=
  {| sdSnapshotID := gsSnapshotID gs; sdInitiatorID := gsInitiatorID gs;
     sdStartTime := gsStartTime gs; sdComplete := gsComplete gs;
     sdLocalStates := for_range (gsLocalStates gs) (λ pid ls dto, <[pid := local_toDTO ls]> dto) ∅ |}.

(** ** The verifier *)

Record VerificationResult := { Consistent : bool; Evidence : list string }.

Definition vectorClockFromState (st : local_state) : option (gmap string N) :=
  match st with
  | LProcess ps => GetVectorClock ps
  | LMap vc => vc
  | LNil | LOther => None
  end.

Definition joinStrings (ss : list string) (sep : string) : string :=
  (foldl (λ (acc : string * nat) s, let '(out, i) := acc in
    ((if 0 <? i then out +:+ sep else out) +:+ s, S i)) ("", 0) ss).1.

(** [itoa]: the digits are written backwards into a buffer of 20 bytes. *)
Fixpoint itoa_loop (fuel : nat) (v : N) (buf : string) : string :=
  match fuel with
  | 0 => buf
  | S fuel =>
      if (0 <? v)%N
      then itoa_loop fuel (v / 10) (String (Ascii.ascii_of_N (48 + v mod 10)) buf)
      else buf
  end.

Definition itoa (v : N) : string := if (v =? 0)%N then "0" else itoa_loop 20 v "".

(** One recorded message. *)
Definition verify_message (gs : GlobalSnapshot) (pid fromPID : string)
    (result : VerificationResult) (msg : SMessage) : VerificationResult :=
  let fail ev := {| Consistent := false; Evidence := Evidence result ++ [ev] |} in
  let pass := {| Consistent := Consistent result; Evidence := Evidence result ++
    ["✓ msg " +:+ sID msg +:+ " in channel " +:+ fromPID +:+ "→" +:+ pid +:+ ": pre-cut at " +:+
     fromPID +:+ ", post-cut at " +:+ pid] |} in
  let missing := fail ("sender " +:+ fromPID +:+ " has no local snapshot (msg " +:+ sID msg +:+
                       " in channel)") in
  match gsLocalStates gs !! fromPID with
  | None => missing
  | Some senderLS =>
      match lsLocalState senderLS with
      | LNil => missing
      | st =>
          match sSenderVC msg, vectorClockFromState st with
          | Some senderVC, Some senderState =>
              let got := senderState.[fromPID] in
              if (got <? senderVC.[fromPID])%N
              then fail ("msg " +:+ sID msg +:+ " in channel " +:+ fromPID +:+ "→" +:+ pid +:+
                         ": sender counter " +:+ itoa got +:+ " < message sender-counter " +:+
                         itoa senderVC.[fromPID])
              else pass
          | _, _ => pass
          end
      end
  end.

Definition Verify (gs : GlobalSnapshot) : VerificationResult :=
  let incomplete := for_range (gsLocalStates gs) (λ pid ls acc,
    if negb (lsFinalized ls) then acc ++ [pid] else acc) [] in
  if 0 <? length incomplete then
    {| Consistent := true;
       Evidence := ["snapshot not yet complete; awaiting: " +:+ joinStrings incomplete ","] |}
  else
    for_range (gsLocalStates gs) (λ pid ls result,
      for_range (lsRecordedChans ls) (λ fromPID cs result,
        foldl (verify_message gs pid fromPID) result (csMessages cs)) result)
      {| Consistent := true; Evidence := [] |}.
End ops.

(** ** Runs of the coordinator

    The membership is fixed during a run; the calls are interleaved freely, and
    several snapshots may be in progress.  Each call is one step. *)
Inductive call :=
  | CallInitiate (initiatorID : string) (now : Z) (capture : string → local_state)
  | CallMarker (pid from snapID : string) (captured : local_state) (now : Z)
  | CallRecord (snapID pid from : string) (m : SMessage).

Section runs.
Context `{MapRange}.

Definition call_step (c : SnapshotCoordinator) (op : call) : SnapshotCoordinator :=
  match op with
  | CallInitiate i now capture => (InitiateSnapshot c i now capture).1
  | CallMarker pid from snapID st now => OnMarkerReceived c pid from snapID st now
  | CallRecord snapID pid from m => RecordMessage c snapID pid from m
  end.

Definition snap_run (c : SnapshotCoordinator) (ops : list call) : SnapshotCoordinator :=
  foldl call_step c ops.
End runs.

(** What happens at one process in one snapshot. *)
Inductive arrival :=
  | Marker (from : string) (captured : local_state)
  | Arrive (from : string) (m : SMessage).

Definition arrival_of (snapID pid : string) (op : call) : option arrival :=
  match op with
  | CallInitiate _ _ _ => None
  | CallMarker q from s st _ =>
      if decide (snapID = s ∧ pid = q) then Some (Marker from st) else None
  | CallRecord s q from m =>
      if decide (snapID = s ∧ pid = q) then Some (Arrive from m) else None
  end.

Definition arrivals (snapID pid : string) (ops : list call) : list arrival :=
  omap (arrival_of snapID pid) ops.

(** The specification: what a process has to record, in terms of what arrives
    there.  [started] is the state captured by the initiator when it starts;
    any other process captures at its first marker. *)
Fixpoint marked (from : string) (tr : list arrival) : bool :=
  match tr with
  | [] => false
  | Marker f _ :: tr => bool_decide (f = from) || marked from tr
  | Arrive _ _ :: tr => marked from tr
  end.

Fixpoint from_first_marker (tr : list arrival) : list arrival :=
  match tr with
  | [] => []
  | Marker f st :: tr => Marker f st :: tr
  | Arrive _ _ :: tr => from_first_marker tr
  end.

Fixpoint first_capture (tr : list arrival) : option local_state :=
  match tr with
  | [] => None
  | Marker _ st :: _ => Some st
  | Arrive _ _ :: tr => first_capture tr
  end.

(** The messages from [from] before the marker from [from]. *)
Fixpoint before_marker (from : string) (tr : list arrival) : list SMessage :=
  match tr with
  | [] => []
  | Marker f _ :: tr => if decide (f = from) then [] else before_marker from tr
  | Arrive f m :: tr => if decide (f = from) then m :: before_marker from tr else before_marker from tr
  end.

Definition capture_of (started : option local_state) (tr : list arrival) : option local_state :=
  match started with Some st => Some st | None => first_capture tr end.
Definition recording (started : option local_state) (tr : list arrival) : list arrival :=
  match started with Some _ => tr | None => from_first_marker tr end.

(** The channel state [from → pid] of the cut: what arrived after the process
    captured its state and before the channel's marker. *)
Definition in_transit (started : option local_state) (tr : list arrival) (from : string) :
    list SMessage := before_marker from (recording started tr).

Definition all_marked (ps : list string) (tr : list arrival) : bool :=
  forallb (λ p, marked p tr) ps.

(** *** Laws of the specification *)
Section spec_laws.
Implicit Types tr : list arrival.

Lemma marked_snoc p tr e :
  marked p (tr ++ [e]) =
  marked p tr || match e with Marker f _ => bool_decide (f = p) | Arrive _ _ => false end.
Proof.
  induction tr as [|[f st|f m] tr IH]; simpl; [destruct e; by rewrite ?orb_false_r|..]; rewrite IH; auto.
  by rewrite orb_assoc.
Qed.

Lemma before_marker_snoc p tr e :
  before_marker p (tr ++ [e]) =
  if marked p tr then before_marker p tr
  else before_marker p tr ++
    match e with Arrive f m => if decide (f = p) then [m] else [] | Marker _ _ => [] end.
Proof.
  induction tr as [|[f st|f m] tr IH]; simpl.
  - destruct e; by repeat case_decide.
  - case_bool_decide; case_decide; simplify_eq; done.
  - case_decide; rewrite IH; by destruct (marked p tr).
Qed.

Lemma first_capture_snoc tr e :
  first_capture (tr ++ [e]) =
  match first_capture tr with
  | Some st => Some st
  | None => match e with Marker _ st => Some st | Arrive _ _ => None end
  end.
Proof. induction tr as [|[f st|f m] tr IH]; simpl; by destruct e. Qed.

Lemma from_first_marker_snoc tr e :
  from_first_marker (tr ++ [e]) =
  match first_capture tr with
  | Some _ => from_first_marker tr ++ [e]
  | None => match e with Marker _ _ => [e] | Arrive _ _ => [] end
  end.
Proof. induction tr as [|[f st|f m] tr IH]; simpl; by destruct e. Qed.

Lemma marked_recording p started tr : marked p (recording started tr) = marked p tr.
Proof.
  destruct started; [done|]. induction tr as [|[f st|f m] tr IH]; simpl; auto.
Qed.

Lemma unmarked_no_capture tr : first_capture tr = None → ∀ p, marked p tr = false.
Proof. induction tr as [|[f st|f m] tr IH]; simpl; naive_solver. Qed.

Lemma marked_captured tr p : marked p tr = true → ∃ st, first_capture tr = Some st.
Proof. induction tr as [|[f st|f m] tr IH]; simpl; naive_solver. Qed.

Lemma all_marked_captured started ps tr :
  ps ≠ [] → all_marked ps tr = true → ∃ st, capture_of started tr = Some st.
Proof.
  destruct started; simpl; [eauto|]. destruct ps as [|p ps]; [done|]. simpl.
  intros _ [Hp _]%andb_prop. by eapply marked_captured.
Qed.

(** A new arrival does not change the state once captured; it extends the
    open channels only. *)
Lemma capture_of_snoc started tr e st :
  capture_of started tr = Some st → capture_of started (tr ++ [e]) = Some st.
Proof. destruct started; simpl; [done|]. rewrite first_capture_snoc. by intros ->. Qed.

Lemma in_transit_snoc started tr e st p :
  capture_of started tr = Some st →
  in_transit started (tr ++ [e]) p =
  if marked p tr then in_transit started tr p
  else in_transit started tr p ++
    match e with Arrive f m => if decide (f = p) then [m] else [] | Marker _ _ => [] end.
Proof.
  unfold in_transit. intros Hc. rewrite <- (marked_recording p started tr).
  rewrite <- before_marker_snoc. f_equal. destruct started; simpl in *; [done|].
  by rewrite from_first_marker_snoc, Hc.
Qed.

Lemma all_marked_snoc ps tr e : all_marked ps tr = true → all_marked ps (tr ++ [e]) = true.
Proof.
  unfold all_marked. rewrite !forallb_forall. intros Hall p Hp. by rewrite marked_snoc, Hall.
Qed.
End spec_laws.

(** *** One process *)
Definition fresh_state : procSnapState :=
  {| role := NotParticipating; localState := LNil; recordedChans := ∅ |}.

Definition first_chans (ps : list string) (from : string) (chans : gmap string ChannelState) :
    gmap string ChannelState :=
  foldl (λ chans peer,
    if bool_decide (peer ≠ from) then
      match chans !! peer with
      | None => <[peer := open_channel peer]> chans | Some _ => chans end
    else chans) (<[from := empty_channel from]> chans) ps.

Definition done_or (ps : list string) (chans : gmap string ChannelState) (r : SnapshotRole) :
    SnapshotRole := if all_done ps chans then Done else r.

(** The state of a process after a marker. *)
Definition marker_local (ps : list string) (from : string) (captured : local_state)
    (st : procSnapState) : procSnapState :=
  match role st with
  | NotParticipating =>
      let chans := first_chans ps from (recordedChans st) in
      {| role := done_or ps chans Participant; localState := captured; recordedChans := chans |}
  | Done => st
  | r =>
      let chans := finalize from (recordedChans st) in
      {| role := done_or ps chans r; localState := localState st; recordedChans := chans |}
  end.

(** The state of a process after a message. *)
Definition record_local (from : string) (m : SMessage) (st : procSnapState) : procSnapState :=
  match recordedChans st !! from with
  | None => st
  | Some cs =>
      if csFinalized cs then st
      else {| role := role st; localState := localState st;
              recordedChans := <[from := {| csFrom := csFrom cs; csMessages := csMessages cs ++ [m];
                csFinalized := csFinalized cs |}]> (recordedChans st) |}
  end.

Definition chans_ok (ps : list string) (started : option local_state) (tr : list arrival)
    (chans : gmap string ChannelState) : Prop :=
  ∀ p, p ∈ ps → chans !! p =
    Some {| csFrom := p; csMessages := in_transit started tr p; csFinalized := marked p tr |}.

(** Nothing is recorded on a channel that is not a peer's. *)
Definition no_strays (ps : list string) (chans : gmap string ChannelState) : Prop :=
  ∀ p cs, p ∉ ps → chans !! p = Some cs → csMessages cs = [] ∧ csFinalized cs = true.

Definition local_inv (ps : list string) (started : option local_state) (tr : list arrival)
    (o : option procSnapState) : Prop :=
  match capture_of started tr with
  | None => o = None
  | Some s => ∃ st, o = Some st ∧ localState st = s ∧
      role st = (if all_marked ps tr then Done
                 else match started with Some _ => Initiator | None => Participant end) ∧
      chans_ok ps started tr (recordedChans st) ∧ no_strays ps (recordedChans st)
  end.

Section one_process.
Implicit Types (tr : list arrival) (ps : list string).

Lemma all_done_ok ps started tr chans :
  chans_ok ps started tr chans → all_done ps chans = all_marked ps tr.
Proof.
  unfold chans_ok. intros Hc. unfold all_done, all_marked. induction ps as [|p ps IH]; [done|]. simpl.
  rewrite (Hc p) by left. simpl. f_equal. apply IH. intros q Hq. apply Hc. by right.
Qed.

Lemma first_chans_lookup ps from p :
  p ∈ ps → first_chans ps from ∅ !! p =
  Some (if decide (p = from) then empty_channel from else open_channel p).
Proof.
  unfold first_chans. set (chans := <[from := empty_channel from]> ∅).
  assert (∀ acc : gmap string ChannelState, foldl (λ chans peer, if bool_decide (peer ≠ from) then
      match chans !! peer with None => <[peer := open_channel peer]> chans | Some _ => chans end
      else chans) acc ps !! p =
    match acc !! p with
    | Some x => Some x
    | None => if decide (p ∈ ps ∧ p ≠ from) then Some (open_channel p) else None
    end) as Hfold.
  { induction ps as [|q ps IH]; intros acc; cbn [foldl].
    - destruct (acc !! p); [done|]. case_decide; set_solver.
    - rewrite IH. destruct (decide (p = q)) as [->|Hpq].
      + case_bool_decide as Hq.
        * destruct (acc !! q) eqn:Eq; [by rewrite Eq|]. rewrite lookup_insert_eq.
          rewrite decide_True; [done|]. split; [left|done].
        * destruct (acc !! q); [done|]. rewrite !decide_False; tauto.
      + replace (_ !! p) with (acc !! p).
        2:{ case_bool_decide; [|done]. destruct (acc !! q); [done|]. by rewrite lookup_insert_ne. }
        destruct (acc !! p); [done|]. repeat case_decide; set_solver. }
  intros Hp. rewrite Hfold. subst chans. destruct (decide (p = from)) as [->|Hd].
  - by rewrite lookup_insert_eq.
  - rewrite lookup_insert_ne, lookup_empty by done. by rewrite decide_True.
Qed.

Lemma finalize_ok ps started tr from captured st chans :
  capture_of started tr = Some st → chans_ok ps started tr chans →
  chans_ok ps started (tr ++ [Marker from captured]) (finalize from chans).
Proof.
  intros Hst Hc p Hp. rewrite (in_transit_snoc _ _ _ _ _ Hst), marked_snoc, app_nil_r.
  assert (Hp' := Hc p Hp). unfold finalize.
  destruct (decide (p = from)) as [->|Hne].
  - rewrite Hp', lookup_insert_eq. simpl. rewrite bool_decide_true by done. rewrite orb_true_r.
    by destruct (marked from tr).
  - rewrite bool_decide_false by done. rewrite orb_false_r.
    destruct (chans !! from); rewrite lookup_insert_ne, Hp' by done; by destruct (marked p tr).
Qed.

Lemma chans_ok_frozen ps started tr e st chans :
  capture_of started tr = Some st → all_marked ps tr = true →
  chans_ok ps started tr chans → chans_ok ps started (tr ++ [e]) chans.
Proof.
  intros Hst Hall Hc p Hp. rewrite (Hc p Hp), (in_transit_snoc _ _ _ _ _ Hst), marked_snoc.
  unfold all_marked in Hall. rewrite forallb_forall in Hall.
  by rewrite (Hall p) by by apply list_elem_of_In.
Qed.

Lemma done_or_ok ps started tr chans r :
  chans_ok ps started tr chans → done_or ps chans r = if all_marked ps tr then Done else r.
Proof. intros Hc. unfold done_or. by rewrite (all_done_ok _ _ _ _ Hc). Qed.

Lemma no_strays_first ps from : no_strays ps (first_chans ps from ∅).
Proof.
  unfold first_chans. apply (foldl_inv (no_strays ps) (λ q, q ∈ ps)).
  - intros chans q Hq Hc. case_bool_decide; [|done]. destruct (chans !! q); [done|].
    intros p cs Hp. rewrite lookup_insert_ne by (intros ->; done). by apply Hc.
  - by apply Forall_forall.
  - intros p cs _. destruct (decide (p = from)) as [->|].
    + rewrite lookup_insert_eq. by intros [= <-].
    + by rewrite lookup_insert_ne.
Qed.

Lemma no_strays_finalize ps from chans : no_strays ps chans → no_strays ps (finalize from chans).
Proof.
  intros Hc p cs Hp. unfold finalize. destruct (chans !! from) as [cs'|] eqn:E;
    (destruct (decide (p = from)) as [->|Hne];
      [rewrite lookup_insert_eq; intros [= <-]|rewrite lookup_insert_ne by done; by apply Hc]); [|done].
  simpl. split; [|done]. by apply (Hc from cs').
Qed.

(** The code's step on a marker is the step of the specification. *)
Lemma local_inv_marker ps started tr o from captured :
  local_inv ps started tr o →
  local_inv ps started (tr ++ [Marker from captured])
    (Some (marker_local ps from captured (default fresh_state o))).
Proof.
  unfold local_inv. destruct (capture_of started tr) as [s|] eqn:Es.
  - intros (st & -> & <- & Hr & Hc & Hs). rewrite (capture_of_snoc _ _ _ _ Es). simpl.
    eexists. split; [done|]. unfold marker_local.
    destruct (all_marked ps tr) eqn:Eall.
    { rewrite Hr. rewrite (all_marked_snoc _ _ _ Eall). split_and!; try done.
      by eapply chans_ok_frozen. }
    pose proof (finalize_ok ps started tr from captured _ _ Es Hc) as Hf.
    pose proof (no_strays_finalize ps from _ Hs).
    rewrite Hr. destruct started; simpl; split_and!; try done; by erewrite done_or_ok.
  - intros ->. destruct started as [|]; [done|]. simpl in *. rewrite first_capture_snoc, Es.
    assert (chans_ok ps None (tr ++ [Marker from captured]) (first_chans ps from ∅)) as Hc.
    { intros p Hp. rewrite first_chans_lookup by done. unfold in_transit, recording.
      rewrite from_first_marker_snoc, Es, marked_snoc, (unmarked_no_capture _ Es). simpl.
      destruct (decide (p = from)) as [->|Hne].
      - by rewrite decide_True, bool_decide_true by done.
      - by rewrite decide_False, bool_decide_false by done. }
    eexists. split_and!; [done|done| |done|apply no_strays_first]. simpl. by erewrite done_or_ok.
Qed.

Lemma all_marked_arrive ps tr from m : all_marked ps (tr ++ [Arrive from m]) = all_marked ps tr.
Proof.
  unfold all_marked. induction ps as [|p ps IH]; [done|]. simpl. by rewrite IH, marked_snoc, orb_false_r.
Qed.

Lemma record_local_same from m st :
  localState (record_local from m st) = localState st ∧ role (record_local from m st) = role st.
Proof. unfold record_local. by destruct (recordedChans st !! from) as [[? ? []]|]. Qed.

Lemma record_local_chans from m st p cs :
  recordedChans st !! p = Some cs →
  recordedChans (record_local from m st) !! p =
  Some (if decide (from = p) then
          if csFinalized cs then cs
          else {| csFrom := csFrom cs; csMessages := csMessages cs ++ [m]; csFinalized := csFinalized cs |}
        else cs).
Proof.
  intros Hp. unfold record_local. case_decide as Hd; [subst; rewrite Hp|].
  - destruct (csFinalized cs) eqn:E; simpl; [done|]. by rewrite lookup_insert_eq.
  - destruct (recordedChans st !! from) as [[? ? []]|]; simpl; try done. by rewrite lookup_insert_ne.
Qed.

Lemma no_strays_record ps from m st :
  no_strays ps (recordedChans st) → no_strays ps (recordedChans (record_local from m st)).
Proof.
  intros Hs p cs Hp Hcs. destruct (recordedChans st !! p) as [cs'|] eqn:E.
  - rewrite (record_local_chans _ _ _ _ _ E) in Hcs. destruct (Hs p cs' Hp E) as [E1 E2].
    rewrite E2 in Hcs. injection Hcs as <-. by case_decide.
  - unfold record_local in Hcs. destruct (recordedChans st !! from) as [[? ? []]|] eqn:Ef; simpl in Hcs;
      try congruence. rewrite lookup_insert_ne in Hcs; congruence.
Qed.

Lemma local_inv_record ps started tr o from m :
  local_inv ps started tr o →
  local_inv ps started (tr ++ [Arrive from m]) (record_local from m <$> o).
Proof.
  unfold local_inv. destruct (capture_of started tr) as [s|] eqn:Es.
  - intros (st & -> & <- & Hr & Hc & Hs). rewrite (capture_of_snoc _ _ _ _ Es), all_marked_arrive. simpl.
    destruct (record_local_same from m st) as [El Er].
    eexists. rewrite El, Er. split_and!; [done|done|done| |by apply no_strays_record]. intros p Hp.
    rewrite (in_transit_snoc _ _ _ _ _ Es), marked_snoc, orb_false_r.
    rewrite (record_local_chans _ _ _ _ _ (Hc p Hp)). simpl.
    case_decide; [|rewrite app_nil_r]; by destruct (marked p tr).
  - intros ->. destruct started; [done|]. simpl in *. by rewrite first_capture_snoc, Es.
Qed.
End one_process.

(** *** The coordinator *)
Section coordinator.
Context `{MapRange}.

Lemma copyChannelStates_id m : copyChannelStates m = m.
Proof.
  apply map_eq. intros k. unfold copyChannelStates.
  rewrite (for_range_lookup _ (λ _ v _, Some v)) by (intros k' [] a; done).
  rewrite lookup_empty. by destruct (m !! k).
Qed.

Lemma IsComplete_spec gs pids :
  IsComplete gs pids = true ↔
  ∀ p, p ∈ pids → ∃ ls, gsLocalStates gs !! p = Some ls ∧ lsFinalized ls = true.
Proof.
  induction pids as [|p pids IH]; simpl; [split; [set_solver|done]|].
  destruct (gsLocalStates gs !! p) as [ls|] eqn:E; [destruct (lsFinalized ls) eqn:Ef|].
  - rewrite IH. split; [|set_solver]. intros Hall q [->|Hq]%elem_of_cons; eauto.
  - split; [done|]. intros Hall. destruct (Hall p) as (? & ? & ?); [left|congruence].
  - split; [done|]. intros Hall. destruct (Hall p) as (? & ? & ?); [left|congruence].
Qed.

Definition registered (c : SnapshotCoordinator) : list string :=
  for_range (procStates c) (λ p _ acc, acc ++ [p]) [].

Lemma elem_of_registered c p : p ∈ registered c ↔ is_Some (procStates c !! p).
Proof.
  unfold registered, for_range.
  rewrite (foldl_collect (λ _ : string * processSnapshot, true) fst). simpl.
  rewrite list_elem_of_fmap. split.
  - intros ([q ps] & -> & [_ Hq]%list_elem_of_filter). apply elem_of_range in Hq. eauto.
  - intros [ps Hps]. exists (p, ps). split; [done|]. apply list_elem_of_filter.
    split; [done|]. by apply elem_of_range.
Qed.

Definition local_report (pid snapID : string) (st : procSnapState) (now : Z) : LocalSnapshot :=
  {| lsProcessID := pid; lsLocalState := localState st; lsRecordedChans := recordedChans st;
     lsFinalized := true; lsSnapshotID := snapID; lsSnapshotTime := now |}.

(** The second half of [checkFinalized]. *)
Definition report (c : SnapshotCoordinator) (pid snapID : string) (st : procSnapState) (now : Z) :
    SnapshotCoordinator :=
  match snapshots c !! snapID with
  | None => c
  | Some gs =>
      let gs := set_local_states gs (<[pid := local_report pid snapID st now]> (gsLocalStates gs)) in
      if IsComplete gs (registered c)
      then emit (set_snapshots c (<[snapID := set_complete gs]> (snapshots c))) [Complete snapID]
      else set_snapshots c (<[snapID := gs]> (snapshots c))
  end.

Lemma set_state_again c pid s ps st ps' st' :
  peers ps' = peers ps → perSnap ps' = <[s := st]> (perSnap ps) →
  set_state (set_state c pid s ps st) pid s ps' st' = set_state c pid s ps st'.
Proof.
  intros Hp Hs. unfold set_state, set_procs. simpl. by rewrite Hp, Hs, !insert_insert_eq.
Qed.

Lemma checkFinalized_eq c pid s ps st now :
  procStates c !! pid = Some ps → perSnap ps !! s = Some st →
  let st' := {| role := if bool_decide (role st = Done) then Done
                        else done_or (peers ps) (recordedChans st) (role st);
                localState := localState st; recordedChans := recordedChans st |} in
  checkFinalized c s pid now =
  if bool_decide (role st' = Done) then report (set_state c pid s ps st') pid s st' now else c.
Proof.
  intros Hps Hst st'. unfold checkFinalized. rewrite Hps, Hst.
  assert (bool_decide (role st' = Done) =
    negb (bool_decide (role st ≠ Done) && negb (all_done (peers ps) (recordedChans st)))) as ->.
  { subst st'. unfold done_or. simpl.
    destruct (role st), (all_done (peers ps) (recordedChans st)); reflexivity. }
  destruct (_ && _) eqn:E; [done|]. simpl.
  assert (st' = {| role := Done; localState := localState st; recordedChans := recordedChans st |}) as ->.
  { subst st'. f_equal. unfold done_or.
    destruct (role st), (all_done (peers ps) (recordedChans st)); done. }
  unfold report. simpl. rewrite copyChannelStates_id. done.
Qed.

(** [OnMarkerReceived] in one equation. *)
Lemma OnMarkerReceived_eq c pid from s captured now ps :
  procStates c !! pid = Some ps →
  let st := default fresh_state (perSnap ps !! s) in
  let st' := marker_local (peers ps) from captured st in
  let c1 := set_state c pid s ps st' in
  let c2 := emit c1 (if bool_decide (role st = NotParticipating)
                     then (λ peer, SendMarker pid peer s) <$> peers ps else []) in
  OnMarkerReceived c pid from s captured now =
  if bool_decide (role st = Done) then c1
  else if bool_decide (role st' = Done) then report c2 pid s st' now else c2.
Proof.
  intros Hps st st' c1 c2. unfold OnMarkerReceived. rewrite Hps. fold fresh_state. fold st.
  assert (∀ c', emit c' [] = c') as Hemit.
  { intros []. unfold emit. simpl. by rewrite app_nil_r. }
  subst c2 c1 st'. unfold marker_local. destruct (role st) eqn:Er.
  4: done.
  1: erewrite checkFinalized_eq; [|simpl; by rewrite lookup_insert_eq|simpl; by rewrite lookup_insert_eq].
  2-3: erewrite checkFinalized_eq; [|simpl; by rewrite lookup_insert_eq|simpl; by rewrite lookup_insert_eq].
  all: simpl; rewrite ?Hemit; unfold done_or; fold (first_chans (peers ps) from (recordedChans st));
    destruct (all_done _ _); simpl; try done.
  all: try (f_equal; unfold set_state, set_procs, emit; simpl; by rewrite !insert_insert_eq).
Qed.
End coordinator.

(** *** One snapshot among the processes [P]

    [peersOf q] lists the peers of [q]; [i] starts the snapshot [snapID] with
    captured state [s0]. *)
Section one_snapshot.
Context `{MapRange} (P : gset string) (peersOf : string → list string).
Context (snapID i : string) (s0 : local_state).
Context (Hmesh : ∀ q, q ∈ P → ∀ p, p ∈ peersOf q ↔ p ∈ P ∧ p ≠ q).
Context (Htwo : ∀ q, q ∈ P → peersOf q ≠ []).

Definition started (q : string) : option local_state := if decide (q = i) then Some s0 else None.
Definition seen (ops : list call) (q : string) : list arrival := arrivals snapID q ops.
Definition process_done (ops : list call) (q : string) : bool := all_marked (peersOf q) (seen ops q).

Definition report_ok (ops : list call) (q : string) (ls : LocalSnapshot) : Prop :=
  lsProcessID ls = q ∧ lsSnapshotID ls = snapID ∧ lsFinalized ls = true ∧
  capture_of (started q) (seen ops q) = Some (lsLocalState ls) ∧
  chans_ok (peersOf q) (started q) (seen ops q) (lsRecordedChans ls) ∧
  no_strays (peersOf q) (lsRecordedChans ls).

Definition members_inv (ops : list call) (c : SnapshotCoordinator) : Prop :=
  (∀ q, q ∈ P → ∃ ps, procStates c !! q = Some ps ∧ peers ps = peersOf q ∧
     local_inv (peersOf q) (started q) (seen ops q) (perSnap ps !! snapID)) ∧
  (∀ q, q ∉ P → procStates c !! q = None).

Definition markers_inv (ops : list call) (c : SnapshotCoordinator) : Prop :=
  ∀ q st p, q ∈ P → capture_of (started q) (seen ops q) = Some st → p ∈ peersOf q →
    SendMarker q p snapID ∈ outputs c.

Record gs_inv (ops : list call) (gs : GlobalSnapshot) : Prop := {
  gs_reports q ls : gsLocalStates gs !! q = Some ls →
    q ∈ P ∧ process_done ops q = true ∧ report_ok ops q ls;
  gs_reported q : q ∈ P → process_done ops q = true → is_Some (gsLocalStates gs !! q);
  gs_complete : gsComplete gs = true ↔ ∀ q, q ∈ P → process_done ops q = true
}.

Definition completions (c : SnapshotCoordinator) : nat :=
  length (filter (λ o, o = Complete snapID) (outputs c)).

Record snap_inv (ops : list call) (c : SnapshotCoordinator) : Prop := {
  inv_members : members_inv ops c;
  inv_markers : markers_inv ops c;
  inv_gs : ∃ gs, snapshots c !! snapID = Some gs ∧ gs_inv ops gs ∧
    completions c = if gsComplete gs then 1 else 0
}.

Lemma seen_snoc ops op q : seen (ops ++ [op]) q = seen ops q ++ option_list (arrival_of snapID q op).
Proof. unfold seen, arrivals. rewrite omap_app. simpl. by destruct (arrival_of snapID q op). Qed.

Lemma seen_other ops op q : arrival_of snapID q op = None → seen (ops ++ [op]) q = seen ops q.
Proof. intros E. by rewrite seen_snoc, E, app_nil_r. Qed.

Lemma process_done_mono ops op q : process_done ops q = true → process_done (ops ++ [op]) q = true.
Proof.
  unfold process_done. rewrite seen_snoc. destruct (arrival_of snapID q op); simpl.
  - apply all_marked_snoc.
  - by rewrite app_nil_r.
Qed.

Lemma report_ok_mono ops op q ls :
  process_done ops q = true → report_ok ops q ls → report_ok (ops ++ [op]) q ls.
Proof.
  unfold process_done, report_ok. intros Hd (?&?&?&Hc&Hch&?). rewrite seen_snoc.
  destruct (arrival_of snapID q op); simpl; [|by rewrite app_nil_r].
  split_and!; try done; [by apply capture_of_snoc|by eapply chans_ok_frozen].
Qed.

Lemma gs_inv_same ops op gs :
  (∀ q, q ∈ P → process_done (ops ++ [op]) q = process_done ops q) →
  gs_inv ops gs → gs_inv (ops ++ [op]) gs.
Proof.
  intros Hsame [Hr Hd Hc]. split.
  - intros q ls Hq. destruct (Hr q ls Hq) as (HP & Hdone & Hok).
    split_and!; [done|by rewrite Hsame|by apply report_ok_mono].
  - intros q HP. rewrite Hsame by done. by apply Hd.
  - rewrite Hc. split; intros Hall q HP; [rewrite Hsame|rewrite <- Hsame]; auto.
Qed.

Lemma gs_inv_report ops op gs pid ls pids :
  pid ∈ P → process_done ops pid = false → process_done (ops ++ [op]) pid = true →
  (∀ q, q ∈ P → q ≠ pid → process_done (ops ++ [op]) q = process_done ops q) →
  report_ok (ops ++ [op]) pid ls → (∀ q, q ∈ pids ↔ q ∈ P) →
  gs_inv ops gs →
  let gs' := set_local_states gs (<[pid := ls]> (gsLocalStates gs)) in
  gsComplete gs = false ∧
  gs_inv (ops ++ [op]) (if IsComplete gs' pids then set_complete gs' else gs').
Proof.
  intros HP Hold Hnew Hsame Hok Hpids [Hr Hd Hc] gs'.
  assert (gsComplete gs = false) as Hf.
  { apply not_true_iff_false. rewrite Hc. intros Hall. specialize (Hall pid HP). congruence. }
  split; [done|].
  assert (IsComplete gs' pids = true ↔ ∀ q, q ∈ P → process_done (ops ++ [op]) q = true) as Hcomp.
  { rewrite IsComplete_spec. split.
    - intros Hall q Hq. destruct (decide (q = pid)) as [->|Hne]; [done|].
      destruct (Hall q) as (ls' & Hl & _); [by apply Hpids|]. simpl in Hl.
      rewrite lookup_insert_ne in Hl by done. apply process_done_mono. by apply (Hr q ls').
    - intros Hall q Hq%Hpids. simpl. destruct (decide (q = pid)) as [->|Hne].
      + rewrite lookup_insert_eq. exists ls. split; [done|]. apply Hok.
      + rewrite lookup_insert_ne by done. destruct (Hd q Hq) as [ls' Hl].
        { rewrite <- Hsame by done. by apply Hall. }
        exists ls'. split; [done|]. by apply (Hr q ls'). }
  assert (∀ b, gs_inv (ops ++ [op]) (if b : bool then set_complete gs' else gs') ↔
    (b = true ↔ ∀ q, q ∈ P → process_done (ops ++ [op]) q = true)) as Hgen.
  { assert (∀ q ls', <[pid := ls]> (gsLocalStates gs) !! q = Some ls' →
      q ∈ P ∧ process_done (ops ++ [op]) q = true ∧ report_ok (ops ++ [op]) q ls') as Hreports.
    { intros q ls'. destruct (decide (q = pid)) as [->|Hne].
      - rewrite lookup_insert_eq. intros [= <-]. done.
      - rewrite lookup_insert_ne by done. intros Hq. destruct (Hr q ls' Hq) as (? & ? & ?).
        split_and!; [done|by apply process_done_mono|by apply report_ok_mono]. }
    assert (∀ q, q ∈ P → process_done (ops ++ [op]) q = true →
      is_Some (<[pid := ls]> (gsLocalStates gs) !! q)) as Hreported.
    { intros q Hq Hdq. destruct (decide (q = pid)) as [->|Hne].
      - rewrite lookup_insert_eq. eauto.
      - rewrite lookup_insert_ne by done. apply Hd; [done|]. by rewrite <- Hsame. }
    intros b. split.
    - intros Hi. rewrite <- (gs_complete _ _ Hi). destruct b; simpl; [done|]. by rewrite Hf.
    - intros Hb. destruct b; split; simpl; try done. by rewrite Hf. }
  by apply Hgen.
Qed.
Lemma members_inv_local ops op c c' pid ps' :
  pid ∈ P → procStates c' = <[pid := ps']> (procStates c) → peers ps' = peersOf pid →
  local_inv (peersOf pid) (started pid) (seen (ops ++ [op]) pid) (perSnap ps' !! snapID) →
  (∀ q, q ≠ pid → arrival_of snapID q op = None) →
  members_inv ops c → members_inv (ops ++ [op]) c'.
Proof.
  intros HP Hc' Hpeers Hl Hother [Hm Ho]. unfold members_inv. rewrite Hc'. split; intros q Hq.
  - destruct (decide (q = pid)) as [->|Hne].
    + rewrite lookup_insert_eq. eauto.
    + rewrite lookup_insert_ne, seen_other by auto. by apply Hm.
  - rewrite lookup_insert_ne by (intros ->; done). by apply Ho.
Qed.

Lemma markers_inv_local ops op c c' pid os :
  outputs c' = outputs c ++ os → (∀ q, q ≠ pid → arrival_of snapID q op = None) →
  (capture_of (started pid) (seen ops pid) = None →
   is_Some (capture_of (started pid) (seen (ops ++ [op]) pid)) →
   ∀ p, p ∈ peersOf pid → SendMarker pid p snapID ∈ os) →
  markers_inv ops c → markers_inv (ops ++ [op]) c'.
Proof.
  intros Hos Hother Hnew Hm q st p HP Hst Hp. rewrite Hos, elem_of_app.
  destruct (decide (q = pid)) as [->|Hne].
  - destruct (capture_of (started pid) (seen ops pid)) eqn:E; [left; by eapply Hm|right; eauto].
  - rewrite seen_other in Hst by auto. left. by eapply Hm.
Qed.

Lemma completions_app c c' os :
  outputs c' = outputs c ++ os →
  completions c' = completions c + length (filter (λ o, o = Complete snapID) os).
Proof. intros E. unfold completions. by rewrite E, filter_app, length_app. Qed.

Lemma no_completion os :
  Complete snapID ∉ os → length (filter (λ o, o = Complete snapID) os) = 0.
Proof.
  intros Hn. destruct (filter _ os) as [|o l] eqn:E; [done|].
  assert (o ∈ filter (λ o, o = Complete snapID) os) as [-> Ho]%list_elem_of_filter
    by (rewrite E; left). done.
Qed.

Lemma markers_no_completion s pid s' (ps : list string) :
  Complete s ∉ (λ peer, SendMarker pid peer s') <$> ps.
Proof. intros (? & ? & _)%list_elem_of_fmap. done. Qed.

(** A call by which nobody finishes leaves the snapshot and its callbacks. *)
Lemma counted_quiet ops op c c' os gs :
  (∀ q, q ∈ P → process_done (ops ++ [op]) q = process_done ops q) →
  snapshots c' !! snapID = Some gs → outputs c' = outputs c ++ os → Complete snapID ∉ os →
  gs_inv ops gs → completions c = (if gsComplete gs then 1 else 0) →
  ∃ gs, snapshots c' !! snapID = Some gs ∧ gs_inv (ops ++ [op]) gs ∧
    completions c' = if gsComplete gs then 1 else 0.
Proof.
  intros Hd Hg Ho Hno Hi Hc. exists gs. split; [done|]. split; [by eapply gs_inv_same|].
  by rewrite (completions_app _ _ _ Ho), (no_completion _ Hno), Nat.add_0_r.
Qed.

Lemma members_registered ops c c' pid ps' :
  pid ∈ P → members_inv ops c → procStates c' = <[pid := ps']> (procStates c) →
  ∀ q, q ∈ registered c' ↔ q ∈ P.
Proof.
  intros HP [Hm Ho] E q. rewrite elem_of_registered, E. destruct (decide (q = pid)) as [->|Hne].
  - rewrite lookup_insert_eq. split; [done|eauto].
  - rewrite lookup_insert_ne by done. destruct (decide (q ∈ P)) as [Hq|Hq].
    + destruct (Hm q Hq) as (? & -> & _). split; [done|eauto].
    + rewrite (Ho q Hq). split; [intros [? ?]|]; done.
Qed.

(** A call that concerns another snapshot, or no member. *)
Lemma step_elsewhere ops op c c' os :
  (∀ q, q ∈ P → arrival_of snapID q op = None) →
  (∀ q, (λ ps, (peers ps, perSnap ps !! snapID)) <$> procStates c' !! q =
        (λ ps, (peers ps, perSnap ps !! snapID)) <$> procStates c !! q) →
  snapshots c' !! snapID = snapshots c !! snapID →
  outputs c' = outputs c ++ os → Complete snapID ∉ os →
  snap_inv ops c → snap_inv (ops ++ [op]) c'.
Proof.
  intros Hop Hps Hgs Hos Hno [[Hm Ho] Hmk (gs & Hg & Hgi & Hcount)].
  assert (∀ q, q ∈ P → seen (ops ++ [op]) q = seen ops q) as Hseen by (intros; apply seen_other; auto).
  split.
  - split; intros q Hq; specialize (Hps q).
    + destruct (Hm q Hq) as (ps & Eq & <- & Hl). rewrite Eq in Hps. simpl in Hps.
      destruct (procStates c' !! q) as [ps'|]; [|done]. injection Hps as E1 E2.
      exists ps'. rewrite E1, E2, Hseen by done. done.
    + rewrite (Ho q Hq) in Hps. by destruct (procStates c' !! q).
  - intros q st p Hq. rewrite Hseen, Hos, elem_of_app by done. eauto.
  - apply (counted_quiet ops op c c' os gs); [|by rewrite Hgs|done..].
    intros q Hq. unfold process_done. by rewrite Hseen.
Qed.

Lemma role_done ops q o :
  q ∈ P → local_inv (peersOf q) (started q) (seen ops q) o →
  (role (default fresh_state o) = Done ↔ process_done ops q = true) ∧
  (role (default fresh_state o) = NotParticipating ↔ capture_of (started q) (seen ops q) = None).
Proof.
  intros HP. unfold local_inv, process_done. destruct (capture_of _ _) eqn:Ec.
  - intros (st & -> & _ & Hr & _). simpl. rewrite Hr. by destruct (all_marked _ _), (started q).
  - intros ->. simpl. split; [|done]. split; [done|]. intros Hd.
    destruct (all_marked_captured (started q) _ _ (Htwo q HP) Hd) as [? E]. congruence.
Qed.

(** Reporting a finished process. *)
Lemma report_snapshots c pid st now gs :
  snapshots c !! snapID = Some gs →
  let gs' := set_local_states gs (<[pid := local_report pid snapID st now]> (gsLocalStates gs)) in
  let b := IsComplete gs' (registered c) in
  procStates (report c pid snapID st now) = procStates c ∧
  snapshots (report c pid snapID st now) !! snapID = Some (if b then set_complete gs' else gs') ∧
  outputs (report c pid snapID st now) = outputs c ++ (if b then [Complete snapID] else []).
Proof.
  intros Hg gs' b. unfold report. rewrite Hg. fold gs'. fold b.
  destruct b; simpl; by rewrite lookup_insert_eq, ?app_nil_r.
Qed.

Lemma step_marker ops c pid from captured now :
  pid ∈ P → snap_inv ops c →
  snap_inv (ops ++ [CallMarker pid from snapID captured now])
    (OnMarkerReceived c pid from snapID captured now).
Proof.
  intros HP [[Hm Ho] Hmk (gs & Hg & Hgi & Hcount)].
  set (op := CallMarker pid from snapID captured now).
  destruct (Hm pid HP) as (ps & Hps & Hpeers & Hl).
  assert (∀ q, q ≠ pid → arrival_of snapID q op = None) as Hother.
  { intros q Hq. simpl. by rewrite decide_False by tauto. }
  assert (Hl' := local_inv_marker _ _ _ _ from captured Hl).
  replace (seen ops pid ++ [Marker from captured]) with (seen (ops ++ [op]) pid) in Hl'
    by (rewrite seen_snoc; simpl; by rewrite decide_True by done).
  assert (∀ q, q ≠ pid → process_done (ops ++ [op]) q = process_done ops q) as Hsame.
  { intros q Hq. unfold process_done. by rewrite seen_other by auto. }
  destruct (role_done _ _ _ HP Hl) as [Hdone Hnot]. destruct (role_done _ _ _ HP Hl') as [Hdone' _].
  rewrite (OnMarkerReceived_eq _ _ _ _ _ _ _ Hps). rewrite Hpeers.
  set (st := default fresh_state (perSnap ps !! snapID)) in *.
  set (st' := marker_local (peersOf pid) from captured st) in *. simpl in Hdone'.
  set (c1 := set_state c pid snapID ps st').
  set (os := if bool_decide _ then _ else []).
  assert (∀ c', procStates c' = procStates c1 → members_inv (ops ++ [op]) c') as Hmembers.
  { intros c' Hc'. eapply (members_inv_local _ _ c _ pid); [done|by rewrite Hc'|done| |done|done].
    simpl. by rewrite lookup_insert_eq. }
  assert (∀ c' os', outputs c' = outputs c ++ os ++ os' → markers_inv (ops ++ [op]) c') as Hmarkers.
  { intros c' os' Hc'. eapply (markers_inv_local _ _ c _ pid); [done|done| |done].
    intros Hcap _ p Hp. apply elem_of_app. left. subst os. rewrite bool_decide_true by tauto.
    apply list_elem_of_fmap. eauto. }
  assert (Complete snapID ∉ os) as Hos.
  { subst os. case_bool_decide; [apply markers_no_completion|set_solver]. }
  assert (process_done (ops ++ [op]) pid = process_done ops pid → ∀ c', snapshots c' = snapshots c →
    outputs c' = outputs c ++ os → ∃ gs, snapshots c' !! snapID = Some gs ∧
      gs_inv (ops ++ [op]) gs ∧ completions c' = if gsComplete gs then 1 else 0) as Hquiet.
  { intros Hpid c' Hc' Ho'. apply (counted_quiet ops op c c' os gs); rewrite ?Hc'; try done.
    intros q _. destruct (decide (q = pid)) as [->|]; auto. }
  case_bool_decide as Hd; [|case_bool_decide as Hd'].
  - assert (os = []) as Hnil. { subst os. rewrite bool_decide_false; [done|congruence]. }
    rewrite Hnil in *. simpl in *.
    split; [by apply Hmembers|apply (Hmarkers _ []); simpl; by rewrite app_nil_r|].
    apply Hquiet; [|done|simpl; by rewrite app_nil_r].
    apply Hdone in Hd. rewrite Hd. by apply process_done_mono.
  - destruct (report_snapshots (emit c1 os) pid st' now gs Hg) as (Ep & Es & Eo).
    simpl in Eo. rewrite <- (assoc_L (++)) in Eo.
    split; [by apply Hmembers|by eapply Hmarkers|].
    edestruct (gs_inv_report ops op gs pid (local_report pid snapID st' now)
      (registered (emit c1 os))) as [Hf Hgi']; [done| |by apply Hdone'|by intros; apply Hsame| | |done|].
    + apply not_true_iff_false. by rewrite <- Hdone.
    + unfold local_inv in Hl'. destruct (capture_of _ _) eqn:Ec; [|done].
      destruct Hl' as (? & [= <-] & <- & _ & Hch & ?). unfold report_ok. by rewrite Ec.
    + eapply (members_registered ops c _ pid); [done|done|reflexivity].
    + eexists. split_and!; [exact Es|exact Hgi'|].
      rewrite (completions_app _ _ _ Eo), filter_app, length_app, (no_completion _ Hos), Hcount, Hf.
      destruct (IsComplete _ _); simpl; [|by rewrite Hf].
      rewrite filter_cons, decide_True by done. done.
  - split; [by apply Hmembers|apply (Hmarkers _ []); simpl; by rewrite app_nil_r|].
    apply Hquiet; [|done|done]. rewrite Hdone in Hd. rewrite Hdone' in Hd'.
    by apply not_true_iff_false in Hd as ->; apply not_true_iff_false in Hd' as ->.
Qed.
Lemma RecordMessage_eq c s pid from m ps :
  procStates c !! pid = Some ps →
  ∃ ps', procStates (RecordMessage c s pid from m) = <[pid := ps']> (procStates c) ∧
    peers ps' = peers ps ∧ perSnap ps' !! s = record_local from m <$> perSnap ps !! s ∧
    (∀ s', s' ≠ s → perSnap ps' !! s' = perSnap ps !! s') ∧
    snapshots (RecordMessage c s pid from m) = snapshots c ∧
    outputs (RecordMessage c s pid from m) = outputs c.
Proof.
  intros Hps. unfold RecordMessage. rewrite Hps. unfold record_local.
  assert (<[pid := ps]> (procStates c) = procStates c) as Hsame by by apply insert_id.
  destruct (perSnap ps !! s) as [st|] eqn:Est; simpl.
  2:{ exists ps. by rewrite Hsame, Est. }
  destruct (recordedChans st !! from) as [cs|]; [destruct (csFinalized cs)|].
  1,3: exists ps; by rewrite Hsame, Est.
  eexists. split; [done|]. simpl. rewrite lookup_insert_eq. split_and!; try done.
  intros s' Hs'. by rewrite lookup_insert_ne.
Qed.

Lemma step_record ops c pid from m :
  pid ∈ P → snap_inv ops c →
  snap_inv (ops ++ [CallRecord snapID pid from m]) (RecordMessage c snapID pid from m).
Proof.
  intros HP [[Hm Ho] Hmk (gs & Hg & Hgi & Hcount)].
  destruct (Hm pid HP) as (ps & Hps & Hpeers & Hl).
  destruct (RecordMessage_eq c snapID pid from m ps Hps) as (ps' & Ep & Epeers & Est & _ & Es & Eo).
  assert (∀ q, q ≠ pid → arrival_of snapID q (CallRecord snapID pid from m) = None) as Hother.
  { intros q Hq. simpl. by rewrite decide_False by tauto. }
  assert (seen (ops ++ [CallRecord snapID pid from m]) pid = seen ops pid ++ [Arrive from m]) as Hseen.
  { rewrite seen_snoc. simpl. by rewrite decide_True by done. }
  split.
  - eapply (members_inv_local _ _ c _ pid); [done|done|congruence| |done|done].
    rewrite Est, Hseen. by apply local_inv_record.
  - apply (markers_inv_local ops _ c _ pid []); [by rewrite app_nil_r|done| |done].
    rewrite Hseen. intros Hcap [st Hst]. unfold capture_of in *.
    destruct (started pid); [done|]. by rewrite first_capture_snoc, Hcap in Hst.
  - exists gs. rewrite Es. unfold completions. rewrite Eo. split_and!; [done| |done].
    apply gs_inv_same; [|done]. intros q _. unfold process_done.
    destruct (decide (q = pid)) as [->|]; [by rewrite Hseen, all_marked_arrive|by rewrite seen_other by auto].
Qed.
Lemma report_other c pid s st now :
  s ≠ snapID →
  procStates (report c pid s st now) = procStates c ∧
  snapshots (report c pid s st now) !! snapID = snapshots c !! snapID ∧
  ∃ os, outputs (report c pid s st now) = outputs c ++ os ∧ Complete snapID ∉ os.
Proof.
  intros Hs. unfold report. destruct (snapshots c !! s); [destruct (IsComplete _ _)|]; simpl.
  - rewrite lookup_insert_ne by done. repeat split. exists [Complete s]. split; [done|].
    intros [= ?]%list_elem_of_singleton. done.
  - rewrite lookup_insert_ne by done. repeat split. exists []. rewrite app_nil_r. split; [done|set_solver].
  - repeat split. exists []. rewrite app_nil_r. split; [done|set_solver].
Qed.

Lemma set_state_view c pid s ps st q :
  procStates c !! pid = Some ps → s ≠ snapID →
  (λ ps, (peers ps, perSnap ps !! snapID)) <$> procStates (set_state c pid s ps st) !! q =
  (λ ps, (peers ps, perSnap ps !! snapID)) <$> procStates c !! q.
Proof.
  intros Hps Hs. simpl. destruct (decide (q = pid)) as [->|Hne].
  - rewrite lookup_insert_eq, Hps. simpl. by rewrite lookup_insert_ne.
  - by rewrite lookup_insert_ne.
Qed.

Lemma step_marker_elsewhere ops c pid from s captured now :
  (pid ∉ P ∨ s ≠ snapID) → snap_inv ops c →
  snap_inv (ops ++ [CallMarker pid from s captured now]) (OnMarkerReceived c pid from s captured now).
Proof.
  intros Helse Hi.
  assert (∀ q, q ∈ P → arrival_of snapID q (CallMarker pid from s captured now) = None) as Hop.
  { intros q Hq. simpl. rewrite decide_False; [done|]. intros [E1 E2]; subst; tauto. }
  destruct (procStates c !! pid) as [ps|] eqn:Hps.
  2:{ unfold OnMarkerReceived. rewrite Hps. apply (step_elsewhere _ _ c _ []); try done.
      - by rewrite app_nil_r.
      - set_solver. }
  destruct (decide (pid ∈ P)) as [HP|HP].
  2:{ destruct (inv_members _ _ Hi) as [_ Ho]. specialize (Ho pid HP). congruence. }
  destruct Helse as [|Hs]; [done|]. rewrite (OnMarkerReceived_eq _ _ _ _ _ _ _ Hps).
  set (st' := marker_local _ _ _ _). set (os := if bool_decide (_ = NotParticipating) then _ else []).
  assert (Complete snapID ∉ os) as Hos.
  { subst os. case_bool_decide; [apply markers_no_completion|set_solver]. }
  case_bool_decide; [|case_bool_decide].
  - apply (step_elsewhere _ _ c _ []); try done; [|by rewrite app_nil_r|set_solver].
    intros q. by apply set_state_view.
  - destruct (report_other (emit (set_state c pid s ps st') os) pid s st' now Hs)
      as (Ep & Es & os' & Eo & Hos').
    apply (step_elsewhere _ _ c _ (os ++ os')); try done.
    + intros q. rewrite Ep. by apply set_state_view.
    + by rewrite Eo, (assoc_L (++)).
    + rewrite elem_of_app. tauto.
  - apply (step_elsewhere _ _ c _ os); try done. intros q. by apply set_state_view.
Qed.

Lemma step_record_elsewhere ops c pid from s m :
  (pid ∉ P ∨ s ≠ snapID) → snap_inv ops c →
  snap_inv (ops ++ [CallRecord s pid from m]) (RecordMessage c s pid from m).
Proof.
  intros Helse Hi.
  assert (∀ q, q ∈ P → arrival_of snapID q (CallRecord s pid from m) = None) as Hop.
  { intros q Hq. simpl. rewrite decide_False; [done|]. intros [E1 E2]; subst; tauto. }
  destruct (procStates c !! pid) as [ps|] eqn:Hps.
  2:{ unfold RecordMessage. rewrite Hps. apply (step_elsewhere _ _ c _ []); try done.
      - by rewrite app_nil_r.
      - set_solver. }
  destruct (decide (pid ∈ P)) as [HP|HP].
  2:{ destruct (inv_members _ _ Hi) as [_ Ho]. specialize (Ho pid HP). congruence. }
  destruct Helse as [|Hs]; [done|].
  destruct (RecordMessage_eq c s pid from m ps Hps) as (ps' & Ep & Epeers & _ & Est & Es & Eo).
  apply (step_elsewhere _ _ c _ []); try done; [| |by rewrite Eo, app_nil_r|set_solver].
  - intros q. rewrite Ep. destruct (decide (q = pid)) as [->|Hne].
    + rewrite lookup_insert_eq, Hps. simpl. by rewrite Epeers, Est.
    + by rewrite lookup_insert_ne.
  - by rewrite Es.
Qed.

Lemma step_initiate_other ops c j now capture :
  snapshot_id now ≠ snapID → snap_inv ops c →
  snap_inv (ops ++ [CallInitiate j now capture]) (InitiateSnapshot c j now capture).1.
Proof.
  intros Hs Hi. unfold InitiateSnapshot. simpl. destruct (procStates c !! j) as [ps|] eqn:Hps; simpl.
  - apply (step_elsewhere _ _ c _ ((λ peer, SendMarker j peer (snapshot_id now)) <$> peers ps)); try done.
    + intros q. by apply (set_state_view c j (snapshot_id now) ps _ q).
    + simpl. by rewrite lookup_insert_ne.
    + apply markers_no_completion.
  - apply (step_elsewhere _ _ c _ []); try done; simpl; [by rewrite lookup_insert_ne|by rewrite app_nil_r|set_solver].
Qed.

(** No later call restarts this snapshot. *)
Definition not_restarted (op : call) : Prop :=
  match op with CallInitiate _ now _ => snapshot_id now ≠ snapID | _ => True end.

Lemma snap_run_inv ops c ops' :
  Forall not_restarted ops' → snap_inv ops c → snap_inv (ops ++ ops') (snap_run c ops').
Proof.
  revert ops c. induction ops' as [|op ops' IH]; intros ops c Hops Hi; [by rewrite app_nil_r|].
  apply Forall_cons in Hops as [Hop Hops]. rewrite cons_middle, (assoc_L (++)). apply IH; [done|].
  destruct op as [j now capture|pid from s captured now|s pid from m]; simpl in *.
  - by apply step_initiate_other.
  - destruct (decide (pid ∈ P)); [destruct (decide (s = snapID)) as [->|]|].
    1: by apply step_marker. all: apply step_marker_elsewhere; tauto.
  - destruct (decide (pid ∈ P)); [destruct (decide (s = snapID)) as [->|]|].
    1: by apply step_record. all: apply step_record_elsewhere; tauto.
Qed.
End one_snapshot.

(** *** Starting a snapshot *)

(** Everyone is everyone else's peer. *)
Definition meshed (c : SnapshotCoordinator) : Prop :=
  ∀ q ps, procStates c !! q = Some ps →
    ∀ p, p ∈ peers ps ↔ p ≠ q ∧ is_Some (procStates c !! p).

(** And there are at least two processes. *)
Definition full_mesh (c : SnapshotCoordinator) : Prop := 2 ≤ size (procStates c) ∧ meshed c.

Lemma meshed_new : meshed NewCoordinator.
Proof. by intros q ps. Qed.

(** Registering a process with all the others as its peers keeps the mesh. *)
Lemma meshed_register c pid ps :
  procStates c !! pid = None → (∀ p, p ∈ ps ↔ is_Some (procStates c !! p)) →
  meshed c → meshed (RegisterProcess c pid ps).
Proof.
  intros Hnew Hps Hm q st. unfold RegisterProcess. simpl. setoid_rewrite map_lookup_imap.
  destruct (decide (q = pid)) as [->|Hne].
  - rewrite lookup_insert_eq. simpl. rewrite bool_decide_true by done. intros [= <-] p. simpl.
    rewrite Hps. destruct (decide (p = pid)) as [->|Hp].
    + rewrite lookup_insert_eq, Hnew. split; [intros [? ?]; done|naive_solver].
    + rewrite lookup_insert_ne by done. destruct (procStates c !! p); simpl; naive_solver.
  - rewrite lookup_insert_ne by done. destruct (procStates c !! q) as [st0|] eqn:Eq; simpl; [|done].
    rewrite bool_decide_false by done. intros [= <-] p.
    assert (p ∈ peers (add_peer pid st0) ↔ p ∈ peers st0 ∨ p = pid) as ->.
    { unfold add_peer. destruct (existsb _ _) eqn:E.
      - apply existsb_exists in E as (x & Hx%list_elem_of_In & <-%String.eqb_eq). naive_solver.
      - simpl. rewrite elem_of_app, list_elem_of_singleton. done. }
    rewrite (Hm q st0 Eq). destruct (decide (p = pid)) as [->|Hp].
    + rewrite lookup_insert_eq. simpl. split; [intros _|by right]. split; [done|eauto].
    + rewrite lookup_insert_ne by done. destruct (procStates c !! p); simpl; naive_solver.
Qed.

(** So does deregistering one. *)
Lemma meshed_deregister c pid : meshed c → meshed (DeregisterProcess c pid).
Proof.
  intros Hm q st. unfold DeregisterProcess. simpl. rewrite lookup_fmap_Some.
  intros (st0 & <- & [Hq Hst0]%lookup_delete_Some) p. simpl.
  rewrite list_elem_of_filter, (Hm q st0 Hst0), lookup_fmap, fmap_is_Some.
  destruct (decide (p = pid)) as [->|Hp].
  - rewrite lookup_delete_eq. split; [tauto|]. by intros [_ [? ?]].
  - rewrite lookup_delete_ne by done. tauto.
Qed.

Definition unused (snapID : string) (c : SnapshotCoordinator) : Prop :=
  (∀ q ps, procStates c !! q = Some ps → perSnap ps !! snapID = None) ∧
  Complete snapID ∉ outputs c.

Definition peers_of (c : SnapshotCoordinator) (q : string) : list string :=
  from_option peers [] (procStates c !! q).

Section start.
Context `{MapRange}.

Lemma full_mesh_peers c :
  full_mesh c → ∀ q, q ∈ dom (procStates c) →
  (∀ p, p ∈ peers_of c q ↔ p ∈ dom (procStates c) ∧ p ≠ q) ∧ peers_of c q ≠ [].
Proof.
  intros [Hsize Hmesh] q [ps Hq]%elem_of_dom. unfold peers_of. rewrite Hq. simpl.
  split.
  - intros p. rewrite (Hmesh q ps Hq), elem_of_dom. tauto.
  - assert (∃ p, p ≠ q ∧ is_Some (procStates c !! p)) as (p & Hp).
    { rewrite <- (insert_delete_id _ _ _ Hq), map_size_insert_None in Hsize by apply lookup_delete_eq.
      destruct (map_choose (delete q (procStates c))) as (p & ps' & Hp).
      - intros E. rewrite E, map_size_empty in Hsize. lia.
      - apply lookup_delete_Some in Hp as [? ?]. exists p. split; [done|eauto]. }
    intros E. apply (Hmesh q ps Hq) in Hp. rewrite E in Hp. set_solver.
Qed.

Lemma open_channels_lookup ps p (acc : gmap string ChannelState) :
  foldl (λ chans peer, <[peer := open_channel peer]> chans) acc ps !! p =
  if decide (p ∈ ps) then Some (open_channel p) else acc !! p.
Proof.
  revert acc. induction ps as [|q ps IH]; intros acc; cbn [foldl]; [by rewrite decide_False by set_solver|].
  rewrite IH. destruct (decide (p = q)) as [->|Hne].
  - rewrite lookup_insert_eq. rewrite (decide_True (P := q ∈ q :: ps)) by left. by case_decide.
  - rewrite lookup_insert_ne by done. repeat case_decide; set_solver.
Qed.

Lemma start_inv c i now capture :
  full_mesh c → is_Some (procStates c !! i) → unused (snapshot_id now) c →
  snap_inv (dom (procStates c)) (peers_of c) (snapshot_id now) i (capture i) []
    (InitiateSnapshot c i now capture).1.
Proof.
  intros Hmesh [ps Hi] [Hfresh Hno]. unfold InitiateSnapshot. simpl. rewrite Hi. simpl.
  assert (i ∈ dom (procStates c)) as HiP by (apply elem_of_dom; eauto).
  assert (∀ q, q ∈ dom (procStates c) → all_marked (peers_of c q) [] = false) as Hnone.
  { intros q Hq. destruct (full_mesh_peers c Hmesh q Hq) as [_ Hne]. by destruct (peers_of c q). }
  assert (peers_of c i = peers ps) as Hpeers by (unfold peers_of; by rewrite Hi).
  split.
  - split; simpl; intros q Hq; destruct (decide (q = i)) as [->|Hne].
    + rewrite lookup_insert_eq. eexists. split_and!; [done|done|]. simpl. rewrite lookup_insert_eq.
      unfold local_inv, started. rewrite decide_True by done. simpl. rewrite Hnone by done.
      eexists. split_and!; [done|done|done| |]; simpl; unfold chans_ok, no_strays; rewrite Hpeers.
      * intros p Hp. by rewrite open_channels_lookup, decide_True.
      * intros p cs Hp. by rewrite open_channels_lookup, decide_False.
    + rewrite lookup_insert_ne by done. apply elem_of_dom in Hq as [ps' Hq]. exists ps'.
      unfold peers_of, local_inv, started. rewrite Hq, decide_False by done. simpl. eauto.
    + done.
    + rewrite lookup_insert_ne by done. by apply not_elem_of_dom.
  - intros q st p Hq. unfold started. simpl. rewrite elem_of_app. case_decide; [subst|done].
    rewrite Hpeers. intros _ Hp. right. apply list_elem_of_fmap. eauto.
  - simpl. rewrite lookup_insert_eq. eexists. split_and!; [done| |].
    + split; simpl; [done| |].
      * intros q Hq. unfold process_done. simpl. by rewrite Hnone.
      * split; [done|]. intros Hall. specialize (Hall i HiP). unfold process_done in Hall. simpl in Hall.
        by rewrite Hnone in Hall.
    + unfold completions. simpl. rewrite filter_app, length_app.
      by rewrite !no_completion by (done || apply markers_no_completion).
Qed.
End start.

(** *** The snapshot algorithm *)
Section algorithm.
Context `{MapRange}.

(** The marker of [p] for snapshot [snapID] reaches [q]. *)
Definition marker_arrives (snapID p q : string) (ops : list call) : Prop :=
  ∃ captured now, CallMarker q p snapID captured now ∈ ops.

Lemma marked_iff snapID p q ops :
  marked p (arrivals snapID q ops) = true ↔ marker_arrives snapID p q ops.
Proof.
  unfold marker_arrives. induction ops as [|op ops IH]; [split; [done|set_solver]|].
  assert (marked p (arrivals snapID q (op :: ops)) = true ↔
    (∃ captured now, op = CallMarker q p snapID captured now) ∨
    marked p (arrivals snapID q ops) = true) as ->.
  { unfold arrivals. destruct op as [j now cap|pid from s st now|s pid from m]; simpl;
      try case_decide as Hd; simpl; try (naive_solver congruence).
    rewrite orb_true_iff, bool_decide_eq_true. destruct Hd as [-> ->]. naive_solver. }
  rewrite IH. setoid_rewrite elem_of_cons. naive_solver.
Qed.

Lemma process_done_iff snapID c ops q :
  full_mesh c → is_Some (procStates c !! q) →
  process_done (peers_of c) snapID ops q = true ↔
  ∀ p, p ≠ q → is_Some (procStates c !! p) → marker_arrives snapID p q ops.
Proof.
  intros Hmesh Hq%elem_of_dom. destruct (full_mesh_peers c Hmesh q Hq) as [Hpeers _].
  unfold process_done, all_marked, seen. rewrite forallb_forall.
  setoid_rewrite marked_iff. setoid_rewrite <- list_elem_of_In. setoid_rewrite Hpeers.
  setoid_rewrite elem_of_dom. naive_solver.
Qed.

Lemma run_inv c i now capture ops :
  full_mesh c → is_Some (procStates c !! i) → unused (snapshot_id now) c →
  Forall (not_restarted (snapshot_id now)) ops →
  snap_inv (dom (procStates c)) (peers_of c) (snapshot_id now) i (capture i) ops
    (snap_run (InitiateSnapshot c i now capture).1 ops).
Proof.
  intros Hmesh Hi Hfresh Hops.
  apply (snap_run_inv _ _ _ _ _ (λ q Hq, proj1 (full_mesh_peers c Hmesh q Hq))
    (λ q Hq, proj2 (full_mesh_peers c Hmesh q Hq)) [] _ ops Hops).
  by apply start_inv.
Qed.

(** C23: What a snapshot contains.  Whatever calls follow its start, a snapshot
    is complete exactly when every process has received the marker of every
    other one, and the callback is called once then and never otherwise; a
    process has reported exactly when the markers of all its peers have
    arrived, and its report is the state it had when it started the snapshot
    or received its first marker, with, for each peer, exactly the messages
    that arrived from that peer after this and before the peer's marker, in
    order of arrival. *)
Theorem snapshot_cut_exact c i now capture ops :
  full_mesh c → is_Some (procStates c !! i) → unused (snapshot_id now) c →
  Forall (not_restarted (snapshot_id now)) ops →
  let id := snapshot_id now in
  let c' := snap_run (InitiateSnapshot c i now capture).1 ops in
  let started := λ q, if decide (q = i) then Some (capture i) else None in
  ∃ gs, GetSnapshot c' id = Some gs ∧
    (IsDone gs = true ↔ ∀ p q, is_Some (procStates c !! p) → is_Some (procStates c !! q) →
       p ≠ q → marker_arrives id p q ops) ∧
    length (filter (λ o, o = Complete id) (outputs c')) = (if IsDone gs then 1 else 0) ∧
    (∀ q, is_Some (gsLocalStates gs !! q) ↔ is_Some (procStates c !! q) ∧
       ∀ p, is_Some (procStates c !! p) → p ≠ q → marker_arrives id p q ops) ∧
    ∀ q ls, gsLocalStates gs !! q = Some ls →
      capture_of (started q) (arrivals id q ops) = Some (lsLocalState ls) ∧
      ∀ p, is_Some (procStates c !! p) → p ≠ q →
        lsRecordedChans ls !! p = Some {| csFrom := p; csFinalized := true;
          csMessages := in_transit (started q) (arrivals id q ops) p |}.
Proof.
  intros Hmesh Hi Hfresh Hops id c' st.
  destruct (run_inv c i now capture ops Hmesh Hi Hfresh Hops) as [_ _ (gs & Hg & [Hr Hd Hc] & Hcount)].
  exists gs. split_and!; [done| |done| |].
  - unfold IsDone. rewrite Hc. split.
    + intros Hall p q Hp Hq Hpq. apply (proj1 (process_done_iff id c ops q Hmesh Hq)); try done.
      apply Hall. by apply elem_of_dom.
    + intros Hall q Hq%elem_of_dom. apply process_done_iff; auto.
  - intros q. split.
    + intros [ls Hls]. destruct (Hr q ls Hls) as (Hq%elem_of_dom & Hdone & _). split; [done|].
      rewrite process_done_iff in Hdone by done. auto.
    + intros [Hq Hall]. apply Hd; [by apply elem_of_dom|]. apply process_done_iff; auto.
  - intros q ls Hls. destruct (Hr q ls Hls) as (Hq & Hdone & _ & _ & _ & Hcap & Hch & _).
    split; [done|]. intros p Hp Hpq. destruct (full_mesh_peers c Hmesh q Hq) as [Hpeers _].
    rewrite (Hch p) by (apply Hpeers; split; [by apply elem_of_dom|done]).
    change (seen (snapshot_id now) ops q) with (arrivals id q ops).
    rewrite (proj2 (marked_iff id p q ops)); [done|]. apply elem_of_dom in Hq.
    by apply (proj1 (process_done_iff id c ops q Hmesh Hq)).
Qed.
End algorithm.

(** *** What the verifier decides *)

(** The sender's captured state has the send of [m]. *)
Definition sent_before_cut (from : string) (m : SMessage) (captured : local_state) : Prop :=
  captured ≠ LNil ∧
  ∀ senderVC clock, sSenderVC m = Some senderVC → vectorClockFromState captured = Some clock →
    (senderVC.[from] ≤ clock.[from])%N.

Definition message_ok (gs : GlobalSnapshot) (from : string) (m : SMessage) : Prop :=
  ∃ ls, gsLocalStates gs !! from = Some ls ∧ sent_before_cut from m (lsLocalState ls).

#[export] Instance local_state_nil_dec (st : local_state) : Decision (st = LNil).
Proof. destruct st; (left; done) || (right; done). Defined.

#[export] Instance sent_before_cut_dec from m st : Decision (sent_before_cut from m st).
Proof.
  apply and_dec; [apply _|].
  destruct (sSenderVC m) as [v|]; [|by left]. destruct (vectorClockFromState st) as [w|]; [|by left].
  destruct (decide (v.[from] ≤ w.[from])%N) as [Hle|Hn].
  - left. by intros ? ? [= <-] [= <-].
  - right. intros Hle. by apply Hn, Hle.
Defined.

#[export] Instance message_ok_dec gs from m : Decision (message_ok gs from m).
Proof.
  unfold message_ok. destruct (gsLocalStates gs !! from) as [ls|].
  - destruct (decide (sent_before_cut from m (lsLocalState ls))) as [Hs|Hn].
    + left. by exists ls.
    + right. by intros (? & [= <-] & ?).
  - right. by intros (? & ? & ?).
Defined.

Section verifier.
Context `{MapRange}.

Lemma verify_message_flag gs pid from r m :
  Consistent (verify_message gs pid from r m) = Consistent r && bool_decide (message_ok gs from m).
Proof.
  unfold verify_message.
  assert (Hd := bool_decide_reflect (message_ok gs from m)).
  destruct Hd as [(ls & Hls & Hnil & Hvc)|Hn]; rewrite ?andb_true_r, ?andb_false_r.
  - rewrite Hls. destruct (lsLocalState ls) eqn:Els; [done|..];
      (destruct (sSenderVC m) as [v|]; [|done]);
      (destruct (vectorClockFromState _) as [w|]; [|done]);
      (destruct (_ <? _)%N eqn:E; [|done]);
      apply N.ltb_lt in E; specialize (Hvc v w eq_refl eq_refl); lia.
  - destruct (gsLocalStates gs !! from) as [ls|] eqn:Els; [|done].
    assert (¬ sent_before_cut from m (lsLocalState ls)) as Hs by (intros Hs; apply Hn; by exists ls).
    unfold sent_before_cut in Hs. destruct (lsLocalState ls) eqn:E; [done|..];
      destruct (sSenderVC m) as [v|], (vectorClockFromState _) as [w|];
      try (destruct Hs; naive_solver);
      (destruct (_ <? _)%N eqn:El; [done|]); apply N.ltb_ge in El; destruct Hs; naive_solver.
Qed.

Lemma verify_loops gs :
  Consistent (for_range (gsLocalStates gs) (λ pid ls result,
    for_range (lsRecordedChans ls) (λ fromPID cs result,
      foldl (verify_message gs pid fromPID) result (csMessages cs)) result)
    {| Consistent := true; Evidence := [] |}) = true ↔
  ∀ pid ls from cs m, gsLocalStates gs !! pid = Some ls → lsRecordedChans ls !! from = Some cs →
    m ∈ csMessages cs → message_ok gs from m.
Proof.
  rewrite for_range_foldl, (foldl_andb Consistent (λ kv, forallb (λ fc,
    forallb (λ m, bool_decide (message_ok gs fc.1 m)) (csMessages fc.2)) (range (lsRecordedChans kv.2)))).
  2:{ intros r [pid ls]. simpl. rewrite for_range_foldl. apply foldl_andb. intros r' [from cs].
      simpl. apply foldl_andb. intros. apply verify_message_flag. }
  simpl. rewrite forallb_forall. setoid_rewrite forallb_forall. setoid_rewrite forallb_forall.
  setoid_rewrite <- list_elem_of_In. split.
  - intros Hall pid ls from cs m Hls Hcs Hm. apply elem_of_range in Hls, Hcs.
    by eapply bool_decide_eq_true, (Hall _ Hls _ Hcs).
  - intros Hall [pid ls] Hls%elem_of_range [from cs] Hcs%elem_of_range m Hm. simpl in *.
    by eapply bool_decide_eq_true, Hall.
Qed.

Lemma Verify_spec gs :
  Consistent (Verify gs) = true ↔
  (∃ pid ls, gsLocalStates gs !! pid = Some ls ∧ lsFinalized ls = false) ∨
  ∀ pid ls from cs m, gsLocalStates gs !! pid = Some ls → lsRecordedChans ls !! from = Some cs →
    m ∈ csMessages cs → message_ok gs from m.
Proof.
  unfold Verify. rewrite for_range_foldl.
  rewrite (foldl_collect (λ kv : string * LocalSnapshot, negb (lsFinalized kv.2)) fst). simpl.
  rewrite length_fmap. destruct (filter _ _) as [|kv l] eqn:E; simpl.
  - rewrite verify_loops. split; [by right|]. intros [(pid & ls & Hls & Hf)|]; [|done].
    assert ((pid, ls) ∈ filter (λ kv : string * LocalSnapshot, negb (lsFinalized kv.2) = true)
      (range (gsLocalStates gs))) as Hin.
    { apply list_elem_of_filter. simpl. by rewrite Hf, elem_of_range. }
    rewrite E in Hin. set_solver.
  - split; [|done]. intros _. left.
    assert (kv ∈ filter (λ kv : string * LocalSnapshot, negb (lsFinalized kv.2) = true)
      (range (gsLocalStates gs))) as Hin by (rewrite E; left).
    apply list_elem_of_filter in Hin as [Hf Hin]. destruct kv as [pid ls]. apply elem_of_range in Hin.
    exists pid, ls. split; [done|]. by apply negb_true_iff.
Qed.

(** The verifier's verdict does not depend on the order in which Go visits
    its maps: a snapshot is declared consistent exactly when some local
    snapshot in it is not finalized, or every message recorded on a channel
    comes from a process that has a local snapshot with a state in it and
    whose captured counter, where both clocks are known, is at least the
    message's. *)
Theorem Verify_decides gs :
  Consistent (Verify gs) = true ↔
  (∃ pid ls, gsLocalStates gs !! pid = Some ls ∧ lsFinalized ls = false) ∨
  ∀ pid ls from cs m, gsLocalStates gs !! pid = Some ls → lsRecordedChans ls !! from = Some cs →
    m ∈ csMessages cs →
    ∃ sender, gsLocalStates gs !! from = Some sender ∧ lsLocalState sender ≠ LNil ∧
      ∀ senderVC clock, sSenderVC m = Some senderVC →
        vectorClockFromState (lsLocalState sender) = Some clock →
        (senderVC.[from] ≤ clock.[from])%N.
Proof. apply Verify_spec. Qed.

End verifier.

(** ** A concrete run: two processes, one message in transit *)
Module Demo.
Definition state (pid : string) (counter : N) : local_state :=
  LMap (Some {[pid := counter]}).
Definition c0 : SnapshotCoordinator :=
  RegisterProcess (RegisterProcess NewCoordinator "a" []) "b" ["a"].
Definition message : SMessage :=
  {| sID := "b-1"; sFrom := "b"; sTo := "a"; sData := Events.AString "x"; sIsMarker := false;
     sSnapshotID := ""; sSenderVC := Some {["b" := 1%N]} |}.
Definition late : SMessage :=
  {| sID := "b-2"; sFrom := "b"; sTo := "a"; sData := Events.AString "y"; sIsMarker := false;
     sSnapshotID := ""; sSenderVC := Some {["b" := 2%N]} |}.
Definition calls : list call :=
  [CallRecord "snap-1" "a" "b" message;
   CallMarker "b" "a" "snap-1" (state "b" 1) 2;
   CallMarker "a" "b" "snap-1" (state "a" 9) 3;
   CallRecord "snap-1" "a" "b" late].
End Demo.

Lemma demo_full_mesh : full_mesh Demo.c0.
Proof.
  split; [vm_compute; lia|]. apply meshed_register; [done| |apply meshed_register; [done| |apply meshed_new]].
  - intros p. unfold Demo.c0, RegisterProcess. simpl. rewrite map_lookup_imap.
    destruct (decide (p = "a")) as [->|Hp]; [split; [eauto|left]|].
    rewrite lookup_insert_ne by done. split; [set_solver|]. by intros [? ?].
  - intros p. split; [set_solver|]. by intros [? ?].
Qed.

Lemma demo_unused : unused (snapshot_id 1) Demo.c0.
Proof.
  split; [|by apply not_elem_of_nil]. intros q ps Hq.
  assert (map_Forall (λ _ ps, perSnap ps !! snapshot_id 1 = None) (procStates Demo.c0)) as Hall
    by (apply (bool_decide_unpack _); by vm_compute).
  by apply (Hall q).
Qed.

Lemma demo_id : snapshot_id 1 = "snap-1".
Proof. by vm_compute. Qed.

Lemma demo_marker_b : marker_arrives (snapshot_id 1) "a" "b" Demo.calls.
Proof. rewrite demo_id. exists (Demo.state "b" 1), 2%Z. right. left. Qed.

Lemma demo_marker_a : marker_arrives (snapshot_id 1) "b" "a" Demo.calls.
Proof. rewrite demo_id. exists (Demo.state "a" 9), 3%Z. right. right. left. Qed.

Lemma demo_transit_a :
  in_transit (Some (Demo.state "a" 3)) (arrivals (snapshot_id 1) "a" Demo.calls) "b" = [Demo.message].
Proof. by vm_compute. Qed.

Lemma demo_transit_b : in_transit None (arrivals (snapshot_id 1) "b" Demo.calls) "a" = [].
Proof. by vm_compute. Qed.

Lemma demo_members p : is_Some (procStates Demo.c0 !! p) → p = "a" ∨ p = "b".
Proof.
  intros Hp%elem_of_dom. assert (dom (procStates Demo.c0) = {["a"; "b"]}) as E by by vm_compute.
  rewrite E in Hp. set_solver.
Qed.

Lemma demo_not_restarted : Forall (not_restarted (snapshot_id 1)) Demo.calls.
Proof. by repeat constructor. Qed.


Lemma snapshot_cut_exact_witness :
  let r := canonical_range in
  let c' := snap_run (InitiateSnapshot Demo.c0 "a" 1 (λ _, Demo.state "a" 3)).1 Demo.calls in
  ∃ gs ls, GetSnapshot c' "snap-1" = Some gs ∧ gsLocalStates gs !! "a" = Some ls ∧
    Demo.state "a" 3 = lsLocalState ls ∧
    lsRecordedChans ls !! "b" =
      Some {| csFrom := "b"; csFinalized := true; csMessages := [Demo.message] |}.
Proof.
  intros r c'.
  destruct (snapshot_cut_exact Demo.c0 "a" 1 (λ _, Demo.state "a" 3) Demo.calls demo_full_mesh
    ltac:(vm_compute; eauto) demo_unused demo_not_restarted) as (gs & Hg & _ & _ & Hls & Hcut).
  destruct (proj2 (Hls "a")) as [ls Ha].
  - split; [vm_compute; eauto|]. intros p Hp Hne.
    destruct (demo_members p Hp) as [->| ->]; [destruct (Hne eq_refl)|apply demo_marker_a].
  - exists gs, ls. destruct (Hcut "a" ls Ha) as [Hcap Hch].
    split; [exact Hg|]. split; [exact Ha|]. split; [by injection Hcap|].
    apply (Hch "b"); [vm_compute; eauto|done].
Defined.


(** The verdict on a snapshot that is still in progress: the first process to
    finish reports a message from a process that has captured its state but
    not finished, so [LocalStates] has no entry for the sender (the
    coordinator only ever stores finalized entries), and [Verify] answers
    inconsistent; once everyone has reported it answers consistent. *)
Example verify_rejects_in_progress :
  let r := canonical_range in
  let c := RegisterProcess Demo.c0 "c" ["a"; "b"] in
  let c1 := (InitiateSnapshot c "a" 1 (λ _, Demo.state "a" 3)).1 in
  let c2 := snap_run c1
    [CallRecord "snap-1" "a" "b" Demo.message;
     CallMarker "b" "a" "snap-1" (Demo.state "b" 1) 2; CallMarker "c" "a" "snap-1" (Demo.state "c" 1) 3;
     CallMarker "a" "b" "snap-1" LOther 4; CallMarker "a" "c" "snap-1" LOther 5] in
  let c3 := snap_run c2
    [CallMarker "b" "c" "snap-1" LOther 6; CallMarker "c" "b" "snap-1" LOther 7] in
  (λ gs, (IsDone gs, Consistent (Verify gs))) <$> GetSnapshot c2 "snap-1" = Some (false, false) ∧
  (λ gs, (IsDone gs, Consistent (Verify gs))) <$> GetSnapshot c3 "snap-1" = Some (true, true).
Proof. vm_compute. done. Qed.

(** Deregistering the process everyone is waiting for does not complete the
    snapshot: [DeregisterProcess] updates the peer lists and nothing checks
    again, and no marker is left to arrive. *)
Example deregister_leaves_snapshot_open :
  let r := canonical_range in
  let c := RegisterProcess Demo.c0 "c" ["a"; "b"] in
  let c1 := (InitiateSnapshot c "a" 1 (λ _, Demo.state "a" 3)).1 in
  let c2 := snap_run c1
    [CallMarker "b" "a" "snap-1" (Demo.state "b" 1) 2; CallMarker "a" "b" "snap-1" LOther 3] in
  IsDone <$> GetSnapshot (DeregisterProcess c2 "c") "snap-1" = Some false ∧
  peers_of (DeregisterProcess c2 "c") "a" = ["b"] ∧
  GetActiveSnapshotIDs (DeregisterProcess c2 "c") "a" = ["snap-1"].
Proof. vm_compute. done. Qed.
