(* ===== verification/Simulation.v ===== *)
(** * The simulation (src/internal/simulation/simulation.go)

    The orchestrator: it owns the processes, the transport between them, the
    event bus, the snapshot coordinator and the causal graph, and wires them
    together.  The file models every operation on the composed state and each
    goroutine (forwarding, processes, bus, graph) as one step. *)
From Stdlib Require Import Ascii.
From stdpp Require Import gmap strings list pretty.
From S2P Require Import Prelude Lamport Matrix VClock Causality Events Snapshot HoldBack Process.
From S2P Require Import Transport.

(** ** Data *)

(** [type SimConfig struct]. *)
Record SimConfig := { scClockType : string; scDeliveryMode : string; scChannels : string }.

(** What the processes' callbacks act on: the transport and the coordinator. *)
Record Net := { transport : SimTransport; coordinator : SnapshotCoordinator }.

Definition set_transport (n : Net) (t : SimTransport) : Net :=
  {| transport := t; coordinator := coordinator n |}.
Definition set_coordinator (n : Net) (c : SnapshotCoordinator) : Net :=
  {| transport := transport n; coordinator := c |}.

(** [xport.Send]. *)
#[export] Instance net_transport : Process.Transport Net := λ n from to m,
  let '(t, err) := Transport.Send (transport n) from to m in (set_transport n t, err).

(** [type Simulation struct].  [retired] holds the killed processes that the
    delivery functions of the transport still refer to; [handoff] the message
    that the forwarding goroutine of a channel has taken and is about to
    deliver; [cgCh] the bus channel of the causal graph's goroutine and
    [cgLive] whether it runs.  [eventCount] is never written. *)
Record Simulation := {
  processes : gmap string Process;
  retired : gmap string Process;
  world : World Net;
  config : SimConfig;
  eventCount : Z;
  causalGraph : CausalGraph;
  cgCh : nat;
  cgLive : bool;
  handoff : gmap (string * string) Message
}.

(** [type SimulationState struct]. *)
Record SimulationState := {
  stProcesses : list ProcessState;
  stEventCount : Z;
  stConfig : SimConfig
}.

(** Field updates. *)
Definition set_procs (s : Simulation) ps rt w := {| processes := ps; retired := rt; world := w;
  config := config s; eventCount := eventCount s; causalGraph := causalGraph s; cgCh := cgCh s;
  cgLive := cgLive s; handoff := handoff s |}.
Definition set_world (s : Simulation) w := set_procs s (processes s) (retired s) w.
Definition set_config (s : Simulation) c := {| processes := processes s; retired := retired s;
  world := world s; config := c; eventCount := eventCount s; causalGraph := causalGraph s;
  cgCh := cgCh s; cgLive := cgLive s; handoff := handoff s |}.
Definition set_graph (s : Simulation) w g lv := {| processes := processes s; retired := retired s;
  world := w; config := config s; eventCount := eventCount s; causalGraph := g; cgCh := cgCh s;
  cgLive := lv; handoff := handoff s |}.
Definition set_handoff (s : Simulation) w h := {| processes := processes s; retired := retired s;
  world := w; config := config s; eventCount := eventCount s; causalGraph := causalGraph s;
  cgCh := cgCh s; cgLive := cgLive s; handoff := h |}.

Definition set_bus {X} (w : World X) (b : EventBus) : World X :=
  {| bus := b; net := net w; reads := reads w; trail := trail w |}.
Definition on_transport (w : World Net) (f : SimTransport → SimTransport) : World Net :=
  set_net w (set_transport (net w) (f (transport (net w)))).

(** ** The wiring *)

(** The marker message. *)
Definition marker_message (from to snapshotID : string) : Message :=
  {| ID := "marker-" +:+ snapshotID +:+ "-" +:+ from +:+ "-" +:+ to; From := from; To := to;
     Data := ANil; SentVC := ∅; SentMatrix := ∅; SentLC := 0; SentAt := 0; IsMarker := true;
     SnapshotID := snapshotID |}.

(** An event about a snapshot, as the callbacks publish it. *)
Definition snapshot_event (t : EventType) (pid : string) (gseq : N) (p : SnapshotPayload) : Events.Event :=
  {| evID := ""; evType := t; evProcessID := pid; evTimestamp := 0; evLocalSeq := 0;
     evGlobalSeq := gseq; evLamportClock := None; evVectorClock := None; evMatrixClock := None;
     evMessage := None; evSnapshot := Some p; evConflict := None; evNarration := "" |}.

Definition publish_snapshot (w : World Net) (t : EventType) (pid : string) (p : SnapshotPayload) :
    World Net :=
  let '(b, gseq) := NextSeq (bus w) in
  publish_event w b (snapshot_event t pid gseq p).

(** The callbacks given to [snapshot.NewCoordinator]. *)
Definition callback (w : World Net) (o : output) : World Net :=
  match o with
  | SendMarker from to snapshotID =>
      let '(w, _) := transmit w (marker_message from to snapshotID) in
      publish_snapshot w EvtMarkerSent from
        {| spSnapshotID := snapshotID; spProcessID := from; spComplete := false |}
  | Complete snapshotID =>
      publish_snapshot w EvtSnapshotComplete ""
        {| spSnapshotID := snapshotID; spProcessID := ""; spComplete := true |}
  end.

(** A call of the coordinator with the callbacks it makes. *)
Definition coord_call (w : World Net) (f : SnapshotCoordinator → SnapshotCoordinator) : World Net :=
  let c := f (coordinator (net w)) in
  let silent := {| snapshots := snapshots c; procStates := procStates c; outputs := [] |} in
  foldl callback (set_net w (set_coordinator (net w) silent)) (outputs c).

Section ops.
Context `{MapRange} (now : nat → Z).

(** [p.OnMarker]. *)
Definition OnMarker (pid : string) (from snapshotID : string) (localState : ProcessState)
    (w : World Net) : World Net :=
  let '(w, ts) := time_Now now w in
  coord_call w (λ c, OnMarkerReceived c pid from snapshotID (LProcess localState) ts).

Definition New (c : SimConfig) : Simulation :=
  let c := if bool_decide (scChannels c ≠ "") && bool_decide (scChannels c ≠ "full_mesh")
           then {| scClockType := scClockType c; scDeliveryMode := scDeliveryMode c;
                   scChannels := "full_mesh" |} else c in
  let '(b, ch) := Subscribe NewEventBus [EvtSend; EvtReceive; EvtInternalEvent] in
  {| processes := ∅; retired := ∅;
     world := {| bus := b; net := {| transport := NewSimTransport; coordinator := NewCoordinator |};
                 reads := 0; trail := [] |};
     config := c; eventCount := 0; causalGraph := NewCausalGraph; cgCh := ch; cgLive := true;
     handoff := ∅ |}.

(** One event in [handleCausalGraphEvents]. *)
Definition graph_event (e : Events.Event) : Causality.Event :=
  let msgID := match evMessage e with Some m => mpID m | None => "" end in
  let '(t, mid) :=
    if bool_decide (evType e = EvtInternalEvent) then (EventInternal, "")
    else if bool_decide (evType e = EvtSend) then (EventSend, msgID)
    else if bool_decide (evType e = EvtReceive) then (EventReceive, msgID)
    else ("", "") in
  {| Causality.ID := evID e; Causality.ProcessID := evProcessID e; Causality.LocalSeq := evLocalSeq e;
     Causality.Type_ := t; Causality.MessageID := mid |}.

Definition graph_step (g : CausalGraph) (e : Events.Event) : CausalGraph :=
  let g := AddEvent g (graph_event e) in
  match evMessage e with
  | Some m =>
      if bool_decide (evType e = EvtReceive) && negb (mpIsMarker m)
      then AddEdge g (mpID m +:+ "-send") (evID e) else g
  | None => g
  end.

(** One round of its goroutine; when the bus is stopped the [select] may take
    either branch. *)
Definition handleCausalGraphEvents (s : Simulation) (quit : bool) : Simulation :=
  if negb (cgLive s) then s
  else if done (bus (world s)) && quit then set_graph s (world s) (causalGraph s) false
  else match Recv (bus (world s)) (cgCh s) with
       | (b, Some e) => set_graph s (set_bus (world s) b) (graph_step (causalGraph s) e) true
       | (_, None) => s
       end.

(** ** Processes *)

Definition keys_of {V} (m : gmap string V) : list string := for_range m (λ k _ acc, acc ++ [k]) [].

(** The rest of [SpawnProcess], once the checks have passed. *)
Definition spawn (s : Simulation) (c : ProcessConfig) : Simulation :=
  let pid := cfgID c in
  let c := {| cfgID := pid;
    cfgClockType := if bool_decide (cfgClockType c = "") then scClockType (config s) else cfgClockType c;
    cfgDeliveryMode := if bool_decide (cfgDeliveryMode c = "") then scDeliveryMode (config s)
                       else cfgDeliveryMode c;
    cfgPeers := cfgPeers c;
    cfgAllPIDs := keys_of (processes s) ++ [pid] |} in
  let p := Process.New c in
  let procs := <[pid := p]> (processes s) in
  let w := on_transport (world s) (λ t, Transport.RegisterProcess t pid) in
  let w := on_transport w (λ t, for_range procs (λ q _ t,
    if bool_decide (q = pid) then t
    else Transport.RegisterChannel (Transport.RegisterChannel t pid q) q pid) t) in
  let peers := filter (λ q, q ≠ pid) (keys_of procs) in
  let w := coord_call w (λ co, Snapshot.RegisterProcess co pid peers) in
  let procs := map_imap (λ q ep, Some (if bool_decide (q = pid) then ep else AddPeer ep pid)) procs in
  let '(p, w) := Process.Start now p w in
  set_procs s (<[pid := p]> procs) (delete pid (retired s)) w.

Definition SpawnProcess (s : Simulation) (c : ProcessConfig) : Simulation * option string :=
  if bool_decide (cfgID c = "") then (s, Some "process id is required")
  else if 64 <? String.length (cfgID c) then (s, Some "process id too long")
  else match processes s !! cfgID c with
  | Some _ => (s, Some ("process " +:+ cfgID c +:+ " already exists"))
  | None =>
      if MaxSimulationProcesses <=? size (processes s)
      then (s, Some ("process limit reached (max " +:+ pretty (N.of_nat MaxSimulationProcesses) +:+
                     "); reset simulation to add more"))
      else (spawn s c, None)
  end.

Definition not_found (pid : string) : string := "process " +:+ pid +:+ " not found".

Definition KillProcess (s : Simulation) (id : string) : Simulation * option string :=
  match processes s !! id with
  | None => (s, Some (not_found id))
  | Some p =>
      let w := coord_call (world s) (λ c, DeregisterProcess c id) in
      let '(p, w) := Process.Stop now p w in
      (set_procs s (delete id (processes s)) (<[id := p]> (retired s)) w, None)
  end.

Definition SendMessage (s : Simulation) (from to : string) (data : any) : Simulation * option string :=
  match processes s !! from with
  | None => (s, Some (not_found from))
  | Some p =>
      let '(p, w, err) := Process.Send now p (world s) to data in
      (set_procs s (<[from := p]> (processes s)) (retired s) w, err)
  end.

Definition BroadcastMessage (s : Simulation) (from : string) (data : any) : Simulation * option string :=
  match processes s !! from with
  | None => (s, Some (not_found from))
  | Some p =>
      let '(p, w, err) := Process.Broadcast now p (world s) data in
      (set_procs s (<[from := p]> (processes s)) (retired s) w, err)
  end.

Definition InternalEvent (s : Simulation) (pid : string) : Simulation * option string :=
  match processes s !! pid with
  | None => (s, Some (not_found pid))
  | Some p =>
      let '(p, w) := Process.InternalEvent now p (world s) in
      (set_procs s (<[pid := p]> (processes s)) (retired s) w, None)
  end.

(** The state a snapshot starts from. *)
Definition capture_state (s : Simulation) (pid : string) : local_state :=
  match processes s !! pid with Some p => LProcess (Process.Snapshot p) | None => LNil end.

(** The snapshot id, or the error. *)
Definition TriggerSnapshot (s : Simulation) (initiatorID : string) : Simulation * (string + string) :=
  match processes s !! initiatorID with
  | None => (s, inr (not_found initiatorID))
  | Some _ =>
      let '(w, ts) := time_Now now (world s) in
      let res := (InitiateSnapshot (coordinator (net w)) initiatorID ts (capture_state s)).2 in
      let w := coord_call w (λ c, (InitiateSnapshot c initiatorID ts (capture_state s)).1) in
      match res with
      | None => (set_world s w, inr ("snapshot: process " +:+ initiatorID +:+ " not registered"))
      | Some snapID =>
          (set_world s (publish_snapshot w EvtSnapshotStart initiatorID
             {| spSnapshotID := snapID; spProcessID := initiatorID; spComplete := false |}),
           inl snapID)
      end
  end.

Definition GetSnapshot (s : Simulation) (snapID : string) : option GlobalSnapshot :=
  Snapshot.GetSnapshot (coordinator (net (world s))) snapID.

Definition GetState (s : Simulation) : SimulationState :=
  {| stProcesses := for_range (processes s) (λ _ p acc, acc ++ [Process.Snapshot p]) [];
     stEventCount := eventCount s; stConfig := config s |}.

Definition GetProcess (s : Simulation) (pid : string) : option Process := processes s !! pid.

(** [time.Duration(delayMs) * time.Millisecond], an [int64]. *)
Definition millis (delayMs : Z) : Z :=
  ((delayMs * 1000000 + 9223372036854775808) mod 18446744073709551616 - 9223372036854775808)%Z.

Definition InjectDelay (s : Simulation) (from to : string) (delayMs : Z) : Simulation :=
  set_world s (on_transport (world s) (λ t, Transport.InjectDelay t from to (millis delayMs))).

Definition InjectDrop (s : Simulation) (from to : string) : Simulation :=
  set_world s (on_transport (world s) (λ t, Transport.InjectDrop t from to)).

Definition SetPartition (s : Simulation) (groups : list (list string)) : Simulation :=
  set_world s (on_transport (world s) (λ t, Transport.SetPartition t groups)).

Definition SetDeliveryMode (s : Simulation) (mode : string) : Simulation :=
  set_procs (set_config s {| scClockType := scClockType (config s); scDeliveryMode := mode;
                             scChannels := scChannels (config s) |})
    ((λ p, Process.SetDeliveryMode p mode) <$> processes s) (retired s) (world s).

(** [Stop]: the processes are stopped one after the other. *)
Definition Stop (s : Simulation) : Simulation :=
  let '(procs, w) := for_range (processes s) (λ pid p '(procs, w),
    let '(p, w) := Process.Stop now p w in (<[pid := p]> procs, w)) (processes s, world s) in
  let w := set_bus w (Events.Stop (bus w)) in
  set_procs s procs (retired s) (on_transport w Transport.Close).

(** ** The goroutines *)

(** The message a snapshot keeps. *)
Definition snapshot_message (m : Message) : SMessage :=
  {| sID := ID m; sFrom := From m; sTo := To m; sData := Data m; sIsMarker := false;
     sSnapshotID := ""; sSenderVC := Some (VClock.Copy (SentVC m)) |}.

(** The function registered with the transport, up to [p.Deliver]: the
    message is recorded for every active snapshot of the receiver. *)
Definition record_arrival (pid : string) (m : Message) (w : World Net) : World Net :=
  if IsMarker m then w
  else foldl (λ w snapID, coord_call w (λ c, RecordMessage c snapID pid (From m) (snapshot_message m)))
         w (GetActiveSnapshotIDs (coordinator (net w)) pid).

(** The forwarding goroutine of a channel takes a message and records it... *)
Definition forward_step (s : Simulation) (key : string * string) (quit : bool) : Simulation :=
  match handoff s !! key with
  | Some _ => s
  | None =>
      match Transport.forward (transport (net (world s))) key quit with
      | (t, Some m) =>
          set_handoff s (record_arrival key.2 m (set_net (world s) (set_transport (net (world s)) t)))
            (<[key := m]> (handoff s))
      | (t, None) => set_world s (set_net (world s) (set_transport (net (world s)) t))
      end
  end.

(** The process a delivery function refers to, and its update. *)
Definition object (s : Simulation) (pid : string) : option Process :=
  match processes s !! pid with Some p => Some p | None => retired s !! pid end.
Definition set_object (s : Simulation) (pid : string) (p : Process) (w : World Net) : Simulation :=
  match processes s !! pid with
  | Some _ => set_procs s (<[pid := p]> (processes s)) (retired s) w
  | None => set_procs s (processes s) (<[pid := p]> (retired s)) w
  end.

(** ... and then hands it to the process, which may block. *)
Definition deliver_step (s : Simulation) (key : string * string) (drop : bool) : Simulation :=
  match handoff s !! key, object s key.2 with
  | Some m, Some p =>
      match Process.Deliver p m drop with
      | Some p => let s := set_object s key.2 p (world s) in
                  set_handoff s (world s) (delete key (handoff s))
      | None => s
      end
  | _, _ => s
  end.

(** The goroutine of a process handles its next message; a process that has
    been stopped may still do so before it sees that. *)
Definition process_step (s : Simulation) (pid : string) : Simulation :=
  match object s pid with
  | Some p =>
      match inbound p with
      | m :: q =>
          let '(p, w) := handleMessage now (Some (OnMarker pid)) (set_queues p q (hbq p)) (world s) m in
          set_object s pid p w
      | [] => s
      end
  | None => s
  end.

(** A timer of the transport, and a round of the bus. *)
Definition timer_step (s : Simulation) (i : nat) : Simulation :=
  set_world s (on_transport (world s) (λ t, default t (fire_delayed t i))).
Definition bus_step (s : Simulation) (quit : bool) : Simulation :=
  set_world s (set_bus (world s) (Events.loop (bus (world s)) quit)).
End ops.

(** ** Runs *)

(** A call of the simulation or a round of one of its goroutines. *)
Inductive sim_op :=
  | OSpawn (c : ProcessConfig)
  | OKill (id : string)
  | OSend (from to : string) (data : any)
  | OBroadcast (from : string) (data : any)
  | OInternal (pid : string)
  | OTrigger (initiatorID : string)
  | ODelay (from to : string) (delayMs : Z)
  | ODrop (from to : string)
  | OPartition (groups : list (list string))
  | OReorder (from to : string)
  | OClearFaults
  | OMode (mode : string)
  | OStop
  | OForward (key : string * string) (quit : bool)
  | ODeliver (key : string * string) (drop : bool)
  | OProcess (pid : string)
  | OTimer (i : nat)
  | OBus (quit : bool)
  | OGraph (quit : bool).

Definition sim_exec `{MapRange} (now : nat → Z) (s : Simulation) (op : sim_op) : Simulation :=
  match op with
  | OSpawn c => (SpawnProcess now s c).1
  | OKill id => (KillProcess now s id).1
  | OSend from to data => (SendMessage now s from to data).1
  | OBroadcast from data => (BroadcastMessage now s from data).1
  | OInternal pid => (InternalEvent now s pid).1
  | OTrigger i => (TriggerSnapshot now s i).1
  | ODelay from to ms => InjectDelay s from to ms
  | ODrop from to => InjectDrop s from to
  | OPartition groups => SetPartition s groups
  | OReorder from to => set_world s (on_transport (world s) (λ t, Transport.InjectReorder t from to))
  | OClearFaults => set_world s (on_transport (world s) Transport.ClearFaults)
  | OMode mode => SetDeliveryMode s mode
  | OStop => Stop now s
  | OForward key quit => forward_step s key quit
  | ODeliver key drop => deliver_step s key drop
  | OProcess pid => process_step now s pid
  | OTimer i => timer_step s i
  | OBus quit => bus_step s quit
  | OGraph quit => handleCausalGraphEvents s quit
  end.

Definition sim_run `{MapRange} (now : nat → Z) (s : Simulation) (ops : list sim_op) : Simulation :=
  foldl (sim_exec now) s ops.

(** ** Names *)

Fixpoint last_char (s : string) : option Ascii.ascii :=
  match s with
  | EmptyString => None
  | String c EmptyString => Some c
  | String _ s => last_char s
  end.

Lemma last_char_cons c s : s ≠ "" → last_char (String c s) = last_char s.
Proof. by destruct s. Qed.

Lemma last_char_app s t : t ≠ "" → last_char (s +:+ t) = last_char t.
Proof.
  intros Ht. induction s as [|c s IH]; [done|]. change (String c s +:+ t) with (String c (s +:+ t)).
  rewrite last_char_cons; [done|]. destruct s; [by destruct t|done].
Qed.

Lemma last_char_pretty_go x s : s ≠ "" → last_char (pretty_N_go x s) = last_char s.
Proof.
  revert s. induction (N.lt_wf_0 x) as [x _ IH]; intros s Hs.
  destruct (decide (0 < x)%N) as [Hx|Hx].
  - rewrite pretty_N_go_step by done. rewrite IH by (done || (apply N.div_lt; lia)).
    by apply last_char_cons.
  - replace x with 0%N by lia. by rewrite pretty_N_go_0.
Qed.

Lemma last_char_pretty (n : N) : last_char (pretty n) ≠ Some "d"%char ∧ (pretty n : string) ≠ "".
Proof.
  assert (∀ m, pretty_N_char m ≠ "d"%char) as Hdigit by (intros m; unfold pretty_N_char; by repeat case_match).
  assert (last_char (pretty n) ≠ Some "d"%char ∧ last_char (pretty n) ≠ None) as [H1 H2].
  { unfold pretty, pretty_N. case_decide; [by split; intros [=]|]. rewrite pretty_N_go_step by lia.
    rewrite last_char_pretty_go by done. simpl. split; [|done]. intros [= E]. by apply (Hdigit (n `mod` 10)%N). }
  split; [done|]. intros E. by rewrite E in H2.
Qed.

(** An event id never ends like the name of a send node. *)
Lemma event_id_not_send pid seq m : event_id pid seq ≠ m +:+ "-send".
Proof.
  intros E. apply (f_equal last_char) in E. unfold event_id in E.
  destruct (last_char_pretty seq) as [Hd Hne].
  rewrite (last_char_app pid), (last_char_app "-e"), (last_char_app m) in E; done.
Qed.

(** ** The events on the bus *)

(** No event has the id of a send node of the causal graph. *)
Definition plain_event (e : Events.Event) : Prop := ∀ m, evID e ≠ m +:+ "-send".

Definition bus_ok (b : EventBus) : Prop :=
  Forall plain_event (Events.publish b) ∧
  ∀ ch q, chans b !! ch = Some q → Forall plain_event q.

Lemma Publish_ok b e : plain_event e → bus_ok b → bus_ok (Publish b e).
Proof.
  intros He [Hp Hc]. unfold Publish. destruct (_ <? _).
  - split; simpl; [|done]. apply Forall_app. split; [done|by constructor].
  - destruct (_ <=? _)%N; by split.
Qed.

Lemma Recv_ok b ch : bus_ok b → bus_ok (Recv b ch).1 ∧ ∀ e, (Recv b ch).2 = Some e → plain_event e.
Proof.
  intros [Hp Hc]. unfold Recv. destruct (chans b !! ch) as [[|e q]|] eqn:E; simpl; try done.
  pose proof (Hc ch _ E) as [He Hq]%Forall_cons. split; [|by intros ? [= <-]].
  split; [done|]. intros ch' q'. simpl. destruct (decide (ch' = ch)) as [->|].
  - rewrite lookup_insert_eq. by intros [= <-].
  - rewrite lookup_insert_ne by done. apply Hc.
Qed.

Lemma loop_ok `{MapRange} b quit : bus_ok b → bus_ok (Events.loop b quit).
Proof.
  intros [Hp Hc]. unfold Events.loop. destruct (negb _); [by split|]. destruct (_ && _); [by split|].
  destruct (Events.publish b) as [|e q] eqn:Eb; [split; [by rewrite Eb|done]|]. apply Forall_cons in Hp as [He Hq].
  split; [exact Hq|]. simpl. rewrite for_range_foldl.
  apply (foldl_inv (λ cs, ∀ ch q, cs !! ch = Some q → Forall plain_event q) (λ _, True));
    [|by apply Forall_true|exact Hc].
  intros cs [ch types] _ Hcs. simpl. destruct (_ || _); [|done]. unfold offer.
  destruct (cs !! ch) as [q'|] eqn:E; [|done]. destruct (_ <? _); [|done].
  intros ch' q''. destruct (decide (ch' = ch)) as [->|].
  - rewrite lookup_insert_eq. intros [= <-]. apply Forall_app. split; [by eapply Hcs|by constructor].
  - rewrite lookup_insert_ne by done. apply Hcs.
Qed.

(** What every operation of a simulation does to its bus: the events stay
    proper, a stopped bus stays stopped and the subscriptions stay. *)
Record bus_le (b b' : EventBus) : Prop := {
  bl_ok : bus_ok b → bus_ok b';
  bl_done : done b = true → done b' = true;
  bl_subs : subs b' = subs b
}.

#[export] Instance bus_le_preorder : PreOrder bus_le.
Proof. split; [by split|]. intros b1 b2 b3 [] []. split; [auto|auto|congruence]. Qed.

Lemma publish_only_le b e : plain_event e → bus_le b (Publish b e).
Proof.
  intros He. split; [intros Hb; by apply Publish_ok| |]; unfold Publish; destruct (_ <? _); try done;
    by destruct (_ <=? _)%N.
Qed.

Lemma publish_le b e : plain_event e → bus_le b (Publish (NextSeq b).1 e).
Proof. intros He. etrans; [|by apply publish_only_le]. by split. Qed.

(** An event without an id. *)
Lemma nameless_plain e : evID e = "" → plain_event e.
Proof. intros E m. rewrite E. intros E'%(f_equal last_char). by rewrite last_char_app in E'. Qed.

Lemma recv_le b ch : bus_le b (Recv b ch).1.
Proof. split; [apply Recv_ok| |]; unfold Recv; by destruct (chans b !! ch) as [[|??]|]. Qed.

Lemma loop_le `{MapRange} b quit : bus_le b (Events.loop b quit).
Proof.
  split; [apply loop_ok| |]; unfold Events.loop; destruct (negb _); try done; destruct (_ && _); try done;
    by destruct (Events.publish b).
Qed.

(** ** Membership *)

(** The part of the net that only spawning and killing change: the peer lists
    of the coordinator stay, channels and registrations are never removed, and
    the coordinator has no callback left to make. *)
Definition peers_at (n : Net) (q : string) : option (list string) :=
  peers <$> procStates (coordinator n) !! q.

Record net_le (n n' : Net) : Prop := {
  nl_peers q : peers_at n' q = peers_at n q;
  nl_channels k : is_Some (channels (transport n) !! k) → is_Some (channels (transport n') !! k);
  nl_deliver q : q ∈ deliver (transport n) → q ∈ deliver (transport n');
  nl_outputs : outputs (coordinator n) = [] → outputs (coordinator n') = []
}.

#[export] Instance net_le_preorder : PreOrder net_le.
Proof.
  split.
  - intros n. by split.
  - intros n1 n2 n3 [] []. split; [congruence|auto|auto|auto].
Qed.

(** The coordinator's calls keep the peer lists. *)
Definition keeps_peers (c c' : SnapshotCoordinator) : Prop :=
  ∀ q, peers <$> procStates c' !! q = peers <$> procStates c !! q.

Lemma set_state_peers c pid s ps st :
  procStates c !! pid = Some ps → keeps_peers c (set_state c pid s ps st).
Proof.
  intros Hps q. simpl. destruct (decide (q = pid)) as [->|].
  - by rewrite lookup_insert_eq, Hps.
  - by rewrite lookup_insert_ne.
Qed.

Lemma keeps_peers_trans c c' c'' : keeps_peers c c' → keeps_peers c' c'' → keeps_peers c c''.
Proof. intros H1 H2 q. by rewrite H2, H1. Qed.

Lemma transport_send_le t from to m :
  (∀ k, is_Some (channels t !! k) → is_Some (channels (Transport.Send t from to m).1 !! k)) ∧
  deliver (Transport.Send t from to m).1 = deliver t.
Proof.
  assert (∀ t' k' m', (∀ k, is_Some (channels t' !! k) →
      is_Some (channels (sendToChannel t' k' m').1 !! k)) ∧
      deliver (sendToChannel t' k' m').1 = deliver t') as Hs.
  { intros t' k' m'. unfold sendToChannel. destruct (closed t'); [done|].
    destruct (_ <? _); [|done]. simpl. split; [|done]. intros k Hk.
    destruct (decide (k = k')) as [->|]; [rewrite lookup_insert_eq; eauto|by rewrite lookup_insert_ne]. }
  unfold Transport.Send. destruct (closed t); [done|]. destruct (channels t !! (from, to)); [|done].
  repeat case_match; try done; simpl;
    repeat match goal with
    | E : sendToChannel ?t' ?k' ?m' = _ |- _ =>
        let H1 := fresh in let H2 := fresh in
        destruct (Hs t' k' m') as [H1 H2]; rewrite E in H1, H2; clear E; simpl in H1, H2
    end; try (by apply Hs).
  all: try match goal with |- context [sendToChannel ?t' ?k' ?m'] => destruct (Hs t' k' m') end.
  all: split; [by auto|congruence].
Qed.

(** The world after an operation: its net is extended and its bus stays
    proper. *)
Record world_le (w w' : World Net) : Prop := {
  wl_net : net_le (net w) (net w');
  wl_bus : bus_le (bus w) (bus w')
}.

#[export] Instance world_le_preorder : PreOrder world_le.
Proof.
  split; [by split|]. intros w1 w2 w3 [] []. split; by etrans.
Qed.

Lemma world_le_net (w w' : World Net) : bus w' = bus w → net_le (net w) (net w') → world_le w w'.
Proof. intros E Hle. split; [done|by rewrite E]. Qed.

Section membership.
Context `{MapRange} (now : nat → Z).

Lemma transmit_le (w : World Net) m : world_le w (transmit w m).1.
Proof.
  unfold transmit, xport_Send, net_transport.
  destruct (transport_send_le (transport (net w)) (From m) (To m) m) as [H1 H2].
  destruct (Transport.Send _ _ _ _) as [t err]. simpl in *. apply world_le_net; [done|].
  split; simpl; try done. by rewrite H2.
Qed.

Lemma publish_snapshot_le w t pid p : world_le w (publish_snapshot w t pid p).
Proof.
  split; [done|]. by apply publish_le, nameless_plain.
Qed.

Lemma callback_le w o : world_le w (callback w o).
Proof.
  destruct o as [from to sid|sid]; simpl; [|apply publish_snapshot_le].
  pose proof (transmit_le w (marker_message from to sid)) as Hle. destruct (transmit _ _).
  etrans; [exact Hle|]. apply publish_snapshot_le.
Qed.

Lemma callbacks_le w os : world_le w (foldl callback w os).
Proof.
  revert w. induction os as [|o os IH]; intros w; [done|]. simpl. etrans; [apply callback_le|apply IH].
Qed.

Lemma coord_call_spec w f :
  let n := net w in let n' := net (coord_call w f) in
  (∀ q, peers_at n' q = peers <$> procStates (f (coordinator n)) !! q) ∧
  (∀ k, is_Some (channels (transport n) !! k) → is_Some (channels (transport n') !! k)) ∧
  (∀ q, q ∈ deliver (transport n) → q ∈ deliver (transport n')) ∧
  outputs (coordinator n') = [] ∧
  bus_le (bus w) (bus (coord_call w f)).
Proof.
  unfold coord_call. destruct (callbacks_le (set_net w (set_coordinator (net w)
    {| snapshots := snapshots (f (coordinator (net w)));
       procStates := procStates (f (coordinator (net w))); outputs := [] |}))
    (outputs (f (coordinator (net w))))) as [[Hp Hc Hd Ho] Hb].
  split_and!; [exact Hp|exact Hc|exact Hd|by apply Ho|exact Hb].
Qed.

Lemma coord_call_le w f : (∀ c, keeps_peers c (f c)) → world_le w (coord_call w f).
Proof.
  intros Hf. destruct (coord_call_spec w f) as (Hp & Hc & Hd & Ho & Hb).
  split; [|exact Hb]. split; [|done|done|done]. intros q. rewrite Hp. apply Hf.
Qed.

Lemma checkFinalized_peers c s pid t : keeps_peers c (checkFinalized c s pid t).
Proof.
  unfold checkFinalized. destruct (procStates c !! pid) as [ps|] eqn:Hps; [|done].
  destruct (perSnap ps !! s); [|done]. destruct (_ && _); [done|].
  match goal with |- context [set_state c pid s ps ?st] => pose proof (set_state_peers c pid s ps st Hps) as Hk end.
  destruct (snapshots _ !! s); [|done]. by destruct (IsComplete _ _).
Qed.

Lemma OnMarkerReceived_peers c pid from s st t : keeps_peers c (OnMarkerReceived c pid from s st t).
Proof.
  unfold OnMarkerReceived. destruct (procStates c !! pid) as [ps|] eqn:Hps; [|done].
  destruct (role _); (eapply keeps_peers_trans; [|try apply checkFinalized_peers]).
  all: try (apply set_state_peers, Hps). done.
Qed.

Lemma RecordMessage_peers c s pid from m : keeps_peers c (RecordMessage c s pid from m).
Proof.
  unfold RecordMessage. destruct (procStates c !! pid) as [ps|] eqn:Hps; [|done].
  repeat (case_match; try done). by apply set_state_peers.
Qed.

Lemma InitiateSnapshot_peers c i t cap : keeps_peers c (InitiateSnapshot c i t cap).1.
Proof.
  unfold InitiateSnapshot. simpl. destruct (procStates c !! i) as [ps|] eqn:Hps; simpl; [|done].
  by apply (set_state_peers (set_snapshots c _)).
Qed.

(** The operations of a process keep its configuration and extend the world. *)
Definition pw_le (pw pw' : Process * World Net) : Prop :=
  cfg pw'.1 = cfg pw.1 ∧ world_le pw.2 pw'.2.

#[local] Instance pw_le_preorder : PreOrder pw_le.
Proof.
  split; [by intros [p w]|]. intros pw1 pw2 pw3 [E1 L1] [E2 L2]. split; [congruence|by etrans].
Qed.

Lemma emitted_le (w w' : World Net) e pid seq :
  net w' = net w → bus w' = Publish (NextSeq (bus w)).1 e → evID e = event_id pid seq → world_le w w'.
Proof.
  intros En Eb Eid. split; [by rewrite En|]. rewrite Eb. apply publish_le.
  intros m. rewrite Eid. apply event_id_not_send.
Qed.

Lemma emit_le p w t msg : pw_le (p, w) (emitEventLocked now (p, w) t msg).
Proof. split; [done|]. by eapply emitted_le. Qed.

Lemma prepare_le p w to data p' w' m :
  prepare now p w to data = (p', w', m) → pw_le (p, w) (p', w').
Proof.
  unfold prepare. pose proof (sendClock_cfg (set_seqs p (u64_succ (msgSeq p)) (localSeq p))) as Hcfg.
  destruct (sendClock _) as [p1 [[lc vc] mc]]. intros [= <- <- _]. split; [done|]. by eapply emitted_le.
Qed.

Lemma Send_le p w to data p' w' err :
  Process.Send now p w to data = (p', w', err) → pw_le (p, w) (p', w').
Proof.
  unfold Process.Send. destruct (prepare now p w to data) as [[p1 w1] m] eqn:E.
  destruct (transmit w1 m) as [w2 err2] eqn:Et. intros [= <- <- _]. etrans; [by eapply prepare_le|].
  split; [done|]. simpl. pose proof (transmit_le w1 m) as Hle. by rewrite Et in Hle.
Qed.

Lemma broadcast_le peers p w data p' w' err :
  broadcast_loop now peers p w data = (p', w', err) → pw_le (p, w) (p', w').
Proof.
  revert p w. induction peers as [|peer peers IH]; intros p w; simpl; [by intros [= <- <- _]|].
  destruct (Process.Send now p w peer data) as [[p1 w1] [e|]] eqn:E; apply Send_le in E.
  - by intros [= <- <- _].
  - intros Hb. etrans; [done|]. by eapply IH.
Qed.

Lemma time_le (w : World Net) : world_le w (time_Now now w).1.
Proof. by apply world_le_net. Qed.

Lemma OnMarker_le pid from s st w : world_le w (OnMarker now pid from s st w).
Proof.
  unfold OnMarker. etrans; [apply time_le|]. apply coord_call_le. intros c. apply OnMarkerReceived_peers.
Qed.

Lemma deliverCausal_le p w m : pw_le (p, w) (deliverCausal now p w m).
Proof.
  unfold deliverCausal. destruct (canDeliver _ _ _); [|split; [done|by eapply emitted_le]].
  destruct (causal_deliver now p w m) as [[p1 w1] ds] eqn:E.
  assert (pw_le (p, w) (p1, w1)) as H1.
  { unfold causal_deliver in E. simpl in E. destruct (TryDeliver _ _ _) as [[? ?] ?].
    injection E as <- <- <-. split; [done|by eapply emitted_le]. }
  etrans; [exact H1|]. clear. revert p1 w1. induction ds as [|d ds IH]; intros p1 w1; [done|].
  simpl. etrans; [|apply IH]. apply emit_le.
Qed.

Lemma handleMessage_le pid p w m :
  pw_le (p, w) (handleMessage now (Some (OnMarker now pid)) p w m).
Proof.
  unfold handleMessage. destruct (IsMarker m).
  - etrans; [|apply emit_le]. split; [done|apply OnMarker_le].
  - assert (pw_le (p, w) (deliverImmediate now p w m)) as Hi.
    { unfold deliverImmediate. etrans; [|apply emit_le]. split; [apply receiveClock_cfg|done]. }
    repeat case_bool_decide; first [exact Hi|apply deliverCausal_le].
Qed.

Lemma record_arrival_le pid m w : world_le w (record_arrival pid m w).
Proof.
  unfold record_arrival. destruct (IsMarker m); [done|].
  generalize (GetActiveSnapshotIDs (coordinator (net w)) pid). intros ids. revert w.
  induction ids as [|x ids IH]; intros w; [done|]. simpl. etrans; [|apply IH].
  apply coord_call_le. intros c. apply RecordMessage_peers.
Qed.

(** *** The invariant *)
Record sim_inv (s : Simulation) : Prop := {
  si_size : size (processes s) ≤ MaxSimulationProcesses;
  si_ids q p : processes s !! q = Some p → cfgID (cfg p) = q;
  si_members q : is_Some (peers_at (net (world s)) q) ↔ is_Some (processes s !! q);
  si_mesh q l : peers_at (net (world s)) q = Some l →
    ∀ p, p ∈ l ↔ p ≠ q ∧ is_Some (processes s !! p);
  si_channels p q : is_Some (processes s !! p) → is_Some (processes s !! q) → p ≠ q →
    is_Some (channels (transport (net (world s))) !! (p, q));
  si_deliver q : is_Some (processes s !! q) → q ∈ deliver (transport (net (world s)));
  si_outputs : outputs (coordinator (net (world s))) = []
}.

(** Everything but spawning and killing keeps the processes and extends the
    net. *)
Record sim_le (s s' : Simulation) : Prop := {
  sl_procs q : cfgID ∘ cfg <$> processes s' !! q = cfgID ∘ cfg <$> processes s !! q;
  sl_world : world_le (world s) (world s')
}.

Lemma sim_le_alive s s' q : sim_le s s' → is_Some (processes s' !! q) ↔ is_Some (processes s !! q).
Proof. intros [Hp _]. specialize (Hp q). destruct (processes s' !! q), (processes s !! q); naive_solver. Qed.

Lemma sim_inv_le s s' : sim_le s s' → sim_inv s → sim_inv s'.
Proof.
  intros Hle [Hsize Hids Hmem Hmesh Hch Hdel Hout]. pose proof (sim_le_alive s s') as Halive.
  destruct (Hle) as [Hprocs [[Hp Hc Hd Ho] _]]. split.
  - assert (dom (processes s') = dom (processes s)) as E.
    { apply set_eq. intros q. rewrite !elem_of_dom. auto. }
    by rewrite <- size_dom, E, size_dom.
  - intros q p Hq. specialize (Hprocs q). rewrite Hq in Hprocs.
    destruct (processes s !! q) as [p0|] eqn:E; [|done]. injection Hprocs as ->. by apply Hids.
  - intros q. by rewrite Hp, Halive.
  - intros q l. rewrite Hp. intros Hq p. rewrite Halive by done. by apply Hmesh.
  - intros p q Hp' Hq' Hne. apply Hc, Hch; [by apply Halive|by apply Halive|done].
  - intros q Hq. apply Hd, Hdel. by apply Halive.
  - auto.
Qed.

Lemma sim_le_update s s' q p p' :
  processes s !! q = Some p → processes s' = <[q := p']> (processes s) →
  pw_le (p, world s) (p', world s') → sim_le s s'.
Proof.
  intros Hq Hs' [Hcfg Hle]. split; [|done]. intros r. rewrite Hs'.
  destruct (decide (r = q)) as [->|Hne].
  - rewrite lookup_insert_eq, Hq. simpl in *. by rewrite Hcfg.
  - by rewrite lookup_insert_ne.
Qed.

Lemma sim_le_world s s' :
  processes s' = processes s → world_le (world s) (world s') → sim_le s s'.
Proof. intros E Hle. split; [by intros q; rewrite E|done]. Qed.

Lemma on_transport_le w f :
  (∀ t k, is_Some (channels t !! k) → is_Some (channels (f t) !! k)) →
  (∀ t q, q ∈ deliver t → q ∈ deliver (f t)) →
  world_le w (on_transport w f).
Proof. intros Hc Hd. apply world_le_net; [done|]. split; [done|apply Hc|apply Hd|done]. Qed.

Lemma forward_le t key quit :
  (∀ k, is_Some (channels t !! k) → is_Some (channels (forward t key quit).1 !! k)) ∧
  deliver (forward t key quit).1 = deliver t.
Proof.
  unfold forward. destruct (closed t && quit); [done|]. destruct (channels t !! key) as [[|m q]|] eqn:E; try done.
  simpl. split; [|done]. intros k Hk. destruct (decide (k = key)) as [->|].
  - rewrite lookup_insert_eq. eauto.
  - by rewrite lookup_insert_ne.
Qed.

Lemma fire_le t i :
  (∀ k, is_Some (channels t !! k) → is_Some (channels (default t (fire_delayed t i)) !! k)) ∧
  deliver (default t (fire_delayed t i)) = deliver t.
Proof.
  unfold fire_delayed. destruct (delayed t !! i) as [[key m]|]; [|done].
  destruct (closed t); [done|]. destruct (_ <? _); [|done]. simpl. split; [|done].
  intros k Hk. destruct (decide (k = key)) as [->|].
  - rewrite lookup_insert_eq. eauto.
  - by rewrite lookup_insert_ne.
Qed.

Lemma set_object_le s pid p p' w :
  object s pid = Some p → pw_le (p, world s) (p', w) → sim_le s (set_object s pid p' w).
Proof.
  unfold object, set_object. destruct (processes s !! pid) as [p0|] eqn:E.
  - intros [= ->] Hle. by eapply sim_le_update.
  - intros _ [_ Hle]. by apply sim_le_world.
Qed.

Lemma Stop_le s : sim_le s (Stop now s).
Proof.
  unfold Stop. rewrite for_range_foldl.
  set (body := λ a kv, _).
  assert (∀ l acc, (∀ kv, kv ∈ l → processes s !! kv.1 = Some kv.2) →
    (∀ q, cfgID ∘ cfg <$> acc.1 !! q = cfgID ∘ cfg <$> processes s !! q) →
    world_le (world s) acc.2 →
    (∀ q, cfgID ∘ cfg <$> (foldl body acc l).1 !! q = cfgID ∘ cfg <$> processes s !! q) ∧
    world_le (world s) (foldl body acc l).2) as Hfold.
  { induction l as [|[pid p] l IH]; intros [procs w] Hl Hp Hn; [done|]. cbn [foldl]. apply IH.
    - intros kv Hkv. apply Hl. by right.
    - intros q. subst body. simpl. destruct (decide (q = pid)) as [->|Hne].
      + pose proof (Hl (pid, p) (list_elem_of_here _ _)) as E. simpl in E. by rewrite lookup_insert_eq, E.
      + rewrite lookup_insert_ne by done. apply Hp.
    - etrans; [exact Hn|]. by eapply emitted_le. }
  destruct (Hfold (range (processes s)) (processes s, world s)) as [Hp Hn]; [|done|done|].
  { intros [pid p] Hin. by apply elem_of_range. }
  destruct (foldl body _ _) as [procs w]. split; [exact Hp|]. simpl in Hn |- *.
  etrans; [exact Hn|]. by split.
Qed.

(** Stopping stops the bus. *)
Lemma Stop_done s : done (bus (world (Stop now s))) = true.
Proof. unfold Stop. by destruct (for_range _ _ _). Qed.

(** *** Every operation keeps it *)
Lemma capture_le s ts i :
  world_le (world s) (coord_call (time_Now now (world s)).1
    (λ c, (InitiateSnapshot c i ts (capture_state s)).1)).
Proof. etrans; [apply time_le|]. apply coord_call_le. intros c. apply InitiateSnapshot_peers. Qed.

Lemma sim_exec_le s op :
  (∀ c, op ≠ OSpawn c) → (∀ id, op ≠ OKill id) → sim_le s (sim_exec now s op).
Proof.
  intros Hspawn Hkill. destruct op; simpl; try (by exfalso; eapply Hspawn + eapply Hkill).
  - unfold SendMessage. destruct (processes s !! from) as [p|] eqn:E; [|by apply sim_le_world].
    destruct (Process.Send now p (world s) to data) as [[p' w'] err] eqn:Es.
    by eapply sim_le_update, Send_le.
  - unfold BroadcastMessage. destruct (processes s !! from) as [p|] eqn:E; [|by apply sim_le_world].
    destruct (Process.Broadcast now p (world s) data) as [[p' w'] err] eqn:Es.
    by eapply sim_le_update, broadcast_le.
  - unfold InternalEvent. destruct (processes s !! pid) as [p|] eqn:E; [|by apply sim_le_world].
    eapply sim_le_update; [done|done|]. split; [apply tickClock_cfg|by eapply emitted_le].
  - unfold TriggerSnapshot. destruct (processes s !! initiatorID) as [p|]; [|by apply sim_le_world].
    simpl. pose proof (capture_le s (now (reads (world s))) initiatorID) as Hle.
    destruct (InitiateSnapshot _ _ _ _).2; apply sim_le_world; try done.
    etrans; [exact Hle|apply publish_snapshot_le].
  - apply sim_le_world; [done|by apply on_transport_le].
  - apply sim_le_world; [done|by apply on_transport_le].
  - apply sim_le_world; [done|by apply on_transport_le].
  - apply sim_le_world; [done|by apply on_transport_le].
  - apply sim_le_world; [done|by apply on_transport_le].
  - split; [|done]. intros q. simpl. rewrite lookup_fmap. by destruct (processes s !! q).
  - apply Stop_le.
  - unfold forward_step. destruct (handoff s !! key); [by apply sim_le_world|].
    destruct (forward_le (transport (net (world s))) key quit) as [Hc Hd].
    destruct (forward _ key quit) as [t [m|]]; simpl in *; (apply sim_le_world; [done|]); simpl.
    + etrans; [|apply record_arrival_le]. apply world_le_net; [done|].
      split; simpl; [done|done|by rewrite Hd|done].
    + apply world_le_net; [done|]. split; simpl; [done|done|by rewrite Hd|done].
  - unfold deliver_step. destruct (handoff s !! key) as [m|]; [|by apply sim_le_world].
    destruct (object s key.2) as [p|] eqn:E; [|by apply sim_le_world].
    destruct (Deliver p m drop) as [p'|] eqn:Ed; [|by apply sim_le_world].
    assert (pw_le (p, world s) (p', world s)) as Hle.
    { split; [|done]. unfold Deliver in Ed. by repeat case_match; simplify_eq. }
    apply (set_object_le s _ _ _ _ E) in Hle as [Hp Hn]. split; [exact Hp|exact Hn].
  - unfold process_step. destruct (object s pid) as [p|] eqn:E; [|by apply sim_le_world].
    destruct (inbound p) as [|m q]; [by apply sim_le_world|].
    pose proof (handleMessage_le pid (set_queues p q (hbq p)) (world s) m) as Hle.
    destruct (handleMessage _ _ _ _ _) as [p' w']. by eapply set_object_le.
  - destruct (fire_le (transport (net (world s))) i) as [Hc Hd]. apply sim_le_world; [done|].
    apply world_le_net; [done|]. split; simpl; [done|done|by rewrite Hd|done].
  - apply sim_le_world; [done|]. split; [done|]. apply loop_le.
  - unfold handleCausalGraphEvents. destruct (negb _); [by apply sim_le_world|].
    destruct (_ && _); [by apply sim_le_world|].
    pose proof (recv_le (bus (world s)) (cgCh s)) as Hrecv.
    destruct (Recv _ _) as [b [e|]]; apply sim_le_world; try done; by split.
Qed.

Lemma mesh_iff n :
  meshed (coordinator n) ↔ ∀ q l, peers_at n q = Some l → ∀ p, p ∈ l ↔ p ≠ q ∧ is_Some (peers_at n p).
Proof.
  unfold meshed, peers_at. split.
  - intros Hm q l. rewrite fmap_Some. intros (ps & Hq & ->) p. rewrite (Hm q ps Hq), fmap_is_Some. done.
  - intros Hm q ps Hq p. rewrite (Hm q (peers ps)), fmap_is_Some; [done|]. by rewrite Hq.
Qed.

Lemma sim_inv_meshed s : sim_inv s → meshed (coordinator (net (world s))).
Proof.
  intros Hi. apply mesh_iff. intros q l Hq p. rewrite (si_mesh _ Hi q l Hq), <- (si_members _ Hi). done.
Qed.

Lemma sim_inv_registered s :
  sim_inv s → ∀ q, is_Some (procStates (coordinator (net (world s))) !! q) ↔ is_Some (processes s !! q).
Proof. intros Hi q. rewrite <- (si_members _ Hi q). unfold peers_at. by rewrite fmap_is_Some. Qed.

Lemma coord_call_meshed w f :
  meshed (f (coordinator (net w))) → meshed (coordinator (net (coord_call w f))).
Proof.
  destruct (coord_call_spec w f) as (Hp & _). intros Hm. apply mesh_iff. intros q l.
  rewrite Hp. intros Hq p. rewrite Hp.
  exact (proj1 (mesh_iff {| transport := transport (net w); coordinator := f (coordinator (net w)) |})
    Hm q l Hq p).
Qed.

Lemma kill_inv s id : sim_inv s → sim_inv (KillProcess now s id).1.
Proof.
  intros Hi. unfold KillProcess. destruct (processes s !! id) as [p|] eqn:Hid; [|done]. simpl.
  destruct (coord_call_spec (world s) (λ c, DeregisterProcess c id)) as (Hp & Hc & Hd & Ho & _).
  pose proof (coord_call_meshed (world s) (λ c, DeregisterProcess c id)
    (meshed_deregister _ id (sim_inv_meshed s Hi))) as Hmesh.
  set (w := coord_call _ _) in *.
  assert (∀ q, is_Some (peers_at (net w) q) ↔ is_Some (delete id (processes s) !! q)) as Hmem.
  { intros q. rewrite Hp. unfold DeregisterProcess. simpl. rewrite lookup_fmap, !fmap_is_Some.
    destruct (decide (q = id)) as [->|Hne]; [by rewrite !lookup_delete_eq|].
    rewrite !lookup_delete_ne by done. rewrite <- (si_members _ Hi). unfold peers_at.
    by rewrite fmap_is_Some. }
  assert (∀ q, is_Some (delete id (processes s) !! q) → is_Some (processes s !! q)) as Hsub.
  { intros q [x [_ Hx]%lookup_delete_Some]. eauto. }
  split; simpl.
  - pose proof (si_size _ Hi). rewrite map_size_delete, Hid. lia.
  - intros q p' [_ Hq]%lookup_delete_Some. by apply Hi.
  - exact Hmem.
  - intros q l Hq r. rewrite <- (Hmem r). exact (proj1 (mesh_iff (net w)) Hmesh q l Hq r).
  - intros q r Hq Hr Hne. apply Hc, Hi; auto.
  - intros q Hq. apply Hd, Hi. auto.
  - exact Ho.
Qed.

Lemma elem_of_keys {V} (m : gmap string V) k : k ∈ keys_of m ↔ is_Some (m !! k).
Proof.
  unfold keys_of. rewrite for_range_foldl, (foldl_collect (λ _ : string * V, true) fst). simpl.
  rewrite list_elem_of_fmap. split.
  - intros ([k' v] & -> & [_ Hin]%list_elem_of_filter). apply elem_of_range in Hin. eauto.
  - intros [v Hv]. exists (k, v). split; [done|]. apply list_elem_of_filter. split; [done|].
    by apply elem_of_range.
Qed.

Lemma register_channel_spec t a b :
  deliver (Transport.RegisterChannel t a b) = deliver t ∧
  is_Some (channels (Transport.RegisterChannel t a b) !! (a, b)) ∧
  ∀ k, is_Some (channels t !! k) → is_Some (channels (Transport.RegisterChannel t a b) !! k).
Proof.
  unfold Transport.RegisterChannel. destruct (channels t !! (a, b)) eqn:E; simpl; [by eauto|].
  rewrite lookup_insert_eq. split_and!; [done|eauto|]. intros k Hk.
  destruct (decide (k = (a, b))) as [->|]; [by rewrite lookup_insert_eq; eauto|by rewrite lookup_insert_ne].
Qed.

(** The loop of [SpawnProcess] that opens the channels. *)
Lemma channels_loop {V} (procs : gmap string V) pid t :
  let t' := for_range procs (λ q _ t, if bool_decide (q = pid) then t
    else Transport.RegisterChannel (Transport.RegisterChannel t pid q) q pid) t in
  deliver t' = deliver t ∧
  (∀ k, is_Some (channels t !! k) → is_Some (channels t' !! k)) ∧
  ∀ q, is_Some (procs !! q) → q ≠ pid →
    is_Some (channels t' !! (pid, q)) ∧ is_Some (channels t' !! (q, pid)).
Proof.
  simpl. rewrite for_range_foldl. setoid_rewrite <- elem_of_keys.
  assert (∀ q, q ∈ keys_of procs → q ∈ (range procs).*1) as Hkeys.
  { intros q [v Hv]%elem_of_keys. apply list_elem_of_fmap. exists (q, v). by rewrite elem_of_range. }
  cut (∀ l t, let t' := foldl (λ t kv, if bool_decide (kv.1 = pid) then t
      else Transport.RegisterChannel (Transport.RegisterChannel t pid kv.1) kv.1 pid) t l in
    deliver t' = deliver t ∧ (∀ k, is_Some (channels t !! k) → is_Some (channels t' !! k)) ∧
    ∀ q, q ∈ (l : list (string * V)).*1 → q ≠ pid →
      is_Some (channels t' !! (pid, q)) ∧ is_Some (channels t' !! (q, pid))).
  { intros Hcut. destruct (Hcut (range procs) t) as (Hd & Hk & Hq). split_and!; auto. }
  clear t Hkeys. induction l as [|[q v] l IH]; intros t; simpl; [split_and!; set_solver|].
  set (t1 := if bool_decide (q = pid) then t else _).
  assert (deliver t1 = deliver t ∧ (∀ k, is_Some (channels t !! k) → is_Some (channels t1 !! k)) ∧
    (q ≠ pid → is_Some (channels t1 !! (pid, q)) ∧ is_Some (channels t1 !! (q, pid)))) as (Hd1 & Hk1 & Hq1).
  { subst t1. case_bool_decide; [by split_and!|].
    destruct (register_channel_spec t pid q) as (Ed & Eq & Ek).
    destruct (register_channel_spec (Transport.RegisterChannel t pid q) q pid) as (Ed' & Eq' & Ek').
    split_and!; [congruence|auto|auto]. }
  destruct (IH t1) as (Hd2 & Hk2 & Hq2). split_and!; [congruence|auto|].
  intros r [->|Hr]%elem_of_cons Hne; [split; apply Hk2; by apply Hq1|by apply Hq2].
Qed.

(** The processes after a spawn. *)
Lemma spawn_processes s c q :
  processes s !! cfgID c = None →
  processes (spawn now s c) !! q =
  if decide (q = cfgID c) then processes (spawn now s c) !! cfgID c
  else (λ p, AddPeer p (cfgID c)) <$> processes s !! q.
Proof.
  intros Hnew. case_decide as Hq; [by subst|]. unfold spawn. simpl.
  rewrite lookup_insert_ne, map_lookup_imap, lookup_insert_ne by done.
  destruct (processes s !! q); simpl; [|done]. by rewrite bool_decide_false.
Qed.

Lemma spawn_self s c :
  ∃ p, processes (spawn now s c) !! cfgID c = Some p ∧ cfgID (cfg p) = cfgID c ∧
    cfgPeers (cfg p) = cfgPeers c.
Proof. unfold spawn. simpl. rewrite lookup_insert_eq. eauto. Qed.

Lemma AddPeer_id p q : cfgID (cfg (AddPeer p q)) = cfgID (cfg p).
Proof. unfold AddPeer. by destruct (existsb _ _). Qed.

Lemma spawn_alive s c q :
  processes s !! cfgID c = None →
  is_Some (processes (spawn now s c) !! q) ↔ q = cfgID c ∨ is_Some (processes s !! q).
Proof.
  intros Hnew. rewrite spawn_processes by done. case_decide as Hq.
  - destruct (spawn_self s c) as (p & -> & _). subst. split; [by left|eauto].
  - rewrite fmap_is_Some. naive_solver.
Qed.

Lemma registered_after co pid l q :
  is_Some (peers <$> procStates (Snapshot.RegisterProcess co pid l) !! q) ↔
  q = pid ∨ is_Some (procStates co !! q).
Proof.
  unfold Snapshot.RegisterProcess. simpl. rewrite map_lookup_imap. destruct (decide (q = pid)) as [->|Hne].
  - rewrite lookup_insert_eq. simpl. split; [by left|eauto].
  - rewrite lookup_insert_ne by done. destruct (procStates co !! q); simpl; [|naive_solver].
    split; [eauto|eauto].
Qed.

(** What a spawn does to the net. *)
Lemma spawn_net s c :
  let n := net (world s) in let n' := net (world (spawn now s c)) in
  (∃ l, (∀ p, p ∈ l ↔ p ≠ cfgID c ∧ is_Some (processes s !! p)) ∧
     (∀ q, peers_at n' q = peers <$> procStates (Snapshot.RegisterProcess (coordinator n) (cfgID c) l) !! q) ∧
     (meshed (Snapshot.RegisterProcess (coordinator n) (cfgID c) l) → meshed (coordinator n'))) ∧
  (∀ k, is_Some (channels (transport n) !! k) → is_Some (channels (transport n') !! k)) ∧
  (∀ q, is_Some (processes s !! q) → q ≠ cfgID c →
     is_Some (channels (transport n') !! (cfgID c, q)) ∧ is_Some (channels (transport n') !! (q, cfgID c))) ∧
  (∀ q, q = cfgID c ∨ q ∈ deliver (transport n) → q ∈ deliver (transport n')) ∧
  outputs (coordinator n') = [].
Proof.
  unfold spawn. simpl. set (procs := <[cfgID c := _]> (processes s)).
  set (w := on_transport _ _). set (l := filter _ (keys_of procs)).
  destruct (coord_call_spec w (λ co, Snapshot.RegisterProcess co (cfgID c) l)) as (Hp & Hc & Hd & Ho & _).
  destruct (channels_loop procs (cfgID c) (Transport.RegisterProcess (transport (net (world s))) (cfgID c)))
    as (Ld & Lk & Lq).
  split_and!; [exists l; split_and!|..].
  - intros p. subst l procs. rewrite list_elem_of_filter, elem_of_keys.
    split; intros [Hne Hs]; (split; [done|]); by rewrite lookup_insert_ne in *.
  - exact Hp.
  - apply (coord_call_meshed w (λ co, Snapshot.RegisterProcess co (cfgID c) l)).
  - intros k Hk. by apply Hc, Lk.
  - intros q Hq Hne. destruct (Lq q) as [L1 L2]; [|done|split; by apply Hc].
    subst procs. by rewrite lookup_insert_ne.
  - intros q Hq. apply Hd. simpl. rewrite Ld. simpl. set_solver.
  - exact Ho.
Qed.

Lemma spawn_inv s c :
  processes s !! cfgID c = None → size (processes s) < MaxSimulationProcesses →
  sim_inv s → sim_inv (spawn now s c).
Proof.
  intros Hnew Hroom Hi. destruct (spawn_net s c) as ((l & Hl & Hp & Hmesh) & Hc & Hq & Hd & Ho).
  pose proof (spawn_alive s c) as Halive.
  pose proof (sim_inv_registered s Hi) as Hreg.
  assert (procStates (coordinator (net (world s))) !! cfgID c = None) as Hunreg.
  { apply eq_None_not_Some. rewrite Hreg, Hnew. by intros [? ?]. }
  assert (∀ q, is_Some (peers_at (net (world (spawn now s c))) q) ↔ is_Some (processes (spawn now s c) !! q))
    as Hmem.
  { intros q. rewrite Hp, registered_after, Hreg. by rewrite Halive. }
  assert (meshed (coordinator (net (world (spawn now s c))))) as Hm.
  { apply Hmesh, meshed_register; [done| |by apply sim_inv_meshed]. intros p. rewrite Hl, Hreg.
    split; [tauto|]. intros Hs. split; [|done]. intros ->. rewrite Hnew in Hs. by destruct Hs. }
  split.
  - assert (dom (processes (spawn now s c)) = {[cfgID c]} ∪ dom (processes s)) as E.
    { apply set_eq. intros q. rewrite elem_of_union, elem_of_singleton, !elem_of_dom. by apply Halive. }
    rewrite <- size_dom, E, size_union, size_singleton, size_dom; [lia|].
    apply disjoint_singleton_l, not_elem_of_dom. done.
  - intros q p. rewrite spawn_processes by done. case_decide as Hqc.
    + destruct (spawn_self s c) as (p' & -> & Hid & _). intros [= <-]. by rewrite Hqc.
    + rewrite fmap_Some. intros (p' & Hq' & ->). rewrite AddPeer_id. by apply Hi.
  - exact Hmem.
  - intros q l' Hq' p. rewrite (proj1 (mesh_iff _) Hm q l' Hq' p). by rewrite Hmem.
  - intros p q. rewrite !Halive by done.
    intros [->|Hp'] [->|Hq'] Hne; [done|by apply Hq|by apply Hq|by apply Hc, Hi].
  - intros q. rewrite Halive by done. intros [->|Hq']; apply Hd; [by left|right; by apply Hi].
  - exact Ho.
Qed.

Lemma SpawnProcess_inv s c : sim_inv s → sim_inv (SpawnProcess now s c).1.
Proof.
  intros Hi. unfold SpawnProcess. case_bool_decide; [done|]. destruct (64 <? _); [done|].
  destruct (processes s !! cfgID c) eqn:E; [done|].
  destruct (MaxSimulationProcesses <=? _) eqn:El; [done|]. simpl.
  apply Nat.leb_gt in El. by apply spawn_inv.
Qed.

Lemma New_inv c : sim_inv (New c).
Proof.
  unfold New. split; simpl.
  - rewrite map_size_empty. lia.
  - done.
  - intros q. unfold peers_at. simpl. rewrite !lookup_empty. simpl. split; by intros [? ?].
  - done.
  - intros p q. rewrite lookup_empty. by intros [? ?].
  - intros q. rewrite lookup_empty. by intros [? ?].
  - done.
Qed.

Lemma sim_run_inv s ops : sim_inv s → sim_inv (sim_run now s ops).
Proof.
  intros Hs. apply (foldl_inv sim_inv (λ _, True)); [|by apply Forall_true|done].
  intros s' op _ Hi. destruct op; try (by eapply sim_inv_le; [apply sim_exec_le|]).
  - by apply SpawnProcess_inv.
  - by apply kill_inv.
Qed.

End membership.

(** ** Broadcast *)
Section broadcast.
Context `{MapRange} (now : nat → Z).

(** Spawning processes one after the other, as starting or resetting a
    simulation does. *)
Definition spawn_all (s : Simulation) (cs : list ProcessConfig) : Simulation :=
  foldl (λ s c, (SpawnProcess now s c).1) s cs.

(** A configuration as every caller of [SpawnProcess] makes it. *)
Definition plain (c : ProcessConfig) : Prop :=
  cfgPeers c = [] ∧ cfgID c ≠ "" ∧ String.length (cfgID c) ≤ 64.

Lemma SpawnProcess_ok s c :
  plain c → processes s !! cfgID c = None → size (processes s) < MaxSimulationProcesses →
  SpawnProcess now s c = (spawn now s c, None).
Proof.
  intros (_ & Hne & Hlen) Hnew Hroom. unfold SpawnProcess. rewrite bool_decide_false by done.
  replace (64 <? String.length (cfgID c)) with false by (symmetry; by apply Nat.ltb_ge).
  rewrite Hnew. by replace (_ <=? _) with false by (symmetry; by apply Nat.leb_gt).
Qed.

Lemma AddPeer_peers p q : q ∉ cfgPeers (cfg p) → cfgPeers (cfg (AddPeer p q)) = cfgPeers (cfg p) ++ [q].
Proof.
  intros Hq. unfold AddPeer. destruct (existsb _ _) eqn:E; [|done].
  apply existsb_exists in E as (x & Hx%list_elem_of_In & <-%String.eqb_eq). done.
Qed.

Lemma spawn_all_spec sc cs :
  Forall plain cs → NoDup (cfgID <$> cs) → length cs ≤ MaxSimulationProcesses →
  let s := spawn_all (New sc) cs in
  dom (processes s) = list_to_set (cfgID <$> cs) ∧
  ∀ i c, cs !! i = Some c →
    ∃ p, processes s !! cfgID c = Some p ∧ cfgPeers (cfg p) = cfgID <$> drop (S i) cs.
Proof.
  induction cs as [|c cs IH] using rev_ind; intros Hplain Hnd Hlen.
  { split; [|done]. simpl. by rewrite dom_empty_L. }
  rewrite fmap_app in Hnd. apply NoDup_app in Hnd as (Hnd & Hfresh & _).
  apply Forall_app in Hplain as [Hplain [Hc _]%Forall_cons]. rewrite length_app in Hlen. simpl in Hlen.
  destruct IH as [Hdom Hpeers]; [done|done|lia|].
  unfold spawn_all. rewrite foldl_app. fold (spawn_all (New sc) cs). cbn [foldl].
  set (s := spawn_all (New sc) cs) in *.
  assert (cfgID c ∉ cfgID <$> cs) as Hcs by (intros Hin; apply (Hfresh _ Hin); left).
  assert (processes s !! cfgID c = None) as Hnew.
  { apply not_elem_of_dom. rewrite Hdom. by rewrite elem_of_list_to_set. }
  assert (size (processes s) = length cs) as Hsize.
  { rewrite <- size_dom, Hdom, size_list_to_set by done. apply length_fmap. }
  rewrite SpawnProcess_ok by (done || lia). cbn [fst]. split.
  - apply set_eq. intros q. rewrite elem_of_dom, spawn_alive by done.
    rewrite <- (elem_of_dom (D := gset string)), Hdom, fmap_app. set_solver.
  - intros i c' [Hi|[Hi Hc']]%lookup_app_Some.
    + destruct (Hpeers i c' Hi) as (p & Hp & Epeers).
      assert (cfgID c' ≠ cfgID c) as Hne.
      { intros E. apply Hcs. rewrite <- E. apply list_elem_of_fmap. exists c'. split; [done|].
        by eapply list_elem_of_lookup_2. }
      exists (AddPeer p (cfgID c)). rewrite spawn_processes, decide_False, Hp by done. split; [done|].
      apply lookup_lt_Some in Hi. rewrite drop_app_le, fmap_app by lia. rewrite <- Epeers.
      apply AddPeer_peers. rewrite Epeers. intros Hin. apply Hcs.
      rewrite fmap_drop in Hin. apply list_elem_of_lookup_1 in Hin as [j Hj].
      rewrite lookup_drop in Hj. by eapply list_elem_of_lookup_2.
    + destruct (i - length cs) eqn:Ei; [|done]. injection Hc' as <-.
      destruct (spawn_self now s c) as (p & Hp & _ & E). exists p. split; [done|].
      rewrite E. rewrite drop_ge by (rewrite length_app; simpl; lia). by destruct Hc.
Qed.

(** Broadcast does not reach all peers.  When processes are spawned one
    after the other, each broadcasts exactly to those spawned after it: the
    last one sends to nobody, reports no error and changes nothing. *)
Theorem broadcast_reaches_later_only sc cs data :
  Forall plain cs → NoDup (cfgID <$> cs) → length cs ≤ MaxSimulationProcesses →
  let s := spawn_all (New sc) cs in
  (∀ i c, cs !! i = Some c →
     ∃ p, processes s !! cfgID c = Some p ∧
       BroadcastMessage now s (cfgID c) data =
       (let '(p', w, err) := broadcast_loop now (cfgID <$> drop (S i) cs) p (world s) data in
        (set_procs s (<[cfgID c := p']> (processes s)) (retired s) w, err))) ∧
  ∀ c, last cs = Some c → BroadcastMessage now s (cfgID c) data = (s, None).
Proof.
  intros Hplain Hnd Hlen s. destruct (spawn_all_spec sc cs Hplain Hnd Hlen) as [_ Hpeers]. fold s in Hpeers.
  assert (∀ i c, cs !! i = Some c →
     ∃ p, processes s !! cfgID c = Some p ∧
       BroadcastMessage now s (cfgID c) data =
       (let '(p', w, err) := broadcast_loop now (cfgID <$> drop (S i) cs) p (world s) data in
        (set_procs s (<[cfgID c := p']> (processes s)) (retired s) w, err))) as Hall.
  { intros i c Hi. destruct (Hpeers i c Hi) as (p & Hp & Epeers). exists p. split; [done|].
    unfold BroadcastMessage, Broadcast. by rewrite Hp, Epeers. }
  split; [done|]. intros c Hlast. rewrite last_lookup in Hlast.
  destruct (Hall _ _ Hlast) as (p & Hp & ->). rewrite (drop_ge cs) by (destruct cs; simpl; lia). simpl.
  rewrite insert_id by done. by destruct s.
Qed.

End broadcast.

(** ** The causal graph of a simulation *)
Section graph.
Context `{MapRange} (now : nat → Z).

Definition send_edges (g : CausalGraph) : Prop :=
  (∀ x y, edge g x y → ∃ m, x = m +:+ "-send") ∧
  (∀ id, is_Some (events g !! id) → ∀ m, id ≠ m +:+ "-send").

Lemma graph_step_edges g e : plain_event e → send_edges g → send_edges (graph_step g e).
Proof.
  intros He [Hedge Hev]. unfold graph_step.
  assert (send_edges (AddEvent g (graph_event e))) as Hadd.
  { split; [intros x y; rewrite AddEvent_edge; apply Hedge|]. intros id. simpl.
    destruct (decide (id = evID e)) as [->|Hne].
    - intros _. apply He.
    - unfold graph_event. repeat case_bool_decide; simpl; rewrite lookup_insert_ne by done; apply Hev. }
  destruct (evMessage e) as [m|]; [|exact Hadd]. destruct (_ && _); [|exact Hadd].
  destruct Hadd as [Hedge' Hev']. split; [|exact Hev'].
  intros x y. rewrite AddEdge_edge. intros [Hxy|[-> _]]; eauto.
Qed.

(** Only the graph's goroutine writes it. *)
Lemma graph_frame s op : (∀ quit, op ≠ OGraph quit) → causalGraph (sim_exec now s op) = causalGraph s.
Proof.
  intros Hop. destruct op; simpl; try done; try (by exfalso; eapply Hop).
  - unfold SpawnProcess. by repeat case_match.
  - unfold KillProcess. by repeat case_match.
  - unfold SendMessage. by repeat case_match.
  - unfold BroadcastMessage. by repeat case_match.
  - unfold InternalEvent. by repeat case_match.
  - unfold TriggerSnapshot. by repeat case_match.
  - unfold Stop. by case_match.
  - unfold forward_step. by repeat case_match.
  - unfold deliver_step, set_object. by repeat case_match.
  - unfold process_step, set_object. by repeat case_match.
Qed.

Lemma bus_frame s op : bus_le (bus (world s)) (bus (world (sim_exec now s op))).
Proof.
  destruct op; try (by apply (sim_exec_le now)); simpl.
  - unfold SpawnProcess. case_bool_decide; [done|]. destruct (64 <? _); [done|].
    destruct (processes s !! cfgID c); [done|]. destruct (_ <=? _); [done|].
    unfold spawn. simpl.
    match goal with |- context [coord_call ?w ?f] => destruct (coord_call_spec w f) as (_&_&_&_&Hbus) end.
    etrans; [exact Hbus|]. apply publish_le. intros m. apply event_id_not_send.
  - unfold KillProcess. case_match; [|done]. simpl.
    match goal with |- context [coord_call ?w ?f] => destruct (coord_call_spec w f) as (_&_&_&_&Hbus) end.
    etrans; [exact Hbus|]. apply publish_le. intros m. apply event_id_not_send.
Qed.

Lemma graph_inv s op :
  bus_ok (bus (world s)) ∧ send_edges (causalGraph s) →
  bus_ok (bus (world (sim_exec now s op))) ∧ send_edges (causalGraph (sim_exec now s op)).
Proof.
  intros [Hb Hg]. split; [by apply (bl_ok _ _ (bus_frame s op))|].
  destruct op; try (rewrite graph_frame; [exact Hg|done]). simpl. unfold handleCausalGraphEvents.
  destruct (negb _); [done|]. destruct (_ && _); [done|].
  destruct (Recv_ok (bus (world s)) (cgCh s) Hb) as [_ He].
  destruct (Recv _ _) as [b [e|]]; [|done]. apply graph_step_edges; [by apply He|done].
Qed.

(** C27: The causal graph of a simulation relates no two of its events.  The
    only edges its goroutine adds start at a node named after the message with
    "-send", which is the id of no event, and it adds none between the events
    of one process; so after any run no event in the graph happened before
    another one in it, not a send before its receipt, and any two are
    concurrent. *)
Theorem causal_graph_relates_nothing sc ops a b :
  let g := causalGraph (sim_run now (New sc) ops) in
  is_Some (events g !! a) → is_Some (events g !! b) →
  Causality.HappenedBefore g a b = false ∧ Causality.Concurrent g a b = true.
Proof.
  intros g Ha Hb.
  assert (send_edges g) as [Hedge Hev].
  { apply (foldl_inv (λ s, bus_ok (bus (world s)) ∧ send_edges (causalGraph s)) (λ _, True)
      (sim_exec now) ops (New sc)); [intros; by apply graph_inv|by apply Forall_true|].
    split; [split; simpl; [done|]|].
    - intros ch q. rewrite lookup_insert_Some. intros [[_ <-]|[_ Hq]]; [done|by rewrite lookup_empty in Hq].
    - split; [|intros id; simpl; rewrite lookup_empty; by intros [? ?]].
      intros x y. unfold edge, out. simpl. rewrite lookup_empty. simpl. rewrite lookup_empty. by intros [? ?]. }
  assert (∀ x y, is_Some (events g !! x) → Causality.HappenedBefore g x y = false) as Hnone.
  { intros x y Hx. apply not_true_iff_false. intros [_ Ht]%HappenedBefore_sound.
    assert (∃ z, edge g x z) as [z Hz] by (inversion Ht; eauto).
    destruct (Hedge x z Hz) as [m Hm]. by apply (Hev x Hx m). }
  split; [by apply Hnone|]. unfold Causality.Concurrent. by rewrite !Hnone.
Qed.
End graph.

(** ** Snapshots of a running simulation

    The delivery function records a message when the transport hands it over,
    but a marker takes effect only when the process's goroutine gets to it, so
    the two are not ordered by the channel. *)
Module Race.
Definition clock (n : nat) : Z := 100 + Z.of_nat n.
Definition sim0 : Simulation :=
  New {| scClockType := ClockVector; scDeliveryMode := ImmediateDelivery; scChannels := "" |}.
Definition proc (id : string) : ProcessConfig :=
  {| cfgID := id; cfgClockType := ""; cfgDeliveryMode := ""; cfgPeers := []; cfgAllPIDs := [] |}.

(** A message comes through a channel as far as the inbox. *)
Definition arrive (from to : string) : list sim_op := [OForward (from, to) false; ODeliver (from, to) false].

(** "a" starts a snapshot; "b" sees the marker and then sends a message. *)
Definition start : list sim_op :=
  [OSpawn (proc "a"); OSpawn (proc "b"); OTrigger "a"] ++
  arrive "a" "b" ++ [OProcess "b"; OSend "b" "a" ANil].

(** "a" handles the marker of "b" before or after the message arrives. *)
Definition prompt : list sim_op := start ++ arrive "b" "a" ++ [OProcess "a"] ++ arrive "b" "a" ++ [OProcess "a"].
Definition late : list sim_op := start ++ arrive "b" "a" ++ arrive "b" "a" ++ [OProcess "a"; OProcess "a"].

(** "c" starts a snapshot; its marker and then a message of "b" reach "a"
    before "a" handles either, and "b" captures its state last. *)
Definition lost : list sim_op :=
  [OSpawn (proc "a"); OSpawn (proc "b"); OSpawn (proc "c"); OTrigger "c"] ++ arrive "c" "a" ++
  [OSend "b" "a" ANil] ++ arrive "b" "a" ++ [OProcess "a"; OProcess "a"] ++
  arrive "c" "b" ++ [OProcess "b"] ++ arrive "a" "b" ++ [OProcess "b"] ++
  arrive "b" "a" ++ [OProcess "a"] ++ arrive "a" "c" ++ arrive "b" "c" ++ [OProcess "c"; OProcess "c"].

(** The verdict on the snapshot, whether it is complete, and for the channel
    from "b" to "a" the counters of "b" in both captured states and the ids of
    the recorded messages. *)
Definition counter (gs : GlobalSnapshot) (pid q : string) : option N :=
  ls ← gsLocalStates gs !! pid; vc ← vectorClockFromState (lsLocalState ls); Some vc.[q].
Definition recorded (gs : GlobalSnapshot) (pid q : string) : option (list string) :=
  ls ← gsLocalStates gs !! pid; cs ← lsRecordedChans ls !! q; Some (sID <$> csMessages cs).
Definition outcome `{MapRange} (snapID : string) (ops : list sim_op) :=
  gs ← GetSnapshot (sim_run clock sim0 ops) snapID;
  Some (IsDone gs, Consistent (Verify gs), (counter gs "a" "b", counter gs "b" "b"), recorded gs "a" "b").

(** No fault is injected, nothing is killed or stopped. *)
Definition faultless (op : sim_op) : Prop :=
  match op with
  | ODelay _ _ _ | ODrop _ _ | OReorder _ _ | OPartition _ | OKill _ | OStop => False
  | _ => True
  end.
End Race.


Lemma broadcast_reaches_later_only_witness :
  let r := canonical_range in
  BroadcastMessage Race.clock (spawn_all Race.clock Race.sim0 [Race.proc "a"; Race.proc "b"]) "b" ANil =
  (spawn_all Race.clock Race.sim0 [Race.proc "a"; Race.proc "b"], None).
Proof.
  intros r.
  destruct (broadcast_reaches_later_only Race.clock
    {| scClockType := ClockVector; scDeliveryMode := ImmediateDelivery; scChannels := "" |}
    [Race.proc "a"; Race.proc "b"] ANil) as [_ Hlast].
  - by repeat constructor; simpl; try lia.
  - by apply (bool_decide_unpack _); vm_compute.
  - unfold MaxSimulationProcesses. simpl. lia.
  - apply (Hlast (Race.proc "b")). done.
Defined.

(** A send and its receipt, both in the graph. *)
Lemma causal_graph_relates_nothing_witness :
  let r := canonical_range in
  let g := causalGraph (sim_run Race.clock Race.sim0
    (Race.start ++ Race.arrive "b" "a" ++ Race.arrive "b" "a" ++ [OProcess "a"; OProcess "a"] ++
     concat (replicate 16 [OBus false; OGraph false]))) in
  is_Some (events g !! "b-e3") ∧ is_Some (events g !! "a-e3") ∧
  Causality.HappenedBefore g "b-e3" "a-e3" = false.
Proof.
  intros r g. assert (is_Some (events g !! "b-e3")) as Hb by (vm_compute; eauto).
  assert (is_Some (events g !! "a-e3")) as Ha by (vm_compute; eauto).
  split; [exact Hb|]. split; [exact Ha|].
  exact (proj1 (causal_graph_relates_nothing Race.clock
    {| scClockType := ClockVector; scDeliveryMode := ImmediateDelivery; scChannels := "" |}
    (Race.start ++ Race.arrive "b" "a" ++ Race.arrive "b" "a" ++ [OProcess "a"; OProcess "a"] ++
     concat (replicate 16 [OBus false; OGraph false])) "b-e3" "a-e3" Hb Ha)).
Defined.
