(* ===== verification/Typing.v ===== *)
(** * The widths of integers

    The model keeps Go's unsigned integers as natural numbers.  This file says
    for every part of a simulation which numbers its Go type can hold and
    proves that no run leaves them: what a process, a message, an event, a
    captured state or a fault setting stores is always a value of the field's
    type in the program. *)
From stdpp Require Import gmap strings list.
From S2P Require Import Prelude Lamport Matrix VClock Causality Events Snapshot HoldBack Process.
From S2P Require Import Transport Simulation.

(** ** Values of a type *)

Class Typed (A : Type) := typed : A → Prop.

Create HintDb typed.
#[local] Hint Mode Typed ! : typeclass_instances.

(** [uint64], and the containers. *)
#[export] Instance N_typed : Typed N := λ n, (n < two64)%N.
#[export] Instance option_typed `{Typed A} : Typed (option A) := λ o, ∀ x, o = Some x → typed x.
#[export] Instance list_typed `{Typed A} : Typed (list A) := Forall typed.
#[export] Instance map_typed `{Countable K, Typed A} : Typed (gmap K A) := map_Forall (λ _, typed).

Section containers.
Context `{Typed A}.

Lemma typed_None : typed (@None A).
Proof. done. Qed.
Lemma typed_Some (x : A) : typed x → typed (Some x).
Proof. by intros ? ? [= <-]. Qed.
Lemma typed_nil : typed (@nil A).
Proof. constructor. Qed.
Lemma typed_cons (x : A) l : typed (x :: l) ↔ typed x ∧ typed l.
Proof. apply Forall_cons. Qed.
Lemma typed_app (l k : list A) : typed (l ++ k) ↔ typed l ∧ typed k.
Proof. apply Forall_app. Qed.
Lemma typed_snoc (l : list A) x : typed l → typed x → typed (l ++ [x]).
Proof. intros. apply typed_app. split; [done|]. by apply Forall_singleton. Qed.
Lemma typed_elem (l : list A) x : typed l → x ∈ l → typed x.
Proof. intros Hl. by apply Forall_forall. Qed.
Lemma typed_list_insert i (l : list A) x : typed l → typed x → typed (<[i := x]> l).
Proof. intros. by apply Forall_insert. Qed.

Context {K} `{Countable K}.

Lemma typed_empty : typed (∅ : gmap K A).
Proof. apply map_Forall_empty. Qed.
Lemma typed_lookup (m : gmap K A) k x : typed m → m !! k = Some x → typed x.
Proof. intros Hm. apply Hm. Qed.
Lemma typed_default (m : gmap K A) k d : typed m → typed d → typed (default d (m !! k)).
Proof. intros Hm Hd. destruct (m !! k) eqn:E; [by eapply Hm|done]. Qed.
Lemma typed_insert (m : gmap K A) k x : typed m → typed x → typed (<[k := x]> m).
Proof. intros. by apply map_Forall_insert_2. Qed.
Lemma typed_delete (m : gmap K A) k : typed m → typed (delete k m).
Proof. intros. by apply map_Forall_delete. Qed.
End containers.

(** A loop over a map keeps what its body keeps. *)
Lemma for_range_keeps `{MapRange} {V B} (P : B → Prop) (m : gmap string V)
    (body : string → V → B → B) (b : B) :
  P b → (∀ k v b, m !! k = Some v → P b → P (body k v b)) → P (for_range m body b).
Proof.
  intros Hb Hbody. rewrite for_range_foldl.
  apply (foldl_inv P (λ kv, m !! kv.1 = Some kv.2)); [|apply Forall_forall|done].
  - intros b' [k v] Hkv. by apply Hbody.
  - intros [k v] Hin. by apply elem_of_range.
Qed.

Lemma typed_u64_succ n : typed (u64_succ n).
Proof. apply u64_add_bound. Qed.
Lemma typed_zero : typed 0%N.
Proof. done. Qed.

#[export] Hint Resolve typed_None typed_Some typed_nil typed_snoc typed_list_insert typed_empty
  typed_default typed_insert typed_delete typed_u64_succ typed_zero : typed.

(** Vector clocks read as the bound on all counters. *)
Lemma typed_clock (vc : VectorClock) : typed vc ↔ wf64 vc.
Proof.
  split.
  - intros Hvc k. unfold mget. destruct (vc !! k) eqn:E; [by eapply Hvc|done].
  - intros Hvc k v E. pose proof (Hvc k) as Hk. unfold mget in Hk. by rewrite E in Hk.
Qed.

Lemma typed_matrix (mc : MatrixClock) : typed mc ↔ ∀ p q, (cell mc p q < two64)%N.
Proof.
  split.
  - intros Hmc p. unfold cell, row. apply typed_clock. apply typed_default; [done|apply typed_empty].
  - intros Hmc p r E. apply typed_clock. intros q. specialize (Hmc p q). unfold cell, row in Hmc. by rewrite E in Hmc.
Qed.

(** ** The types of the structs *)

#[export] Instance LamportClock_typed : Typed LamportClock := λ c, typed (value c).

Record Message_typed' (m : Message) : Prop := {
  mt_vc : typed (SentVC m);
  mt_matrix : typed (SentMatrix m);
  mt_lc : typed (SentLC m)
}.
#[export] Instance Message_typed : Typed Message := Message_typed'.

Record HeldMessage_typed' (h : HeldMessage) : Prop := {
  ht_msg : typed (Msg h);
  ht_vc : typed (HSentVC h)
}.
#[export] Instance HeldMessage_typed : Typed HeldMessage := HeldMessage_typed'.

Record Process_typed' (p : Process) : Prop := {
  pt_lamport : typed (lamportClock p);
  pt_vector : typed (vectorClock p);
  pt_matrix : typed (matrixClock p);
  pt_msgSeq : typed (msgSeq p);
  pt_localSeq : typed (localSeq p);
  pt_inbound : typed (inbound p);
  pt_held : typed (pending (hbq p))
}.
#[export] Instance Process_typed : Typed Process := Process_typed'.

(** [EventCount] is an [int]. *)
Record ProcessState_typed' (ps : ProcessState) : Prop := {
  st_lamport : typed (psLamportClock ps);
  st_vector : typed (psVectorClock ps);
  st_matrix : typed (psMatrixClock ps);
  st_count : (psEventCount ps <= maxInt)%N
}.
#[export] Instance ProcessState_typed : Typed ProcessState := ProcessState_typed'.

#[export] Instance MessagePayload_typed : Typed MessagePayload := λ m,
  typed (mpSentVC m) ∧ typed (mpSentLC m).

Record Event_typed' (e : Events.Event) : Prop := {
  et_local : typed (evLocalSeq e);
  et_global : typed (evGlobalSeq e);
  et_lamport : typed (evLamportClock e);
  et_vector : typed (evVectorClock e);
  et_matrix : typed (evMatrixClock e);
  et_message : typed (evMessage e)
}.
#[export] Instance Event_typed : Typed Events.Event := Event_typed'.

Record EventBus_typed' (b : EventBus) : Prop := {
  bt_publish : typed (Events.publish b);
  bt_chans : typed (chans b);
  bt_history : typed (history b);
  bt_seq : typed (globalSeq b);
  bt_drops : typed (dropCount b);
  bt_dropLogged : typed (dropLogged b);
  bt_logged : typed (logged b)
}.
#[export] Instance EventBus_typed : Typed EventBus := EventBus_typed'.

(** A delay is a [time.Duration], an [int64]. *)
Definition int64 (z : Z) : Prop := (-9223372036854775808 <= z < 9223372036854775808)%Z.
#[export] Instance Duration_typed : Typed Z := int64.
#[export] Instance delayed_typed : Typed (ChannelKey * Message) := λ km, typed km.2.

Record SimTransport_typed' (t : SimTransport) : Prop := {
  tt_channels : typed (channels t);
  tt_delays : typed (delays t);
  tt_reorder : typed (reorderBuf t);
  tt_delayed : typed (delayed t)
}.
#[export] Instance SimTransport_typed : Typed SimTransport := SimTransport_typed'.

#[export] Instance local_state_typed : Typed local_state := λ st,
  match st with LProcess ps => typed ps | LMap vc => typed vc | LNil | LOther => True end.
#[export] Instance SMessage_typed : Typed SMessage := λ m, typed (sSenderVC m).
#[export] Instance ChannelState_typed : Typed ChannelState := λ cs, typed (csMessages cs).
#[export] Instance LocalSnapshot_typed : Typed LocalSnapshot := λ ls,
  typed (lsLocalState ls) ∧ typed (lsRecordedChans ls).
#[export] Instance GlobalSnapshot_typed : Typed GlobalSnapshot := λ gs, typed (gsLocalStates gs).
#[export] Instance procSnapState_typed : Typed procSnapState := λ st,
  typed (localState st) ∧ typed (recordedChans st).
#[export] Instance processSnapshot_typed : Typed processSnapshot := λ ps, typed (perSnap ps).

Record SnapshotCoordinator_typed' (c : SnapshotCoordinator) : Prop := {
  ct_snapshots : typed (snapshots c);
  ct_procs : typed (procStates c)
}.
#[export] Instance SnapshotCoordinator_typed : Typed SnapshotCoordinator := SnapshotCoordinator_typed'.

#[export] Instance Net_typed : Typed Net := λ n, typed (transport n) ∧ typed (coordinator n).

Record World_typed' (w : World Net) : Prop := {
  wt_bus : typed (bus w);
  wt_net : typed (net w);
  wt_trail : typed (trail w)
}.
#[export] Instance World_typed : Typed (World Net) := World_typed'.

#[export] Instance GraphEvent_typed : Typed Causality.Event := λ e, typed (Causality.LocalSeq e).
#[export] Instance CausalGraph_typed : Typed CausalGraph := λ g, typed (Causality.events g).

Record Simulation_typed' (s : Simulation) : Prop := {
  sit_processes : typed (processes s);
  sit_retired : typed (retired s);
  sit_world : typed (world s);
  sit_graph : typed (causalGraph s);
  sit_handoff : typed (handoff s)
}.
#[export] Instance Simulation_typed : Typed Simulation := Simulation_typed'.

(** ** Clocks and the hold-back queue *)
Section clocks.
Context `{MapRange}.

Lemma Tick_typed (vc : VectorClock) p : typed vc → typed (VClock.Tick vc p).
Proof. rewrite !typed_clock. apply Tick_wf. Qed.

Lemma Receive_typed (l m : VectorClock) p : typed l → typed m → typed (VClock.Receive l m p).
Proof. rewrite !typed_clock. apply Receive_wf. Qed.

Lemma VClock_New_typed pids : typed (VClock.New pids).
Proof. apply typed_clock. intros k. by rewrite VClock.New_get. Qed.

Lemma MTick_typed (mc : MatrixClock) p : typed mc → typed (Matrix.Tick mc p).
Proof.
  rewrite !typed_matrix. intros Hmc k q. rewrite Tick_cell. case_decide; [apply u64_add_bound|apply Hmc].
Qed.

Lemma MReceive_typed (l m : MatrixClock) p s : typed l → typed m → typed (Matrix.Receive l m p s).
Proof.
  rewrite !typed_matrix. intros Hl Hm k q. rewrite Receive_cell.
  pose proof (Hl k q). pose proof (Hm s q). pose proof (Hm k q). pose proof (Hl p q).
  pose proof (u64_add_bound (cell l p p) 1 : (u64_succ (cell l p p) < two64)%N).
  repeat case_decide; apply N.max_lub_lt; done.
Qed.

Lemma MNew_typed pids : typed (Matrix.New pids).
Proof. apply typed_matrix. intros p q. by rewrite New_cell. Qed.

Lemma LReceive_typed (c : LamportClock) ts : typed (Lamport.Receive c ts).1.
Proof. unfold typed, LamportClock_typed. rewrite lamport_receive_value. apply typed_u64_succ. Qed.

Lemma deliver_clock_typed (vc : VectorClock) h self :
  typed vc → typed h → typed (deliver_clock vc h self).
Proof.
  intros Hvc [_ Hh]. unfold deliver_clock. rewrite Copy_id. apply typed_insert; [|apply typed_u64_succ].
  apply (for_range_keeps typed); [done|]. intros k v l Hv Hl. apply (typed_lookup _ _ _ Hh) in Hv.
  repeat case_match; eauto with typed.
Qed.

Lemma TryDeliver_typed q (vc : VectorClock) self :
  typed (pending q) → typed vc →
  typed (TryDeliver q vc self).1.1 ∧ typed (TryDeliver q vc self).1.2 ∧
  typed (pending (TryDeliver q vc self).2).
Proof.
  intros Hq Hvc. unfold TryDeliver.
  assert (∀ fuel l dl (v : VectorClock) r, typed l → typed dl → typed v →
    TryDeliver_loop fuel l dl v self = Some r → typed r.1.1 ∧ typed r.1.2 ∧ typed r.2) as Hloop.
  { induction fuel as [|fuel IH]; intros l dl v r Hl Hd Hv; [done|]. simpl.
    destruct (scan 0 l v) as [[j h]|] eqn:Es; [|by intros [= <-]].
    apply scan_Some in Es as (pre & post & -> & -> & _).
    pose proof (swap_pop_perm pre h post) as Hp.
    assert (typed (h :: swap_pop (pre ++ h :: post) (0 + length pre))) as [Hh Hrest]%typed_cons.
    { unfold typed, list_typed in *. by rewrite Hp. }
    apply IH; [done|apply typed_snoc; [done|apply Hh]|by apply deliver_clock_typed]. }
  destruct (TryDeliver_loop _ _ _ _ _) as [[[ds v] l]|] eqn:E; [|split_and!; [constructor|done|done]].
  apply Hloop in E; [done|done|constructor|done].
Qed.
End clocks.

#[export] Hint Resolve Tick_typed Receive_typed VClock_New_typed MTick_typed MReceive_typed MNew_typed
  LReceive_typed : typed.

(** ** The bus and the transport *)
Section parts.
Context `{MapRange}.

Lemma Publish_typed b e : typed b → typed e → typed (Publish b e).
Proof.
  intros [] He. unfold Publish. destruct (_ <? _).
  - split; simpl; eauto with typed.
  - destruct (_ <=? _)%N; split; simpl; eauto with typed.
Qed.

Lemma NextSeq_typed b : typed b → typed (NextSeq b).1.
Proof. intros []. split; simpl; eauto with typed. Qed.

Lemma Stop_typed b : typed b → typed (Events.Stop b).
Proof. by intros []. Qed.

Lemma Recv_typed b ch : typed b → typed (Recv b ch).1 ∧ typed (Recv b ch).2.
Proof.
  intros Hb. unfold Recv. destruct (chans b !! ch) as [[|e q]|] eqn:E; simpl; eauto with typed.
  pose proof (typed_lookup _ _ _ (bt_chans _ Hb) E) as [He Hq]%typed_cons. destruct Hb.
  split; [split|]; simpl; eauto with typed.
Qed.

Lemma fanout_typed b e : typed b → typed e → typed (fanout b e).
Proof.
  intros [] He. split; simpl; try done. rewrite for_range_foldl.
  apply (foldl_inv typed (λ _, True)); [|by apply Forall_true|done].
  intros cs [ch types] _ Hcs. simpl. destruct (_ || _); [|done]. unfold offer.
  destruct (cs !! ch) as [q|] eqn:E; [|done]. apply (typed_lookup _ _ _ Hcs) in E.
  destruct (_ <? _); eauto with typed.
Qed.

Lemma loop_typed b quit : typed b → typed (Events.loop b quit).
Proof.
  intros Hb. unfold Events.loop. destruct (negb _); [done|].
  destruct (_ && _); [by destruct Hb|]. destruct (Events.publish b) as [|e q] eqn:E; [done|].
  pose proof (bt_publish _ Hb) as Hq. rewrite E in Hq. apply typed_cons in Hq as [He Hq].
  apply fanout_typed; [|done]. destruct Hb. split; simpl; eauto with typed.
Qed.

Lemma NewEventBus_typed : typed NewEventBus.
Proof. split; simpl; eauto with typed. by apply Forall_replicate. Qed.

Lemma sendToChannel_typed t key m : typed t → typed m → typed (sendToChannel t key m).1.
Proof.
  intros [] Hm. unfold sendToChannel. destruct (closed t); [done|]. destruct (_ <? _); [|done].
  split; simpl; eauto with typed.
Qed.

Lemma transport_Send_typed t from to m : typed t → typed m → typed (Transport.Send t from to m).1.
Proof.
  intros Ht Hm. pose proof Ht as []. unfold Transport.Send. destruct (closed t); [done|].
  destruct (channels t !! (from, to)); [|done].
  destruct (_ && _); [done|]. destruct (default false _); [done|].
  destruct (reorderBuf t !! (from, to)) as [[bm|]|] eqn:Er; simpl.
  - assert (typed bm) as Hbm by (by apply (tt_reorder0 _ _ Er)).
    set (t1 := set_faults _ _ _ _ _). assert (typed t1) as Ht1 by (split; simpl; eauto with typed).
    pose proof (sendToChannel_typed t1 (from, to) m Ht1 Hm) as Ht2.
    destruct (sendToChannel t1 (from, to) m) as [t2 [err|]]; [done|]. by apply sendToChannel_typed.
  - split; simpl; eauto with typed.
  - destruct (_ <? _)%Z; [|by apply sendToChannel_typed]. split; simpl; eauto with typed.
Qed.

Lemma fire_typed t i : typed t → typed (default t (fire_delayed t i)).
Proof.
  intros []. unfold fire_delayed. destruct (delayed t !! i) as [[key m]|] eqn:E; [|done].
  assert (typed m) as Hm by (by apply (typed_elem _ (key, m) tt_delayed0); eapply list_elem_of_lookup_2).
  assert (typed (delete i (delayed t))) as Hd by by apply Forall_delete.
  destruct (closed t); [done|]. destruct (_ <? _); [|done]. split; simpl; eauto with typed.
Qed.

Lemma forward_typed t key quit :
  typed t → typed (forward t key quit).1 ∧ typed (forward t key quit).2.
Proof.
  intros Ht. pose proof Ht as []. unfold forward. destruct (_ && _); [eauto with typed|].
  destruct (channels t !! key) as [[|m q]|] eqn:E; [eauto with typed| |eauto with typed].
  apply (typed_lookup _ _ _ tt_channels0) in E as [Hm Hq]%typed_cons. simpl.
  split; [split|]; simpl; eauto with typed. case_bool_decide; eauto with typed.
Qed.
End parts.

(** ** The coordinator *)
Section coordinator.
Context `{MapRange}.
Implicit Types c : SnapshotCoordinator.

Lemma perSnap_typed c pid ps : typed c → procStates c !! pid = Some ps → typed (perSnap ps).
Proof. intros [_ Hp]. apply (typed_lookup _ _ _ Hp). Qed.

Lemma set_state_typed c pid s ps st :
  typed c → typed (perSnap ps) → typed st → typed (set_state c pid s ps st).
Proof.
  intros [Hs Hp] Hps Hst. split; simpl; [done|]. apply typed_insert; [done|]. by apply typed_insert.
Qed.

Lemma emit_typed c os : typed c → typed (emit c os).
Proof. by intros []. Qed.

Lemma add_peer_typed pid ps : typed ps → typed (add_peer pid ps).
Proof. unfold add_peer. by destruct (existsb _ _). Qed.

Lemma coord_Register_typed c pid l : typed c → typed (Snapshot.RegisterProcess c pid l).
Proof.
  intros [Hs Hp]. split; simpl; [done|]. intros q st. rewrite map_lookup_imap.
  destruct (decide (q = pid)) as [->|Hne].
  - rewrite lookup_insert_eq. simpl. rewrite bool_decide_true by done. intros [= <-]. apply typed_empty.
  - rewrite lookup_insert_ne by done. destruct (procStates c !! q) as [ps|] eqn:E; [|done].
    simpl. rewrite bool_decide_false by done. intros [= <-]. by apply add_peer_typed, (Hp q).
Qed.

Lemma Deregister_typed c pid : typed c → typed (DeregisterProcess c pid).
Proof.
  intros [Hs Hp]. split; simpl; [done|]. intros q st. rewrite lookup_fmap, fmap_Some.
  intros (ps & [_ E]%lookup_delete_Some & ->). exact (Hp q ps E).
Qed.

Lemma copyChannelStates_typed m : typed m → typed (copyChannelStates m).
Proof.
  intros Hm. apply (for_range_keeps typed); [apply typed_empty|]. intros k v acc Hv Hacc.
  apply typed_insert; [done|]. exact (Hm k v Hv).
Qed.

Lemma checkFinalized_typed c s pid t : typed c → typed (checkFinalized c s pid t).
Proof.
  intros Hc. unfold checkFinalized. destruct (procStates c !! pid) as [ps|] eqn:Ep; [|done].
  pose proof (perSnap_typed _ _ _ Hc Ep) as Hps.
  destruct (perSnap ps !! s) as [st|] eqn:Est; [|done].
  pose proof (typed_lookup _ _ _ Hps Est) as [Hl Hr]. destruct (_ && _); [done|].
  match goal with |- context [set_state c pid s ps ?st] =>
    assert (typed (set_state c pid s ps st)) as Hc1 by (by apply set_state_typed) end.
  destruct (snapshots _ !! s) as [gs|] eqn:Eg; [|done].
  pose proof (typed_lookup _ _ _ (ct_snapshots _ Hc1) Eg) as Hg.
  match goal with |- context [set_local_states gs (<[pid := ?ls]> _)] =>
    assert (typed (<[pid := ls]> (gsLocalStates gs))) as Hgs
      by (apply typed_insert; [done|split; [done|by apply copyChannelStates_typed]]) end.
  destruct Hc1. destruct (IsComplete _ _); split; simpl in *; try done; by apply typed_insert.
Qed.

(** The loops that open channels. *)
Lemma open_channels_typed (f : gmap string ChannelState → string → gmap string ChannelState) l acc :
  (∀ m p, f m p = m ∨ f m p = <[p := open_channel p]> m) → typed acc → typed (foldl f acc l).
Proof.
  intros Hf. apply (foldl_inv typed (λ _, True)); [|by apply Forall_true].
  intros m p _ Hm. destruct (Hf m p) as [-> | ->]; [done|]. apply typed_insert; [done|apply typed_nil].
Qed.

Lemma Initiate_typed c i t capture :
  typed c → typed (capture i) → typed (InitiateSnapshot c i t capture).1.
Proof.
  intros Hc Hi. unfold InitiateSnapshot. cbv zeta.
  match goal with |- context [set_snapshots c ?m] => assert (typed (set_snapshots c m)) as Hc1 end.
  { destruct Hc. split; simpl; [|done]. apply typed_insert; [done|apply typed_empty]. }
  destruct (procStates _ !! i) as [ps|] eqn:Ep; [|done]. pose proof (perSnap_typed _ _ _ Hc1 Ep) as Hps.
  apply emit_typed, set_state_typed; [done..|].
  split; [done|]. apply open_channels_typed; [by right|apply typed_empty].
Qed.

Lemma OnMarkerReceived_typed c pid from s st t :
  typed c → typed st → typed (OnMarkerReceived c pid from s st t).
Proof.
  intros Hc Hst. unfold OnMarkerReceived. destruct (procStates c !! pid) as [ps|] eqn:Ep; [|done].
  pose proof (perSnap_typed _ _ _ Hc Ep) as Hps. set (ss := default _ _).
  assert (typed ss) as Hss.
  { apply typed_default; [done|]. split; [done|apply typed_empty]. }
  clearbody ss. pose proof Hss as [Hl Hr].
  assert (typed (finalize from (recordedChans ss))) as Hfin.
  { unfold finalize. destruct (recordedChans ss !! from) as [cs|] eqn:E; (apply typed_insert; [done|]).
    - exact (Hr from cs E).
    - apply typed_nil. }
  destruct (role ss); [|by apply checkFinalized_typed, set_state_typed..|by apply set_state_typed].
  apply checkFinalized_typed, emit_typed, set_state_typed; [done..|].
  split; [done|]. apply open_channels_typed; [|apply typed_insert; [done|apply typed_nil]].
  intros m p. case_bool_decide; [|by left]. destruct (m !! p); [by left|by right].
Qed.

Lemma RecordMessage_typed c s pid from m :
  typed c → typed m → typed (RecordMessage c s pid from m).
Proof.
  intros Hc Hm. unfold RecordMessage. destruct (procStates c !! pid) as [ps|] eqn:Ep; [|done].
  pose proof (perSnap_typed _ _ _ Hc Ep) as Hps. destruct (perSnap ps !! s) as [st|] eqn:Est; [|done].
  pose proof (typed_lookup _ _ _ Hps Est) as [Hl Hr].
  destruct (recordedChans st !! from) as [cs|] eqn:Ecs; [|done].
  pose proof (typed_lookup _ _ _ Hr Ecs) as Hcs. destruct (csFinalized cs); [done|].
  apply set_state_typed; [done..|]. split; [done|]. apply typed_insert; [done|]. by apply typed_snoc.
Qed.
End coordinator.

(** ** The world and the processes *)
Section processes.
Context `{MapRange} (now : nat → Z).
Implicit Types w : World Net.

Lemma publish_event_typed w e :
  typed w → typed e → typed (publish_event w (NextSeq (bus w)).1 e).
Proof.
  intros [] He. split; simpl; [|done|by apply typed_snoc]. apply Publish_typed; [|done].
  by apply NextSeq_typed.
Qed.

Lemma set_net_typed w n : typed w → typed n → typed (set_net w n).
Proof. by intros []. Qed.

Lemma set_bus_typed w b : typed w → typed b → typed (set_bus w b).
Proof. by intros []. Qed.

Lemma on_transport_typed w f :
  typed w → (∀ t, typed t → typed (f t)) → typed (on_transport w f).
Proof. intros [? [] ?] Hf. split; simpl; [done| |done]. split; simpl; eauto. Qed.

Lemma transmit_typed w m : typed w → typed m → typed (transmit w m).1.
Proof.
  intros Hw Hm. unfold transmit, xport_Send, net_transport.
  pose proof (transport_Send_typed (transport (net w)) (From m) (To m) m) as Hs.
  destruct (Transport.Send _ _ _ _) as [t err]. destruct Hw as [? [] ?]. split; simpl; [done| |done].
  split; simpl; eauto.
Qed.

Lemma publish_snapshot_typed w t pid p : typed w → typed (publish_snapshot w t pid p).
Proof.
  intros Hw. apply publish_event_typed; [done|]. split; simpl; eauto with typed.
Qed.

Lemma callback_typed w o : typed w → typed (callback w o).
Proof.
  intros Hw. destruct o as [from to sid|sid]; simpl; [|by apply publish_snapshot_typed].
  pose proof (transmit_typed w (marker_message from to sid) Hw) as Ht. destruct (transmit _ _).
  apply publish_snapshot_typed, Ht. split; simpl; eauto with typed.
Qed.

Lemma coord_call_typed w f :
  typed w → (∀ c, typed c → typed (f c)) → typed (coord_call w f).
Proof.
  intros Hw Hf. apply (foldl_inv typed (λ _, True)); [|by apply Forall_true|].
  - intros. by apply callback_typed.
  - pose proof Hw as [? [? Hc] ?]. apply Hf in Hc. destruct Hc. apply set_net_typed; [done|by split].
Qed.

Lemma time_typed w : typed w → typed (time_Now now w).1.
Proof. by intros []. Qed.

(** A process and its world. *)
Definition both_typed (pw : Process * World Net) : Prop := typed pw.1 ∧ typed pw.2.

Lemma emit_event_typed p w t msg :
  both_typed (p, w) → typed msg → both_typed (emitEventLocked now (p, w) t msg).
Proof.
  intros [Hp Hw] Hm. split; simpl; [by destruct Hp; split; simpl; eauto with typed|].
  apply (publish_event_typed (time_Now now w).1); [by apply time_typed|].
  destruct Hp. split; simpl; eauto with typed.
  - intros v. rewrite fmap_Some. intros (x & E & ->). by apply (pt_lamport0 x).
  - intros v. rewrite fmap_Some. intros (x & E & ->). rewrite Copy_id. by apply (pt_vector0 x).
  - intros v. rewrite fmap_Some. intros (x & E & ->). rewrite DeepCopy_id. by apply (pt_matrix0 x).
Qed.

Lemma snapshotLocked_typed p : typed p → typed (snapshotLocked p).
Proof.
  intros []. split; simpl.
  - destruct (lamportClock p) as [c|] eqn:E; [by apply (pt_lamport0 c)|done].
  - intros v. rewrite fmap_Some. intros (x & E & ->). rewrite Copy_id. by apply (pt_vector0 x).
  - intros v. rewrite fmap_Some. intros (x & E & ->). rewrite DeepCopy_id. by apply (pt_matrix0 x).
  - unfold clampUint64ToInt. destruct (N.ltb_spec maxInt (localSeq p)); [done|lia].
Qed.

Lemma default_typed {A} `{Typed A} (d : A) o : typed o → typed d → typed (default d o).
Proof. intros Ho Hd. destruct o; [by apply Ho|done]. Qed.

Lemma tickClock_typed p : typed p → typed (tickClock p).
Proof.
  intros Hp. unfold tickClock. repeat case_bool_decide; [..|done]; destruct Hp; split; simpl; try done.
  - intros c. rewrite fmap_Some. intros (x & _ & ->). apply typed_u64_succ.
  - apply typed_Some, Tick_typed, default_typed; eauto with typed.
  - apply typed_Some, MTick_typed, default_typed; eauto with typed.
Qed.

Lemma receiveClock_typed p m : typed p → typed m → typed (receiveClock p m).
Proof.
  intros Hp []. unfold receiveClock. repeat case_bool_decide; [..|done]; destruct Hp; split; simpl; try done.
  - intros c. rewrite fmap_Some. intros (x & _ & ->). apply LReceive_typed.
  - apply typed_Some, Receive_typed; [apply default_typed; eauto with typed|done].
  - apply typed_Some, MReceive_typed; [apply default_typed; eauto with typed|done].
Qed.

(** The stamps [sendClock] makes. *)
Lemma sendClock_typed p :
  typed p → typed (sendClock p).1 ∧
  let '(lc, vc, mc) := (sendClock p).2 in typed lc ∧ typed vc ∧ typed mc.
Proof.
  intros Hp. assert (typed (default ∅ (vectorClock p)) ∧ typed (default ∅ (matrixClock p))) as [Hv Hm].
  { destruct Hp. split; apply default_typed; eauto with typed. }
  unfold sendClock. repeat case_bool_decide; [destruct (lamportClock p) as [c|] eqn:E|..]; simpl.
  - destruct Hp. split; [split; simpl; try done|]; try split_and!; eauto with typed.
  - split_and!; eauto with typed.
  - rewrite Copy_id. destruct Hp. split; [split; simpl|]; try split_and!; eauto with typed.
  - rewrite DeepCopy_id. destruct Hp. split; [split; simpl|]; try split_and!; eauto with typed.
  - split_and!; eauto with typed.
Qed.

Lemma payload_typed m data vc lc : typed vc → typed lc → typed (Some (payload m data vc lc)).
Proof. intros. apply typed_Some. by split. Qed.

Lemma prepare_typed p w to data p' w' m :
  both_typed (p, w) → prepare now p w to data = (p', w', m) → both_typed (p', w') ∧ typed m.
Proof.
  intros [Hp Hw]. unfold prepare, time_Now.
  assert (typed (set_seqs p (u64_succ (msgSeq p)) (localSeq p))) as Hp1
    by (destruct Hp; split; simpl; eauto with typed).
  pose proof (sendClock_typed _ Hp1) as Hs.
  destruct (sendClock _) as [p1 [[lc vc] mc]]. destruct Hs as (Hp2 & Hl & Hv & Hm).
  cbv zeta beta iota. intros E.
  match type of E with (emitEventLocked _ ?pw _ ?msg, ?m) = _ =>
    assert (both_typed (emitEventLocked now pw EvtSend msg)) as He end.
  { apply emit_event_typed; [|by apply payload_typed]. split; [done|by apply time_typed]. }
  injection E as E1 E2 <-. split; [|by split]. by rewrite <- E1, <- E2.
Qed.

Lemma Send_typed p w to data p' w' err :
  both_typed (p, w) → Process.Send now p w to data = (p', w', err) → both_typed (p', w').
Proof.
  intros Hpw. unfold Process.Send. destruct (prepare now p w to data) as [[p1 w1] m] eqn:E.
  destruct (prepare_typed _ _ _ _ _ _ _ Hpw E) as [[Hp1 Hw1] Hm].
  pose proof (transmit_typed w1 m Hw1 Hm) as Ht. destruct (transmit w1 m) as [w2 e2].
  intros [= <- <- _]. by split.
Qed.

Lemma broadcast_typed peers p w data p' w' err :
  both_typed (p, w) → broadcast_loop now peers p w data = (p', w', err) → both_typed (p', w').
Proof.
  revert p w. induction peers as [|peer peers IH]; intros p w Hpw; simpl; [by intros [= <- <- _]|].
  destruct (Process.Send now p w peer data) as [[p1 w1] [e|]] eqn:E; apply (Send_typed _ _ _ _ _ _ _ Hpw) in E.
  - by intros [= <- <- _].
  - by apply IH.
Qed.

Lemma OnMarker_typed pid from s st w : typed w → typed st → typed (OnMarker now pid from s st w).
Proof.
  intros Hw Hst. unfold OnMarker. apply coord_call_typed; [by apply time_typed|].
  intros c Hc. by apply OnMarkerReceived_typed.
Qed.

Lemma set_queues_typed p i q : typed p → typed i → typed (pending q) → typed (set_queues p i q).
Proof. by intros []. Qed.

Lemma set_vector_typed p (v : VectorClock) : typed p → typed v → typed (set_vector p (Some v)).
Proof. intros [] Hv. split; simpl; eauto with typed. Qed.

Lemma causal_deliver_typed p w m p' w' ds :
  both_typed (p, w) → typed m → causal_deliver now p w m = (p', w', ds) →
  both_typed (p', w') ∧ typed ds.
Proof.
  intros [Hp Hw] [Hv Hmc Hl]. unfold causal_deliver. cbv zeta.
  set (p1 := set_vector _ _). assert (typed p1) as Hp1.
  { apply set_vector_typed, Receive_typed; [done| |done]. destruct Hp. apply default_typed; eauto with typed. }
  pose proof (emit_event_typed p1 w EvtReceive (Some (payload m (Data m) (SentVC m) 0))
    (conj Hp1 Hw) (payload_typed m _ _ _ Hv typed_zero)) as He.
  destruct (emitEventLocked _ _ _ _) as [p2 w2]. destruct He as [Hp2 Hw2]. simpl in Hp2, Hw2.
  assert (typed (VClock.Copy (default ∅ (vectorClock p2)))) as Hvc.
  { rewrite Copy_id. destruct Hp2. apply default_typed; eauto with typed. }
  pose proof (TryDeliver_typed (hbq p2) _ (cfgID (cfg p)) (pt_held _ Hp2) Hvc) as Ht.
  destruct (TryDeliver _ _ _) as [[dl v] q]. destruct Ht as (Hd & Hv' & Hq). intros [= <- <- <-].
  split; [split; [|done]|done]. apply set_queues_typed; [by apply set_vector_typed|by destruct Hp2|done].
Qed.

Lemma deliverCausal_typed p w m :
  both_typed (p, w) → typed m → both_typed (deliverCausal now p w m).
Proof.
  intros [Hp Hw] Hm. unfold deliverCausal. cbv zeta. destruct (canDeliver _ _ _).
  - destruct (causal_deliver now p w m) as [[p1 w1] ds] eqn:E.
    destruct (causal_deliver_typed _ _ _ _ _ _ (conj Hp Hw) Hm E) as [Hpw Hds].
    apply (foldl_inv both_typed (typed (A:=Message))); [|done|done].
    intros [p2 w2] d _ H2. apply emit_event_typed; [done|]. apply payload_typed; eauto with typed.
  - apply emit_event_typed; [split; [|done]|].
    + destruct Hm. apply set_queues_typed; [done|by destruct Hp|]. destruct Hp.
      apply typed_snoc; [done|]. by repeat split.
    + destruct Hm. apply payload_typed; eauto with typed.
Qed.

Lemma handleMessage_typed pid p w m :
  both_typed (p, w) → typed m → both_typed (handleMessage now (Some (OnMarker now pid)) p w m).
Proof.
  intros [Hp Hw] Hm. unfold handleMessage. destruct (IsMarker m).
  - apply emit_event_typed; [split; [done|]|].
    + apply OnMarker_typed; [done|by apply snapshotLocked_typed].
    + apply typed_Some. split; simpl; eauto with typed.
  - assert (both_typed (deliverImmediate now p w m)) as Hi.
    { apply emit_event_typed; [split; [by apply receiveClock_typed|done]|].
      destruct Hm. by apply payload_typed. }
    cbv zeta. repeat case_bool_decide; first [exact Hi|by apply deliverCausal_typed].
Qed.

Lemma record_arrival_typed pid m w : typed m → typed w → typed (record_arrival pid m w).
Proof.
  intros Hm Hw. unfold record_arrival. destruct (IsMarker m); [done|].
  apply (foldl_inv typed (λ _, True)); [|by apply Forall_true|done].
  intros w' x _ Hw'. apply coord_call_typed; [done|]. intros c Hc. apply RecordMessage_typed; [done|].
  destruct Hm. unfold typed, SMessage_typed. simpl. rewrite Copy_id. by apply typed_Some.
Qed.

Lemma Process_New_typed c : typed (Process.New c).
Proof. split; simpl; repeat case_bool_decide; eauto with typed. all: by intros ? [= <-]. Qed.
End processes.

(** ** Simulations *)
Section simulations.
Context `{MapRange} (now : nat → Z).
Implicit Types s : Simulation.

Lemma set_procs_typed s ps rt w :
  typed s → typed ps → typed rt → typed w → typed (Simulation.set_procs s ps rt w).
Proof. by intros []. Qed.

Lemma set_world_typed s w : typed s → typed w → typed (set_world s w).
Proof. by intros []. Qed.

Lemma set_handoff_typed s w h : typed s → typed w → typed h → typed (set_handoff s w h).
Proof. by intros []. Qed.

(** A call on one of the processes. *)
Lemma call_typed s pid p p' w :
  typed s → processes s !! pid = Some p → both_typed (p', w) →
  typed (Simulation.set_procs s (<[pid := p']> (processes s)) (retired s) w).
Proof. intros [] _ [Hp Hw]. apply set_procs_typed; [done|by apply typed_insert|done|done]. Qed.

Lemma New_typed c : typed (Simulation.New c).
Proof.
  split; simpl; eauto with typed. split; simpl; [|by repeat split; simpl; eauto with typed|apply typed_nil].
  pose proof NewEventBus_typed as []. split; simpl; eauto with typed.
Qed.

Lemma spawn_typed s c : typed s → typed (spawn now s c).
Proof.
  intros Hs. unfold spawn. cbv zeta. set (c1 := Build_ProcessConfig _ _ _ _ _).
  match goal with |- context [coord_call ?w ?f] => assert (typed (coord_call w f)) as Hw; [|set (w1 := coord_call w f) in *] end.
  { apply coord_call_typed; [|intros co Hco; by apply coord_Register_typed].
    apply on_transport_typed; [apply on_transport_typed; [by destruct Hs|]|].
    - by intros t [].
    - intros t Ht. apply (for_range_keeps typed); [done|]. intros q _ t' _ Ht'. case_bool_decide; [done|].
      assert (∀ t from to, typed t → typed (Transport.RegisterChannel t from to)) as Hreg; [|by do 2 apply Hreg].
      intros t0 from to Ht0. unfold Transport.RegisterChannel. destruct (channels t0 !! _); [done|].
      destruct Ht0. split; simpl; eauto with typed. }
  match goal with |- context [Process.Start now ?p w1] =>
    assert (both_typed (Process.Start now p w1)) as Hst end.
  { apply emit_event_typed; [split; [apply Process_New_typed|done]|apply typed_None]. }
  destruct (Process.Start _ _ _) as [p w]. destruct Hst as [Hp Hw1]. pose proof Hs as [Hps Hrt _ _ _].
  apply set_procs_typed; [done| |by apply typed_delete|done]. apply typed_insert; [|done].
  intros q x. rewrite map_lookup_imap.
  destruct (<[_ := _]> (processes s) !! q) as [y|] eqn:E; [|done]. simpl. intros [= <-].
  assert (typed y) as Hy.
  { eapply (typed_lookup (<[cfgID c := Process.New c1]> (processes s))); [|exact E].
    apply typed_insert; [done|apply Process_New_typed]. }
  case_bool_decide; [done|]. unfold AddPeer. destruct (existsb _ _); [done|by destruct Hy].
Qed.

Lemma Process_Stop_typed p w : both_typed (p, w) → both_typed (Process.Stop now p w).
Proof.
  intros [Hp Hw]. apply emit_event_typed; [|apply typed_None]. split; [by destruct Hp|done].
Qed.

Lemma capture_typed s pid : typed s → typed (capture_state s pid).
Proof.
  intros [Hps _ _ _ _]. unfold capture_state. destruct (processes s !! pid) as [p|] eqn:E; [|done].
  by apply snapshotLocked_typed, (Hps pid).
Qed.

Lemma object_typed s pid p : typed s → object s pid = Some p → typed p.
Proof.
  intros [Hps Hrt _ _ _]. unfold object. destruct (processes s !! pid) as [p0|] eqn:E.
  - intros [= <-]. by apply (Hps pid).
  - apply Hrt.
Qed.

Lemma set_object_typed s pid p w : typed s → both_typed (p, w) → typed (set_object s pid p w).
Proof.
  intros Hs [Hp Hw]. pose proof Hs as []. unfold set_object.
  destruct (processes s !! pid); (apply set_procs_typed; [done| | |done]); try done; by apply typed_insert.
Qed.

Lemma faults_typed s f :
  typed s → (∀ t, typed t → typed (f t)) → typed (set_world s (on_transport (world s) f)).
Proof. intros Hs Hf. apply set_world_typed; [done|]. apply on_transport_typed; [by destruct Hs|done]. Qed.

Lemma millis_int64 ms : int64 (millis ms).
Proof. unfold int64, millis. pose proof (Z.mod_pos_bound (ms * 1000000 + 9223372036854775808) 18446744073709551616). lia. Qed.

Lemma Stop_sim_typed s : typed s → typed (Simulation.Stop now s).
Proof.
  intros Hs. unfold Simulation.Stop.
  match goal with |- context [for_range _ ?body ?init] =>
    assert (typed (for_range (processes s) body init).1 ∧ typed (for_range (processes s) body init).2) as Hst;
      [|destruct (for_range (processes s) body init) as [procs w]] end.
  { apply (for_range_keeps (λ a, typed a.1 ∧ typed a.2)); [by destruct Hs|].
    intros pid p [procs w] Hp [Hps Hw]. simpl in *.
    pose proof (Process_Stop_typed p w (conj (sit_processes _ Hs pid p Hp) Hw)) as [Hp' Hw'].
    split; [by apply typed_insert|done]. }
  destruct Hst as [Hps Hw]. apply set_procs_typed; [done|done|by destruct Hs|].
  apply on_transport_typed; [|by intros t []].
  apply set_bus_typed; [done|]. apply Stop_typed. by destruct Hw.
Qed.

Lemma forward_step_typed s key quit : typed s → typed (forward_step s key quit).
Proof.
  intros Hs. pose proof Hs as [_ _ [Hb [Ht Hc] Htr] _ Hh]. unfold forward_step.
  destruct (handoff s !! key); [done|].
  destruct (forward_typed _ key quit Ht) as [Ht' Hm]. destruct (forward _ key quit) as [t [m|]]; simpl in *.
  - specialize (Hm m eq_refl). apply set_handoff_typed; [done| |by apply typed_insert].
    apply record_arrival_typed; [done|]. split; [done|by split|done].
  - apply set_world_typed; [done|]. split; [done|by split|done].
Qed.

Lemma deliver_step_typed s key drop : typed s → typed (deliver_step s key drop).
Proof.
  intros Hs. unfold deliver_step. destruct (handoff s !! key) as [m|] eqn:Em; [|done].
  destruct (object s key.2) as [p|] eqn:Ep; [|done]. destruct (Deliver p m drop) as [p'|] eqn:Ed; [|done].
  pose proof (object_typed _ _ _ Hs Ep) as Hp. pose proof (sit_handoff _ Hs key m Em) as Hm.
  assert (typed p') as Hp'.
  { revert Ed. unfold Deliver. destruct (_ && _); [by intros [= <-]|]. destruct (_ <? _).
    - intros [= <-]. destruct Hp. apply set_queues_typed; [done|by apply typed_snoc|done].
    - destruct (cancelled p); [by intros [= <-]|done]. }
  pose proof (set_object_typed s key.2 p' (world s) Hs (conj Hp' (sit_world _ Hs))) as Ho.
  cbv zeta. apply set_handoff_typed; [done|by destruct Ho|]. apply typed_delete. by destruct Ho.
Qed.

Lemma process_step_typed s pid : typed s → typed (process_step now s pid).
Proof.
  intros Hs. unfold process_step. destruct (object s pid) as [p|] eqn:Ep; [|done].
  pose proof (object_typed _ _ _ Hs Ep) as Hp. destruct (inbound p) as [|m q] eqn:Ei; [done|].
  pose proof (pt_inbound _ Hp) as Hin. rewrite Ei in Hin. apply typed_cons in Hin as [Hm Hq].
  assert (typed (set_queues p q (hbq p))) as Hp1 by (destruct Hp; by apply set_queues_typed).
  pose proof (handleMessage_typed now pid _ (world s) m (conj Hp1 (sit_world _ Hs)) Hm) as Hh.
  destruct (handleMessage _ _ _ _ _) as [p' w']. by apply set_object_typed.
Qed.

Lemma graph_typed s quit : typed s → typed (handleCausalGraphEvents s quit).
Proof.
  intros Hs. pose proof Hs as [Hps Hrt [Hb Hn Htr] Hg Hh]. unfold handleCausalGraphEvents.
  destruct (negb _); [done|]. destruct (_ && _); [done|].
  destruct (Recv_typed _ (cgCh s) Hb) as [Hb' He]. destruct (Recv _ _) as [b [e|]]; [|done].
  specialize (He e eq_refl). split; simpl; [done|done|by split| |done].
  assert (typed (AddEvent (causalGraph s) (graph_event e))) as Ha.
  { apply typed_insert; [done|]. unfold graph_event. destruct He. by repeat case_bool_decide. }
  unfold graph_step. destruct (evMessage e) as [m|]; [|done]. by destruct (_ && _).
Qed.

Lemma sim_exec_typed s op : typed s → typed (sim_exec now s op).
Proof.
  intros Hs. destruct op; simpl.
  - unfold SpawnProcess. repeat case_match; try done. by apply spawn_typed.
  - unfold KillProcess. destruct (processes s !! id) as [p|] eqn:E; [|done].
    pose proof Hs as [Hps Hrt Hw _ _].
    pose proof (coord_call_typed (world s) (λ c, DeregisterProcess c id) Hw (λ c, Deregister_typed c id)) as Hw1.
    pose proof (Process_Stop_typed p _ (conj (Hps id p E) Hw1)) as [Hp Hw2].
    destruct (Process.Stop _ _ _) as [p' w']. apply set_procs_typed; [done| | |done].
    + by apply typed_delete.
    + by apply typed_insert.
  - unfold SendMessage. destruct (processes s !! from) as [p|] eqn:E; [|done].
    destruct (Process.Send now p (world s) to data) as [[p' w'] err] eqn:Es.
    eapply call_typed; [done..|]. eapply Send_typed; [|done]. pose proof Hs as [Hps _ Hw _ _]. split; [by apply (Hps from)|done].
  - unfold BroadcastMessage. destruct (processes s !! from) as [p|] eqn:E; [|done].
    destruct (Process.Broadcast now p (world s) data) as [[p' w'] err] eqn:Es.
    eapply call_typed; [done..|]. eapply broadcast_typed; [|done]. pose proof Hs as [Hps _ Hw _ _]. split; [by apply (Hps from)|done].
  - unfold InternalEvent. destruct (processes s !! pid) as [p|] eqn:E; [|done].
    pose proof Hs as [Hps _ Hw _ _].
    apply (call_typed s pid p); [done..|]. apply emit_event_typed; [|apply typed_None].
    split; [by apply tickClock_typed, (Hps pid)|done].
  - unfold TriggerSnapshot. destruct (processes s !! initiatorID); [|done]. cbn [time_Now].
    match goal with |- context [coord_call ?w ?f] => assert (typed (coord_call w f)) as Hw end.
    { apply coord_call_typed; [apply (time_typed now); by destruct Hs|]. intros c Hc.
      apply Initiate_typed; [done|by apply capture_typed]. }
    destruct (InitiateSnapshot _ _ _ _).2; apply set_world_typed; try done.
    by apply publish_snapshot_typed.
  - apply faults_typed; [done|]. intros t []. split; simpl; try done.
    apply typed_insert; [done|apply millis_int64].
  - apply faults_typed; [done|]. by intros t [].
  - apply faults_typed; [done|]. by intros t [].
  - apply faults_typed; [done|]. intros t []. split; simpl; eauto with typed.
  - apply faults_typed; [done|]. intros t []. split; simpl; eauto with typed.
  - apply set_procs_typed; try (by destruct Hs). intros q p. rewrite lookup_fmap, fmap_Some.
    intros (x & E & ->). pose proof (sit_processes _ Hs q x E) as Hx. by destruct Hx.
  - by apply Stop_sim_typed.
  - by apply forward_step_typed.
  - by apply deliver_step_typed.
  - by apply process_step_typed.
  - apply faults_typed; [done|]. intros t Ht. by apply fire_typed.
  - apply set_world_typed; [done|]. apply set_bus_typed; [by destruct Hs|]. apply loop_typed. by destruct Hs as [_ _ [] _ _].
  - by apply graph_typed.
Qed.

(** What the queries return. *)
Lemma History_typed b : typed b → typed (History b).
Proof.
  intros []. unfold History. destruct (_ =? _); [apply typed_nil|]. destruct (_ <? _).
  - by apply Forall_take.
  - apply Forall_fmap, Forall_true. intros i. simpl.
    destruct (history b !! _) as [e|] eqn:E; [|done]. by eapply typed_elem, list_elem_of_lookup_2.
Qed.

Lemma GetState_typed s : typed s → typed (stProcesses (GetState s)).
Proof.
  intros [Hps _ _ _ _]. apply (for_range_keeps typed); [apply typed_nil|].
  intros q p acc E Hacc. apply typed_snoc; [done|]. by apply snapshotLocked_typed, (Hps q).
Qed.

End simulations.
