(* ===== verification/Scenarios.v ===== *)
(** * The canned scenarios (src/internal/simulation/scenarios.go, and the
    runner of src/gateway/rest.go)

    A scenario is a list of steps, each a pause, a line of narration and a call
    of the simulation.  The file has the eight scenarios as they are written,
    the runner's loop, and what the scenarios do: on a simulation that already
    has a process "P1", and on an empty one whose goroutines get all the time
    they need during the pauses. *)
From stdpp Require Import gmap strings list.
From S2P Require Import Prelude Lamport Matrix VClock Causality Events Snapshot HoldBack Process.
From S2P Require Import Transport Simulation.

(** ** Data *)

(** A function from a simulation to an error, as the steps have them. *)
Definition Action : Type := Simulation → Simulation * option string.

(** [type ScenarioStep struct] and [type Scenario struct]; a [time.Duration]
    counts nanoseconds. *)
Record ScenarioStep := { Delay : Z; Action_ : option Action; Narrate : string }.
Record Scenario := { Name : string; Description : string; Steps : list ScenarioStep }.

(** [n * time.Millisecond] *)
Definition Millisecond (n : Z) : Z := (n * 1000000)%Z.

Section scenarios.
Context `{MapRange} (now : nat → Z).

(** The loop [for _, id := range ids] of the first steps. *)
Fixpoint spawn_each (ids : list string) (clockType mode : string) : Action := λ s,
  match ids with
  | [] => (s, None)
  | id :: ids =>
      match SpawnProcess now s {| cfgID := id; cfgClockType := clockType; cfgDeliveryMode := mode;
                                  cfgPeers := []; cfgAllPIDs := [] |} with
      | (s, Some err) => (s, Some err)
      | (s, None) => spawn_each ids clockType mode s
      end
  end.

Definition send (from to data : string) : Action := λ s, SendMessage now s from to (AString data).
Definition internal (pid : string) : Action := λ s, Simulation.InternalEvent now s pid.
Definition trigger (pid : string) : Action := λ s,
  match TriggerSnapshot now s pid with (s, inl _) => (s, None) | (s, inr err) => (s, Some err) end.
Definition set_partition (groups : list (list string)) : Action := λ s, (SetPartition s groups, None).

(** [_ = s.SendMessage(...)], followed by more. *)
Definition ignoring (a b : Action) : Action := λ s, b (a s).1.

(** A step, with its pause in milliseconds. *)
Definition step (ms : Z) (narrate : string) (a : Action) : ScenarioStep :=
  {| Delay := Millisecond ms; Action_ := Some a; Narrate := narrate |}.

Definition falseConflict : Scenario :=
  {| Name := "FalseConflict";
     Description := "VV false conflict: P1->P2 replication triggers false conflict in plain VCs but not DVV";
     Steps := [
       step 0 "Spawning P1, P2 with Vector clocks" (spawn_each ["P1"; "P2"] ClockVector "");
       step 50 "P1 writes key x = v1" (internal "P1");
       step 50 "P1 sends to P2 (replication)" (send "P1" "P2" "replicate: x=v1");
       step 100 "P2 writes key x = v2 (causally after v1)" (internal "P2");
       step 50 "P2 sends to P1 (replication back)" (send "P2" "P1" "replicate: x=v2")] |}.

Definition ring_round (data : string) : Action :=
  ignoring (send "P1" "P2" data) (ignoring (send "P2" "P3" data)
    (ignoring (send "P3" "P4" data) (send "P4" "P1" data))).

Definition matrixGC : Scenario :=
  {| Name := "MatrixGC";
     Description := "4-process matrix clock: MinKnowledge grows through exchange rounds";
     Steps := [
       step 0 "Spawning P1-P4 with Matrix clocks" (spawn_each ["P1"; "P2"; "P3"; "P4"] ClockMatrix "");
       step 30 "Round 1: P1→P2, P2→P3, P3→P4, P4→P1" (ring_round "r1");
       step 30 "Round 2: P1→P2, P2→P3, P3→P4, P4→P1" (ring_round "r2");
       step 30 "Round 3: P1→P2, P2→P3, P3→P4, P4→P1" (ring_round "r3")] |}.

Definition partitionAndHeal : Scenario :=
  {| Name := "PartitionAndHeal";
     Description := "4 processes: partition {P1,P2}|{P3,P4}, isolate, heal, converge";
     Steps := [
       step 0 "Spawning P1-P4 with Vector clocks" (spawn_each ["P1"; "P2"; "P3"; "P4"] ClockVector "");
       step 30 "Partition: {P1,P2} | {P3,P4} — cross-group messages dropped"
         (set_partition [["P1"; "P2"]; ["P3"; "P4"]]);
       step 50 "P1→P3 (dropped by partition)" (send "P1" "P3" "cross-partition");
       step 30 "P1→P2 (in-group, delivered)" (send "P1" "P2" "in-partition");
       step 30 "P3→P4 (in-group, delivered)" (send "P3" "P4" "in-partition");
       step 50 "Heal: remove partition" (set_partition []);
       step 50 "P1→P3 (now delivered after heal)" (send "P1" "P3" "post-heal")] |}.

Definition basicLamport : Scenario :=
  {| Name := "BasicLamport";
     Description := "3 processes, 5 events demonstrating Lamport total order";
     Steps := [
       step 0 "Spawning P1, P2, P3 with Lamport clocks" (spawn_each ["P1"; "P2"; "P3"] ClockLamport "");
       step 100 "P1 internal event" (internal "P1");
       step 100 "P1 sends to P2" (send "P1" "P2" "hello");
       step 150 "P2 receives and sends to P3" (send "P2" "P3" "world");
       step 100 "P3 internal event" (internal "P3")] |}.

Definition concurrentWrites : Scenario :=
  {| Name := "ConcurrentWrites";
     Description := "2 processes write concurrently — vector clock detects concurrent events";
     Steps := [
       step 0 "Spawning P1, P2 with Vector clocks" (spawn_each ["P1"; "P2"] ClockVector "");
       step 100 "P1 internal event (concurrent with P2)" (internal "P1");
       step 0 "P2 internal event (concurrent with P1)" (internal "P2")] |}.

Definition causalViolation : Scenario :=
  {| Name := "CausalViolation";
     Description := "Immediate delivery shows causal violation: P3 gets reply before question";
     Steps := [
       step 0 "Spawning with IMMEDIATE delivery (no hold-back queue)"
         (spawn_each ["P1"; "P2"; "P3"] ClockVector ImmediateDelivery);
       step 50 "P1 sends question to P2" (send "P1" "P2" "question");
       step 50 "P2 replies to P3 (causally after question)" (send "P2" "P3" "answer")] |}.

Definition causalDelivery : Scenario :=
  {| Name := "CausalDelivery";
     Description := "Causal delivery: hold-back queue ensures P3 gets question before answer";
     Steps := [
       step 0 "Spawning with CAUSAL delivery (hold-back queue active)"
         (spawn_each ["P1"; "P2"; "P3"] ClockVector CausalDelivery);
       step 50 "P1 sends question to P2" (send "P1" "P2" "question");
       step 50 "P2 replies to P3" (send "P2" "P3" "answer")] |}.

Definition snapshot3P : Scenario :=
  {| Name := "Snapshot3P";
     Description := "3-process Chandy-Lamport: marker propagation animated step by step";
     Steps := [
       step 0 "Spawning 3 processes with vector clocks" (spawn_each ["P1"; "P2"; "P3"] ClockVector "");
       step 100 "P1 sends to P2 (message in flight)" (send "P1" "P2" "data");
       step 50 "P1 initiates global snapshot" (trigger "P1")] |}.

Definition AllScenarios : list Scenario :=
  [basicLamport; concurrentWrites; causalViolation; causalDelivery; snapshot3P; falseConflict;
   matrixGC; partitionAndHeal].

(** ** The runner *)

(** The event that announces a step. *)
Definition step_event (gseq : N) (narration : string) : Events.Event :=
  {| evID := ""; evType := EvtScenarioStep; evProcessID := ""; evTimestamp := 0; evLocalSeq := 0;
     evGlobalSeq := gseq; evLamportClock := None; evVectorClock := None; evMatrixClock := None;
     evMessage := None; evSnapshot := None; evConflict := None; evNarration := narration |}.

(** The body of the loop in [handleRunScenario], after the pause: a failed
    action is logged and the loop goes on. *)
Definition run_step (s : Simulation) (st : ScenarioStep) : Simulation :=
  let s := if bool_decide (Narrate st ≠ "") then
             let '(b, gseq) := NextSeq (bus (world s)) in
             set_world s (publish_event (world s) b (step_event gseq (Narrate st)))
           else s in
  match Action_ st with Some a => (a s).1 | None => s end.

(** The loop; [pauses] says what happens to the simulation before each step,
    while the runner sleeps or waits for the simulation's locks. *)
Fixpoint run_scenario (steps : list ScenarioStep) (pauses : nat → list sim_op) (s : Simulation) :
    Simulation :=
  match steps with
  | [] => s
  | st :: steps => run_scenario steps (λ i, pauses (S i)) (run_step (sim_run now s (pauses 0)) st)
  end.
End scenarios.

(** What holds of the calls the scenarios use holds of all their actions. *)
Lemma actions_ind `{MapRange} now (K : Action → Prop) :
  (∀ ids ct mode, K (spawn_each now ("P1" :: ids) ct mode)) →
  (∀ from to data, K (send now from to data)) → (∀ pid, K (internal now pid)) →
  (∀ pid, K (trigger now pid)) → (∀ groups, K (set_partition groups)) →
  (∀ a b, K a → K b → K (ignoring a b)) →
  ∀ sc st a, sc ∈ AllScenarios now → st ∈ Steps sc → Action_ st = Some a → K a.
Proof.
  intros Hsp Hse Hin Htr Hpa Hig sc st a Hsc Hst Ha.
  apply list_elem_of_In in Hsc, Hst. cbn [In AllScenarios] in Hsc.
  repeat destruct Hsc as [<-|Hsc]; try done;
    cbn [In Steps falseConflict matrixGC partitionAndHeal basicLamport concurrentWrites
         causalViolation causalDelivery snapshot3P] in Hst;
    repeat destruct Hst as [<-|Hst]; try done; cbn [Action_ step] in Ha; apply (inj Some) in Ha; subst a;
    unfold ring_round; auto 6.
Qed.

(** ** On a simulation that already has "P1" *)
Section taken.
Context `{MapRange} (now : nat → Z).

(** Neither a spawn nor a kill. *)
Definition keeps_membership (op : sim_op) : Prop :=
  match op with OSpawn _ | OKill _ => False | _ => True end.
#[export] Instance keeps_membership_dec op : Decision (keeps_membership op).
Proof. destruct op; apply _. Defined.

(** An action keeps the set of processes of every simulation that has "P1". *)
Definition keeps_members (a : Action) : Prop :=
  ∀ s, is_Some (processes s !! "P1") → dom (processes (a s).1) = dom (processes s).

Lemma op_keeps_members op s :
  keeps_membership op → dom (processes (sim_exec now s op)) = dom (processes s).
Proof.
  intros Hop. apply set_eq. intros q. rewrite !elem_of_dom.
  apply sim_le_alive, sim_exec_le; by intros ? ->.
Qed.

Lemma send_keeps from to data : keeps_members (send now from to data).
Proof. intros s _. by apply (op_keeps_members (OSend from to (AString data))). Qed.
Lemma internal_keeps pid : keeps_members (internal now pid).
Proof. intros s _. by apply (op_keeps_members (OInternal pid)). Qed.
Lemma trigger_keeps pid : keeps_members (trigger now pid).
Proof.
  intros s _. unfold trigger. rewrite <- (op_keeps_members (OTrigger pid) s) by done. simpl.
  by destruct (TriggerSnapshot now s pid) as [? [?|?]].
Qed.
Lemma set_partition_keeps groups : keeps_members (set_partition groups).
Proof. intros s _. done. Qed.
Lemma ignoring_keeps a b : keeps_members a → keeps_members b → keeps_members (ignoring a b).
Proof.
  intros Ha Hb s Hs. unfold ignoring. rewrite Hb, Ha; [done|done|].
  rewrite <- (elem_of_dom (D := gset string)), Ha by done. by rewrite elem_of_dom.
Qed.

(** The spawning step of a scenario stops at its first process. *)
Lemma spawn_each_taken ids ct mode s :
  is_Some (processes s !! "P1") →
  spawn_each now ("P1" :: ids) ct mode s = (s, Some "process P1 already exists").
Proof. intros [p Hp]. simpl. unfold SpawnProcess. simpl. by rewrite Hp. Qed.

Lemma spawn_each_keeps ids ct mode : keeps_members (spawn_each now ("P1" :: ids) ct mode).
Proof. intros s Hs. by rewrite spawn_each_taken. Qed.

Lemma steps_keep sc st a :
  sc ∈ AllScenarios now → st ∈ Steps sc → Action_ st = Some a → keeps_members a.
Proof.
  apply actions_ind; auto using send_keeps, internal_keeps, trigger_keeps, set_partition_keeps,
    ignoring_keeps, spawn_each_keeps.
Qed.

Lemma run_step_keeps sc st s :
  sc ∈ AllScenarios now → st ∈ Steps sc → is_Some (processes s !! "P1") →
  dom (processes (run_step s st)) = dom (processes s).
Proof.
  intros Hsc Hst Hs. unfold run_step. destruct (Action_ st) as [a|] eqn:Ha.
  - pose proof (steps_keep sc st a Hsc Hst Ha) as Hkeep. case_bool_decide; [|by apply Hkeep].
    destruct (NextSeq _) as [b gseq]. by rewrite Hkeep.
  - by case_bool_decide.
Qed.

Lemma run_ops_keep ops s :
  Forall keeps_membership ops →
  dom (processes (sim_run now s ops)) = dom (processes s).
Proof.
  intros Hops. unfold sim_run.
  apply (foldl_inv (λ s', dom (processes s') = dom (processes s))
    keeps_membership); [|done|done].
  intros s' op Hop E. by rewrite op_keeps_members.
Qed.

Lemma run_scenario_keeps steps pauses s :
  (∀ st, st ∈ steps → ∃ sc, sc ∈ AllScenarios now ∧ st ∈ Steps sc) →
  (∀ i, Forall keeps_membership (pauses i)) →
  is_Some (processes s !! "P1") →
  dom (processes (run_scenario now steps pauses s)) = dom (processes s).
Proof.
  revert pauses s. induction steps as [|st steps IH]; intros pauses s Hst Hp Hs; [done|]. simpl.
  destruct (Hst st) as (sc & Hsc & Hin); [left|].
  assert (dom (processes (run_step (sim_run now s (pauses 0)) st)) = dom (processes s)) as E.
  { rewrite (run_step_keeps sc); [by apply run_ops_keep|done|done|].
    rewrite <- (elem_of_dom (D := gset string)), run_ops_keep, elem_of_dom by done. done. }
  rewrite IH; [done| |intros i; apply Hp|].
  - intros st' Hst'. apply Hst. by right.
  - by rewrite <- (elem_of_dom (D := gset string)), E, elem_of_dom.
Qed.

(** A scenario changes nothing about the processes of a simulation that
    already has a process "P1", as a freshly started server does.  Its first
    step fails at "P1" and spawns none of its processes, so the scenario runs
    on whatever processes, clocks and delivery modes there are; whatever the
    goroutines and other callers do in between, short of spawning and killing,
    the set of processes is the same at the end. *)
Theorem scenario_spawns_nothing sc s pauses :
  sc ∈ AllScenarios now → is_Some (processes s !! "P1") →
  (∀ i, Forall keeps_membership (pauses i)) →
  (∃ st a, head (Steps sc) = Some st ∧ Action_ st = Some a ∧
     a s = (s, Some "process P1 already exists")) ∧
  dom (processes (run_scenario now (Steps sc) pauses s)) = dom (processes s).
Proof.
  intros Hsc Hs Hp. split; [|apply run_scenario_keeps; eauto].
  apply list_elem_of_In in Hsc. cbn [In AllScenarios] in Hsc.
  repeat destruct Hsc as [<-|Hsc]; try done; do 2 eexists;
    (split; [reflexivity|split; [reflexivity|by apply spawn_each_taken]]).
Qed.
End taken.

(** ** On an empty simulation *)

(** Nothing is on its way: no message in a channel, in a goroutine's hands,
    behind a timer or in an inbox. *)
Definition quiet (s : Simulation) : Prop :=
  map_Forall (λ _ q, q = []) (channels (transport (net (world s)))) ∧ handoff s = ∅ ∧
  delayed (transport (net (world s))) = [] ∧
  map_Forall (λ _ p, inbound p = []) (processes s) ∧ map_Forall (λ _ p, inbound p = []) (retired s).

(** A message only needs to be compared with none. *)
#[export] Instance nil_dec {A} (l : list A) : Decision (l = []).
Proof. destruct l; [by left|by right]. Defined.
#[export] Instance empty_dec {A} (m : gmap (string * string) A) : Decision (m = ∅).
Proof.
  destruct (decide (map_to_list m = [])) as [E|E].
  - left. by apply map_to_list_empty_iff.
  - right. intros ->. apply E, map_to_list_empty.
Defined.
#[export] Instance quiet_dec s : Decision (quiet s).
Proof. unfold quiet. apply _. Defined.

(** The rounds of the goroutines. *)
Definition goroutine (op : sim_op) : bool :=
  match op with
  | OForward _ _ | ODeliver _ _ | OProcess _ | OTimer _ | OBus _ | OGraph _ => true
  | _ => false
  end.

Lemma quiet_step `{MapRange} now s op :
  quiet s → goroutine op = true →
  quiet (sim_exec now s op) ∧ processes (sim_exec now s op) = processes s ∧
  trail (world (sim_exec now s op)) = trail (world s).
Proof.
  intros (Hch & Hh & Hd & Hp & Hr) Hop. destruct op; try done; simpl.
  - unfold forward_step. rewrite Hh, lookup_empty. unfold forward.
    destruct (closed _ && quit); [by repeat split|].
    destruct (channels _ !! key) as [[|m q]|] eqn:E; [by repeat split| |by repeat split].
    by apply Hch in E.
  - unfold deliver_step. rewrite Hh, lookup_empty. by repeat split.
  - unfold process_step. destruct (object s pid) as [p|] eqn:E; [|by repeat split].
    replace (inbound p) with (@nil Message); [by repeat split|]. unfold object in E.
    destruct (processes s !! pid) as [p0|] eqn:E0; [|by apply Hr in E].
    simplify_eq. by apply Hp in E0.
  - unfold timer_step, on_transport, fire_delayed. rewrite Hd. by repeat split.
  - unfold handleCausalGraphEvents. destruct (negb _); [by repeat split|].
    destruct (_ && _); [by repeat split|]. destruct (Recv _ _) as [b [e|]]; by repeat split.
Qed.

Lemma quiet_run `{MapRange} now s ops :
  quiet s → Forall (λ op, goroutine op = true) ops →
  processes (sim_run now s ops) = processes s ∧ trail (world (sim_run now s ops)) = trail (world s).
Proof.
  intros Hq Hops.
  apply (foldl_inv (λ s', quiet s' ∧ processes s' = processes s ∧ trail (world s') = trail (world s))
    (λ op, goroutine op = true) (sim_exec now) ops s); [|done|done].
  intros s' op Hop (Hq' & Ep & Et). destruct (quiet_step now s' op Hq' Hop) as (? & -> & ->). done.
Qed.

Module Demo.
Definition clock (n : nat) : Z := 100 + Z.of_nat n.

(** The simulation with the server's default configuration, without processes. *)
Definition fresh : Simulation :=
  Simulation.New {| scClockType := ClockVector; scDeliveryMode := CausalDelivery;
                    scChannels := "full_mesh" |}.

(** Every channel and every process gets a round, several times. *)
Definition pids : list string := ["P1"; "P2"; "P3"; "P4"].
Definition everybody : list sim_op :=
  concat ((λ a, concat ((λ b, [OForward (a, b) false; ODeliver (a, b) false]) <$> pids)) <$> pids) ++
  (OProcess <$> pids).
Definition settled : list sim_op := concat (replicate 4 everybody).

(** The simulation after a scenario, all pauses long enough. *)
Definition final `{MapRange} (sc : Scenario) : Simulation :=
  sim_run clock (run_scenario clock (Steps sc) (λ _, settled) fresh) settled.

(** The processes and messages of the events of one type. *)
Definition about (t : string) (s : Simulation) : list (string * string) :=
  omap (λ e, if bool_decide (evType e = t)
             then m ← evMessage e; Some (evProcessID e, mpID m) else None) (trail (world s)).

(** What was received, what was held, what was released later. *)
Definition outcome `{MapRange} (sc : Scenario) :=
  let s := final sc in
  (Name sc, about EvtReceive s, about EvtHeld s, about EvtDelivered s).
End Demo.


(** A server's simulation, with "P1" to "P3" running. *)
Lemma scenario_spawns_nothing_witness :
  let r := canonical_range in
  let s := spawn_all Demo.clock Demo.fresh [Race.proc "P1"; Race.proc "P2"; Race.proc "P3"] in
  dom (processes (run_scenario Demo.clock (Steps (matrixGC Demo.clock)) (λ _, Demo.settled) s)) =
  dom (processes s).
Proof.
  intros r s. apply (scenario_spawns_nothing Demo.clock (matrixGC Demo.clock) s (λ _, Demo.settled)).
  - apply (list_elem_of_lookup_2 _ 6). reflexivity.
  - vm_compute. eauto.
  - intros _. by apply (bool_decide_unpack (Forall keeps_membership Demo.settled)); vm_compute.
Defined.
