(* ===== verification/GoStrings.v ===== *)
(** * Strings of bytes

    The functions of Go's [strings] package that the gateway uses, on strings as
    sequences of bytes, with their facts. *)
From Stdlib Require Import Ascii.
From stdpp Require Import gmap strings list.
From S2P Require Import Prelude.

(** ** Functions *)

(** [strings.IndexByte]; [None] is -1. *)
Fixpoint IndexByte (s : string) (c : ascii) : option nat :=
  match s with
  | EmptyString => None
  | String a s => if bool_decide (a = c) then Some 0 else S <$> IndexByte s c
  end.

(** [s[:i]] and [s[i:]]. *)
Fixpoint str_take (n : nat) (s : string) : string :=
  match n, s with
  | S n, String a s => String a (str_take n s)
  | _, _ => ""
  end.
Fixpoint str_drop (n : nat) (s : string) : string :=
  match n, s with
  | S n, String _ s => str_drop n s
  | _, _ => s
  end.

(** [strings.Split] by one byte. *)
Fixpoint Split (s : string) (c : ascii) : list string :=
  match s with
  | EmptyString => [""]
  | String a s =>
      if bool_decide (a = c) then "" :: Split s c
      else match Split s c with
           | piece :: rest => String a piece :: rest
           | [] => [String a ""]
           end
  end.

(** [strings.HasPrefix] with the rest of the string, and [TrimPrefix]. *)
Fixpoint strip (p s : list ascii) : option (list ascii) :=
  match p, s with
  | [], _ => Some s
  | a :: p, b :: s => if bool_decide (a = b) then strip p s else None
  | _ :: _, [] => None
  end.
Definition HasPrefix (s p : string) : bool :=
  bool_decide (is_Some (strip (String.list_ascii_of_string p) (String.list_ascii_of_string s))).
Definition TrimPrefix (s p : string) : string :=
  match strip (String.list_ascii_of_string p) (String.list_ascii_of_string s) with
  | Some rest => String.string_of_list_ascii rest
  | None => s
  end.

(** The encodings of the code points [unicode.IsSpace] accepts. *)
Definition space_runes : list (list ascii) :=
  map (map Ascii.ascii_of_nat)
    ([[9]; [10]; [11]; [12]; [13]; [32]; [194; 133]; [194; 160]; [225; 154; 128]] ++
     map (λ i, [226; 128; 128 + i]) (seq 0 11) ++
     [[226; 128; 168]; [226; 128; 169]; [226; 128; 175]; [226; 129; 159]; [227; 128; 128]]).

(** The first of some prefixes removed. *)
Fixpoint strip_any (ps : list (list ascii)) (s : list ascii) : option (list ascii) :=
  match ps with
  | [] => None
  | p :: ps => match strip p s with Some rest => Some rest | None => strip_any ps s end
  end.

(** Removing them again and again; every round shortens the list. *)
Fixpoint trim_left (fuel : nat) (ps : list (list ascii)) (s : list ascii) : list ascii :=
  match fuel with
  | 0 => s
  | S fuel => match strip_any ps s with Some rest => trim_left fuel ps rest | None => s end
  end.

(** [strings.TrimSpace]; the end is trimmed on the reversed bytes. *)
Definition TrimSpace (s : string) : string :=
  let l := String.list_ascii_of_string s in
  let l := trim_left (length l) space_runes l in
  let r := trim_left (length l) (map reverse space_runes) (reverse l) in
  String.string_of_list_ascii (reverse r).

(** [strings.ToLower] on the letters of ASCII; other code points are left
    alone.  Only two of those have an ASCII lower case, an i and a k. *)
Definition lower (a : ascii) : ascii :=
  let n := Ascii.nat_of_ascii a in
  if (65 <=? n) && (n <=? 90) then Ascii.ascii_of_nat (n + 32) else a.
Fixpoint ToLower (s : string) : string :=
  match s with
  | EmptyString => EmptyString
  | String a s => String (lower a) (ToLower s)
  end.

(** ** Facts *)

Lemma str_take_app n s : str_take (String.length n) (n +:+ s) = n.
Proof. induction n as [|a n IH]; [by destruct s|]. simpl. by rewrite IH. Qed.

Lemma str_drop_app n c s : str_drop (S (String.length n)) (n +:+ String c s) = s.
Proof. induction n as [|a n IH]; [by destruct s|]. exact IH. Qed.

Lemma IndexByte_app n c s : IndexByte n c = None → IndexByte (n +:+ String c s) c = Some (String.length n).
Proof.
  induction n as [|a n IH]; simpl; [by rewrite bool_decide_true|].
  case_bool_decide; [done|]. intros E. destruct (IndexByte n c); [done|]. by rewrite IH.
Qed.

Lemma IndexByte_split s c i :
  IndexByte s c = Some i →
  ∃ n t, s = n +:+ String c t ∧ IndexByte n c = None ∧ String.length n = i.
Proof.
  revert i. induction s as [|a s IH]; intros i; [done|]. simpl. case_bool_decide as Ha.
  - intros [= <-]. subst a. by exists "", s.
  - destruct (IndexByte s c) as [j|]; [|done]. intros [= <-].
    destruct (IH j eq_refl) as (n & t & -> & Hn & <-). exists (String a n), t.
    split; [done|]. simpl. by rewrite bool_decide_false, Hn.
Qed.

Lemma str_length_app n s : String.length (n +:+ s) = String.length n + String.length s.
Proof. induction n as [|a n IH]; [done|]. simpl. by rewrite IH. Qed.

Lemma Split_app e c s : IndexByte e c = None → Split (e +:+ String c s) c = e :: Split s c.
Proof.
  induction e as [|a e IH]; simpl; [by rewrite bool_decide_true|].
  case_bool_decide; [done|]. intros E. destruct (IndexByte e c); [done|]. by rewrite IH.
Qed.

Lemma Split_one e c : IndexByte e c = None → Split e c = [e].
Proof.
  induction e as [|a e IH]; [done|]. simpl. case_bool_decide; [done|]. intros E.
  destruct (IndexByte e c); [done|]. by rewrite IH.
Qed.

(** Splitting undoes joining. *)
Lemma Split_concat es c :
  es ≠ [] → Forall (λ e, IndexByte e c = None) es → Split (String.concat (String c "") es) c = es.
Proof.
  intros Hne Hes. induction Hes as [|e es He Hes IH]; [done|].
  destruct es as [|e' es]; [simpl; by apply Split_one|].
  change (String.concat (String c "") (e :: e' :: es))
    with (e +:+ String c (String.concat (String c "") (e' :: es))).
  by rewrite Split_app, IH.
Qed.

Lemma strip_app p s : strip p (p ++ s) = Some s.
Proof. induction p as [|a p IH]; [done|]. simpl. by rewrite bool_decide_true. Qed.

Lemma list_ascii_app s t :
  String.list_ascii_of_string (s +:+ t) = String.list_ascii_of_string s ++ String.list_ascii_of_string t.
Proof. induction s as [|a s IH]; [done|]. simpl. by rewrite IH. Qed.

Lemma TrimPrefix_app p s : TrimPrefix (p +:+ s) p = s.
Proof.
  unfold TrimPrefix. rewrite list_ascii_app, strip_app. apply String.string_of_list_ascii_of_string.
Qed.

(** ** Trimming *)

Lemma strip_spec p s rest : strip p s = Some rest ↔ s = p ++ rest.
Proof.
  revert s. induction p as [|a p IH]; intros s; simpl; [split; [by intros [= ->]|by intros ->]|].
  destruct s as [|b s]; [done|]. case_bool_decide as Hab.
  - subst. rewrite IH. split; [by intros ->|by intros [= ->]].
  - split; [done|]. by intros [= -> _].
Qed.

Lemma strip_any_Some ps s rest :
  strip_any ps s = Some rest → ∃ p, p ∈ ps ∧ s = p ++ rest.
Proof.
  induction ps as [|p ps IH]; [done|]. simpl. destruct (strip p s) as [r|] eqn:E.
  - intros [= <-]. apply strip_spec in E. exists p. split; [left|done].
  - intros Hr. destruct (IH Hr) as (q & ? & ?). exists q. by split; [right|].
Qed.

Lemma strip_any_None ps s : strip_any ps s = None ↔ ∀ p rest, p ∈ ps → s ≠ p ++ rest.
Proof.
  split.
  - intros Hn p rest Hp E. induction ps as [|q ps IH]; [by apply not_elem_of_nil in Hp|].
    simpl in Hn. destruct (strip q s) eqn:Eq; [done|].
    apply elem_of_cons in Hp as [->|Hp]; [|by apply IH].
    apply strip_spec in E. by rewrite E in Eq.
  - intros Hno. destruct (strip_any ps s) as [rest|] eqn:E; [|done].
    apply strip_any_Some in E as (p & Hp & E). by destruct (Hno p rest Hp).
Qed.

Section trim.
Context (ps : list (list ascii)) (Hps : Forall (λ p, p ≠ []) ps).

Lemma trim_left_spec fuel s :
  length s ≤ fuel →
  strip_any ps (trim_left fuel ps s) = None ∧ ∃ front, s = front ++ trim_left fuel ps s.
Proof.
  revert s. induction fuel as [|fuel IH]; intros s Hlen.
  - destruct s; [|simpl in Hlen; lia]. split; [|by exists []]. apply strip_any_None.
    intros p rest Hp E. rewrite Forall_forall in Hps. destruct p; [by destruct (Hps [] Hp)|done].
  - simpl. destruct (strip_any ps s) as [rest|] eqn:E; [|by split; [|exists []]].
    apply strip_any_Some in E as (p & Hp & ->). rewrite Forall_forall in Hps.
    rewrite length_app in Hlen. assert (length p ≠ 0) by (specialize (Hps p Hp); by destruct p).
    destruct (IH rest) as (Hn & front & Hf); [lia|]. split; [done|].
    exists (p ++ front). by rewrite <- (assoc_L (++)), <- Hf.
Qed.

Lemma trim_left_stop fuel s : strip_any ps s = None → trim_left fuel ps s = s.
Proof. intros Hn. destruct fuel; [done|]. simpl. by rewrite Hn. Qed.
End trim.

Lemma space_runes_nonempty : Forall (λ p, p ≠ []) space_runes.
Proof. by apply (bool_decide_unpack _). Qed.
Lemma space_runes_rev_nonempty : Forall (λ p, p ≠ []) (map reverse space_runes).
Proof. by apply (bool_decide_unpack _). Qed.

(** Trimming twice is trimming once. *)
Lemma TrimSpace_idem s : TrimSpace (TrimSpace s) = TrimSpace s.
Proof.
  unfold TrimSpace. set (l := String.list_ascii_of_string s).
  destruct (trim_left_spec space_runes space_runes_nonempty (length l) l (le_n _)) as [Hl _].
  set (l1 := trim_left (length l) space_runes l) in *.
  destruct (trim_left_spec (map reverse space_runes) space_runes_rev_nonempty (length l1) (reverse l1))
    as [Hr (front & Hf)]; [by rewrite length_reverse|].
  set (r := trim_left (length l1) (map reverse space_runes) (reverse l1)) in *.
  rewrite String.list_ascii_of_string_of_list_ascii.
  assert (strip_any space_runes (reverse r) = None) as Hl2.
  { apply strip_any_None. intros p rest Hp E. apply (proj1 (strip_any_None _ _) Hl p (rest ++ reverse front) Hp).
    rewrite <- (reverse_involutive l1), Hf, reverse_app, E. by rewrite (assoc_L (++)). }
  rewrite (trim_left_stop _ _ _ Hl2), reverse_involutive. by rewrite (trim_left_stop _ _ _ Hr).
Qed.

(** ** Substrings *)

(** [strings.Contains] *)
Fixpoint Contains (s sub : string) : bool :=
  HasPrefix s sub || match s with EmptyString => false | String _ s => Contains s sub end.
