(* ===== verification/Auth.v ===== *)
(** * Token authentication (src/gateway/auth/auth.go)

    Tokens come from an environment variable and a file, are kept by name, and
    a middleware checks the Authorization header against them.  Reading and
    decoding the JSON file is an argument. *)
From Stdlib Require Import Ascii.
From stdpp Require Import gmap strings list.
From S2P Require Import Prelude GoStrings.

(** ** Tokens *)

(** [type Token struct] and [type Manager struct]. *)
Record Token := { tkName : string; tkSecret : string }.
Record Manager := { tokens : gmap string Token }.

(** The text up to the first colon and the text after it, both non-empty: the
    test that [load], [Middleware] and [ReadTokensFile] share. *)
Definition split_pair (entry : string) : option (string * string) :=
  match IndexByte entry ":" with
  | None => None
  | Some idx =>
      if (idx =? 0) || (String.length entry - 1 <=? idx) then None
      else Some (str_take idx entry, str_drop (S idx) entry)
  end.

(** [set] *)
Definition set (ts : list Token) : Manager :=
  {| tokens := foldl (λ m t, <[tkName t := t]> m) ∅ ts |}.

(** The errors [load] builds, with what their texts quote. *)
Inductive load_error :=
  | FileError (path err : string)
  | MalformedEntry (entry : string)
  | NoTokens.

(** The loop of [load] over the entries of VC_API_TOKENS. *)
Fixpoint parse_entries (entries : list string) (ts : list Token) : list Token + load_error :=
  match entries with
  | [] => inl ts
  | entry :: entries =>
      let entry := TrimSpace entry in
      if bool_decide (entry = "") then parse_entries entries ts
      else match split_pair entry with
           | None => inr (MalformedEntry entry)
           | Some (name, secret) =>
               parse_entries entries (ts ++ [{| tkName := name; tkSecret := secret |}])
           end
  end.

(** The second half of [load]: the entries of the variable, after the tokens of
    the file. *)
Definition load_entries (ts : list Token) (raw : string) : Manager + load_error :=
  match (if bool_decide (raw = "") then inl ts else parse_entries (Split raw ",") ts) with
  | inr err => inr err
  | inl [] => inr NoTokens
  | inl ts => inl (set ts)
  end.

Section load.
(** The tokens in the file of that name, or why it cannot be read or decoded. *)
Context (read_file : string → list Token + string).

(** [load], with API_TOKENS_FILE and VC_API_TOKENS. *)
Definition load (path raw : string) : Manager + load_error :=
  if bool_decide (path = "") && bool_decide (raw = "") then inl {| tokens := ∅ |}
  else
    match (if bool_decide (path = "") then inl [] else read_file path) with
    | inr err => inr (FileError path err)
    | inl ts => load_entries ts raw
    end.

(** [NewManager]; it only wraps the error. *)
Definition NewManager (path raw : string) : Manager + load_error := load path raw.
End load.

Definition Enabled (m : Manager) : bool := negb (size (tokens m) =? 0).

(** [Validate]; comparing in constant time is comparing. *)
Definition Validate (m : Manager) (name secret : string) : bool :=
  match tokens m !! name with
  | None => false
  | Some t => bool_decide (tkSecret t = secret)
  end.

(** What the middleware does with a request: go on, with the token's name in
    the context when one was checked, or abort with 401. *)
Inductive verdict := Next (token : option string) | Unauthorized (msg : string).

Definition public (path : string) : bool :=
  bool_decide (path = "/healthz") || bool_decide (path = "/readyz") || bool_decide (path = "/metrics").

Definition Middleware (m : Manager) (path authz : string) : verdict :=
  if public path then Next None
  else if negb (Enabled m) then Next None
  else if bool_decide (authz = "") then Unauthorized "missing Authorization header"
  else match split_pair (TrimPrefix authz "Bearer ") with
       | None => Unauthorized "malformed Authorization header (expected 'name:secret')"
       | Some (name, secret) =>
           if Validate m name secret then Next (Some name) else Unauthorized "invalid credentials"
       end.

(** ** Token files *)

Definition MaxScanTokenSize : N := 65536.

Inductive scan_error := OpenError | MalformedLine (line : string) | TokenTooLong.

(** The loop of [ReadTokensFile] over the lines a [bufio.Scanner] gives: a
    line that does not fit its buffer ends the scan with an error, a carriage
    return at the end of a line is dropped. *)
Fixpoint scan_file (lines : list string) (ts : list Token) : list Token + scan_error :=
  match lines with
  | [] => inl ts
  | line :: lines =>
      if (MaxScanTokenSize <=? N.of_nat (String.length line))%N
      then inr TokenTooLong
      else
        let n := String.length line in
        let line := if bool_decide (str_drop (n - 1) line = String (Ascii.ascii_of_nat 13) "")
                    then str_take (n - 1) line else line in
        let line := TrimSpace line in
        if bool_decide (line = "") || HasPrefix line "#" then scan_file lines ts
        else match split_pair line with
             | None => inr (MalformedLine line)
             | Some (name, secret) =>
                 scan_file lines (ts ++ [{| tkName := name; tkSecret := secret |}])
             end
  end.

(** [ReadTokensFile], on the contents of the file if it can be opened. *)
Definition ReadTokensFile (contents : option string) : list Token + scan_error :=
  match contents with
  | None => inr OpenError
  | Some s => scan_file (Split s (Ascii.ascii_of_nat 10)) []
  end.

(** ** The pair format *)

Definition pair_text (name secret : string) : string := name +:+ String ":" secret.

Lemma split_pair_spec s name secret :
  split_pair s = Some (name, secret) ↔
  s = pair_text name secret ∧ name ≠ "" ∧ secret ≠ "" ∧ IndexByte name ":" = None.
Proof.
  unfold split_pair, pair_text. split.
  - destruct (IndexByte s ":") as [i|] eqn:E; [|done].
    apply IndexByte_split in E as (n & t & -> & Hn & <-). rewrite str_length_app, str_drop_app.
    cbn [String.length].
    destruct (_ || _) eqn:G; [done|]. apply orb_false_iff in G as [Hne%Nat.eqb_neq Hlt%Nat.leb_gt].
    rewrite str_take_app. intros [= -> ->].
    repeat split; [by intros ->|intros ->; simpl in Hlt; lia|done].
  - intros (-> & Hname & Hsecret & Hidx). rewrite IndexByte_app by done. rewrite str_length_app. cbn [String.length].
    destruct name as [|a name]; [done|]. destruct secret as [|b secret]; [done|].
    replace (_ || _) with false by (symmetry; apply orb_false_iff; split;
      [done|apply Nat.leb_gt; simpl; lia]).
    by rewrite str_take_app, str_drop_app.
Qed.

(** ** Facts about the tokens *)

(** The token that counts for a name is the last one given. *)
Definition last_named (ts : list Token) (name : string) : option Token :=
  last (filter (λ t, tkName t = name) ts).

Lemma set_lookup ts name : tokens (set ts) !! name = last_named ts name.
Proof.
  unfold set, last_named. simpl. induction ts as [|t ts IH] using rev_ind; [done|].
  rewrite foldl_app, filter_app. simpl. destruct (decide (tkName t = name)) as [<-|Hne].
  - by rewrite lookup_insert_eq, filter_cons_True, filter_nil, last_snoc.
  - rewrite lookup_insert_ne, filter_cons_False, filter_nil by done. by rewrite app_nil_r.
Qed.

Lemma Enabled_spec m : Enabled m = true ↔ ∃ name t, tokens m !! name = Some t.
Proof.
  unfold Enabled. rewrite negb_true_iff, Nat.eqb_neq. split.
  - intros Hne. destruct (map_choose (tokens m)) as (name & t & Ht); eauto.
    intros E. by rewrite E, map_size_empty in Hne.
  - intros (name & t & Ht) E. apply map_size_empty_inv in E. by rewrite E, lookup_empty in Ht.
Qed.

Lemma set_enabled ts : ts ≠ [] → Enabled (set ts) = true.
Proof.
  intros Hne. apply Enabled_spec. destruct ts as [|t ts] using rev_ind; [done|].
  exists (tkName t), t. rewrite set_lookup. unfold last_named.
  by rewrite filter_app, filter_cons_True, filter_nil, last_snoc.
Qed.

(** What an entry of the variable stands for. *)
Definition entry_token (entry : string) : option Token :=
  '(name, secret) ← split_pair (TrimSpace entry); Some {| tkName := name; tkSecret := secret |}.

Definition well_formed (entry : string) : Prop :=
  TrimSpace entry = "" ∨ is_Some (split_pair (TrimSpace entry)).

Lemma parse_entries_spec es ts :
  match parse_entries es ts with
  | inl ts' => ts' = ts ++ omap entry_token es ∧ Forall well_formed es
  | inr err => ∃ e, e ∈ es ∧ err = MalformedEntry (TrimSpace e) ∧ ¬ well_formed e
  end.
Proof.
  revert ts. induction es as [|e es IH]; intros ts; [by rewrite app_nil_r|]. simpl.
  case_bool_decide as Hblank.
  - specialize (IH ts). destruct (parse_entries es ts) as [ts'|err].
    + destruct IH as [-> Hes]. unfold entry_token. rewrite Hblank. simpl.
      split; [done|]. constructor; [by left|done].
    + destruct IH as (e' & ? & ? & ?). exists e'. by split; [right|].
  - destruct (split_pair (TrimSpace e)) as [[name secret]|] eqn:E.
    + specialize (IH (ts ++ [{| tkName := name; tkSecret := secret |}])).
      destruct (parse_entries es _) as [ts'|err].
      * destruct IH as [-> Hes]. unfold entry_token at 2. rewrite E. simpl.
        split; [by rewrite <- (assoc_L (++))|]. constructor; [right; by rewrite E|done].
      * destruct IH as (e' & ? & ? & ?). exists e'. by split; [right|].
    + exists e. split; [left|]. split; [done|]. intros [?|Hs]; [done|]. rewrite E in Hs. by destruct Hs.
Qed.

Lemma load_entries_spec ts raw :
  match load_entries ts raw with
  | inl m => Enabled m = true ∧ m = set (ts ++ omap entry_token (Split raw ",")) ∧
             Forall well_formed (Split raw ",")
  | inr (FileError _ _) => False
  | inr (MalformedEntry text) => ∃ e, e ∈ Split raw "," ∧ text = TrimSpace e ∧ ¬ well_formed e
  | inr NoTokens => ts = [] ∧ omap entry_token (Split raw ",") = []
  end.
Proof.
  unfold load_entries.
  replace (if bool_decide (raw = "") then inl ts else parse_entries (Split raw ",") ts)
    with (parse_entries (Split raw ",") ts) by (by case_bool_decide; subst).
  pose proof (parse_entries_spec (Split raw ",") ts) as Hp.
  destruct (parse_entries (Split raw ",") ts) as [ts'|err].
  - destruct Hp as [-> Hwf]. destruct (ts ++ _) as [|t0 ts0] eqn:E; [by apply app_eq_nil in E|].
    split; [by apply set_enabled|done].
  - destruct Hp as (e & He & -> & Hbad). eauto.
Qed.

(** C35: Loading fails closed.  Without configuration authentication is off; with
    it, a successful load always leaves authentication on, holding exactly the
    tokens of the file followed by those of the variable, each non-blank entry
    of which was "name:secret"; and every failure has its reason: the file
    could not be read, an entry is malformed, or nothing was configured. *)
Theorem load_fail_closed read_file path raw :
  match load read_file path raw with
  | inl m =>
      (Enabled m = false ↔ path = "" ∧ raw = "") ∧
      (path ≠ "" ∨ raw ≠ "" → ∃ ts,
         (path = "" ∧ ts = [] ∨ path ≠ "" ∧ read_file path = inl ts) ∧
         m = set (ts ++ omap entry_token (Split raw ",")) ∧ Forall well_formed (Split raw ","))
  | inr (FileError p err) => p = path ∧ path ≠ "" ∧ read_file path = inr err
  | inr (MalformedEntry text) => ∃ e, e ∈ Split raw "," ∧ text = TrimSpace e ∧ ¬ well_formed e
  | inr NoTokens =>
      (path = "" ∨ read_file path = inl []) ∧ (path ≠ "" ∨ raw ≠ "") ∧
      omap entry_token (Split raw ",") = []
  end.
Proof.
  unfold load. destruct (bool_decide (path = "") && bool_decide (raw = "")) eqn:Hoff.
  { apply andb_true_iff in Hoff as [->%bool_decide_eq_true ->%bool_decide_eq_true].
    split; [split; done|]. by intros [?|?]. }
  assert (path ≠ "" ∨ raw ≠ "") as Hon.
  { apply andb_false_iff in Hoff as [?%bool_decide_eq_false|?%bool_decide_eq_false]; auto. }
  clear Hoff.
  case_bool_decide as Hpath.
  - pose proof (load_entries_spec [] raw) as Hrest. destruct (load_entries [] raw) as [m|[p err|text|]];
      [|done|done|destruct Hrest; auto].
    destruct Hrest as (He & Hm & Hwf). rewrite He. split; [|eauto 6].
    split; [done|]. intros [_ ->]. by destruct Hon.
  - destruct (read_file path) as [ts|err] eqn:Hfile; [|done].
    pose proof (load_entries_spec ts raw) as Hrest. destruct (load_entries ts raw) as [m|[p err|text|]];
      [|done|done|destruct Hrest as [-> ?]; auto].
    destruct Hrest as (He & Hm & Hwf). rewrite He. split; [|eauto 6]. split; [done|]. by intros [-> _].
Qed.

(** ** The middleware *)

(** The header carries a configured token. *)
Definition carries (m : Manager) (authz name : string) : Prop :=
  ∃ t, TrimPrefix authz "Bearer " = pair_text name (tkSecret t) ∧ name ≠ "" ∧ tkSecret t ≠ "" ∧
    IndexByte name ":" = None ∧ tokens m !! name = Some t.

Lemma Validate_spec m name secret :
  Validate m name secret = true ↔ ∃ t, tokens m !! name = Some t ∧ tkSecret t = secret.
Proof.
  unfold Validate. destruct (tokens m !! name) as [t|]; [|naive_solver].
  rewrite bool_decide_eq_true. naive_solver.
Qed.

Lemma Middleware_free m path authz :
  Middleware m path authz = Next None ↔ public path = true ∨ Enabled m = false.
Proof.
  unfold Middleware. destruct (public path); [naive_solver|]. destruct (Enabled m); simpl; [|naive_solver].
  case_bool_decide; [naive_solver|]. destruct (split_pair _) as [[n s]|]; [|naive_solver].
  destruct (Validate m n s); naive_solver.
Qed.

Lemma Middleware_token m path authz name :
  Middleware m path authz = Next (Some name) ↔ public path = false ∧ Enabled m = true ∧ carries m authz name.
Proof.
  unfold Middleware, carries. destruct (public path); [naive_solver|].
  destruct (Enabled m); simpl; [|naive_solver]. case_bool_decide as Hempty.
  - subst. split; [done|]. intros (_ & _ & t & E & Hne & _). by destruct name.
  - destruct (split_pair (TrimPrefix authz "Bearer ")) as [[n s]|] eqn:E.
    + split.
      * destruct (Validate m n s) eqn:Hv; [|done]. intros [= <-].
        apply Validate_spec in Hv as (t & Ht & <-). apply split_pair_spec in E. naive_solver.
      * intros (_ & _ & t & E' & Hn' & Hs' & Hidx' & Ht).
        rewrite (proj2 (split_pair_spec _ name (tkSecret t))) in E by done. injection E as <- <-.
        by rewrite (proj2 (Validate_spec m name (tkSecret t))) by eauto.
    + split; [done|]. intros (_ & _ & t & E' & Hn & Hs & Hidx & Ht).
      by rewrite (proj2 (split_pair_spec _ name (tkSecret t))) in E.
Qed.

(** Everything else is refused. *)
Lemma Middleware_refuses m path authz :
  public path = false → Enabled m = true → (∀ name, ¬ carries m authz name) →
  ∃ msg, Middleware m path authz = Unauthorized msg.
Proof.
  intros Hp He Hno. destruct (Middleware m path authz) as [[name|]|msg] eqn:E; [| |eauto].
  - apply Middleware_token in E as (_ & _ & Hc). by destruct (Hno name).
  - apply Middleware_free in E as [?|?]; congruence.
Qed.

(** The middleware lets a request through exactly when its path is public,
    no token is configured, or its Authorization header (with or without
    "Bearer ") is a configured token's name, a colon and that token's secret;
    in the last case, and only then, the token's name is passed on.  A token
    with an empty secret or a colon in its name can never be used. *)
Theorem auth_gate m path authz :
  (Middleware m path authz = Next None ↔ public path = true ∨ Enabled m = false) ∧
  (∀ name, Middleware m path authz = Next (Some name) ↔
    public path = false ∧ Enabled m = true ∧ carries m authz name) ∧
  ∀ name t, tokens m !! name = Some t → tkSecret t = "" ∨ IndexByte name ":" ≠ None →
    Middleware m path authz ≠ Next (Some name).
Proof.
  split; [apply Middleware_free|]. split; [intros name; apply Middleware_token|].
  intros name t Ht Hbad E. apply Middleware_token in E as (_ & _ & t' & _ & _ & Hs & Hidx & Ht').
  rewrite Ht in Ht'. injection Ht' as <-. by destruct Hbad.
Qed.

(** A token that survives the formats unchanged. *)
Definition token_text (t : Token) : string := pair_text (tkName t) (tkSecret t).
Record plain_token (t : Token) : Prop := {
  pt_name : tkName t ≠ "";
  pt_secret : tkSecret t ≠ "";
  pt_colon : IndexByte (tkName t) ":" = None;
  pt_comma : IndexByte (token_text t) "," = None;
  pt_trim : TrimSpace (token_text t) = token_text t;
  pt_bearer : TrimPrefix (token_text t) "Bearer " = token_text t
}.

Lemma plain_pair t : plain_token t → split_pair (token_text t) = Some (tkName t, tkSecret t).
Proof. intros []. by apply split_pair_spec. Qed.

Lemma plain_entry t : plain_token t → entry_token (token_text t) = Some t.
Proof.
  intros Ht. unfold entry_token. rewrite (pt_trim t Ht), plain_pair by done. by destruct t.
Qed.

Lemma parse_plain ts : Forall plain_token ts → parse_entries (token_text <$> ts) [] = inl ts.
Proof.
  intros Hts. pose proof (parse_entries_spec (token_text <$> ts) []) as Hp.
  destruct (parse_entries _ _) as [ts'|err].
  - destruct Hp as [-> _]. f_equal. induction Hts as [|t ts Ht _ IH]; [done|].
    change (match entry_token (token_text t) with
            | Some u => u :: omap entry_token (token_text <$> ts)
            | None => omap entry_token (token_text <$> ts)
            end = t :: ts).
    rewrite plain_entry by done. f_equal. exact IH.
  - destruct Hp as (e & (t & -> & Ht)%list_elem_of_fmap & _ & Hbad). destruct Hbad. right.
    rewrite Forall_forall in Hts. specialize (Hts t Ht). rewrite (pt_trim t Hts), plain_pair; eauto.
Qed.

Lemma load_plain ts :
  ts ≠ [] → Forall plain_token ts →
  load_entries [] (String.concat "," (token_text <$> ts)) = inl (set ts).
Proof.
  intros Hne Hts. unfold load_entries.
  rewrite Split_concat; [|by destruct ts|apply Forall_fmap; by eapply Forall_impl; [|apply pt_comma]].
  rewrite parse_plain by done. destruct ts as [|t ts]; [done|]. rewrite bool_decide_false; [done|].
  apply Forall_cons in Hts as [Ht _]. destruct t as [[|a n] s]; [by destruct Ht|].
  by destruct ts.
Qed.

(** C36: Tokens make the round trip from the environment variable to the header.
    A non-empty list of plain tokens joined by commas loads as exactly these
    tokens, and afterwards each of them is accepted on every path that is not
    public, with or without "Bearer ", unless a later token of the same name
    has another secret, in which case it is refused. *)
Theorem auth_roundtrip read_file ts :
  ts ≠ [] → Forall plain_token ts →
  load read_file "" (String.concat "," (token_text <$> ts)) = inl (set ts) ∧
  ∀ t path header, t ∈ ts → public path = false →
    header = token_text t ∨ header = "Bearer " +:+ token_text t →
    Middleware (set ts) path header =
      if bool_decide (tkSecret <$> last_named ts (tkName t) = Some (tkSecret t))
      then Next (Some (tkName t)) else Unauthorized "invalid credentials".
Proof.
  intros Hne Hplain. split.
  - unfold load. pose proof (load_plain ts Hne Hplain) as Hl.
    destruct (bool_decide (String.concat _ _ = "")) eqn:E; [|exact Hl].
    apply bool_decide_eq_true in E. by rewrite E in Hl.
  - intros t path header Ht Hpath Hh. unfold Middleware. rewrite Hpath, set_enabled by done. simpl.
    rewrite Forall_forall in Hplain. specialize (Hplain t Ht).
    assert (TrimPrefix header "Bearer " = token_text t) as ->.
    { destruct Hh as [->| ->]; [by apply pt_bearer|apply TrimPrefix_app]. }
    rewrite bool_decide_false, plain_pair by
      (done || (destruct Hh as [->| ->]; [|done]; by destruct t as [[] ?], Hplain)).
    unfold Validate. rewrite set_lookup. destruct (last_named ts (tkName t)) as [t'|]; simpl.
    + repeat case_bool_decide; congruence.
    + done.
Qed.

Lemma auth_roundtrip_witness :
  Middleware (set [Build_Token "admin" "s3:cret"; Build_Token "bot" "b0t"]) "/ws" "Bearer admin:s3:cret" =
  Next (Some "admin").
Proof.
  set (ts := [Build_Token "admin" "s3:cret"; Build_Token "bot" "b0t"]).
  assert (Forall plain_token ts) as Hts.
  { repeat constructor; try done; vm_compute; reflexivity. }
  rewrite (proj2 (auth_roundtrip (λ _, inl []) ts ltac:(done) Hts)
    (Build_Token "admin" "s3:cret") "/ws" "Bearer admin:s3:cret"); [reflexivity|left|reflexivity|].
  by right.
Defined.

(** Names and secrets from a file are not checked: a server whose only token
    has no secret refuses every request that is not public. *)
Example unusable_token path authz :
  public path = false →
  ∃ msg, Middleware (set [Build_Token "admin" ""]) path authz = Unauthorized msg.
Proof.
  intros Hp. unfold Middleware. rewrite Hp, set_enabled by done. cbn [negb].
  destruct (bool_decide (authz = "")); [eauto|].
  destruct (split_pair _) as [[name secret]|] eqn:E; [|eauto].
  apply split_pair_spec in E as (_ & _ & Hs & _).
  destruct (Validate _ name secret) eqn:Hv; [|eauto].
  apply Validate_spec in Hv as (t & Ht & <-). rewrite set_lookup in Ht. unfold last_named in Ht.
  rewrite filter_cons, filter_nil in Ht. case_decide; [|done]. by injection Ht as <-.
Qed.
