(* ===== verification/RateLimit.v ===== *)
(** * The rate limiter (src/gateway/ratelimit.go)

    One token bucket per client address, refilled from the time that passed.
    The amounts are [float64], so the arithmetic is the IEEE 754 binary64
    arithmetic of the standard library's [SpecFloat]; times are nanoseconds. *)
From Stdlib Require Import SpecFloat.
From stdpp Require Import gmap strings list.
From S2P Require Import Prelude.

(** ** [float64] *)
Abbreviation float64 := spec_float.
Definition f_add : float64 → float64 → float64 := SFadd 53 1024.
Definition f_sub : float64 → float64 → float64 := SFsub 53 1024.
Definition f_mul : float64 → float64 → float64 := SFmul 53 1024.
Definition f_div : float64 → float64 → float64 := SFdiv 53 1024.
Definition f_lt : float64 → float64 → bool := SFltb.
(** [float64(z)] *)
Definition f_of_Z (z : Z) : float64 := binary_normalize 53 1024 z 0 false.

(** [Duration.Seconds]: the whole seconds plus the rest; Go's division
    truncates. *)
Definition Seconds (d : Z) : float64 :=
  f_add (f_of_Z (Z.quot d 1000000000)) (f_div (f_of_Z (Z.rem d 1000000000)) (f_of_Z 1000000000)).

(** ** Data *)

(** [type bucket struct] and [type rateLimiter struct]. *)
Record bucket := { btokens : float64; blast : Z }.
Record rateLimiter := { buckets : gmap string bucket; rate : float64; burst : float64 }.

Definition newRateLimiter (rate burst : float64) : rateLimiter :=
  {| buckets := ∅; rate := rate; burst := burst |}.

Definition set_buckets (rl : rateLimiter) bs : rateLimiter :=
  {| buckets := bs; rate := rate rl; burst := burst rl |}.

(** ** Operations *)

(** The bucket part of [allow]: the answer and the bucket afterwards. *)
Definition take_token (rate burst : float64) (b : bucket) (now : Z) : bucket * bool :=
  let elapsed := Seconds (now - blast b) in
  let tokens := f_add (btokens b) (f_mul elapsed rate) in
  let tokens := if f_lt burst tokens then burst else tokens in
  if f_lt tokens (f_of_Z 1) then ({| btokens := tokens; blast := now |}, false)
  else ({| btokens := f_sub tokens (f_of_Z 1); blast := now |}, true).

Definition allow (rl : rateLimiter) (key : string) (now : Z) : rateLimiter * bool :=
  let b := default {| btokens := burst rl; blast := now |} (buckets rl !! key) in
  let '(b, ok) := take_token (rate rl) (burst rl) b now in
  (set_buckets rl (<[key := b]> (buckets rl)), ok).

Definition Hour : Z := 3600 * 1000000000.

(** One round of [gcLoop]. *)
Definition gc (rl : rateLimiter) (now : Z) : rateLimiter :=
  set_buckets rl (filter (λ kb, ¬ (blast kb.2 < now - Hour)%Z) (buckets rl)).

(** What [RateLimitMiddleware] does with a request: go on, or abort with 429. *)
Definition exempt (path : string) : bool :=
  bool_decide (path = "/healthz") || bool_decide (path = "/readyz") ||
  bool_decide (path = "/metrics") || bool_decide (path = "/ws").

Definition RateLimitMiddleware (rl : rateLimiter) (path ip : string) (now : Z) : rateLimiter * bool :=
  if exempt path then (rl, true)
  else allow rl (if bool_decide (ip = "") then "unknown" else ip) now.

(** ** Runs *)
Inductive rl_op := Request (key : string) (now : Z) | Collect (now : Z).

(** The answers, in order, with their keys. *)
Fixpoint rl_run (rl : rateLimiter) (ops : list rl_op) : rateLimiter * list (string * bool) :=
  match ops with
  | [] => (rl, [])
  | Request key now :: ops =>
      let '(rl, ok) := allow rl key now in
      let '(rl, answers) := rl_run rl ops in (rl, (key, ok) :: answers)
  | Collect now :: ops => rl_run (gc rl now) ops
  end.

(** The part of a run that concerns one key. *)
Definition about (key : string) (op : rl_op) : Prop :=
  match op with Request k _ => k = key | Collect _ => True end.
#[export] Instance about_dec key op : Decision (about key op).
Proof. destruct op; simpl; apply _. Defined.

(** Two limiters agree about a key. *)
Definition agree (key : string) (rl rl' : rateLimiter) : Prop :=
  rate rl = rate rl' ∧ burst rl = burst rl' ∧ buckets rl !! key = buckets rl' !! key.

Lemma allow_agree key rl rl' now :
  agree key rl rl' →
  agree key (allow rl key now).1 (allow rl' key now).1 ∧ (allow rl key now).2 = (allow rl' key now).2.
Proof.
  intros (Er & Eb & El). unfold allow. rewrite Er, Eb, El.
  destruct (take_token _ _ _ _) as [b ok]. split; [|done].
  split; [done|split; [done|]]. simpl. by rewrite !lookup_insert_eq.
Qed.

Lemma allow_other key k rl now : k ≠ key → agree key (allow rl k now).1 rl.
Proof.
  intros Hne. unfold allow. destruct (take_token _ _ _ _) as [b ok]. split; [done|split; [done|]]. simpl.
  by rewrite lookup_insert_ne.
Qed.

Lemma gc_lookup key rl now :
  buckets (gc rl now) !! key =
    match buckets rl !! key with
    | Some b => if decide (blast b < now - Hour)%Z then None else Some b
    | None => None
    end.
Proof.
  simpl. rewrite map_lookup_filter. destruct (buckets rl !! key) as [b|]; [simpl|done].
  case_guard; case_decide; done.
Qed.

Lemma gc_agree key rl rl' now : agree key rl rl' → agree key (gc rl now) (gc rl' now).
Proof. intros (Er & Eb & El). split; [done|split; [done|]]. by rewrite !gc_lookup, El. Qed.

(** C37: Clients are isolated.  In any sequence of requests from any addresses
    and of garbage collections, the answers an address gets are those it would
    get if it were alone with the same collections: nobody can use up the
    tokens of another address. *)
Theorem rate_limit_isolated key rl rl' ops :
  agree key rl rl' →
  filter (λ a, a.1 = key) (rl_run rl ops).2 = (rl_run rl' (filter (about key) ops)).2.
Proof.
  revert rl rl'. induction ops as [|[k now|now] ops IH]; intros rl rl' Hag; [done| |].
  - destruct (decide (k = key)) as [->|Hne].
    + rewrite (filter_cons_True (about key)) by done. cbn [rl_run].
      pose proof (allow_agree key rl rl' now Hag) as [Hag' Hok].
      destruct (allow rl key now) as [rl1 ok], (allow rl' key now) as [rl1' ok']. cbn [fst snd] in *.
      specialize (IH rl1 rl1' Hag').
      destruct (rl_run rl1 ops) as [rl2 as2], (rl_run rl1' _) as [rl2' as2']. cbn [fst snd] in *.
      rewrite filter_cons_True by done. by rewrite Hok, IH.
    + rewrite (filter_cons_False (about key)) by done. cbn [rl_run].
      pose proof (allow_other key k rl now Hne) as Ho.
      destruct (allow rl k now) as [rl1 ok]. cbn [fst] in Ho.
      specialize (IH rl1 rl'). destruct (rl_run rl1 ops) as [rl2 as2]. cbn [fst snd] in *.
      rewrite filter_cons_False by done. apply IH.
      destruct Ho as (? & ? & ?), Hag as (? & ? & ?). split; [congruence|split; congruence].
  - rewrite (filter_cons_True (about key)) by done. cbn [rl_run]. apply IH. by apply gc_agree.
Qed.

(** ** Bursts *)

(** The finite amounts a configured rate can have. *)
Definition finite_rate (r : float64) : Prop :=
  match r with S754_zero false | S754_finite false _ _ => True | _ => False end.

#[export] Instance float64_eq_dec : EqDecision float64.
Proof. solve_decision. Defined.

(** The numbers up to 256 are exact: each compares as itself, adding nothing
    keeps it and taking one gives the number before. *)
Definition f_nat (n : nat) : float64 := f_of_Z (Z.of_nat n).
Definition exact_numbers : list nat := seq 0 257.
Definition exact_at (n : nat) : bool :=
  bool_decide (f_add (f_nat n) (S754_zero false) = f_nat n) &&
  bool_decide (f_lt (f_nat n) (f_of_Z 1) = (n =? 0)) &&
  bool_decide (f_sub (f_nat (S n)) (f_of_Z 1) = f_nat n) &&
  forallb (λ m, bool_decide (f_lt (f_nat n) (f_nat m) = (n <? m))) exact_numbers.

Lemma exact_all : forallb exact_at exact_numbers = true.
Proof. by vm_compute. Qed.

Lemma exact n :
  n ≤ 256 →
  f_add (f_nat n) (S754_zero false) = f_nat n ∧ f_lt (f_nat n) (f_of_Z 1) = (n =? 0) ∧
  f_sub (f_nat (S n)) (f_of_Z 1) = f_nat n ∧ ∀ m, m ≤ 256 → f_lt (f_nat n) (f_nat m) = (n <? m).
Proof.
  intros Hn. pose proof exact_all as Hall. rewrite forallb_forall in Hall.
  specialize (Hall n ltac:(apply in_seq; lia)). unfold exact_at in Hall.
  rewrite !andb_true_iff, !bool_decide_eq_true, forallb_forall in Hall.
  destruct Hall as (((H1 & H2) & H3) & H4). repeat split; try done.
  intros m Hm. specialize (H4 m ltac:(apply in_seq; lia)). by apply bool_decide_eq_true in H4.
Qed.

(** No time passes, nothing is added. *)
Lemma no_time r : finite_rate r → f_mul (Seconds 0) r = S754_zero false.
Proof. by destruct r as [[]| | |[] m e]. Qed.

Lemma take_burst n m rate now :
  finite_rate rate → m ≤ n → n ≤ 256 →
  take_token rate (f_nat n) {| btokens := f_nat m; blast := now |} now =
    ({| btokens := f_nat (pred m); blast := now |}, negb (m =? 0)).
Proof.
  intros Hr Hm Hn. destruct (exact m) as (Hadd & Hlt & _ & _); [lia|].
  destruct (exact n Hn) as (_ & _ & _ & Hcmp). unfold take_token. cbn [blast btokens].
  rewrite Z.sub_diag, no_time, Hadd, Hcmp by (done || lia).
  replace (n <? m) with false by (symmetry; apply Nat.ltb_ge; lia). rewrite Hlt.
  destruct m as [|m]; [done|]. destruct (exact m) as (_ & _ & Hsub & _); [lia|].
  cbn [Nat.eqb negb pred]. by rewrite Hsub.
Qed.

(** The requests of one instant, once the bucket has [m] of [n] tokens. *)
Lemma burst_run n m rate key now k rl :
  finite_rate rate → m ≤ n → n ≤ 256 → RateLimit.rate rl = rate → burst rl = f_nat n →
  default {| btokens := burst rl; blast := now |} (buckets rl !! key) = {| btokens := f_nat m; blast := now |} →
  (rl_run rl (replicate k (Request key now))).2 =
    replicate (min m k) (key, true) ++ replicate (k - m) (key, false).
Proof.
  intros Hr Hm Hn Er Eb. revert m rl Hm Er Eb.
  induction k as [|k IH]; intros m rl Hm Er Eb El; [by destruct m|].
  cbn [replicate rl_run]. unfold allow. rewrite El, Er, Eb, take_burst by done.
  specialize (IH (pred m) (set_buckets rl (<[key:={| btokens := f_nat (pred m); blast := now |}]> (buckets rl)))
    ltac:(lia) Er Eb).
  destruct (rl_run _ _) as [rl' answers]. cbn [snd] in *. rewrite IH by (simpl; by rewrite lookup_insert_eq).
  destruct m as [|m]; [simpl; by rewrite Nat.sub_0_r|done].
Qed.

(** C38: The burst is exact.  For a whole burst of up to 256 and any finite
    rate, of [k] requests of a new address at one instant the first [burst] are
    let through and all the others refused. *)
Theorem rate_limit_burst n rate key now k :
  n ≤ 256 → finite_rate rate →
  (rl_run (newRateLimiter rate (f_nat n)) (replicate k (Request key now))).2 =
    replicate (min n k) (key, true) ++ replicate (k - n) (key, false).
Proof. intros Hn Hr. by apply (burst_run n n rate). Qed.

(** The configured default: 1.67 requests a second, bursts of 10. *)
Lemma rate_limit_burst_witness :
  (rl_run (newRateLimiter (f_div (f_of_Z 167) (f_of_Z 100)) (f_nat 10))
     (replicate 12 (Request "10.0.0.1" 5))).2 =
  replicate 10 ("10.0.0.1", true) ++ replicate 2 ("10.0.0.1", false).
Proof.
  apply (rate_limit_burst 10 (f_div (f_of_Z 167) (f_of_Z 100)) "10.0.0.1" 5 12).
  - lia.
  - vm_compute. exact I.
Defined.

Lemma rate_limit_isolated_witness :
  let rl := newRateLimiter (f_of_Z 1) (f_nat 1) in
  filter (λ a, a.1 = "b") (rl_run rl [Request "a" 0; Request "a" 1; Request "b" 2; Collect 3; Request "b" 4]).2 =
  (rl_run rl [Request "b" 2; Collect 3; Request "b" 4]).2.
Proof.
  intros rl.
  apply (rate_limit_isolated "b" rl rl [Request "a" 0; Request "a" 1; Request "b" 2; Collect 3; Request "b" 4]).
  done.
Defined.

(** Collection can refill: at a rate of one token in ten hours, an address that
    used up its burst has to wait for most of a day, but is given a full burst
    again once its bucket has been collected. *)
Example collection_refills :
  let rl := newRateLimiter (f_div (f_of_Z 1) (f_of_Z 36000)) (f_nat 2) in
  let spent := [Request "a" 0; Request "a" 0; Request "a" 0] in
  (rl_run rl (spent ++ [Request "a" (2 * Hour)])).2 =
    [("a", true); ("a", true); ("a", false); ("a", false)] ∧
  (rl_run rl (spent ++ [Collect (2 * Hour - 1); Request "a" (2 * Hour)])).2 =
    [("a", true); ("a", true); ("a", false); ("a", true)].
Proof. by vm_compute. Qed.
