(* ===== verification/Middleware.v ===== *)
(** * Middleware of the server (src/gateway/server.go, the origin check of
    src/gateway/websocket.go)

    Each middleware is the decision it takes and the headers it sets.  Header
    names are written as the code writes them. *)
From Stdlib Require Import Ascii.
From stdpp Require Import gmap strings list.
From S2P Require Import Prelude GoStrings.

(** ** Constants *)
Definition MaxJSONBodyBytes : Z := 1048576.
Definition WSClientSendBuffer : nat := N.to_nat 256.
#[global] Opaque WSClientSendBuffer.

(** ** Origins *)

(** [buildOriginSet] *)
Definition buildOriginSet (origins : list string) : gset string :=
  foldl (λ set o, let o := TrimSpace o in if bool_decide (o = "") then set else {[o]} ∪ set) ∅ origins.

(** [EnvAllowedOrigins], on the value of VC_ALLOWED_ORIGINS. *)
Definition EnvAllowedOrigins (env : string) : list string :=
  let v := TrimSpace env in
  if bool_decide (v = "") then []
  else foldl (λ out p, let p := TrimSpace p in if bool_decide (p ≠ "") then out ++ [p] else out) []
         (Split v ",").

(** [CheckOrigin] of the upgrader [newUpgrader] makes; an absent header is
    empty. *)
Definition CheckOrigin (allowedOrigins : list string) (origin : string) : bool :=
  let allow := buildOriginSet allowedOrigins in
  if bool_decide (origin = "") then length allowedOrigins =? 0
  else bool_decide (origin ∈ allow).

(** [corsMiddleware]: the headers it sets, and whether it aborts with 204. *)
Definition corsMiddleware (allowedOrigins : list string) (method origin cookie authorization : string)
    (h : gmap string string) : gmap string string * bool :=
  let allow := buildOriginSet allowedOrigins in
  let h :=
    if bool_decide (origin ≠ "") && bool_decide (origin ∈ allow) then
      let h := <["Access-Control-Allow-Origin" := origin]> h in
      let h := <["Vary" := "Origin"]> h in
      let h := <["Access-Control-Allow-Methods" := "GET, POST, DELETE, OPTIONS"]> h in
      let h := <["Access-Control-Allow-Headers" := "Content-Type, X-Request-Id"]> h in
      if bool_decide (cookie ≠ "") || bool_decide (authorization ≠ "")
      then <["Access-Control-Allow-Credentials" := "true"]> h else h
    else h in
  (h, bool_decide (method = "OPTIONS")).

(** ** The others *)

(** [securityHeadersMiddleware] *)
Definition securityHeadersMiddleware (h : gmap string string) : gmap string string :=
  let h := <["X-Content-Type-Options" := "nosniff"]> h in
  let h := <["X-Frame-Options" := "DENY"]> h in
  let h := <["Referrer-Policy" := "no-referrer"]> h in
  <["Permissions-Policy" := "geolocation=(), microphone=(), camera=()"]> h.

(** [requestIDMiddleware]; [fresh] is the identifier [uuid.NewString] gives. *)
Definition requestIDMiddleware (header fresh : string) (h : gmap string string) :
    gmap string string * string :=
  let rid := if bool_decide (header = "") || (128 <? String.length header) then fresh else header in
  (<["X-Request-Id" := rid]> h, rid).

(** [maxBodyMiddleware]: whether it aborts with 413.  A length of -1 is
    unknown; [hasBody] is false for a nil body. *)
Definition maxBodyMiddleware (maxBytes : Z) (hasBody : bool) (contentLength : Z) : bool :=
  hasBody && (maxBytes <? contentLength)%Z.

(** [httpStatusLabel] *)
Definition httpStatusLabel (code : Z) : string :=
  if (code <? 200)%Z then "1xx"
  else if (code <? 300)%Z then "2xx"
  else if (code <? 400)%Z then "3xx"
  else if (code <? 500)%Z then "4xx"
  else "5xx".

(** The counters of [type Metrics struct] that requests change, by method,
    route and status label. *)
Record Metrics := {
  HTTPRequests : gmap (string * string * string) N;
  HTTPErrors : gmap (string * string * string) N;
  HTTPInFlight : Z;
  PanicsRecovered : N
}.

Definition NewMetrics : Metrics :=
  {| HTTPRequests := ∅; HTTPErrors := ∅; HTTPInFlight := 0; PanicsRecovered := 0 |}.

Definition count (m : gmap (string * string * string) N) (k : string * string * string) :=
  <[k := (m.[k] + 1)%N]> m.

(** [metricsMiddleware]: on the way in and, when the response has its status,
    on the way out. *)
Definition metrics_before (m : Metrics) : Metrics :=
  {| HTTPRequests := HTTPRequests m; HTTPErrors := HTTPErrors m; HTTPInFlight := HTTPInFlight m + 1;
     PanicsRecovered := PanicsRecovered m |}.
Definition metrics_after (m : Metrics) (method fullPath : string) (status : Z) : Metrics :=
  let route := if bool_decide (fullPath = "") then "unknown" else fullPath in
  let key := (method, route, httpStatusLabel status) in
  {| HTTPRequests := count (HTTPRequests m) key;
     HTTPErrors := if (400 <=? status)%Z then count (HTTPErrors m) key else HTTPErrors m;
     HTTPInFlight := HTTPInFlight m - 1; PanicsRecovered := PanicsRecovered m |}.

(** *** Panics *)

(** What the rest of the chain leaves: the status of gin's writer, which is
    200 until one is set, whether anything was written, and whether it ended by
    a panic. *)
Record Ending := { code : Z; wrote : bool; panics : bool }.

(** [metricsMiddleware] around the rest of the chain: the second half is
    deferred, so it also runs when a panic passes through. *)
Definition metricsMiddleware (method fullPath : string) (next : Metrics → Metrics * Ending) (m : Metrics) :
    Metrics * Ending :=
  let '(m, e) := next (metrics_before m) in
  (metrics_after m method fullPath (code e), e).

(** [ginZapRecovery], the outermost middleware. *)
Definition ginZapRecovery (next : Metrics → Metrics * Ending) (m : Metrics) : Metrics * Ending :=
  let '(m, e) := next m in
  if panics e then
    let m := {| HTTPRequests := HTTPRequests m; HTTPErrors := HTTPErrors m;
                HTTPInFlight := HTTPInFlight m; PanicsRecovered := u64_succ (PanicsRecovered m) |} in
    if wrote e then (m, {| code := code e; wrote := true; panics := false |})
    else (m, {| code := 500; wrote := true; panics := false |})
  else (m, e).

(** A request whose handler, with the middleware between, ends with [e]. *)
Definition handled (method fullPath : string) (e : Ending) (m : Metrics) : Metrics * Ending :=
  ginZapRecovery (metricsMiddleware method fullPath (λ m, (m, e))) m.

(** ** Facts *)

(** The accounts of one request, panics included: no panic leaves the chain,
    the gauge is back where it was, every panic is counted and answered with 500
    unless a response had begun.  But the request counters use the status of
    the moment before the recovery: a panic before anything is set is counted
    as a success. *)
Theorem recovery_accounts method fullPath e m :
  let '(m', e') := handled method fullPath e m in
  let key := (method, if bool_decide (fullPath = "") then "unknown" else fullPath, httpStatusLabel (code e)) in
  panics e' = false ∧ HTTPInFlight m' = HTTPInFlight m ∧
  PanicsRecovered m' = (if panics e then u64_succ (PanicsRecovered m) else PanicsRecovered m) ∧
  code e' = (if panics e && negb (wrote e) then 500%Z else code e) ∧
  HTTPRequests m' = count (HTTPRequests m) key ∧
  HTTPErrors m' = (if (400 <=? code e)%Z then count (HTTPErrors m) key else HTTPErrors m).
Proof.
  destruct e as [c w p]. unfold handled, ginZapRecovery, metricsMiddleware. simpl.
  destruct p, w; simpl; split_and!; done || lia.
Qed.

(** A handler that panics at once: the client gets 500, the counters a 2xx. *)
Example panic_counted_as_success :
  let '(m, e) := handled "GET" "/ws" {| code := 200; wrote := false; panics := true |} NewMetrics in
  code e = 500%Z ∧ (HTTPRequests m).[("GET", "/ws", "2xx")] = 1%N ∧ HTTPErrors m = ∅ ∧
  PanicsRecovered m = 1%N.
Proof. repeat split. Qed.

Lemma buildOriginSet_spec origins o :
  o ∈ buildOriginSet origins ↔ o ≠ "" ∧ o ∈ TrimSpace <$> origins.
Proof.
  unfold buildOriginSet. induction origins as [|p origins IH] using rev_ind; [set_solver|].
  rewrite foldl_app, fmap_app. cbn [foldl]. case_bool_decide as Hp.
  - rewrite IH. set_solver.
  - rewrite elem_of_union, elem_of_singleton, IH. set_solver.
Qed.

Lemma EnvAllowedOrigins_spec env :
  EnvAllowedOrigins env =
    if bool_decide (TrimSpace env = "") then []
    else filter (λ p, p ≠ "") (TrimSpace <$> Split (TrimSpace env) ",").
Proof.
  unfold EnvAllowedOrigins. case_bool_decide; [done|]. generalize (Split (TrimSpace env) ",").
  intros l. induction l as [|p l IH] using rev_ind; [done|].
  rewrite foldl_app, fmap_app, filter_app, <- IH. cbn [foldl fmap list_fmap].
  rewrite filter_cons, filter_nil. do 2 case_match; try (by rewrite app_nil_r);
    by repeat case_bool_decide; repeat case_decide.
Qed.

(** The origins a configuration names. *)
Definition configured (env origin : string) : Prop :=
  origin ≠ "" ∧ origin ∈ TrimSpace <$> Split (TrimSpace env) ",".

Lemma configured_set env origin :
  origin ∈ buildOriginSet (EnvAllowedOrigins env) ↔ configured env origin.
Proof.
  rewrite buildOriginSet_spec, EnvAllowedOrigins_spec. unfold configured. case_bool_decide as E.
  - rewrite E. simpl. split; [set_solver|]. intros [? Hin].
    apply list_elem_of_singleton in Hin. done.
  - split.
    + intros (Hne & (p & -> & Hp)%list_elem_of_fmap). split; [done|].
      apply list_elem_of_filter in Hp as (_ & (q & -> & Hq)%list_elem_of_fmap).
      rewrite TrimSpace_idem. apply list_elem_of_fmap. eauto.
    + intros (Hne & (p & -> & Hp)%list_elem_of_fmap). split; [done|].
      apply list_elem_of_fmap. exists (TrimSpace p). split; [by rewrite TrimSpace_idem|].
      apply list_elem_of_filter. split; [done|]. apply list_elem_of_fmap. eauto.
Qed.

(** The headers of a response to a configured origin, and to any other. *)
Lemma cors_configured env method origin cookie authorization h :
  configured env origin →
  let h' := (corsMiddleware (EnvAllowedOrigins env) method origin cookie authorization h).1 in
  h' !! "Access-Control-Allow-Origin" = Some origin ∧
  h' !! "Access-Control-Allow-Credentials" =
    if bool_decide (cookie ≠ "") || bool_decide (authorization ≠ "") then Some "true"
    else h !! "Access-Control-Allow-Credentials".
Proof.
  intros Hc h'. unfold h', corsMiddleware. rewrite (bool_decide_true (origin ≠ "")) by apply Hc.
  rewrite bool_decide_true by (by apply configured_set). simpl.
  destruct (_ || _); split; by simpl_map.
Qed.

Lemma cors_other env method origin cookie authorization h :
  ¬ configured env origin →
  (corsMiddleware (EnvAllowedOrigins env) method origin cookie authorization h).1 = h.
Proof.
  intros Hc. unfold corsMiddleware. rewrite (bool_decide_false (origin ∈ _)) by (by rewrite configured_set).
  by rewrite andb_false_r.
Qed.

(** Only configured origins are served across origins.  A WebSocket
    upgrade is accepted exactly when its Origin is one of the entries of
    VC_ALLOWED_ORIGINS, or is absent while that names no origin; and a response
    names an allowed origin exactly when the request's Origin is configured, and
    then the very same one, never a wildcard.  With nothing configured no
    request with an Origin is accepted. *)
Theorem origin_gate env method origin cookie authorization h :
  let origins := EnvAllowedOrigins env in
  let h' := (corsMiddleware origins method origin cookie authorization h).1 in
  h !! "Access-Control-Allow-Origin" = None → h !! "Access-Control-Allow-Credentials" = None →
  (CheckOrigin origins origin = true ↔
     if decide (origin = "") then origins = [] else configured env origin) ∧
  (∀ o, h' !! "Access-Control-Allow-Origin" = Some o ↔ o = origin ∧ configured env origin) ∧
  (h' !! "Access-Control-Allow-Credentials" = Some "true" ↔
     configured env origin ∧ (cookie ≠ "" ∨ authorization ≠ "")) ∧
  (TrimSpace env = "" → ∀ o, ¬ configured env o).
Proof.
  cbv zeta. intros Ho Hc. split; [|split; [|split]].
  - unfold CheckOrigin. destruct (decide (origin = "")) as [->|Hne].
    + rewrite bool_decide_true, Nat.eqb_eq by done. by destruct (EnvAllowedOrigins env).
    + rewrite bool_decide_false, bool_decide_eq_true by done. apply configured_set.
  - intros o. destruct (decide (origin ∈ buildOriginSet (EnvAllowedOrigins env))) as [Hin|Hout].
    + apply configured_set in Hin. destruct (cors_configured env method origin cookie authorization h Hin)
        as [-> _]. split; [by intros [= <-]|by intros [-> _]].
    + rewrite configured_set in Hout. rewrite cors_other, Ho by done.
      split; [done|by intros [_ ?]].
  - destruct (decide (origin ∈ buildOriginSet (EnvAllowedOrigins env))) as [Hin|Hout].
    + apply configured_set in Hin. destruct (cors_configured env method origin cookie authorization h Hin)
        as [_ ->]. rewrite Hc. repeat case_bool_decide; simpl; split; intros; auto; try done.
      by destruct_and!; destruct_or!.
    + rewrite configured_set in Hout. rewrite cors_other, Hc by done.
      split; [done|by intros [? _]].
  - intros E o [Hne Hin]. rewrite E in Hin. by apply list_elem_of_singleton in Hin.
Qed.

Lemma origin_gate_witness :
  CheckOrigin (EnvAllowedOrigins " https://a.example , ,https://b.example") "https://b.example" = true.
Proof.
  apply (proj1 (origin_gate " https://a.example , ,https://b.example" "GET" "https://b.example" "" "" ∅
    (lookup_empty _) (lookup_empty _))).
  rewrite decide_False by done. split; [done|]. apply (bool_decide_unpack _). vm_compute. exact I.
Defined.
