(* ===== verification/Hub.v ===== *)
(** * The WebSocket hub (src/gateway/websocket.go)

    The hub subscribes to the event bus and fans every event out to the clients
    connected.  Each client has a bounded queue, a goroutine that replays the
    history, and one that writes the queue to the socket.  Every round of one of
    the goroutines is a step; the bytes of a frame are those of its event. *)
From stdpp Require Import gmap strings list.
From S2P Require Import Prelude GoStrings VClock Events Middleware.

(** ** Data *)

(** [type client struct], with the goroutines that serve it: [replay] is what
    the history goroutine still has to send ([None] until it has read the
    history), [pump] whether the write pump runs.  The last four fields are
    ghosts: the frames written, the events fanned out since the client
    connected, those of them it was given, and the part of the history sent. *)
Record client := {
  send : list Event;
  replay : option (list Event);
  pump : bool;
  written : list Event;
  since : list Event;
  live : list Event;
  replayed : list Event
}.

Definition new_client : client :=
  {| send := []; replay := None; pump := true; written := []; since := []; live := []; replayed := [] |}.

(** [type WSHub struct].  A client is known by a number.  [running] tells of the
    goroutine that [start] launched: [None] when it has exited, otherwise
    whether [stop] has cancelled it.  [connected], [sent] and [dropped] are the
    metrics, [slowLogged] the counts of the warnings. *)
Record WSHub := {
  clients : gmap nat client;
  nextClient : nat;
  sub : nat;
  running : option bool;
  drops : N;
  connected : nat;
  sent : N;
  dropped : N;
  slowLogged : list N
}.

Definition set_clients (h : WSHub) cs : WSHub := {| clients := cs; nextClient := nextClient h;
  sub := sub h; running := running h; drops := drops h; connected := connected h; sent := sent h;
  dropped := dropped h; slowLogged := slowLogged h |}.
Definition set_run (h : WSHub) sb r : WSHub := {| clients := clients h; nextClient := nextClient h;
  sub := sb; running := r; drops := drops h; connected := connected h; sent := sent h;
  dropped := dropped h; slowLogged := slowLogged h |}.

(** ** Operations *)

(** [newWSHub] followed by [start]. *)
Definition newWSHub (b : EventBus) : EventBus * WSHub :=
  let '(b, ch) := Subscribe b [] in
  (b, {| clients := ∅; nextClient := 0; sub := ch; running := Some false; drops := 0; connected := 0;
         sent := 0; dropped := 0; slowLogged := [] |}).

(** [stop]: cancelling twice is cancelling once. *)
Definition stop (h : WSHub) : WSHub := set_run h (sub h) ((λ _, true) <$> running h).

(** [start] waits until the goroutine before has exited. *)
Definition start (h : WSHub) : option WSHub :=
  match running h with
  | None => Some (set_run h (sub h) (Some false))
  | Some _ => None
  end.

(** [reconnect], from the old bus to the new one.  The goroutine that is stopped
    exits before [start] returns; an event it still takes is a round before. *)
Definition reconnect (h : WSHub) (old new : EventBus) : WSHub * EventBus * EventBus :=
  let old := Unsubscribe old (sub h) in
  let '(new, ch) := Subscribe new [] in
  (set_run h ch (Some false), old, new).

(** Appending to a client's queue. *)
Definition push (cl : client) (e : Event) : client :=
  {| send := send cl ++ [e]; replay := replay cl; pump := pump cl; written := written cl;
     since := since cl; live := live cl; replayed := replayed cl |}.
(** The ghosts of a client an event is fanned out to. *)
Definition seen (cl : client) (e : Event) (given : bool) : client :=
  {| send := send cl; replay := replay cl; pump := pump cl; written := written cl;
     since := since cl ++ [e]; live := if given then live cl ++ [e] else live cl; replayed := replayed cl |}.

Definition count_sent (h : WSHub) : WSHub := {| clients := clients h; nextClient := nextClient h;
  sub := sub h; running := running h; drops := drops h; connected := connected h;
  sent := (sent h + 1)%N; dropped := dropped h; slowLogged := slowLogged h |}.
Definition count_drop (h : WSHub) : WSHub :=
  let n := u64_succ (drops h) in
  {| clients := clients h; nextClient := nextClient h; sub := sub h; running := running h; drops := n;
     connected := connected h; sent := sent h; dropped := (dropped h + 1)%N;
     slowLogged := if (n mod 50 =? 1)%N then slowLogged h ++ [n] else slowLogged h |}.

Section ops.
Context `{MapRange}.

(** The non-blocking send of [run] to one client. *)
Definition give (e : Event) (id : nat) (cl : client) (h : WSHub) : WSHub :=
  if length (send cl) <? WSClientSendBuffer
  then count_sent (set_clients h (<[id := seen (push cl e) e true]> (clients h)))
  else count_drop (set_clients h (<[id := seen cl e false]> (clients h))).

Definition fan_out (h : WSHub) (e : Event) : WSHub := for_range (clients h) (give e) h.

(** One round of [run].  When the hub or the bus has been stopped the [select]
    may still take an event instead of seeing that; [quit] is the choice. *)
Definition run (h : WSHub) (b : EventBus) (quit : bool) : WSHub * EventBus :=
  match running h with
  | None => (h, b)
  | Some cancelled =>
      if (cancelled || done b) && quit then (set_run h (sub h) None, b)
      else match Recv b (sub h) with
           | (b, Some e) => (fan_out h e, b)
           | (b, None) => (h, b)
           end
  end.

(** [handleWS] up to the read loop; whether the upgrade is accepted. *)
Definition handleWS (h : WSHub) (allowedOrigins : list string) (origin : string) : WSHub * bool :=
  if CheckOrigin allowedOrigins origin then
    let cs := <[nextClient h := new_client]> (clients h) in
    ({| clients := cs; nextClient := S (nextClient h); sub := sub h; running := running h;
        drops := drops h; connected := size cs; sent := sent h; dropped := dropped h;
        slowLogged := slowLogged h |}, true)
  else (h, false).

(** A round of the history goroutine of a client: it reads the history, or
    sends the next event of it when there is room, or gives up after waiting. *)
Definition replay_step (h : WSHub) (b : EventBus) (id : nat) (timeout : bool) : WSHub :=
  match clients h !! id with
  | None => h
  | Some cl =>
      let put cl := set_clients h (<[id := cl]> (clients h)) in
      let with_replay cl r rd := {| send := send cl; replay := r; pump := pump cl; written := written cl;
                                    since := since cl; live := live cl; replayed := rd |} in
      match replay cl with
      | None => put (with_replay cl (Some (History b)) (replayed cl))
      | Some [] => h
      | Some (e :: es) =>
          if length (send cl) <? WSClientSendBuffer
          then put (with_replay (push cl e) (Some es) (replayed cl ++ [e]))
          else if timeout then put (with_replay cl (Some []) (replayed cl)) else h
      end
  end.

(** A round of the write pump: the next frame is written, or the write fails
    and the pump ends. *)
Definition pump_step (h : WSHub) (id : nat) (ok : bool) : WSHub :=
  match clients h !! id with
  | Some cl =>
      if pump cl then
        match send cl with
        | e :: q =>
            set_clients h (<[id :=
              {| send := q; replay := replay cl; pump := ok;
                 written := if ok then written cl ++ [e] else written cl; since := since cl;
                 live := live cl; replayed := replayed cl |}]> (clients h))
        | [] => h
        end
      else h
  | None => h
  end.

(** [cleanup], when the read loop ends. *)
Definition cleanup (h : WSHub) (id : nat) : WSHub :=
  match clients h !! id with
  | None => h
  | Some _ =>
      let cs := delete id (clients h) in
      {| clients := cs; nextClient := nextClient h; sub := sub h; running := running h; drops := drops h;
         connected := size cs; sent := sent h; dropped := dropped h; slowLogged := slowLogged h |}
  end.

(** [closeAllClients]: every connection is closed, so each read loop ends. *)
Definition closeAllClients (h : WSHub) : WSHub := foldl cleanup h (map_to_list (clients h)).*1.
End ops.

(** [encodeHex], of the bytes of an identifier. *)
Definition hexDigits : string := "0123456789abcdef".
Definition hex_digit (n : N) : string := String.substring (N.to_nat n) 1 hexDigits.
Definition encodeHex (b : list N) : string :=
  foldr (λ v s, hex_digit (N.shiftr v 4) +:+ hex_digit (N.land v 15) +:+ s) "" b.

(** [uuidString], from the clock in nanoseconds as a [uint64]. *)
Definition uuidString (now : N) : string :=
  encodeHex ((λ i, N.land (N.shiftr now (N.of_nat (i * 8))) 255) <$> seq 0 8).

(** Reading a byte's two digits back. *)
Definition unhex (s : string) : option (N * string) :=
  match s with
  | String a (String b rest) =>
      hi ← IndexByte hexDigits a; lo ← IndexByte hexDigits b; Some (N.of_nat (hi * 16 + lo), rest)
  | _ => None
  end.

Lemma unhex_byte v rest :
  (v < 256)%N → unhex (hex_digit (N.shiftr v 4) +:+ hex_digit (N.land v 15) +:+ rest) = Some (v, rest).
Proof.
  intros Hv. assert (forallb (λ v,
    match hex_digit (N.shiftr v 4), hex_digit (N.land v 15) with
    | String a "", String b "" =>
        bool_decide (IndexByte hexDigits a = Some (N.to_nat (N.shiftr v 4)) ∧
                     IndexByte hexDigits b = Some (N.to_nat (N.land v 15)) ∧
                     v = N.of_nat (N.to_nat (N.shiftr v 4) * 16 + N.to_nat (N.land v 15)))
    | _, _ => false
    end) (N.of_nat <$> seq 0 256) = true) as Hall by (vm_compute; reflexivity).
  rewrite forallb_forall in Hall. specialize (Hall v).
  destruct (hex_digit (N.shiftr v 4)) as [|a [|]], (hex_digit (N.land v 15)) as [|b [|]];
    try (exfalso; by assert (false = true) by (apply Hall, list_elem_of_In, list_elem_of_fmap;
      exists (N.to_nat v); split; [lia|apply elem_of_seq; lia])).
  assert (In v (N.of_nat <$> seq 0 256)) as Hin.
  { apply list_elem_of_In, list_elem_of_fmap. exists (N.to_nat v). split; [lia|]. apply elem_of_seq. lia. }
  apply Hall, bool_decide_eq_true in Hin as (Ha & Hb & E).
  change (unhex (String a (String b rest)) = Some (v, rest)). unfold unhex. rewrite Ha, Hb.
  cbn [mbind option_bind]. by rewrite <- E.
Qed.

Lemma encodeHex_inj b b' :
  Forall (λ v, (v < 256)%N) b → Forall (λ v, (v < 256)%N) b' → length b = length b' →
  encodeHex b = encodeHex b' → b = b'.
Proof.
  intros Hb. revert b'. induction Hb as [|v b Hv Hb IH]; intros [|w b'] Hb' Hl; try done.
  apply Forall_cons in Hb' as [Hw Hb']. simpl. intros E.
  apply (f_equal unhex) in E. rewrite !unhex_byte in E by done. injection E as -> E.
  f_equal. apply IH; [done|by injection Hl|done].
Qed.

(** Identifiers are equal only for equal clock readings, up to 2^64 ns. *)
Lemma uuidString_inj n m : (n < two64)%N → (m < two64)%N → uuidString n = uuidString m → n = m.
Proof.
  intros Hn Hm. unfold uuidString.
  assert (∀ x, Forall (λ v, (v < 256)%N)
    ((λ i, N.land (N.shiftr x (N.of_nat (i * 8))) 255) <$> seq 0 8)) as Hb.
  { intros x. apply Forall_fmap, Forall_forall. intros i _. simpl. change 255%N with (N.ones 8).
    rewrite N.land_ones. by apply N.mod_lt. }
  intros E%encodeHex_inj; [|apply Hb|apply Hb|by rewrite !length_fmap].
  apply N.bits_inj. intros k. destruct (N.ltb_spec k 64) as [Hk|Hk].
  - assert (N.testbit (N.land (N.shiftr n (N.of_nat (N.to_nat (k / 8) * 8))) 255) (k mod 8) =
            N.testbit (N.land (N.shiftr m (N.of_nat (N.to_nat (k / 8) * 8))) 255) (k mod 8)) as Eb.
    { f_equal. apply (f_equal (λ l, l !! N.to_nat (k / 8))) in E.
      rewrite !list_lookup_fmap, !lookup_seq_lt in E
        by (pose proof (N.Div0.div_lt_upper_bound k 8 8); lia). by injection E as E. }
    change 255%N with (N.ones 8) in Eb.
    rewrite !N.land_spec, !N.shiftr_spec', !N.ones_spec_low, !andb_true_r in Eb by (apply N.mod_lt; done).
    pose proof (N.div_mod k 8). by replace (k mod 8 + N.of_nat (N.to_nat (k / 8) * 8))%N with k in Eb by lia.
  - assert (∀ x, (x < two64)%N → N.testbit x k = false) as Hz; [|by rewrite !Hz].
    intros x Hx. destruct (decide (x = 0%N)) as [->|Hx0]; [by apply N.bits_0|].
    apply N.bits_above_log2, N.lt_le_trans with 64%N; [|done]. apply N.log2_lt_pow2; [lia|done].
Qed.

(** ** Runs: the hub and its bus *)
Inductive hub_op :=
  | HConnect (allowedOrigins : list string) (origin : string)
  | HRun (quit : bool)
  | HReplay (id : nat) (timeout : bool)
  | HPump (id : nat) (ok : bool)
  | HClose (id : nat)
  | HStop
  | HBus (op : bus_op).

Definition hub_exec `{MapRange} (hb : WSHub * EventBus) (op : hub_op) : WSHub * EventBus :=
  let '(h, b) := hb in
  match op with
  | HConnect allowed origin => ((handleWS h allowed origin).1, b)
  | HRun quit => run h b quit
  | HReplay id timeout => (replay_step h b id timeout, b)
  | HPump id ok => (pump_step h id ok, b)
  | HClose id => (cleanup h id, b)
  | HStop => (stop h, b)
  | HBus op => (h, bus_exec b op)
  end.

Definition hub_run `{MapRange} (b : EventBus) (ops : list hub_op) : WSHub * EventBus :=
  let '(b, h) := newWSHub b in foldl hub_exec (h, b) ops.

(** ** Fanning out *)

(** What fanning out does to one client. *)
Definition offered (e : Event) (cl : client) : client :=
  if length (send cl) <? WSClientSendBuffer then seen (push cl e) e true else seen cl e false.

Section facts.
Context `{MapRange}.

Lemma give_clients e id cl h : clients (give e id cl h) = <[id := offered e cl]> (clients h).
Proof. unfold give, offered. by destruct (_ <? _). Qed.

Lemma fan_out_clients h e id : clients (fan_out h e) !! id = offered e <$> clients h !! id.
Proof.
  assert (clients (fan_out h e) =
    for_range (clients h) (λ id cl cs, <[id := offered e cl]> cs) (clients h)) as ->.
  { unfold fan_out, for_range. generalize (range (clients h)). intros es. generalize h at 1 2.
    induction es as [|[k cl] es IH]; intros h'; [done|]. cbn [foldl fst snd]. by rewrite IH, give_clients. }
  rewrite (for_range_lookup _ (λ _ cl _, Some (offered e cl))) by done.
  by destruct (clients h !! id).
Qed.

Lemma give_counts e id cl h :
  (sent (give e id cl h) + dropped (give e id cl h) = sent h + dropped h + 1)%N.
Proof. unfold give. destruct (_ <? _); simpl; lia. Qed.

Lemma fan_out_counts h e :
  (sent (fan_out h e) + dropped (fan_out h e) = sent h + dropped h + N.of_nat (size (clients h)))%N.
Proof.
  unfold fan_out, for_range. rewrite <- range_length. generalize (range (clients h)). intros es.
  generalize h. induction es as [|[k cl] es IH]; intros h'; [simpl; lia|].
  cbn [foldl fst snd]. rewrite IH, give_counts. cbn [length]. lia.
Qed.

(** ** Streams *)

(** The third list is the two first in some order that keeps each of them. *)
Inductive interleaving {A} : list A → list A → list A → Prop :=
  | il_nil : interleaving [] [] []
  | il_left l1 l2 l x : interleaving l1 l2 l → interleaving (l1 ++ [x]) l2 (l ++ [x])
  | il_right l1 l2 l x : interleaving l1 l2 l → interleaving l1 (l2 ++ [x]) (l ++ [x]).

Record client_ok (cl : client) : Prop := {
  co_bound : length (send cl) ≤ WSClientSendBuffer;
  co_live : sublist (live cl) (since cl);
  co_stream : pump cl = true → interleaving (live cl) (replayed cl) (written cl ++ send cl)
}.

Lemma new_client_ok : client_ok new_client.
Proof. split; simpl; [lia|done|constructor]. Qed.

Lemma offered_ok e cl : client_ok cl → client_ok (offered e cl).
Proof.
  intros [Hb Hl Hs]. unfold offered. destruct (Nat.ltb_spec (length (send cl)) WSClientSendBuffer).
  - split; simpl.
    + rewrite length_app. simpl. lia.
    + by apply sublist_app.
    + intros Hp. rewrite (assoc_L (++)). constructor. by apply Hs.
  - split; simpl; [done|by apply sublist_inserts_r|done].
Qed.

Lemma run_clients_ok h b quit :
  map_Forall (λ _, client_ok) (clients h) → map_Forall (λ _, client_ok) (clients (run h b quit).1).
Proof.
  intros Hok. unfold run. destruct (running h) as [c|]; [|done]. destruct (_ && _); [done|].
  destruct (Recv b (sub h)) as [b' [e|]]; [|done]. intros id cl. cbn [fst].
  rewrite fan_out_clients. intros (cl0 & Hcl & ->)%fmap_Some. apply offered_ok. by eapply Hok.
Qed.

Lemma replay_clients_ok h b id timeout :
  map_Forall (λ _, client_ok) (clients h) →
  map_Forall (λ _, client_ok) (clients (replay_step h b id timeout)).
Proof.
  intros Hok. unfold replay_step. destruct (clients h !! id) as [cl|] eqn:E; [|done].
  pose proof (Hok id cl E) as [Hb Hl Hs].
  destruct (replay cl) as [[|e es]|]; [done| |by apply map_Forall_insert_2].
  destruct (Nat.ltb_spec (length (send cl)) WSClientSendBuffer).
  - apply map_Forall_insert_2; [|done]. split; simpl; [rewrite length_app; simpl; lia|done|].
    intros Hp. rewrite (assoc_L (++)). constructor. by apply Hs.
  - destruct timeout; [|done]. by apply map_Forall_insert_2.
Qed.

Lemma pump_clients_ok h id ok :
  map_Forall (λ _, client_ok) (clients h) → map_Forall (λ _, client_ok) (clients (pump_step h id ok)).
Proof.
  intros Hok. unfold pump_step. destruct (clients h !! id) as [cl|] eqn:E; [|done].
  pose proof (Hok id cl E) as [Hb Hl Hs]. destruct (pump cl) eqn:Hp; [|done].
  destruct (send cl) as [|e q] eqn:Hq; [done|]. apply map_Forall_insert_2; [|done].
  split; simpl in *; [lia|done|]. intros ->. rewrite <- (assoc_L (++)). by apply Hs.
Qed.

Lemma hub_exec_ok hb op :
  map_Forall (λ _, client_ok) (clients hb.1) →
  map_Forall (λ _, client_ok) (clients (hub_exec hb op).1).
Proof.
  destruct hb as [h b]. cbn [fst]. intros Hok. destruct op; simpl; try done.
  - unfold handleWS. destruct (CheckOrigin _ _); [|done]. apply map_Forall_insert_2; [|done].
    apply new_client_ok.
  - by apply run_clients_ok.
  - by apply replay_clients_ok.
  - by apply pump_clients_ok.
  - unfold cleanup. destruct (clients h !! id); [|done]. by apply map_Forall_delete.
Qed.


(** A slow client costs the others nothing.  Fanning an event out appends
    it to the queue of every client whose queue has room and leaves every other
    queue alone, whatever the order of the clients; each client is counted once,
    as sent to or as dropped. *)
Theorem hub_fan_out h e :
  (∀ id cl, clients h !! id = Some cl →
     ∃ cl', clients (fan_out h e) !! id = Some cl' ∧
       send cl' = if length (send cl) <? WSClientSendBuffer then send cl ++ [e] else send cl) ∧
  dom (clients (fan_out h e)) = dom (clients h) ∧
  (sent (fan_out h e) + dropped (fan_out h e) = sent h + dropped h + N.of_nat (size (clients h)))%N.
Proof.
  split; [|split; [|apply fan_out_counts]].
  - intros id cl Hcl. exists (offered e cl). rewrite fan_out_clients, Hcl. split; [done|].
    unfold offered. by destruct (_ <? _).
  - apply set_eq. intros id. by rewrite !elem_of_dom, fan_out_clients, fmap_is_Some.
Qed.
End facts.

(** ** A client that connects while an event is on its way

    The client is registered before its history is read, and an event is in the
    history before it is fanned out. *)
Module Twice.
Definition ev : Event :=
  {| evID := "P1-e1"; evType := EvtSend; evProcessID := "P1"; evTimestamp := 0; evLocalSeq := 1;
     evGlobalSeq := 1; evLamportClock := None; evVectorClock := None; evMatrixClock := None;
     evMessage := None; evSnapshot := None; evConflict := None; evNarration := "" |}.
Definition ops : list hub_op :=
  [HBus (OpPublish ev); HBus (OpLoop false); HConnect [] ""; HReplay 0 false; HReplay 0 false;
   HRun false; HPump 0 true; HPump 0 true].
End Twice.

(** A client can be sent the same event twice: one that was processed by
    the bus just before the client connected is replayed from the history and
    then fanned out to it as well. *)
Example ws_replay_duplicates :
  let r := canonical_range in
  written <$> clients (hub_run NewEventBus Twice.ops).1 !! 0 = Some [Twice.ev; Twice.ev].
Proof. by vm_compute. Qed.

