(* ===== verification/Server.v ===== *)
(** * The server (src/gateway/server.go)

    The server owns the current simulation, the WebSocket hub, a key-value store
    and a causal graph of its own, and replaces the simulation on reset.  The
    other parts keep references to the simulation they were connected to, so all
    simulations a server has had are kept, in order, and a reference is a place
    in that list. *)
From stdpp Require Import gmap strings list.
From S2P Require Import Prelude VClock Causality Events Process Transport Snapshot Conflict Simulation.
From S2P Require Import Scenarios Auth RateLimit Middleware Hub.

(** ** Data *)

(** A goroutine of [subscribeCausalGraph]: the bus it reads and its channel,
    whether its context is cancelled, whether it still runs. *)
Record CgRun := { cgSim : nat; cgChan : nat; cgCancelled : bool; cgRunning : bool }.

(** A goroutine of [handleRunScenario]: not begun, with the place of its scenario
    in [AllScenarios], or running the steps left on the simulation it took. *)
Inductive Runner := Waiting (k : nat) | Running (i : nat) (steps : list ScenarioStep).

(** [type Server struct].  [hubSim] and [kvBus] are the simulations on whose
    buses the hub and the key-value store are. *)
Record Server := {
  sims : list Simulation;
  cur : nat;
  hub : WSHub;
  hubSim : nat;
  conflicts : gmap string MVCCEntry;
  kvBus : nat;
  graph : CausalGraph;
  cgRuns : list CgRun;
  runners : list Runner;
  origins : list string;
  auth : Manager;
  limiter : option rateLimiter;
  metrics : Middleware.Metrics;
  ready : bool;
  healthErr : string
}.

(** Field updates. *)
Definition put_sims (v : Server) ss := {| sims := ss; cur := cur v; hub := hub v; hubSim := hubSim v;
  conflicts := conflicts v; kvBus := kvBus v; graph := graph v; cgRuns := cgRuns v;
  runners := runners v; origins := origins v; auth := auth v; limiter := limiter v;
  metrics := metrics v; ready := ready v; healthErr := healthErr v |}.
Definition put_hub (v : Server) h hs := {| sims := sims v; cur := cur v; hub := h; hubSim := hs;
  conflicts := conflicts v; kvBus := kvBus v; graph := graph v; cgRuns := cgRuns v;
  runners := runners v; origins := origins v; auth := auth v; limiter := limiter v;
  metrics := metrics v; ready := ready v; healthErr := healthErr v |}.
Definition put_kv (v : Server) st := {| sims := sims v; cur := cur v; hub := hub v;
  hubSim := hubSim v; conflicts := st; kvBus := kvBus v; graph := graph v; cgRuns := cgRuns v;
  runners := runners v; origins := origins v; auth := auth v; limiter := limiter v;
  metrics := metrics v; ready := ready v; healthErr := healthErr v |}.
Definition put_graph (v : Server) g rs := {| sims := sims v; cur := cur v; hub := hub v;
  hubSim := hubSim v; conflicts := conflicts v; kvBus := kvBus v; graph := g; cgRuns := rs;
  runners := runners v; origins := origins v; auth := auth v; limiter := limiter v;
  metrics := metrics v; ready := ready v; healthErr := healthErr v |}.
Definition put_runners (v : Server) rs := {| sims := sims v; cur := cur v; hub := hub v;
  hubSim := hubSim v; conflicts := conflicts v; kvBus := kvBus v; graph := graph v;
  cgRuns := cgRuns v; runners := rs; origins := origins v; auth := auth v; limiter := limiter v;
  metrics := metrics v; ready := ready v; healthErr := healthErr v |}.
Definition put_cur (v : Server) ss c := {| sims := ss; cur := c; hub := hub v; hubSim := hubSim v;
  conflicts := conflicts v; kvBus := kvBus v; graph := graph v; cgRuns := cgRuns v;
  runners := runners v; origins := origins v; auth := auth v; limiter := limiter v;
  metrics := metrics v; ready := ready v; healthErr := healthErr v |}.
Definition put_http (v : Server) l m := {| sims := sims v; cur := cur v; hub := hub v;
  hubSim := hubSim v; conflicts := conflicts v; kvBus := kvBus v; graph := graph v;
  cgRuns := cgRuns v; runners := runners v; origins := origins v; auth := auth v; limiter := l;
  metrics := m; ready := ready v; healthErr := healthErr v |}.
Definition put_ready (v : Server) r e := {| sims := sims v; cur := cur v; hub := hub v;
  hubSim := hubSim v; conflicts := conflicts v; kvBus := kvBus v; graph := graph v;
  cgRuns := cgRuns v; runners := runners v; origins := origins v; auth := auth v;
  limiter := limiter v; metrics := metrics v; ready := r; healthErr := e |}.

(** The bus of a simulation, and replacing it. *)
Definition sim_bus (s : Simulation) : EventBus := bus (world s).
Definition with_bus (s : Simulation) (b : EventBus) : Simulation := set_world s (set_bus (world s) b).
Definition put_bus (v : Server) (i : nat) (b : EventBus) : Server :=
  put_sims v (alter (λ s, with_bus s b) i (sims v)).

(** ** Operations *)

Definition getSim (v : Server) : option Simulation := sims v !! cur v.

Section ops.
Context `{MapRange} (now : nat → nat → Z).

(** The part of [subscribeCausalGraph] under the lock, for the bus of
    simulation [i], and the goroutine it starts. *)
Definition subscribeCausalGraph (v : Server) (i : nat) : Server :=
  match sims v !! i with
  | None => v
  | Some s =>
      let '(b, ch) := Subscribe (sim_bus s) [EvtSend; EvtReceive; EvtInternalEvent] in
      let cancelled := (λ r, {| cgSim := cgSim r; cgChan := cgChan r; cgCancelled := true;
                                cgRunning := cgRunning r |}) <$> cgRuns v in
      put_graph (put_bus v i b) (graph v)
        (cancelled ++ [{| cgSim := i; cgChan := ch; cgCancelled := false; cgRunning := true |}])
  end.

(** One round of such a goroutine; once cancelled, the [select] may still take
    an event instead of returning, and on return it unsubscribes.  It treats an
    event as the goroutine of the simulation's own graph does. *)
Definition causal_step (v : Server) (j : nat) (quit : bool) : Server :=
  match cgRuns v !! j with
  | Some r =>
      if negb (cgRunning r) then v
      else match sims v !! cgSim r with
      | None => v
      | Some s =>
          if cgCancelled r && quit then
            put_graph (put_bus v (cgSim r) (Unsubscribe (sim_bus s) (cgChan r))) (graph v)
              (<[j := {| cgSim := cgSim r; cgChan := cgChan r; cgCancelled := true; cgRunning := false |}]>
                (cgRuns v))
          else match Recv (sim_bus s) (cgChan r) with
               | (b, Some e) => put_graph (put_bus v (cgSim r) b) (graph_step (graph v) e) (cgRuns v)
               | (_, None) => v
               end
      end
  | None => v
  end.

(** [s.hub.reconnect], onto the bus of simulation [i]. *)
Definition reconnectHub (v : Server) (i : nat) : Server :=
  match sims v !! hubSim v, sims v !! i with
  | Some old, Some new =>
      let '(h, ob, nb) := reconnect (hub v) (sim_bus old) (sim_bus new) in
      put_hub (put_bus (put_bus v (hubSim v) ob) i nb) h i
  | _, _ => v
  end.

(** [setSim] *)
Definition setSim (v : Server) (newSim : Simulation) : Server :=
  let i := length (sims v) in
  let oldSim := cur v in
  let v := put_cur v (sims v ++ [newSim]) i in
  let v := reconnectHub v i in
  let v := subscribeCausalGraph v i in
  put_sims v (alter (Simulation.Stop (now oldSim)) oldSim (sims v)).

(** [NewServerWithRateLimit], with the outcome of [auth.NewManager]; a failure
    ends the program. *)
Definition NewServerWithRateLimit (s : Simulation) (allowedOrigins : list string)
    (authMgr : Manager + load_error) (ratePerSec burst : float64) : option Server :=
  match authMgr with
  | inr _ => None
  | inl m =>
      let '(b, h) := newWSHub (sim_bus s) in
      let v := {| sims := [with_bus s b]; cur := 0; hub := h; hubSim := 0; conflicts := ∅; kvBus := 0;
                  graph := NewCausalGraph; cgRuns := []; runners := []; origins := allowedOrigins;
                  auth := m;
                  limiter := if f_lt (f_of_Z 0) ratePerSec && f_lt (f_of_Z 0) burst
                             then Some (newRateLimiter ratePerSec burst) else None;
                  metrics := Middleware.NewMetrics; ready := false; healthErr := "" |} in
      Some (put_ready (subscribeCausalGraph v 0) true "")
  end.

Definition NewServer (s : Simulation) (allowedOrigins : list string) (authMgr : Manager + load_error) :
    option Server := NewServerWithRateLimit s allowedOrigins authMgr (f_of_Z 0) (f_of_Z 0).

(** [Shutdown] up to the wait for the goroutines; the HTTP server's own
    shutdown is not part of the state. *)
Definition Shutdown (v : Server) : Server :=
  let v := put_ready v false "shutting down" in
  let v := put_hub v (closeAllClients (Hub.stop (hub v))) (hubSim v) in
  let v := put_sims v (alter (Simulation.Stop (now (cur v))) (cur v) (sims v)) in
  put_graph v (graph v)
    (match last (cgRuns v) with
     | Some r => take (length (cgRuns v) - 1) (cgRuns v) ++
                 [{| cgSim := cgSim r; cgChan := cgChan r; cgCancelled := true; cgRunning := cgRunning r |}]
     | None => []
     end).

(** A round of a scenario's goroutine: it takes the current simulation, or runs
    the next step on the one it has taken. *)
Definition runner_step (v : Server) (j : nat) : Server :=
  match runners v !! j with
  | None => v
  | Some (Waiting k) =>
      let steps := match AllScenarios (now (cur v)) !! k with Some sc => Steps sc | None => [] end in
      put_runners v (<[j := Running (cur v) steps]> (runners v))
  | Some (Running i (st :: steps)) =>
      put_runners (put_sims v (alter (λ s, run_step s st) i (sims v))) (<[j := Running i steps]> (runners v))
  | Some (Running _ []) => v
  end.

(** The goroutines of a simulation, and those of the hub. *)
Definition sim_step (v : Server) (i : nat) (op : sim_op) : Server :=
  if goroutine op then put_sims v (alter (λ s, sim_exec (now i) s op) i (sims v)) else v.

Inductive hub_round :=
  | RRun (quit : bool) | RReplay (id : nat) (timeout : bool) | RPump (id : nat) (ok : bool) | RClose (id : nat).

Definition hub_step (v : Server) (r : hub_round) : Server :=
  match sims v !! hubSim v with
  | None => v
  | Some s =>
      match r with
      | RRun quit => let '(h, b) := Hub.run (hub v) (sim_bus s) quit in
                     put_hub (put_bus v (hubSim v) b) h (hubSim v)
      | RReplay id timeout => put_hub v (replay_step (hub v) (sim_bus s) id timeout) (hubSim v)
      | RPump id ok => put_hub v (pump_step (hub v) id ok) (hubSim v)
      | RClose id => put_hub v (cleanup (hub v) id) (hubSim v)
      end
  end.
End ops.
