(* ===== verification/Rest.v ===== *)
(** * The REST handlers (src/gateway/rest.go)

    Every handler is a function from the server and the request to the server
    and the response, in the order of the handler's checks.  The router (gin)
    gives the matched pattern and its parameters with the request; decoding a
    JSON body into a request type is an interface, one instance per type. *)
From Stdlib Require Import Ascii.
From stdpp Require Import gmap strings list pretty.
From S2P Require Import Prelude GoStrings VClock Causality Events Process Transport Snapshot Conflict.
From S2P Require Import Simulation Scenarios Auth RateLimit Middleware Hub Server.

(** ** Requests and responses *)

(** What a handler reads of a request.  [times] are the readings of the wall
    clock during the request; [handshake] tells whether it is a WebSocket
    handshake, and [badHandshake] the status of the refusal otherwise. *)
Record Request := {
  rqMethod : string;
  rqPath : string;
  rqFullPath : string;
  rqParam : gmap string string;
  rqQuery : gmap string string;
  rqHeader : gmap string string;
  rqHasBody : bool;
  rqContentLength : Z;
  rqBody : string;
  rqClientIP : string;
  rqFreshID : string;
  rqHandshake : bool;
  rqBadHandshake : Z;
  rqTimes : Z * Z
}.

Definition Param (rq : Request) (k : string) : string := default "" (rqParam rq !! k).
Definition Query (rq : Request) (k : string) : string := default "" (rqQuery rq !! k).
Definition GetHeader (rq : Request) (k : string) : string := default "" (rqHeader rq !! k).

(** Response bodies: JSON objects, and the values other packages give. *)
Inductive reply :=
  | RObject (fields : list (string * any))
  | RState (s : SimulationState)
  | RProcess (p : ProcessState)
  | RSnapshot (s : SnapshotDTO)
  | RVerified (id : string) (consistent : bool) (evidence : list string)
  | RFaults (f : FaultState)
  | RPartition (groups : list (list string))
  | RWritten (key : string) (conflict : bool) (clock : VectorClock) (author : string)
  | RVersions (key : string) (versions : list ValueVersion) (siblings : nat)
  | RResolved (key : string) (winner : ValueVersion) (strategy : string)
  | RScenarios (l : list (string * string * nat))
  | RUptime
  | RPrometheus
  | RUpgraded
  | REmpty.

Record Response := { status : Z; content : reply }.

Definition JSON (code : Z) (fields : list (string * any)) : Response :=
  {| status := code; content := RObject fields |}.
Definition OK (r : reply) : Response := {| status := 200; content := r |}.

(** [safeError]: what the client sees; the logging is left out. *)
Definition safeError (code : Z) (publicMsg : string) : Response := JSON code [("error", AString publicMsg)].

(** ** Request types *)
Record startRequest := { srProcessCount : Z; srClockType : string; srDeliveryMode : string }.
Record simConfigRequest := { scrDeliveryMode : string }.
Record spawnRequest := { sprID : string; sprClockType : string; sprDeliveryMode : string }.
Record sendRequest := { sdrFrom : string; sdrTo : string; sdrData : any }.
Record broadcastRequest := { brFrom : string; brData : any }.
Record delayRequest := { dlFrom : string; dlTo : string; dlDelayMs : Z }.
Record dropRequest := { drFrom : string; drTo : string }.
Record partitionRequest := { ptSideA : list string; ptSideB : list string }.
Record kvWriteRequest := { kwValue : list Byte.byte; kwAuthorID : string; kwContextVC : gmap string N }.
Record kvResolveRequest := { krStrategy : string }.

(** [ShouldBindJSON]: what is left in the variable, and whether there was no
    error. *)
Class Bind (T : Type) := ShouldBindJSON : string → T * bool.

(** ** Validation *)

Definition alnum (a : ascii) : bool :=
  let n := Ascii.nat_of_ascii a in
  ((65 <=? n) && (n <=? 90)) || ((97 <=? n) && (n <=? 122)) || ((48 <=? n) && (n <=? 57)).
Definition pid_char (a : ascii) : bool :=
  alnum a || bool_decide (a = "_"%char) || bool_decide (a = "."%char) || bool_decide (a = "-"%char).

(** [pidPattern.MatchString]: one letter or digit, then up to 63 characters of
    the set. *)
Definition pidPattern (id : string) : bool :=
  match String.list_ascii_of_string id with
  | [] => false
  | a :: l => alnum a && forallb pid_char l && (length l <=? 63)
  end.

Definition validatePID (id : string) : option string :=
  if bool_decide (id = "") then Some "process id required"
  else if 64 <? String.length id then Some "process id too long"
  else if negb (pidPattern id) then Some "process id must match [A-Za-z0-9][A-Za-z0-9_.-]{0,63}"
  else None.

Definition parseClockType (s : string) : option string :=
  if bool_decide (s = "") || bool_decide (s = "vector") then Some ClockVector
  else if bool_decide (s = "lamport") then Some ClockLamport
  else if bool_decide (s = "matrix") then Some ClockMatrix
  else None.

Definition parseDeliveryMode (s : string) : option string :=
  if bool_decide (s = "") || bool_decide (s = "causal") then Some CausalDelivery
  else if bool_decide (s = "immediate") then Some ImmediateDelivery
  else if bool_decide (s = "total_order") then Some TotalOrderDelivery
  else None.

(** ** Handlers *)
Section handlers.
Context `{MapRange} (now : nat → nat → Z).
Context `{!Bind startRequest, !Bind simConfigRequest, !Bind spawnRequest, !Bind sendRequest,
  !Bind broadcastRequest, !Bind delayRequest, !Bind dropRequest, !Bind partitionRequest,
  !Bind kvWriteRequest, !Bind kvResolveRequest}.

Definition Handler : Type := Server → Request → Server * Response.

(** A nil simulation would make the handlers that use it panic, which the
    recovery middleware answers; the server always has one. *)
Definition panicked : Response := safeError 500 "internal server error".
Definition with_sim (v : Server) (k : Simulation → Server * Response) : Server * Response :=
  match getSim v with Some s => k s | None => (v, panicked) end.
Definition put_sim (v : Server) (s : Simulation) : Server := put_sims v (<[cur v := s]> (sims v)).

(** Body decoding, with the answer to an undecodable one. *)
Definition bind_json {T} `{!Bind T} (v : Server) (rq : Request) (k : T → Server * Response) :
    Server * Response :=
  match ShouldBindJSON (rqBody rq) with
  | (req, true) => k req
  | (_, false) => (v, safeError 400 "invalid request body")
  end.

(** The id checks, with the error's text or a fixed one. *)
Definition check_id (v : Server) (id : string) (k : Server * Response) : Server * Response :=
  match validatePID id with Some err => (v, safeError 400 err) | None => k end.
Definition check_pid (v : Server) (id msg : string) (k : Server * Response) : Server * Response :=
  match validatePID id with Some _ => (v, safeError 400 msg) | None => k end.

Definition check_clock (v : Server) (s : string) (k : string → Server * Response) : Server * Response :=
  match parseClockType s with Some ct => k ct | None => (v, safeError 400 "invalid clockType") end.
Definition check_mode (v : Server) (s : string) (k : string → Server * Response) : Server * Response :=
  match parseDeliveryMode s with Some dm => k dm | None => (v, safeError 400 "invalid deliveryMode") end.

Definition handleHealthz : Handler := λ v rq, (v, OK RUptime).

Definition handleReadyz : Handler := λ v rq,
  if negb (ready v) then (v, JSON 503 [("ready", ABool false)])
  else match getSim v with
       | None => (v, JSON 503 [("ready", ABool false); ("reason", AString "no simulation")])
       | Some _ => (v, JSON 200 [("ready", ABool true)])
       end.

(** The registry's families are the metrics library's; gathering them does not
    fail here. *)
Definition handlePrometheusMetrics : Handler := λ v rq, (v, OK RPrometheus).

(** [fmt.Sprintf("P%d", i+1)] *)
Definition pid_of (i : nat) : string := "P" +:+ pretty (N.of_nat (S i)).
Definition pid_config (ct dm : string) (i : nat) : ProcessConfig :=
  {| cfgID := pid_of i; cfgClockType := ct; cfgDeliveryMode := dm; cfgPeers := []; cfgAllPIDs := [] |}.

Definition handleSimulationStart : Handler := λ v rq,
  bind_json v rq (λ req : startRequest,
    if (srProcessCount req <? 1)%Z || (100 <? srProcessCount req)%Z
    then (v, safeError 400 "processCount must be between 1 and 100")
    else
      let clockType := if bool_decide (srClockType req = "") then "vector" else srClockType req in
      check_clock v clockType (λ ct,
      check_mode v (srDeliveryMode req) (λ dm,
      with_sim v (λ s,
        let s := spawn_all (now (cur v)) s (pid_config ct dm <$> seq 0 (Z.to_nat (srProcessCount req))) in
        (put_sim v s, JSON 200 [("status", AString "started");
           ("processes", ANumber (pretty (srProcessCount req)))]))))).

Definition handleSimulationReset : Handler := λ v rq,
  let req : startRequest := (ShouldBindJSON (rqBody rq)).1 in
  let clockType := if bool_decide (srClockType req = "") then "vector" else srClockType req in
  let deliveryMode := if bool_decide (srDeliveryMode req = "") then CausalDelivery else srDeliveryMode req in
  let processCount := if (srProcessCount req <? 1)%Z || (100 <? srProcessCount req)%Z then 3%Z
                      else srProcessCount req in
  check_clock v clockType (λ ct,
  check_mode v deliveryMode (λ dm,
    let newSim := Simulation.New {| scClockType := ct; scDeliveryMode := dm; scChannels := "full_mesh" |} in
    let newSim := spawn_all (now (length (sims v))) newSim
                    (pid_config ct dm <$> seq 0 (Z.to_nat processCount)) in
    (setSim now v newSim, JSON 200 [("status", AString "reset");
       ("processes", ANumber (pretty processCount))]))).

Definition handleSimulationState : Handler := λ v rq,
  with_sim v (λ s, (v, OK (RState (GetState s)))).

Definition handleSimulationConfig : Handler := λ v rq,
  bind_json v rq (λ req : simConfigRequest,
    check_mode v (scrDeliveryMode req) (λ dm,
    with_sim v (λ s,
      (put_sim v (Simulation.SetDeliveryMode s dm),
       JSON 200 [("deliveryMode", AString (scrDeliveryMode req))])))).

(** *** Processes *)

Definition handleSpawnProcess : Handler := λ v rq,
  bind_json v rq (λ req : spawnRequest,
    check_id v (sprID req) (
    check_clock v (sprClockType req) (λ ct,
    check_mode v (sprDeliveryMode req) (λ dm,
    with_sim v (λ s,
      match SpawnProcess (now (cur v)) s {| cfgID := sprID req; cfgClockType := ct; cfgDeliveryMode := dm;
                                            cfgPeers := []; cfgAllPIDs := [] |} with
      | (s, Some err) => (put_sim v s, safeError 409 err)
      | (s, None) => (put_sim v s, JSON 201 [("id", AString (sprID req))])
      end))))).

Definition handleKillProcess : Handler := λ v rq,
  let id := Param rq "id" in
  check_id v id (with_sim v (λ s,
    match KillProcess (now (cur v)) s id with
    | (s, Some err) => (put_sim v s, safeError 404 err)
    | (s, None) => (put_sim v s, JSON 200 [("killed", AString id)])
    end)).

Definition handleGetProcess : Handler := λ v rq,
  let id := Param rq "id" in
  check_id v id (with_sim v (λ s,
    match GetProcess s id with
    | None => (v, safeError 404 "process not found")
    | Some p => (v, OK (RProcess (Process.Snapshot p)))
    end)).

Definition handleInternalEvent : Handler := λ v rq,
  let id := Param rq "id" in
  check_id v id (with_sim v (λ s,
    match Simulation.InternalEvent (now (cur v)) s id with
    | (s, Some err) => (put_sim v s, safeError 404 err)
    | (s, None) => (put_sim v s, JSON 200 [("ok", ABool true)])
    end)).

Definition handleTriggerSnapshot : Handler := λ v rq,
  let id := Param rq "id" in
  check_id v id (with_sim v (λ s,
    match TriggerSnapshot (now (cur v)) s id with
    | (s, inr err) =>
        if Contains err "not found" then (put_sim v s, safeError 404 "process not found")
        else (put_sim v s, safeError 500 "snapshot failed")
    | (s, inl snapID) => (put_sim v s, JSON 200 [("snapshotId", AString snapID)])
    end)).

(** *** Messages *)

Definition handleSendMessage : Handler := λ v rq,
  bind_json v rq (λ req : sendRequest,
    check_pid v (sdrFrom req) "invalid 'from'" (check_pid v (sdrTo req) "invalid 'to'" (with_sim v (λ s,
      match SendMessage (now (cur v)) s (sdrFrom req) (sdrTo req) (sdrData req) with
      | (s, Some _) => (put_sim v s, safeError 500 "send failed")
      | (s, None) => (put_sim v s, JSON 200 [("ok", ABool true)])
      end)))).

Definition handleBroadcast : Handler := λ v rq,
  bind_json v rq (λ req : broadcastRequest,
    check_pid v (brFrom req) "invalid 'from'" (with_sim v (λ s,
      match BroadcastMessage (now (cur v)) s (brFrom req) (brData req) with
      | (s, Some _) => (put_sim v s, safeError 500 "broadcast failed")
      | (s, None) => (put_sim v s, JSON 200 [("ok", ABool true)])
      end))).

(** *** Snapshots *)

Definition handleGetSnapshot : Handler := λ v rq,
  let id := Param rq "id" in
  with_sim v (λ s,
    match Simulation.GetSnapshot s id with
    | None => (v, safeError 404 "snapshot not found")
    | Some gs => (v, OK (RSnapshot (ToDTO gs)))
    end).

Definition handleVerifySnapshot : Handler := λ v rq,
  let id := Param rq "id" in
  with_sim v (λ s,
    match Simulation.GetSnapshot s id with
    | None => (v, safeError 404 "snapshot not found")
    | Some gs => let result := Verify gs in
                 (v, OK (RVerified id (Consistent result) (Evidence result)))
    end).

(** *** Causality *)

Definition handleHappenedBefore : Handler := λ v rq,
  let aID := Query rq "a" in
  let bID := Query rq "b" in
  if bool_decide (aID = "") || bool_decide (bID = "")
  then (v, safeError 400 "query params 'a' and 'b' required")
  else (v, JSON 200 [("happenedBefore", ABool (Causality.HappenedBefore (graph v) aID bID));
                     ("concurrent", ABool (Causality.Concurrent (graph v) aID bID));
                     ("a", AString aID); ("b", AString bID)]).

(** *** Faults *)

Definition ok_reply : Response := JSON 200 [("ok", ABool true)].

Definition handleFaultDelay : Handler := λ v rq,
  bind_json v rq (λ req : delayRequest,
    check_pid v (dlFrom req) "invalid 'from'" (check_pid v (dlTo req) "invalid 'to'" (
      if (dlDelayMs req <? 0)%Z || (600000 <? dlDelayMs req)%Z
      then (v, safeError 400 "delayMs must be between 0 and 600000")
      else with_sim v (λ s,
        (put_sim v (Simulation.InjectDelay s (dlFrom req) (dlTo req) (dlDelayMs req)), ok_reply))))).

Definition handleFaultDrop : Handler := λ v rq,
  bind_json v rq (λ req : dropRequest,
    check_pid v (drFrom req) "invalid 'from'" (check_pid v (drTo req) "invalid 'to'" (with_sim v (λ s,
      (put_sim v (Simulation.InjectDrop s (drFrom req) (drTo req)), ok_reply))))).

Definition handleClearFaults : Handler := λ v rq,
  with_sim v (λ s, (put_sim v (set_world s (on_transport (world s) Transport.ClearFaults)), ok_reply)).

Definition handleGetFaults : Handler := λ v rq,
  with_sim v (λ s, (v, OK (RFaults (GetFaults (transport (net (world s))))))).

Fixpoint check_sides (v : Server) (pids : list string) (k : Server * Response) : Server * Response :=
  match pids with
  | [] => k
  | pid :: pids => check_pid v pid "invalid process id in partition" (check_sides v pids k)
  end.

Definition handleFaultPartition : Handler := λ v rq,
  bind_json v rq (λ req : partitionRequest,
    if (length (ptSideA req) =? 0) || (length (ptSideB req) =? 0)
    then (v, safeError 400 "sideA and sideB must each be non-empty")
    else if (256 <? Z.of_nat (length (ptSideA req)))%Z || (256 <? Z.of_nat (length (ptSideB req)))%Z
    then (v, safeError 400 "partition side too large (max 256 entries)")
    else check_sides v (ptSideA req ++ ptSideB req) (with_sim v (λ s,
      (put_sim v (Simulation.SetPartition s [ptSideA req; ptSideB req]),
       OK (RPartition [ptSideA req; ptSideB req]))))).

Definition handleHealPartition : Handler := λ v rq,
  with_sim v (λ s, (put_sim v (Simulation.SetPartition s []), JSON 200 [("partition", ANil)])).

(** *** The key-value store *)

Definition vectorFromMap (m : gmap string N) : VectorClock := m.

(** A call of the store, which publishes on the bus of simulation [kvBus]. *)
Definition kv_call {A} (v : Server) (f : ConflictDetector → ConflictDetector * A) : Server * A :=
  let '(d, a) := f {| store := conflicts v; cdbus := sim_bus <$> sims v !! kvBus v |} in
  let v := match cdbus d with Some b => put_bus v (kvBus v) b | None => v end in
  (put_kv v (store d), a).

Definition check_key (v : Server) (key : string) (k : Server * Response) : Server * Response :=
  if bool_decide (key = "") || (256 <? Z.of_nat (String.length key))%Z
  then (v, safeError 400 "invalid key") else k.

Definition handleKVWrite : Handler := λ v rq,
  let key := Param rq "key" in
  check_key v key (bind_json v rq (λ req : kvWriteRequest,
    if (1048576 <? Z.of_nat (length (kwValue req)))%Z then (v, safeError 413 "value too large")
    else if bool_decide (kwAuthorID req = "") then (v, safeError 400 "authorId required")
    else check_pid v (kwAuthorID req) "invalid authorId" (
      match kv_call v (λ d, Conflict.Write d key (kwValue req) (vectorFromMap (kwContextVC req))
                              (kwAuthorID req) (rqTimes rq).1 (rqTimes rq).2) with
      | (v, inr _) => (v, safeError 503 "kv write failed")
      | (v, inl (ver, isConflict)) => (v, OK (RWritten key isConflict (Clock ver) (Author ver)))
      end))).

Definition handleKVRead : Handler := λ v rq,
  let key := Param rq "key" in
  check_key v key (
    match conflicts v !! key with
    | None => (v, safeError 404 "key not found")
    | Some entry => (v, OK (RVersions key (Versions entry) (length (Versions entry))))
    end).

Definition strategy_of (s : string) : option ConflictResolution :=
  if bool_decide (s = "first_writer_wins") then Some FirstWriterWins
  else if bool_decide (s = "keep_all") then Some KeepAll
  else if bool_decide (s = "") || bool_decide (s = "last_writer_wins") then Some LastWriterWins
  else None.

Definition handleKVResolve : Handler := λ v rq,
  let key := Param rq "key" in
  check_key v key (
    let req : kvResolveRequest := (ShouldBindJSON (rqBody rq)).1 in
    match strategy_of (krStrategy req) with
    | None => (v, safeError 400 "unknown strategy")
    | Some strategy =>
        match kv_call v (λ d, ResolveKey d key strategy) with
        | (v, None) => (v, safeError 404 "key not found")
        | (v, Some winner) => (v, OK (RResolved key winner (krStrategy req)))
        end
    end).

(** *** Scenarios *)

Definition handleListScenarios : Handler := λ v rq,
  (v, OK (RScenarios ((λ sc, (Name sc, Description sc, length (Steps sc))) <$> AllScenarios (now 0)))).

(** The goroutine is started for the first scenario of that name. *)
Definition handleRunScenario : Handler := λ v rq,
  let name := Param rq "name" in
  if bool_decide (name = "") || (128 <? String.length name)
  then (v, safeError 400 "invalid scenario name")
  else match list_find (λ sc, Name sc = name) (AllScenarios (now 0)) with
       | Some (k, _) => (put_runners v (runners v ++ [Waiting k]), JSON 200 [("running", AString name)])
       | None => (v, safeError 404 "scenario not found")
       end.

Definition handleMetrics : Handler := λ v rq,
  with_sim v (λ s, (v, JSON 200 [("eventBusDrops", ANumber (pretty (DropCount (sim_bus s))))])).

(** The WebSocket endpoint; the upgrader answers a refusal. *)
Definition handleUpgrade : Handler := λ v rq,
  if rqHandshake rq then
    match handleWS (hub v) (origins v) (GetHeader rq "Origin") with
    | (h, true) => (put_hub v h (hubSim v), {| status := 101; content := RUpgraded |})
    | (_, false) => (v, {| status := 403; content := REmpty |})
    end
  else (v, {| status := rqBadHandshake rq; content := REmpty |}).

(** ** Routes *)

Definition registerRoutes : list (string * string * Handler) := [
  ("POST", "/api/v1/simulation/start", handleSimulationStart);
  ("POST", "/api/v1/simulation/reset", handleSimulationReset);
  ("GET", "/api/v1/simulation/state", handleSimulationState);
  ("PUT", "/api/v1/simulation/config", handleSimulationConfig);
  ("POST", "/api/v1/processes", handleSpawnProcess);
  ("DELETE", "/api/v1/processes/:id", handleKillProcess);
  ("GET", "/api/v1/processes/:id", handleGetProcess);
  ("POST", "/api/v1/processes/:id/event", handleInternalEvent);
  ("POST", "/api/v1/processes/:id/snapshot", handleTriggerSnapshot);
  ("POST", "/api/v1/messages", handleSendMessage);
  ("POST", "/api/v1/broadcast", handleBroadcast);
  ("GET", "/api/v1/snapshots/:id", handleGetSnapshot);
  ("GET", "/api/v1/snapshots/:id/verify", handleVerifySnapshot);
  ("GET", "/api/v1/causality/happened-before", handleHappenedBefore);
  ("GET", "/api/v1/faults", handleGetFaults);
  ("POST", "/api/v1/faults/delay", handleFaultDelay);
  ("POST", "/api/v1/faults/drop", handleFaultDrop);
  ("DELETE", "/api/v1/faults", handleClearFaults);
  ("POST", "/api/v1/faults/partition", handleFaultPartition);
  ("DELETE", "/api/v1/faults/partition", handleHealPartition);
  ("POST", "/api/v1/kv/:key", handleKVWrite);
  ("GET", "/api/v1/kv/:key", handleKVRead);
  ("POST", "/api/v1/kv/:key/resolve", handleKVResolve);
  ("GET", "/api/v1/scenarios", handleListScenarios);
  ("POST", "/api/v1/scenarios/:name/run", handleRunScenario);
  ("GET", "/api/v1/metrics", handleMetrics);
  ("GET", "/healthz", handleHealthz);
  ("GET", "/readyz", handleReadyz);
  ("GET", "/metrics", handlePrometheusMetrics);
  ("GET", "/ws", handleUpgrade) ].

Definition route (rq : Request) : option Handler :=
  snd <$> (snd <$> list_find (λ r, r.1 = (rqMethod rq, rqFullPath rq)) registerRoutes).

(** A request without a route. *)
Definition no_route : Response := {| status := 404; content := REmpty |}.

(** ** The chain of middleware, in the order it is installed *)

Definition dispatch (v : Server) (rq : Request) : Server * Response :=
  match route rq with Some h => h v rq | None => (v, no_route) end.

Definition after_auth (v : Server) (rq : Request) : Server * Response :=
  match Auth.Middleware (auth v) (rqPath rq) (GetHeader rq "Authorization") with
  | Unauthorized msg => (v, safeError 401 msg)
  | Next _ => dispatch v rq
  end.

Definition after_limit (v : Server) (rq : Request) (h : gmap string string) :
    Server * Response * gmap string string :=
  match limiter v with
  | None => (after_auth v rq, h)
  | Some rl =>
      let '(rl, ok) := RateLimitMiddleware rl (rqPath rq) (rqClientIP rq) (rqTimes rq).1 in
      let v := put_http v (Some rl) (metrics v) in
      if ok then (after_auth v rq, h)
      else (v, safeError 429 "rate limit exceeded", <["Retry-After" := "1"]> h)
  end.

(** The whole of a request: the server, the response and its headers. *)
Definition serve (v : Server) (rq : Request) : Server * Response * gmap string string :=
  let h := securityHeadersMiddleware ∅ in
  let '(h, _) := requestIDMiddleware (GetHeader rq "X-Request-Id") (rqFreshID rq) h in
  if maxBodyMiddleware MaxJSONBodyBytes (rqHasBody rq) (rqContentLength rq)
  then (v, safeError 413 "request body exceeds maximum allowed size", h)
  else
    let v := put_http v (limiter v) (metrics_before (metrics v)) in
    let '(h, preflight) := corsMiddleware (origins v) (rqMethod rq) (GetHeader rq "Origin")
      (GetHeader rq "Cookie") (GetHeader rq "Authorization") h in
    let '(v, r, h) := if preflight then (v, {| status := 204; content := REmpty |}, h)
                      else after_limit v rq h in
    (put_http v (limiter v) (metrics_after (metrics v) (rqMethod rq) (rqFullPath rq) (status r)), r, h).
End handlers.

(** The proofs about all routes unfold the handlers by this database. *)
Create HintDb handlers.
#[export] Hint Unfold handleHealthz handleReadyz handlePrometheusMetrics handleSimulationStart
  handleSimulationReset handleSimulationState handleSimulationConfig handleSpawnProcess
  handleKillProcess handleGetProcess handleInternalEvent handleTriggerSnapshot handleSendMessage
  handleBroadcast handleGetSnapshot handleVerifySnapshot handleHappenedBefore handleFaultDelay
  handleFaultDrop handleClearFaults handleGetFaults handleFaultPartition handleHealPartition
  handleKVWrite handleKVRead handleKVResolve handleListScenarios handleRunScenario handleMetrics
  handleUpgrade : handlers.
