(* ===== verification/Gateway.v ===== *)
(** * The server in operation (src/gateway)

    Requests and rounds of the goroutines in any order, and what the server
    promises: how its parts stay connected across resets, what a failed request
    may change, who may change anything, and what a reset does. *)
From Stdlib Require Import Ascii.
From stdpp Require Import gmap strings list pretty.
From S2P Require Import Prelude GoStrings VClock HoldBack Causality Events Process Transport Snapshot Conflict.
From S2P Require Import Simulation Scenarios Auth RateLimit Middleware Hub Server Rest.

(** ** What everything but a reset keeps *)

(** A simulation keeps its invariant and extends its bus. *)
Definition sim_keeps (s s' : Simulation) : Prop :=
  (sim_inv s → sim_inv s') ∧ bus_le (sim_bus s) (sim_bus s').

#[export] Instance sim_keeps_preorder : PreOrder sim_keeps.
Proof. split; [by split|]. intros s1 s2 s3 [] []. split; [auto|by etrans]. Qed.

(** The steps a runner has left. *)
Definition action_keeps (a : Action) : Prop := ∀ s, sim_keeps s (a s).1.
Definition step_ok (st : ScenarioStep) : Prop := ∀ a, Action_ st = Some a → action_keeps a.
Definition runner_ok (r : Runner) : Prop :=
  match r with Waiting _ => True | Running _ steps => Forall step_ok steps end.

Record srv_le (v v' : Server) : Prop := {
  le_cur : cur v' = cur v;
  le_hubSim : hubSim v' = hubSim v;
  le_kv : kvBus v' = kvBus v;
  le_cg : cgRuns v' = cgRuns v;
  le_sub : sub (hub v') = sub (hub v);
  le_runners : Forall runner_ok (runners v) → Forall runner_ok (runners v');
  le_sims : Forall2 sim_keeps (sims v) (sims v')
}.

#[export] Instance srv_le_preorder : PreOrder srv_le.
Proof.
  split.
  - intros v. by split.
  - intros v1 v2 v3 [] []. split; try congruence; [auto|by etrans].
Qed.

Section keeps.
Context `{MapRange}.

Lemma exec_keeps now s op : sim_keeps s (sim_exec now s op).
Proof. split; [apply (sim_run_inv now s [op])|apply bus_frame]. Qed.

Lemma with_bus_keeps s b : bus_le (sim_bus s) b → sim_keeps s (with_bus s b).
Proof. intros Hb. split; [|exact Hb]. intros []. by split. Qed.

Lemma spawn_all_keeps now s cs : sim_keeps s (spawn_all now s cs).
Proof.
  unfold spawn_all. apply (foldl_inv (sim_keeps s) (λ _, True)); [|by apply Forall_true|done].
  intros s' c _ Hs. etrans; [exact Hs|]. apply (exec_keeps now s' (OSpawn c)).
Qed.

(** *** Scenario steps *)

Lemma spawn_each_sim_keeps now ids ct mode : action_keeps (spawn_each now ids ct mode).
Proof.
  induction ids as [|id ids IH]; intros s; [done|]. simpl.
  match goal with |- context [SpawnProcess now s ?c] => pose proof (exec_keeps now s (OSpawn c)) as Hk end.
  simpl in Hk. destruct (SpawnProcess now s _) as [s' [err|]]; [exact Hk|]. etrans; [exact Hk|apply IH].
Qed.

Lemma scenario_action_keeps now sc st a :
  sc ∈ AllScenarios now → st ∈ Steps sc → Action_ st = Some a → action_keeps a.
Proof.
  apply actions_ind.
  - intros ids. apply spawn_each_sim_keeps.
  - intros from to data s. apply (exec_keeps now s (OSend from to (AString data))).
  - intros pid s. apply (exec_keeps now s (OInternal pid)).
  - intros pid s. pose proof (exec_keeps now s (OTrigger pid)) as Hk. unfold trigger. simpl in Hk.
    by destruct (TriggerSnapshot now s pid) as [? [?|?]].
  - intros groups s. apply (exec_keeps now s (OPartition groups)).
  - intros a1 a2 H1 H2 s. etrans; [apply H1|apply H2].
Qed.

Lemma run_step_sim_keeps s st : step_ok st → sim_keeps s (run_step s st).
Proof.
  intros Hst. unfold run_step. set (s1 := if bool_decide _ then _ else _).
  assert (sim_keeps s s1) as Hs1.
  { subst s1. case_bool_decide; [|done]. simpl. split; [intros []; by split|].
    apply publish_le, nameless_plain. done. }
  destruct (Action_ st) as [a|] eqn:Ha; [|done]. etrans; [exact Hs1|by apply Hst].
Qed.

(** *** Servers *)
Lemma srv_le_sims v ss : Forall2 sim_keeps (sims v) ss → srv_le v (put_sims v ss).
Proof. by split. Qed.

Lemma alter_keeps (f : Simulation → Simulation) i ss :
  (∀ s, ss !! i = Some s → sim_keeps s (f s)) → Forall2 sim_keeps ss (alter f i ss).
Proof.
  intros Hf. apply Forall2_lookup. intros j. destruct (decide (j = i)) as [->|Hne].
  - rewrite list_lookup_alter_eq. destruct (ss !! i) eqn:E; constructor. by apply Hf.
  - rewrite list_lookup_alter_ne by done. destruct (ss !! j); by constructor.
Qed.

Lemma put_sim_le v s s' : getSim v = Some s → sim_keeps s s' → srv_le v (put_sim v s').
Proof.
  intros Hs Hk. apply srv_le_sims. apply Forall2_lookup. intros j.
  destruct (decide (j = cur v)) as [->|Hne].
  - rewrite list_lookup_insert_eq by (by eapply lookup_lt_Some). unfold getSim in Hs. rewrite Hs. by constructor.
  - rewrite list_lookup_insert_ne by done. destruct (sims v !! j); by constructor.
Qed.

Lemma put_bus_le v i s b : sims v !! i = Some s → bus_le (sim_bus s) b → srv_le v (put_bus v i b).
Proof.
  intros Hs Hb. apply srv_le_sims, alter_keeps. intros s' Hs'. rewrite Hs in Hs'.
  injection Hs' as <-. by apply with_bus_keeps.
Qed.

(** *** The store's bus *)
Definition opt_bus_le (b b' : option EventBus) : Prop :=
  match b, b' with Some b, Some b' => bus_le b b' | None, None => True | _, _ => False end.

Lemma Write_bus d key value ctx author t1 t2 :
  opt_bus_le (cdbus d) (cdbus (Conflict.Write d key value ctx author t1 t2).1).
Proof.
  assert (∀ b : option EventBus, opt_bus_le b b) as Hrefl by (by intros [b|]).
  unfold Conflict.Write. repeat (case_bool_decide; [apply Hrefl|]).
  destruct (store d !! key) as [e|]; [|by destruct (_ <=? _)].
  destruct (foldl _ _ _) as [[sv mc] [|]]; [|apply Hrefl]. simpl.
  destruct (cdbus d) as [b|]; [|done]. simpl. by apply publish_only_le, nameless_plain.
Qed.

Lemma kv_call_le {A} v (f : ConflictDetector → ConflictDetector * A) :
  (∀ d, opt_bus_le (cdbus d) (cdbus (f d).1)) → srv_le v (kv_call v f).1.
Proof.
  intros Hf. unfold kv_call. set (d := {| store := _; cdbus := _ |}).
  pose proof (Hf d) as Hd. destruct (f d) as [d' a]. simpl in *.
  destruct (sims v !! kvBus v) as [s|] eqn:Hs; simpl in Hd.
  - destruct (cdbus d') as [b|]; [|done]. etrans; [by apply (put_bus_le v (kvBus v) s b)|]. by split.
  - destruct (cdbus d') as [b|]; [done|]. by split.
Qed.

Lemma Resolve_bus d key st : opt_bus_le (cdbus d) (cdbus (ResolveKey d key st).1).
Proof.
  assert (∀ b : option EventBus, opt_bus_le b b) as Hrefl by (by intros [b|]).
  unfold ResolveKey. destruct (store d !! key) as [e|]; [|apply Hrefl].
  destruct (Versions e) as [|x l]; [apply Hrefl|].
  destruct (Resolve _ _); [|apply Hrefl]. by case_bool_decide; apply Hrefl.
Qed.
End keeps.

(** ** The checks of the handlers

    A property of outcomes that holds of every refusal that leaves the server
    alone holds after a check if it holds of what follows the check. *)
Section checks.
Context `{MapRange} (v : Server) (P : Server * Response → Prop).
Context (Hrefuse : ∀ r, (400 <= status r)%Z → P (v, r)).

Lemma bind_ind {T} `{!Bind T} rq (k : T → Server * Response) :
  (∀ req, P (k req)) → P (bind_json v rq k).
Proof. intros Hk. unfold bind_json. destruct (ShouldBindJSON _) as [req []]; [apply Hk|by apply Hrefuse]. Qed.

Lemma check_id_ind id k : P k → P (check_id v id k).
Proof. intros Hk. unfold check_id. destruct (validatePID id); [by apply Hrefuse|done]. Qed.
Lemma check_pid_ind id msg k : P k → P (check_pid v id msg k).
Proof. intros Hk. unfold check_pid. destruct (validatePID id); [by apply Hrefuse|done]. Qed.
Lemma check_clock_ind s k : (∀ ct, P (k ct)) → P (check_clock v s k).
Proof. intros Hk. unfold check_clock. destruct (parseClockType s); [apply Hk|by apply Hrefuse]. Qed.
Lemma check_mode_ind s k : (∀ dm, P (k dm)) → P (check_mode v s k).
Proof. intros Hk. unfold check_mode. destruct (parseDeliveryMode s); [apply Hk|by apply Hrefuse]. Qed.
Lemma with_sim_ind k : (∀ s, getSim v = Some s → P (k s)) → P (with_sim v k).
Proof. intros Hk. unfold with_sim. destruct (getSim v); [by apply Hk|by apply Hrefuse]. Qed.
Lemma check_sides_ind pids k : P k → P (check_sides v pids k).
Proof. intros Hk. induction pids; [done|]. simpl. by apply check_pid_ind. Qed.
Lemma check_key_ind key k : P k → P (check_key v key k).
Proof. intros Hk. unfold check_key. destruct (_ || _); [by apply Hrefuse|done]. Qed.
End checks.

Ltac rest_checks :=
  repeat first
    [ apply bind_ind; [assumption|intros ?req]
    | apply check_id_ind; [assumption|]
    | apply check_pid_ind; [assumption|]
    | apply check_clock_ind; [assumption|intros ?ct]
    | apply check_mode_ind; [assumption|intros ?dm]
    | apply check_sides_ind; [assumption|]
    | apply check_key_ind; [assumption|]
    | apply with_sim_ind; [assumption|intros ?s ?Hs]
    | match goal with
      | Hr : ∀ r, _ → ?P (_, r) |- ?P (if ?b then _ else _) => destruct b eqn:?; [by apply Hr|]
      end ].

Section routes.
Context `{MapRange} (now : nat → nat → Z).
Context `{!Bind startRequest, !Bind simConfigRequest, !Bind spawnRequest, !Bind sendRequest,
  !Bind broadcastRequest, !Bind delayRequest, !Bind dropRequest, !Bind partitionRequest,
  !Bind kvWriteRequest, !Bind kvResolveRequest}.

(** The routes, one by one. *)
Lemma routes_ind (P : string → string → Handler → Prop) :
  P "POST" "/api/v1/simulation/start" (handleSimulationStart now) →
  P "POST" "/api/v1/simulation/reset" (handleSimulationReset now) →
  P "GET" "/api/v1/simulation/state" handleSimulationState →
  P "PUT" "/api/v1/simulation/config" handleSimulationConfig →
  P "POST" "/api/v1/processes" (handleSpawnProcess now) →
  P "DELETE" "/api/v1/processes/:id" (handleKillProcess now) →
  P "GET" "/api/v1/processes/:id" handleGetProcess →
  P "POST" "/api/v1/processes/:id/event" (handleInternalEvent now) →
  P "POST" "/api/v1/processes/:id/snapshot" (handleTriggerSnapshot now) →
  P "POST" "/api/v1/messages" (handleSendMessage now) →
  P "POST" "/api/v1/broadcast" (handleBroadcast now) →
  P "GET" "/api/v1/snapshots/:id" handleGetSnapshot →
  P "GET" "/api/v1/snapshots/:id/verify" handleVerifySnapshot →
  P "GET" "/api/v1/causality/happened-before" handleHappenedBefore →
  P "GET" "/api/v1/faults" handleGetFaults →
  P "POST" "/api/v1/faults/delay" handleFaultDelay →
  P "POST" "/api/v1/faults/drop" handleFaultDrop →
  P "DELETE" "/api/v1/faults" handleClearFaults →
  P "POST" "/api/v1/faults/partition" handleFaultPartition →
  P "DELETE" "/api/v1/faults/partition" handleHealPartition →
  P "POST" "/api/v1/kv/:key" handleKVWrite →
  P "GET" "/api/v1/kv/:key" handleKVRead →
  P "POST" "/api/v1/kv/:key/resolve" handleKVResolve →
  P "GET" "/api/v1/scenarios" (handleListScenarios now) →
  P "POST" "/api/v1/scenarios/:name/run" (handleRunScenario now) →
  P "GET" "/api/v1/metrics" handleMetrics →
  P "GET" "/healthz" handleHealthz → P "GET" "/readyz" handleReadyz →
  P "GET" "/metrics" handlePrometheusMetrics → P "GET" "/ws" handleUpgrade →
  Forall (λ r, P r.1.1 r.1.2 r.2) (registerRoutes now).
Proof. intros. unfold registerRoutes. repeat (apply Forall_cons; split; [assumption|]). constructor. Qed.

(** Serving a request is at most running the handler of a route on the server
    with its limiter and counters updated. *)
Lemma route_Forall (P : string → string → Handler → Prop) rq h :
  Forall (λ r, P r.1.1 r.1.2 r.2) (registerRoutes now) → route now rq = Some h →
  P (rqMethod rq) (rqFullPath rq) h.
Proof.
  intros Hall. unfold route.
  destruct (list_find _ (registerRoutes now)) as [[i r]|] eqn:E; [|done]. intros [= <-].
  apply list_find_Some in E as (Hr & E & _). rewrite Forall_lookup in Hall. specialize (Hall i r Hr).
  destruct r as [[m p] h']. simpl in *. by injection E as -> ->.
Qed.

(** Every handler but the reset's. *)
Lemma handlers_keep :
  Forall (λ r, r.1.2 ≠ "/api/v1/simulation/reset" → ∀ v rq, srv_le v (r.2 v rq).1) (registerRoutes now).
Proof.
  apply (routes_ind (λ _ p h, p ≠ "/api/v1/simulation/reset" → ∀ v rq, srv_le v (h v rq).1));
    try done; intros _ v rq; set (P := λ o : Server * Response, srv_le v o.1);
    assert (∀ r, (400 <= status r)%Z → P (v, r)) as Hr by done;
    match goal with |- srv_le v ?o.1 => change (P o) end.
  all: try (autounfold with handlers; by rest_checks).
  all: try (autounfold with handlers; rest_checks; apply (put_sim_le v s); [done|];
    first [apply (exec_keeps (now 0) s (OMode _)) | apply (exec_keeps (now 0) s (ODelay _ _ _))
          | apply (exec_keeps (now 0) s (ODrop _ _)) | apply (exec_keeps (now 0) s OClearFaults)
          | apply (exec_keeps (now 0) s (OPartition _))]).
  - unfold handleSimulationStart. rest_checks. apply (put_sim_le v s); [done|apply spawn_all_keeps].
  - unfold handleSpawnProcess. rest_checks.
    match goal with |- context [SpawnProcess ?n s ?c] => pose proof (exec_keeps n s (OSpawn c)) as Hk end.
    simpl in Hk. destruct (SpawnProcess _ _ _) as [s' []]; by apply (put_sim_le v s).
  - unfold handleKillProcess. rest_checks. pose proof (exec_keeps (now (cur v)) s (OKill (Param rq "id"))) as Hk.
    simpl in Hk. destruct (KillProcess _ _ _) as [s' []]; by apply (put_sim_le v s).
  - unfold handleGetProcess. rest_checks. by destruct (GetProcess _ _).
  - unfold handleInternalEvent. rest_checks.
    pose proof (exec_keeps (now (cur v)) s (OInternal (Param rq "id"))) as Hk.
    simpl in Hk. destruct (Simulation.InternalEvent _ _ _) as [s' []]; by apply (put_sim_le v s).
  - unfold handleTriggerSnapshot. rest_checks.
    pose proof (exec_keeps (now (cur v)) s (OTrigger (Param rq "id"))) as Hk.
    simpl in Hk. destruct (TriggerSnapshot _ _ _) as [s' [|]]; [by apply (put_sim_le v s)|].
    destruct (Contains _ _); by apply (put_sim_le v s).
  - unfold handleSendMessage. rest_checks.
    pose proof (exec_keeps (now (cur v)) s (OSend (sdrFrom req) (sdrTo req) (sdrData req))) as Hk.
    simpl in Hk. destruct (SendMessage _ _ _ _ _) as [s' []]; by apply (put_sim_le v s).
  - unfold handleBroadcast. rest_checks.
    pose proof (exec_keeps (now (cur v)) s (OBroadcast (brFrom req) (brData req))) as Hk.
    simpl in Hk. destruct (BroadcastMessage _ _ _ _) as [s' []]; by apply (put_sim_le v s).
  - unfold handleGetSnapshot. rest_checks. by destruct (Simulation.GetSnapshot _ _).
  - unfold handleVerifySnapshot. rest_checks. by destruct (Simulation.GetSnapshot _ _).
  - unfold handleKVWrite. rest_checks.
    match goal with |- context [kv_call v ?f] => pose proof (kv_call_le v f) as Hk end.
    destruct (kv_call v _) as [v' [[? ?]|]]; apply Hk; intros d; apply Write_bus.
  - unfold handleKVRead. rest_checks. by destruct (conflicts v !! _).
  - unfold handleKVResolve. rest_checks. destruct (strategy_of _) as [st|]; [|done].
    match goal with |- context [kv_call v ?f] => pose proof (kv_call_le v f) as Hk end.
    destruct (kv_call v _) as [v' [w|]]; apply Hk; intros d; apply Resolve_bus.
  - unfold handleRunScenario. rest_checks. destruct (list_find _ _) as [[k ?]|]; split; try done.
    intros Hrs. apply Forall_app. by split; [|repeat constructor].
  - unfold handleReadyz. destruct (negb _); [done|]. by destruct (getSim v).
  - unfold handleUpgrade. destruct (rqHandshake rq); [|done]. unfold handleWS.
    destruct (CheckOrigin _ _); by split.
Qed.
End routes.

(** ** The wiring *)

(** A request, or a round of a goroutine. *)
Inductive server_op :=
  | VServe (rq : Request)
  | VSim (i : nat) (op : sim_op)
  | VCausal (j : nat) (quit : bool)
  | VRunner (j : nat)
  | VHub (r : hub_round).

Record server_inv (v : Server) : Prop := {
  sv_cur : cur v < length (sims v);
  sv_sims : Forall sim_inv (sims v);
  sv_hub : hubSim v = cur v;
  sv_kv : kvBus v = 0;
  sv_sub s : sims v !! cur v = Some s → subs (sim_bus s) !! sub (hub v) = Some ∅;
  sv_cg : ∃ rs r, cgRuns v = rs ++ [r] ∧ cgSim r = cur v ∧ cgCancelled r = false ∧ cgRunning r = true ∧
    (∀ s, sims v !! cur v = Some s →
       subs (sim_bus s) !! cgChan r = Some {[EvtSend; EvtReceive; EvtInternalEvent]}) ∧
    Forall (λ r', cgCancelled r' = true ∧ cgSim r' < cur v) rs;
  sv_stopped i s : sims v !! i = Some s → i ≠ cur v → done (sim_bus s) = true;
  sv_runners : Forall runner_ok (runners v)
}.

Section wiring.
Context `{MapRange} (now : nat → nat → Z).
Context `{!Bind startRequest, !Bind simConfigRequest, !Bind spawnRequest, !Bind sendRequest,
  !Bind broadcastRequest, !Bind delayRequest, !Bind dropRequest, !Bind partitionRequest,
  !Bind kvWriteRequest, !Bind kvResolveRequest}.

Definition server_exec (v : Server) (op : server_op) : Server :=
  match op with
  | VServe rq => (serve now v rq).1.1
  | VSim i op => sim_step now v i op
  | VCausal j quit => causal_step v j quit
  | VRunner j => runner_step now v j
  | VHub r => hub_step v r
  end.

Definition server_run (v : Server) (ops : list server_op) : Server := foldl server_exec v ops.

Lemma srv_le_lookup v v' i s' :
  srv_le v v' → sims v' !! i = Some s' → ∃ s, sims v !! i = Some s ∧ sim_keeps s s'.
Proof. intros Hle Hs. by apply (Forall2_lookup_r _ _ _ _ _ (le_sims _ _ Hle) Hs). Qed.

Lemma server_inv_le v v' : srv_le v v' → server_inv v → server_inv v'.
Proof.
  intros Hle [Hc Hs Hh Hk Hsub (rs & r & Ers & Er & Hcn & Hrun & Hch & Hrs) Hst Hrn].
  pose proof (le_cur _ _ Hle) as Ec. split.
  - rewrite Ec. by rewrite <- (Forall2_length _ _ _ (le_sims _ _ Hle)).
  - apply Forall_lookup. intros i s' Hs'. destruct (srv_le_lookup v v' i s' Hle Hs') as (s & Hi & Hkeep & _).
    apply Hkeep. by eapply Forall_lookup_1.
  - rewrite Ec, (le_hubSim _ _ Hle). done.
  - by rewrite (le_kv _ _ Hle).
  - intros s'. rewrite Ec, (le_sub _ _ Hle). intros Hs'.
    destruct (srv_le_lookup v v' _ s' Hle Hs') as (s & Hi & _ & Hb). rewrite (bl_subs _ _ Hb). by apply Hsub.
  - exists rs, r. rewrite Ec, (le_cg _ _ Hle). repeat (split; [done|]). split; [|done].
    intros s' Hs'. destruct (srv_le_lookup v v' _ s' Hle Hs') as (s & Hi & _ & Hb).
    rewrite (bl_subs _ _ Hb). by apply Hch.
  - intros i s' Hs'. rewrite Ec. intros Hne. destruct (srv_le_lookup v v' _ s' Hle Hs') as (s & Hi & _ & Hb).
    by eapply (bl_done _ _ Hb), Hst.
  - by apply (le_runners _ _ Hle).
Qed.

Definition cancel (r : CgRun) : CgRun :=
  {| cgSim := cgSim r; cgChan := cgChan r; cgCancelled := true; cgRunning := cgRunning r |}.

Lemma reconnectHub_spec v i old new :
  sims v !! hubSim v = Some old → sims v !! i = Some new →
  reconnectHub v i =
    put_hub (put_sims v (alter (λ s, with_bus s (Subscribe (sim_bus new) []).1) i
                           (alter (λ s, with_bus s (Unsubscribe (sim_bus old) (sub (hub v)))) (hubSim v) (sims v))))
      (set_run (hub v) (nextChan (sim_bus new)) (Some false)) i.
Proof. intros Hold Hnew. unfold reconnectHub. by rewrite Hold, Hnew. Qed.

Lemma subscribe_spec v i s :
  sims v !! i = Some s →
  subscribeCausalGraph v i =
    put_graph (put_sims v (alter (λ s', with_bus s' (Subscribe (sim_bus s) [EvtSend; EvtReceive; EvtInternalEvent]).1)
                             i (sims v))) (graph v)
      ((cancel <$> cgRuns v) ++
       [{| cgSim := i; cgChan := nextChan (sim_bus s); cgCancelled := false; cgRunning := true |}]).
Proof. intros Hs. unfold subscribeCausalGraph. by rewrite Hs. Qed.

(** The server after [setSim], given that the hub is on the current bus. *)
Lemma setSim_spec v new old :
  sims v !! cur v = Some old → hubSim v = cur v →
  let b1 := (Subscribe (sim_bus new) []).1 in
  let b2 := (Subscribe b1 [EvtSend; EvtReceive; EvtInternalEvent]).1 in
  setSim now v new =
    put_graph (put_hub (put_cur v
      (<[cur v := Stop (now (cur v)) (with_bus old (Unsubscribe (sim_bus old) (sub (hub v))))]> (sims v)
         ++ [with_bus (with_bus new b1) b2]) (length (sims v)))
      (set_run (hub v) (nextChan (sim_bus new)) (Some false)) (length (sims v))) (graph v)
      ((cancel <$> cgRuns v) ++
       [{| cgSim := length (sims v); cgChan := S (nextChan (sim_bus new)); cgCancelled := false;
           cgRunning := true |}]).
Proof.
  intros Hold Hhub b1 b2. pose proof (lookup_lt_Some _ _ _ Hold) as Hlt. unfold setSim.
  rewrite (reconnectHub_spec _ _ old new); [|cbn [put_cur sims hubSim]..].
  2: { rewrite Hhub. by apply lookup_app_l_Some. }
  2: { rewrite lookup_app_r, Nat.sub_diag by lia. done. }
  cbn [put_cur sims hubSim hub]. rewrite Hhub, alter_app_l, alter_app_r_alt by (rewrite ?length_alter; lia).
  rewrite length_alter, Nat.sub_diag. cbn [alter list_alter].
  rewrite (subscribe_spec _ _ (with_bus new b1)).
  2: { cbn [put_hub put_sims sims]. by rewrite lookup_app_r, length_alter, Nat.sub_diag by (rewrite length_alter; lia). }
  cbn [put_hub put_sims put_graph put_cur sims cgRuns graph].
  rewrite alter_app_r_alt, length_alter, Nat.sub_diag by (rewrite length_alter; lia). cbn [alter list_alter].
  rewrite alter_app_l by (by rewrite length_alter).
  replace (alter (Stop (now (cur v))) (cur v) (alter _ (cur v) (sims v)))
    with (<[cur v := Stop (now (cur v)) (with_bus old (Unsubscribe (sim_bus old) (sub (hub v))))]> (sims v)); [done|].
  apply list_eq. intros j. destruct (decide (j = cur v)) as [->|Hne].
  - rewrite list_lookup_insert_eq, !list_lookup_alter_eq, Hold by done. done.
  - by rewrite list_lookup_insert_ne, !list_lookup_alter_ne by done.
Qed.

Lemma with_bus_inv s b : sim_inv s → sim_inv (with_bus s b).
Proof. intros []. by split. Qed.

Lemma setSim_inv v new : server_inv v → sim_inv new → server_inv (setSim now v new).
Proof.
  intros [Hc Hs Hh Hk _ (rs & r & Ers & Er & _ & _ & _ & Hrs) Hst Hrn] Hnew.
  destruct (lookup_lt_is_Some_2 _ _ Hc) as [old Hold]. rewrite (setSim_spec v new old) by done.
  set (stopped := Stop _ _). set (fresh := with_bus _ _).
  assert (length (<[cur v:=stopped]> (sims v)) = length (sims v)) as Elen by apply length_insert.
  assert ((<[cur v:=stopped]> (sims v) ++ [fresh]) !! length (sims v) = Some fresh) as Efresh.
  { by rewrite lookup_app_r, Elen, Nat.sub_diag by lia. }
  split; cbn [put_graph put_hub put_cur sims cur hubSim kvBus hub cgRuns runners graph].
  - rewrite length_app, Elen. simpl. lia.
  - apply Forall_app. split; [|constructor; [by apply with_bus_inv, with_bus_inv|constructor]].
    apply Forall_insert; [done|]. apply (exec_keeps (now (cur v)) _ OStop), with_bus_inv.
    by eapply Forall_lookup_1.
  - done.
  - done.
  - intros s. rewrite Efresh. intros [= <-]. simpl. by rewrite lookup_insert_ne, lookup_insert_eq by lia.
  - exists (cancel <$> cgRuns v), {| cgSim := length (sims v); cgChan := S (nextChan (sim_bus new));
      cgCancelled := false; cgRunning := true |}.
    repeat (split; [done|]). split.
    + intros s. rewrite Efresh. intros [= <-]. simpl. by rewrite lookup_insert_eq.
    + rewrite Ers, fmap_app. apply Forall_app. split; [|repeat constructor; simpl; lia].
      apply Forall_fmap. eapply Forall_impl; [exact Hrs|]. intros r' [_ Hlt]. split; [done|]. simpl. lia.
  - intros i s [Hi|[Hge Hi]]%lookup_app_Some Hne.
    + destruct (decide (i = cur v)) as [->|Hold'].
      * rewrite list_lookup_insert_eq in Hi by done. injection Hi as <-. apply Stop_done.
      * rewrite list_lookup_insert_ne in Hi by done. by eapply Hst.
    + rewrite Elen in Hge, Hi. apply list_lookup_singleton_Some in Hi as [Hi _]. lia.
  - done.
Qed.

Lemma reset_le v rq :
  (handleSimulationReset now v rq).1 = v ∨
  ∃ new, sim_inv new ∧ (handleSimulationReset now v rq).1 = setSim now v new.
Proof.
  unfold handleSimulationReset, check_clock, check_mode. destruct (parseClockType _) as [ct|]; [|by left].
  destruct (parseDeliveryMode _) as [dm|]; [|by left]. right. eexists. split; [|done].
  apply spawn_all_keeps, New_inv.
Qed.

Lemma dispatch_inv v rq : server_inv v → server_inv (dispatch now v rq).1.
Proof.
  intros Hv. unfold dispatch. destruct (route now rq) as [h|] eqn:Hr; [|done].
  assert (Forall (λ r, r.1.2 ≠ "/api/v1/simulation/reset" ∨ r.2 = handleSimulationReset now)
    (registerRoutes now)) as Hroutes.
  { apply (routes_ind now (λ _ p h, p ≠ "/api/v1/simulation/reset" ∨ h = handleSimulationReset now));
      try (by left). by right. }
  apply (route_Forall now (λ _ p h, p ≠ "/api/v1/simulation/reset" ∨ h = handleSimulationReset now) rq h)
    in Hroutes as [Hp| ->]; [| |exact Hr].
  - apply (server_inv_le v); [|done].
    exact (route_Forall now (λ _ p h, p ≠ _ → ∀ v rq, srv_le v (h v rq).1) rq h (handlers_keep now) Hr Hp v rq).
  - destruct (reset_le v rq) as [->|(new & Hnew & ->)]; [done|by apply setSim_inv].
Qed.

Lemma put_http_inv v l m : server_inv v → server_inv (put_http v l m).
Proof. intros []. by split. Qed.

Lemma after_limit_inv v rq hd : server_inv v → server_inv (after_limit now v rq hd).1.1.
Proof.
  intros Hv. unfold after_limit, after_auth.
  assert (∀ v, server_inv v → server_inv (match Auth.Middleware (auth v) (rqPath rq) (GetHeader rq "Authorization") with
    | Unauthorized msg => (v, safeError 401 msg) | Next _ => dispatch now v rq end).1) as Hauth.
  { intros v' Hv'. destruct (Auth.Middleware _ _ _); [by apply dispatch_inv|done]. }
  destruct (limiter v) as [rl|]; [|by apply Hauth]. destruct (RateLimitMiddleware _ _ _ _) as [rl' [|]].
  - by apply Hauth, put_http_inv.
  - by apply put_http_inv.
Qed.

Lemma serve_inv v rq : server_inv v → server_inv (serve now v rq).1.1.
Proof.
  intros Hv. unfold serve. destruct (requestIDMiddleware _ _ _) as [hd rid].
  destruct (maxBodyMiddleware _ _ _); [done|]. destruct (corsMiddleware _ _ _ _ _ _) as [hd' [|]].
  - by do 2 apply put_http_inv.
  - pose proof (after_limit_inv (put_http v (limiter v) (metrics_before (metrics v))) rq hd') as Hl.
    destruct (after_limit now _ rq hd') as [[v' r] hd'']. by apply put_http_inv, Hl, put_http_inv.
Qed.

Lemma causal_inv v j quit : server_inv v → server_inv (causal_step v j quit).
Proof.
  intros Hv. unfold causal_step. destruct (cgRuns v !! j) as [r|] eqn:Hj; [|done].
  destruct (negb _); [done|]. destruct (sims v !! cgSim r) as [s|] eqn:Hs; [|done].
  destruct (cgCancelled r && quit) eqn:Hq.
  - apply andb_true_iff in Hq as [Hcan _].
    destruct Hv as [Hc Hi Hh Hk Hsub (rs & r0 & Ers & Er & Hcn & Hrun & Hch & Hrs) Hst Hrn].
    rewrite Ers in Hj. apply lookup_app_Some in Hj as [Hj|[_ Hj]].
    2: { apply list_lookup_singleton_Some in Hj as [_ <-]. congruence. }
    pose proof (Forall_lookup_1 _ _ _ _ Hrs Hj) as [_ Hlt].
    assert (∀ s' b, sims (put_bus v (cgSim r) b) !! cur v = Some s' → sims v !! cur v = Some s') as Hcur.
    { intros s' b. simpl. by rewrite list_lookup_alter_ne by lia. }
    split; cbn [put_graph cur hubSim kvBus hub cgRuns runners graph sims].
    + simpl. by rewrite length_alter.
    + apply Forall_lookup. intros i s'. simpl. destruct (decide (i = cgSim r)) as [->|Hne].
      * rewrite list_lookup_alter_eq, Hs. intros [= <-]. apply with_bus_inv. by eapply Forall_lookup_1.
      * rewrite list_lookup_alter_ne by done. intros Hs'. by eapply Forall_lookup_1.
    + done.
    + done.
    + intros s' Hs'. by eapply Hsub, Hcur.
    + exists (<[j:={| cgSim := cgSim r; cgChan := cgChan r; cgCancelled := true; cgRunning := false |}]> rs), r0.
      rewrite Ers, insert_app_l by (by eapply lookup_lt_Some). repeat (split; [done|]). split.
      * intros s' Hs'. by eapply Hch, Hcur.
      * by apply Forall_insert.
    + intros i s'. simpl. destruct (decide (i = cgSim r)) as [->|Hne].
      * rewrite list_lookup_alter_eq, Hs. intros [= <-] _. eapply (Hst (cgSim r) s); [done|lia].
      * rewrite list_lookup_alter_ne by done. apply Hst.
    + done.
  - pose proof (recv_le (sim_bus s) (cgChan r)) as Hb. destruct (Recv _ _) as [b [e|]]; [|done].
    apply (server_inv_le v); [|done]. etrans; [by apply (put_bus_le v (cgSim r) s b)|]. by split.
Qed.

Lemma runner_inv v j : server_inv v → server_inv (runner_step now v j).
Proof.
  intros Hv. unfold runner_step. destruct (runners v !! j) as [[k|i [|st steps]]|] eqn:Hj; [|done| |done].
  - apply (server_inv_le v); [|done]. split; try done. intros Hrs. apply Forall_insert; [done|]. simpl.
    destruct (AllScenarios (now (cur v)) !! k) as [sc|] eqn:Hk; [|constructor].
    apply list_elem_of_lookup_2 in Hk. apply Forall_forall. intros st Hst a Ha.
    by eapply scenario_action_keeps.
  - pose proof (Forall_lookup_1 _ _ _ _ (sv_runners v Hv) Hj) as [Hst Hsteps]%Forall_cons.
    apply (server_inv_le v); [|done]. etrans.
    + apply (srv_le_sims v (alter (λ s, run_step s st) i (sims v))), alter_keeps.
      intros s _. by apply run_step_sim_keeps.
    + split; try done. intros Hrs. by apply Forall_insert.
Qed.

Lemma sim_step_inv v i op : server_inv v → server_inv (sim_step now v i op).
Proof.
  intros Hv. unfold sim_step. destruct (goroutine op); [|done].
  apply (server_inv_le v); [|done]. apply srv_le_sims, alter_keeps. intros s _. apply exec_keeps.
Qed.

Lemma run_sub h b quit : sub (Hub.run h b quit).1 = sub h.
Proof.
  unfold Hub.run. destruct (running h); [|done]. destruct (_ && _); [done|].
  destruct (Recv _ _) as [b' [e|]]; [|done]. simpl. unfold fan_out, for_range.
  apply (foldl_inv (λ h', sub h' = sub h) (λ _, True)); [|by apply Forall_true|done].
  intros h' [k cl] _. unfold give. by destruct (_ <? _).
Qed.

Lemma run_bus_le h b quit : bus_le b (Hub.run h b quit).2.
Proof.
  unfold Hub.run. destruct (running h); [|done]. destruct (_ && _); [done|].
  pose proof (recv_le b (sub h)) as Hb. by destruct (Recv _ _) as [b' [e|]].
Qed.

Lemma hub_inv v r : server_inv v → server_inv (hub_step v r).
Proof.
  intros Hv. unfold hub_step. destruct (sims v !! hubSim v) as [s|] eqn:Hs; [|done].
  assert (∀ h, sub h = sub (hub v) → srv_le v (put_hub v h (hubSim v))) as Hput by (by split).
  destruct r as [quit|id timeout|id ok|id].
  - pose proof (run_sub (hub v) (sim_bus s) quit) as Hsub.
    pose proof (run_bus_le (hub v) (sim_bus s) quit) as Hb.
    destruct (Hub.run _ _ _) as [h b]. simpl in *. apply (server_inv_le v); [|done].
    etrans; [by apply (put_bus_le v (hubSim v) s b)|]. by split.
  - apply (server_inv_le v); [|done]. apply Hput. unfold replay_step.
    repeat case_match; done.
  - apply (server_inv_le v); [|done]. apply Hput. unfold pump_step. by repeat case_match.
  - apply (server_inv_le v); [|done]. apply Hput. unfold cleanup. by repeat case_match.
Qed.

Lemma server_run_inv v ops : server_inv v → server_inv (server_run v ops).
Proof.
  intros Hv. apply (foldl_inv server_inv (λ _, True)); [|by apply Forall_true|done].
  intros v' op _ Hv'. destruct op; [by apply serve_inv|by apply sim_step_inv|by apply causal_inv|
    by apply runner_inv|by apply hub_inv].
Qed.

Lemma NewServer_inv s allowed authMgr rate burst v :
  NewServerWithRateLimit s allowed authMgr rate burst = Some v → sim_inv s → server_inv v.
Proof.
  unfold NewServerWithRateLimit. destruct authMgr as [m|]; [|done]. intros [= <-] Hs.
  split; try done; cbn.
  - lia.
  - constructor; [by do 2 apply with_bus_inv|constructor].
  - intros s' [= <-]. simpl. by rewrite lookup_insert_ne, lookup_insert_eq by lia.
  - exists [], {| cgSim := 0; cgChan := S (nextChan (sim_bus s)); cgCancelled := false; cgRunning := true |}.
    repeat (split; [done|]). split; [|constructor].
    intros s' [= <-]. simpl. by rewrite lookup_insert_eq.
  - intros i s' Hi Hne. by apply list_lookup_singleton_Some in Hi as [-> _].
Qed.

End wiring.
