(* ===== verification/Endpoints.v ===== *)
(** * What the endpoints promise (src/gateway)

    Error responses, authentication, resets and the key-value store of the
    server, and what a failed send leaves behind. *)
From Stdlib Require Import Ascii.
From stdpp Require Import gmap strings list pretty.
From S2P Require Import Prelude GoStrings VClock HoldBack Causality Events Process Transport Snapshot Conflict.
From S2P Require Import Simulation Scenarios Auth RateLimit Middleware Hub Server Rest Gateway.

(** ** Failed requests *)
Section errors.
Context `{MapRange}.

Lemma put_sims_id v : put_sims v (sims v) = v.
Proof. by destruct v. Qed.

Lemma put_sim_id v s : getSim v = Some s → put_sim v s = v.
Proof. intros Hs. unfold put_sim. rewrite list_insert_id by done. apply put_sims_id. Qed.

Lemma SpawnProcess_err now s c s' err : SpawnProcess now s c = (s', Some err) → s' = s.
Proof. unfold SpawnProcess. repeat case_match; by intros [= <- _]. Qed.

Lemma KillProcess_err now s id s' err : KillProcess now s id = (s', Some err) → s' = s.
Proof. unfold KillProcess. repeat case_match; by intros [= <- _]. Qed.

Lemma InternalEvent_err now s pid s' err : Simulation.InternalEvent now s pid = (s', Some err) → s' = s.
Proof. unfold Simulation.InternalEvent. repeat case_match; by intros [= <- _]. Qed.

(** The only failure of a snapshot is that the process does not exist. *)
Lemma TriggerSnapshot_err now s pid s' err :
  sim_inv s → TriggerSnapshot now s pid = (s', inr err) → s' = s.
Proof.
  intros Hi. unfold TriggerSnapshot. destruct (processes s !! pid) as [p|] eqn:Hp; [|by intros [= <- _]].
  assert (is_Some (procStates (coordinator (net (world s))) !! pid)) as [ps Hps].
  { apply sim_inv_registered; [done|]. by rewrite Hp. }
  destruct (time_Now now (world s)) as [w ts] eqn:Et.
  assert (net w = net (world s)) as -> by (by injection Et as <- _).
  unfold InitiateSnapshot. simpl. by rewrite Hps.
Qed.

Lemma put_bus_id v i s : sims v !! i = Some s → put_bus v i (sim_bus s) = v.
Proof.
  intros Hs. unfold put_bus. replace (alter _ i (sims v)) with (sims v); [apply put_sims_id|].
  apply list_eq. intros j. destruct (decide (j = i)) as [->|Hne].
  - rewrite list_lookup_alter_eq, Hs. simpl. f_equal. by destruct s as [? ? [] ? ? ? ? ? ?].
  - by rewrite list_lookup_alter_ne.
Qed.

(** A call of the store that leaves it alone leaves the server alone. *)
Lemma kv_call_id {A} v (f : ConflictDetector → ConflictDetector * A) :
  let d := {| store := conflicts v; cdbus := sim_bus <$> sims v !! kvBus v |} in
  (f d).1 = d → (kv_call v f).1 = v.
Proof.
  intros d Hd. unfold kv_call. fold d. destruct (f d) as [d' a]. simpl in Hd. subst d'. simpl.
  destruct (sims v !! kvBus v) as [s|] eqn:Hs; simpl; [rewrite (put_bus_id v _ s Hs)|]; by destruct v.
Qed.

Lemma Write_err d key value ctx author t1 t2 err :
  (Conflict.Write d key value ctx author t1 t2).2 = inr err → (Conflict.Write d key value ctx author t1 t2).1 = d.
Proof.
  unfold Conflict.Write. repeat (case_bool_decide; [done|]).
  destruct (store d !! key); [|by destruct (_ <=? _)]. by destruct (foldl _ _ _) as [[? ?] ?].
Qed.

Lemma ResolveKey_none d key st : (ResolveKey d key st).2 = None → (ResolveKey d key st).1 = d.
Proof. unfold ResolveKey. by repeat case_match. Qed.

Lemma kv_call_snd {A} v (f : ConflictDetector → ConflictDetector * A) :
  (kv_call v f).2 = (f {| store := conflicts v; cdbus := sim_bus <$> sims v !! kvBus v |}).2.
Proof. unfold kv_call. by destruct (f _). Qed.
End errors.

Section endpoints.
Context `{MapRange} (now : nat → nat → Z).
Context `{!Bind startRequest, !Bind simConfigRequest, !Bind spawnRequest, !Bind sendRequest,
  !Bind broadcastRequest, !Bind delayRequest, !Bind dropRequest, !Bind partitionRequest,
  !Bind kvWriteRequest, !Bind kvResolveRequest}.

(** The two routes whose failure may have had effects. *)
Definition may_half_fail (path : string) : Prop := path = "/api/v1/messages" ∨ path = "/api/v1/broadcast".

Definition clean_failure (v : Server) (path : string) (o : Server * Response) : Prop :=
  (400 <= status o.2)%Z → o.1 = v ∨ status o.2 = 500%Z ∧ may_half_fail path.

Lemma handlers_fail_cleanly :
  Forall (λ r, ∀ v rq, server_inv v → clean_failure v r.1.2 (r.2 v rq)) (registerRoutes now).
Proof.
  apply (routes_ind now (λ _ p h, ∀ v rq, server_inv v → clean_failure v p (h v rq)));
    intros v rq Hv;
    match goal with |- clean_failure v ?p ?o => set (P := clean_failure v p); change (P o) end;
    assert (∀ r, (400 <= status r)%Z → P (v, r)) as Hr by (by left);
    assert (∀ v' r, (status r < 400)%Z → P (v', r)) as Hok
      by (intros v' r Hlt Hge; exfalso; simpl in Hge; lia);
    assert (∀ s s' r, getSim v = Some s → s' = s → P (put_sim v s', r)) as Hid
      by (intros s0 s0' r Hs0 ->; rewrite (put_sim_id v s0 Hs0); by left).
  all: try (autounfold with handlers; rest_checks; by apply Hok).
  - unfold handleSpawnProcess. rest_checks. destruct (SpawnProcess _ _ _) as [s' [err|]] eqn:E; [|by apply Hok].
    apply SpawnProcess_err in E. by apply (Hid s).
  - unfold handleKillProcess. rest_checks. destruct (KillProcess _ _ _) as [s' [err|]] eqn:E; [|by apply Hok].
    apply KillProcess_err in E. by apply (Hid s).
  - unfold handleGetProcess. rest_checks. destruct (GetProcess _ _); [by apply Hok|by apply Hr].
  - unfold handleInternalEvent. rest_checks.
    destruct (Simulation.InternalEvent _ _ _) as [s' [err|]] eqn:E; [|by apply Hok].
    apply InternalEvent_err in E. by apply (Hid s).
  - unfold handleTriggerSnapshot. rest_checks.
    destruct (TriggerSnapshot _ _ _) as [s' [snapID|err]] eqn:E; [by apply Hok|].
    apply TriggerSnapshot_err in E; [destruct (Contains _ _); by apply (Hid s)|].
    by eapply Forall_lookup_1; [apply (sv_sims v Hv)|].
  - unfold handleSendMessage. rest_checks. destruct (SendMessage _ _ _ _ _) as [s' [err|]]; [|by apply Hok].
    right. split; [done|by left].
  - unfold handleBroadcast. rest_checks. destruct (BroadcastMessage _ _ _ _) as [s' [err|]]; [|by apply Hok].
    right. split; [done|by right].
  - unfold handleGetSnapshot. rest_checks. destruct (Simulation.GetSnapshot _ _); [by apply Hok|by apply Hr].
  - unfold handleVerifySnapshot. rest_checks. destruct (Simulation.GetSnapshot _ _); [by apply Hok|by apply Hr].
  - unfold handleKVWrite. rest_checks.
    match goal with |- context [kv_call v ?f] => set (g := f) end.
    pose proof (kv_call_id v g) as Hkv. pose proof (kv_call_snd v g) as Hsnd.
    destruct (kv_call v g) as [v' [[ver c]|err]]; [by apply Hok|]. simpl in *. left. simpl. apply Hkv.
    by eapply Write_err.
  - unfold handleKVRead. rest_checks. destruct (conflicts v !! _); [by apply Hok|by apply Hr].
  - unfold handleKVResolve. rest_checks. destruct (strategy_of _) as [st|]; [|by apply Hr].
    match goal with |- context [kv_call v ?f] => set (g := f) end.
    pose proof (kv_call_id v g) as Hkv. pose proof (kv_call_snd v g) as Hsnd.
    destruct (kv_call v g) as [v' [w|]]; [by apply Hok|]. simpl in *. left. simpl. apply Hkv.
    by apply ResolveKey_none.
  - unfold handleRunScenario. rest_checks. destruct (list_find _ _) as [[k ?]|]; [by apply Hok|by apply Hr].
  - unfold handleReadyz. destruct (negb _); [by apply Hr|]. destruct (getSim v); [by apply Hok|by apply Hr].
  - unfold handleUpgrade. destruct (rqHandshake rq); [|by left]. destruct (handleWS _ _ _) as [h [|]];
      [by apply Hok|by left].
Qed.


(** ** Who may do anything *)

(** The server but for the rate limiter and the counters. *)
Definition same_core (v v' : Server) : Prop := v' = put_http v (limiter v') (metrics v').

(** The request has a right to be served. *)
Definition authorized (v : Server) (rq : Request) : Prop :=
  public (rqPath rq) = true ∨ Enabled (auth v) = false ∨
  ∃ name, carries (auth v) (GetHeader rq "Authorization") name.

Lemma after_limit_unauthorized v rq h :
  ¬ authorized v rq →
  same_core v (after_limit now v rq h).1.1 ∧
  (status (after_limit now v rq h).1.2 = 401 ∨ status (after_limit now v rq h).1.2 = 429)%Z.
Proof.
  intros Hno. assert (∀ v', auth v' = auth v → ∃ msg,
    after_auth now v' rq = (v', safeError 401 msg)) as Hauth.
  { intros v' E. unfold after_auth. rewrite E.
    destruct (Middleware_refuses (auth v) (rqPath rq) (GetHeader rq "Authorization")) as [msg ->]; [..|eauto].
    - destruct (public (rqPath rq)) eqn:Hp; [|done]. destruct Hno. by left.
    - destruct (Enabled (auth v)) eqn:He; [done|]. destruct Hno. by right; left.
    - intros name Hc. destruct Hno. right; right. eauto. }
  unfold after_limit. destruct (limiter v) as [rl|] eqn:El.
  - destruct (RateLimitMiddleware _ _ _ _) as [rl' [|]].
    + destruct (Hauth (put_http v (Some rl') (metrics v))) as [msg ->]; [done|]. split; [done|by left].
    + split; [done|by right].
  - destruct (Hauth v) as [msg ->]; [done|]. split; [by destruct v|by left].
Qed.


(** ** Resets *)

Lemma pid_of_inj i j : pid_of i = pid_of j → i = j.
Proof. unfold pid_of. intros E. apply (inj (String.append "P")) in E. apply (inj pretty) in E. lia. Qed.

Lemma pid_configs_ok ct dm n :
  n ≤ 100 → Forall plain (pid_config ct dm <$> seq 0 n) ∧ NoDup (cfgID <$> (pid_config ct dm <$> seq 0 n)).
Proof.
  intros Hn. split.
  - apply Forall_fmap, Forall_forall. intros i Hi%elem_of_seq. split; [done|]. split; [done|]. simpl.
    assert (forallb (λ i, String.length (pid_of i) <=? 64) (seq 0 100) = true) as Hall by (by vm_compute).
    rewrite forallb_forall in Hall. apply Nat.leb_le, Hall, in_seq. lia.
  - rewrite <- list_fmap_compose. apply NoDup_fmap_2_strong; [|apply NoDup_seq].
    intros i j _ _. apply pid_of_inj.
Qed.

(** The number of processes a reset makes. *)
Definition reset_count (n : Z) : nat := if (n <? 1)%Z || (100 <? n)%Z then 3 else Z.to_nat n.

(** What a reset does.  It answers 200, or 400 for a clock type or delivery
    mode that does not exist, and then there is a new current simulation whose
    processes are exactly "P1" to "Pn", for the number asked for or 3, the old
    one is stopped and the WebSocket clients stay connected; the key-value
    store, its bus and the causal graph stay as they were, so the graph still
    holds the events of the old simulation. *)
Theorem reset_endpoint v rq old :
  server_inv v → getSim v = Some old →
  let req : startRequest := (ShouldBindJSON (rqBody rq)).1 in
  let o := handleSimulationReset now v rq in
  let known := is_Some (parseClockType (if bool_decide (srClockType req = "") then "vector" else srClockType req)) ∧
    is_Some (parseDeliveryMode (if bool_decide (srDeliveryMode req = "") then CausalDelivery
                                else srDeliveryMode req)) in
  (known ∧ status o.2 = 200%Z ∧
   (∃ s, getSim o.1 = Some s ∧
      dom (processes s) = list_to_set (pid_of <$> seq 0 (reset_count (srProcessCount req)))) ∧
   cur o.1 = length (sims v) ∧
   (∃ s, sims o.1 !! cur v = Some s ∧ done (sim_bus s) = true ∧ dom (processes s) = dom (processes old)) ∧
   clients (hub o.1) = clients (hub v) ∧ conflicts o.1 = conflicts v ∧ kvBus o.1 = kvBus v ∧
   graph o.1 = graph v) ∨
  (¬ known ∧ status o.2 = 400%Z ∧ o.1 = v).
Proof.
  intros Hv Hold req o. unfold o, handleSimulationReset, check_clock, check_mode. fold req.
  destruct (parseClockType _) as [ct|]; [|right; split; [intros [[? ?] _]; done|done]].
  destruct (parseDeliveryMode _) as [dm|]; [|right; split; [intros [_ [? ?]]; done|done]].
  left. split; [eauto|]. split; [done|]. cbn [fst].
  set (n := Z.to_nat _).
  assert (n = reset_count (srProcessCount req)) as <- by (unfold n, reset_count; by destruct (_ || _)).
  assert (n ≤ 100) as Hn.
  { unfold n. destruct (_ || _) eqn:E; [simpl; lia|].
    apply orb_false_iff in E as [?%Z.ltb_ge ?%Z.ltb_ge]. lia. }
  set (sc := {| scClockType := ct; scDeliveryMode := dm; scChannels := "full_mesh" |}).
  destruct (pid_configs_ok ct dm n Hn) as [Hplain Hnd].
  destruct (spawn_all_spec (now (length (sims v))) sc _ Hplain Hnd) as [Hdom _].
  { rewrite length_fmap, length_seq. unfold MaxSimulationProcesses. lia. }
  set (new := spawn_all _ _ _) in *.
  rewrite (setSim_spec now v new old) by (done || apply (sv_hub v Hv)).
  set (stopped := Stop _ _). set (fresh := with_bus _ _).
  pose proof (sv_cur v Hv) as Hlt. cbn [put_graph put_hub put_cur getSim sims cur hub conflicts kvBus graph].
  unfold getSim. cbn [sims cur put_graph put_hub put_cur].
  split; [|split; [done|split; [|done]]].
  - exists fresh. rewrite lookup_app_r, length_insert, Nat.sub_diag by (rewrite length_insert; lia).
    split; [done|]. unfold fresh. simpl. rewrite Hdom. by rewrite <- list_fmap_compose.
  - exists stopped. rewrite lookup_app_l by (rewrite length_insert; lia).
    rewrite list_lookup_insert_eq by done. split; [done|]. split; [apply Stop_done|].
    apply set_eq. intros q. rewrite !elem_of_dom. unfold stopped. by rewrite (sim_le_alive _ _ q (Stop_le _ _)).
Qed.

(** After a reset the key-value store reports to nobody.  Its conflict
    events go to the bus of the first simulation, which the reset has stopped:
    a write or a resolution changes no other simulation, in particular not the
    current one, whose bus the WebSocket clients are on. *)
Theorem kv_detached_after_reset v rq :
  server_inv v → cur v ≠ 0 →
  (∃ s, sims v !! 0 = Some s ∧ done (sim_bus s) = true) ∧
  (∀ i, i ≠ 0 → sims (handleKVWrite v rq).1 !! i = sims v !! i ∧ sims (handleKVResolve v rq).1 !! i = sims v !! i) ∧
  getSim (handleKVWrite v rq).1 = getSim v ∧ getSim (handleKVResolve v rq).1 = getSim v.
Proof.
  intros Hv Hcur.
  assert (∀ {A} (f : ConflictDetector → ConflictDetector * A),
    cur (kv_call v f).1 = cur v ∧ ∀ i, i ≠ 0 → sims (kv_call v f).1 !! i = sims v !! i) as Hkv.
  { intros A f. unfold kv_call. rewrite (sv_kv v Hv). destruct (f _) as [d a]. destruct (cdbus d) as [b|]; [|done].
    split; [done|]. intros i Hi. simpl. by rewrite list_lookup_alter_ne. }
  set (P := λ o : Server * Response, cur o.1 = cur v ∧ ∀ i, i ≠ 0 → sims o.1 !! i = sims v !! i).
  assert (∀ r, (400 <= status r)%Z → P (v, r)) as Hr by done.
  assert (P (handleKVWrite v rq)) as [Hwc Hw].
  { unfold handleKVWrite. rest_checks. match goal with |- context [kv_call v ?f] => pose proof (Hkv _ f) as Hf end.
    by destruct (kv_call v _) as [v' [[? ?]|]]. }
  assert (P (handleKVResolve v rq)) as [Hrc Hrs].
  { unfold handleKVResolve. rest_checks. destruct (strategy_of _); [|by apply Hr].
    match goal with |- context [kv_call v ?f] => pose proof (Hkv _ f) as Hf end.
    by destruct (kv_call v _) as [v' [?|]]. }
  split; [|split; [by split; auto|]].
  - destruct (lookup_lt_is_Some_2 (sims v) 0) as [s Hs]; [pose proof (sv_cur v Hv); lia|].
    exists s. split; [done|]. by apply (sv_stopped v Hv 0).
  - unfold getSim. by rewrite Hwc, Hrc, Hw, Hrs by done.
Qed.
End endpoints.

(** ** A send that fails *)

(** A failed send has taken effect.  Sending to a process there is no
    channel to returns an error, but the sender has ticked its clock, used up a
    message number and reported the send on the bus; no channel has the
    message.  So the next message it sends, to whomever, is stamped two past
    what the others can have seen of it, and none of them can deliver it. *)
Theorem failed_send_takes_effect `{MapRange} now s from to data p vc :
  processes s !! from = Some p → cfgID (cfg p) = from → cfgClockType (cfg p) = ClockVector →
  vectorClock p = Some vc → (vc.[from] + 1 < MaxUint64)%N →
  closed (transport (net (world s))) = false → channels (transport (net (world s))) !! (from, to) = None →
  ∃ s' p',
    SendMessage now s from to data = (s', Some ("no channel " +:+ from +:+ "→" +:+ to)) ∧
    processes s' !! from = Some p' ∧ vectorClock p' = Some (VClock.Tick vc from) ∧
    msgSeq p' = u64_succ (msgSeq p) ∧ transport (net (world s')) = transport (net (world s)) ∧
    (∃ e, trail (world s') = trail (world s) ++ [e] ∧ evType e = EvtSend ∧ evProcessID e = from) ∧
    ∀ (w : World Net) to2 data2 rvc, (rvc.[from] <= vc.[from])%N →
      canDeliver (SentVC (prepare now p' w to2 data2).2) from rvc = false.
Proof.
  intros Hp Hid Hct Hvc Hmax Hcl Hch. unfold SendMessage. rewrite Hp. unfold Process.Send, prepare, sendClock.
  cbn [cfg set_seqs]. rewrite Hct, Hid. rewrite bool_decide_false, bool_decide_true by done.
  cbn [vectorClock set_seqs]. rewrite Hvc. cbn [default VClock.Send].
  unfold transmit, xport_Send, net_transport, Transport.Send. simpl. rewrite Hcl, Hid, Hch. simpl.
  eexists _, _. split; [reflexivity|]. cbn [processes set_procs]. rewrite lookup_insert_eq.
  split; [reflexivity|]. split; [done|]. split; [done|]. split; [by destruct (net (world s))|].
  split; [eexists; split; [reflexivity|by split]|].
  intros w to2 data2 rvc Hr. simpl. rewrite Hct, Hid.
  rewrite bool_decide_false, bool_decide_true by done. simpl.
  assert ((Tick (Tick vc from) from).[from] = (vc.[from] + 2)%N) as E.
  { unfold Tick. rewrite !Copy_id, !mget_insert_eq, (u64_succ_small vc.[from]), u64_succ_small by lia. lia. }
  unfold canDeliver. rewrite !Copy_id, E, (u64_succ_small rvc.[from]) by lia.
  by replace (vc.[from] + 2 =? rvc.[from] + 1)%N with false by (symmetry; apply N.eqb_neq; lia).
Qed.

(** ** A trial run *)
Module Trial.
(** Decoders that give the same request whatever the body. *)
#[local] Instance bind_start : Bind startRequest :=
  λ _, ({| srProcessCount := 2; srClockType := ""; srDeliveryMode := "" |}, true).
#[local] Instance bind_config : Bind simConfigRequest := λ _, ({| scrDeliveryMode := "" |}, true).
#[local] Instance bind_spawn : Bind spawnRequest :=
  λ _, ({| sprID := "P1"; sprClockType := ""; sprDeliveryMode := "" |}, true).
#[local] Instance bind_send : Bind sendRequest :=
  λ _, ({| sdrFrom := "P1"; sdrTo := "P9"; sdrData := ANil |}, true).
#[local] Instance bind_broadcast : Bind broadcastRequest := λ _, ({| brFrom := "P1"; brData := ANil |}, true).
#[local] Instance bind_delay : Bind delayRequest :=
  λ _, ({| dlFrom := "P1"; dlTo := "P2"; dlDelayMs := 5 |}, true).
#[local] Instance bind_drop : Bind dropRequest := λ _, ({| drFrom := "P1"; drTo := "P2" |}, true).
#[local] Instance bind_partition : Bind partitionRequest :=
  λ _, ({| ptSideA := ["P1"]; ptSideB := ["P2"] |}, true).
#[local] Instance bind_write : Bind kvWriteRequest :=
  λ _, ({| kwValue := []; kwAuthorID := "P1"; kwContextVC := ∅ |}, true).
#[local] Instance bind_resolve : Bind kvResolveRequest := λ _, ({| krStrategy := "keep_all" |}, true).
#[local] Instance order : MapRange := canonical_range.

Definition clock (i n : nat) : Z := 1000 * Z.of_nat i + Z.of_nat n.

Definition request (method path full : string) (param : gmap string string) (token : string) : Request :=
  {| rqMethod := method; rqPath := path; rqFullPath := full; rqParam := param; rqQuery := ∅;
     rqHeader := {["Authorization" := token]}; rqHasBody := true; rqContentLength := 2; rqBody := "{}";
     rqClientIP := "10.0.0.1"; rqFreshID := "id"; rqHandshake := false; rqBadHandshake := 400;
     rqTimes := (1, 2)%Z |}.

Definition sim : Simulation :=
  spawn_all (clock 0) Demo.fresh (pid_config ClockVector CausalDelivery <$> seq 0 3).
Definition admin : Manager := set [{| tkName := "admin"; tkSecret := "secret" |}].
Definition boot : option Server := NewServerWithRateLimit sim [] (inl admin) (f_of_Z 1) (f_of_Z 10).
Definition reset : Request :=
  request "POST" "/api/v1/simulation/reset" "/api/v1/simulation/reset" ∅ "Bearer admin:secret".
Definition spawn_again : Request :=
  request "POST" "/api/v1/processes" "/api/v1/processes" ∅ "admin:secret".
Definition intruder : Request :=
  request "DELETE" "/api/v1/processes/P1" "/api/v1/processes/:id" {["id" := "P1"]} "admin:guess".

Lemma sim_ok : sim_inv sim.
Proof. apply spawn_all_keeps, New_inv. Qed.

Definition off : Server :=
  {| sims := []; cur := 0; hub := (newWSHub NewEventBus).2; hubSim := 0; conflicts := ∅; kvBus := 0;
     graph := NewCausalGraph; cgRuns := []; runners := []; origins := []; auth := admin; limiter := None;
     metrics := Middleware.NewMetrics; ready := false; healthErr := "" |}.
Definition started : Server := default off boot.

Lemma booted : boot = Some started.
Proof. reflexivity. Qed.

Lemma started_inv : server_inv started.
Proof. exact (NewServer_inv sim [] (inl admin) (f_of_Z 1) (f_of_Z 10) started booted sim_ok). Qed.

Lemma started_sim : getSim started = Some (default sim (getSim started)).
Proof. reflexivity. Qed.

Lemma started_auth : auth started = admin.
Proof. reflexivity. Qed.

Lemma after_reset_inv : server_inv (handleSimulationReset clock started reset).1.
Proof.
  destruct (reset_le clock started reset) as [E|(new & Hnew & E)]; rewrite E;
    [exact started_inv|exact (setSim_inv clock started new started_inv Hnew)].
Qed.




Lemma reset_endpoint_witness : status (handleSimulationReset clock started reset).2 = 200%Z.
Proof.
  destruct (reset_endpoint clock started reset _ started_inv started_sim) as [(_ & E & _)|(Hno & _)].
  - exact E.
  - exfalso. apply Hno. split; eexists; reflexivity.
Defined.

Lemma kv_detached_after_reset_witness :
  let v := (handleSimulationReset clock started reset).1 in getSim (handleKVWrite v reset).1 = getSim v.
Proof.
  assert (cur (handleSimulationReset clock started reset).1 ≠ 0) as Hne by (vm_compute; discriminate).
  exact (proj1 (proj2 (proj2 (kv_detached_after_reset _ reset after_reset_inv Hne)))).
Defined.

Lemma failed_send_takes_effect_witness :
  ∃ s', SendMessage (clock 0) sim "P1" "P9" ANil = (s', Some "no channel P1→P9").
Proof.
  destruct (processes sim !! "P1") as [p|] eqn:Hp; [|vm_compute in Hp; discriminate].
  destruct (vectorClock p) as [vc|] eqn:Hvc.
  - destruct (failed_send_takes_effect (clock 0) sim "P1" "P9" ANil p vc Hp) as (s' & p' & E & _).
    + apply (si_ids _ sim_ok _ _ Hp).
    + vm_compute in Hp. injection Hp as <-. reflexivity.
    + exact Hvc.
    + vm_compute in Hp. injection Hp as <-. vm_compute in Hvc. injection Hvc as <-. vm_compute. reflexivity.
    + vm_compute. reflexivity.
    + vm_compute. reflexivity.
    + exists s'. exact E.
  - vm_compute in Hp. injection Hp as <-. vm_compute in Hvc. discriminate.
Defined.
End Trial.
