(* ===== verification/Startup.v ===== *)
(** * Start-up and shutdown (src/cmd/server/main.go)

    What the server command decides before it serves: configuration, port,
    environment values, the first simulation; and what it leaves at its end.
    Files, environment and the parsing of YAML, floats and durations are
    arguments.  Main.v puts the parts together. *)
From Stdlib Require Import Ascii.
From stdpp Require Import gmap strings list pretty.
From S2P Require Import Prelude GoStrings VClock Events Process Transport Snapshot Simulation Scenarios.
From S2P Require Import Auth RateLimit Middleware Hub Server Rest Gateway Endpoints.

(** ** Configuration *)

(** [type serverConfig struct]. *)
Record serverConfig := {
  Port : Z;
  WSBuffer : Z;
  RateLimitPerIP : float64;
  RateLimitBurst : float64;
  InitialProcesses : Z;
  ClockType : string;
  DeliveryMode : string;
  Channels : string;
  Level : string;
  Format : string
}.

(** The defaults [loadConfig] starts from; 1.67 and 10 requests. *)
Definition defaultConfig : serverConfig :=
  {| Port := 8080; WSBuffer := 0; RateLimitPerIP := f_div (f_of_Z 167) (f_of_Z 100);
     RateLimitBurst := f_of_Z 10; InitialProcesses := 3; ClockType := "vector"; DeliveryMode := "causal";
     Channels := "full_mesh"; Level := "info"; Format := "" |}.

(** [loadConfig]: [stat] says whether there is a file and whether it is a
    regular one, [read] gives its contents, [unmarshal] decodes them over a
    configuration; what it has decoded before an error stays. *)
Definition loadConfig (stat : option bool) (read : option string)
    (unmarshal : string → serverConfig → serverConfig) : serverConfig :=
  match stat, read with
  | Some true, Some data => unmarshal data defaultConfig
  | _, _ => defaultConfig
  end.

(** ** Numbers in the environment *)

Definition maxInt64 : Z := 9223372036854775807.

(** The value of a string of digits. *)
Fixpoint digits (s : string) (acc : Z) : option Z :=
  match s with
  | EmptyString => Some acc
  | String a s =>
      let n := Z.of_nat (Ascii.nat_of_ascii a) in
      if ((48 <=? n) && (n <=? 57))%Z then digits s (acc * 10 + (n - 48))%Z else None
  end.

(** [strconv.Atoi] *)
Definition Atoi (s : string) : option Z :=
  let '(neg, body) := match s with
    | String a rest => if bool_decide (a = "-"%char) then (true, rest)
                       else if bool_decide (a = "+"%char) then (false, rest) else (false, s)
    | EmptyString => (false, s)
    end in
  if bool_decide (body = "") then None
  else match digits body 0 with
       | None => None
       | Some v =>
           let v := if neg then (- v)%Z else v in
           if ((- maxInt64 - 1 <=? v) && (v <=? maxInt64))%Z then Some v else None
       end.

(** The errors of [resolvePort]. *)
Inductive port_error := ConfigRange (n : Z) | EnvNotInteger (s : string) | EnvRange (n : Z).

Definition resolvePort (envValue : string) (configDefault : Z) : Z + port_error :=
  if bool_decide (envValue = "") then
    if ((configDefault <? 0) || (65535 <? configDefault))%Z then inr (ConfigRange configDefault)
    else inl configDefault
  else match Atoi envValue with
  | None => inr (EnvNotInteger envValue)
  | Some port => if ((port <? 1) || (65535 <? port))%Z then inr (EnvRange port) else inl port
  end.

(** [envOr], and [envOrFloat] and [parseDurationEnv] over the parser. *)
Definition envOr (value def : string) : string :=
  let v := TrimSpace value in if bool_decide (v ≠ "") then v else def.
Definition env_parsed {A} (parse : string → option A) (value : string) (def : A) : A :=
  let v := TrimSpace value in if bool_decide (v = "") then def else default def (parse v).

(** ** The first simulation *)
Section main.
Context `{MapRange} (now : nat → nat → Z).

(** The loop of [main] over the initial processes; a failure is fatal. *)
Fixpoint spawn_initial (s : Simulation) (cs : list ProcessConfig) : option Simulation :=
  match cs with
  | [] => Some s
  | c :: cs => match SpawnProcess (now 0) s c with
               | (s, None) => spawn_initial s cs
               | (_, Some _) => None
               end
  end.

(** [main] from the configuration to the server; [None] is a fatal error.  The
    clock type and the delivery mode are taken as they are. *)
Definition start_up (cfg : serverConfig) (envPort envOrigins : string) (authMgr : Manager + load_error) :
    option (Z * Server) :=
  let clockType := if bool_decide (ClockType cfg = "") then ClockVector else ClockType cfg in
  let deliveryMode := if bool_decide (DeliveryMode cfg = "") then CausalDelivery else DeliveryMode cfg in
  if ((InitialProcesses cfg <? 0) || (100 <? InitialProcesses cfg))%Z then None
  else
    let sim := Simulation.New {| scClockType := clockType; scDeliveryMode := deliveryMode;
                                 scChannels := Channels cfg |} in
    match spawn_initial sim (pid_config clockType deliveryMode <$> seq 0 (Z.to_nat (InitialProcesses cfg))) with
    | None => None
    | Some sim =>
        match resolvePort envPort (Port cfg) with
        | inr _ => None
        | inl port =>
            v ← NewServerWithRateLimit sim (EnvAllowedOrigins envOrigins) authMgr
                  (RateLimitPerIP cfg) (RateLimitBurst cfg);
            Some (port, v)
        end
    end.
End main.

(** ** Facts about the start *)

Lemma digits_nonneg s acc v : (0 <= acc)%Z → digits s acc = Some v → (0 <= v)%Z.
Proof.
  revert acc. induction s as [|a s IH]; intros acc Hacc; simpl; [by intros [= <-]|].
  destruct (_ && _)%Z eqn:E; [|done]. apply andb_true_iff in E as [?%Z.leb_le ?%Z.leb_le].
  apply IH. lia.
Qed.

(** The port is valid, or the server does not start.  A port from the
    environment is the decimal number written there and lies in 1..65535; one
    from the configuration lies in 0..65535: zero, which the error text
    excludes, is accepted. *)
Theorem resolve_port_range envValue configDefault :
  match resolvePort envValue configDefault with
  | inl p =>
      if decide (envValue = "") then p = configDefault ∧ (0 <= p <= 65535)%Z
      else Atoi envValue = Some p ∧ (1 <= p <= 65535)%Z
  | inr (ConfigRange n) => envValue = "" ∧ n = configDefault ∧ ¬ (0 <= n <= 65535)%Z
  | inr (EnvNotInteger s) => s = envValue ∧ Atoi s = None
  | inr (EnvRange n) => Atoi envValue = Some n ∧ ¬ (1 <= n <= 65535)%Z
  end ∧ resolvePort "" 0 = inl 0%Z.
Proof.
  split; [|done]. unfold resolvePort. destruct (decide (envValue = "")) as [->|Hne].
  - rewrite bool_decide_true by done. destruct (_ || _)%Z eqn:E.
    + split; [done|]. split; [done|]. apply orb_true_iff in E as [?%Z.ltb_lt|?%Z.ltb_lt]; lia.
    + apply orb_false_iff in E as [?%Z.ltb_ge ?%Z.ltb_ge]. split; [done|lia].
  - rewrite bool_decide_false by done. destruct (Atoi envValue) as [p|] eqn:Ea; [|done].
    destruct (_ || _)%Z eqn:E.
    + split; [done|]. apply orb_true_iff in E as [?%Z.ltb_lt|?%Z.ltb_lt]; lia.
    + apply orb_false_iff in E as [?%Z.ltb_ge ?%Z.ltb_ge]. split; [done|lia].
Qed.

Section start.
Context `{MapRange} (now : nat → nat → Z).

Lemma spawn_initial_app s cs ds :
  spawn_initial now s (cs ++ ds) = s' ← spawn_initial now s cs; spawn_initial now s' ds.
Proof.
  revert s. induction cs as [|c cs IH]; intros s; [done|]. simpl.
  destruct (SpawnProcess (now 0) s c) as [s' [err|]]; [done|]. apply IH.
Qed.

(** The initial processes all fit. *)
Lemma spawn_initial_all sc cs :
  Forall plain cs → NoDup (cfgID <$> cs) → length cs ≤ MaxSimulationProcesses →
  spawn_initial now (Simulation.New sc) cs = Some (spawn_all (now 0) (Simulation.New sc) cs).
Proof.
  induction cs as [|c cs IH] using rev_ind; intros Hp Hnd Hlen; [done|].
  rewrite fmap_app in Hnd. pose proof Hnd as (Hnd' & Hfresh & _)%NoDup_app.
  pose proof Hp as [Hp' [Hc _]%Forall_cons]%Forall_app. rewrite length_app in Hlen. simpl in Hlen.
  rewrite spawn_initial_app, IH by (done || lia). unfold spawn_all at 2. rewrite foldl_app.
  fold (spawn_all (now 0) (Simulation.New sc) cs). cbn [foldl mbind option_bind spawn_initial].
  destruct (spawn_all_spec (now 0) sc cs Hp' Hnd') as [Hdom _]; [lia|].
  rewrite SpawnProcess_ok; [done|done| |].
  - apply not_elem_of_dom. rewrite Hdom, elem_of_list_to_set. intros Hin. apply (Hfresh _ Hin). left.
  - rewrite <- size_dom, Hdom, size_list_to_set, length_fmap by done. lia.
Qed.

(** A server with a sensible configuration starts.  For 0 to 100 initial
    processes, any clock type and delivery mode, a usable port and tokens that
    load, start-up never fails at a spawn: the current simulation has exactly
    the processes "P1" to "Pn", the server's parts are connected, and it is
    ready. *)
Theorem start_up_succeeds cfg envPort envOrigins m port :
  (0 <= InitialProcesses cfg <= 100)%Z → resolvePort envPort (Port cfg) = inl port →
  ∃ v s, start_up now cfg envPort envOrigins (inl m) = Some (port, v) ∧ getSim v = Some s ∧
    dom (processes s) = list_to_set (pid_of <$> seq 0 (Z.to_nat (InitialProcesses cfg))) ∧
    server_inv v ∧ ready v = true.
Proof.
  intros Hn Hport. unfold start_up. rewrite Hport.
  replace (_ || _)%Z with false by
    (symmetry; apply orb_false_iff; split; apply Z.ltb_ge; lia).
  set (ct := if bool_decide (ClockType cfg = "") then _ else _).
  set (dm := if bool_decide (DeliveryMode cfg = "") then _ else _).
  set (n := Z.to_nat _). assert (n ≤ 100) as Hn' by lia.
  destruct (pid_configs_ok ct dm n Hn') as [Hplain Hnd].
  assert (length (pid_config ct dm <$> seq 0 n) ≤ MaxSimulationProcesses) as Hlen.
  { rewrite length_fmap, length_seq. unfold MaxSimulationProcesses. lia. }
  set (sc := {| scClockType := ct; scDeliveryMode := dm; scChannels := Channels cfg |}).
  rewrite (spawn_initial_all sc) by done.
  destruct (spawn_all_spec (now 0) sc _ Hplain Hnd Hlen) as [Hdom _].
  set (s := spawn_all _ _ _) in *.
  destruct (NewServerWithRateLimit s (EnvAllowedOrigins envOrigins) (inl m) (RateLimitPerIP cfg)
    (RateLimitBurst cfg)) as [v|] eqn:Hv; [|done].
  exists v. assert (server_inv v) as Hi by (eapply NewServer_inv; [exact Hv|apply spawn_all_keeps, New_inv]).
  injection Hv as <-. eexists. split; [reflexivity|]. split; [reflexivity|]. split; [|by split].
  simpl. rewrite Hdom. by rewrite <- list_fmap_compose.
Qed.
End start.

Lemma start_up_succeeds_witness :
  let r := canonical_range in
  ∃ v s, start_up Trial.clock defaultConfig "" "" (inl (set [])) = Some (8080%Z, v) ∧ getSim v = Some s ∧
    dom (processes s) = list_to_set ["P1"; "P2"; "P3"].
Proof.
  intros r. destruct (start_up_succeeds Trial.clock defaultConfig "" "" (set []) 8080) as (v & s & E & Es & Ed & _).
  - simpl. lia.
  - reflexivity.
  - exists v, s. split; [exact E|]. split; [exact Es|exact Ed].
Defined.

(** The comment in [main] announces that the simulation's parameters are
    validated, but any clock type is accepted. *)
Example unknown_clock_accepted :
  let r := canonical_range in
  let conf := {| Port := 8080; WSBuffer := 0; RateLimitPerIP := f_of_Z 0; RateLimitBurst := f_of_Z 0;
                 InitialProcesses := 1; ClockType := "sundial"; DeliveryMode := ""; Channels := "";
                 Level := ""; Format := "" |} in
  (pv ← start_up Trial.clock conf "" "" (inl (set [])); s ← getSim pv.2; p ← processes s !! "P1";
   Some (cfgClockType (cfg p))) = Some "sundial".
Proof. by vm_compute. Qed.

(** ** The end *)
Lemma start_up_port `{MapRange} now cfg envPort envOrigins authMgr port v :
  start_up now cfg envPort envOrigins authMgr = Some (port, v) → (0 <= port <= 65535)%Z.
Proof.
  unfold start_up. destruct (_ || _)%Z; [done|]. destruct (spawn_initial _ _ _); [|done].
  destruct (resolve_port_range envPort (Port cfg)) as [Hp _]. destruct (resolvePort _ _) as [p|]; [|done].
  destruct (NewServerWithRateLimit _ _ _ _ _); [|done]. intros [= -> _].
  case_decide; destruct Hp; lia.
Qed.

Section stop.
Context `{MapRange} (now : nat → nat → Z).

(** The end of [main]: [Shutdown], then [Stop] of the first simulation, which
    has been stopped before. *)
Definition shut_down (v : Server) : Server :=
  let v := Server.Shutdown now v in
  put_sims v (alter (Simulation.Stop (now 0)) 0 (sims v)).

Definition dead (p : Process) : Prop := Process.status p = StatusDead ∧ cancelled p = true.

(** The loop of [Stop] leaves the visited processes dead and the others alone. *)
Lemma stop_loop (t : nat → Z) (l : list (string * Process)) (procs : gmap string Process)
    (w : World Net) pid p :
  (foldl (λ a kv, let '(procs, w) := a in let '(p, w) := Process.Stop t kv.2 w in
                     (<[kv.1 := p]> procs, w)) (procs, w) l).1 !! pid = Some p →
  if decide (pid ∈ l.*1) then dead p else procs !! pid = Some p.
Proof.
  revert p. induction l as [|[k x] l IH] using rev_ind; intros p; [done|].
  rewrite foldl_app, fmap_app. cbn [foldl fst snd].
  set (a := foldl _ _ l) in *. destruct a as [procs' w'] eqn:Ea.
  destruct (Process.Stop t x w') as [x' w''] eqn:Es. cbn [fst snd] in *.
  assert (dead x') as Hd.
  { unfold Process.Stop, emitEvent, emitEventLocked in Es. simpl in Es.
    repeat case_match; simplify_eq; by split. }
  intros Hp. destruct (decide (pid = k)) as [->|Hne].
  - rewrite lookup_insert_eq in Hp. injection Hp as <-.
    rewrite decide_True by (apply elem_of_app; right; by left). done.
  - rewrite lookup_insert_ne in Hp by done. specialize (IH p Hp).
    destruct (decide (pid ∈ l.*1)) as [Hin|Hin].
    + rewrite decide_True by (apply elem_of_app; by left). done.
    + rewrite decide_False; [done|]. intros [?|[->|[]%not_elem_of_nil]%elem_of_cons]%elem_of_app; done.
Qed.

Lemma Stop_ends t s :
  done (sim_bus (Simulation.Stop t s)) = true ∧ closed (transport (net (world (Simulation.Stop t s)))) = true ∧
  map_Forall (λ _, dead) (processes (Simulation.Stop t s)).
Proof.
  split; [apply Stop_done|]. unfold Simulation.Stop. rewrite for_range_foldl.
  match goal with |- context [foldl ?f ?a ?l] => pose proof (stop_loop t l (processes s) (world s)) as Hl;
    destruct (foldl f a l) as [procs w] eqn:E end.
  split; [done|]. intros pid p Hp. specialize (Hl pid p Hp). destruct (decide _) as [|Hnot]; [done|].
  destruct Hnot. apply list_elem_of_fmap. exists (pid, p). split; [done|]. by apply elem_of_range.
Qed.

Lemma cleanup_all ids h :
  (∀ id, is_Some (clients h !! id) → id ∈ ids) → clients (foldl cleanup h ids) = ∅.
Proof.
  revert h. induction ids as [|id ids IH]; intros h Hall; cbn [foldl].
  - apply map_empty. intros id. apply eq_None_not_Some. intros Hid%Hall. by apply elem_of_nil in Hid.
  - apply IH. intros id' Hid'. unfold cleanup in Hid'. destruct (clients h !! id) as [cl|] eqn:E.
    + cbn [clients] in Hid'. destruct (decide (id' = id)) as [->|Hne].
      * rewrite lookup_delete_eq in Hid'. by destruct Hid'.
      * rewrite lookup_delete_ne in Hid' by done. apply Hall, elem_of_cons in Hid' as [|]; done.
    + apply Hall in Hid' as Hin. apply elem_of_cons in Hin as [->|]; [|done]. rewrite E in Hid'. by destruct Hid'.
Qed.

Lemma closeAllClients_empty h : clients (closeAllClients h) = ∅.
Proof.
  apply cleanup_all. intros id [cl Hcl]. apply list_elem_of_fmap. exists (id, cl).
  split; [done|]. by apply elem_of_map_to_list.
Qed.

Lemma last_cancelled (rs : list CgRun) :
  Forall (λ r, cgCancelled r = true) (take (length rs - 1) rs) →
  Forall (λ r, cgCancelled r = true)
    (match last rs with
     | Some r => take (length rs - 1) rs ++
                 [{| cgSim := cgSim r; cgChan := cgChan r; cgCancelled := true; cgRunning := cgRunning r |}]
     | None => []
     end).
Proof. intros H'. destruct (last rs); [|constructor]. apply Forall_app. split; [done|]. by repeat constructor. Qed.

Context `{!Bind startRequest, !Bind simConfigRequest, !Bind spawnRequest, !Bind sendRequest,
  !Bind broadcastRequest, !Bind delayRequest, !Bind dropRequest, !Bind partitionRequest,
  !Bind kvWriteRequest, !Bind kvResolveRequest}.

Lemma spawn_initial_keeps s cs s' : spawn_initial now s cs = Some s' → sim_keeps s s'.
Proof.
  revert s. induction cs as [|c cs IH]; intros s; simpl; [by intros [= ->]|].
  pose proof (exec_keeps (now 0) s (OSpawn c)) as Hk. simpl in Hk.
  destruct (SpawnProcess (now 0) s c) as [s1 [err|]]; [done|]. intros E. etrans; [exact Hk|by apply IH].
Qed.

Lemma start_up_inv cfg envPort envOrigins authMgr port v :
  start_up now cfg envPort envOrigins authMgr = Some (port, v) → server_inv v.
Proof.
  unfold start_up. destruct (_ || _)%Z; [done|].
  destruct (spawn_initial _ _ _) as [s|] eqn:Es; [|done]. destruct (resolvePort _ _); [|done].
  destruct (NewServerWithRateLimit _ _ _ _ _) as [v'|] eqn:Ev; [|done]. intros [= _ ->].
  eapply NewServer_inv; [exact Ev|]. by apply (spawn_initial_keeps _ _ _ Es), New_inv.
Qed.

Lemma alter_at {A} (f : A → A) i j (l : list A) :
  alter f i l !! j = (λ x, if decide (j = i) then f x else x) <$> l !! j.
Proof.
  destruct (decide (j = i)) as [->|Hne]; [by rewrite list_lookup_alter_eq|].
  rewrite list_lookup_alter_ne by done. by destruct (l !! j).
Qed.

Lemma shut_down_spec v :
  server_inv v →
  let v' := shut_down v in
  ready v' = false ∧ clients (hub v') = ∅ ∧ Forall (λ r, cgCancelled r = true) (cgRuns v') ∧
  (∀ i s, sims v' !! i = Some s → done (sim_bus s) = true) ∧
  ∃ s, getSim v' = Some s ∧ closed (transport (net (world s))) = true ∧ map_Forall (λ _, dead) (processes s).
Proof.
  intros Hi v'. destruct (sv_cg _ Hi) as (rs & r & Ers & _ & _ & _ & _ & Hrs).
  destruct (lookup_lt_is_Some_2 _ _ (sv_cur _ Hi)) as [s Hs].
  assert (∀ i, sims v' !! i = (λ s, if decide (i = 0) then Simulation.Stop (now 0) s else s) <$>
    ((λ s, if decide (i = cur v) then Simulation.Stop (now (cur v)) s else s) <$> sims v !! i)) as Hl.
  { intros i. unfold v', shut_down. cbn [put_sims sims Server.Shutdown put_graph put_hub put_ready cur].
    rewrite !alter_at. reflexivity. }
  split_and!.
  - reflexivity.
  - apply closeAllClients_empty.
  - unfold v', shut_down. cbn [put_sims cgRuns Server.Shutdown put_graph put_hub put_ready].
    apply last_cancelled. rewrite Ers, length_app, take_app_length' by (simpl; lia).
    eapply Forall_impl; [exact Hrs|]. by intros r' [].
  - intros i s'. rewrite Hl. destruct (sims v !! i) as [s0|] eqn:E0; [|done]. simpl. intros [= <-].
    case_decide; [apply Stop_done|]. case_decide; [apply Stop_done|]. by eapply sv_stopped.
  - unfold getSim. change (cur v') with (cur v). rewrite Hl, Hs. simpl.
    rewrite (decide_True (P := cur v = cur v)) by done.
    eexists. split; [reflexivity|]. case_decide; apply Stop_ends.
Qed.

(** After shutdown nothing runs.  Whatever requests were served, resets
    included, and however the goroutines were scheduled: after the end of
    [main] the server is not ready, no client is connected, every follower of
    the causal graph is cancelled, the event bus of every simulation there ever
    was is stopped, and the current one has a closed transport and only dead
    processes. *)
Theorem shutdown_stops_everything cfg envPort envOrigins authMgr port v ops :
  start_up now cfg envPort envOrigins authMgr = Some (port, v) →
  let v' := shut_down (server_run now v ops) in
  ready v' = false ∧ clients (hub v') = ∅ ∧ Forall (λ r, cgCancelled r = true) (cgRuns v') ∧
  (∀ i s, sims v' !! i = Some s → done (sim_bus s) = true) ∧
  ∃ s, getSim v' = Some s ∧ closed (transport (net (world s))) = true ∧ map_Forall (λ _, dead) (processes s).
Proof.
  intros Hv. by apply shut_down_spec, server_run_inv, (start_up_inv _ _ _ _ _ _ Hv).
Qed.
End stop.

#[local] Existing Instances Trial.bind_start Trial.bind_config Trial.bind_spawn Trial.bind_send
  Trial.bind_broadcast Trial.bind_delay Trial.bind_drop Trial.bind_partition Trial.bind_write
  Trial.bind_resolve.

Lemma trial_starts :
  let r := canonical_range in is_Some (start_up Trial.clock defaultConfig "" "" (inl (set []))).
Proof.
  intros r. assert (if start_up Trial.clock defaultConfig "" "" (inl (set [])) is Some _ then True else False) as Hs
    by (vm_compute; exact I).
  destruct (start_up Trial.clock defaultConfig "" "" (inl (set []))); [by eexists|destruct Hs].
Qed.

Lemma shutdown_stops_everything_witness :
  let r := canonical_range in
  ∃ port v, start_up Trial.clock defaultConfig "" "" (inl (set [])) = Some (port, v) ∧
    ∃ s, getSim (shut_down Trial.clock (server_run Trial.clock v [VServe Trial.reset])) = Some s ∧
      map_Forall (λ _, dead) (processes s).
Proof.
  intros r. destruct trial_starts as [[port v] E]. exists port, v. split; [exact E|].
  destruct (shutdown_stops_everything Trial.clock defaultConfig "" "" (inl (set [])) port v
    [VServe Trial.reset] E) as (_ & _ & _ & _ & s & Hs & _ & Hd).
  exact (ex_intro _ s (conj Hs Hd)).
Defined.
