(* ===== verification/Tls.v ===== *)
(** * Certificates (src/gateway/tlsconfig/tlsconfig.go, buildTLSConfig of
    src/cmd/server/main.go)

    The TLS configuration of the server and the certificate it presents, which
    a goroutine reloads.  Reading the files and parsing certificates are
    arguments: what one look at the disk finds is a [Disk]. *)
From stdpp Require Import gmap strings list.
From S2P Require Import Prelude GoStrings Startup.

(** ** Data *)

(** The part of [tls.Config] the package sets; [GetCertificate] tells whether
    the callback is installed. *)
Inductive ClientAuthType :=
  | NoClientCert | RequestClientCert | RequireAnyClientCert | VerifyClientCertIfGiven
  | RequireAndVerifyClientCert.
#[export] Instance ClientAuthType_eq_dec : EqDecision ClientAuthType.
Proof. solve_decision. Defined.

Definition VersionTLS12 : N := 771.

Record tls_Config {Pool : Type} := {
  MinVersion : N;
  NextProtos : list string;
  ClientAuth : ClientAuthType;
  ClientCAs : option Pool;
  GetCertificate : bool
}.
Arguments tls_Config : clear implicits.

(** [type fileFingerprint struct]: size and modification time. *)
Record fileFingerprint := { size : Z; mtime : Z }.
#[export] Instance fileFingerprint_eq_dec : EqDecision fileFingerprint.
Proof. solve_decision. Defined.

(** [type Config struct]; [reloading] tells whether [reloaderOnce] has run. *)
Record Config {Cert Pool : Type} := {
  certFile : string;
  keyFile : string;
  clientCAFile : string;
  cert : option Cert;
  lastLoaded : option fileFingerprint;
  tlsConfig : tls_Config Pool;
  reloading : bool
}.
Arguments Config : clear implicits.

(** The errors; the strings are those of the libraries. *)
Inductive tls_error :=
  | CertRequired
  | KeyRequired
  | LoadFailed (certFile keyFile why : string)
  | StatFailed (path why : string)
  | ReadCAFailed (path why : string)
  | NoCAs (path : string)
  | NoCertificate.

(** What the files hold: [tls.LoadX509KeyPair], [os.Stat] and [os.ReadFile]. *)
Record Disk {Cert : Type} := {
  LoadX509KeyPair : string → string → Cert + string;
  Stat : string → fileFingerprint + string;
  ReadFile : string → string + string
}.
Arguments Disk : clear implicits.

Section tls.
(** [parse_leaf] sets the [Leaf] of a certificate if it can be parsed;
    [AppendCertsFromPEM] is a new pool with the certificates of a file, if it
    has any. *)
Context {Cert Pool : Type} (parse_leaf : Cert → Cert) (AppendCertsFromPEM : string → option Pool).
Implicit Types (c : Config Cert Pool) (d : Disk Cert).

Definition store_cert c crt fp : Config Cert Pool :=
  {| certFile := certFile c; keyFile := keyFile c; clientCAFile := clientCAFile c; cert := Some crt;
     lastLoaded := Some fp; tlsConfig := tlsConfig c; reloading := reloading c |}.
Definition set_tls c t r : Config Cert Pool :=
  {| certFile := certFile c; keyFile := keyFile c; clientCAFile := clientCAFile c; cert := cert c;
     lastLoaded := lastLoaded c; tlsConfig := t; reloading := r |}.

Definition certFingerprint d (path : string) : fileFingerprint + string := Stat d path.

(** ** Operations *)

(** [Reload]; the key pair is read before the size and time. *)
Definition Reload c d : Config Cert Pool * option tls_error :=
  match LoadX509KeyPair d (certFile c) (keyFile c) with
  | inr err => (c, Some (LoadFailed (certFile c) (keyFile c) err))
  | inl crt =>
      let crt := parse_leaf crt in
      match certFingerprint d (certFile c) with
      | inr err => (c, Some (StatFailed (certFile c) err))
      | inl fp =>
          if bool_decide (lastLoaded c = Some fp) then (c, None)
          else (store_cert c crt fp, None)
      end
  end.

Definition loadClientCAPool d (path : string) : Pool + tls_error :=
  match ReadFile d path with
  | inr err => inr (ReadCAFailed path err)
  | inl data =>
      match AppendCertsFromPEM data with
      | None => inr (NoCAs path)
      | Some pool => inl pool
      end
  end.

Definition install c : Config Cert Pool :=
  let t := tlsConfig c in
  set_tls c {| MinVersion := MinVersion t; NextProtos := NextProtos t; ClientAuth := ClientAuth t;
               ClientCAs := ClientCAs t; GetCertificate := true |} (reloading c).

Definition Load (certF keyF clientCAF : string) d : Config Cert Pool + tls_error :=
  if bool_decide (certF = "") then inr CertRequired
  else if bool_decide (keyF = "") then inr KeyRequired
  else
    let c := {| certFile := certF; keyFile := keyF; clientCAFile := clientCAF; cert := None;
                lastLoaded := None;
                tlsConfig := {| MinVersion := VersionTLS12; NextProtos := ["h2"; "http/1.1"];
                                ClientAuth := NoClientCert; ClientCAs := None; GetCertificate := false |};
                reloading := false |} in
    match Reload c d with
    | (_, Some err) => inr err
    | (c, None) =>
        if bool_decide (clientCAF ≠ "") then
          match loadClientCAPool d clientCAF with
          | inr err => inr err
          | inl pool =>
              let t := tlsConfig c in
              inl (install (set_tls c {| MinVersion := MinVersion t; NextProtos := NextProtos t;
                                         ClientAuth := RequireAndVerifyClientCert;
                                         ClientCAs := Some pool; GetCertificate := GetCertificate t |}
                                    (reloading c)))
          end
        else inl (install c)
    end.

Definition TLSConfig c : tls_Config Pool := tlsConfig c.

Definition getCertificate c : Cert + tls_error :=
  match cert c with None => inr NoCertificate | Some crt => inl crt end.

Definition CertFile c : string := certFile c.

Definition ClientAuthEnabled c : bool :=
  bool_decide (ClientAuth (tlsConfig c) = RequireAndVerifyClientCert) ||
  bool_decide (ClientAuth (tlsConfig c) = RequestClientCert) ||
  bool_decide (ClientAuth (tlsConfig c) = VerifyClientCertIfGiven).

(** [StartReloader]: whether it starts a goroutine. *)
Definition StartReloader c (interval : Z) : Config Cert Pool * bool :=
  if (interval <=? 0)%Z then (c, false)
  else if reloading c then (c, false)
  else (set_tls c (tlsConfig c) true, true).

(** [reloaderLoop] until its context is cancelled: one reload for each tick,
    whatever is on disk then; a failure is logged. *)
Definition reloaderLoop c (ticks : list (Disk Cert)) : Config Cert Pool :=
  foldl (λ c d, (Reload c d).1) c ticks.

(** [buildTLSConfig] from the four environment values: the outer [None] is a
    fatal error, the inner one plain HTTP; the flag tells whether there is a
    reloader to stop. *)
Definition buildTLSConfig (parseDuration : string → option Z)
    (certEnv keyEnv caEnv reloadEnv : string) d : option (option (Config Cert Pool * bool)) :=
  let certF := TrimSpace certEnv in
  if bool_decide (certF = "") then Some None
  else
    let keyF := TrimSpace keyEnv in
    if bool_decide (keyF = "") then None
    else
      match Load certF keyF (TrimSpace caEnv) d with
      | inr _ => None
      | inl c =>
          let reloadInterval := env_parsed parseDuration reloadEnv 0%Z in
          if (0 <? reloadInterval)%Z then Some (Some ((StartReloader c reloadInterval).1, true))
          else Some (Some (c, false))
      end.

(** What the server presents after some ticks of the reloader, if there is one. *)
Definition served (r : Config Cert Pool * bool) (ticks : list (Disk Cert)) : Config Cert Pool :=
  if r.2 then reloaderLoop r.1 ticks else r.1.

(** ** Facts *)

(** The last moment at which everything could be read and the certificate
    file was not the one loaded last: what the loop serves. *)
Fixpoint serving (certF keyF : string) (crt : Cert) (fp : fileFingerprint) (ticks : list (Disk Cert)) : Cert :=
  match ticks with
  | [] => crt
  | d :: ticks =>
      match LoadX509KeyPair d certF keyF, Stat d certF with
      | inl crt', inl fp' =>
          if bool_decide (fp = fp') then serving certF keyF crt fp ticks
          else serving certF keyF (parse_leaf crt') fp' ticks
      | _, _ => serving certF keyF crt fp ticks
      end
  end.

Lemma reloader_serves ticks c fp crt :
  lastLoaded c = Some fp → cert c = Some crt →
  getCertificate (reloaderLoop c ticks) = inl (serving (certFile c) (keyFile c) crt fp ticks) ∧
  tlsConfig (reloaderLoop c ticks) = tlsConfig c.
Proof.
  revert c fp crt. induction ticks as [|d ticks IH]; intros c fp crt Hfp Hc.
  { split; [|done]. unfold getCertificate. simpl. by rewrite Hc. }
  unfold reloaderLoop. cbn [foldl]. fold (reloaderLoop (Reload c d).1 ticks).
  unfold Reload, certFingerprint. cbn [serving].
  destruct (LoadX509KeyPair d _ _) as [crt'|]; [|by apply IH].
  destruct (Stat d _) as [fp'|]; [|by apply IH].
  rewrite Hfp. destruct (decide (fp = fp')) as [->|Hne].
  - rewrite !bool_decide_true by done. by apply IH.
  - rewrite !bool_decide_false by (done || by intros [= ?]).
    exact (IH (store_cert c (parse_leaf crt') fp') fp' (parse_leaf crt') eq_refl eq_refl).
Qed.

(** The configuration a successful [Load] gives. *)
Lemma Load_spec certF keyF caF d c :
  Load certF keyF caF d = inl c →
  certF ≠ "" ∧ keyF ≠ "" ∧ certFile c = certF ∧ keyFile c = keyF ∧ reloading c = false ∧
  (∃ crt fp, LoadX509KeyPair d certF keyF = inl crt ∧ Stat d certF = inl fp ∧
     cert c = Some (parse_leaf crt) ∧ lastLoaded c = Some fp) ∧
  (if decide (caF = "") then ClientAuth (tlsConfig c) = NoClientCert ∧ ClientCAs (tlsConfig c) = None
   else ClientAuth (tlsConfig c) = RequireAndVerifyClientCert ∧
     ∃ data pool, ReadFile d caF = inl data ∧ AppendCertsFromPEM data = Some pool ∧
       ClientCAs (tlsConfig c) = Some pool) ∧
  MinVersion (tlsConfig c) = VersionTLS12 ∧ NextProtos (tlsConfig c) = ["h2"; "http/1.1"] ∧
  GetCertificate (tlsConfig c) = true.
Proof.
  unfold Load. case_bool_decide; [done|]. case_bool_decide; [done|]. unfold Reload, certFingerprint. simpl.
  destruct (LoadX509KeyPair d _ _) as [crt|] eqn:Ek; [|done].
  destruct (Stat d _) as [fp|] eqn:Es; [|done].
  case_bool_decide as Hca.
  - unfold loadClientCAPool. destruct (ReadFile d caF) as [data|] eqn:Er; [|done].
    destruct (AppendCertsFromPEM data) as [pool|] eqn:Ep; [|done]. intros [= <-].
    rewrite decide_False by done. simpl. split_and!; done || eauto 8.
  - intros [= <-]. rewrite (decide_True (P := caF = "")) by done. simpl. split_and!; done || eauto 8.
Qed.

(** When [Load] fails, and why. *)
Lemma Load_error certF keyF caF d err :
  Load certF keyF caF d = inr err →
  match err with
  | CertRequired => certF = ""
  | KeyRequired => keyF = ""
  | LoadFailed cf kf why => cf = certF ∧ kf = keyF ∧ LoadX509KeyPair d certF keyF = inr why
  | StatFailed path why => path = certF ∧ Stat d certF = inr why
  | ReadCAFailed path why => path = caF ∧ path ≠ "" ∧ ReadFile d caF = inr why
  | NoCAs path => path = caF ∧ path ≠ "" ∧
      ∃ data, ReadFile d caF = inl data ∧ AppendCertsFromPEM data = None
  | NoCertificate => False
  end.
Proof.
  unfold Load. case_bool_decide; [by intros [= <-]|]. case_bool_decide; [by intros [= <-]|].
  unfold Reload, certFingerprint. simpl.
  destruct (LoadX509KeyPair d _ _) as [crt|] eqn:Ek; [|by intros [= <-]].
  destruct (Stat d _) as [fp|] eqn:Es; [|by intros [= <-]].
  case_bool_decide as Hca; [|done]. unfold loadClientCAPool.
  destruct (ReadFile d caF) as [data|] eqn:Er; [|by intros [= <-]].
  destruct (AppendCertsFromPEM data) as [pool|] eqn:Ep; [done|]. intros [= <-]. eauto.
Qed.

Lemma ClientAuthEnabled_spec certF keyF caF d c :
  Load certF keyF caF d = inl c → ClientAuthEnabled c = bool_decide (caF ≠ "").
Proof.
  intros (_ & _ & _ & _ & _ & _ & Hca & _)%Load_spec. unfold ClientAuthEnabled.
  destruct (decide (caF = "")) as [->|]; destruct Hca as [-> _]; [done|].
  by rewrite (bool_decide_true (caF ≠ "")).
Qed.

(** TLS is configured exactly if a certificate is named; without a reloader to
    stop none runs. *)
Lemma buildTLSConfig_some parseDuration certEnv keyEnv caEnv reloadEnv d r :
  buildTLSConfig parseDuration certEnv keyEnv caEnv reloadEnv d = Some r →
  (is_Some r ↔ TrimSpace certEnv ≠ "") ∧ (∀ c, r = Some (c, false) → reloading c = false).
Proof.
  unfold buildTLSConfig. case_bool_decide as Hc.
  { intros [= <-]. split; [split; [by intros [? [=]]|done]|done]. }
  case_bool_decide; [done|]. destruct (Load _ _ _ d) as [c|] eqn:Hl; [|done].
  apply Load_spec in Hl as (_ & _ & _ & _ & Erl & _).
  destruct (_ <? _)%Z; intros [= <-]; (split; [split; [done|by eexists]|]); [done|by intros c' [= <-]].
Qed.

(** C39: Once TLS is configured the server never falls back.  With a certificate
    file in the environment, start-up either aborts or yields a configuration
    that at every later moment, whatever the reloader finds on disk, presents a
    certificate: the first one, or the last that could be read at a tick where
    the certificate file had another size or time than the one kept.  It always
    requires TLS 1.2, and requires and verifies client certificates exactly if a
    CA file was named. *)
Theorem tls_never_downgrades parseDuration certEnv keyEnv caEnv reloadEnv d r ticks :
  let certF := TrimSpace certEnv in
  let keyF := TrimSpace keyEnv in
  certF ≠ "" →
  buildTLSConfig parseDuration certEnv keyEnv caEnv reloadEnv d = Some r →
  ∃ c stop crt fp, r = Some (c, stop) ∧
    stop = bool_decide (0 < env_parsed parseDuration reloadEnv 0)%Z ∧
    LoadX509KeyPair d certF keyF = inl crt ∧ Stat d certF = inl fp ∧
    let c' := served (c, stop) ticks in
    getCertificate c' =
      inl (if stop then serving certF keyF (parse_leaf crt) fp ticks else parse_leaf crt) ∧
    MinVersion (TLSConfig c') = VersionTLS12 ∧ GetCertificate (TLSConfig c') = true ∧
    ClientAuthEnabled c' = bool_decide (TrimSpace caEnv ≠ "") ∧
    (ClientAuth (TLSConfig c') = RequireAndVerifyClientCert ↔ TrimSpace caEnv ≠ "").
Proof.
  intros certF keyF Hcert. unfold buildTLSConfig. rewrite bool_decide_false by done.
  case_bool_decide; [done|]. fold certF keyF.
  destruct (Load certF keyF _ d) as [c|] eqn:Hl; [|done].
  pose proof (ClientAuthEnabled_spec _ _ _ _ _ Hl) as Henabled.
  destruct (Load_spec _ _ _ _ _ Hl) as (_ & _ & Ecf & Ekf & Erl & (crt & fp & Hk & Hs & Hc & Hf) & Hca & Hv & _ & Hg).
  assert (ClientAuth (tlsConfig c) = RequireAndVerifyClientCert ↔ TrimSpace caEnv ≠ "") as Hreq.
  { destruct (decide (TrimSpace caEnv = "")) as [E|E]; destruct Hca as [-> _]; naive_solver. }
  destruct (Z.ltb_spec 0 (env_parsed parseDuration reloadEnv 0%Z)) as [Hi|Hi]; intros [= <-].
  - eexists _, true, crt, fp. split; [reflexivity|]. split; [by rewrite bool_decide_true|].
    split; [done|]. split; [done|]. unfold served, StartReloader. simpl.
    rewrite (proj2 (Z.leb_gt _ _)) by done. rewrite Erl. simpl.
    destruct (reloader_serves ticks (set_tls c (tlsConfig c) true) fp (parse_leaf crt) Hf Hc) as [Hg' Ht].
    simpl in Hg', Ht. rewrite Ecf, Ekf in Hg'. unfold ClientAuthEnabled, TLSConfig in *. by rewrite Ht.
  - eexists _, false, crt, fp. split; [reflexivity|]. split; [by rewrite bool_decide_false by lia|].
    split; [done|]. split; [done|]. unfold served, getCertificate, TLSConfig. simpl. by rewrite Hc.
Qed.
End tls.

(** ** Examples *)

(** A disk with the key pair [n], if any, and the size [fp]. *)
Definition test_disk (n : option nat) (fp : Z) : Disk nat :=
  {| LoadX509KeyPair _ _ := match n with Some n => inl n | None => inr "no PEM" end;
     Stat _ := inl {| size := fp; mtime := 7 |};
     ReadFile _ := inr "no such file" |}.

(** A new key with an unchanged certificate file is not picked up. *)
Example tls_ignores_key_change c :
  Load (λ n, n) (λ _, None (A := unit)) "cert.pem" "key.pem" "" (test_disk (Some 1) 5) = inl c →
  getCertificate (reloaderLoop (λ n, n) c [test_disk (Some 2) 5; test_disk (Some 3) 5]) = inl 1.
Proof. intros [= <-]. reflexivity. Qed.

(** The files are read before the size and time: a renewal between the two is
    taken for loaded, and the old certificate is served from then on. *)
Example tls_misses_renewal c :
  Load (λ n, n) (λ _, None (A := unit)) "cert.pem" "key.pem" "" (test_disk (Some 1) 5) = inl c →
  getCertificate (reloaderLoop (λ n, n) c
    [test_disk (Some 1) 6; test_disk (Some 2) 6; test_disk (Some 2) 6]) = inl 1.
Proof. intros [= <-]. reflexivity. Qed.

Lemma tls_never_downgrades_witness :
  let build := buildTLSConfig (λ n, n) (λ _, None (A := unit)) (λ _, Some 300%Z) in
  let ticks := [test_disk None 6; test_disk (Some 2) 6; test_disk None 8] in
  ∃ c, build " cert.pem" "key.pem" "" "5m" (test_disk (Some 1) 5) = Some (Some (c, true)) ∧
    getCertificate (served (λ n, n) (c, true) ticks) = inl 2.
Proof.
  intros build ticks. eexists. split; [vm_compute; reflexivity|].
  destruct (tls_never_downgrades (λ n, n) (λ _, None (A := unit)) (λ _, Some 300%Z) " cert.pem" "key.pem"
    "" "5m" (test_disk (Some 1) 5) _ ticks ltac:(vm_compute; discriminate) eq_refl)
    as (c & stop & crt & fp & Hr & Hs & Hc & Hf & E & _).
  injection Hc as <-. injection Hf as <-. injection Hr as <- <-. exact E.
Defined.
