(* ===== verification/Certs.v ===== *)
(** * Generated certificates (src/gateway/tlsconfig/gencert.go,
    src/scripts/gen-test-cert/main.go)

    The helpers that make a self-signed certificate, a CA and a certificate
    signed by it, and the command that writes a pair to files.  Keys, DER, PEM
    and the signing itself are the libraries': they are arguments, and so are
    the random values and the time. *)
From Stdlib Require Import Ascii.
From stdpp Require Import gmap strings list.
From S2P Require Import Prelude GoStrings.

(** ** Data *)

(** [type CertPair struct] *)
Record CertPair := { CertPEM : string; KeyPEM : string }.

(** [x509.KeyUsage] and [x509.ExtKeyUsage] as far as they are used. *)
Definition KeyUsageDigitalSignature : N := 1.
Definition KeyUsageKeyEncipherment : N := 4.
Definition KeyUsageCertSign : N := 32.
Definition KeyUsageCRLSign : N := 64.
Inductive ExtKeyUsage := ExtKeyUsageServerAuth | ExtKeyUsageClientAuth.

(** The fields of [x509.Certificate] the templates set; [Parsed] is what
    parsing a certificate fills in besides (key, signature). *)
Record Certificate {R : Type} := {
  SerialNumber : N;
  CommonName : string;
  Organization : list string;
  NotBefore : Z;
  NotAfter : Z;
  KeyUsage : N;
  ExtUsage : list ExtKeyUsage;
  BasicConstraintsValid : bool;
  IsCA : bool;
  DNSNames : list string;
  IPAddresses : list string;
  Parsed : option R
}.
Arguments Certificate : clear implicits.

(** Times and durations are in nanoseconds; a certificate records seconds. *)
Definition Hour : Z := 3600000000000.
Definition whole_second (t : Z) : Z := (t - t mod 1000000000)%Z.

(** The errors, with the step that failed. *)
Inductive gen_error :=
  | GenerateKeyFailed (why : string)
  | SerialFailed (why : string)
  | CreateFailed (what why : string)
  | MarshalFailed (why : string)
  | CAIsNil
  | NoCertBlock
  | ParseCertFailed (why : string)
  | NoKeyBlock
  | ParseKeyFailed (why : string).

Section gencert.
Context {R Pub Priv Der : Type}.
(** [x509.CreateCertificate] from the template, the parent, the key certified
    and the key that signs; [x509.ParseCertificate]; PKCS#8; PEM. *)
Context (CreateCertificate : Certificate R → Certificate R → Pub → Priv → Der + string)
  (ParseCertificate : Der → Certificate R + string)
  (MarshalPKCS8PrivateKey : Priv → Der + string) (ParsePKCS8PrivateKey : Der → Priv + string)
  (EncodeToMemory : string → Der → string) (Decode : string → option (string * Der)).

(** ** Operations *)

Definition encodePair (certDER : Der) (priv : Priv) : CertPair + gen_error :=
  let certPEM := EncodeToMemory "CERTIFICATE" certDER in
  match MarshalPKCS8PrivateKey priv with
  | inr err => inr (MarshalFailed err)
  | inl keyDER => inl {| CertPEM := certPEM; KeyPEM := EncodeToMemory "PRIVATE KEY" keyDER |}
  end.

Definition parsePair (p : CertPair) : Certificate R * Priv + gen_error :=
  match Decode (CertPEM p) with
  | None => inr NoCertBlock
  | Some (_, cb) =>
      match ParseCertificate cb with
      | inr err => inr (ParseCertFailed err)
      | inl cert =>
          match Decode (KeyPEM p) with
          | None => inr NoKeyBlock
          | Some (_, kb) =>
              match ParsePKCS8PrivateKey kb with
              | inr err => inr (ParseKeyFailed err)
              | inl key => inl (cert, key)
              end
          end
      end
  end.

(** The outcomes of [ed25519.GenerateKey] and of [rand.Int] below 2^128. *)
Definition with_key (key : Pub * Priv + string) (serial : N + string)
    (k : Pub → Priv → N → CertPair + gen_error) : CertPair + gen_error :=
  match key with
  | inr err => inr (GenerateKeyFailed err)
  | inl (pub, priv) =>
      match serial with
      | inr err => inr (SerialFailed err)
      | inl serial => k pub priv serial
      end
  end.

(** The three templates. *)
Definition self_signed_template (serial : N) (now : Z) (commonName : string) (dnsSANs ipSANs : list string) :
    Certificate R :=
  {| SerialNumber := serial; CommonName := commonName; Organization := ["Vector Clock Lab (generated)"];
     NotBefore := now + -1 * Hour; NotAfter := now + 365 * 24 * Hour;
     KeyUsage := N.lor KeyUsageDigitalSignature KeyUsageKeyEncipherment;
     ExtUsage := [ExtKeyUsageServerAuth; ExtKeyUsageClientAuth]; BasicConstraintsValid := true;
     IsCA := false; DNSNames := dnsSANs; IPAddresses := ipSANs; Parsed := None |}.

Definition ca_template (serial : N) (now : Z) (commonName : string) : Certificate R :=
  {| SerialNumber := serial; CommonName := commonName; Organization := ["Vector Clock Lab (generated CA)"];
     NotBefore := now + -1 * Hour; NotAfter := now + 365 * 24 * Hour;
     KeyUsage := N.lor KeyUsageCertSign KeyUsageCRLSign;
     ExtUsage := [ExtKeyUsageClientAuth; ExtKeyUsageServerAuth]; BasicConstraintsValid := true;
     IsCA := true; DNSNames := []; IPAddresses := []; Parsed := None |}.

Definition leaf_template (serial : N) (now : Z) (commonName : string) (dnsSANs ipSANs : list string) :
    Certificate R :=
  {| SerialNumber := serial; CommonName := commonName; Organization := ["Vector Clock Lab (generated leaf)"];
     NotBefore := now + -1 * Hour; NotAfter := now + 365 * 24 * Hour;
     KeyUsage := KeyUsageDigitalSignature; ExtUsage := [ExtKeyUsageClientAuth];
     BasicConstraintsValid := true; IsCA := false; DNSNames := dnsSANs; IPAddresses := ipSANs;
     Parsed := None |}.

Definition GenerateSelfSignedCert key serial (now : Z) (commonName : string) (dnsSANs ipSANs : list string) :
    CertPair + gen_error :=
  with_key key serial (λ pub priv serial,
    let tmpl := self_signed_template serial now commonName dnsSANs ipSANs in
    match CreateCertificate tmpl tmpl pub priv with
    | inr err => inr (CreateFailed "certificate" err)
    | inl derBytes => encodePair derBytes priv
    end).

Definition GenerateCA key serial (now : Z) (commonName : string) : CertPair + gen_error :=
  with_key key serial (λ pub priv serial,
    let tmpl := ca_template serial now commonName in
    match CreateCertificate tmpl tmpl pub priv with
    | inr err => inr (CreateFailed "CA" err)
    | inl derBytes => encodePair derBytes priv
    end).

Definition GenerateCASignedCert (ca : option CertPair) key serial (now : Z) (commonName : string)
    (dnsSANs ipSANs : list string) : CertPair + gen_error :=
  match ca with
  | None => inr CAIsNil
  | Some ca =>
      match parsePair ca with
      | inr err => inr err
      | inl (caCert, caKey) =>
          with_key key serial (λ pub priv serial,
            let tmpl := leaf_template serial now commonName dnsSANs ipSANs in
            match CreateCertificate tmpl caCert pub caKey with
            | inr err => inr (CreateFailed "leaf" err)
            | inl derBytes => encodePair derBytes priv
            end)
      end
  end.

(** ** Facts *)

(** What the libraries document: PEM and PKCS#8 can be read back, and a
    certificate that was created parses to its template's fields, with times in
    whole seconds. *)
Definition of_template (t c : Certificate R) : Prop :=
  SerialNumber c = SerialNumber t ∧ CommonName c = CommonName t ∧ Organization c = Organization t ∧
  NotBefore c = whole_second (NotBefore t) ∧ NotAfter c = whole_second (NotAfter t) ∧ KeyUsage c = KeyUsage t ∧
  ExtUsage c = ExtUsage t ∧ BasicConstraintsValid c = BasicConstraintsValid t ∧ IsCA c = IsCA t ∧
  DNSNames c = DNSNames t ∧ IPAddresses c = IPAddresses t.

Hypothesis pem_decode : ∀ t der, Decode (EncodeToMemory t der) = Some (t, der).
Hypothesis pkcs8_parse : ∀ k der, MarshalPKCS8PrivateKey k = inl der → ParsePKCS8PrivateKey der = inl k.
Hypothesis create_parse : ∀ t parent pub k der, CreateCertificate t parent pub k = inl der →
  ∃ c, ParseCertificate der = inl c ∧ of_template t c.

Lemma whole_second_shift t k : whole_second (t + k * 1000000000) = (whole_second t + k * 1000000000)%Z.
Proof. unfold whole_second. rewrite Z.mod_add by done. lia. Qed.

Lemma encode_parse der priv p c :
  encodePair der priv = inl p → ParseCertificate der = inl c → parsePair p = inl (c, priv).
Proof.
  unfold encodePair, parsePair. destruct (MarshalPKCS8PrivateKey priv) as [kd|] eqn:Ek; [|done].
  intros [= <-] Hc. simpl. by rewrite !pem_decode, Hc, (pkcs8_parse _ _ Ek).
Qed.

(** What the generators make can be read back: a pair holds a certificate
    with the fields of its template and the key it was made with. *)
Lemma generated_parses (what : string) t parent pub signer priv p :
  match CreateCertificate t parent pub signer with
  | inr err => inr (CreateFailed what err)
  | inl derBytes => encodePair derBytes priv
  end = inl p →
  ∃ c, parsePair p = inl (c, priv) ∧ of_template t c.
Proof.
  destruct (CreateCertificate t parent pub signer) as [der|] eqn:Ec; [|done]. intros Hp.
  destruct (create_parse _ _ _ _ _ Ec) as (c & Hc & Ht). exists c. split; [|done].
  by eapply encode_parse.
Qed.

(** Certificates round-trip through their PEM form, and a chain is what it
    should be: the CA's pair parses to a CA certificate that may sign; a
    certificate is then signed with exactly that certificate as its parent and
    that key; it may not sign itself, serves client authentication only, and,
    when made a second or more after the CA, is still valid when the CA no longer
    is. *)
Theorem generated_chain key serial now cn ca key' serial' now' cn' dns ips leaf :
  GenerateCA key serial now cn = inl ca →
  GenerateCASignedCert (Some ca) key' serial' now' cn' dns ips = inl leaf →
  ∃ caPub caKey caSerial pub priv n caCert cert der,
    key = inl (caPub, caKey) ∧ serial = inl caSerial ∧ key' = inl (pub, priv) ∧ serial' = inl n ∧
    parsePair ca = inl (caCert, caKey) ∧ of_template (ca_template caSerial now cn) caCert ∧
    IsCA caCert = true ∧ N.testbit (KeyUsage caCert) 5 = true ∧
    CreateCertificate (leaf_template n now' cn' dns ips) caCert pub caKey = inl der ∧
    parsePair leaf = inl (cert, priv) ∧ of_template (leaf_template n now' cn' dns ips) cert ∧
    IsCA cert = false ∧ ExtUsage cert = [ExtKeyUsageClientAuth] ∧
    (NotAfter cert - NotBefore cert = 365 * 24 * Hour + Hour)%Z ∧
    ((now + 1000000000 <= now')%Z → (NotAfter caCert < NotAfter cert)%Z).
Proof.
  unfold GenerateCA, GenerateCASignedCert, with_key.
  destruct key as [[caPub caKey]|]; [|done]. destruct serial as [caSerial|]; [|done]. intros Hca.
  destruct (generated_parses _ _ _ _ _ _ _ Hca) as (caCert & Hp & Ht). rewrite Hp.
  destruct key' as [[pub priv]|]; [|done]. destruct serial' as [n|]; [|done]. intros Hl.
  destruct (generated_parses _ _ _ _ _ _ _ Hl) as (cert & Hp' & Ht').
  destruct (CreateCertificate (leaf_template n now' cn' dns ips) caCert pub caKey) as [der|] eqn:Ec; [|done].
  exists caPub, caKey, caSerial, pub, priv, n, caCert, cert, der.
  assert (of_template (ca_template caSerial now cn) caCert) as Hca' by done.
  assert (of_template (leaf_template n now' cn' dns ips) cert) as Hl' by done.
  destruct Ht as (_ & _ & _ & _ & Ea & Eu & _ & _ & Ei & _).
  destruct Ht' as (_ & _ & _ & Eb' & Ea' & _ & Ex' & _ & Ei' & _).
  split_and!; try done.
  - by rewrite Eu.
  - rewrite Ea', Eb'. simpl. change (-1 * Hour)%Z with (-3600 * 1000000000)%Z.
    change (365 * 24 * Hour)%Z with (31536000 * 1000000000)%Z. rewrite !whole_second_shift. unfold Hour. lia.
  - intros Hn. rewrite Ea, Ea'. simpl. change (365 * 24 * Hour)%Z with (31536000 * 1000000000)%Z.
    rewrite !whole_second_shift. unfold whole_second. pose proof (Z.mod_pos_bound now 1000000000).
    pose proof (Z.mod_pos_bound now' 1000000000). pose proof (Z.div_mod now 1000000000).
    pose proof (Z.div_mod now' 1000000000). nia.
Qed.
End gencert.

(** Libraries that meet what is assumed of them: they know two certificates,
    and an encoding is a type and a mark. *)
#[local] Instance ExtKeyUsage_eq_dec : EqDecision ExtKeyUsage.
Proof. solve_decision. Defined.
#[local] Instance Certificate_eq_dec : EqDecision (Certificate unit).
Proof. solve_decision. Defined.

Module Toy.
Definition ca : Certificate unit := ca_template 1 0 "ca".
Definition leaf : Certificate unit := leaf_template 2 (2 * 1000000000) "client" [] [].
Definition create (t _ : Certificate unit) (_ _ : unit) : bool + string :=
  if decide (t = ca) then inl true else if decide (t = leaf) then inl false else inr "unknown".
Definition parse (der : bool) : Certificate unit + string := inl (if der then ca else leaf).
Definition marshal (_ : unit) : bool + string := inl true.
Definition unmarshal (_ : bool) : unit + string := inl ().
Definition encode (t : string) (der : bool) : string := String (if der then "1" else "0") t.
Definition decode (s : string) : option (string * bool) :=
  match s with String c t => Some (t, bool_decide (c = "1"%char)) | EmptyString => None end.
End Toy.

Example generated_chain_example : ∃ ca leaf caCert cert,
  GenerateCA Toy.create Toy.marshal Toy.encode (inl ((), ())) (inl 1%N) 0 "ca" = inl ca ∧
  GenerateCASignedCert Toy.create Toy.parse Toy.marshal Toy.unmarshal Toy.encode Toy.decode (Some ca)
    (inl ((), ())) (inl 2%N) (2 * 1000000000) "client" [] [] = inl leaf ∧
  parsePair Toy.parse Toy.unmarshal Toy.decode ca = inl (caCert, ()) ∧
  parsePair Toy.parse Toy.unmarshal Toy.decode leaf = inl (cert, ()) ∧
  (NotAfter caCert < NotAfter cert)%Z.
Proof.
  assert (∀ t parent pub k der, Toy.create t parent pub k = inl der →
    ∃ c, Toy.parse der = inl c ∧ of_template t c) as Hcreate.
  { intros t parent pub k der. unfold Toy.create. repeat case_decide; [..|done]; subst t; intros [= <-];
      (eexists; split; [reflexivity|by vm_compute; repeat split]). }
  destruct (generated_chain Toy.create Toy.parse Toy.marshal Toy.unmarshal Toy.encode Toy.decode
    (λ t der, match der with true => eq_refl | false => eq_refl end)
    (λ k der _, match k with tt => eq_refl end) Hcreate
    (inl ((), ())) (inl 1%N) 0 "ca" _ (inl ((), ())) (inl 2%N) (2 * 1000000000) "client" [] [] _
    eq_refl eq_refl)
    as (? & [] & ? & ? & [] & ? & caCert & cert & ? & _ & _ & _ & _ & Hca & _ & _ & _ & _ & Hl & _ & _ & _ & _ & Hlt).
  eexists _, _, caCert, cert. split_and!; [reflexivity..|exact Hca|exact Hl|]. apply Hlt. lia.
Qed.

(** [GenerateCASignedCert] does not ask whether what signs is a CA: a
    self-signed server certificate signs as well. *)
Example leaf_signs_leaf :
  let create := λ (t p : Certificate unit) (_ _ : unit), inl (A := Certificate unit) (B := string) t in
  let parse := λ c : Certificate unit, inl (A := Certificate unit) (B := string) c in
  let marshal := λ _ : unit, inl (A := Certificate unit) (B := string)
    (self_signed_template 0 0 "" [] []) in
  let unmarshal := λ _ : Certificate unit, inl (A := unit) (B := string) () in
  let encode := λ (t : string) (_ : Certificate unit), t in
  let decode := λ s : string, Some (s, self_signed_template (R := unit) 1 0 "localhost" [] []) in
  ∀ p, GenerateSelfSignedCert create marshal encode (inl ((), ())) (inl 1%N) 0 "localhost" [] [] = inl p →
  (∃ c k, parsePair parse unmarshal decode p = inl (c, k) ∧ IsCA c = false) ∧
  ∃ q, GenerateCASignedCert create parse marshal unmarshal encode decode (Some p) (inl ((), ()))
         (inl 2%N) 0 "client" [] [] = inl q.
Proof. intros create parse marshal unmarshal encode decode p [= <-]. split; eauto. Qed.

(** ** The command gen-test-cert *)

Definition splitNonEmpty (s : string) : list string :=
  foldl (λ out p, let t := TrimSpace p in if bool_decide (t ≠ "") then out ++ [t] else out) []
    (Split s ",").

(** The command's flags, with their defaults. *)
Record Flags := { fOut : string; fCert : string; fKey : string; fCN : string; fDNS : string; fIP : string }.
Definition default_flags : Flags :=
  {| fOut := "cert"; fCert := ""; fKey := ""; fCN := "localhost"; fDNS := "localhost"; fIP := "127.0.0.1" |}.

(** How the command ends: with an error, or having written two files. *)
Inductive gen_exit :=
  | InvalidIP (s : string) | GenerateFailed (err : gen_error) | WriteCertFailed | WriteKeyFailed
  | Wrote (certPath keyPath : string).

Section command.
(** [net.ParseIP], giving the address in a normal form; the generator; whether
    a file could be written. *)
Context (ParseIP : string → option string)
  (generate : string → list string → list string → CertPair + gen_error)
  (can_write : string → bool).

(** The loop over the addresses, up to the first that is not one. *)
Fixpoint parse_ips (ss : list string) (ipList : list string) : list string + string :=
  match ss with
  | [] => inl ipList
  | s :: ss => match ParseIP s with Some ip => parse_ips ss (ipList ++ [ip]) | None => inr s end
  end.

(** [os.WriteFile] *)
Definition WriteFile (fs : gmap string string) (path data : string) : gmap string string * bool :=
  if can_write path then (<[path := data]> fs, true) else (fs, false).

(** [main], on the files. *)
Definition gen_main (f : Flags) (fs : gmap string string) : gmap string string * gen_exit :=
  let dnsList := splitNonEmpty (fDNS f) in
  match parse_ips (splitNonEmpty (fIP f)) [] with
  | inr s => (fs, InvalidIP s)
  | inl ipList =>
      match generate (fCN f) dnsList ipList with
      | inr err => (fs, GenerateFailed err)
      | inl prs =>
          let certPath := if bool_decide (fCert f = "") then fOut f +:+ ".cert.pem" else fCert f in
          let keyPath := if bool_decide (fKey f = "") then fOut f +:+ ".key.pem" else fKey f in
          match WriteFile fs certPath (CertPEM prs) with
          | (fs, false) => (fs, WriteCertFailed)
          | (fs, true) =>
              match WriteFile fs keyPath (KeyPEM prs) with
              | (fs, false) => (fs, WriteKeyFailed)
              | (fs, true) => (fs, Wrote certPath keyPath)
              end
          end
      end
  end.

Lemma parse_ips_spec ss acc :
  match parse_ips ss acc with
  | inl ips => ∃ l, ips = acc ++ l ∧ Forall2 (λ s ip, ParseIP s = Some ip) ss l
  | inr s => s ∈ ss ∧ ParseIP s = None
  end.
Proof.
  revert acc. induction ss as [|s ss IH]; intros acc; simpl.
  - exists []. by rewrite app_nil_r.
  - destruct (ParseIP s) as [ip|] eqn:E; [|split; [by left|done]].
    specialize (IH (acc ++ [ip])). destruct (parse_ips ss _) as [ips|s'].
    + destruct IH as (l & -> & Hl). exists (ip :: l). rewrite <- (assoc_L (++)). split; [done|]. by constructor.
    + destruct IH as [Hin Hn]. split; [by right|done].
Qed.

(** What the command does on every path: unless all addresses parse and a
    pair is generated no file is touched; on success the two files hold the
    pair, when their paths differ; if the key cannot be written the certificate
    is left behind without it. *)
Theorem gen_main_files f fs :
  let '(fs', r) := gen_main f fs in
  let certPath := if bool_decide (fCert f = "") then fOut f +:+ ".cert.pem" else fCert f in
  let keyPath := if bool_decide (fKey f = "") then fOut f +:+ ".key.pem" else fKey f in
  match r with
  | InvalidIP s => fs' = fs ∧ s ∈ splitNonEmpty (fIP f) ∧ ParseIP s = None
  | GenerateFailed _ => fs' = fs
  | WriteCertFailed => fs' = fs ∧ can_write certPath = false
  | WriteKeyFailed => can_write certPath = true ∧ can_write keyPath = false ∧
      ∃ prs, fs' = <[certPath := CertPEM prs]> fs
  | Wrote c k => c = certPath ∧ k = keyPath ∧
      ∃ ips prs, Forall2 (λ s ip, ParseIP s = Some ip) (splitNonEmpty (fIP f)) ips ∧
        generate (fCN f) (splitNonEmpty (fDNS f)) ips = inl prs ∧
        fs' !! keyPath = Some (KeyPEM prs) ∧
        (certPath ≠ keyPath → fs' !! certPath = Some (CertPEM prs)) ∧
        ∀ path, path ≠ certPath → path ≠ keyPath → fs' !! path = fs !! path
  end.
Proof.
  unfold gen_main. pose proof (parse_ips_spec (splitNonEmpty (fIP f)) []) as Hips.
  destruct (parse_ips _ _) as [ips|s]; [|by split]. destruct Hips as (l & -> & Hl). simpl.
  destruct (generate _ _ _) as [prs|err] eqn:Eg; [|done].
  set (certPath := if bool_decide (fCert f = "") then _ else _).
  set (keyPath := if bool_decide (fKey f = "") then _ else _). unfold WriteFile.
  destruct (can_write certPath) eqn:Ec; [|by split].
  destruct (can_write keyPath) eqn:Ek; [|by eauto].
  split; [done|]. split; [done|]. exists l, prs. split_and!; try done.
  - apply lookup_insert_eq.
  - intros Hne. rewrite lookup_insert_ne by done. apply lookup_insert_eq.
  - intros path Hc Hk. by rewrite !lookup_insert_ne by done.
Qed.
End command.

(** The usage in the command's comment does not write the file it names. *)
Example usage_writes_elsewhere prs :
  let f := {| fOut := "/tmp/cert.pem"; fCert := ""; fKey := "/tmp/key.pem"; fCN := "localhost";
              fDNS := "localhost"; fIP := "127.0.0.1" |} in
  (gen_main Some (λ _ _ _, inl prs) (λ _, true) f ∅).2 = Wrote "/tmp/cert.pem.cert.pem" "/tmp/key.pem".
Proof. reflexivity. Qed.
