(* ===== verification/Telemetry.v ===== *)
(** * Telemetry (src/internal/telemetry/telemetry.go)

    How tracing is set up: which exporter is chosen, what is installed in the
    global state of OpenTelemetry, and what the shutdown function does.
    OpenTelemetry itself, the host name and the fresh instance id are
    arguments. *)
From Stdlib Require Import Floats.SpecFloat.
From stdpp Require Import gmap strings list.
From S2P Require Import Prelude GoStrings RateLimit.

(** ** Data *)

(** [type Config struct] *)
Record Config := {
  ServiceName : string;
  ServiceVersion : string;
  Exporter : string;
  OTLPEndpoint : string;
  SampleRatio : float64;
  Insecure : bool
}.

Definition TracerName : string := "github.com/DistributedClocks/vectorclock-system".

(** A resource is a list of attributes; an exporter is what it was made from. *)
Definition Resource : Type := list (string * string).
Inductive SpanExporter :=
  | StdoutExporter
  | OTLPExporter (endpoint : string) (insecure : bool).

Inductive TracerProvider :=
  | NoopProvider
  | SdkProvider (res : Resource) (exp : SpanExporter) (maxQueueSize maxExportBatchSize : nat)
      (ratio : float64).

(** The global state of the otel package: the propagators and the provider
    that have been set. *)
Inductive Propagator := TraceContext | Baggage.
Record Otel := { propagator : list Propagator; provider : option TracerProvider }.
Definition SetTextMapPropagator (g : Otel) (ps : list Propagator) : Otel :=
  {| propagator := ps; provider := provider g |}.
Definition SetTracerProvider (g : Otel) (tp : TracerProvider) : Otel :=
  {| propagator := propagator g; provider := Some tp |}.

(** The shutdown function [Init] returns; the flag tells of a closer. *)
Inductive Shutdown := ShutdownNothing | ShutdownSdk (closer : bool).

Inductive telemetry_error :=
  | UnknownExporter (name : string)
  | ResourceFailed (why : string)
  | ExporterFailed (why : string).

(** ** Operations *)
Section telemetry.
(** What the libraries answer: the host name, if known; a fresh id; the base
    resource and [resource.Merge]; whether each exporter can be made, and
    whether OTLP's client is an [io.Closer]. *)
Context (Hostname : option string) (NewString : string) (Default : Resource)
  (Merge : Resource → Resource → Resource + string)
  (stdouttrace_New : option string) (otlptrace_New : string → bool → option string)
  (client_is_closer : bool).

Definition buildResource (cfg : Config) : Resource + string :=
  let host := match Hostname with
              | None => "unknown"
              | Some host => if bool_decide (host = "") then "unknown" else host
              end in
  let svc := [("service.name", ServiceName cfg); ("service.version", ServiceVersion cfg);
              ("service.instance.id", NewString); ("host.name", host)] in
  Merge Default svc.

Definition buildExporter (kind : string) (cfg : Config) : SpanExporter * bool + string :=
  if bool_decide (kind = "stdout") then
    match stdouttrace_New with
    | Some err => inr err
    | None => inl (StdoutExporter, false)
    end
  else if bool_decide (kind = "otlp") then
    match otlptrace_New (OTLPEndpoint cfg) (Insecure cfg) with
    | Some err => inr err
    | None => inl (OTLPExporter (OTLPEndpoint cfg) (Insecure cfg), client_is_closer)
    end
  else inr ("telemetry: unreachable exporter " +:+ kind).

(** The defaults and the clamping at the head of [Init]. *)
Definition exporter_kind (cfg : Config) : string :=
  let exporter := ToLower (TrimSpace (Exporter cfg)) in
  if bool_decide (exporter = "") then "none" else exporter.

Definition clamp_ratio (r : float64) : float64 :=
  let r := if f_lt r (f_of_Z 0) then f_of_Z 0 else r in
  if f_lt (f_of_Z 1) r then f_of_Z 1 else r.

Definition normalise (cfg : Config) : Config :=
  {| ServiceName := if bool_decide (ServiceName cfg = "") then "vectorclock-server" else ServiceName cfg;
     ServiceVersion := ServiceVersion cfg; Exporter := Exporter cfg; OTLPEndpoint := OTLPEndpoint cfg;
     SampleRatio := clamp_ratio (SampleRatio cfg); Insecure := Insecure cfg |}.

Definition Init (g : Otel) (cfg : Config) : Otel * (Shutdown + telemetry_error) :=
  let exporter := exporter_kind cfg in
  let cfg := normalise cfg in
  let g := SetTextMapPropagator g [TraceContext; Baggage] in
  if bool_decide (exporter = "none") then (SetTracerProvider g NoopProvider, inl ShutdownNothing)
  else if bool_decide (exporter = "stdout") || bool_decide (exporter = "otlp") then
    match buildResource cfg with
    | inr err => (g, inr (ResourceFailed err))
    | inl res =>
        match buildExporter exporter cfg with
        | inr err => (g, inr (ExporterFailed err))
        | inl (spanExporter, closer) =>
            (SetTracerProvider g (SdkProvider res spanExporter 2048 512 (SampleRatio cfg)),
             inl (ShutdownSdk closer))
        end
    end
  else (g, inr (UnknownExporter (Exporter cfg))).

(** Calling the shutdown function, with the outcomes of the provider's shutdown
    and of closing the client: what it calls, in order, and its error. *)
Inductive call := CallProviderShutdown | CallCloserClose.
Definition run_shutdown (s : Shutdown) (tp_err close_err : option string) : list call * option string :=
  match s with
  | ShutdownNothing => ([], None)
  | ShutdownSdk closer =>
      let shutdownErr := tp_err in
      if closer then
        ([CallProviderShutdown; CallCloserClose],
         match close_err with
         | Some cerr => if bool_decide (shutdownErr = None) then Some cerr else shutdownErr
         | None => shutdownErr
         end)
      else ([CallProviderShutdown], shutdownErr)
  end.

(** [Tracer]: the scope, and the provider its spans go to. *)
Definition Tracer (g : Otel) : string * option TracerProvider := (TracerName, provider g).

(** ** Facts *)

(** Neither test of the clamp holds of what it gives. *)
Lemma clamp_ratio_range r :
  f_lt (clamp_ratio r) (f_of_Z 0) = false ∧ f_lt (f_of_Z 1) (clamp_ratio r) = false ∧
  (f_lt r (f_of_Z 0) = false → f_lt (f_of_Z 1) r = false → clamp_ratio r = r).
Proof.
  unfold clamp_ratio. destruct (f_lt r (f_of_Z 0)) eqn:E0.
  - split_and!; try reflexivity; done.
  - destruct (f_lt (f_of_Z 1) r) eqn:E1; split_and!; try reflexivity; done.
Qed.

(** Shutting down does nothing exactly when tracing was off. *)
Lemma Init_off g cfg sd tp_err close_err :
  (Init g cfg).2 = inl sd →
  (run_shutdown sd tp_err close_err).1 = [] ↔ exporter_kind cfg = "none".
Proof.
  unfold Init. case_bool_decide as E; [by intros [= <-]|].
  destruct (_ || _); [|done]. destruct (buildResource _); [|done].
  destruct (buildExporter _ _) as [[? closer]|]; [|done]. intros [= <-]. by destruct closer.
Qed.

(** What [Init] does on every path.  The propagator is set whatever happens, a
    provider is installed exactly when it succeeds, and an earlier one stays
    otherwise; tracing is off for an empty, blank or "none" exporter in any
    case of letters, and then nothing can fail; a known exporter fails only if
    the resource or the exporter cannot be built, any other name is refused with
    the name as it was given. *)
Theorem init_outcomes g cfg :
  let '(g', r) := Init g cfg in
  propagator g' = [TraceContext; Baggage] ∧
  match r with
  | inl ShutdownNothing => exporter_kind cfg = "none" ∧ Tracer g' = (TracerName, Some NoopProvider)
  | inl (ShutdownSdk closer) =>
      ∃ res exp, buildResource (normalise cfg) = inl res ∧
        (exporter_kind cfg = "stdout" ∧ exp = StdoutExporter ∧ closer = false ∨
         exporter_kind cfg = "otlp" ∧ exp = OTLPExporter (OTLPEndpoint cfg) (Insecure cfg) ∧
         closer = client_is_closer) ∧
        Tracer g' = (TracerName, Some (SdkProvider res exp 2048 512 (clamp_ratio (SampleRatio cfg))))
  | inr err =>
      provider g' = provider g ∧
      match err with
      | UnknownExporter name => name = Exporter cfg ∧ exporter_kind cfg ∉ ["none"; "stdout"; "otlp"]
      | ResourceFailed why => buildResource (normalise cfg) = inr why ∧ exporter_kind cfg ∈ ["stdout"; "otlp"]
      | ExporterFailed why =>
          exporter_kind cfg = "stdout" ∧ stdouttrace_New = Some why ∨
          exporter_kind cfg = "otlp" ∧ otlptrace_New (OTLPEndpoint cfg) (Insecure cfg) = Some why
      end
  end.
Proof.
  unfold Init. set (k := exporter_kind cfg). destruct (decide (k = "none")) as [E|E].
  { rewrite bool_decide_true by done. by split_and!. }
  rewrite (bool_decide_false (k = "none")) by done.
  destruct (bool_decide (k = "stdout") || bool_decide (k = "otlp")) eqn:Ek.
  - apply orb_true_iff in Ek. rewrite !bool_decide_eq_true in Ek.
    destruct (buildResource (normalise cfg)) as [res|err] eqn:Er.
    2: { split_and!; try done. set_solver. }
    unfold buildExporter. destruct Ek as [Ek|Ek]; rewrite Ek; simpl.
    + destruct stdouttrace_New; split_and!; try done; [by left|].
      do 2 eexists. split; [reflexivity|]. split; [by left|reflexivity].
    + destruct (otlptrace_New _ _) eqn:Eo; split_and!; try done; [by right|].
      do 2 eexists. split; [reflexivity|]. split; [by right|reflexivity].
  - apply orb_false_iff in Ek. rewrite !bool_decide_eq_false in Ek. split_and!; try done. set_solver.
Qed.

(** The shutdown function flushes before it closes, does both whatever the
    first returns, and reports the first error. *)
Theorem shutdown_reports closer tp_err close_err :
  let '(calls, err) := run_shutdown (ShutdownSdk closer) tp_err close_err in
  calls = CallProviderShutdown :: (if closer then [CallCloserClose] else []) ∧
  (err = None ↔ tp_err = None ∧ (closer = true → close_err = None)) ∧
  (tp_err ≠ None → err = tp_err).
Proof. destruct closer, tp_err, close_err; simpl; split_and!; naive_solver. Qed.
End telemetry.

(** A ratio that is not a number is not clamped. *)
Example nan_ratio_kept : clamp_ratio S754_nan = S754_nan.
Proof. reflexivity. Qed.

Example exporter_any_case :
  exporter_kind {| ServiceName := ""; ServiceVersion := "dev"; Exporter := " NoNe "; OTLPEndpoint := "";
                   SampleRatio := f_of_Z 1; Insecure := false |} = "none".
Proof. reflexivity. Qed.
