(* ===== verification/Main.v ===== *)
(** * The server command as a whole (src/cmd/server/main.go, Start and StartTLS
    of src/gateway/server.go)

    [main] from the environment to its end: configuration, telemetry, the first
    simulation, the server, certificates, serving, and the shutdown.  The logger
    is left out.  What the operating system answers is an argument. *)
From stdpp Require Import gmap strings list pretty.
From S2P Require Import Prelude GoStrings VClock Events Process Transport Snapshot Simulation Scenarios.
From S2P Require Import Auth RateLimit Middleware Hub Server Rest Gateway Endpoints Startup Tls Telemetry.

(** ** Serving *)

(** The constants of server.go, in nanoseconds. *)
Definition Second : Z := 1000000000.
Definition HTTPReadHeaderTimeout : Z := 5 * Second.
Definition HTTPReadTimeout : Z := 15 * Second.
Definition HTTPWriteTimeout : Z := 15 * Second.
Definition HTTPIdleTimeout : Z := 120 * Second.

(** The fields of [http.Server] that are set. *)
Record httpServer {Pool : Type} := {
  Addr : string;
  ReadHeaderTimeout : Z;
  ReadTimeout : Z;
  WriteTimeout : Z;
  IdleTimeout : Z;
  ServerTLS : option (tls_Config Pool)
}.
Arguments httpServer : clear implicits.

Inductive serve_error := ErrServerClosed | ServeError (why : string).
#[export] Instance serve_error_eq_dec : EqDecision serve_error.
Proof. solve_decision. Defined.

Section serving.
(** How [ListenAndServe], or with the flag [ListenAndServeTLS], ends. *)
Context {Pool : Type} (listen : httpServer Pool → bool → option serve_error).

Definition StartTLS (addr : string) (tlsCfg : option (tls_Config Pool)) :
    httpServer Pool * option serve_error :=
  let httpSv := {| Addr := addr; ReadHeaderTimeout := HTTPReadHeaderTimeout;
                   ReadTimeout := HTTPReadTimeout; WriteTimeout := HTTPWriteTimeout;
                   IdleTimeout := HTTPIdleTimeout; ServerTLS := tlsCfg |} in
  let err := match tlsCfg with
             | Some _ => listen httpSv true
             | None => listen httpSv false
             end in
  match err with
  | Some e => if bool_decide (e ≠ ErrServerClosed) then (httpSv, Some e) else (httpSv, None)
  | None => (httpSv, None)
  end.

Definition Start (addr : string) : httpServer Pool * option serve_error := StartTLS addr None.

(** The goroutine of [main] that serves: what it sends on [serverErr]. *)
Definition serve_goroutine (addr : string) (tlsCfg : option (tls_Config Pool)) :
    httpServer Pool * option serve_error :=
  let '(h, startErr) := match tlsCfg with
                        | Some _ => StartTLS addr tlsCfg
                        | None => Start addr
                        end in
  (h, match startErr with
      | Some e => if bool_decide (e ≠ ErrServerClosed) then Some e else None
      | None => None
      end).

(** With certificates HTTPS is served and never plain HTTP; being closed is
    no error, and any other error is passed on. *)
Lemma serve_goroutine_spec addr tlsCfg :
  let '(h, err) := serve_goroutine addr tlsCfg in
  Addr h = addr ∧ ServerTLS h = tlsCfg ∧
  err = match listen h (bool_decide (is_Some tlsCfg)) with
        | Some (ServeError why) => Some (ServeError why)
        | _ => None
        end.
Proof.
  unfold serve_goroutine, Start, StartTLS. destruct tlsCfg as [t|]; simpl.
  - destruct (listen _ true) as [[]|] eqn:E; simpl; by rewrite E.
  - destruct (listen _ false) as [[]|] eqn:E; simpl; by rewrite E.
Qed.
End serving.

(** ** The command *)

(** What the operating system and the libraries answer [main]. *)
Record Env {Cert Pool : Type} := {
  Getenv : string → string;
  config_file : string → option bool * option string;
  unmarshal : string → serverConfig → serverConfig;
  token_file : string → list Token + string;
  parse_float : string → option float64;
  parse_duration : string → option Z;
  disk : Disk Cert;
  parse_leaf : Cert → Cert;
  append_certs : string → option Pool;
  serving : httpServer Pool → bool → option serve_error
}.
Arguments Env : clear implicits.

(** What ends the serving: a signal, or the end of the goroutine; both may be
    ready. *)
Inductive main_event := Signal | GoroutineEnded.

(** How [main] ends.  A fatal error exits at once, so deferred calls do not
    run. *)
Inductive fatal :=
  | TelemetryFatal (err : telemetry_error)
  | StartFatal
  | TLSFatal
  | ServeFatal (err : serve_error).

Record exited {Cert Pool : Type} := {
  x_http : httpServer Pool;
  x_server : Server;
  x_tls : option (Tls.Config Cert Pool);
  x_reloading : bool;
  x_telemetry : list call
}.
Arguments exited : clear implicits.

Section main.
Context `{MapRange} (now : nat → nat → Z) {Cert Pool : Type}.
Context (Hostname : option string) (NewString : string) (Default : Resource)
  (Merge : Resource → Resource → Resource + string)
  (stdouttrace_New : option string) (otlptrace_New : string → bool → option string)
  (client_is_closer : bool).
Context `{!Bind startRequest, !Bind simConfigRequest, !Bind spawnRequest, !Bind sendRequest,
  !Bind broadcastRequest, !Bind delayRequest, !Bind dropRequest, !Bind partitionRequest,
  !Bind kvWriteRequest, !Bind kvResolveRequest}.
Implicit Types (env : Env Cert Pool).

Definition main_config env : serverConfig :=
  let configPath := Getenv env "CONFIG_PATH" in
  let configPath := if bool_decide (configPath = "") then "config.yaml" else configPath in
  let '(stat, read) := config_file env configPath in
  loadConfig stat read (unmarshal env).

Definition telemetry_config env : Telemetry.Config :=
  {| ServiceName := envOr (Getenv env "OTEL_SERVICE_NAME") "vectorclock-server";
     ServiceVersion := "dev";
     Exporter := envOr (Getenv env "OTEL_EXPORTER") "none";
     OTLPEndpoint := envOr (Getenv env "OTEL_EXPORTER_OTLP_ENDPOINT") "localhost:4318";
     SampleRatio := env_parsed (parse_float env) (Getenv env "OTEL_SAMPLE_RATIO") (f_of_Z 1);
     Insecure := bool_decide (Getenv env "OTEL_INSECURE" = "true") |}.

Definition telemetry_init env (g : Otel) : Otel * (Shutdown + telemetry_error) :=
  Init Hostname NewString Default Merge stdouttrace_New otlptrace_New client_is_closer g
    (telemetry_config env).

Definition main_auth env : Manager + load_error :=
  NewManager (token_file env) (Getenv env "API_TOKENS_FILE") (Getenv env "VC_API_TOKENS").

Definition main_start env : option (Z * Server) :=
  start_up now (main_config env) (Getenv env "PORT") (Getenv env "VC_ALLOWED_ORIGINS") (main_auth env).

Definition main_tls env : option (option (Tls.Config Cert Pool * bool)) :=
  buildTLSConfig (parse_leaf env) (append_certs env) (parse_duration env)
    (Getenv env "VC_TLS_CERT_FILE") (Getenv env "VC_TLS_KEY_FILE") (Getenv env "VC_TLS_CLIENT_CA_FILE")
    (Getenv env "VC_TLS_RELOAD_INTERVAL") (disk env).

(** The end of [main]: the reloader, the server and the simulation are stopped
    and, deferred, telemetry is shut down; [ops] is what has happened to the
    server. *)
Definition finish (h : httpServer Pool) (v : Server) (ops : list server_op)
    (tls : option (Tls.Config Cert Pool * bool)) (telShutdown : Shutdown) (tp_err close_err : option string) :
    exited Cert Pool :=
  {| x_http := h; x_server := shut_down now (server_run now v ops); x_tls := fst <$> tls;
     x_reloading := match tls with
                    | Some (c, stopReloader) => if stopReloader then false else reloading c
                    | None => false
                    end;
     x_telemetry := (run_shutdown telShutdown tp_err close_err).1 |}.

Definition main env (g : Otel) (ops : list server_op) (ev : main_event) (tp_err close_err : option string) :
    fatal + exited Cert Pool :=
  match telemetry_init env g with
  | (_, inr err) => inl (TelemetryFatal err)
  | (_, inl telShutdown) =>
      match main_start env with
      | None => inl StartFatal
      | Some (port, srv) =>
          let addr := ":" +:+ pretty port in
          match main_tls env with
          | None => inl TLSFatal
          | Some tls =>
              let '(h, serverErr) := serve_goroutine (serving env) addr (TLSConfig ∘ fst <$> tls) in
              match ev, serverErr with
              | GoroutineEnded, Some err => inl (ServeFatal err)
              | _, _ => inr (finish h srv ops tls telShutdown tp_err close_err)
              end
          end
      end
  end.

End main.

(** The defaults, over plain HTTP: [main] runs and ends. *)
Definition plain_env : Env nat unit :=
  {| Getenv _ := ""; config_file _ := (None, None); unmarshal _ c := c; token_file _ := inr "";
     parse_float _ := None; parse_duration _ := None;
     disk := {| LoadX509KeyPair _ _ := inr ""; Stat _ := inr ""; ReadFile _ := inr "" |};
     parse_leaf n := n; append_certs _ := None; serving _ _ := Some ErrServerClosed |}.

#[local] Existing Instances Trial.bind_start Trial.bind_config Trial.bind_spawn Trial.bind_send
  Trial.bind_broadcast Trial.bind_delay Trial.bind_drop Trial.bind_partition Trial.bind_write
  Trial.bind_resolve.

Example main_serves :
  let r := canonical_range in
  match main Trial.clock None "" [] (λ a _, inl a) None (λ _ _, None) false plain_env
    {| propagator := []; provider := None |} [VServe Trial.reset] Signal None None with
  | inr x => Addr (x_http x) = ":8080" ∧ ServerTLS (x_http x) = None ∧ length (sims (x_server x)) = 2
  | inl _ => False
  end.
Proof. vm_compute. repeat split. Qed.

(** A port in use: the process exits without the shutdown. *)
Example main_port_in_use :
  let r := canonical_range in
  let env : Env nat unit := {| Getenv _ := ""; config_file _ := (None, None); unmarshal _ c := c; token_file _ := inr "";
     parse_float _ := None; parse_duration _ := None; disk := disk plain_env; parse_leaf n := n;
     append_certs _ := None; serving _ _ := Some (ServeError "address already in use") |} in
  main Trial.clock None "" [] (λ a _, inl a) None (λ _ _, None) false env
    {| propagator := []; provider := None |} [] GoroutineEnded None None =
  inl (ServeFatal (ServeError "address already in use")).
Proof. vm_compute. reflexivity. Qed.
