(* ===== verification/Metrics.v ===== *)
(** * The metrics page (src/gateway/metrics.go)

    The text the metrics endpoint answers with, from the gathered metric
    families.  The formatting of a float by [%g] is an argument; writes to the
    response are taken to succeed. *)
From Stdlib Require Import Ascii SpecFloat.
From stdpp Require Import gmap strings list sorting pretty.
From S2P Require Import Prelude GoStrings RateLimit.

(** ** Data: the messages of the Prometheus client model *)

Inductive MetricType := COUNTER | GAUGE | SUMMARY | UNTYPED | HISTOGRAM | GAUGE_HISTOGRAM.
Record LabelPair := { lpName : string; lpValue : string }.
Record Bucket := { CumulativeCount : N; UpperBound : float64 }.
Record Histogram := { hSampleCount : N; hSampleSum : float64; hBucket : list Bucket }.
Record Quantile := { qQuantile : float64; qValue : float64 }.
Record Summary := { sSampleCount : N; sSampleSum : float64; sQuantile : list Quantile }.
(** An absent part reads as zero. *)
Record Metric := { mLabel : list LabelPair; mCounter : float64; mGauge : float64; mUntyped : float64;
                   mHistogram : Histogram; mSummary : Summary }.
Record MetricFamily := { fName : string; fType : MetricType; fMetric : list Metric }.

Definition quote : ascii := Ascii.ascii_of_nat 34.
Definition newline : string := String (Ascii.ascii_of_nat 10) "".
Definition q : string := String quote "".

(** ** Labels *)

(** [strings.ReplaceAll] of a backslash by two. *)
Fixpoint escapeLabelValue (s : string) : string :=
  match s with
  | EmptyString => ""
  | String a s =>
      if bool_decide (a = "\"%char) then String "\" (String "\" (escapeLabelValue s))
      else String a (escapeLabelValue s)
  end.

(** One element of [parts]. *)
Definition label_part (lp : LabelPair) : string :=
  lpName lp +:+ "=" +:+ q +:+ escapeLabelValue (lpValue lp) +:+ q.

Definition renderLabels (labels : list LabelPair) : string :=
  match labels with
  | [] => ""
  | _ => "{" +:+ String.concat "," (label_part <$> labels) +:+ "}"
  end.

Definition appendLabel (existing name value : string) : string :=
  if bool_decide (existing = "") then "{" +:+ name +:+ "=" +:+ q +:+ escapeLabelValue value +:+ q +:+ "}"
  else str_take (String.length existing - 1) existing +:+
       "," +:+ name +:+ "=" +:+ q +:+ escapeLabelValue value +:+ q +:+ "}".

Definition labelsKey (labels : list LabelPair) : string :=
  String.concat "," ((λ lp, lpName lp +:+ "=" +:+ lpValue lp) <$> labels).

(** ** Metrics *)
(** [sort.SliceStable]: not (later less than earlier). *)
Definition bucket_le (x y : Bucket) : Prop := f_lt (UpperBound y) (UpperBound x) = false.
#[local] Instance bucket_le_dec : RelDecision bucket_le.
Proof. intros x y. unfold bucket_le. apply _. Defined.

Definition metric_le (x y : Metric) : Prop :=
  String.ltb (labelsKey (mLabel y)) (labelsKey (mLabel x)) = false.
#[local] Instance metric_le_dec : RelDecision metric_le.
Proof. intros x y. unfold metric_le. apply _. Defined.

Section render.
(** [fmt.Sprintf] with the verb [%g]. *)
Context (formatFloat : float64 → string).

(** One line of output. *)
Definition line (name labels value : string) : string := name +:+ labels +:+ " " +:+ value +:+ newline.

Definition writeMetric (name : string) (t : MetricType) (m : Metric) : string :=
  let labels := renderLabels (mLabel m) in
  match t with
  | COUNTER => line name labels (formatFloat (mCounter m))
  | GAUGE => line name labels (formatFloat (mGauge m))
  | UNTYPED => line name labels (formatFloat (mUntyped m))
  | HISTOGRAM =>
      let h := mHistogram m in
      let buckets := merge_sort bucket_le (hBucket h) in
      String.concat ""
        ((λ b, line (name +:+ "_bucket") (appendLabel labels "le" (formatFloat (UpperBound b)))
                 (pretty (CumulativeCount b))) <$> buckets) +:+
      line (name +:+ "_bucket") (appendLabel labels "le" "+Inf") (pretty (hSampleCount h)) +:+
      line (name +:+ "_sum") labels (formatFloat (hSampleSum h)) +:+
      line (name +:+ "_count") labels (pretty (hSampleCount h))
  | SUMMARY =>
      let s := mSummary m in
      String.concat ""
        ((λ x, line name (appendLabel labels "quantile" (formatFloat (qQuantile x)))
                 (formatFloat (qValue x))) <$> sQuantile s) +:+
      line (name +:+ "_sum") labels (formatFloat (sSampleSum s)) +:+
      line (name +:+ "_count") labels (pretty (sSampleCount s))
  | GAUGE_HISTOGRAM => ""
  end.

Definition writeFamily (f : MetricFamily) : string :=
  let body kind :=
    "# TYPE " +:+ fName f +:+ " " +:+ kind +:+ newline +:+
    String.concat "" (writeMetric (fName f) (fType f) <$> merge_sort metric_le (fMetric f)) in
  match fType f with
  | COUNTER => body "counter"
  | GAUGE => body "gauge"
  | HISTOGRAM => body "histogram"
  | SUMMARY => body "summary"
  | UNTYPED => body "untyped"
  | GAUGE_HISTOGRAM => ""
  end.

Definition renderPrometheus (families : list MetricFamily) : string :=
  String.concat "" (writeFamily <$> families).
End render.

(** ** A reader of rendered labels

    The rules of the exposition format: a name up to the equals sign, a quoted
    value in which a backslash quotes the next byte, then a comma or the
    closing brace. *)

Fixpoint read_value (s : string) : option (string * string) :=
  match s with
  | EmptyString => None
  | String a s =>
      if bool_decide (a = quote) then Some ("", s)
      else if bool_decide (a = "\"%char) then
        match s with
        | String b s => '(v, r) ← read_value s; Some (String b v, r)
        | EmptyString => None
        end
      else '(v, r) ← read_value s; Some (String a v, r)
  end.

Fixpoint read_pairs (fuel : nat) (s : string) : option (list LabelPair) :=
  match fuel with
  | 0 => None
  | S fuel =>
      i ← IndexByte s "=";
      match str_drop (S i) s with
      | String a rest =>
          if bool_decide (a = quote) then
            '(v, rest) ← read_value rest;
            let lp := {| lpName := str_take i s; lpValue := v |} in
            match rest with
            | String b rest =>
                if bool_decide (b = ","%char) then (λ ls, lp :: ls) <$> read_pairs fuel rest
                else if bool_decide (b = "}"%char) && bool_decide (rest = "") then Some [lp] else None
            | EmptyString => None
            end
          else None
      | EmptyString => None
      end
  end.

Definition read_labels (s : string) : option (list LabelPair) :=
  match s with
  | EmptyString => Some []
  | String a s => if bool_decide (a = "{"%char) then read_pairs (String.length s) s else None
  end.

(** ** Facts *)

Lemma str_app_assoc (s t u : string) : (s +:+ t) +:+ u = s +:+ t +:+ u.
Proof.
  induction s as [|a s IH]; [done|].
  change (String a ((s +:+ t) +:+ u) = String a (s +:+ t +:+ u)). by rewrite IH.
Qed.

Lemma concat_snoc sep ls x :
  ls ≠ [] → String.concat sep (ls ++ [x]) = String.concat sep ls +:+ sep +:+ x.
Proof.
  induction ls as [|a [|b ls] IH]; intros Hne; [done|done|].
  change (String.concat sep ((a :: b :: ls) ++ [x])) with (a +:+ sep +:+ String.concat sep ((b :: ls) ++ [x])).
  change (String.concat sep (a :: b :: ls)) with (a +:+ sep +:+ String.concat sep (b :: ls)).
  by rewrite IH, !str_app_assoc.
Qed.

Lemma renderLabels_cons lp ls :
  renderLabels (lp :: ls) = "{" +:+ String.concat "," (label_part <$> lp :: ls) +:+ "}".
Proof. done. Qed.

(** Adding a label to rendered labels is rendering the longer list. *)
Lemma appendLabel_snoc labels name value :
  appendLabel (renderLabels labels) name value =
  renderLabels (labels ++ [{| lpName := name; lpValue := value |}]).
Proof.
  destruct labels as [|lp ls].
  { unfold appendLabel, renderLabels, label_part. cbn [app fmap list_fmap String.concat lpName lpValue].
    by rewrite bool_decide_true, !str_app_assoc. }
  rewrite renderLabels_cons. cbn [app]. rewrite renderLabels_cons.
  change (lp :: ls ++ [{| lpName := name; lpValue := value |}])
    with ((lp :: ls) ++ [{| lpName := name; lpValue := value |}]).
  rewrite fmap_app. cbn [fmap list_fmap]. rewrite concat_snoc by done.
  unfold appendLabel. rewrite bool_decide_false by done.
  change (String "{" "") with ("{" : string).
  rewrite <- (str_app_assoc "{" (String.concat _ _) "}").
  rewrite (str_length_app _ "}"). cbn [String.length].
  replace (_ + 1 - 1) with (String.length ("{" +:+ String.concat "," (label_part lp :: (label_part <$> ls)))) by lia.
  rewrite str_take_app.
  change (label_part {| lpName := name; lpValue := value |})
    with (name +:+ "=" +:+ q +:+ escapeLabelValue value +:+ q).
  by rewrite !str_app_assoc.
Qed.

(** *** Order of the buckets *)

Lemma SFcompare_swap x y : SFcompare y x = CompOpp <$> SFcompare x y.
Proof.
  destruct x as [s|s| |s m e], y as [t|t| |t n f]; simpl; try by repeat case_match; simplify_eq.
  pose proof (Pos.compare_antisym m n) as Hmn. unfold Pos.compare in Hmn.
  rewrite (Z.compare_antisym e f), Hmn.
  by destruct s, t, (Z.compare e f), (Pos.compare_cont Eq m n).
Qed.

Lemma f_lt_asym x y : f_lt x y = true → f_lt y x = false.
Proof. unfold f_lt, SFltb. rewrite (SFcompare_swap x y). by destruct (SFcompare x y) as [[]|]. Qed.

#[local] Instance bucket_le_total : Total bucket_le.
Proof.
  intros x y. unfold bucket_le. destruct (f_lt (UpperBound y) (UpperBound x)) eqn:E; [|by left].
  right. by apply f_lt_asym.
Qed.

(** The lines of a bucket. *)
Definition bucket_line (formatFloat : float64 → string) name labels le n : string :=
  line (name +:+ "_bucket") (renderLabels (labels ++ [{| lpName := "le"; lpValue := le |}])) (pretty (n : N)).

(** A histogram is written in the order the format demands.  Its buckets
    come first, each once and none with a bound below that of the one before;
    then the "+Inf" bucket with the number of all samples, then sum and count.
    Every bucket line has the metric's own labels and its bound. *)
Theorem histogram_layout formatFloat name m :
  let h := mHistogram m in
  ∃ buckets, buckets ≡ₚ hBucket h ∧
    Sorted (λ x y, f_lt (UpperBound y) (UpperBound x) = false) buckets ∧
    writeMetric formatFloat name HISTOGRAM m =
      String.concat "" ((λ b, bucket_line formatFloat name (mLabel m) (formatFloat (UpperBound b))
                                (CumulativeCount b)) <$> buckets) +:+
      bucket_line formatFloat name (mLabel m) "+Inf" (hSampleCount h) +:+
      line (name +:+ "_sum") (renderLabels (mLabel m)) (formatFloat (hSampleSum h)) +:+
      line (name +:+ "_count") (renderLabels (mLabel m)) (pretty (hSampleCount h)).
Proof.
  intros h. exists (merge_sort bucket_le (hBucket h)).
  split; [apply merge_sort_Permutation|]. split; [apply (Sorted_merge_sort bucket_le)|].
  unfold writeMetric, bucket_line. fold h. f_equal.
  - f_equal. apply list_fmap_ext. intros i b _. by rewrite appendLabel_snoc.
  - by rewrite appendLabel_snoc.
Qed.

(** *** Reading the labels back *)

(** No byte of the string is a double quote. *)
Definition quote_free (s : string) : Prop := IndexByte s quote = None.

Lemma quote_free_cons a s : quote_free (String a s) ↔ a ≠ quote ∧ quote_free s.
Proof.
  unfold quote_free. simpl. case_bool_decide; [naive_solver|]. destruct (IndexByte s quote); naive_solver.
Qed.

Lemma read_value_escape v r :
  quote_free v → read_value (escapeLabelValue v +:+ String quote r) = Some (v, r).
Proof.
  induction v as [|a v IH]; [done|]. rewrite quote_free_cons. intros [Ha Hv]. simpl.
  case_bool_decide as Hb.
  - subst a. change (read_value (String "\" (String "\" (escapeLabelValue v +:+ String quote r))) =
      Some (String "\" v, r)). simpl. by rewrite IH.
  - change (read_value (String a (escapeLabelValue v +:+ String quote r)) = Some (String a v, r)). simpl.
    by rewrite !bool_decide_false, IH by done.
Qed.

(** A label whose name has no equals sign and whose value has no quote. *)
Definition clean_label (lp : LabelPair) : Prop :=
  IndexByte (lpName lp) "=" = None ∧ quote_free (lpValue lp).

(** What is left to read after a label. *)
Definition label_tail (ls : list LabelPair) : string :=
  match ls with [] => "}" | _ => "," +:+ String.concat "," (label_part <$> ls) +:+ "}" end.

Lemma concat_labels lp ls :
  String.concat "," (label_part <$> lp :: ls) +:+ "}" = label_part lp +:+ label_tail ls.
Proof.
  destruct ls as [|lq ls]; [done|].
  change (String.concat "," (label_part <$> lp :: lq :: ls))
    with (label_part lp +:+ "," +:+ String.concat "," (label_part <$> lq :: ls)).
  unfold label_tail. by rewrite !str_app_assoc.
Qed.

Lemma label_part_eq lp r :
  label_part lp +:+ r = lpName lp +:+ String "=" (String quote (escapeLabelValue (lpValue lp) +:+ String quote r)).
Proof. unfold label_part. rewrite !str_app_assoc. reflexivity. Qed.

Lemma read_pairs_render ls lp fuel :
  clean_label lp → Forall clean_label ls → length ls < fuel →
  read_pairs fuel (label_part lp +:+ label_tail ls) = Some (lp :: ls).
Proof.
  revert lp fuel. induction ls as [|lq ls IH]; intros lp [|fuel] [Hn Hv] Hls Hf; [simpl in Hf; lia| |simpl in Hf; lia|];
    rewrite label_part_eq; cbn [read_pairs]; rewrite IndexByte_app by done; cbn [mbind option_bind];
    rewrite str_drop_app, str_take_app; rewrite bool_decide_true by done;
    rewrite read_value_escape by done; cbn [mbind option_bind].
  - by destruct lp.
  - inversion Hls as [|? ? Hq Hls']; subst.
    change (label_tail (lq :: ls)) with (String "," (String.concat "," (label_part <$> lq :: ls) +:+ "}")).
    cbv beta iota. rewrite bool_decide_true by done. rewrite concat_labels, IH by (done || (simpl in Hf; lia)).
    by destruct lp.
Qed.

Lemma label_part_length lp : 3 ≤ String.length (label_part lp).
Proof. unfold label_part. rewrite !str_length_app. simpl. lia. Qed.

Lemma label_tail_length ls : length ls < String.length (label_tail ls).
Proof.
  induction ls as [|lp ls IH]; [simpl; lia|].
  change (label_tail (lp :: ls)) with ("," +:+ (String.concat "," (label_part <$> lp :: ls) +:+ "}")).
  rewrite concat_labels, !str_length_app. pose proof (label_part_length lp). simpl. lia.
Qed.



(** Without the condition it fails: only backslashes are escaped, so a quote in
    a value ends it early, and the text of one label reads as two. *)
Example quote_injects_label :
  let labels := [{| lpName := "method"; lpValue := "GET" +:+ q +:+ ",code=" +:+ q +:+ "200" |}] in
  read_labels (renderLabels labels) =
    Some [{| lpName := "method"; lpValue := "GET" |}; {| lpName := "code"; lpValue := "200" |}].
Proof. reflexivity. Qed.

(** The page of one counter and one histogram. *)
Example demo_page :
  let zero := {| hSampleCount := 0; hSampleSum := f_of_Z 0; hBucket := [] |} in
  let none := {| sSampleCount := 0; sSampleSum := f_of_Z 0; sQuantile := [] |} in
  let g (x : float64) : string := match x with S754_zero _ => "0" | _ => "1" end in
  let fam := {| fName := "vc_http_requests_total"; fType := COUNTER;
                fMetric := [{| mLabel := [{| lpName := "method"; lpValue := "POST" |}]; mCounter := f_of_Z 1;
                               mGauge := f_of_Z 0; mUntyped := f_of_Z 0; mHistogram := zero; mSummary := none |};
                            {| mLabel := [{| lpName := "method"; lpValue := "GET" |}]; mCounter := f_of_Z 0;
                               mGauge := f_of_Z 0; mUntyped := f_of_Z 0; mHistogram := zero; mSummary := none |}] |} in
  renderPrometheus g [fam] =
    "# TYPE vc_http_requests_total counter" +:+ newline +:+
    "vc_http_requests_total{method=" +:+ q +:+ "GET" +:+ q +:+ "} 0" +:+ newline +:+
    "vc_http_requests_total{method=" +:+ q +:+ "POST" +:+ q +:+ "} 1" +:+ newline.
Proof. vm_compute. reflexivity. Qed.
